(* ===== verification/_CoqProject ===== *)
-Q . S2P
Prelude.v
Logging.v
IntrusiveList.v
Epoll.v
EventLoop.v
LoopTheorems.v
Frame.v
Deadlines.v
OneShot.v
Sock.v
Addr.v
Parser.v
Connector.v
Buffer.v
Forwarder.v
ForwarderTheorems.v
ForwarderLoop.v
ForwarderNew.v
ForwarderRuns.v
Executor.v
ThreadPool.v
PoolExecutor.v
Dns.v
DnsRuns.v
DnsRings.v
DnsSettles.v
Acceptor.v
Os.v
SimOs.v
Footprint.v
Requests.v
Pairs.v
Hcproxy.v
Whole.v
WholeExample.v
WholeInv.v
WholeStory.v
WholeRuns.v
Main.v
