(* ===== verification/Prelude.v ===== *)
(** * hcproxy: a verified model

    hcproxy (src/src/) is a proxy for HTTP CONNECT. [RunProxy] (hcproxy.cc)
    accepts clients for ever; each is handed by callbacks from component to
    component: the acceptor returns a socket, the parser reads
    "CONNECT host:port HTTP/1.x" from it, the resolver finds the addresses of
    host:port, the connector connects to one, and the forwarder sends the
    response and relays bytes both ways until both directions are shut. Parser,
    connector and forwarder each have one or more event loops - a thread around
    epoll - and handlers of one socket each, which are counted references in
    an intrusive list ordered by deadline; the resolver has a cache, a pool of
    threads, and [getaddrinfo].

    ** Files, in the order in which they build on each other

    - Prelude: outcomes of a piece of program (it returns, a [CHECK] of it
      fails, its behaviour is undefined, the model's fuel is used up); a state
      monad [M] with total-correctness triples [wp m Q s]; C strings, bytes,
      machine integers, lists.
    - Logging (bits.h, logging.h, logging.cc, check.h): the [LOG] and [CHECK]
      statements with [errno].
    - IntrusiveList (list.h, list.cc): nodes in a heap, [AddTail] and [Erase],
      against a list of addresses.
    - Epoll (epoll.h, epoll.cc, time.h): the wrapper of epoll over a class of
      kernels that keep an interest list; the clock.
    - EventLoop (event_loop.h, event_loop.cc): the heap of handlers with
      reference counts, registration, deadlines, the pipe of scheduled
      functions, and one turn of [Loop]: [hold] is the first loop over the
      events, [dispatch] the second, [expire] the loop over the deadlines. Its
      invariant [Inv]; the interfaces [HandlerOwner] and [LoopClient] for a
      class of handlers. LoopTheorems: what holds of every client.
    - Frame: what a turn of a loop cannot change, found by following its text
      ([Stable]); what a class of handlers keeps beside its own invariant.
      Deadlines: how long a handler can stay past its deadline, over any number
      of turns.
    - OneShot: the handlers that answer one callback and go: what the parser
      and the connector share, as an instance of [LoopClient].
    - Sock, Addr (sock.h, sock.cc, addr.h, addr.cc): errors of sockets,
      descriptors, addresses and their text.
    - Parser (parser.h, parser.cc): [Read] and its handler, against a reference
      definition and a regular expression.
    - Connector (connector.h, connector.cc): [Connect] and its handler.
    - Buffer, Forwarder, ForwarderTheorems, ForwarderLoop, ForwarderNew,
      ForwarderRuns (forwarder.h, forwarder.cc): the buffer, which is a pipe of
      the kernel; a link and its peer, with every operation and the invariant
      [Fwd]; [ForwardFromOther]; the instance of [LoopClient]; [New]; runs.
    - Executor: what the resolver needs of a pool of threads, as a class.
      ThreadPool (thread_pool.h, thread_pool.cc): the pool, a step of a thread
      being a critical section. PoolExecutor: the pool is an executor.
    - Dns (dns.h, dns.cc): the cache, the rings of addresses, the critical
      sections of [Resolve] and [ProcessCacheEntry]. DnsRuns: their
      interleavings, over any executor, and the invariants. DnsRings: the
      deleter of the shared pointers, and runs in which it frees the rings.
      DnsSettles: with the pool as the executor, every call is answered.
    - Acceptor (acceptor.h, acceptor.cc): the constructor and [Accept].
    - Os: one kernel for all components, and what its calls of one kind leave of
      what is observed by others; SimOs: a kernel that keeps all laws.
    - Footprint: what a turn of each component changes, and which changes by
      others each component stands. Requests: what the parser answers is what a
      client has sent. Pairs: the forwarder's links have the sockets of one
      call of [Forward].
    - Hcproxy (hcproxy.cc): [IsAllowedPort] and the callbacks of [RunProxy],
      with the resolver and its pool as one system, and any parser and
      connector.
    - Whole: the program, the three event loops, the resolver, the acceptor's
      loop and the callbacks as threads over one kernel; WholeInv: its
      invariant, and that its steps are those of Hcproxy; WholeStory: what has
      been done for each client; WholeRuns: the theorems; WholeExample: a run.
    - Main (hcproxy.cc, event_loop.cc): [main], and the constructors up to the
      state where the runs begin.

    ** What the theorems show

    - The whole program, from its start ([RunProxy_starts]): it
      implements the abstract proxy ([whole_refines_proxy]); each client that is
      connected has the server that it has asked for ([whole_connects]); no
      client is forgotten or served twice ([whole_clients_kept]); each
      descriptor has one owner and the bytes arrive in order ([whole_relays]);
      what is to be done can be done ([whole_goes_on]); every step keeps the
      state well-formed ([whole_step_well_formed]).
    - The abstract proxy: every client is in one place - a callback, the
      forwarder, or closed - at any time, and addresses connected to are of
      allowed ports ([proxy_serves_once], [proxy_allowed_ports]).
    - Every callback is called exactly once: by the parser, the resolver and
      the connector ([request_answered_once], [resolve_answered_once],
      [connect_answered_once]), the parser's in time ([request_answered_in_time]).
    - The event loop is safe for every class of handlers that keeps
      [LoopClient]: no [CHECK] fails, nothing is used after it is freed, no
      reference is lost, no deadline is left behind ([Loop_turn_safe] and the
      theorems on turns of the parser, connector and forwarder, which
      discharge the interface).
    - The forwarder relays exactly the bytes it takes, in order
      ([relayed_in_order], between two open links; [link_OnEvent_correct] for
      the callback that closes one), moves all that can be moved
      ([ForwardFromOther_correct]) and closes each descriptor once. Bytes are
      lost only after EPOLLERR, the timeout, or a failure of splice(2), which
      the view of the kernel counts ([broke]).
    - [Read] accepts the regular expression in the comment of parser.cc, however
      the text arrives.
    - The thread pool runs each function once, not before its time and in order,
      loses no wake-up, and its destructor returns.
    - The resolver's answers are fresh and of the right key; the loop that
      catches up with the use of addresses ends. Nothing more is needed for an
      answer than that the threads go on: the resolver and its pool make a
      number of steps that is bounded by a rank, and at their end every callback
      has been called ([resolver_settles]). The lists of [getaddrinfo] are freed
      whole, once, when nothing points to them, and no freed address is read
      ([rings_released]).
    - A handler that is past its deadline stays registered for less than one
      timeout more ([timeouts_come]), and can stay that long
      ([expired_handler_waits]).
    - The text of an address can be read back ([print_IpPort_read]).
    - Refinements: the intrusive list is a sequence, [EPoll] a map, the loop a
      queue by deadline, the thread pool an executor.
    - Errors: what aborts, and two places where the code does not do what it
      means to: [dns_error_reads_dangling], [unresolved_at_boot].

    ** How the code is modelled

    Code outside src/ - the kernel's calls, [getaddrinfo], [freeaddrinfo] - is a
    parameter: a class of operations, and where needed a class of laws which
    say what the manual says of a call. Each example instantiates them with a
    small system that computes. Handlers, nodes, cache entries and addresses
    live in heaps by address, so a use of freed memory is an outcome, [UB],
    which the theorems exclude. What the program relies on beside the manual is
    said where it is assumed: [PipeAssumptions] (the kernel grants the pipes'
    sizes; a peer sends finitely many bytes while one event is handled),
    [EpollLaws] (memory for watches, no signal that interrupts a wait),
    [turn_env] (a turn takes less time than the timeout, the kernel reports the
    loop's pipe as readable only when it is). Callbacks and scheduled functions are names. A
    statement [LOG] is left out where its operands have no effect, and its
    operands are kept where they have ([IpPort] has a [CHECK]).

    Steps of different threads are interleaved as the code can be: a handler's
    loop has one thread, and the functions scheduled from others are in its
    pipe; in the thread pool and the resolver what happens between two releases
    of a mutex is one step. In the whole program a step is a turn of an event
    loop, a step of the resolver or its pool, a client accepted, or a callback;
    the callbacks that a turn calls run after it, in any order. The components
    of the whole program act on the kernel that the others have left ([load_par],
    [load_con], [load_fwd]); each is shown to keep its invariant whatever the
    others do that does not concern its descriptors. Operands of [|] may be evaluated in either order
    ([left_first] in Forwarder).

    Fuel: [Read_loop] has the free space of the buffer, [forward_loop] a measure
    of what can be moved, [rotate] the number of uses, [close_ring] and
    [Describe] the number of nodes; the theorems show that it is enough. The
    fuel of [expire] and of a turn is any number from the size of the list or
    pipe on. [Accept] may be refused for ever, so its theorem has the number of
    refusals.

    Simplified: [event_loop_] is a boolean, as a handler has one loop at a
    time; [ref_count_], [use_count] and times are unbounded integers
    ([last_idx_] of the thread pool is not); a notification of a condition
    variable that has been called is delivered at any later time; the
    [std::function] of a work item is a name, or empty; the mutexes
    themselves are not modelled, their critical sections are.

    Left out of the starts: [freeaddrinfo] of the acceptor's own lookup; the
    writing end of a loop's pipe and its epoll descriptor, which are opened
    ([new_loop]) but are not in the loop's state, so the theorems on the owners
    of descriptors do not cover them.

    Not modelled: what a thread of one loop does between two system calls of a
    turn of another (a turn is one step: the definitions of a component run from
    call to call without a point where others come in; that the others' turns
    before and after it do no harm is what Footprint shows); the release of the
    resolver's rings in the whole program (the resolver by itself does the same
    with it and without it, by [rings_released]); the destructors of objects
    that live as long as the process; the text of the log but for its format
    and its effect on [errno]; signals other than SIGPIPE. *)

From stdpp Require Export base tactics list gmap relations strings.
From Stdlib Require Export Ascii ZArith Lia.

(** ** Outcomes

    What a piece of the program does: it returns, a [CHECK] of it fails
    ([LOG(FATAL)], then [std::abort]), it runs into undefined behaviour (a
    dereference of memory that is not allocated), or the fuel of one of the
    model's loops runs out. *)
Inductive outcome (A : Type) : Type :=
  | Done (a : A)
  | Abort (why : string)
  | UB (why : string)
  | NoFuel.
Arguments Done {A} a.
Arguments Abort {A} why.
Arguments UB {A} why.
Arguments NoFuel {A}.

(** ** The state monad of the model *)
Definition M (S A : Type) : Type := S → outcome (A * S).

Section monad.
Context {S : Type}.

#[export] Instance M_ret : MRet (M S) := λ A a s, Done (a, s).
#[export] Instance M_bind : MBind (M S) := λ A B f m s,
  match m s with
  | Done (a, s') => f a s'
  | Abort e => Abort e
  | UB e => UB e
  | NoFuel => NoFuel
  end.

Definition get : M S S := λ s, Done (s, s).
Definition gets {A} (f : S → A) : M S A := λ s, Done (f s, s).
Definition modify (f : S → S) : M S unit := λ s, Done (tt, f s).
Definition abort {A} (why : string) : M S A := λ _, Abort why.
Definition undefined {A} (why : string) : M S A := λ _, UB why.
Definition no_fuel {A} : M S A := λ _, NoFuel.

(** A dereference: undefined behaviour when the object is not there. *)
Definition deref {A} (why : string) (f : S → option A) : M S A := λ s,
  match f s with Some a => Done (a, s) | None => UB why end.

(** A call that works on a part of the state. *)
Definition zoom {T A} (π : S → T) (upd : T → S → S) (m : M T A) : M S A := λ s,
  match m (π s) with
  | Done (a, t) => Done (a, upd t s)
  | Abort e => Abort e
  | UB e => UB e
  | NoFuel => NoFuel
  end.

Definition when (b : bool) (m : M S unit) : M S unit := if b then m else mret tt.

(** [for (x : xs) f(x);] *)
Fixpoint for_each {A} (f : A → M S unit) (xs : list A) : M S unit :=
  match xs with
  | [] => mret tt
  | x :: xs => f x ;; for_each f xs
  end.

(** *** Total correctness

    [wp m Q s]: run from [s], [m] returns (no failed [CHECK], no undefined
    behaviour, no lack of fuel), and its result and final state satisfy
    [Q]. *)
Definition wp {A} (m : M S A) (Q : A → S → Prop) (s : S) : Prop :=
  match m s with Done (a, s') => Q a s' | _ => False end.

Lemma wp_ret {A} (a : A) Q s : Q a s → wp (mret a) Q s.
Proof. done. Qed.

Lemma wp_bind {A B} (m : M S A) (f : A → M S B) Q s :
  wp m (λ a, wp (f a) Q) s → wp (m ≫= f) Q s.
Proof. unfold wp, mbind, M_bind. by destruct (m s) as [[a s']| | |]. Qed.

Lemma wp_bind_inv {A B} (m : M S A) (f : A → M S B) Q s :
  wp (m ≫= f) Q s → wp m (λ a, wp (f a) Q) s.
Proof. unfold wp, mbind, M_bind. by destruct (m s) as [[a s']| | |]. Qed.

Lemma wp_mono {A} (m : M S A) (Q R : A → S → Prop) s :
  wp m Q s → (∀ a s', Q a s' → R a s') → wp m R s.
Proof. unfold wp. destruct (m s) as [[a s']| | |]; naive_solver. Qed.

Lemma wp_bind_mono {A B} (m : M S A) (f : A → M S B) R Q s :
  wp m R s → (∀ a s', R a s' → wp (f a) Q s') → wp (m ≫= f) Q s.
Proof. intros Hm Hf. apply wp_bind. by apply (wp_mono _ R). Qed.

Lemma bind_Done {A B} (m : M S A) (f : A → M S B) a s s' :
  m s = Done (a, s') → (m ≫= f) s = f a s'.
Proof. unfold mbind, M_bind. by intros ->. Qed.

Lemma bind_Abort {A B} (m : M S A) (f : A → M S B) why s :
  m s = Abort why → (m ≫= f) s = Abort why.
Proof. unfold mbind, M_bind. by intros ->. Qed.

Lemma wp_run {A} (m : M S A) (Q : A → S → Prop) s :
  wp m Q s → wp m (λ a s', m s = Done (a, s') ∧ Q a s') s.
Proof. unfold wp. by destruct (m s) as [[a s']| | |]. Qed.

Lemma wp_and {A} (m : M S A) (Q R : A → S → Prop) s :
  wp m Q s → wp m R s → wp m (λ a s', Q a s' ∧ R a s') s.
Proof. unfold wp. destruct (m s) as [[a s']| | |]; naive_solver. Qed.

Lemma wp_get Q (s : S) : Q s s → wp get Q s.
Proof. done. Qed.
Lemma wp_gets {A} (f : S → A) Q s : Q (f s) s → wp (gets f) Q s.
Proof. done. Qed.
Lemma wp_modify (f : S → S) Q s : Q tt (f s) → wp (modify f) Q s.
Proof. done. Qed.

Lemma wp_deref {A} why (f : S → option A) a Q s :
  f s = Some a → Q a s → wp (deref why f) Q s.
Proof. unfold wp, deref. by intros ->. Qed.

Lemma wp_when (b : bool) m Q s :
  (b = true → wp m Q s) → (b = false → Q tt s) → wp (when b m) Q s.
Proof. destruct b; cbn; auto. Qed.

Lemma wp_Done {A} (m : M S A) Q s :
  wp m Q s → ∃ a s', m s = Done (a, s') ∧ Q a s'.
Proof. unfold wp. destruct (m s) as [[a s']| | |]; naive_solver. Qed.

Lemma wp_Done_eq {A} (m : M S A) s a t :
  wp m (λ b s', b = a ∧ s' = t) s → m s = Done (a, t).
Proof. intros (b & s' & -> & -> & ->)%wp_Done. done. Qed.

Lemma wp_of_Done {A} (m : M S A) (Q : A → S → Prop) s a s' :
  m s = Done (a, s') → Q a s' → wp m Q s.
Proof. unfold wp. by intros ->. Qed.

(** The state in which a run ends. *)
Definition after {A} (m : M S A) (s : S) : S := match m s with Done (_, s') => s' | _ => s end.

Lemma wp_after {A} (m : M S A) (Q : S → Prop) s : wp m (λ _, Q) s → Q (after m s).
Proof. unfold wp, after. by destruct (m s) as [[a s']| | |]. Qed.

(** An invariant of the body is an invariant of the loop. *)
Lemma wp_for_each {A} (f : A → M S unit) (I : list A → S → Prop) xs Q s :
  I xs s →
  (∀ x ys s', I (x :: ys) s' → wp (f x) (λ _, I ys) s') →
  (∀ s', I [] s' → Q tt s') →
  wp (for_each f xs) Q s.
Proof.
  intros H0 Hstep Hend. revert s H0.
  induction xs as [|x xs IH]; intros s H0; cbn.
  - by apply wp_ret, Hend.
  - eapply wp_bind_mono; [by apply Hstep|]. intros [] s' H'. by apply IH.
Qed.
End monad.

Lemma wp_zoom {S T A} (π : S → T) (upd : T → S → S) (m : M T A) Q s :
  wp m (λ a t, Q a (upd t s)) (π s) → wp (zoom π upd m) Q s.
Proof. unfold wp, zoom. by destruct (m (π s)) as [[a t]| | |]. Qed.

(** [CHECK(cond) << why;] (check.h): nothing when the condition holds,
    [LOG(FATAL)] otherwise. *)
Definition CHECK {S} (why : string) (cond : bool) : M S unit :=
  if cond then mret tt else abort why.

Lemma wp_CHECK {S} why cond Q (s : S) :
  cond = true → Q tt s → wp (CHECK why cond) Q s.
Proof. by intros ->. Qed.

Lemma CHECK_false {S} why (s : S) : CHECK why false s = Abort why.
Proof. done. Qed.

(** [CHECK(p)] of a pointer that the code dereferences next. *)
Definition non_null {S A} (why : string) (p : option A) : M S A :=
  match p with Some p => mret p | None => abort why end.

Lemma wp_non_null {S A} why (p : A) Q (s : S) : Q p s → wp (non_null why (Some p)) Q s.
Proof. done. Qed.

(** *** Programs that return with [Q] or abort *)
Definition safe {S A} (m : M S A) (Q : A → S → Prop) (s : S) : Prop :=
  match m s with Done (a, s') => Q a s' | Abort _ => True | _ => False end.

Section safe.
Context {S : Type}.
Lemma safe_bind {A B} (m : M S A) (f : A → M S B) Q s : safe m (λ a, safe (f a) Q) s → safe (m ≫= f) Q s.
Proof. unfold safe, mbind, M_bind. by destruct (m s) as [[a s']| | |]. Qed.
Lemma safe_mono {A} (m : M S A) (Q R : A → S → Prop) s : safe m Q s → (∀ a s', Q a s' → R a s') → safe m R s.
Proof. unfold safe. destruct (m s) as [[a s']| | |]; auto. Qed.
Lemma safe_wp {A} (m : M S A) (Q : A → S → Prop) s : wp m Q s → safe m Q s.
Proof. unfold safe, wp. by destruct (m s) as [[a s']| | |]. Qed.
Lemma safe_ret {A} (a : A) (Q : A → S → Prop) s : Q a s → safe (mret a) Q s.
Proof. done. Qed.
Lemma safe_gets {A} (f : S → A) Q s : Q (f s) s → safe (gets f) Q s.
Proof. done. Qed.
Lemma safe_modify f (Q : unit → S → Prop) s : Q tt (f s) → safe (modify f) Q s.
Proof. done. Qed.
Lemma safe_CHECK why b (Q : unit → S → Prop) s : (b = true → Q tt s) → safe (CHECK why b) Q s.
Proof. intros HQ. unfold CHECK. destruct b; [by apply HQ|done]. Qed.
Lemma safe_when b (m : M S unit) (Q : unit → S → Prop) s : (b = true → safe m Q s) → (b = false → Q tt s) → safe (when b m) Q s.
Proof. destruct b; intros H1 H2; [by apply H1|by apply H2]. Qed.
Lemma safe_zoom {A T} (π : S → T) upd (m : M T A) Q s : safe m (λ a t, Q a (upd t s)) (π s) → safe (zoom π upd m) Q s.
Proof. unfold safe, zoom. by destruct (m (π s)) as [[a t]| | |]. Qed.
End safe.

(** ** Tactics *)

(** One step of symbolic execution. *)
Ltac wp_step :=
  lazymatch goal with
  | |- wp (mret _) _ _ => apply wp_ret
  | |- wp (mbind _ _) _ _ => apply wp_bind
  | |- wp get _ _ => apply wp_get
  | |- wp (gets _) _ _ => apply wp_gets
  | |- wp (modify _) _ _ => apply wp_modify
  | |- wp (CHECK _ _) _ _ => apply wp_CHECK
  | |- wp (non_null _ (Some _)) _ _ => apply wp_non_null
  | |- wp (deref _ _) _ _ => eapply wp_deref
  | |- wp (zoom _ _ _) _ _ => apply wp_zoom
  | |- wp (when _ _) _ _ => apply wp_when
  end.
Ltac wp_steps := repeat (wp_step; cbn beta).

(** Lemmas that carry a fact over a step of a program; lemmas that read a field
    of a state that a step leaves as it was. *)
Create HintDb kept.
Create Rewrite HintDb pool.

(** Splits a conjunction of booleans or propositions in a goal. *)
Ltac split_and_all := repeat match goal with |- _ ∧ _ => split end.

(** ** Runs of a step relation *)
Lemma rtc_invariant {A} (R : relation A) (P : A → Prop) x y :
  rtc R x y → P x → (∀ a b, P a → R a b → P b) → P y.
Proof. induction 1; eauto. Qed.

(** ** Bytes and C strings *)

Abbreviation bytes := (list ascii).

(** A string literal as bytes. *)
Definition B (s : string) : bytes := String.list_ascii_of_string s.

Definition NUL : ascii := "000"%char.
Definition SP : ascii := " "%char.
Definition CR : ascii := "013"%char.
Definition LF : ascii := "010"%char.
Definition COLON : ascii := ":"%char.

(** [c_str()] as a C function reads it: up to the first NUL. *)
Fixpoint c_str (s : bytes) : bytes :=
  match s with
  | [] => []
  | c :: s => if decide (c = NUL) then [] else c :: c_str s
  end.

(** The position of the first character that satisfies [f]
    ([find], [find_first_of]); [None] is [npos]. *)
Fixpoint find_first (f : ascii → bool) (s : bytes) : option nat :=
  match s with
  | [] => None
  | c :: s => if f c then Some 0 else S <$> find_first f s
  end.

Lemma find_first_Some f s i :
  find_first f s = Some i ↔
  ∃ l c r, s = l ++ c :: r ∧ length l = i ∧ f c = true ∧ Forall (λ d, f d = false) l.
Proof.
  revert i. induction s as [|d s IH]; intros i; cbn.
  - split; [done|]. by intros ([|??] & ? & ? & ? & _).
  - destruct (f d) eqn:Hd.
    + split.
      * intros [= <-]. by exists [], d, s.
      * intros ([|e l] & c & r & [= -> ->] & <- & Hc & Hl); [done|].
        apply Forall_cons in Hl as [? _]. congruence.
    + rewrite fmap_Some. split.
      * intros (j & (l & c & r & -> & <- & Hc & Hl)%IH & ->). exists (d :: l), c, r.
        by repeat split; [..|constructor].
      * intros ([|e l] & c & r & [= -> ->] & <- & Hc & Hl); [congruence|].
        apply Forall_cons in Hl as [? Hl]. exists (length l). split; [|done].
        apply IH. by exists l, c, r.
Qed.

Lemma find_first_None f s : find_first f s = None ↔ Forall (λ d, f d = false) s.
Proof.
  induction s as [|d s IH]; cbn; [by split|]. rewrite Forall_cons.
  destruct (f d); [naive_solver|]. rewrite fmap_None. naive_solver.
Qed.

Lemma c_str_id s : NUL ∉ s → c_str s = s.
Proof.
  induction s as [|c s IH]; [done|]. intros [Hc Hs]%not_elem_of_cons; cbn.
  rewrite decide_False by congruence. by rewrite IH.
Qed.

Lemma c_str_app s t : NUL ∉ s → c_str (s ++ t) = s ++ c_str t.
Proof.
  induction s as [|c s IH]; [done|]. intros [Hc Hs]%not_elem_of_cons; cbn.
  rewrite decide_False by congruence. by rewrite IH.
Qed.

Lemma c_str_split s :
  (NUL ∉ s ∧ c_str s = s) ∨ (∃ l r, s = l ++ NUL :: r ∧ NUL ∉ l ∧ c_str s = l).
Proof.
  induction s as [|c s IH]; [left; split; [apply not_elem_of_nil|done]|]. cbn.
  case_decide as Hc; subst.
  - right. exists [], s. split; [done|]. split; [apply not_elem_of_nil|done].
  - destruct IH as [[? ->]|(l & r & -> & ? & ->)]; [left|right].
    + split; [|done]. by apply not_elem_of_cons.
    + exists (c :: l), r. split; [done|]. split; [by apply not_elem_of_cons|done].
Qed.

(** ** Machine integers *)

(** The conversions between [int] and [uint32_t] that keep the bits. *)
Definition to_uint32 (z : Z) : Z := (z `mod` 2 ^ 32)%Z.
Definition to_int32 (z : Z) : Z := ((z + 2 ^ 31) `mod` 2 ^ 32 - 2 ^ 31)%Z.

Lemma to_uint32_to_int32 z : to_uint32 (to_int32 z) = to_uint32 z.
Proof.
  unfold to_uint32, to_int32. rewrite Zminus_mod_idemp_l. f_equal. lia.
Qed.

Lemma to_int32_id z : (- 2 ^ 31 ≤ z < 2 ^ 31)%Z → to_int32 z = z.
Proof. intros. unfold to_int32. rewrite Z.mod_small by lia. lia. Qed.

(** ** Lists *)

(** A list split at an element, two ways. *)
Lemma snoc_eq_split {A} (xs l1 l2 : list A) x p :
  xs ++ [x] = l1 ++ p :: l2 →
  (l1 = xs ∧ p = x ∧ l2 = []) ∨ (∃ l2', l2 = l2' ++ [x] ∧ xs = l1 ++ (p :: l2')).
Proof.
  destruct l2 as [|y l2 _] using rev_ind; intros H.
  - apply app_inj_tail in H as [-> ->]. by left.
  - right. rewrite app_comm_cons, (assoc_L (++)) in H.
    apply app_inj_tail in H as [-> ->]. by exists l2.
Qed.

Lemma app_eq_split {A} (xs ys l1 l2 : list A) p :
  xs ++ ys = l1 ++ p :: l2 →
  (∃ k, xs = l1 ++ (p :: k) ∧ l2 = k ++ ys) ∨ (∃ k, ys = k ++ (p :: l2) ∧ l1 = xs ++ k).
Proof.
  intros [([|q k] & -> & ?)|(k & -> & ->)]%app_eq_inv; simplify_list_eq.
  - right. exists []. by rewrite !app_nil_r.
  - left. by exists k.
  - right. by exists k.
Qed.

Lemma NoDup_middle {A} (l1 l2 : list A) x :
  NoDup (l1 ++ x :: l2) → x ∉ l1 ∧ x ∉ l2 ∧ NoDup (l1 ++ l2).
Proof.
  rewrite <- Permutation_middle, NoDup_cons, not_elem_of_app. naive_solver.
Qed.

(** The ends of a list that has elements on a side. *)
Lemma head_of_snoc {A} (k : list A) p :
  ∃ y, y ∈ k ++ [p] ∧ ∀ r, ((k ++ [p]) ++ r) !! 0 = Some y.
Proof. destruct k as [|y k]; [exists p|exists y]; split; (done || set_solver). Qed.

Lemma last_of_cons {A} (q : A) k :
  ∃ z, z ∈ q :: k ∧ ∀ l, last (l ++ q :: k) = Some z.
Proof.
  destruct (last (q :: k)) as [z|] eqn:E; [|by apply last_None in E].
  exists z. split; [by apply last_Some_elem_of|]. intros l. by rewrite last_app, E.
Qed.
