(* ===== verification/Logging.v ===== *)
(** * Bits, logging and assertions (bits.h, logging.h, logging.cc, check.h)

    [HasBits]; the [LOG] and [CHECK] macros with the temporary [LogStream]
    object that a statement creates, and what they do to [errno]. *)

From stdpp Require Import pretty.
From S2P Require Import Prelude.

(** ** bits.h *)

Definition HasBits (bitmask bits : Z) : bool := (Z.land bitmask bits =? bits)%Z.

(** ** logging.h *)

Inductive Severity := INFO | WARN | ERROR | FATAL.

Definition severity_value (s : Severity) : Z :=
  match s with INFO => 0 | WARN => 1 | ERROR => 2 | FATAL => 3 end.

(** logging.cc: [Str]. *)
Definition Str (s : Severity) : bytes :=
  match s with
  | INFO => B "INFO" | WARN => B "WARN" | ERROR => B "ERROR" | FATAL => B "FATAL"
  end.

Section logging.
(** The rest of the program's state, the C library's [strerror_r] and the
    time of day as [strftime] prints it (the buffer is always large enough
    for it). Formatting may call functions that overwrite [errno]:
    [clobber] says with what. *)
Context {W : Type} (strerror : Z → bytes) (time_str : W → bytes) (clobber : bytes → Z → Z).

Record log_state := mkLog { errno : Z; stderr : bytes; rest : W }.

Record LogStreamBase := mkStream {
  errno_ : Z; file_ : bytes; line_ : Z; severity_ : Severity; strm_ : bytes
}.

(** What can be streamed into a [LOG] statement: text, a given error number
    ([Errno(err)]), the stashed one ([Errno()]), and an operand that runs
    code before it is printed. *)
Inductive item :=
  | Text (s : bytes)
  | ErrnoOf (err : Z)
  | StashedErrno
  | Operand (m : M log_state bytes).

Definition set_errno (e : Z) (s : log_state) : log_state := mkLog e (stderr s) (rest s).

(** The constructor stashes [errno]. *)
Definition LogStreamBase_new (file : bytes) (line : Z) (sev : Severity) :
    M log_state LogStreamBase :=
  e ← gets errno;
  mret (mkStream e file line sev []).

(** [operator<<]: prints a value into the stream's buffer. *)
Definition put_text (l : LogStreamBase) (t : bytes) : M log_state LogStreamBase :=
  modify (λ s, set_errno (clobber t (errno s)) s) ;;
  mret (mkStream (errno_ l) (file_ l) (line_ l) (severity_ l) (strm_ l ++ t)).

Definition stream_item (l : LogStreamBase) (i : item) : M log_state LogStreamBase :=
  match i with
  | Text t => put_text l t
  | ErrnoOf e => put_text l (strerror e)
  | StashedErrno => put_text l (strerror (errno_ l))
  | Operand m => t ← m; put_text l t
  end.

Fixpoint stream_items (l : LogStreamBase) (its : list item) : M log_state LogStreamBase :=
  match its with
  | [] => mret l
  | i :: its => l ← stream_item l i; stream_items l its
  end.

(** logging.cc: [LogStreamBase::Flush]. The message goes through [%s]. *)
Definition log_line (time : bytes) (l : LogStreamBase) : bytes :=
  B "[" ++ time ++ [SP] ++ Str (severity_ l) ++ [SP] ++ file_ l ++ [COLON] ++
  B (pretty (line_ l)) ++ B "] " ++ c_str (strm_ l) ++ [LF].

Definition Flush (l : LogStreamBase) : M log_state unit :=
  modify (λ s, let out := log_line (time_str (rest s)) l in
               mkLog (clobber out (errno s)) (stderr s ++ out) (rest s)) ;;
  modify (set_errno (errno_ l)).

(** The destructors [~LogStream()]: [LogStream<FATAL>] aborts. *)
Definition LogStream_delete (l : LogStreamBase) : M log_state unit :=
  Flush l ;;
  match severity_ l with FATAL => abort "LOG(FATAL)" | _ => mret tt end.

(** The [LOG] macro; [min_lvl] is [HCP_MIN_LOG_LVL]. When the severity is
    below it the operands are not evaluated. *)
Definition LOG (min_lvl sev : Severity) (file : bytes) (line : Z) (its : list item) :
    M log_state unit :=
  if (severity_value sev <? severity_value min_lvl)%Z then mret tt
  else
    l ← LogStreamBase_new file line sev;
    l ← stream_items l its;
    LogStream_delete l.

(** check.h: [CHECK(cond) << is;]. *)
Definition CHECK_LOG (min_lvl : Severity) (file : bytes) (line : Z) (cond : bool) (text : bytes)
    (its : list item) : M log_state unit :=
  if cond then mret tt
  else LOG min_lvl FATAL file line (Text text :: Text (B ": ") :: its).

(** *** Operands that do nothing but compute a text *)
Definition item_plain (i : item) : bool := match i with Operand _ => false | _ => true end.

Definition item_text (e : Z) (i : item) : bytes :=
  match i with
  | Text t => t | ErrnoOf e' => strerror e' | StashedErrno => strerror e | Operand _ => []
  end.

Definition items_text (e : Z) (its : list item) : bytes := concat (item_text e <$> its).

Lemma stream_items_wp l its (s : log_state) Q :
  forallb item_plain its = true →
  (∀ e', Q (mkStream (errno_ l) (file_ l) (line_ l) (severity_ l)
              (strm_ l ++ items_text (errno_ l) its)) (set_errno e' s)) →
  wp (stream_items l its) Q s.
Proof.
  revert l s. induction its as [|i its IH]; intros l s Hpl HQ; cbn in *.
  - wp_steps. specialize (HQ (errno s)). destruct l, s; cbn in *.
    by rewrite app_nil_r in HQ.
  - apply andb_prop in Hpl as [Hi Hpl]. destruct i; cbn in *; [..|done].
    all: unfold put_text; wp_steps; apply IH; [done|]; intros e'; cbn;
      rewrite <- (assoc_L (++)); apply (HQ e').
Qed.
End logging.

(** [HasBits(mask, bits)] is true exactly when every bit of [bits] is set
    in [mask]. *)
Theorem HasBits_spec mask bits :
  HasBits mask bits = true ↔ ∀ n, (0 ≤ n)%Z → Z.testbit bits n = true → Z.testbit mask n = true.
Proof.
  unfold HasBits. rewrite Z.eqb_eq. split.
  - intros H n _ Hn. rewrite <- H, Z.land_spec in Hn. by apply andb_prop in Hn as [? _].
  - intros H. apply Z.bits_inj'. intros n Hn. rewrite Z.land_spec.
    destruct (Z.testbit bits n) eqn:E; [by rewrite H|by rewrite andb_false_r].
Qed.

(** What a statement writes. *)
Definition LOG_text {W} strerror time_str (min_lvl sev : Severity) file line (its : list (item (W := W))) (s : log_state (W := W)) : bytes :=
  if (severity_value sev <? severity_value min_lvl)%Z then []
  else log_line (time_str (rest s)) (mkStream (errno s) file line sev (items_text strerror (errno s) its)).

Lemma LOG_plain {W} strerror time_str clobber min_lvl sev file line its (s : log_state (W := W)) :
  sev ≠ FATAL → forallb item_plain its = true →
  LOG strerror time_str clobber min_lvl sev file line its s =
    Done (tt, mkLog (errno s) (stderr s ++ LOG_text strerror time_str min_lvl sev file line its s) (rest s)).
Proof.
  intros Hsev Hpl. apply wp_Done_eq. unfold LOG, LOG_text.
  destruct (_ <? _)%Z; [by destruct s; rewrite app_nil_r|].
  unfold LogStreamBase_new. wp_steps. apply stream_items_wp; [done|]. intros e'.
  unfold LogStream_delete, Flush. wp_steps. by destruct sev; cbn.
Qed.

(** A [LOG] statement below [FATAL] whose operands are plain values leaves
    [errno] as it was, whatever the formatting and the output do to it, so
    that code can test [errno] after logging; and [Errno()] in it prints the
    error that [errno] held when the statement began. It writes one line, or
    nothing when the severity is below the configured minimum. *)
Lemma LOG_keeps_errno {W} strerror time_str clobber min_lvl sev file line its
    (s : log_state (W := W)) :
  sev ≠ FATAL → forallb item_plain its = true →
  ∃ out,
    LOG strerror time_str clobber min_lvl sev file line its s =
      Done (tt, mkLog (errno s) (stderr s ++ out) (rest s)) ∧
    out = (if (severity_value sev <? severity_value min_lvl)%Z then []
           else log_line (time_str (rest s))
                  (mkStream (errno s) file line sev (items_text strerror (errno s) its))).
Proof. intros Hsev Hpl. eexists; split; [|done]. by apply LOG_plain. Qed.

Lemma CHECK_LOG_plain {W} strerror time_str clobber min_lvl file line cond text its
    (s : log_state (W := W)) :
  forallb item_plain its = true →
  CHECK_LOG strerror time_str clobber min_lvl file line cond text its s =
    if cond then Done (tt, s) else Abort "LOG(FATAL)".
Proof.
  intros Hpl. unfold CHECK_LOG. destruct cond; [done|]. unfold LOG.
  replace (severity_value FATAL <? severity_value min_lvl)%Z with false by (by destruct min_lvl).
  remember (Text text :: Text (B ": ") :: its) as its1 eqn:E1.
  assert (forallb item_plain its1 = true) as Hits by (by subst).
  clear E1. rewrite (bind_Done _ _ (mkStream (errno s) file line FATAL []) s s) by done.
  assert (wp (stream_items strerror clobber (mkStream (errno s) file line FATAL []) its1)
            (λ l _, severity_ l = FATAL) s) as H by (by apply stream_items_wp).
  apply wp_Done in H as (l & s' & H & Hl). rewrite (bind_Done _ _ _ _ _ H).
  unfold LogStream_delete. by rewrite Hl.
Qed.

(** [CHECK] does nothing when its condition holds, and otherwise aborts
    the process after writing a line, at every configured minimum level: no
    level disables [FATAL]. *)
Theorem CHECK_LOG_aborts {W} strerror time_str clobber min_lvl file line cond text its
    (s : log_state (W := W)) :
  forallb item_plain its = true →
  CHECK_LOG strerror time_str clobber min_lvl file line cond text its s =
    if cond then Done (tt, s) else Abort "LOG(FATAL)".
Proof. apply CHECK_LOG_plain. Qed.

Lemma CHECK_LOG_aborts_witness :
  CHECK_LOG (λ _, B "EBADF") (λ _ : unit, B "t") (λ _ e, e) FATAL (B "a.cc") 3 false
    (B "fd >= 0") [StashedErrno] (mkLog 9 [] tt) = Abort "LOG(FATAL)".
Proof.
  apply (CHECK_LOG_aborts (λ _, B "EBADF") (λ _ : unit, B "t") (λ _ e, e) FATAL (B "a.cc") 3 false
    (B "fd >= 0") [StashedErrno] (mkLog 9 [] tt)). reflexivity.
Defined.
