(* ===== verification/IntrusiveList.v ===== *)
(** * The intrusive doubly linked list (list.h, list.cc)

    [Node] and [List] as the code has them, the nodes in a heap indexed by
    their addresses, and the refinement to a list of addresses: [AddTail]
    appends, [Erase] removes. *)

From S2P Require Import Prelude.

(** Addresses of nodes; a null pointer is [None]. *)
Abbreviation ptr := positive.

(** list.h: [class Node]. *)
Record Node := mkNode { prev_ : option ptr; next_ : option ptr }.

(** list.h: [class List]. *)
Record List := mkList { head_ : option ptr; tail_ : option ptr }.

#[export] Instance Node_eq_dec : EqDecision Node.
Proof. solve_decision. Defined.
#[export] Instance List_eq_dec : EqDecision List.
Proof. solve_decision. Defined.

Definition node_new : Node := mkNode None None.
Definition list_new : List := mkList None None.

(** list.h: [List::head] and [List::tail]. *)
Definition head (l : List) : option ptr := head_ l.
Definition tail (l : List) : option ptr := tail_ l.

(** The nodes and one list. *)
Record lstate := mkL { heap : gmap ptr Node; the_list : List }.

Definition set_prev (v : option ptr) (n : Node) : Node := mkNode v (next_ n).
Definition set_next (v : option ptr) (n : Node) : Node := mkNode (prev_ n) v.

Definition load (p : ptr) : M lstate Node := deref "node" (λ s, heap s !! p).
Definition store (p : ptr) (f : Node → Node) : M lstate unit :=
  n ← load p;
  modify (λ s, mkL (<[p := f n]> (heap s)) (the_list s)).
Definition get_head : M lstate (option ptr) := gets (λ s, head_ (the_list s)).
Definition get_tail : M lstate (option ptr) := gets (λ s, tail_ (the_list s)).
Definition put_head (v : option ptr) : M lstate unit :=
  modify (λ s, mkL (heap s) (mkList v (tail_ (the_list s)))).
Definition put_tail (v : option ptr) : M lstate unit :=
  modify (λ s, mkL (heap s) (mkList (head_ (the_list s)) v)).

Definition null (p : option ptr) : bool := bool_decide (p = None).

(** list.cc: [List::AddTail]. *)
Definition AddTail (arg : option ptr) : M lstate unit :=
  node ← non_null "node" arg;
  n ← load node;
  CHECK "!node->prev_" (null (prev_ n)) ;;
  CHECK "!node->next_" (null (next_ n)) ;;
  t ← get_tail;
  h ← get_head;
  match t with
  | Some t =>
      CHECK "head_" (negb (null h)) ;;
      tn ← load t;
      CHECK "!tail_->next_" (null (next_ tn)) ;;
      store t (set_next (Some node))
  | None =>
      CHECK "!head_" (null h) ;;
      put_head (Some node)
  end ;;
  t' ← get_tail;
  store node (set_prev t') ;;
  store node (set_next None) ;;
  put_tail (Some node) ;;
  h' ← get_head;
  t'' ← get_tail;
  CHECK "head_ && tail_" (negb (null h') && negb (null t'')).

(** list.cc: the two halves of [List::Erase], which take the node out of the
    chain of next pointers and out of the chain of previous pointers. *)
Definition Erase_prev (node : ptr) (prev next : option ptr) : M lstate unit :=
  match prev with
  | Some p =>
      h ← get_head;
      CHECK "head_ != node" (negb (bool_decide (h = Some node))) ;;
      pn ← load p;
      CHECK "prev->next_ == node" (bool_decide (next_ pn = Some node)) ;;
      store p (set_next next) ;;
      store node (set_prev None)
  | None =>
      h ← get_head;
      CHECK "head_ == node" (bool_decide (h = Some node)) ;;
      put_head next
  end.

Definition Erase_next (node : ptr) (prev next : option ptr) : M lstate unit :=
  match next with
  | Some q =>
      t ← get_tail;
      CHECK "tail_ != node" (negb (bool_decide (t = Some node))) ;;
      qn ← load q;
      CHECK "next->prev_ == node" (bool_decide (prev_ qn = Some node)) ;;
      store q (set_prev prev) ;;
      store node (set_next None)
  | None =>
      t ← get_tail;
      CHECK "tail_ == node" (bool_decide (t = Some node)) ;;
      put_tail prev
  end.

(** list.cc: [List::Erase]. *)
Definition Erase (arg : option ptr) : M lstate unit :=
  node ← non_null "node" arg;
  n ← load node;
  Erase_prev node (prev_ n) (next_ n) ;;
  Erase_next node (prev_ n) (next_ n) ;;
  h ← get_head;
  t ← get_tail;
  CHECK "!head_ == !tail_" (Bool.eqb (null h) (null t)).

#[global] Arguments AddTail : simpl never.
#[global] Arguments Erase : simpl never.

(** ** The representation *)

(** The node between the lists of nodes [l1] and [l2]. *)
Definition node_between (l1 l2 : list ptr) : Node := mkNode (last l1) (l2 !! 0).

(** [s] holds the list of the nodes [xs], in this order. *)
Record IsList (s : lstate) (xs : list ptr) : Prop := {
  il_nodup : NoDup xs;
  il_head : head_ (the_list s) = xs !! 0;
  il_tail : tail_ (the_list s) = last xs;
  il_nodes : ∀ l1 p l2, xs = l1 ++ p :: l2 → heap s !! p = Some (node_between l1 l2)
}.

Lemma list_new_IsList h : IsList (mkL h list_new) [].
Proof. split; [constructor|done|done|]. by intros [|a l1] p l2. Qed.

(** The list only depends on its own nodes. *)
Lemma IsList_frame s s' xs :
  IsList s xs → the_list s' = the_list s →
  (∀ p, p ∈ xs → heap s' !! p = heap s !! p) → IsList s' xs.
Proof.
  intros [Hnd Hh Ht Hn] Hl Hf. split; [done|by rewrite Hl|by rewrite Hl|].
  intros l1 p l2 ->. rewrite Hf by set_solver. by apply Hn.
Qed.

(** ** The abstract specification: a sequence of nodes

    A client's use of the list is a sequence of calls; on the abstract side
    they append to a sequence and remove from it. *)
Inductive list_op := OpAddTail (x : ptr) | OpErase (x : ptr).

Definition run_op (o : list_op) : M lstate unit :=
  match o with OpAddTail x => AddTail (Some x) | OpErase x => Erase (Some x) end.

Definition remove_node (x : ptr) (xs : list ptr) : list ptr := filter (λ y, y ≠ x) xs.

(** [None] when a call breaks the list's rules: adding a node that is not
    allocated or is in the list, erasing one that is not in it. *)
Definition abs_op (nodes : gset ptr) (o : list_op) (xs : list ptr) : option (list ptr) :=
  match o with
  | OpAddTail x => if decide (x ∈ nodes ∧ x ∉ xs) then Some (xs ++ [x]) else None
  | OpErase x => if decide (x ∈ xs) then Some (remove_node x xs) else None
  end.

Fixpoint abs_ops (nodes : gset ptr) (os : list list_op) (xs : list ptr) : option (list ptr) :=
  match os with
  | [] => Some xs
  | o :: os => abs_op nodes o xs ≫= abs_ops nodes os
  end.

(** The nodes of [s] are [nodes]; those of [xs] are linked, in this order, and
    the others are as new. *)
Record Rep (nodes : gset ptr) (s : lstate) (xs : list ptr) : Prop := {
  rep_list : IsList s xs;
  rep_sub : ∀ p, p ∈ xs → p ∈ nodes;
  rep_free : ∀ p, p ∈ nodes → p ∉ xs → heap s !! p = Some node_new
}.

(** ** Symbolic execution of the list's code *)

Lemma wp_load p n Q s : heap s !! p = Some n → Q n s → wp (load p) Q s.
Proof. intros. by eapply wp_deref. Qed.

Lemma wp_store p f n Q s :
  heap s !! p = Some n →
  Q tt (mkL (<[p := f n]> (heap s)) (the_list s)) →
  wp (store p f) Q s.
Proof.
  intros Hp HQ. unfold store. eapply wp_bind_mono.
  - eapply wp_load with (Q := λ m s', m = n ∧ s' = s); done.
  - by intros ? ? [-> ->].
Qed.

Lemma wp_get_head Q s : Q (head_ (the_list s)) s → wp get_head Q s.
Proof. done. Qed.
Lemma wp_get_tail Q s : Q (tail_ (the_list s)) s → wp get_tail Q s.
Proof. done. Qed.
Lemma wp_put_head v Q s :
  Q tt (mkL (heap s) (mkList v (tail_ (the_list s)))) → wp (put_head v) Q s.
Proof. done. Qed.
Lemma wp_put_tail v Q s :
  Q tt (mkL (heap s) (mkList (head_ (the_list s)) v)) → wp (put_tail v) Q s.
Proof. done. Qed.

#[local] Ltac list_step :=
  lazymatch goal with
  | |- wp (non_null _ (Some _)) _ _ => apply wp_non_null
  | |- wp (load _) _ _ => eapply wp_load; [cbn; by simplify_map_eq|]
  | |- wp (store _ _) _ _ => eapply wp_store; [cbn; by simplify_map_eq|]
  | |- wp get_head _ _ => apply wp_get_head
  | |- wp get_tail _ _ => apply wp_get_tail
  | |- wp (put_head _) _ _ => apply wp_put_head
  | |- wp (put_tail _) _ _ => apply wp_put_tail
  | |- wp (CHECK _ _) _ _ => apply wp_CHECK; [try (cbn; by simplify_option_eq)|]
  | |- _ => wp_step
  end.
#[local] Ltac list_steps :=
  repeat (list_step;
    cbn beta iota delta [prev_ next_ head_ tail_ heap the_list set_prev set_next
                         node_new node_between]).

(** ** Specifications *)

(** [AddTail] appends: it returns, and the list is [xs] and then [x]. *)
Lemma AddTail_wp x xs s Q :
  IsList s xs → x ∉ xs → heap s !! x = Some node_new →
  (∀ s', IsList s' (xs ++ [x]) →
     (∀ p, p ∉ xs → p ≠ x → heap s' !! p = heap s !! p) → Q tt s') →
  wp (AddTail (Some x)) Q s.
Proof.
  intros [Hnd Hh Ht Hn] Hx Hnew HQ. unfold AddTail.
  destruct s as [h [hd tl]]; cbn in *; subst.
  list_steps.
  destruct xs as [|t xs _] using rev_ind.
  - cbn. list_steps. apply HQ.
    + split; cbn; [apply NoDup_singleton|done|done|].
      intros l1 p l2 [(->&->&->)|(?&_&?)]%(snoc_eq_split []); [by simplify_map_eq|].
      by destruct l1.
    + cbn. intros. by simplify_map_eq.
  - assert (h !! t = Some (node_between xs [])) by (by apply Hn).
    assert (x ≠ t) by set_solver.
    rewrite last_snoc. list_steps.
    { by destruct xs. }
    { by destruct xs. }
    apply HQ.
    + split; cbn; [|by destruct xs|by rewrite last_snoc|].
      { apply NoDup_app. set_solver by eauto using NoDup_singleton. }
      intros l1 p l2 [(->&->&->)|(k & -> & Hk)]%snoc_eq_split.
      { simplify_map_eq. unfold node_between. by rewrite last_snoc. }
      assert (p ≠ x) by (rewrite Hk in Hx; set_solver).
      specialize (Hn _ _ _ Hk).
      apply snoc_eq_split in Hk as [(->&->&->)|(k' & -> & ->)]; [by simplify_map_eq|].
      apply NoDup_app in Hnd as (_ & Hnd' & _).
      assert (p ≠ t) by set_solver.
      simplify_map_eq. unfold node_between. by destruct k'.
    + cbn. intros p [??]%not_elem_of_app ?. assert (p ≠ t) by set_solver. by simplify_map_eq.
Qed.

(** What the halves of [Erase] do to the heap: they update the node and one
    neighbour. *)
Definition updated (x : ptr) (f : Node → Node) (y : option ptr) (g : Node → Node)
    (h h' : gmap ptr Node) : Prop :=
  h' !! x = f <$> h !! x ∧
  ∀ p, p ≠ x → h' !! p = (if decide (y = Some p) then g <$> h !! p else h !! p).

Lemma updated_insert x f y g h nx ny :
  x ≠ y → h !! x = Some nx → h !! y = Some ny →
  updated x f (Some y) g h (<[x := f nx]> (<[y := g ny]> h)).
Proof.
  intros Hxy Hx Hy. split; [by simplify_map_eq|].
  intros p Hp. case_decide; simplify_map_eq; [done|].
  by rewrite lookup_insert_ne by congruence.
Qed.

Lemma updated_none x f g h : (f <$> h !! x) = h !! x → updated x f None g h h.
Proof. by split. Qed.

Lemma Erase_prev_wp x l1 l2 s nx Q :
  head_ (the_list s) = (l1 ++ x :: l2) !! 0 → x ∉ l1 →
  heap s !! x = Some nx → prev_ nx = last l1 →
  (∀ k p, l1 = k ++ [p] → heap s !! p = Some (node_between k (x :: l2))) →
  (∀ h', updated x (set_prev None) (last l1) (set_next (l2 !! 0)) (heap s) h' →
     Q tt (mkL h' (mkList ((l1 ++ l2) !! 0) (tail_ (the_list s))))) →
  wp (Erase_prev x (last l1) (l2 !! 0)) Q s.
Proof.
  intros Hh Hx Hnx Hprev Hp HQ. destruct s as [h [hd tl]]; cbn in *; subst.
  destruct l1 as [|p k _] using rev_ind.
  - rewrite last_nil in *; cbn in *. list_steps. apply HQ, updated_none.
    rewrite Hnx; cbn. destruct nx; cbn in *. by subst.
  - destruct (head_of_snoc k p) as (y & Hy & Hhead). specialize (Hp _ _ eq_refl).
    assert (x ≠ p ∧ x ≠ y) as [??] by set_solver.
    rewrite !Hhead, !last_snoc in *. cbn. list_steps. by apply HQ, updated_insert.
Qed.

Lemma Erase_next_wp x l1 l2 s nx Q :
  tail_ (the_list s) = last (l1 ++ x :: l2) → x ∉ l2 →
  heap s !! x = Some nx → next_ nx = l2 !! 0 →
  (∀ q k, l2 = q :: k → ∃ v, heap s !! q = Some (mkNode (Some x) v)) →
  (∀ h', updated x (set_next None) (l2 !! 0) (set_prev (last l1)) (heap s) h' →
     Q tt (mkL h' (mkList (head_ (the_list s)) (last (l1 ++ l2))))) →
  wp (Erase_next x (last l1) (l2 !! 0)) Q s.
Proof.
  intros Ht Hx Hnx Hnext Hq HQ. destruct s as [h [hd tl]]; cbn in *; subst.
  destruct l2 as [|q k].
  - rewrite last_snoc, app_nil_r in *; cbn. list_steps. apply HQ, updated_none.
    rewrite Hnx; cbn. destruct nx; cbn in *. by subst.
  - destruct (last_of_cons q k) as (z & Hz & Hlast). destruct (Hq _ _ eq_refl) as [v Hv].
    assert (x ≠ q ∧ x ≠ z) as [??] by set_solver.
    rewrite last_app_cons. rewrite Hlast in *. 
    pose proof (Hlast [x] : last (x :: q :: k) = Some z) as Hlx. cbn -[last]. rewrite Hlx.
    list_steps. by apply HQ, (updated_insert x (set_next None) q (set_prev (last l1))).
Qed.

(** The rest of the list, after the two halves. *)
Lemma IsList_erased s l1 x l2 h1 h' :
  IsList s (l1 ++ x :: l2) →
  updated x (set_prev None) (last l1) (set_next (l2 !! 0)) (heap s) h1 →
  updated x (set_next None) (l2 !! 0) (set_prev (last l1)) h1 h' →
  IsList (mkL h' (mkList ((l1 ++ l2) !! 0) (last (l1 ++ l2)))) (l1 ++ l2).
Proof.
  intros [Hnd _ _ Hn] [_ H1] [_ H2]. pose proof Hnd as (Hx1 & Hx2 & Hnd')%NoDup_middle.
  split; [done..|]. cbn. intros a p b Hp.
  assert (p ≠ x) as Hpx.
  { intros ->. assert (x ∈ l1 ++ l2) by (rewrite Hp; set_solver). set_solver. }
  pose proof Hnd' as Hnd2. rewrite Hp in Hnd2. apply NoDup_middle in Hnd2 as (Hpa & Hpb & _).
  rewrite H2, H1 by done.
  apply app_eq_split in Hp as [(k & -> & ->)|(k & -> & ->)].
  - rewrite (decide_False (P := l2 !! 0 = Some p))
      by (intros ?%list_elem_of_lookup_2; set_solver).
    erewrite Hn by (by simplify_list_eq). rewrite last_app_cons.
    destruct k as [|r k _] using rev_ind.
    + by rewrite decide_True.
    + assert (last (p :: k ++ [r]) = Some r) as -> by apply (last_snoc r (p :: k)).
      rewrite decide_False by set_solver. f_equal.
      unfold node_between. f_equal. by destruct k.
  - rewrite (decide_False (P := last l1 = Some p))
      by (intros ?%last_Some_elem_of; set_solver).
    erewrite (Hn (l1 ++ x :: k)) by (by simplify_list_eq).
    destruct k as [|r k].
    + rewrite decide_True by done. cbn. unfold set_prev, node_between; cbn. by rewrite app_nil_r.
    + rewrite decide_False by set_solver. unfold node_between.
      by rewrite !last_app_cons, last_cons_cons.
Qed.

(** [Erase] removes: it returns, the list is [l1 ++ l2], and [x] is left as a
    new node is. *)
Lemma Erase_wp x l1 l2 s Q :
  IsList s (l1 ++ x :: l2) →
  (∀ s', IsList s' (l1 ++ l2) → heap s' !! x = Some node_new →
     (∀ p, p ∉ l1 ++ x :: l2 → heap s' !! p = heap s !! p) → Q tt s') →
  wp (Erase (Some x)) Q s.
Proof.
  intros Hl HQ. pose proof Hl as [Hnd Hh Ht Hn].
  pose proof (Hn l1 x l2 eq_refl) as Hx.
  pose proof Hnd as (Hx1 & Hx2 & Hnd')%NoDup_middle.
  unfold Erase. list_steps.
  eapply Erase_prev_wp; [done..| |]. 
  { intros k p ->. apply Hn. by simplify_list_eq. }
  intros h1 Hup1. pose proof Hup1 as [Hx' Hf1]. rewrite Hx in Hx'. list_steps.
  eapply Erase_next_wp; [done..| |].
  { cbn. intros q k ->. apply NoDup_app in Hnd as (_ & Hd & _).
    rewrite Hf1 by set_solver. rewrite (Hn (l1 ++ [x]) q k) by (by simplify_list_eq).
    unfold node_between. rewrite last_snoc. case_decide; cbn; eauto. }
  cbn. intros h2 Hup2. list_steps.
  { destruct (decide (l1 ++ l2 = [])) as [->|Hne]; [done|].
    pose proof Hne as [? Hlast]%last_is_Some. rewrite Hlast.
    destruct (l1 ++ l2); [done|]. done. }
  apply HQ; cbn; [by eapply IsList_erased| |].
  - destruct Hup2 as [-> _]. by rewrite Hx'.
  - intros p Hp. apply not_elem_of_app in Hp as [? [??]%not_elem_of_cons].
    destruct Hup2 as [_ ->]; [|done]. rewrite Hf1 by done.
    rewrite !decide_False; [done|intros ?%last_Some_elem_of; set_solver|].
    intros ?%list_elem_of_lookup_2. set_solver.
Qed.

Lemma remove_node_notin x l : x ∉ l → remove_node x l = l.
Proof.
  unfold remove_node. induction l as [|y l IH]; [done|].
  intros [??]%not_elem_of_cons. rewrite filter_cons_True by auto. by rewrite IH.
Qed.

Lemma remove_node_middle x l1 l2 :
  x ∉ l1 → x ∉ l2 → remove_node x (l1 ++ x :: l2) = l1 ++ l2.
Proof.
  intros H1 H2. unfold remove_node. rewrite filter_app, filter_cons_False by auto.
  by f_equal; apply remove_node_notin.
Qed.

Lemma run_op_wp nodes o xs ys s Q :
  Rep nodes s xs → abs_op nodes o xs = Some ys →
  (∀ s', Rep nodes s' ys → Q tt s') → wp (run_op o) Q s.
Proof.
  intros [Hl Hsub Hfree] Ho HQ. destruct o as [x|x]; cbn in *; case_decide as Hx; simplify_eq.
  - destruct Hx as [Hx1 Hx2]. eapply AddTail_wp; [done|done|by apply Hfree|].
    intros s' Hl' Hframe. apply HQ. split; [done|set_solver|].
    intros p Hp [??]%not_elem_of_app. rewrite Hframe by set_solver. by apply Hfree.
  - apply list_elem_of_split in Hx as (l1 & l2 & ->).
    pose proof (il_nodup _ _ Hl) as (Hx1 & Hx2 & _)%NoDup_middle.
    rewrite remove_node_middle in HQ by done.
    eapply Erase_wp; [done|]. intros s' Hl' Hx Hframe. apply HQ. split; [done|set_solver|].
    intros p Hp Hpl. destruct (decide (p = x)) as [->|]; [done|].
    assert (p ∉ l1 ++ x :: l2) by set_solver. rewrite Hframe by done. by apply Hfree.
Qed.

(** ** Properties *)

(** C39: the list is a sequence. Whatever valid sequence of [AddTail] and
    [Erase] calls a client makes, every call returns (none of the [CHECK]s of
    list.cc fails and no node outside the heap is read), and the nodes are
    linked in the order that the abstract sequence has. *)
Theorem list_refines_sequence nodes os xs ys s :
  Rep nodes s xs → abs_ops nodes os xs = Some ys →
  wp (for_each run_op os) (λ _ s', Rep nodes s' ys) s.
Proof.
  revert xs s. induction os as [|o os IH]; intros xs s Hrep Hos; cbn in *.
  - simplify_eq. by apply wp_ret.
  - apply bind_Some in Hos as (zs & Ho & Hos). apply wp_bind.
    eapply run_op_wp; [done|done|]. intros s' Hrep'. by apply (IH zs).
Qed.

(** Three nodes, none linked. *)
Definition example_heap : lstate :=
  mkL (list_to_map ((λ p, (p, node_new)) <$> [1; 2; 3]%positive)) list_new.

Lemma list_refines_sequence_witness :
  wp (for_each run_op [OpAddTail 1; OpAddTail 2; OpAddTail 3; OpErase 2; OpAddTail 2]%positive)
     (λ _ s', Rep {[1; 2; 3]}%positive s' [1; 3; 2]%positive) example_heap.
Proof.
  apply (list_refines_sequence {[1; 2; 3]}%positive) with (xs := []); [|by vm_compute].
  split; [by apply list_new_IsList|set_solver|].
  intros p Hp _. assert (p = 1 ∨ p = 2 ∨ p = 3)%positive as [->|[->| ->]] by set_solver; done.
Defined.

(** Erasing a node that is not in the list is caught: [Erase] aborts at
    its [CHECK] of the head. *)
Theorem Erase_unlinked_aborts nodes xs x s :
  Rep nodes s xs → x ∈ nodes → x ∉ xs → Erase (Some x) s = Abort "head_ == node".
Proof.
  intros [Hl _ Hfree] Hx Hxs. specialize (Hfree x Hx Hxs).
  unfold Erase, load, deref, mbind, M_bind; cbn. rewrite Hfree; cbn.
  unfold mbind, M_bind, get_head, gets. rewrite (il_head _ _ Hl), bool_decide_false; [done|].
  intros ?%list_elem_of_lookup_2. done.
Qed.

Lemma Erase_unlinked_aborts_witness :
  Erase (Some 2%positive) example_heap = Abort "head_ == node".
Proof.
  apply (Erase_unlinked_aborts {[1; 2; 3]}%positive []); [|set_solver|set_solver].
  split; [by apply list_new_IsList|set_solver|].
  intros p Hp _. assert (p = 1 ∨ p = 2 ∨ p = 3)%positive as [->|[->| ->]] by set_solver; done.
Defined.
