(* ===== verification/Epoll.v ===== *)
(** * The wrapper of epoll (epoll.h, epoll.cc) and time (time.h)

    The kernel's side of [epoll_ctl] and [epoll_wait] is a parameter, with the
    interest list it keeps and its documented behaviour as the laws of a class. *)

From S2P Require Import Prelude IntrusiveList.

(** ** time.h: [Time] and [Duration] are [steady_clock]'s, in nanoseconds *)
Abbreviation Time := Z (only parsing).
Abbreviation Duration := Z (only parsing).

Definition seconds (n : Z) : Duration := (n * 1000000000)%Z.

(** A steady clock: its readings never decrease. The i-th reading advances it
    by the i-th of the increments, which are arbitrary. *)
Record clock := mkClock { time : Time; increments : list N }.

Definition clock_tick (c : clock) : clock :=
  match increments c with
  | [] => c
  | d :: ds => mkClock (time c + Z.of_N d) ds
  end.

(** [Clock::now()]. *)
Definition Clock_now : M clock Time := modify clock_tick ;; gets time.

Lemma clock_tick_mono c : (time c ≤ time (clock_tick c))%Z.
Proof. unfold clock_tick. destruct (increments c); cbn; lia. Qed.

Lemma wp_Clock_now Q c :
  (∀ c', (time c ≤ time c')%Z → c' = clock_tick c → Q (time c') c') → wp Clock_now Q c.
Proof. intros HQ. unfold Clock_now. wp_steps. apply HQ; [apply clock_tick_mono|done]. Qed.

(** ** sys/epoll.h *)
Definition EPOLLIN : Z := 1.
Definition EPOLLOUT : Z := 4.
Definition EPOLLERR : Z := 8.
Definition EPOLLET : Z := Z.shiftl 1 31.

(** [struct epoll_event]: the event mask is a [uint32_t], the data a pointer to
    an event handler or null. *)
Record epoll_event := mkEvent { events : Z; data_ptr : option ptr }.

Inductive ctl_op := EPOLL_CTL_ADD | EPOLL_CTL_DEL | EPOLL_CTL_MOD.

(** The kernel: the calls, and the interest list of the epoll instance. *)
Class EpollKernel (K : Type) := {
  epoll_ctl : ctl_op → Z → epoll_event → K → bool * K;
  epoll_wait : Z → Z → K → option (list epoll_event) * K;
  interest : K → gmap Z epoll_event
}.

(** What epoll_ctl(2) and epoll_wait(2) say of calls that are used right, and
    what the program relies on beside it: there is memory and room for watches
    (no [ENOMEM], [ENOSPC]), the descriptors that are added are open (no
    [EBADF]), and no signal handler interrupts the wait (no [EINTR]); [CHECK]s
    of epoll.cc abort otherwise. *)
Class EpollLaws (K : Type) `{EpollKernel K} := {
  ctl_add : ∀ k fd ev, interest k !! fd = None →
    ∃ k', epoll_ctl EPOLL_CTL_ADD fd ev k = (true, k') ∧ interest k' = <[fd := ev]> (interest k);
  ctl_del : ∀ k fd ev, is_Some (interest k !! fd) →
    ∃ k', epoll_ctl EPOLL_CTL_DEL fd ev k = (true, k') ∧ interest k' = delete fd (interest k);
  ctl_mod : ∀ k fd ev, is_Some (interest k !! fd) →
    ∃ k', epoll_ctl EPOLL_CTL_MOD fd ev k = (true, k') ∧ interest k' = <[fd := ev]> (interest k);
  ctl_refused : ∀ k fd op ev,
    (op = EPOLL_CTL_ADD ↔ is_Some (interest k !! fd)) → (epoll_ctl op fd ev k).1 = false;
  wait_ready : ∀ k maxevents ms, (0 < maxevents)%Z →
    ∃ evs k', epoll_wait maxevents ms k = (Some evs, k') ∧ interest k' = interest k ∧
      (Z.of_nat (length evs) ≤ maxevents)%Z ∧
      ∀ ev, ev ∈ evs → ∃ fd ev', interest k !! fd = Some ev' ∧ data_ptr ev' = data_ptr ev
}.

(** A kernel that remembers the last timeout that [epoll_wait] was called
    with. *)
Class WaitLog (K : Type) `{EpollKernel K} := {
  waited : K → Z;
  waited_last : ∀ maxevents ms k, waited (epoll_wait maxevents ms k).2 = ms
}.

Section epoll.
Context {K : Type} `{EpollKernel K}.

(** [std::vector::capacity()] after a resize to [n] of a vector with
    capacity [c]. *)
Context (vector_capacity : nat → nat → nat).

(** epoll.h: [class EPoll]: [events_.size()], [total_events_] and the events
    that [begin()] and [end()] delimit; and the kernel's side. *)
Record EPoll := mkEPoll {
  events_size : nat; total_events_ : nat; ready_events_ : list epoll_event; kernel : K
}.

Definition EPoll_new (k : K) : EPoll := mkEPoll 0 0 [] k.

Definition sys_ctl (op : ctl_op) (fd : Z) (ev : epoll_event) : M EPoll bool := λ s,
  let '(ok, k) := epoll_ctl op fd ev (kernel s) in
  Done (ok, mkEPoll (events_size s) (total_events_ s) (ready_events_ s) k).

Definition put_total (f : nat → nat) : M EPoll unit :=
  modify (λ s, mkEPoll (events_size s) (f (total_events_ s)) (ready_events_ s) (kernel s)).

(** epoll.cc: [EPoll::Add]; the event mask is passed as an [int]. *)
Definition EPoll_Add (fd : Z) (evs : Z) (data : option ptr) : M EPoll unit :=
  ok ← sys_ctl EPOLL_CTL_ADD fd (mkEvent (to_uint32 evs) data);
  CHECK "epoll_ctl(ADD) == 0" ok ;;
  put_total S.

(** epoll.cc: [EPoll::Remove]; the event argument is not initialised and the
    kernel ignores it. *)
Definition EPoll_Remove (fd : Z) : M EPoll unit :=
  n ← gets total_events_;
  CHECK "total_events_ > 0" (0 <? n) ;;
  ok ← sys_ctl EPOLL_CTL_DEL fd (mkEvent 0 None);
  CHECK "epoll_ctl(DEL) == 0" ok ;;
  put_total pred.

(** epoll.cc: [EPoll::Modify]. *)
Definition EPoll_Modify (fd : Z) (evs : Z) (data : option ptr) : M EPoll unit :=
  n ← gets total_events_;
  CHECK "total_events_ > 0" (0 <? n) ;;
  ok ← sys_ctl EPOLL_CTL_MOD fd (mkEvent (to_uint32 evs) data);
  CHECK "epoll_ctl(MOD) == 0" ok.

(** The argument of [epoll_wait]: the timeout in milliseconds, rounded up and
    converted to [int] by [std::max<int>(0, ...)], or -1. *)
Definition wait_ms (timeout : option Duration) : Z :=
  match timeout with
  | Some t => Z.max 0 (to_int32 (- ((- t) / 1000000)))
  | None => -1
  end.

(** epoll.cc: [EPoll::Wait]. *)
Definition EPoll_Wait (timeout : option Duration) : M EPoll unit :=
  modify (λ s, if events_size s <? total_events_ s
               then mkEPoll (vector_capacity (events_size s) (total_events_ s))
                      (total_events_ s) (ready_events_ s) (kernel s)
               else s) ;;
  n ← gets events_size;
  r ← (λ s, let '(r, k) := epoll_wait (to_int32 (Z.of_nat n)) (wait_ms timeout) (kernel s) in
            Done (r, mkEPoll (events_size s) (total_events_ s) (ready_events_ s) k));
  match r with
  | None => abort "epoll_wait() >= 0"
  | Some evs =>
      modify (λ s, mkEPoll (events_size s) (total_events_ s) evs (kernel s))
  end.

(** The invariant: [total_events_] counts the registered descriptors. *)
Definition EPoll_ok (s : EPoll) : Prop := total_events_ s = size (interest (kernel s)).

(** The timeout that [Wait] has passed on. *)
Lemma EPoll_Wait_waited `{!WaitLog K} timeout s s' :
  EPoll_Wait timeout s = Done (tt, s') → waited (kernel s') = wait_ms timeout.
Proof.
  unfold EPoll_Wait, mbind, M_bind, modify, gets.
  destruct (events_size s <? total_events_ s); cbn; match goal with |- context [epoll_wait ?n ?ms ?k] =>
    pose proof (waited_last n ms k) as Hw; destruct (epoll_wait n ms k) as [[evs|] k'] end; try done;
    by intros [= <-].
Qed.

(** *** Specifications *)
Context `{!EpollLaws K}.

Lemma EPoll_Add_wp fd evs data s Q :
  EPoll_ok s → interest (kernel s) !! fd = None →
  (∀ s', EPoll_ok s' → ready_events_ s' = ready_events_ s →
     interest (kernel s') = <[fd := mkEvent (to_uint32 evs) data]> (interest (kernel s)) →
     Q tt s') →
  wp (EPoll_Add fd evs data) Q s.
Proof.
  intros Hok Hfd HQ. unfold EPoll_Add, sys_ctl.
  destruct (ctl_add (kernel s) fd (mkEvent (to_uint32 evs) data) Hfd) as (k' & Hc & Hk).
  wp_step. unfold wp at 1. rewrite Hc. unfold put_total. wp_steps; [done|]. apply HQ; cbn; [|done..].
  unfold EPoll_ok in *; cbn. rewrite Hk, map_size_insert_None, Hok by done. done.
Qed.

Lemma interest_pos s fd :
  EPoll_ok s → is_Some (interest (kernel s) !! fd) → 0 < total_events_ s.
Proof.
  unfold EPoll_ok. intros -> [ev Hfd]. apply Nat.neq_0_lt_0. intros H0%eq_sym%eq_sym.
  apply map_size_empty_inv in H0. by rewrite H0, lookup_empty in Hfd.
Qed.

Lemma EPoll_Remove_wp fd s Q :
  EPoll_ok s → is_Some (interest (kernel s) !! fd) →
  (∀ s', EPoll_ok s' → ready_events_ s' = ready_events_ s →
     interest (kernel s') = delete fd (interest (kernel s)) → Q tt s') →
  wp (EPoll_Remove fd) Q s.
Proof.
  intros Hok Hfd HQ. pose proof (interest_pos _ _ Hok Hfd) as Hpos.
  unfold EPoll_Remove, sys_ctl. wp_steps; [by apply Nat.ltb_lt|].
  destruct (ctl_del (kernel s) fd (mkEvent 0 None) Hfd) as (k' & Hc & Hk).
  unfold wp at 1. rewrite Hc. unfold put_total. wp_steps; [done|]. apply HQ; cbn; [|done..].
  unfold EPoll_ok in *; cbn. rewrite Hk, map_size_delete, Hok.
  destruct Hfd as [? ->]. done.
Qed.

Lemma EPoll_Modify_wp fd evs data s Q :
  EPoll_ok s → is_Some (interest (kernel s) !! fd) →
  (∀ s', EPoll_ok s' → ready_events_ s' = ready_events_ s →
     interest (kernel s') = <[fd := mkEvent (to_uint32 evs) data]> (interest (kernel s)) →
     Q tt s') →
  wp (EPoll_Modify fd evs data) Q s.
Proof.
  intros Hok Hfd HQ. pose proof (interest_pos _ _ Hok Hfd) as Hpos.
  unfold EPoll_Modify, sys_ctl. wp_steps; [by apply Nat.ltb_lt|].
  destruct (ctl_mod (kernel s) fd (mkEvent (to_uint32 evs) data) Hfd) as (k' & Hc & Hk).
  unfold wp at 1. rewrite Hc. wp_steps; [done|]. apply HQ; cbn; [|done..].
  unfold EPoll_ok in *; cbn. rewrite Hk, Hok.
  by rewrite map_size_insert_Some.
Qed.
(** The room for events after [EPoll_Wait]'s resize. *)
Definition wait_size (s : EPoll) : nat :=
  if events_size s <? total_events_ s
  then vector_capacity (events_size s) (total_events_ s) else events_size s.

Lemma EPoll_Wait_wp timeout s Q :
  EPoll_ok s → total_events_ s ≠ 0 →
  total_events_ s ≤ wait_size s → (Z.of_nat (wait_size s) < 2 ^ 31)%Z →
  (∀ s', EPoll_ok s' → interest (kernel s') = interest (kernel s) →
     total_events_ s' = total_events_ s → events_size s' = wait_size s →
     length (ready_events_ s') ≤ wait_size s →
     (∀ ev, ev ∈ ready_events_ s' →
        ∃ fd ev', interest (kernel s) !! fd = Some ev' ∧ data_ptr ev' = data_ptr ev) →
     Q tt s') →
  wp (EPoll_Wait timeout) Q s.
Proof.
  intros Hok Hpos Hroom Hint HQ. unfold EPoll_Wait. wp_steps.
  set (s1 := if _ <? _ then _ else s).
  assert (events_size s1 = wait_size s ∧ kernel s1 = kernel s ∧
          total_events_ s1 = total_events_ s) as (Hsz & Hk & Ht).
  { unfold s1, wait_size. by destruct (_ <? _). }
  rewrite Hsz, to_int32_id by lia.
  destruct (wait_ready (kernel s) (Z.of_nat (wait_size s)) (wait_ms timeout))
    as (evs & k' & Hw & Hi & Hlen & Hevs); [lia|].
  unfold wp at 1. rewrite Hk, Hw. wp_steps. apply HQ; cbn; try done; try lia.
  unfold EPoll_ok in *; cbn. rewrite Hi. congruence.
Qed.

(** ** The abstract specification: a map from descriptors to events *)
Inductive epoll_call :=
  | CallAdd (fd evs : Z) (data : option ptr)
  | CallRemove (fd : Z)
  | CallModify (fd evs : Z) (data : option ptr).

Definition run_call (c : epoll_call) : M EPoll unit :=
  match c with
  | CallAdd fd evs data => EPoll_Add fd evs data
  | CallRemove fd => EPoll_Remove fd
  | CallModify fd evs data => EPoll_Modify fd evs data
  end.

(** [None] when a call is wrong: adding a descriptor that is registered,
    changing one that is not. *)
Definition abs_call (m : gmap Z epoll_event) (c : epoll_call) : option (gmap Z epoll_event) :=
  match c, m !! match c with CallAdd fd _ _ | CallRemove fd | CallModify fd _ _ => fd end with
  | CallAdd fd evs data, None => Some (<[fd := mkEvent (to_uint32 evs) data]> m)
  | CallRemove fd, Some _ => Some (delete fd m)
  | CallModify fd evs data, Some _ => Some (<[fd := mkEvent (to_uint32 evs) data]> m)
  | _, _ => None
  end.

Fixpoint abs_calls (cs : list epoll_call) (m : gmap Z epoll_event) :
    option (gmap Z epoll_event) :=
  match cs with
  | [] => Some m
  | c :: cs => abs_call m c ≫= abs_calls cs
  end.

Lemma run_call_wp c s m Q :
  EPoll_ok s → abs_call (interest (kernel s)) c = Some m →
  (∀ s', EPoll_ok s' → interest (kernel s') = m → Q tt s') →
  wp (run_call c) Q s.
Proof.
  intros Hok Hc HQ. destruct c as [fd evs data|fd|fd evs data]; cbn in *;
    destruct (interest (kernel s) !! fd) eqn:Hfd; simplify_eq.
  - apply EPoll_Add_wp; auto.
  - apply EPoll_Remove_wp; auto.
  - apply EPoll_Modify_wp; auto.
Qed.

(** C40: the wrapper keeps the kernel's interest list: a sequence of [Add],
    [Remove] and [Modify] calls in which no descriptor is added twice and only
    registered ones are removed or modified passes every [CHECK], leaves the
    interest list that the calls describe, and [total_events_] counts it. *)
Theorem EPoll_refines_map cs s m :
  EPoll_ok s → abs_calls cs (interest (kernel s)) = Some m →
  wp (for_each run_call cs)
     (λ _ s', interest (kernel s') = m ∧ total_events_ s' = size m) s.
Proof.
  revert s. induction cs as [|c cs IH]; intros s Hok Hcs; cbn in *.
  - simplify_eq. by apply wp_ret.
  - apply bind_Some in Hcs as (m' & Hc & Hcs). apply wp_bind.
    eapply run_call_wp; [done|done|]. intros s' Hok' <-. by apply IH.
Qed.

(** A call of [Add] for a descriptor that is registered already, or of
    [Remove] or [Modify] for one that is not, aborts. *)
Theorem EPoll_misuse_aborts c s :
  EPoll_ok s → abs_call (interest (kernel s)) c = None → ∃ why, run_call c s = Abort why.
Proof.
  assert (∀ op fd ev, (op = EPOLL_CTL_ADD ↔ is_Some (interest (kernel s) !! fd)) →
     ∃ k, epoll_ctl op fd ev (kernel s) = (false, k)) as Href.
  { intros op fd ev Hop. pose proof (ctl_refused _ _ _ ev Hop).
    destruct (epoll_ctl op fd ev (kernel s)) as [ok k]; cbn in *. subst. by exists k. }
  intros Hok Hc. destruct c as [fd evs data|fd|fd evs data]; cbn in *;
    destruct (interest (kernel s) !! fd) eqn:Hfd; simplify_eq.
  - unfold EPoll_Add. unfold mbind at 1, M_bind at 1. unfold sys_ctl.
    destruct (Href EPOLL_CTL_ADD fd (mkEvent (to_uint32 evs) data)) as [k ->]; [naive_solver|].
    by eexists.
  - unfold EPoll_Remove. rewrite (bind_Done _ _ (total_events_ s) s s) by done.
    destruct (0 <? total_events_ s); [|by eexists].
    rewrite (bind_Done _ _ tt s s) by done. unfold mbind, M_bind, sys_ctl.
    destruct (Href EPOLL_CTL_DEL fd (mkEvent 0 None)) as [k ->]; [rewrite Hfd; split; [done|by intros []]|].
    by eexists.
  - unfold EPoll_Modify. rewrite (bind_Done _ _ (total_events_ s) s s) by done.
    destruct (0 <? total_events_ s); [|by eexists].
    rewrite (bind_Done _ _ tt s s) by done. unfold mbind, M_bind, sys_ctl.
    destruct (Href EPOLL_CTL_MOD fd (mkEvent (to_uint32 evs) data)) as [k ->];
      [rewrite Hfd; split; [done|by intros []]|].
    by eexists.
Qed.
End epoll.
Arguments EPoll K : clear implicits.

(** For a positive timeout of less than [2^31] milliseconds (24 days),
    [Wait] asks the kernel for a positive number of milliseconds that is the
    timeout rounded up: the wait is never shorter than the timeout and never
    longer by a millisecond or more; with no timeout it asks for an unlimited
    wait. *)
Lemma wait_ms_rounds_up t :
  (0 < t ≤ (2 ^ 31 - 1) * 1000000)%Z →
  (0 < wait_ms (Some t) ∧ t ≤ wait_ms (Some t) * 1000000 < t + 1000000 ∧ wait_ms None = -1)%Z.
Proof.
  intros Ht. unfold wait_ms.
  assert (0 < - (- t / 1000000) < 2 ^ 31)%Z by (split; [|]; Z.to_euclidean_division_equations; lia).
  rewrite to_int32_id by lia. rewrite Z.max_r by lia.
  Z.to_euclidean_division_equations; lia.
Qed.

(** ** A kernel that keeps the laws *)

(** The interest list, and the readiness that the next waits report. *)
Record sim_epoll := mkSimEpollAt {
  sim_interest : gmap Z epoll_event; sim_ready : list (list Z); sim_waited : Z
}.
Definition mkSimEpoll (i : gmap Z epoll_event) (r : list (list Z)) : sim_epoll := mkSimEpollAt i r 0.

Definition sim_ctl (op : ctl_op) (fd : Z) (ev : epoll_event) (k : sim_epoll) : bool * sim_epoll :=
  match op, sim_interest k !! fd with
  | EPOLL_CTL_ADD, None => (true, mkSimEpollAt (<[fd := ev]> (sim_interest k)) (sim_ready k) (sim_waited k))
  | EPOLL_CTL_DEL, Some _ => (true, mkSimEpollAt (delete fd (sim_interest k)) (sim_ready k) (sim_waited k))
  | EPOLL_CTL_MOD, Some _ => (true, mkSimEpollAt (<[fd := ev]> (sim_interest k)) (sim_ready k) (sim_waited k))
  | _, _ => (false, k)
  end.

(** The events of the descriptors that are ready and registered. *)
Definition sim_wait (maxevents ms : Z) (k : sim_epoll) : option (list epoll_event) * sim_epoll :=
  if (maxevents <=? 0)%Z then (None, mkSimEpollAt (sim_interest k) (sim_ready k) ms) else
  match sim_ready k with
  | [] => (Some [], mkSimEpollAt (sim_interest k) [] ms)
  | fds :: rest =>
      (Some (take (Z.to_nat maxevents) (omap (λ fd, sim_interest k !! fd) fds)),
       mkSimEpollAt (sim_interest k) rest ms)
  end.

#[export] Instance sim_epoll_kernel : EpollKernel sim_epoll := {|
  epoll_ctl := sim_ctl; epoll_wait := sim_wait; interest := sim_interest
|}.

#[export] Instance sim_epoll_laws : EpollLaws sim_epoll.
Proof.
  split; cbn.
  - intros k fd ev Hfd. unfold sim_ctl. rewrite Hfd. by eexists.
  - intros k fd ev [? Hfd]. unfold sim_ctl. rewrite Hfd. by eexists.
  - intros k fd ev [? Hfd]. unfold sim_ctl. rewrite Hfd. by eexists.
  - intros k fd op ev Hop. unfold sim_ctl.
    destruct op, (sim_interest k !! fd); cbn; try done; naive_solver.
  - intros k n ms Hn. unfold sim_wait. rewrite (proj2 (Z.leb_gt _ _)) by lia.
    destruct (sim_ready k) as [|fds rest]; cbn.
    { eexists _, _. repeat split; [cbn; lia|]. by intros ev ?%not_elem_of_nil. }
    eexists _, _. repeat split; cbn; [rewrite length_take; lia|].
    intros ev (i & Hev & _)%elem_of_take.
    apply list_elem_of_lookup_2, list_elem_of_omap in Hev as (fd & _ & Hfd). eauto.
Qed.

#[export] Instance sim_epoll_waits : WaitLog sim_epoll.
Proof.
  refine {| waited := sim_waited |}. intros maxevents ms k. cbn. unfold sim_wait. case_match; [done|]. by case_match.
Defined.

Lemma EPoll_refines_map_witness :
  wp (for_each run_call [CallAdd 3 EPOLLIN None; CallAdd 4 (Z.lor EPOLLIN EPOLLET) (Some 1%positive);
                         CallModify 4 EPOLLOUT (Some 1%positive); CallRemove 3])
     (λ _ s', interest (kernel s') = {[4%Z := mkEvent EPOLLOUT (Some 1%positive)]} ∧
              total_events_ s' = size ({[4%Z := mkEvent EPOLLOUT (Some 1%positive)]} : gmap Z epoll_event))
     (EPoll_new (mkSimEpoll ∅ [])).
Proof. apply EPoll_refines_map; [reflexivity|reflexivity]. Defined.

Lemma EPoll_misuse_aborts_witness :
  ∃ why, run_call (CallRemove 3) (EPoll_new (mkSimEpoll ∅ [])) = Abort why.
Proof. apply EPoll_misuse_aborts; reflexivity. Defined.
