(* ===== verification/EventLoop.v ===== *)
(** * Event handlers and the event loop (event_loop.h, event_loop.cc)

    Handlers are heap objects with a reference count; the loop keeps them in
    its intrusive list, sorted by deadline, and in its epoll instance. The
    virtual functions and the fields of the derived classes are parameters. *)

From stdpp Require Import sorting.
From S2P Require Import Prelude IntrusiveList Epoll.

(** The pipe through which other threads pass functions to the loop: whole
    messages, first in first out (pipe(7), [O_DIRECT]). *)
Class Pipe (PQ F : Type) := {
  pipe_write : F → PQ → bool * PQ;
  pipe_read : PQ → option F * PQ;
  pending : PQ → list F
}.
Class PipeLaws (PQ F : Type) `{Pipe PQ F} := {
  pipe_write_ok : ∀ f q, ∃ q', pipe_write f q = (true, q') ∧ pending q' = pending q ++ [f];
  pipe_read_ok : ∀ f fs q, pending q = f :: fs →
    ∃ q', pipe_read q = (Some f, q') ∧ pending q' = fs
}.

Section event_loop.
(** The fields of the derived class, the scheduled functions, the rest of the
    program's state, the kernel's epoll instance and pipe. *)
Context {P F W K PQ : Type} `{EpollLaws K} `{PipeLaws PQ F}.

(** event_loop.h: [class EventHandler]; [event_loop_] is whether the pointer
    to the loop is set, and [sub_] the derived object. *)
Record EventHandler := mkEH {
  fd_ : Z; deadline_ : Time; event_loop_ : bool; ref_count_ : Z; sub_ : P
}.

(** event_loop.h: [class EventLoop], with the heap of handlers ([EventHandler]
    derives from [Node]: a handler and its node have the same address), the
    clock and the thread that is running. *)
Record St := mkSt {
  handlers : gmap ptr EventHandler;
  lst : lstate;
  ep : EPoll K;
  clk : clock;
  pipe_ : PQ;
  pipe_fd : Z;
  this_thread : Z;
  loop_ : Z;
  timeout_ : Duration;
  world : W
}.

Definition set_handlers (hs : gmap ptr EventHandler) (s : St) : St :=
  mkSt hs (lst s) (ep s) (clk s) (pipe_ s) (pipe_fd s) (this_thread s) (loop_ s) (timeout_ s) (world s).
Definition set_lst (l : lstate) (s : St) : St :=
  mkSt (handlers s) l (ep s) (clk s) (pipe_ s) (pipe_fd s) (this_thread s) (loop_ s) (timeout_ s) (world s).
Definition set_ep (e : EPoll K) (s : St) : St :=
  mkSt (handlers s) (lst s) e (clk s) (pipe_ s) (pipe_fd s) (this_thread s) (loop_ s) (timeout_ s) (world s).
Definition set_clk (c : clock) (s : St) : St :=
  mkSt (handlers s) (lst s) (ep s) c (pipe_ s) (pipe_fd s) (this_thread s) (loop_ s) (timeout_ s) (world s).
Definition set_pipe (q : PQ) (s : St) : St :=
  mkSt (handlers s) (lst s) (ep s) (clk s) q (pipe_fd s) (this_thread s) (loop_ s) (timeout_ s) (world s).
Definition set_world (w : W) (s : St) : St :=
  mkSt (handlers s) (lst s) (ep s) (clk s) (pipe_ s) (pipe_fd s) (this_thread s) (loop_ s) (timeout_ s) w.

Definition put_handler (p : ptr) (h : EventHandler) (s : St) : St :=
  set_handlers (<[p := h]> (handlers s)) s.

Definition set_ref (n : Z) (h : EventHandler) : EventHandler :=
  mkEH (fd_ h) (deadline_ h) (event_loop_ h) n (sub_ h).
Definition set_registered (b : bool) (h : EventHandler) : EventHandler :=
  mkEH (fd_ h) (deadline_ h) b (ref_count_ h) (sub_ h).
Definition set_deadline (t : Time) (h : EventHandler) : EventHandler :=
  mkEH (fd_ h) t (event_loop_ h) (ref_count_ h) (sub_ h).
Definition set_sub (x : P) (h : EventHandler) : EventHandler :=
  mkEH (fd_ h) (deadline_ h) (event_loop_ h) (ref_count_ h) x.

Definition handler (p : ptr) : M St EventHandler := deref "event handler" (λ s, handlers s !! p).
Definition upd_handler (p : ptr) (f : EventHandler → EventHandler) : M St unit :=
  h ← handler p; modify (put_handler p (f h)).
Definition on_list {A} (m : M lstate A) : M St A := zoom lst set_lst m.
Definition on_epoll {A} (m : M (EPoll K) A) : M St A := zoom ep set_ep m.
Definition now : M St Time := zoom clk set_clk Clock_now.
Definition on_world {A} (m : M W A) : M St A := zoom world set_world m.
(** A method of the derived class, on its own fields and the world. *)
Definition on_sub {A} (p : ptr) (m : M (P * W) A) : M St A := λ s,
  match handlers s !! p with
  | None => UB "event handler"
  | Some h =>
      zoom (λ s, (sub_ h, world s))
        (λ xw s, set_world xw.2 (put_handler p (set_sub xw.1 h) s)) m s
  end.
Definition on_loop_thread : M St bool := gets (λ s, (this_thread s =? loop_ s)%Z).

(** event_loop.cc: the constructor [EventLoop(timeout)]: the pipe's reading end
    is watched, and the thread [tid] starts. *)
Definition EventLoop_new (timeout : Duration) (tid : Z) : M St unit :=
  CHECK "timeout_ > Duration::zero()" (0 <? timeout)%Z ;;
  fd ← gets pipe_fd;
  on_epoll (EPoll_Add fd EPOLLIN None) ;;
  modify (λ s, mkSt (handlers s) (lst s) (ep s) (clk s) (pipe_ s) (pipe_fd s)
                 (this_thread s) tid timeout (world s)).

(** [new]: the constructor [EventHandler(fd)] of a handler with derived fields
    [x], at an address that is free. *)
Definition alloc_handler (p : ptr) (fd : Z) (x : P) (s : St) : St :=
  set_lst (mkL (<[p := node_new]> (heap (lst s))) (the_list (lst s)))
    (put_handler p (mkEH fd 0 false 0 x) s).

Definition new_handler (p : ptr) (fd : Z) (x : P) : M St unit :=
  CHECK "fd_ >= 0" (0 <=? fd)%Z ;; modify (alloc_handler p fd x).

(** event_loop.h: [IncRef]. *)
Definition IncRef (p : ptr) : M St unit :=
  h ← handler p;
  CHECK "ref_count_ >= 0" (0 <=? ref_count_ h)%Z ;;
  upd_handler p (set_ref (ref_count_ h + 1)).

(** event_loop.cc: [EventLoop::Add]. *)
Definition Add (arg : option ptr) (evs : Z) : M St unit :=
  p ← non_null "eh" arg;
  h ← handler p;
  CHECK "!eh->event_loop_" (negb (event_loop_ h)) ;;
  b ← on_loop_thread;
  CHECK "get_id() == loop_.get_id()" b ;;
  IncRef p ;;
  upd_handler p (set_registered true) ;;
  t ← now;
  d ← gets timeout_;
  upd_handler p (set_deadline (t + d)) ;;
  on_list (AddTail (Some p)) ;;
  on_epoll (EPoll_Add (fd_ h) evs (Some p)).

(** event_loop.cc: [EventLoop::Modify]. *)
Definition Modify (arg : option ptr) (evs : Z) : M St unit :=
  p ← non_null "eh" arg;
  h ← handler p;
  CHECK "eh->event_loop_ == this" (event_loop_ h) ;;
  b ← on_loop_thread;
  CHECK "get_id() == loop_.get_id()" b ;;
  on_epoll (EPoll_Modify (fd_ h) evs (Some p)).

(** event_loop.cc: [EventLoop::Refresh]. *)
Definition Refresh (arg : option ptr) : M St unit :=
  p ← non_null "eh" arg;
  h ← handler p;
  CHECK "eh->event_loop_ == this" (event_loop_ h) ;;
  b ← on_loop_thread;
  CHECK "get_id() == loop_.get_id()" b ;;
  t ← now;
  d ← gets timeout_;
  upd_handler p (set_deadline (t + d)) ;;
  tl ← gets (λ s, tail (the_list (lst s)));
  match tl with
  | Some q =>
      th ← handler q;
      CHECK "eh->deadline_ >= tail->deadline_" (deadline_ th <=? t + d)%Z
  | None => mret tt
  end ;;
  on_list (Erase (Some p)) ;;
  on_list (AddTail (Some p)).

(** ** The invariant

    [ext p] counts the references to the handler [p] other than the loop's
    own, [news] are the handlers that have been created and not yet added, and
    [xs] the handlers in the order of [expire_]. *)
Definition dls (hs : gmap ptr EventHandler) (xs : list ptr) : list Z :=
  (λ p, from_option deadline_ 0%Z (hs !! p)) <$> xs.

Record Inv (ext : ptr → Z) (news : gset ptr) (xs : list ptr) (s : St) : Prop := {
  inv_thread : this_thread s = loop_ s;
  inv_list : IsList (lst s) xs;
  inv_reg : ∀ p, p ∈ xs ↔ ∃ h, handlers s !! p = Some h ∧ event_loop_ h = true;
  inv_node : ∀ p h, handlers s !! p = Some h → event_loop_ h = false →
    heap (lst s) !! p = Some node_new;
  inv_ref : ∀ p h, handlers s !! p = Some h →
    ref_count_ h = (Z.b2z (event_loop_ h) + ext p)%Z;
  inv_ext : ∀ p, (0 ≤ ext p)%Z;
  inv_alive : ∀ p, (0 < ext p)%Z → is_Some (handlers s !! p);
  inv_kept : ∀ p h, handlers s !! p = Some h →
    event_loop_ h = true ∨ (0 < ext p)%Z ∨ p ∈ news;
  inv_news : ∀ p, p ∈ news →
    ∃ h, handlers s !! p = Some h ∧ event_loop_ h = false ∧ ext p = 0%Z;
  inv_epoll : EPoll_ok (ep s);
  inv_pipe : ∃ ev, interest (kernel (ep s)) !! pipe_fd s = Some ev ∧ data_ptr ev = None;
  inv_interest : ∀ fd ev, interest (kernel (ep s)) !! fd = Some ev → fd ≠ pipe_fd s →
    ∃ p h, handlers s !! p = Some h ∧ event_loop_ h = true ∧ fd_ h = fd ∧ data_ptr ev = Some p;
  inv_registered : ∀ p h, handlers s !! p = Some h → event_loop_ h = true →
    fd_ h ≠ pipe_fd s ∧
    ∃ ev, interest (kernel (ep s)) !! fd_ h = Some ev ∧ data_ptr ev = Some p;
  inv_sorted : StronglySorted Z.le (dls (handlers s) xs);
  inv_bound : ∀ p h, handlers s !! p = Some h → event_loop_ h = true →
    (deadline_ h ≤ time (clk s) + timeout_ s)%Z
}.

(** [ext] with [n] more references to [p]. *)
Definition ext_add (p : ptr) (n : Z) (ext : ptr → Z) : ptr → Z :=
  λ q, if decide (q = p) then (ext q + n)%Z else ext q.

Lemma ext_add_eq p n ext : ext_add p n ext p = (ext p + n)%Z.
Proof. unfold ext_add. by rewrite decide_True. Qed.
Lemma ext_add_ne p n ext q : q ≠ p → ext_add p n ext q = ext q.
Proof. intros. unfold ext_add. by rewrite decide_False. Qed.

(** The heap without the handler [p]. *)
Definition drop_handler (p : ptr) (s : St) : St :=
  set_lst (mkL (delete p (heap (lst s))) (the_list (lst s)))
    (set_handlers (delete p (handlers s)) s).

(** *** Symbolic execution of the accessors *)
Lemma wp_handler p h Q s : handlers s !! p = Some h → Q h s → wp (handler p) Q s.
Proof. intros. by eapply wp_deref. Qed.

Lemma wp_upd_handler p f h Q s :
  handlers s !! p = Some h → Q tt (put_handler p (f h) s) → wp (upd_handler p f) Q s.
Proof.
  intros Hp HQ. unfold upd_handler. apply wp_bind. by apply (wp_handler _ h).
Qed.

(** How far the clock can get. *)
Definition horizon (c : clock) : Z := (time c + Z.of_N (foldr N.add 0%N (increments c)))%Z.

Lemma horizon_tick c : (horizon (clock_tick c) = horizon c)%Z.
Proof. destruct c as [t [|d ds]]; unfold horizon, clock_tick; cbn [time increments foldr]; lia. Qed.

Lemma time_le_horizon c : (time c ≤ horizon c)%Z.
Proof. unfold horizon. lia. Qed.

Lemma wp_on_sub {A} p (m : M (P * W) A) h Q s :
  handlers s !! p = Some h →
  wp m (λ a xw, Q a (set_world xw.2 (put_handler p (set_sub xw.1 h) s))) (sub_ h, world s) →
  wp (on_sub p m) Q s.
Proof.
  intros Hp Hm. unfold wp at 1, on_sub. rewrite Hp.
  apply (wp_zoom (λ s, (sub_ h, world s))
           (λ xw s, set_world xw.2 (put_handler p (set_sub xw.1 h) s)) m Q s Hm).
Qed.

Lemma wp_now Q s :
  (∀ c, (time (clk s) ≤ time c)%Z → horizon c = horizon (clk s) → Q (time c) (set_clk c s)) →
  wp now Q s.
Proof. intros HQ. apply wp_zoom, wp_Clock_now. intros c' Hc ->. apply HQ; [done|apply horizon_tick]. Qed.

Lemma handlers_put p h s : handlers (put_handler p h s) = <[p := h]> (handlers s).
Proof. done. Qed.

Lemma wp_on_loop_thread Q s : Q (this_thread s =? loop_ s)%Z s → wp on_loop_thread Q s.
Proof. done. Qed.

Ltac ev_step :=
  lazymatch goal with
  | |- wp (handler _) _ _ =>
      eapply wp_handler; [first [eassumption | cbn; by simplify_map_eq]|]
  | |- wp (upd_handler _ _) _ _ =>
      eapply wp_upd_handler; [first [eassumption | cbn; by simplify_map_eq]|]
  | |- wp on_loop_thread _ _ => apply wp_on_loop_thread
  | |- wp now _ _ => apply wp_now; intros ???
  | |- wp (on_list _) _ _ => apply wp_zoom
  | |- wp (on_epoll _) _ _ => apply wp_zoom
  | |- wp (on_world _) _ _ => apply wp_zoom
  | |- _ => wp_step
  end.
Ltac ev_steps := repeat (ev_step; cbn beta).

(** *** Preservation of the invariant *)
Lemma dls_insert hs xs p h' :
  (p ∈ xs → from_option deadline_ 0%Z (hs !! p) = deadline_ h') →
  dls (<[p := h']> hs) xs = dls hs xs.
Proof.
  intros Hp. unfold dls. apply list_fmap_ext. intros i q Hq%list_elem_of_lookup_2.
  destruct (decide (q = p)) as [->|]; [|by rewrite lookup_insert_ne].
  rewrite lookup_insert_eq; cbn. by rewrite Hp.
Qed.

Lemma Inv_put ext ext' news xs s p h h' :
  Inv ext news xs s → handlers s !! p = Some h →
  fd_ h' = fd_ h → event_loop_ h' = event_loop_ h → deadline_ h' = deadline_ h →
  ref_count_ h' = (Z.b2z (event_loop_ h) + ext' p)%Z → (0 ≤ ext' p)%Z →
  (∀ q, q ≠ p → ext' q = ext q) →
  event_loop_ h = true ∨ (0 < ext' p)%Z ∨ p ∈ news →
  (p ∈ news → ext' p = 0%Z) →
  Inv ext' news xs (put_handler p h' s).
Proof.
  intros HI Hp Hfd Hev Hdl Href Hpos Hext Hkept Hnews.
  split; cbn; try apply HI.
  - intros q. rewrite (inv_reg _ _ _ _ HI q). destruct (decide (p = q)) as [<-|Hne].
    + rewrite Hp, lookup_insert_eq. split; intros (? & [= <-] & ?); [exists h'|exists h];
        split; congruence.
    + by rewrite lookup_insert_ne.
  - intros q hq [[<- <-]|[? Hq]]%lookup_insert_Some ?;
      [apply (inv_node _ _ _ _ HI p h); congruence|by eapply inv_node].
  - intros q hq [[<- <-]|[? Hq]]%lookup_insert_Some; [congruence|].
    rewrite Hext by done. by apply HI.
  - intros q. destruct (decide (q = p)) as [->|]; [done|]. rewrite Hext by done. by apply HI.
  - intros q Hq. rewrite lookup_insert_is_Some'. destruct (decide (p = q)); [by left|right].
    apply (inv_alive _ _ _ _ HI). by rewrite <- Hext.
  - intros q hq [[<- <-]|[? Hq]]%lookup_insert_Some; [by rewrite Hev|].
    rewrite Hext by done. by apply HI.
  - intros q Hq. destruct (inv_news _ _ _ _ HI q Hq) as (hq & ? & ? & ?).
    destruct (decide (p = q)) as [<-|Hne]; [exists h'|exists hq].
    + rewrite lookup_insert_eq. split_and!; [congruence..|by apply Hnews].
    + by rewrite lookup_insert_ne, Hext.
  - intros fd ev Hi Hne. destruct (inv_interest _ _ _ _ HI fd ev Hi Hne) as (q & hq & ?&?&?&?).
    destruct (decide (p = q)) as [<-|]; [exists p, h'|exists q, hq].
    + rewrite lookup_insert_eq. split_and!; congruence.
    + by rewrite lookup_insert_ne.
  - intros q hq [[<- <-]|[? Hq]]%lookup_insert_Some ?;
      [rewrite Hfd; apply (inv_registered _ _ _ _ HI p h); congruence|by eapply inv_registered].
  - rewrite dls_insert; [by apply HI|]. intros _. by rewrite Hp.
  - intros q hq [[<- <-]|[? Hq]]%lookup_insert_Some ?;
      [rewrite Hdl; apply (inv_bound _ _ _ _ HI p h); congruence|by eapply inv_bound].
Qed.

Lemma Inv_world ext news xs s w : Inv ext news xs s → Inv ext news xs (set_world w s).
Proof. intros HI. split; apply HI. Qed.

Lemma Inv_pipe ext news xs s q : Inv ext news xs s → Inv ext news xs (set_pipe q s).
Proof. intros HI. split; apply HI. Qed.

Lemma Inv_clk ext news xs s c :
  Inv ext news xs s → (time (clk s) ≤ time c)%Z → Inv ext news xs (set_clk c s).
Proof.
  intros HI Hc. split; try apply HI. cbn. intros p h Hp Hev.
  pose proof (inv_bound _ _ _ _ HI p h Hp Hev). lia.
Qed.

Lemma Inv_unlinked ext news xs s p h :
  Inv ext news xs s → handlers s !! p = Some h → event_loop_ h = false → p ∉ xs.
Proof. intros HI Hp Hev (h' & ? & ?)%(inv_reg _ _ _ _ HI). congruence. Qed.

Lemma Inv_linked ext news xs s p h :
  Inv ext news xs s → handlers s !! p = Some h → event_loop_ h = true → p ∈ xs.
Proof. intros HI Hp Hev. apply (inv_reg _ _ _ _ HI). eauto. Qed.

Lemma dls_delete hs xs p : p ∉ xs → dls (delete p hs) xs = dls hs xs.
Proof.
  intros Hp. apply list_fmap_ext. intros i q Hq%list_elem_of_lookup_2.
  rewrite lookup_delete_ne; [done|set_solver].
Qed.

(** Freeing a handler that has no references left and is not registered. *)
Lemma Inv_drop ext ext' news xs s p h :
  Inv ext news xs s → handlers s !! p = Some h → event_loop_ h = false → p ∉ news →
  ext' p = 0%Z → (∀ q, q ≠ p → ext' q = ext q) →
  Inv ext' news xs (drop_handler p s).
Proof.
  intros HI Hp Hev Hnews Hzero Hext. pose proof (Inv_unlinked _ _ _ _ _ _ HI Hp Hev) as Hpx.
  assert (∀ q, ext' q = if decide (q = p) then 0%Z else ext q) as Hext'.
  { intros q. case_decide; subst; auto. }
  split; cbn; try apply HI.
  - eapply IsList_frame; [by apply HI|done|]. intros q Hq. cbn.
    rewrite lookup_delete_ne; [done|set_solver].
  - intros q. rewrite (inv_reg _ _ _ _ HI q). destruct (decide (p = q)) as [<-|].
    + rewrite Hp, lookup_delete_eq. naive_solver congruence.
    + by rewrite lookup_delete_ne.
  - intros q hq [? Hq]%lookup_delete_Some ?. rewrite lookup_delete_ne by done.
    by eapply inv_node.
  - intros q hq [? Hq]%lookup_delete_Some. rewrite Hext by done. by apply HI.
  - intros q. rewrite Hext'. case_decide; [done|]. by apply HI.
  - intros q. rewrite Hext'. case_decide; [done|]. rewrite lookup_delete_ne by done. by apply HI.
  - intros q hq [? Hq]%lookup_delete_Some. rewrite Hext by done. by apply HI.
  - intros q Hq. rewrite lookup_delete_ne, Hext by set_solver. by eapply inv_news.
  - intros fd ev Hi Hne. destruct (inv_interest _ _ _ _ HI fd ev Hi Hne) as (q & hq & Hq & ?&?&?).
    exists q, hq. rewrite lookup_delete_ne; [done|]. intros ->. congruence.
  - intros q hq [? Hq]%lookup_delete_Some. by eapply inv_registered.
  - rewrite dls_delete by done. by apply HI.
  - intros q hq [? Hq]%lookup_delete_Some. by eapply inv_bound.
Qed.

(** *** Reference counting *)
Lemma IncRef_wp ext news xs s p h Q :
  Inv ext news xs s → handlers s !! p = Some h → p ∉ news →
  (Inv (ext_add p 1 ext) news xs (put_handler p (set_ref (ref_count_ h + 1) h) s) →
   Q tt (put_handler p (set_ref (ref_count_ h + 1) h) s)) →
  wp (IncRef p) Q s.
Proof.
  intros HI Hp Hnews HQ. pose proof (inv_ref _ _ _ _ HI _ _ Hp) as Href.
  pose proof (inv_ext _ _ _ _ HI p). unfold IncRef.
  ev_steps.
  { apply Z.leb_le. destruct (event_loop_ h); cbn in *; lia. }
  apply HQ.
  eapply Inv_put; [done..|cbn| | | |]; rewrite ?ext_add_eq; [lia|lia| | |done].
  - intros. by apply ext_add_ne.
  - right; left. lia.
Qed.

(** *** Registration *)

(** The state as another thread sees it. *)
Definition as_thread (t : Z) (s : St) : St :=
  mkSt (handlers s) (lst s) (ep s) (clk s) (pipe_ s) (pipe_fd s) t (loop_ s) (timeout_ s) (world s).

(** The part of the state that the loop's operations do not touch. *)
Definition same_rest (s s' : St) : Prop :=
  pipe_ s' = pipe_ s ∧ pipe_fd s' = pipe_fd s ∧ this_thread s' = this_thread s ∧
  loop_ s' = loop_ s ∧ timeout_ s' = timeout_ s ∧ world s' = world s.

Lemma dls_app hs xs ys : dls hs (xs ++ ys) = dls hs xs ++ dls hs ys.
Proof. apply fmap_app. Qed.

Lemma StronglySorted_sublist {A} (R : relation A) l k :
  sublist l k → StronglySorted R k → StronglySorted R l.
Proof.
  induction 1 as [|x l k Hs IH|x l k Hs IH]; inversion_clear 1; [constructor|constructor|]; auto.
  eapply Forall_forall. intros y Hy. rewrite Forall_forall in *. 
  match goal with H : ∀ x, _ → R _ _ |- _ => apply H end. by eapply elem_of_sublist.
Qed.

Lemma StronglySorted_snoc {A} (R : relation A) l x :
  StronglySorted R l → Forall (λ y, R y x) l → StronglySorted R (l ++ [x]).
Proof.
  induction 1 as [|y l Hl IH Hy]; cbn; [repeat constructor|].
  rewrite Forall_cons. intros [? ?]. constructor; [by apply IH|].
  apply Forall_app. by repeat constructor.
Qed.

(** Linking (or relinking at the end) the handler [p]. *)
Lemma Inv_link ext news xs ys s s' p h h' ev :
  Inv ext news xs s → handlers s !! p = Some h →
  handlers s' = <[p := h']> (handlers s) →
  event_loop_ h' = true → fd_ h' = fd_ h → ref_count_ h' = (1 + ext p)%Z →
  IsList (lst s') (ys ++ [p]) → (∀ q, q ∈ ys ↔ q ∈ xs ∧ q ≠ p) → sublist ys xs →
  (∀ q, q ∉ xs → q ≠ p → heap (lst s') !! q = heap (lst s) !! q) →
  EPoll_ok (ep s') →
  interest (kernel (ep s')) = <[fd_ h := ev]> (interest (kernel (ep s))) →
  data_ptr ev = Some p → fd_ h ≠ pipe_fd s →
  (event_loop_ h = false → interest (kernel (ep s)) !! fd_ h = None) →
  deadline_ h' = (time (clk s') + timeout_ s)%Z → (time (clk s) ≤ time (clk s'))%Z →
  same_rest s s' →
  Inv ext (news ∖ {[p]}) (ys ++ [p]) s'.
Proof.
  intros HI Hp Hhs Hev Hfd Href Hl Hys Hsub Hframe Hok Hint Hdata Hpfd Hfree Hdl Htime
    (Hpq & Hpf & Hth & Hlp & Hto & Hw).
  assert (∀ q hq, handlers s !! q = Some hq → event_loop_ hq = true → q ≠ p → fd_ hq ≠ fd_ h)
    as Hfds.
  { intros q hq Hq Hevq Hne Heq.
    destruct (inv_registered _ _ _ _ HI _ _ Hq Hevq) as (_ & eq & He & Hd). rewrite Heq in He.
    destruct (event_loop_ h) eqn:Eh; [|by rewrite Hfree in He].
    destruct (inv_registered _ _ _ _ HI _ _ Hp Eh) as (_ & e & He' & Hd'). congruence. }
  split; try done; rewrite ?Hhs, ?Hint, ?Hth, ?Hlp, ?Hpf; try apply HI.
  - intros q. rewrite elem_of_app, list_elem_of_singleton, Hys, (inv_reg _ _ _ _ HI q).
    destruct (decide (p = q)) as [<-|Hne]; [rewrite lookup_insert_eq|rewrite lookup_insert_ne by done].
    + split; [eauto|]. by right.
    + naive_solver.
  - intros q hq [[<- <-]|[? Hq]]%lookup_insert_Some Hevq; [congruence|].
    rewrite Hframe; [by eapply inv_node|by eapply Inv_unlinked|done].
  - intros q hq [[<- <-]|[? Hq]]%lookup_insert_Some; [by rewrite Hev, Href|by apply HI].
  - intros q Hq. rewrite lookup_insert_is_Some'. right. by apply (inv_alive _ _ _ _ HI).
  - intros q hq [[<- <-]|[? Hq]]%lookup_insert_Some; [by left|].
    destruct (inv_kept _ _ _ _ HI _ _ Hq) as [?|[?|?]]; [by left|by right; left|].
    right; right. set_solver.
  - intros q [Hq Hne]%elem_of_difference. rewrite lookup_insert_ne by set_solver.
    by apply (inv_news _ _ _ _ HI).
  - rewrite lookup_insert_ne by done. apply HI.
  - intros fd e [[<- <-]|[Hne He]]%lookup_insert_Some Hfdp.
    + exists p, h'. rewrite lookup_insert_eq. done.
    + destruct (inv_interest _ _ _ _ HI _ _ He Hfdp) as (q & hq & Hq & Hevq & Hfq & Hdq).
      exists q, hq. rewrite lookup_insert_ne; [done|]. intros ->. congruence.
  - intros q hq [[<- <-]|[Hne Hq]]%lookup_insert_Some Hevq.
    + rewrite Hfd. split; [done|]. exists ev. by rewrite lookup_insert_eq.
    + destruct (inv_registered _ _ _ _ HI _ _ Hq Hevq) as (? & e & ? & ?).
      split; [done|]. exists e. rewrite lookup_insert_ne; [done|]. apply not_eq_sym. by eapply Hfds.
  - rewrite dls_app, dls_insert by set_solver. apply StronglySorted_snoc.
    + eapply StronglySorted_sublist; [|apply HI]. by apply fmap_sublist.
    + apply Forall_fmap, Forall_forall. intros q [Hq Hne]%Hys. cbn. 
      rewrite lookup_insert_eq; cbn. apply (inv_reg _ _ _ _ HI) in Hq as (hq & Hq & Hevq).
      rewrite Hq; cbn. pose proof (inv_bound _ _ _ _ HI _ _ Hq Hevq). lia.
  - intros q hq [[<- <-]|[Hne Hq]]%lookup_insert_Some Hevq; rewrite Hto; [lia|].
    pose proof (inv_bound _ _ _ _ HI _ _ Hq Hevq). lia.
Qed.

(** Unlinking the handler [p]: the loop's reference becomes a reference of the
    caller's. *)
Lemma Inv_unlink ext news xs ys s s' p h :
  Inv ext news xs s → handlers s !! p = Some h → event_loop_ h = true → p ∉ news →
  handlers s' = <[p := set_registered false h]> (handlers s) →
  IsList (lst s') ys → (∀ q, q ∈ ys ↔ q ∈ xs ∧ q ≠ p) → sublist ys xs →
  heap (lst s') !! p = Some node_new →
  (∀ q, q ∉ xs → heap (lst s') !! q = heap (lst s) !! q) →
  EPoll_ok (ep s') →
  interest (kernel (ep s')) = delete (fd_ h) (interest (kernel (ep s))) →
  clk s' = clk s → same_rest s s' →
  Inv (ext_add p 1 ext) news ys s'.
Proof.
  intros HI Hp Hev Hnews Hhs Hl Hys Hsub Hnode Hframe Hok Hint Hclk
    (Hpq & Hpf & Hth & Hlp & Hto & Hw).
  destruct (inv_registered _ _ _ _ HI _ _ Hp Hev) as (Hpfd & evp & Hevp & Hdp).
  split; try done; rewrite ?Hhs, ?Hint, ?Hth, ?Hlp, ?Hpf; try apply HI.
  - intros q. rewrite Hys, (inv_reg _ _ _ _ HI q).
    destruct (decide (p = q)) as [<-|Hne]; [rewrite lookup_insert_eq|rewrite lookup_insert_ne by done].
    + split; [by intros [_ ?]|]. by intros (? & [= <-] & ?).
    + naive_solver.
  - intros q hq [[<- <-]|[? Hq]]%lookup_insert_Some Hevq; [done|].
    rewrite Hframe; [by eapply inv_node|by eapply Inv_unlinked].
  - intros q hq [[<- <-]|[? Hq]]%lookup_insert_Some.
    + rewrite ext_add_eq. cbn. rewrite (inv_ref _ _ _ _ HI _ _ Hp), Hev. cbn. lia.
    + rewrite ext_add_ne by done. by apply HI.
  - intros q. pose proof (inv_ext _ _ _ _ HI q). unfold ext_add. case_decide; lia.
  - intros q Hq. rewrite lookup_insert_is_Some'.
    destruct (decide (p = q)) as [|Hne]; [by left|right]. rewrite ext_add_ne in Hq by done.
    by apply (inv_alive _ _ _ _ HI).
  - intros q hq [[<- <-]|[? Hq]]%lookup_insert_Some.
    + pose proof (inv_ext _ _ _ _ HI p). rewrite ext_add_eq. right; left. lia.
    + rewrite ext_add_ne by done. by eapply inv_kept.
  - intros q Hq. rewrite lookup_insert_ne, ext_add_ne by set_solver. by apply (inv_news _ _ _ _ HI).
  - rewrite lookup_delete_ne by done. apply HI.
  - intros fd e [Hne He]%lookup_delete_Some Hfdp.
    destruct (inv_interest _ _ _ _ HI _ _ He Hfdp) as (q & hq & Hq & Hevq & Hfq & Hdq).
    exists q, hq. rewrite lookup_insert_ne; [done|]. intros ->. congruence.
  - intros q hq [[<- <-]|[Hne Hq]]%lookup_insert_Some Hevq; [done|].
    destruct (inv_registered _ _ _ _ HI _ _ Hq Hevq) as (? & e & He & ?).
    split; [done|]. exists e. rewrite lookup_delete_ne; [done|]. intros Heq. rewrite Heq in Hevp.
    congruence.
  - rewrite dls_insert by (rewrite Hys; naive_solver).
    eapply StronglySorted_sublist; [|apply HI]. by apply fmap_sublist.
  - intros q hq [[<- <-]|[Hne Hq]]%lookup_insert_Some Hevq; [done|].
    rewrite Hto, Hclk. by eapply inv_bound.
Qed.

Lemma elem_of_without (l1 l2 : list ptr) p q :
  NoDup (l1 ++ p :: l2) → q ∈ l1 ++ l2 ↔ q ∈ l1 ++ p :: l2 ∧ q ≠ p.
Proof. intros (? & ? & _)%NoDup_middle. set_solver. Qed.

Lemma sublist_without (l1 l2 : list ptr) p : sublist (l1 ++ l2) (l1 ++ p :: l2).
Proof. apply sublist_app; [done|]. by apply sublist_cons. Qed.

Lemma Inv_ext_eq ext ext' news xs s :
  Inv ext news xs s → (∀ q, ext' q = ext q) → Inv ext' news xs s.
Proof. intros HI He. split; try setoid_rewrite He; apply HI. Qed.

Lemma Inv_news_eq ext news news' xs s :
  Inv ext news xs s → (∀ q, q ∈ news' ↔ q ∈ news) → Inv ext news' xs s.
Proof. intros HI He. split; try setoid_rewrite He; apply HI. Qed.

(** The loop as it is constructed, once its thread runs. *)
Definition fresh_loop (s : St) : Prop :=
  handlers s = ∅ ∧ the_list (lst s) = list_new ∧ EPoll_ok (ep s) ∧
  interest (kernel (ep s)) = ∅.

Lemma EventLoop_new_wp timeout tid s Q :
  fresh_loop s → (0 < timeout)%Z → this_thread s = tid →
  (∀ s', Inv (λ _, 0%Z) ∅ [] s' → timeout_ s' = timeout → handlers s' = ∅ →
     pipe_ s' = pipe_ s → world s' = world s → clk s' = clk s → Q tt s') →
  wp (EventLoop_new timeout tid) Q s.
Proof.
  intros (Hh & Hl & Hok & Hi) Ht <- HQ. unfold EventLoop_new. ev_steps; [by apply Z.ltb_lt|].
  apply EPoll_Add_wp; [done|by rewrite Hi|]. intros e Hok' _ Hi'. ev_steps. apply HQ; try done.
  rewrite Hi in Hi'. split; cbn; rewrite ?Hh; try done.
  - destruct (lst s) as [hp l] eqn:E. cbn in Hl. subst. apply list_new_IsList.
  - intros p. split; [by intros ?%not_elem_of_nil|]. intros (h & ? & _). set_solver.
  - rewrite Hi', lookup_insert_eq. by eexists.
  - intros fd ev Hfd Hne. by rewrite Hi', lookup_insert_ne in Hfd by done.
  - constructor.
Qed.

(** *** The operations *)
Lemma Add_wp ext news xs s p h evs Q :
  Inv ext news xs s → handlers s !! p = Some h → event_loop_ h = false →
  interest (kernel (ep s)) !! fd_ h = None →
  (∀ s' t, Inv ext (news ∖ {[p]}) (xs ++ [p]) s' → same_rest s s' →
     (time (clk s) ≤ time (clk s'))%Z → horizon (clk s') = horizon (clk s) →
     handlers s' = <[p := mkEH (fd_ h) t true (ref_count_ h + 1) (sub_ h)]> (handlers s) →
     Q tt s') →
  wp (Add (Some p) evs) Q s.
Proof.
  intros HI Hp Hev Hfd HQ. pose proof (inv_ref _ _ _ _ HI _ _ Hp) as Href.
  pose proof (inv_ext _ _ _ _ HI p). rewrite Hev in Href; cbn in Href.
  pose proof (Inv_unlinked _ _ _ _ _ _ HI Hp Hev) as Hpx.
  assert (fd_ h ≠ pipe_fd s).
  { intros Heq. destruct (inv_pipe _ _ _ _ HI) as (e & He & _). congruence. }
  unfold Add, IncRef. ev_steps; [by rewrite Hev|by apply Z.eqb_eq, HI|apply Z.leb_le; lia|].
  eapply AddTail_wp; [by apply HI|done|by apply (inv_node _ _ _ _ HI p h)|].
  intros l' Hl' Hframe. ev_steps. eapply EPoll_Add_wp; [by apply HI|done|].
  intros e' Hok' _ Hint'. cbn in *. apply (HQ _ (time c + timeout_ s)%Z).
  - eapply Inv_link with (ys := xs) (p := p)
      (h' := mkEH (fd_ h) (time c + timeout_ s) true (ref_count_ h + 1) (sub_ h)); cbn; try done.
    + by rewrite !insert_insert_eq.
    + lia.
    + intros q. split; [|by intros [? _]]. intros. split; [done|]. by intros ->.
  - by repeat split.
  - done.
  - done.
  - cbn. by rewrite !insert_insert_eq.
Qed.

Lemma Modify_wp ext news xs s p h evs Q :
  Inv ext news xs s → handlers s !! p = Some h → event_loop_ h = true →
  (∀ s', Inv ext news xs s' → same_rest s s' → clk s' = clk s → handlers s' = handlers s →
     interest (kernel (ep s')) =
       <[fd_ h := mkEvent (to_uint32 evs) (Some p)]> (interest (kernel (ep s))) → Q tt s') →
  wp (Modify (Some p) evs) Q s.
Proof.
  intros HI Hp Hev HQ. destruct (inv_registered _ _ _ _ HI _ _ Hp Hev) as (Hpfd & e & He & Hd).
  unfold Modify. ev_steps; [done|by apply Z.eqb_eq, HI|].
  eapply EPoll_Modify_wp; [by apply HI|by eexists|]. intros e' Hok' _ Hint.
  apply HQ; [|by repeat split|done|done|done].
  split; cbn; rewrite ?Hint; try done; try apply HI.
  - rewrite lookup_insert_ne by done. apply HI.
  - intros fd ev [[<- <-]|[Hne Hfd]]%lookup_insert_Some Hfdp; [by exists p, h|].
    by apply (inv_interest _ _ _ _ HI).
  - intros q hq Hq Hevq. destruct (inv_registered _ _ _ _ HI _ _ Hq Hevq) as (? & eq & Heq & Hdq).
    split; [done|]. destruct (decide (fd_ h = fd_ hq)) as [Hf|].
    + rewrite <- Hf, lookup_insert_eq. eexists. split; [done|]. cbn. congruence.
    + rewrite lookup_insert_ne by done. eauto.
Qed.

Lemma Refresh_wp ext news xs s p h Q :
  Inv ext news xs s → handlers s !! p = Some h → event_loop_ h = true → p ∉ news →
  (∀ s' l1 l2, xs = l1 ++ p :: l2 → Inv ext news ((l1 ++ l2) ++ [p]) s' → same_rest s s' →
     (time (clk s) ≤ time (clk s'))%Z → horizon (clk s') = horizon (clk s) → ep s' = ep s →
     handlers s' = <[p := set_deadline (time (clk s') + timeout_ s) h]> (handlers s) →
     Q tt s') →
  wp (Refresh (Some p)) Q s.
Proof.
  intros HI Hp Hev Hnews HQ. pose proof (inv_ref _ _ _ _ HI _ _ Hp) as Href. rewrite Hev in Href.
  pose proof (Inv_linked _ _ _ _ _ _ HI Hp Hev) as (l1 & l2 & ->)%list_elem_of_split.
  pose proof (il_nodup _ _ (inv_list _ _ _ _ HI)) as Hnd.
  destruct (inv_registered _ _ _ _ HI _ _ Hp Hev) as (Hpfd & evp & Hevp & Hdp).
  unfold Refresh. ev_steps; [done|by apply Z.eqb_eq, HI|].
  unfold tail. cbn. rewrite (il_tail _ _ (inv_list _ _ _ _ HI)).
  destruct (last_of_cons p l2) as (z & Hz & ->). cbn.
  assert (∃ hz, handlers s !! z = Some hz ∧ event_loop_ hz = true) as (hz & Hhz & Hevz).
  { apply (inv_reg _ _ _ _ HI). set_solver. }
  pose proof (inv_bound _ _ _ _ HI _ _ Hhz Hevz).
  apply wp_bind.
  eapply wp_handler with (h := if decide (p = z) then set_deadline (time c + timeout_ s) h else hz).
  { cbn. case_decide; simplify_map_eq; done. }
  ev_steps. { apply Z.leb_le. case_decide; cbn; lia. }
  eapply Erase_wp; [by apply HI|]. intros l' Hl' Hnode Hframe. ev_steps.
  eapply AddTail_wp; [done|by apply NoDup_middle in Hnd as (?&?&_); set_solver|done|].
  intros l3 Hl3 Hframe3. cbn. eapply (HQ _ l1 l2 eq_refl); [|by repeat split|done..].
  eapply Inv_news_eq.
  - eapply Inv_link with (p := p) (ev := evp); cbn; try done.
    + by intros; apply elem_of_without.
    + apply sublist_without.
    + intros q Hq Hqp. rewrite Hframe3, Hframe by set_solver. done.
    + by apply HI.
    + by rewrite insert_id.
    + congruence.
  - set_solver.
Qed.

(** Creating a handler. *)
Lemma Inv_alloc ext news xs s p fd x :
  Inv ext news xs s → handlers s !! p = None →
  Inv ext ({[p]} ∪ news) xs (alloc_handler p fd x s).
Proof.
  intros HI Hp.
  assert (p ∉ xs) as Hpx.
  { intros (h & ? & _)%(inv_reg _ _ _ _ HI). congruence. }
  assert (ext p = 0%Z) as Hext.
  { pose proof (inv_ext _ _ _ _ HI p). destruct (decide (0 < ext p)%Z) as [Hpos|]; [|lia].
    apply (inv_alive _ _ _ _ HI) in Hpos as [??]. congruence. }
  split; cbn; try apply HI.
  - eapply IsList_frame; [by apply HI|done|]. intros q Hq. cbn.
    rewrite lookup_insert_ne; [done|set_solver].
  - intros q. rewrite (inv_reg _ _ _ _ HI q). destruct (decide (p = q)) as [<-|].
    + rewrite lookup_insert_eq, Hp. naive_solver.
    + by rewrite lookup_insert_ne.
  - intros q hq [[<- <-]|[? Hq]]%lookup_insert_Some ?; [by rewrite lookup_insert_eq|].
    rewrite lookup_insert_ne by done. by eapply inv_node.
  - intros q hq [[<- <-]|[? Hq]]%lookup_insert_Some; [cbn; lia|by apply HI].
  - intros q Hq. rewrite lookup_insert_is_Some'. right. by apply (inv_alive _ _ _ _ HI).
  - intros q hq [[<- <-]|[? Hq]]%lookup_insert_Some; [right; right; set_solver|].
    destruct (inv_kept _ _ _ _ HI _ _ Hq) as [?|[?|?]]; [by left|by right; left|].
    right; right. set_solver.
  - intros q Hq. destruct (decide (p = q)) as [<-|]; [rewrite lookup_insert_eq; eauto|].
    rewrite lookup_insert_ne by done. apply (inv_news _ _ _ _ HI). set_solver.
  - intros fd' ev Hi Hne. destruct (inv_interest _ _ _ _ HI _ _ Hi Hne) as (q & hq & Hq & ?&?&?).
    exists q, hq. rewrite lookup_insert_ne; [done|]. intros ->. congruence.
  - intros q hq [[<- <-]|[? Hq]]%lookup_insert_Some ?; [done|]. by eapply inv_registered.
  - rewrite dls_insert by done. apply HI.
  - intros q hq [[<- <-]|[? Hq]]%lookup_insert_Some ?; [done|]. by eapply inv_bound.
Qed.

(** The first reference to a new handler is taken by its creator. *)
Lemma Inv_adopt ext news xs s p h :
  Inv ext news xs s → p ∈ news → handlers s !! p = Some h →
  Inv (ext_add p 1 ext) (news ∖ {[p]}) xs (put_handler p (set_ref (ref_count_ h + 1) h) s).
Proof.
  intros HI Hp Hh. destruct (inv_news _ _ _ _ HI p Hp) as (h' & Hh' & Hev & Hext).
  rewrite Hh in Hh'. simplify_eq. pose proof (inv_ref _ _ _ _ HI _ _ Hh) as Href. rewrite Hev in Href.
  split; cbn; try apply HI.
  - intros q. rewrite (inv_reg _ _ _ _ HI q). destruct (decide (p = q)) as [<-|Hne].
    + rewrite Hh, lookup_insert_eq. cbn. naive_solver congruence.
    + by rewrite lookup_insert_ne.
  - intros q hq [[<- <-]|[? Hq]]%lookup_insert_Some ?; [by apply (inv_node _ _ _ _ HI p h')|].
    by eapply inv_node.
  - intros q hq [[<- <-]|[? Hq]]%lookup_insert_Some; [rewrite ext_add_eq; cbn; rewrite Hev; cbn in *; lia|].
    rewrite ext_add_ne by done. by apply HI.
  - intros q. pose proof (inv_ext _ _ _ _ HI q). unfold ext_add. case_decide; lia.
  - intros q Hq. rewrite lookup_insert_is_Some'. destruct (decide (p = q)); [by left|right].
    rewrite ext_add_ne in Hq by done. by apply (inv_alive _ _ _ _ HI).
  - intros q hq [[<- <-]|[? Hq]]%lookup_insert_Some; [right; left; rewrite ext_add_eq; lia|].
    rewrite ext_add_ne by done. destruct (inv_kept _ _ _ _ HI _ _ Hq) as [?|[?|?]]; [auto..|].
    right; right. set_solver.
  - intros q [Hq Hne]%elem_of_difference. rewrite lookup_insert_ne, ext_add_ne by set_solver.
    by apply (inv_news _ _ _ _ HI).
  - intros fd ev Hi Hne. destruct (inv_interest _ _ _ _ HI fd ev Hi Hne) as (q & hq & Hq & ?&?&?).
    exists q, hq. rewrite lookup_insert_ne; [done|]. intros ->. congruence.
  - intros q hq [[<- <-]|[? Hq]]%lookup_insert_Some; [cbn; congruence|]. by apply HI.
  - rewrite dls_insert; [apply HI|]. intros Hin. destruct (Inv_unlinked _ _ _ _ _ _ HI Hh Hev Hin).
  - intros q hq [[<- <-]|[? Hq]]%lookup_insert_Some ?; [cbn in *; congruence|]. by eapply inv_bound.
Qed.

(** A new handler is destroyed by its creator. *)
Lemma Inv_discard ext news xs s p h :
  Inv ext news xs s → p ∈ news → handlers s !! p = Some h →
  Inv ext (news ∖ {[p]}) xs (drop_handler p s).
Proof.
  intros HI Hp Hh. pose proof (Inv_adopt _ _ _ _ _ _ HI Hp Hh) as HI1.
  destruct (inv_news _ _ _ _ HI p Hp) as (h' & Hh' & Hev & Hext). rewrite Hh in Hh'. simplify_eq.
  eapply Inv_drop with (p := p) (ext' := ext) in HI1; cycle 1.
  - cbn. apply lookup_insert_eq.
  - done.
  - set_solver.
  - done.
  - intros q Hne. by rewrite ext_add_ne.
  - unfold drop_handler, put_handler, set_handlers, set_lst in *. cbn in *.
    by rewrite delete_insert_eq in HI1.
Qed.

(** ** Destruction *)

(** The derived class's part of the virtual destructor. *)
Context (sub_delete : P → M W unit).

(** event_loop.h: the destructor: the derived part first, then
    [~EventHandler]. *)
Definition delete_handler (p : ptr) : M St unit :=
  h ← handler p;
  on_world (sub_delete (sub_ h)) ;;
  CHECK "event_loop_ == nullptr" (negb (event_loop_ h)) ;;
  CHECK "ref_count_ == 0" (ref_count_ h =? 0)%Z ;;
  modify (λ s, set_lst (mkL (delete p (heap (lst s))) (the_list (lst s)))
                 (set_handlers (delete p (handlers s)) s)).

(** event_loop.h: [DecRef]. *)
Definition DecRef (p : ptr) : M St unit :=
  h ← handler p;
  CHECK "ref_count_ > 0" (0 <? ref_count_ h)%Z ;;
  upd_handler p (set_ref (ref_count_ h - 1)) ;;
  when (ref_count_ h - 1 =? 0)%Z (delete_handler p).

(** event_loop.cc: [EventLoop::Remove]. *)
Definition Remove (arg : option ptr) : M St unit :=
  p ← non_null "eh" arg;
  h ← handler p;
  CHECK "eh->event_loop_ == this" (event_loop_ h) ;;
  b ← on_loop_thread;
  CHECK "get_id() == loop_.get_id()" b ;;
  on_list (Erase (Some p)) ;;
  on_epoll (EPoll_Remove (fd_ h)) ;;
  upd_handler p (set_registered false) ;;
  DecRef p.

(** A reference that is not the last one. *)
Lemma DecRef_wp ext news xs s p h Q :
  Inv ext news xs s → handlers s !! p = Some h → (0 < ext p)%Z →
  event_loop_ h = true ∨ (1 < ext p)%Z →
  (Inv (ext_add p (-1) ext) news xs (put_handler p (set_ref (ref_count_ h - 1) h) s) →
   Q tt (put_handler p (set_ref (ref_count_ h - 1) h) s)) →
  wp (DecRef p) Q s.
Proof.
  intros HI Hp Hpos Hkeep HQ. pose proof (inv_ref _ _ _ _ HI _ _ Hp) as Href.
  assert (1 < ref_count_ h)%Z.
  { destruct Hkeep as [Hev|]; [rewrite Hev in Href; cbn in Href; lia|].
    destruct (event_loop_ h); cbn in *; lia. }
  unfold DecRef. ev_steps; [apply Z.ltb_lt; lia|intros ?%Z.eqb_eq; lia|]. intros _. apply HQ.
  eapply Inv_put; [done..|cbn| | | |]; rewrite ?ext_add_eq; [lia|lia| | |].
  3: intros (? & ? & ? & ?)%(inv_news _ _ _ _ HI); lia.
  - intros. by apply ext_add_ne.
  - destruct Hkeep; [by left|right; left; lia].
Qed.

(** The last reference: the handler is destroyed. *)
Lemma DecRef_last_wp ext news xs s p h Q :
  Inv ext news xs s → handlers s !! p = Some h → ext p = 1%Z → event_loop_ h = false →
  p ∉ news →
  wp (sub_delete (sub_ h))
     (λ _ w, Inv (ext_add p (-1) ext) news xs (set_world w (drop_handler p s)) →
             Q tt (set_world w (drop_handler p s))) (world s) →
  wp (DecRef p) Q s.
Proof.
  intros HI Hp Hext Hev Hnews HQ. pose proof (inv_ref _ _ _ _ HI _ _ Hp) as Href.
  rewrite Hev, Hext in Href; cbn in Href.
  unfold DecRef. ev_steps; [apply Z.ltb_lt; lia|intros _|rewrite Href; done].
  unfold delete_handler. ev_steps.
  eapply wp_mono; [apply HQ|]. cbn. intros [] w Hw. ev_steps; [by rewrite Hev|by rewrite Href|].
  replace (set_lst _ _) with (set_world w (drop_handler p s)).
  - apply Hw, Inv_world. eapply Inv_drop; [done..| |].
    + rewrite ext_add_eq. lia.
    + intros. by apply ext_add_ne.
  - unfold set_lst, set_handlers, set_world, drop_handler, put_handler; cbn.
    by rewrite delete_insert_eq.
Qed.

Lemma Remove_wp ext news xs s p h Q :
  Inv ext news xs s → handlers s !! p = Some h → event_loop_ h = true → p ∉ news →
  (0 < ext p)%Z →
  (∀ s' ys, Inv ext news ys s' → same_rest s s' → sublist ys xs →
     clk s' = clk s →
     interest (kernel (ep s')) = delete (fd_ h) (interest (kernel (ep s))) →
     handlers s' = <[p := set_ref (ref_count_ h - 1) (set_registered false h)]> (handlers s) →
     Q tt s') →
  wp (Remove (Some p)) Q s.
Proof.
  intros HI Hp Hev Hnews Hext HQ.
  pose proof (Inv_linked _ _ _ _ _ _ HI Hp Hev) as (l1 & l2 & ->)%list_elem_of_split.
  pose proof (il_nodup _ _ (inv_list _ _ _ _ HI)) as Hnd.
  destruct (inv_registered _ _ _ _ HI _ _ Hp Hev) as (Hpfd & evp & Hevp & Hdp).
  unfold Remove. ev_steps; [done|by apply Z.eqb_eq, HI|].
  eapply Erase_wp; [by apply HI|]. intros l' Hl' Hnode Hframe. ev_steps.
  eapply EPoll_Remove_wp; [by apply HI|by eexists|]. intros e' Hok' _ Hint'. cbn in *. ev_steps.
  eapply DecRef_wp with (ext := ext_add p 1 ext) (news := news) (xs := l1 ++ l2) (p := p).
  - eapply Inv_unlink; cbn; try done; [by intros; apply elem_of_without|apply sublist_without].
  - by apply lookup_insert_eq.
  - rewrite ext_add_eq. lia.
  - right. rewrite ext_add_eq. lia.
  - intros HI'. eapply HQ; [|by repeat split|apply sublist_without|done|done|].
    + eapply Inv_ext_eq; [apply HI'|]. intros q. unfold ext_add. case_decide; lia.
    + cbn. by rewrite insert_insert_eq.
Qed.

(** ** The owner of handlers *)

(** A handler as its owner sees it: the loop changes its reference count and
    its deadline only. *)
Definition same_object (h h' : EventHandler) : Prop :=
  fd_ h' = fd_ h ∧ event_loop_ h' = event_loop_ h ∧ sub_ h' = sub_ h.

Definition ext_plus (tmp own : ptr → Z) : ptr → Z := λ q, (tmp q + own q)%Z.

(** What a class that owns handlers promises; its invariant [CI own news s] knows
    the references [own] that the handlers hold of each other and the handlers
    [news] that wait in the pipe.
    - [client_frame]: the invariant does not depend on what the loop changes;
    - [client_delete]: destroying a handler that nobody references succeeds. *)
Class HandlerOwner (CI : (ptr → Z) → gset ptr → St → Prop) : Prop := {
  client_frame : ∀ own news s s',
    CI own news s → world s' = world s → pipe_ s' = pipe_ s → pipe_fd s' = pipe_fd s →
    (∀ q h', handlers s' !! q = Some h' → ∃ h, handlers s !! q = Some h ∧ same_object h h') →
    (∀ q h, handlers s !! q = Some h → handlers s' !! q = None →
       event_loop_ h = false ∧ own q = 0%Z ∧ q ∉ news) →
    CI own news s';
  client_own : ∀ own news s q, CI own news s → (0 ≤ own q)%Z;
  client_delete : ∀ own news s q h,
    CI own news s → handlers s !! q = Some h → event_loop_ h = false → own q = 0%Z → q ∉ news →
    wp (sub_delete (sub_ h)) (λ _ w, CI own news (set_world w (drop_handler q s))) (world s)
}.

Section owner.
Context (CI : (ptr → Z) → gset ptr → St → Prop) `{!HandlerOwner CI}.

(** The loop gives back a reference that it holds. *)
Lemma give_back tmp own news xs s p Q :
  Inv (ext_plus tmp own) news xs s → CI own news s →
  (∀ q, (0 ≤ tmp q)%Z) → (0 < tmp p)%Z → p ∉ news →
  (∀ s', Inv (ext_plus (ext_add p (-1) tmp) own) news xs s' → CI own news s' →
     pipe_ s' = pipe_ s → timeout_ s' = timeout_ s → clk s' = clk s →
     (∀ q, q ∈ xs → deadline_ <$> handlers s' !! q = deadline_ <$> handlers s !! q) →
     Q tt s') →
  wp (DecRef p) Q s.
Proof.
  intros HI HC Htmp Hp Hnews HQ. pose proof (client_own _ _ _ p HC) as Hown.
  assert (0 < ext_plus tmp own p)%Z as Hpos by (unfold ext_plus; lia).
  destruct (inv_alive _ _ _ _ HI p Hpos) as [h Hh].
  assert (∀ q, ext_plus (ext_add p (-1) tmp) own q = ext_add p (-1) (ext_plus tmp own) q) as Hext.
  { intros q. unfold ext_plus, ext_add. case_decide; lia. }
  destruct (decide (event_loop_ h = true ∨ (1 < ext_plus tmp own p)%Z)) as [Hkeep|Hlast].
  - eapply DecRef_wp; [done..|]. intros HI'. apply HQ; try done.
    + by eapply Inv_ext_eq.
    + eapply client_frame; [done|done|done|done|..]; cbn.
      * intros q h' [[<- <-]|[? Hq]]%lookup_insert_Some; [by exists h|by exists h'].
      * intros q h' Hq Hn. apply lookup_insert_None in Hn as [? _]. congruence.
    + intros q _. cbn. destruct (decide (p = q)) as [<-|];
        [by rewrite lookup_insert_eq, Hh|by rewrite lookup_insert_ne].
  - assert (event_loop_ h = false ∧ tmp p = 1%Z ∧ own p = 0%Z) as (Hev & Ht & Ho).
    { unfold ext_plus in *. destruct (event_loop_ h); [naive_solver|].
      split; [done|]. lia. }
    eapply DecRef_last_wp; [done|done|unfold ext_plus; lia|done|done|].
    eapply wp_mono; [by eapply client_delete|]. intros [] w HC' HI'. cbn in HC'.
    apply HQ; try done.
    + by eapply Inv_ext_eq.
    + intros q Hq. cbn. pose proof (Inv_unlinked _ _ _ _ _ _ HI Hh Hev).
      rewrite lookup_delete_ne; [done|set_solver].
Qed.

(** The loop takes a reference. *)
Lemma take_ref tmp own news xs s p h Q :
  Inv (ext_plus tmp own) news xs s → CI own news s → handlers s !! p = Some h → p ∉ news →
  (∀ s', Inv (ext_plus (ext_add p 1 tmp) own) news xs s' → CI own news s' →
     pipe_ s' = pipe_ s → timeout_ s' = timeout_ s → clk s' = clk s →
     handlers s' = <[p := set_ref (ref_count_ h + 1) h]> (handlers s) → Q tt s') →
  wp (IncRef p) Q s.
Proof.
  intros HI HC Hp Hnews HQ. eapply IncRef_wp; [done..|]. intros HI'. apply HQ; try done.
  - eapply Inv_ext_eq; [done|]. intros q. unfold ext_plus, ext_add. case_decide; lia.
  - eapply client_frame; [done|done|done|done|..]; cbn.
    + intros q h' [[<- <-]|[? Hq]]%lookup_insert_Some; [by exists h|by exists h'].
    + intros q h' Hq Hn. apply lookup_insert_None in Hn as [? _]. congruence.
Qed.

End owner.

(** ** The loop *)

(** The virtual functions, and running a scheduled function. *)
Context (OnEvent : ptr → Z → M St unit) (OnTimeout : ptr → M St unit) (run : F → M St unit).

(** event_loop.cc: [EventLoop::Schedule], called from another thread. *)
Definition Schedule (f : F) : M St unit :=
  b ← on_loop_thread;
  CHECK "get_id() != loop_.get_id()" (negb b) ;;
  ok ← (λ s, let '(ok, q) := pipe_write f (pipe_ s) in Done (ok, set_pipe q s));
  CHECK "write(pipe_[1], &p, sizeof(p)) == sizeof(p)" ok.

(** event_loop.cc: [EventLoop::ScheduleOrRun]. *)
Definition ScheduleOrRun (f : F) : M St unit :=
  b ← on_loop_thread;
  if b : bool then run f else Schedule f.

(** event_loop.cc: [PopFunc]. *)
Definition PopFunc : M St unit :=
  f ← (λ s, let '(f, q) := pipe_read (pipe_ s) in Done (f, set_pipe q s));
  match f with
  | None => abort "read(pipe, &f, sizeof(f)) == sizeof(f)"
  | Some f => run f
  end.

(** event_loop.cc: the parts of one turn of [EventLoop::Loop]. *)
Definition hold (ev : epoll_event) : M St unit :=
  match data_ptr ev with Some p => IncRef p | None => mret tt end.

Definition dispatch (ev : epoll_event) : M St unit :=
  match data_ptr ev with
  | None => PopFunc
  | Some p =>
      h ← handler p;
      when (event_loop_ h) (OnEvent p (to_int32 (events ev))) ;;
      DecRef p
  end.

Fixpoint expire (fuel : nat) : M St unit :=
  match fuel with
  | 0 => no_fuel
  | S fuel =>
      hd ← gets (λ s, head (the_list (lst s)));
      match hd with
      | None => mret tt
      | Some p =>
          h ← handler p;
          t ← now;
          if (t <? deadline_ h)%Z then mret tt
          else
            CHECK "eh->event_loop_ == this" (event_loop_ h) ;;
            IncRef p ;;
            OnTimeout p ;;
            h' ← handler p;
            when (event_loop_ h') (Refresh (Some p)) ;;
            DecRef p ;;
            expire fuel
      end
  end.

(** ** The interface between the loop and its handlers *)

(** What a class of handlers promises. Its invariant [CI own news s] knows the
    references [own] that the handlers hold of each other and the handlers
    [news] that wait in the pipe; [tmp] are the references that the loop holds
    during a turn.
    - [client_owner]: what it promises as an owner of handlers;
    - [client_event], [client_timeout], [client_run]: the virtual functions and
      the functions in the pipe keep the invariants; [OnTimeout] registers no
      handler and leaves the deadlines of the others. *)
Definition keeps (CI : (ptr → Z) → gset ptr → St → Prop) (tmp : ptr → Z) (s s' : St)
    (xs' : list ptr) : Prop :=
  ∃ own' news', Inv (ext_plus tmp own') news' xs' s' ∧ CI own' news' s' ∧
    timeout_ s' = timeout_ s ∧
    (time (clk s) ≤ time (clk s'))%Z ∧ (horizon (clk s') ≤ horizon (clk s))%Z.

Class LoopClient (CI : (ptr → Z) → gset ptr → St → Prop) : Prop := {
  client_owner :: HandlerOwner CI;
  client_event : ∀ tmp own news xs s p h evs,
    Inv (ext_plus tmp own) news xs s → CI own news s →
    (∀ q, (0 ≤ tmp q)%Z) → (0 < tmp p)%Z → handlers s !! p = Some h → event_loop_ h = true →
    wp (OnEvent p evs) (λ _ s', ∃ xs', keeps CI tmp s s' xs' ∧ pipe_ s' = pipe_ s) s;
  client_timeout : ∀ tmp own news xs s p h,
    Inv (ext_plus tmp own) news xs s → CI own news s →
    (∀ q, (0 ≤ tmp q)%Z) → (0 < tmp p)%Z → handlers s !! p = Some h → event_loop_ h = true →
    wp (OnTimeout p) (λ _ s', ∃ xs', keeps CI tmp s s' xs' ∧ sublist xs' xs ∧
      ∀ q, q ∈ xs' → deadline_ <$> handlers s' !! q = deadline_ <$> handlers s !! q) s;
  client_run : ∀ tmp own news xs s f fs q',
    Inv (ext_plus tmp own) news xs s → CI own news s →
    (∀ q, (0 ≤ tmp q)%Z) → pending (pipe_ s) = f :: fs → pending q' = fs →
    wp (run f) (λ _ s', ∃ xs', keeps CI tmp s s' xs' ∧ pipe_ s' = q') (set_pipe q' s)
}.

(** *** One turn of the loop *)
Section client.
Context (CI : (ptr → Z) → gset ptr → St → Prop) `{!LoopClient CI}.

(** The references that the first pass of a turn takes. *)
Fixpoint held (evs : list epoll_event) (q : ptr) : Z :=
  match evs with
  | [] => 0
  | ev :: evs => (if decide (data_ptr ev = Some q) then 1 else 0) + held evs q
  end%Z.

(** The wakeups through the pipe. *)
Fixpoint pipe_events (evs : list epoll_event) : nat :=
  match evs with
  | [] => 0
  | ev :: evs => (if decide (data_ptr ev = None) then 1 else 0) + pipe_events evs
  end.

Lemma held_nonneg evs q : (0 ≤ held evs q)%Z.
Proof. induction evs; cbn; [done|]. case_decide; lia. Qed.

Definition registered (s : St) (q : ptr) : Prop :=
  ∃ h, handlers s !! q = Some h ∧ event_loop_ h = true.

Definition plus_held (tmp : ptr → Z) (evs : list epoll_event) : ptr → Z :=
  λ q, (tmp q + held evs q)%Z.

Lemma hold_all evs tmp own news xs s Q :
  Inv (ext_plus tmp own) news xs s → CI own news s →
  (∀ ev q, ev ∈ evs → data_ptr ev = Some q → registered s q) →
  (∀ s', Inv (ext_plus (plus_held tmp evs) own) news xs s' → CI own news s' →
     pipe_ s' = pipe_ s → timeout_ s' = timeout_ s → clk s' = clk s → Q tt s') →
  wp (for_each hold evs) Q s.
Proof.
  revert tmp s. induction evs as [|ev evs IH]; intros tmp s HI HC Hreg HQ; cbn.
  - wp_steps. apply HQ; try done. eapply Inv_ext_eq; [done|]. intros q.
    unfold ext_plus, plus_held; cbn. lia.
  - apply wp_bind. unfold hold at 1. destruct (data_ptr ev) as [p|] eqn:Ed.
    + destruct (Hreg ev p) as (h & Hp & Hev); [set_solver|done|].
      eapply (take_ref CI); [done..| |].
      { intros (? & ? & ? & ?)%(inv_news _ _ _ _ HI). congruence. }
      intros s' HI' HC' Hpi Hto Hck Hhs. eapply IH; [done|done| |].
      * intros ev' q Hev' Hq. destruct (Hreg ev' q) as (hq & Hhq & Hevq); [set_solver|done|].
        unfold registered. rewrite Hhs. destruct (decide (p = q)) as [<-|].
        -- rewrite lookup_insert_eq. by eexists.
        -- rewrite lookup_insert_ne by done. by eexists.
      * intros s2 HI2 HC2 ???. apply HQ; [|done|congruence..].
        eapply Inv_ext_eq; [done|]. intros q. unfold ext_plus, plus_held, ext_add; cbn.
        rewrite Ed. repeat case_decide; simplify_eq; lia.
    + wp_steps. eapply IH; [done|done| |].
      * intros ev' q Hev'. apply Hreg. set_solver.
      * intros s2 HI2 HC2 ???. apply HQ; try done.
        eapply Inv_ext_eq; [done|]. intros q. unfold ext_plus, plus_held; cbn.
        rewrite Ed. by rewrite decide_False.
Qed.

Lemma keeps_trans tmp s s1 s2 xs1 xs2 :
  keeps CI tmp s s1 xs1 → keeps CI tmp s1 s2 xs2 → keeps CI tmp s s2 xs2.
Proof.
  intros (own1 & news1 & _ & _ & ? & ? & ?) (own2 & news2 & ? & ? & ? & ? & ?).
  exists own2, news2. split_and!; try done; [congruence|lia..].
Qed.

Lemma keeps_refl tmp own news s xs :
  Inv (ext_plus tmp own) news xs s → CI own news s → keeps CI tmp s s xs.
Proof. intros. exists own, news. split_and!; done. Qed.

(** The second pass: no [CHECK] fails and no freed handler is touched, whatever
    the handlers do to each other; at the end the loop has given back every
    reference. *)
Lemma dispatch_all evs tmp own news xs s :
  Inv (ext_plus (plus_held tmp evs) own) news xs s → CI own news s →
  (∀ q, (0 ≤ tmp q)%Z) → pipe_events evs ≤ length (pending (pipe_ s)) →
  wp (for_each dispatch evs) (λ _ s', ∃ xs', keeps CI tmp s s' xs') s.
Proof.
  revert own news xs s. induction evs as [|ev evs IH]; intros own news xs s HI HC Htmp Hpend; cbn.
  - wp_steps. exists xs. eapply keeps_refl; [|done].
    eapply Inv_ext_eq; [done|]. intros q. unfold ext_plus, plus_held; cbn. lia.
  - assert (∀ q, (0 ≤ plus_held tmp (ev :: evs) q)%Z) as Hpos.
    { intros q. pose proof (held_nonneg (ev :: evs) q). specialize (Htmp q).
      unfold plus_held. lia. }
    apply wp_bind. unfold dispatch at 1. cbn in Hpend. destruct (data_ptr ev) as [p|] eqn:Ed.
    + assert (0 < plus_held tmp (ev :: evs) p)%Z as Hp.
      { unfold plus_held; cbn. rewrite Ed, decide_True by done.
        pose proof (held_nonneg evs p). specialize (Htmp p). lia. }
      assert (∃ h, handlers s !! p = Some h) as [h Hh].
      { apply (inv_alive _ _ _ _ HI). pose proof (client_own _ _ _ p HC). unfold ext_plus. lia. }
      apply wp_bind. eapply wp_handler; [done|]. apply wp_bind.
      apply (wp_mono _ (λ _ s', ∃ xs', keeps CI (plus_held tmp (ev :: evs)) s s' xs' ∧
                                       pipe_ s' = pipe_ s)).
      { apply wp_when; [|intros _; exists xs; split; [by eapply keeps_refl|done]].
        intros Hev. by eapply client_event. }
      intros [] s1 (xs1 & (own1 & news1 & HI1 & HC1 & Hto1 & Hcl1 & Hho1) & Hpi1).
      eapply (give_back CI); [done|done|done|done| |].
      { intros (? & ? & ? & He)%(inv_news _ _ _ _ HI1).
        pose proof (client_own _ _ _ p HC1). unfold ext_plus in He. lia. }
      intros s2 HI2 HC2 Hpi2 Hto2 Hck2 _. eapply wp_mono.
      { eapply IH; [|done|done|].
        - eapply Inv_ext_eq; [done|]. intros q. unfold ext_plus, plus_held, ext_add; cbn.
          rewrite Ed. repeat case_decide; simplify_eq; lia.
        - rewrite Hpi2, Hpi1. destruct (decide _); [done|lia]. }
      cbn. intros [] s3 (xs3 & own3 & news3 & ? & ? & ? & ? & ?). exists xs3, own3, news3.
      rewrite Hck2 in *. split_and!; try done; [congruence|lia..].
    + rewrite decide_True in Hpend by done.
      destruct (pending (pipe_ s)) as [|f fs] eqn:Ef; [cbn in Hpend; lia|].
      destruct (pipe_read_ok f fs (pipe_ s) Ef) as (q' & Hr & Hq').
      unfold PopFunc. apply wp_bind. unfold wp at 1. rewrite Hr. cbn.
      eapply wp_mono; [by eapply client_run|].
      intros [] s1 (xs1 & (own1 & news1 & HI1 & HC1 & Hto1 & Hcl1 & Hho1) & Hpi1). eapply wp_mono.
      { eapply IH; [|done|done|].
        - eapply Inv_ext_eq; [done|]. intros q. unfold ext_plus, plus_held; cbn.
          rewrite Ed. by rewrite decide_False.
        - rewrite Hpi1, Hq'. cbn in Hpend. lia. }
      cbn. intros [] s3 (xs3 & own3 & news3 & ? & ? & ? & ? & ?). exists xs3, own3, news3.
      cbn in *. split_and!; try done; [congruence|lia..].
Qed.

(** *** The timeouts *)

Definition dl (s : St) (q : ptr) : Z := from_option deadline_ 0%Z (handlers s !! q).

(** The handlers of [xs] whose deadline the clock may still reach. *)
Definition late (hz : Z) (s : St) (xs : list ptr) : list ptr := filter (λ q, dl s q ≤ hz)%Z xs.

Lemma late_sublist hz s s' xs xs' :
  sublist xs' xs → (∀ q, q ∈ xs' → dl s' q = dl s q) →
  length (late hz s' xs') ≤ length (late hz s xs).
Proof.
  intros Hsub Hdl. induction Hsub as [|x xs' xs Hs IH|x xs' xs Hs IH]; [done|..]; unfold late in *.
  - rewrite !filter_cons, Hdl by set_solver.
    destruct (decide _); cbn; [apply le_n_S|]; apply IH; intros; apply Hdl; set_solver.
  - rewrite filter_cons. specialize (IH Hdl). destruct (decide _); cbn; lia.
Qed.

Lemma sublist_head_out {A} (l1 l2 k : list A) p :
  sublist (l1 ++ p :: l2) (p :: k) → p ∉ k → l1 = [] ∧ sublist l2 k.
Proof.
  intros [Hs|(l' & Heq & Hs)]%sublist_cons_r Hp.
  - exfalso. apply Hp. eapply elem_of_sublist; [|done]. set_solver.
  - destruct l1 as [|q l1]; cbn in Heq; [injection Heq as <-; by split|].
    injection Heq as -> <-. exfalso. apply Hp. eapply elem_of_sublist; [|done]. set_solver.
Qed.

Lemma sublist_without_head {A} (l k : list A) p : sublist l (p :: k) → p ∉ l → sublist l k.
Proof.
  intros [Hs|(l' & -> & Hs)]%sublist_cons_r Hp; [done|]. set_solver.
Qed.

(** No registered handler's deadline has passed. *)
Definition none_expired (s : St) : Prop :=
  ∀ q h, handlers s !! q = Some h → event_loop_ h = true → (time (clk s) < deadline_ h)%Z.

(** When the first deadline has not passed, none has. *)
Lemma head_not_expired ext news xs s :
  Inv ext news xs s → (∀ p k, xs = p :: k → time (clk s) < dl s p)%Z → none_expired s.
Proof.
  intros HI Hhd q h Hq Hev. pose proof (Inv_linked _ _ _ _ _ _ HI Hq Hev) as Hqx.
  assert (dl s q = deadline_ h) as Hdl by (unfold dl; by rewrite Hq).
  destruct xs as [|p k]; [by apply not_elem_of_nil in Hqx|].
  specialize (Hhd p k eq_refl). rewrite <- Hdl.
  apply elem_of_cons in Hqx as [->|Hqk]; [done|].
  pose proof (inv_sorted _ _ _ _ HI) as Hs. cbn in Hs. apply StronglySorted_inv in Hs as [_ Hall].
  rewrite List.Forall_forall in Hall.
  enough (dl s p ≤ dl s q)%Z by lia. apply Hall. apply List.in_map_iff. exists q.
  split; [done|]. by apply list_elem_of_In.
Qed.

(** The handler [p], whose timeout has fired, is gone or moves to the end of the
    list with a deadline that the clock does not reach. *)
Lemma refresh_or_gone hz tmp own news k xs s0 s p h :
  Inv (ext_plus tmp own) news xs s → CI own news s → handlers s !! p = Some h →
  (0 < tmp p)%Z → sublist xs (p :: k) → p ∉ k →
  (∀ q, q ∈ xs → dl s q = dl s0 q) →
  (horizon (clk s) ≤ hz)%Z → (hz < time (clk s) + timeout_ s)%Z →
  wp (when (event_loop_ h) (Refresh (Some p)))
    (λ _ s', ∃ xs', Inv (ext_plus tmp own) news xs' s' ∧ CI own news s' ∧
       timeout_ s' = timeout_ s ∧ (time (clk s) ≤ time (clk s'))%Z ∧
       horizon (clk s') = horizon (clk s) ∧ length (late hz s' xs') ≤ length (late hz s0 k)) s.
Proof.
  intros HI HC Hp Htmp Hsub Hpk Hdl Hhz Hto. apply wp_when; intros Hev.
  - eapply Refresh_wp; [done..| |].
    { intros (? & ? & ? & ?)%(inv_news _ _ _ _ HI). congruence. }
    intros s' l1 l2 -> HI' (Hpi & Hpf & _ & _ & Hto' & Hw) Hti Hho _ Hhs.
    apply sublist_head_out in Hsub as [-> Hl2]; [|done]. cbn in HI'.
    assert (p ∉ l2) as Hpl2.
    { intros Hin. apply Hpk. by eapply elem_of_sublist. }
    exists (l2 ++ [p]). split_and!; try done; [|].
    + eapply client_frame; [done|done|done|done|..]; rewrite Hhs.
      * intros q h' [[<- <-]|[? Hq]]%lookup_insert_Some; [by exists h|by exists h'].
      * intros q h' Hq Hn. apply lookup_insert_None in Hn as [? _]. congruence.
    + unfold late. rewrite filter_app, length_app, filter_cons_False, filter_nil.
      * cbn. rewrite Nat.add_0_r. apply late_sublist; [done|]. intros q Hq.
        rewrite <- Hdl by set_solver. unfold dl. by rewrite Hhs, lookup_insert_ne by set_solver.
      * unfold dl. rewrite Hhs, lookup_insert_eq. cbn. lia.
  - exists xs. split_and!; try done. apply late_sublist; [|done].
    eapply sublist_without_head; [done|]. by eapply Inv_unlinked.
Qed.

(** One iteration, in which the first handler of the list has expired. *)
Lemma time_out_wp hz tmp own news k s p h m (Q : unit → St → Prop) :
  Inv (ext_plus tmp own) news (p :: k) s → CI own news s → (∀ q, (0 ≤ tmp q)%Z) →
  handlers s !! p = Some h → event_loop_ h = true →
  (horizon (clk s) ≤ hz)%Z → (hz < time (clk s) + timeout_ s)%Z →
  (∀ xs' s', keeps CI tmp s s' xs' → length (late hz s' xs') ≤ length (late hz s k) → wp m Q s') →
  wp (IncRef p ;; OnTimeout p ;;
      h ← handler p;
      when (event_loop_ h) (Refresh (Some p)) ;;
      DecRef p ;; m) Q s.
Proof.
  intros HI HC Htmp Hh Hev Hhz HT HQ.
  pose proof (il_nodup _ _ (inv_list _ _ _ _ HI)) as [Hpk _]%NoDup_cons.
  apply wp_bind. eapply (take_ref CI); [done|done|done| |].
  { intros (? & ? & ? & ?)%(inv_news _ _ _ _ HI). congruence. }
  intros s2 HI2 HC2 Hpi2 Hto2 Hck2 Hhs2. apply wp_bind.
  assert (∀ q, dl s2 q = dl s q) as Hdl2.
  { intros q. unfold dl. rewrite Hhs2. destruct (decide (p = q)) as [<-|].
    - by rewrite lookup_insert_eq, Hh.
    - by rewrite lookup_insert_ne. }
  assert (∀ q, (0 ≤ ext_add p 1 tmp q)%Z) as Htmp2.
  { intros q. unfold ext_add. specialize (Htmp q). case_decide; lia. }
  assert (0 < ext_add p 1 tmp p)%Z as Hp2 by (rewrite ext_add_eq; specialize (Htmp p); lia).
  eapply wp_mono.
  { eapply client_timeout with (p := p) (h := set_ref (ref_count_ h + 1) h);
      [done|done|done|done| |done].
    rewrite Hhs2. apply lookup_insert_eq. }
  intros [] s3 (xs3 & (own3 & news3 & HI3 & HC3 & Hto3 & Hcl3 & Hho3) & Hsub3 & Hdl3).
  rewrite Hto2, Hck2 in *. pose proof (client_own _ _ _ p HC3).
  destruct (inv_alive _ _ _ _ HI3 p) as [h3 Hh3]; [unfold ext_plus; lia|].
  apply wp_bind, (wp_handler _ h3); [done|]. apply wp_bind. eapply wp_mono.
  { eapply refresh_or_gone with (s0 := s) (hz := hz); [done..| | |lia].
    - intros q Hq. rewrite <- Hdl2. unfold dl. specialize (Hdl3 q Hq).
      destruct (handlers s3 !! q), (handlers s2 !! q); cbn in *; congruence.
    - lia. }
  cbn. intros [] s4 (xs4 & HI4 & HC4 & Hto4 & Hcl4 & Hho4 & Hlate).
  apply wp_bind. eapply (give_back CI); [done|done|done|done| |].
  { intros (? & ? & ? & He)%(inv_news _ _ _ _ HI4). unfold ext_plus in He. lia. }
  intros s5 HI5 HC5 _ Hto5 Hck5 Hdl5. apply (HQ xs4).
  - exists own3, news3. rewrite Hck5, Hto5. split_and!; [|done|congruence|lia..].
    eapply Inv_ext_eq; [done|]. intros q. unfold ext_plus, ext_add. case_decide; lia.
  - etransitivity; [|exact Hlate]. apply late_sublist; [done|]. intros q Hq. specialize (Hdl5 q Hq). unfold dl.
    destruct (handlers s5 !! q), (handlers s4 !! q); cbn in *; congruence.
Qed.

(** If the clock cannot advance by the loop's timeout during the pass, as many
    iterations as there are handlers are enough, and at its end no deadline
    has passed. *)
Lemma expire_ok fuel hz tmp own news xs s :
  Inv (ext_plus tmp own) news xs s → CI own news s → (∀ q, (0 ≤ tmp q)%Z) →
  (horizon (clk s) ≤ hz)%Z → (hz < time (clk s) + timeout_ s)%Z →
  length (late hz s xs) < fuel →
  wp (expire fuel) (λ _ s', ∃ xs', keeps CI tmp s s' xs' ∧ none_expired s') s.
Proof.
  revert own news xs s. induction fuel as [|fuel IH]; [lia|].
  intros own news xs s HI HC Htmp Hhz HT Hfuel. cbn [expire].
  apply wp_bind, wp_gets. unfold head. rewrite (il_head _ _ (inv_list _ _ _ _ HI)).
  destruct xs as [|p k]; cbn [lookup list_lookup].
  { apply wp_ret. exists []. split; [by eapply keeps_refl|].
    intros q h Hq Hev. apply (Inv_linked _ _ _ _ _ _ HI) in Hq; [|done]. set_solver. }
  assert (∃ h, handlers s !! p = Some h ∧ event_loop_ h = true) as (h & Hh & Hev).
  { apply (inv_reg _ _ _ _ HI). set_solver. }
  assert (dl s p = deadline_ h) as Hdlp by (unfold dl; by rewrite Hh).
  apply wp_bind, (wp_handler _ h); [done|]. apply wp_bind, wp_now. intros c Hc Hhor.
  pose proof (time_le_horizon c). pose proof (Inv_clk _ _ _ _ c HI Hc) as HI1.
  assert (CI own news (set_clk c s)) as HC1.
  { eapply client_frame; [done|done|done|done|..]; cbn; [|congruence].
    intros q h' ?. by exists h'. }
  destruct (Z.ltb_spec (time c) (deadline_ h)) as [Hlt|Hge].
  { apply wp_ret. exists (p :: k). split.
    - exists own, news. cbn. split_and!; try done. lia.
    - eapply head_not_expired; [done|]. intros ? ? [= <- <-].
      change (dl (set_clk c s) p) with (dl s p). by rewrite Hdlp. }
  apply wp_bind, wp_CHECK; [done|].
  eapply (time_out_wp hz); [done|done|done|done|done|cbn; lia|cbn; lia|].
  intros xs' s' (own' & news' & HI' & HC' & Hto' & Hcl' & Hho') Hlate. cbn in Hto', Hcl', Hho'.
  assert (length (late hz s (p :: k)) = S (length (late hz s k))) as Hlen.
  { unfold late. rewrite filter_cons_True; [done|]. rewrite Hdlp. lia. }
  eapply wp_mono; [eapply IH; [done|done|done|lia|lia|]|].
  { change (late hz (set_clk c s) k) with (late hz s k) in Hlate. lia. }
  cbn. intros [] s6 (xs6 & (own6 & news6 & ? & ? & ? & ? & ?) & Hend).
  exists xs6. split; [|done]. exists own6, news6. split_and!; try done; [congruence|lia..].
Qed.
End client.

Context (vector_capacity : nat → nat → nat).

(** [epoll_.Wait(timeout_)]. *)
Definition Loop_wait : M St unit :=
  d ← gets timeout_;
  on_epoll (EPoll_Wait vector_capacity (Some d)).

Definition Loop_turn (fuel : nat) : M St unit :=
  Loop_wait ;;
  evs ← gets (λ s, ready_events_ (ep s));
  for_each hold evs ;;
  for_each dispatch evs ;;
  expire fuel.

Lemma Inv_ep ext news xs s e :
  Inv ext news xs s → EPoll_ok e → interest (kernel e) = interest (kernel (ep s)) →
  Inv ext news xs (set_ep e s).
Proof. intros HI Hok He. split; cbn; rewrite ?He; try done; apply HI. Qed.
End event_loop.

Arguments EventHandler P : clear implicits.
Arguments St P W K PQ : clear implicits.
