(* ===== verification/LoopTheorems.v ===== *)
(** * The event loop: its theorems

    The operations refine the order of the deadlines; wrong calls abort; a turn
    of the loop is safe for every class of handlers that satisfies [LoopClient],
    and leaves no handler whose deadline has passed. *)

From S2P Require Import Prelude IntrusiveList Epoll EventLoop.

(** ** A pipe that keeps the laws *)
#[export] Instance list_pipe (F : Type) : Pipe (list F) F := {|
  pipe_write := λ f q, (true, q ++ [f]);
  pipe_read := λ q, match q with [] => (None, []) | f :: q => (Some f, q) end;
  pending := λ q, q
|}.
#[export] Instance list_pipe_laws (F : Type) : PipeLaws (list F) F.
Proof. split; cbn; [by intros; eexists|]. intros f fs q ->. by eexists. Qed.

Section theorems.
Context {P F W K PQ : Type} `{EpollLaws K} `{PipeLaws PQ F}.
Abbreviation St := (EventLoop.St P W K PQ).
Context (sub_delete : P → M W unit).

(** ** The operations *)
Inductive loop_call := CallAdd (p : ptr) (evs : Z) | CallModify (p : ptr) (evs : Z)
  | CallRefresh (p : ptr) | CallRemove (p : ptr).

Definition callee (c : loop_call) : ptr :=
  match c with CallAdd p _ | CallModify p _ | CallRefresh p | CallRemove p => p end.

Definition run_loop_call (c : loop_call) : M St unit :=
  match c with
  | CallAdd p evs => Add (Some p) evs
  | CallModify p evs => Modify (Some p) evs
  | CallRefresh p => Refresh (Some p)
  | CallRemove p => Remove sub_delete (Some p)
  end.

(** The order of the deadlines: [None] when the call is wrong. *)
Definition abs_loop_call (c : loop_call) (xs : list ptr) : option (list ptr) :=
  match c, bool_decide (callee c ∈ xs) with
  | CallAdd p _, false => Some (xs ++ [p])
  | CallModify p _, true => Some xs
  | CallRefresh p, true => Some (filter (.≠ p) xs ++ [p])
  | CallRemove p, true => Some (filter (.≠ p) xs)
  | _, _ => None
  end.

Lemma sublist_without_eq (ys xs : list ptr) p :
  sublist ys xs → NoDup xs → (∀ q, q ∈ ys ↔ q ∈ xs ∧ q ≠ p) → ys = filter (.≠ p) xs.
Proof.
  induction 1 as [|x ys xs Hs IH|x ys xs Hs IH]; intros Hnd Hel; [done|..].
  - apply NoDup_cons in Hnd as [Hx Hnd]. rewrite filter_cons_True by (apply Hel; set_solver).
    f_equal. apply IH; [done|]. intros q. specialize (Hel q). rewrite !elem_of_cons in Hel.
    assert (x ∉ ys) by (intros ?; apply Hx; by eapply elem_of_sublist).
    destruct (decide (q = x)) as [->|]; naive_solver.
  - apply NoDup_cons in Hnd as [Hx Hnd].
    assert (x = p) as ->.
    { destruct (decide (x = p)); [done|]. exfalso. apply Hx.
      eapply elem_of_sublist; [|done]. apply Hel. split; [set_solver|done]. }
    rewrite filter_cons_False by auto. apply IH; [done|]. intros q. rewrite Hel, elem_of_cons.
    naive_solver.
Qed.

Lemma registered_in ext news xs (s : St) p :
  Inv ext news xs s → p ∈ xs →
  ∃ h, handlers s !! p = Some h ∧ event_loop_ h = true ∧ p ∉ news.
Proof.
  intros HI (h & Hh & Hev)%(inv_reg _ _ _ _ HI). exists h. split_and!; [done..|].
  intros (? & ? & ? & _)%(inv_news _ _ _ _ HI). congruence.
Qed.

Lemma loop_call_wp c ext news xs xs' (s : St) :
  Inv ext news xs s → abs_loop_call c xs = Some xs' →
  match c with
  | CallAdd p _ => ∃ h, handlers s !! p = Some h ∧ interest (kernel (ep s)) !! fd_ h = None
  | CallRemove p => (0 < ext p)%Z
  | _ => True
  end →
  wp (run_loop_call c) (λ _ s', ∃ news', Inv ext news' xs' s' ∧
     match c with CallAdd p _ => news' = news ∖ {[p]} | _ => news' = news end) s.
Proof.
  intros HI Hc Hpre. unfold abs_loop_call in Hc. destruct c as [p e|p e|p|p]; cbn in Hc; case_bool_decide as Hin;
    cbn in Hin, Hc; simplify_eq; cbn [run_loop_call].
  - destruct Hpre as (h & Hh & Hfd). 
    assert (event_loop_ h = false) as Hev.
    { destruct (event_loop_ h) eqn:E; [|done]. destruct Hin. by eapply Inv_linked. }
    eapply Add_wp; [done..|]. intros s' t HI' _ _ _ _. by eexists.
  - destruct (registered_in _ _ _ _ _ HI Hin) as (h & Hh & Hev & Hn).
    eapply Modify_wp; [done..|]. intros s' HI' _ _ _ _. by eexists.
  - destruct (registered_in _ _ _ _ _ HI Hin) as (h & Hh & Hev & Hn).
    eapply Refresh_wp; [done..|]. intros s' l1 l2 -> HI' _ _ _ _ _. exists news. split; [|done].
    erewrite <- (sublist_without_eq (l1 ++ l2)); [done|apply sublist_without|apply HI|].
    intros q. apply elem_of_without. apply HI.
  - destruct (registered_in _ _ _ _ _ HI Hin) as (h & Hh & Hev & Hn).
    eapply Remove_wp; [done..|]. intros s' ys HI' (_ & _ & _ & _ & _ & _) Hsub _ _ Hhs.
    exists news. split; [|done].
    erewrite <- (sublist_without_eq ys); [done|done|apply HI|].
    intros q. rewrite (inv_reg _ _ _ _ HI'), (inv_reg _ _ _ _ HI), Hhs.
    destruct (decide (p = q)) as [<-|Hne].
    + rewrite lookup_insert_eq. naive_solver.
    + rewrite lookup_insert_ne by done. naive_solver.
Qed.

(** C32: [Add], [Modify], [Refresh] and [Remove] implement a queue of handlers in
    the order of their deadlines: a call that is right (a handler that is not
    registered, whose descriptor is not watched yet, is added; registered ones
    are changed; the caller of [Remove] keeps a reference) passes every
    [CHECK], keeps the loop's invariant, and its order of deadlines is: added
    and refreshed handlers last, the others unmoved. *)
Theorem loop_call_refines c ext news xs xs' (s : St) :
  Inv ext news xs s → abs_loop_call c xs = Some xs' →
  match c with
  | CallAdd p _ => ∃ h, handlers s !! p = Some h ∧ interest (kernel (ep s)) !! fd_ h = None
  | CallRemove p => (0 < ext p)%Z
  | _ => True
  end →
  wp (run_loop_call c) (λ _ s', ∃ news', Inv ext news' xs' s') s.
Proof.
  intros. eapply wp_mono; [by eapply loop_call_wp|]. intros [] s' (news' & ? & _). by exists news'.
Qed.

(** A wrong call aborts: adding a handler that is registered; changing one
    that is not; any call from a thread that is not the loop's; a null
    argument. *)
Lemma loop_call_misuse_aborts c t ext news xs (s : St) h :
  Inv ext news xs s → handlers s !! callee c = Some h →
  abs_loop_call c xs = None ∨ t ≠ loop_ s →
  (∃ why, run_loop_call c (as_thread t s) = Abort why) ∧
  ∀ evs, Add None evs s = Abort "eh" ∧ Modify None evs s = Abort "eh" ∧
         Refresh None s = Abort "eh" ∧ Remove sub_delete None s = Abort "eh".
Proof.
  intros HI Hh Hbad. split; [|done].
  assert (handler (callee c) (as_thread t s) = Done (h, as_thread t s)) as Hget.
  { unfold handler, deref. cbn. by rewrite Hh. }
  assert (bool_decide (callee c ∈ xs) = event_loop_ h) as Hreg.
  { case_bool_decide as Hin; destruct (event_loop_ h) eqn:E; try done.
    - apply (inv_reg _ _ _ _ HI) in Hin as (? & ? & ?). congruence.
    - destruct Hin. by eapply Inv_linked. }
  assert (on_loop_thread (as_thread t s) = Done ((t =? loop_ s)%Z, as_thread t s)) as Hth by done.
  unfold abs_loop_call in Hbad.
  assert (∀ (k : bool → M St unit), negb (t =? loop_ s)%Z = true →
    (∀ s, ∃ why, k false s = Abort why) →
    ∃ why, (on_loop_thread ≫= k) (as_thread t s) = Abort why) as Hwrong.
  { intros k Hne Hk. rewrite (bind_Done _ _ _ _ _ Hth).
    destruct (t =? loop_ s)%Z; [done|]. apply Hk. }
  assert (t ≠ loop_ s → negb (t =? loop_ s)%Z = true) as Ht.
  { intros. by rewrite (proj2 (Z.eqb_neq _ _)). }
  destruct c as [p e|p e|p|p]; cbn in Hget, Hbad, Hreg; rewrite Hreg in Hbad;
    cbn [run_loop_call];
    [unfold Add|unfold Modify|unfold Refresh|unfold Remove]; cbn [non_null];
    rewrite (bind_Done _ _ p _ _ eq_refl), (bind_Done _ _ _ _ _ Hget);
    destruct (event_loop_ h); cbn [CHECK negb];
    try (by eexists); rewrite (bind_Done _ _ tt _ _ eq_refl);
    (apply Hwrong; [apply Ht; by destruct Hbad|]); intros ?; by eexists.
Qed.

(** The constructor of [EventLoop] aborts for a timeout that is not
    positive, and otherwise establishes the loop's invariant, with no handler
    and the pipe watched. *)
Theorem EventLoop_new_correct timeout tid (s : St) :
  fresh_loop s → this_thread s = tid →
  if (0 <? timeout)%Z
  then wp (EventLoop_new timeout tid)
         (λ _ s', Inv (λ _, 0%Z) ∅ [] s' ∧ timeout_ s' = timeout ∧ handlers s' = ∅) s
  else EventLoop_new timeout tid s = Abort "timeout_ > Duration::zero()".
Proof.
  intros Hs Ht. destruct (Z.ltb_spec 0 timeout) as [Hpos|Hneg].
  - eapply EventLoop_new_wp; [done..|]. intros; by split_and!.
  - unfold EventLoop_new. by rewrite (proj2 (Z.ltb_ge _ _)) by done.
Qed.

(** A handler is destroyed by the [DecRef] that gives back its last
    reference, and by no other one; a registered handler is never destroyed. *)
Lemma DecRef_frees_last ext news xs (s : St) p h :
  Inv ext news xs s → handlers s !! p = Some h → (0 < ext p)%Z → p ∉ news →
  wp (sub_delete (sub_ h)) (λ _ _, True) (world s) →
  wp (DecRef sub_delete p) (λ _ s', Inv (ext_add p (-1) ext) news xs s' ∧
     (handlers s' !! p = None ↔ event_loop_ h = false ∧ ext p = 1%Z)) s.
Proof.
  intros HI Hp Hpos Hnews Hdel.
  destruct (decide (event_loop_ h = true ∨ (1 < ext p)%Z)) as [Hkeep|Hlast].
  - eapply DecRef_wp; [done..|]. intros HI'. split; [done|]. cbn. rewrite lookup_insert_eq.
    split; [done|]. intros [Hev He]. destruct Hkeep; [congruence|lia].
  - assert (event_loop_ h = false ∧ ext p = 1%Z) as [Hev He].
    { destruct (event_loop_ h); [naive_solver|]. split; [done|]. lia. }
    eapply DecRef_last_wp; [done..|]. eapply wp_mono; [done|]. intros [] w _ HI'.
    split; [done|]. cbn. by rewrite lookup_delete_eq.
Qed.

(** ** Turns of the loop *)
Context (OnEvent : ptr → Z → M St unit) (OnTimeout : ptr → M St unit) (run : F → M St unit).
Context (vector_capacity : nat → nat → nat).

Abbreviation Turn := (Loop_turn sub_delete OnEvent OnTimeout run vector_capacity).

(** What a turn needs of its environment: the allocation of the events' vector
    gives it the size asked for, which is an [int]; the kernel reports the pipe
    as readable only when there is a message in it; and the turn takes less
    time than the timeout. *)
Record turn_env (s : St) : Prop := {
  env_room : total_events_ (ep s) ≤ wait_size vector_capacity (ep s);
  env_int : (Z.of_nat (wait_size vector_capacity (ep s)) < 2 ^ 31)%Z;
  env_pipe : ∀ s', Loop_wait vector_capacity s = Done (tt, s') →
    pipe_events (ready_events_ (ep s')) ≤ length (pending (pipe_ s));
  env_clock : (horizon (clk s) < time (clk s) + timeout_ s)%Z
}.

Section client.
Context (CI : (ptr → Z) → gset ptr → St → Prop)
  `{!LoopClient sub_delete OnEvent OnTimeout run CI}.

Abbreviation no_tmp := (λ _ : ptr, 0%Z).

(** The turn up to its timeouts. *)
Definition Turn_events (s : St) : outcome (unit * St) :=
  (Loop_wait vector_capacity ;;
   evs ← gets (λ s, ready_events_ (ep s));
   for_each hold evs ;;
   for_each (dispatch sub_delete OnEvent run) evs) s.

Lemma Turn_split fuel s :
  Turn fuel s = match Turn_events s with
                | Done (_, s') => expire sub_delete OnTimeout fuel s'
                | Abort e => Abort e | UB e => UB e | NoFuel => NoFuel end.
Proof.
  unfold Loop_turn, Turn_events, mbind, M_bind, gets; cbn.
  destruct (Loop_wait _ s) as [[[] s1]| | |]; [|done..].
  destruct (for_each hold _ s1) as [[[] s2]| | |]; [|done..].
  by destruct (for_each (dispatch _ _ _) _ s2) as [[[] s3]| | |].
Qed.

Lemma Turn_events_wp own news xs s :
  Inv (ext_plus no_tmp own) news xs s → CI own news s → turn_env s →
  wp Turn_events (λ _ s', ∃ xs', keeps CI no_tmp s s' xs') s.
Proof.
  intros HI HC [Hroom Hint Hpipe Hclk]. unfold wp, Turn_events.
  destruct (inv_pipe _ _ _ _ HI) as (evp & Hevp & Hdp).
  pose proof (interest_pos _ (pipe_fd s) (inv_epoll _ _ _ _ HI) ltac:(by eexists)) as Hpos.
  match goal with |- match ?m s with _ => _ end => change (wp m (λ _ s', ∃ xs', keeps CI no_tmp s s' xs') s) end.
  apply wp_bind. 
  assert (wp (Loop_wait vector_capacity) (λ _ s1, Inv (ext_plus no_tmp own) news xs s1 ∧ CI own news s1 ∧ s1 = set_ep (ep s1) s ∧
       ∀ ev q, ev ∈ ready_events_ (ep s1) → data_ptr ev = Some q → registered s1 q) s) as Hw.
  { apply wp_bind, wp_gets, wp_zoom. eapply (EPoll_Wait_wp vector_capacity); [by apply HI|lia|done|done|].
    intros e Hok Hi _ _ _ Hevs. split_and!; [by apply Inv_ep| |done|].
    - eapply (client_frame sub_delete); [done..| |]; cbn; [|congruence]. intros q h' ?. by exists h'.
    - intros ev q Hev Hq. cbn in Hev. destruct (Hevs _ Hev) as (fd & ev' & Hfd & Hd).
      destruct (inv_interest _ _ _ _ HI fd ev' Hfd) as (q' & h & ? & ? & _ & Hd').
      { intros ->. congruence. }
      exists h. cbn. split; [|done]. congruence. }
  apply wp_Done in Hw as ([] & s1 & Hs1 & HI1 & HC1 & Heq & Hreg).
  specialize (Hpipe _ Hs1). eapply wp_of_Done; [exact Hs1|]. rewrite Heq in *.
  apply wp_bind, wp_gets, wp_bind. cbn [ep set_ep] in *.
  eapply hold_all with (tmp := no_tmp); [done..|].
  intros s2 HI2 HC2 Hpi2 Hto2 Hck2. eapply wp_mono.
  { eapply dispatch_all with (tmp := no_tmp); [done..|]. by rewrite Hpi2. }
  cbn in *. intros [] s3 (xs3 & own3 & news3 & ? & ? & ? & ? & ?).
  exists xs3, own3, news3. rewrite Hck2 in *. split_and!; try done. congruence.
Qed.

Lemma Loop_turn_wp own news xs s :
  Inv (ext_plus no_tmp own) news xs s → CI own news s → turn_env s →
  ∃ n, ∀ fuel, n < fuel →
    wp (Turn fuel) (λ _ s', ∃ xs', keeps CI no_tmp s s' xs' ∧ none_expired s') s.
Proof.
  intros HI HC He. pose proof (Turn_events_wp _ _ _ _ HI HC He) as Hw.
  unfold wp in Hw. destruct (Turn_events s) as [[[] s1]| | |] eqn:E; try done.
  destruct Hw as (xs1 & own1 & news1 & HI1 & HC1 & Hto & Hcl & Hho).
  exists (length (late (horizon (clk s)) s1 xs1)). intros fuel Hf. unfold wp.
  rewrite Turn_split, E. 
  pose proof (env_clock _ He).
  assert (wp (expire sub_delete OnTimeout fuel) (λ _ s', ∃ xs', keeps CI no_tmp s1 s' xs' ∧ none_expired s') s1) as Hx.
  { eapply expire_ok with (hz := horizon (clk s)); (done || lia). }
  unfold wp in Hx. destruct (expire _ _ _ s1) as [[[] s2]| | |]; try done.
  destruct Hx as (xs2 & Hk & Hend). exists xs2. split; [|done].
  eapply keeps_trans; [|done]. exists own1, news1. split_and!; done.
Qed.

(** C3: a turn of [EventLoop::Loop] is safe whatever the class of handlers, as
    long as its methods keep the invariants ([LoopClient]): with enough fuel
    for the timeouts it returns - no [CHECK] fails, no freed handler is touched
    even when handlers that have pending events remove each other, no
    reference is lost - and at its end every handler whose deadline the clock
    has reached has been removed or refreshed. *)
Theorem Loop_turn_safe own news xs s :
  Inv (ext_plus no_tmp own) news xs s → CI own news s → turn_env s →
  ∃ n, ∀ fuel, n < fuel →
    wp (Turn fuel) (λ _ s', ∃ xs', keeps CI no_tmp s s' xs' ∧ none_expired s') s.
Proof. apply Loop_turn_wp. Qed.
End client.
End theorems.

(** ** A class of handlers that remove themselves

    It shows that the hypotheses of the theorems can hold. *)
Module Example.
Abbreviation St := (EventLoop.St unit unit sim_epoll (list ptr)).

Definition sub_delete (x : unit) : M unit unit := mret x.
Definition run (p : ptr) : M St unit := mret tt.
Definition OnTimeout (p : ptr) : M St unit := Remove sub_delete (Some p).
Definition OnEvent (p : ptr) (evs : Z) : M St unit := OnTimeout p.

Definition start : St :=
  mkSt ∅ (mkL ∅ list_new) (EPoll_new (mkSimEpoll ∅ [[5%Z; 4%Z]])) (mkClock 0 [3%N; 4%N]) []
    3 7 7 0 tt.

(** A loop with two handlers, with the descriptors 4 and 5. *)
Definition empty_loop : St := after (EventLoop_new (seconds 5) 7) start.
Definition created : St := alloc_handler 2 5 tt (alloc_handler 1 4 tt empty_loop).
Definition one : St := after (Add (Some 1%positive) EPOLLIN) created.
Definition two : St := after (Add (Some 2%positive) EPOLLOUT) one.

Definition CI (own : ptr → Z) (news : gset ptr) (s : St) : Prop :=
  (∀ q, own q = 0%Z) ∧ news = ∅ ∧ pending (pipe_ s) = [].

#[global] Instance client : LoopClient sub_delete OnEvent OnTimeout run CI.
Proof.
  assert (∀ tmp own news xs s p h,
    Inv (ext_plus tmp own) news xs s → CI own news s → (0 < tmp p)%Z →
    handlers s !! p = Some h → event_loop_ h = true →
    wp (OnTimeout p) (λ _ s', ∃ xs', keeps CI tmp s s' xs' ∧ pipe_ s' = pipe_ s ∧ sublist xs' xs ∧
      ∀ q, q ∈ xs' → deadline_ <$> handlers s' !! q = deadline_ <$> handlers s !! q) s) as Hstep.
  { intros tmp own news xs s p h HI (Hown & -> & Hq) Htmp Hp Hev.
    eapply Remove_wp; [done..|unfold ext_plus; rewrite Hown; lia|].
    intros s' ys HI' (Hpi & _ & _ & _ & Hto & _) Hsub Hck _ Hhs. exists ys. split_and!; [|done..|].
    - exists own, ∅. rewrite Hck. unfold CI. rewrite Hpi. split_and!; done.
    - intros q Hqy. rewrite Hhs, lookup_insert_ne; [done|]. intros <-.
      apply (Inv_unlinked _ _ _ _ p (set_ref (ref_count_ h - 1) (set_registered false h)) HI');
        [by rewrite Hhs, lookup_insert_eq|done|done]. }
  split; [split|..].
  - intros own news s s' (? & ? & ?) _ Hpi _ _ _. unfold CI. by rewrite Hpi.
  - intros own news s q (Hown & _). by rewrite Hown.
  - intros own news s q h (? & ? & ?) _ _ _ _. by split.
  - intros tmp own news xs s p h evs HI HC _ Htmp Hp Hev. eapply wp_mono; [by eapply Hstep|].
    intros [] s' (xs' & ? & ? & _). by exists xs'.
  - intros tmp own news xs s p h HI HC _ Htmp Hp Hev. eapply wp_mono; [by eapply Hstep|].
    intros [] s' (xs' & ? & ? & ? & ?). by exists xs'.
  - intros tmp own news xs s f fs q' HI (_ & _ & Hq) _ Hq'. by rewrite Hq in Hq'.
Qed.

Lemma created_ok : Inv (λ _, 0%Z) {[2%positive; 1%positive]} [] created.
Proof.
  assert (Inv (λ _, 0%Z) ∅ [] empty_loop) as HI.
  { pattern empty_loop; apply wp_after. eapply EventLoop_new_wp; [by repeat split|done..]. }
  pose proof (Inv_alloc _ _ _ _ 1 4 tt HI eq_refl) as HI1.
  pose proof (Inv_alloc _ _ _ _ 2 5 tt HI1 eq_refl) as HI2.
  eapply Inv_news_eq; [exact HI2|]. set_solver.
Qed.

Lemma two_ok : Inv (λ _, 0%Z) ∅ [1%positive; 2%positive] two.
Proof.
  assert (Inv (λ _, 0%Z) {[2%positive]} [1%positive] one) as HI.
  { pattern one; apply wp_after. eapply Add_wp; [apply created_ok|reflexivity..|].
    intros s' t HI _ _ _ _. eapply Inv_news_eq; [exact HI|]. set_solver. }
  pattern two; apply wp_after. eapply Add_wp; [exact HI|reflexivity..|].
  intros s' t HI' _ _ _ _. eapply Inv_news_eq; [exact HI'|]. set_solver.
Qed.

(** The first handler, unregistered while the loop holds a reference to it. *)
Definition removed : St :=
  after (IncRef 1%positive ;; Remove sub_delete (Some 1%positive)) two.

Definition removed_handler : EventHandler unit := mkEH 4 (seconds 5 + 3) false 1 tt.

Lemma removed_ok : Inv (ext_add 1 1 (λ _, 0%Z)) ∅ [2%positive] removed.
Proof.
  pattern removed; apply wp_after. apply wp_bind. eapply IncRef_wp; [apply two_ok|reflexivity|set_solver|].
  intros HI. eapply wp_mono.
  - apply (loop_call_wp sub_delete (CallRemove 1%positive) _ _ _ [2%positive] _ HI); reflexivity.
  - by intros [] s' (? & ? & ->).
Qed.

Lemma two_CI : CI (λ _, 0%Z) ∅ two.
Proof. by split. Qed.
End Example.

Lemma EventLoop_new_correct_witness :
  wp (EventLoop_new (seconds 5) 7)
    (λ _ s', Inv (λ _, 0%Z) ∅ [] s' ∧ timeout_ s' = seconds 5 ∧ handlers s' = ∅) Example.start.
Proof. apply (EventLoop_new_correct (seconds 5) 7 Example.start); repeat split. Defined.

Lemma loop_call_refines_witness :
  wp (run_loop_call Example.sub_delete (CallRefresh 1%positive))
    (λ _ s', ∃ news', Inv (λ _, 0%Z) news' [2%positive; 1%positive] s') Example.two.
Proof.
  apply (loop_call_refines _ _ _ _ _ _ _ Example.two_ok); [reflexivity|exact I].
Defined.

Lemma Loop_turn_safe_witness :
  ∃ n, ∀ fuel, n < fuel →
    wp (Loop_turn Example.sub_delete Example.OnEvent Example.OnTimeout Example.run (λ _ n, n) fuel)
      (λ _ s', ∃ xs', keeps Example.CI (λ _, 0%Z) Example.two s' xs' ∧ none_expired s') Example.two.
Proof.
  apply (Loop_turn_safe _ _ _ _ _ Example.CI _ _ _ _ Example.two_ok Example.two_CI).
  split; [vm_compute; lia|reflexivity| |reflexivity].
  intros s' Hs'. vm_compute in Hs'. injection Hs' as <-. vm_compute. lia.
Defined.
