(* ===== verification/Frame.v ===== *)
(** * What a run cannot change

    A relation between the states before and after a piece of program, whatever
    the piece does in between, found by following its text: [Stable R m]. For
    the event loop, [framed D RW]: handlers keep what [D] says of them, and the
    rest of the program's state changes by [RW] only, if the methods of the
    handlers do. *)

From S2P Require Import Prelude IntrusiveList Epoll EventLoop.

Class Stable {S A : Type} (R : S → S → Prop) (m : M S A) : Prop :=
  stable : ∀ s a s', m s = Done (a, s') → R s s'.

Section stable.
Context {S : Type} (R : S → S → Prop) `{!PreOrder R}.

#[export] Instance stable_ret {A} (a : A) : Stable R (mret a).
Proof. intros s a' s' [= <- <-]. reflexivity. Qed.

#[export] Instance stable_bind {A B} (m : M S A) (f : A → M S B) :
  Stable R m → (∀ a, Stable R (f a)) → Stable R (m ≫= f).
Proof.
  intros Hm Hf s b s2 Hs. unfold mbind, M_bind in Hs.
  destruct (m s) as [[a s1]| | |] eqn:E; try done.
  etransitivity; [by eapply Hm|by eapply Hf].
Qed.

#[export] Instance stable_get : Stable R get.
Proof. intros s a s' [= <- <-]. reflexivity. Qed.
#[export] Instance stable_gets {A} (f : S → A) : Stable R (gets f).
Proof. intros s a s' [= <- <-]. reflexivity. Qed.
#[export] Instance stable_deref {A} why (f : S → option A) : Stable R (deref why f).
Proof. intros s a s'. unfold deref. destruct (f s); [|done]. intros [= <- <-]. reflexivity. Qed.
#[export] Instance stable_abort {A} why : Stable R (abort (A := A) why).
Proof. done. Qed.
#[export] Instance stable_undefined {A} why : Stable R (undefined (A := A) why).
Proof. done. Qed.
#[export] Instance stable_no_fuel {A} : Stable R (no_fuel (A := A)).
Proof. done. Qed.
#[export] Instance stable_CHECK why b : Stable R (CHECK why b).
Proof. unfold CHECK. by destruct b; [apply stable_ret|]. Qed.
#[export] Instance stable_when (b : bool) m : Stable R m → Stable R (when b m).
Proof. by destruct b; [|intros _; apply stable_ret]. Qed.
#[export] Instance stable_for_each {A} (f : A → M S unit) xs :
  (∀ x, Stable R (f x)) → Stable R (for_each f xs).
Proof. intros Hf. induction xs; cbn; apply _. Qed.

Lemma stable_modify (f : S → S) : (∀ s, R s (f s)) → Stable R (modify f).
Proof. intros Hf s a s' [= <- <-]. apply Hf. Qed.

(** A call of the kernel. *)
Lemma stable_call {A} (f : S → A * S) : (∀ s, R s (f s).2) → Stable R (λ s, Done (f s)).
Proof. intros Hf s a s' [= Hs]. specialize (Hf s). by rewrite Hs in Hf. Qed.
End stable.

(** A part of the state. *)
Lemma stable_zoom {S T A} (R : S → S → Prop) (RT : T → T → Prop) π upd (m : M T A) :
  Stable RT m → (∀ s t, RT (π s) t → R s (upd t s)) → Stable R (zoom π upd m).
Proof.
  intros Hm Hup s a s' Hs. unfold zoom in Hs. destruct (m (π s)) as [[b t]| | |] eqn:E; try done.
  injection Hs as <- <-. apply Hup. by eapply Hm.
Qed.

Lemma Stable_mono {S A} (R R' : S → S → Prop) (m : M S A) :
  Stable R m → (∀ s s', R s s' → R' s s') → Stable R' m.
Proof. intros Hm HR s a s' Hs. by eapply HR, Hm. Qed.

#[export] Hint Extern 5 (Stable _ (if ?b then _ else _)) => destruct b : typeclass_instances.
#[export] Hint Extern 5 (Stable _ (match ?x with _ => _ end)) => destruct x : typeclass_instances.

Section loop.
Context {P F W K PQ : Type} `{EpollKernel K} `{Pipe PQ F}.
Abbreviation St := (EventLoop.St P W K PQ).

Definition same_place (s s' : St) : Prop :=
  pipe_fd s' = pipe_fd s ∧ loop_ s' = loop_ s ∧ this_thread s' = this_thread s ∧ timeout_ s' = timeout_ s.

(** Relations that hold when nothing changes but what the loop itself keeps:
    its list, its interest list, the clock, and the handlers' own fields. *)
Class LoopFrame (R : St → St → Prop) : Prop := {
  lf_preorder :: PreOrder R;
  lf_same : ∀ s s', same_place s s' → world s' = world s → pipe_ s' = pipe_ s →
    (∀ p h', handlers s' !! p = Some h' → ∃ h, handlers s !! p = Some h ∧ fd_ h' = fd_ h ∧ sub_ h' = sub_ h) → R s s'
}.

(** ** The operations of the loop *)
Section ops.
Context (R : St → St → Prop) `{!LoopFrame R}.

#[export] Instance handler_stable p : Stable R (handler (W := W) (K := K) (PQ := PQ) (P := P) p).
Proof. apply _. Qed.

Lemma upd_stable p f : (∀ h, fd_ (f h) = fd_ h ∧ sub_ (f h) = sub_ h) → Stable R (upd_handler p f).
Proof.
  intros Hf s [] s' Hs. unfold upd_handler, mbind, M_bind, handler, deref, modify in Hs.
  destruct (handlers s !! p) as [h|] eqn:Hp; [|done]. injection Hs as <-.
  apply lf_same; [done|done|done|]. cbn. intros q h' [[<- <-]|[_ Hq]]%lookup_insert_Some.
  - exists h. split; [done|]. apply Hf.
  - by exists h'.
Qed.

Lemma part_stable {A T} (π : St → T) upd (m : M T A) :
  (∀ t s, same_place s (upd t s) ∧ world (upd t s) = world s ∧ pipe_ (upd t s) = pipe_ s ∧ handlers (upd t s) = handlers s) →
  Stable R (zoom π upd m).
Proof.
  intros Hu. eapply (stable_zoom _ (λ _ _, True)); [done|]. intros s t _. destruct (Hu t s) as (? & ? & ? & Hh).
  apply lf_same; [done..|]. rewrite Hh. intros p h ?. by exists h.
Qed.

#[export] Instance on_list_stable {A} (m : M lstate A) : Stable R (on_list (K := K) m).
Proof. by apply part_stable. Qed.
#[export] Instance on_epoll_stable {A} (m : M (EPoll K) A) : Stable R (on_epoll m).
Proof. by apply part_stable. Qed.
#[export] Instance now_stable : Stable R (now (K := K)).
Proof. by apply part_stable. Qed.
#[export] Instance on_loop_thread_stable : Stable R (on_loop_thread (K := K)).
Proof. apply _. Qed.
#[export] Instance non_null_stable {A} why (o : option A) : Stable R (non_null why o).
Proof. unfold non_null. apply _. Qed.

#[export] Instance set_ref_stable p n : Stable R (upd_handler p (set_ref n)).
Proof. by apply upd_stable. Qed.
#[export] Instance set_registered_stable p b : Stable R (upd_handler p (set_registered b)).
Proof. by apply upd_stable. Qed.
#[export] Instance set_deadline_stable p t : Stable R (upd_handler p (set_deadline t)).
Proof. by apply upd_stable. Qed.

#[export] Instance IncRef_stable p : Stable R (IncRef p).
Proof. unfold IncRef. apply _. Qed.
#[export] Instance Add_stable arg evs : Stable R (Add arg evs).
Proof. unfold Add. apply _. Qed.
#[export] Instance Modify_stable arg evs : Stable R (Modify arg evs).
Proof. unfold Modify. apply _. Qed.
#[export] Instance Refresh_stable arg : Stable R (Refresh arg).
Proof. unfold Refresh. apply _. Qed.

Context (sub_delete : P → M W unit) `{Hdel : !∀ x, Stable R (on_world (K := K) (sub_delete x))}.

#[export] Instance delete_handler_stable p : Stable R (delete_handler sub_delete p).
Proof.
  unfold delete_handler. repeat (apply stable_bind; [apply _..|intros]). apply stable_modify. intros s.
  apply lf_same; [done|done|done|]. cbn. intros q h [_ Hq]%lookup_delete_Some. by exists h.
Qed.
#[export] Instance DecRef_stable p : Stable R (DecRef sub_delete p).
Proof. unfold DecRef. apply _. Qed.
#[export] Instance Remove_stable arg : Stable R (Remove sub_delete arg).
Proof. unfold Remove. apply _. Qed.

Context (OnEvent : ptr → Z → M St unit) (OnTimeout : ptr → M St unit) (run : F → M St unit).
Context `{Hevent : !∀ p e, Stable R (OnEvent p e)} `{Htimeout : !∀ p, Stable R (OnTimeout p)}
  `{Hpop : !Stable R (PopFunc run)}.

#[export] Instance dispatch_stable ev : Stable R (dispatch sub_delete OnEvent run ev).
Proof. unfold dispatch. apply _. Qed.
#[export] Instance hold_stable ev : Stable R (hold ev).
Proof. unfold hold. apply _. Qed.
#[export] Instance expire_stable fuel : Stable R (expire sub_delete OnTimeout fuel).
Proof. induction fuel; cbn; apply _. Qed.

Lemma Loop_turn_stable vector_capacity fuel :
  Stable R (Loop_turn sub_delete OnEvent OnTimeout run vector_capacity fuel).
Proof. unfold Loop_turn, Loop_wait. apply _. Qed.
End ops.

(** ** What handlers are, and the rest of the program *)

(** [D fd x]: what handlers are, by their descriptor and derived fields. *)
Context (D : Z → P → Prop) (RW : W → W → Prop) `{!PreOrder RW}.

Definition all_handlers (s : St) : Prop := ∀ p h, handlers s !! p = Some h → D (fd_ h) (sub_ h).
Definition framed (s s' : St) : Prop :=
  all_handlers s → all_handlers s' ∧ same_place s s' ∧ RW (world s) (world s').

#[export] Instance framed_loop_frame : LoopFrame framed.
Proof.
  split; [split; [by split|]|].
  - intros s1 s2 s3 H12 H23 Hs1. destruct (H12 Hs1) as (Hs2 & (?&?&?&?) & ?).
    destruct (H23 Hs2) as (? & (?&?&?&?) & ?). split; [done|]. split; [split_and!; congruence|by etransitivity].
  - intros s s' Hp Hw _ Hh Hall. rewrite Hw. split; [|by split].
    intros p h' (h & Hph & -> & ->)%Hh. by eapply Hall.
Qed.

#[export] Instance framed_on_world {A} (m : M W A) : Stable RW m → Stable framed (on_world (K := K) m).
Proof. intros Hm. eapply (stable_zoom _ RW); [done|]. intros s w Hw. by repeat split. Qed.

(** A handler that is there has what [D] says. *)
Lemma framed_with_handler {A} p (m : EventHandler P → M St A) :
  (∀ h, D (fd_ h) (sub_ h) → Stable framed (m h)) → Stable framed (h ← handler p; m h).
Proof.
  intros Hm s a s' Hs Hall. unfold mbind, M_bind, handler, deref in Hs.
  destruct (handlers s !! p) as [h|] eqn:Hp; [|done]. eapply Hm; [|done..]. by eapply Hall.
Qed.

(** A method of the derived class. *)
Lemma framed_on_sub {A} p (m : M (P * W) A) (R : P * W → P * W → Prop) :
  Stable R m →
  (∀ fd x w x' w', D fd x → R (x, w) (x', w') → D fd x' ∧ RW w w') → Stable framed (on_sub p m).
Proof.
  intros Hm HR s a s' Hs. unfold on_sub in Hs. destruct (handlers s !! p) as [h|] eqn:Hp; [|done].
  unfold zoom in Hs. destruct (m _) as [[b [x w]]| | |] eqn:E; try done. injection Hs as <- <-.
  intros Hall. destruct (HR (fd_ h) (sub_ h) (world s) x w); [by eapply Hall|by eapply Hm|].
  split; [|by split]. intros q h' Hq. cbn in Hq.
  apply lookup_insert_Some in Hq as [[<- <-]|[_ Hq]]; [done|by eapply Hall].
Qed.

(** A new handler. *)
Lemma framed_new_handler p fd x : D fd x → Stable framed (new_handler p fd x).
Proof.
  intros HD. unfold new_handler. apply stable_bind; [apply _|apply _|]. intros _. apply stable_modify. intros s.
  intros Hall. split; [|by split]. intros q h Hq. cbn in Hq. apply lookup_insert_Some in Hq as [[<- <-]|[_ Hq]]; [done|by eapply Hall].
Qed.

#[export] Instance framed_PopFunc (run : F → M St unit) : (∀ f, Stable framed (run f)) → Stable framed (PopFunc run).
Proof.
  intros Hrun. unfold PopFunc. apply stable_bind; [apply _| |apply _].
  intros s a s'. destruct (pipe_read _) as [f q]. intros [= <- <-]. by split.
Qed.
End loop.

(** ** More fuel

    A turn that returns does the same with more fuel. *)
Definition more {S A} (m m' : M S A) : Prop := ∀ s x, m s = Done x → m' s = Done x.

Lemma more_refl {S A} (m : M S A) : more m m.
Proof. by intros s x. Qed.
Lemma more_bind {S A B} (m : M S A) (f f' : A → M S B) : (∀ a, more (f a) (f' a)) → more (m ≫= f) (m ≫= f').
Proof. intros Hf s x. unfold mbind, M_bind. destruct (m s) as [[a s']| | |]; [|done..]. apply Hf. Qed.

Section fuel.
Context {P F W K PQ : Type} `{EpollKernel K} `{Pipe PQ F}.
Abbreviation St := (EventLoop.St P W K PQ).
Context (sub_delete : P → M W unit) (OnEvent : ptr → Z → M St unit) (OnTimeout : ptr → M St unit) (run : F → M St unit).

Lemma expire_more fuel fuel' : fuel ≤ fuel' → more (expire sub_delete OnTimeout fuel) (expire sub_delete OnTimeout fuel').
Proof.
  revert fuel'. induction fuel as [|fuel IH]; intros fuel' Hf; [done|]. destruct fuel' as [|fuel']; [lia|].
  specialize (IH fuel' ltac:(lia)). cbn [expire].
  apply more_bind. intros [p|]; [|apply more_refl]. apply more_bind. intros h. apply more_bind. intros t.
  case_match; [apply more_refl|]. repeat (apply more_bind; intros). exact IH.
Qed.

Lemma Loop_turn_more vector_capacity fuel fuel' : fuel ≤ fuel' →
  more (Loop_turn sub_delete OnEvent OnTimeout run vector_capacity fuel)
       (Loop_turn sub_delete OnEvent OnTimeout run vector_capacity fuel').
Proof. intros Hf. unfold Loop_turn. repeat (apply more_bind; intros). by apply expire_more. Qed.

(** A turn that returns, given enough fuel. *)
Definition turns {S} (turn : nat → M S unit) (s s' : S) : Prop := ∃ n, ∀ fuel, n < fuel → turn fuel s = Done (tt, s').

Lemma Loop_turns vector_capacity s (Q : St → Prop) :
  let turn := Loop_turn sub_delete OnEvent OnTimeout run vector_capacity in
  (∃ n, ∀ fuel, n < fuel → ∃ s', turn fuel s = Done (tt, s') ∧ Q s') → ∃ s', turns turn s s' ∧ Q s'.
Proof.
  intros turn [n Hn]. destruct (Hn (Datatypes.S n)) as (s' & Hs' & HQ); [lia|]. exists s'. split; [|done].
  exists n. intros fuel Hf. by apply (Loop_turn_more _ (Datatypes.S n)).
Qed.
End fuel.

(** ** More than a class of handlers needs for its own methods *)
Section also.
Context {P F W K PQ : Type} `{EpollLaws K} `{PipeLaws PQ F}.
Abbreviation St := (EventLoop.St P W K PQ).
Context (sub_delete : P → M W unit) (OnEvent : ptr → Z → M St unit) (OnTimeout : ptr → M St unit) (run : F → M St unit).
Context (CI : (ptr → Z) → gset ptr → St → Prop) `{!LoopClient sub_delete OnEvent OnTimeout run CI} (J : St → Prop).

(** The methods keep [J] when they return; that they do is [CI]'s. *)
Lemma LoopClient_also :
  (∀ s s', pipe_ s' = pipe_ s → world s' = world s →
     (∀ q h', handlers s' !! q = Some h' → ∃ h, handlers s !! q = Some h ∧ same_object h h') → J s → J s') →
  (∀ s q h w, handlers s !! q = Some h → sub_delete (sub_ h) (world s) = Done (tt, w) → J s →
     J (set_world w (drop_handler q s))) →
  (∀ tmp own news xs s p h evs s', Inv (ext_plus tmp own) news xs s → CI own news s → (0 < tmp p)%Z →
     handlers s !! p = Some h → event_loop_ h = true → OnEvent p evs s = Done (tt, s') → J s → J s') →
  (∀ tmp own news xs s p h s', Inv (ext_plus tmp own) news xs s → CI own news s → (0 < tmp p)%Z →
     handlers s !! p = Some h → event_loop_ h = true → OnTimeout p s = Done (tt, s') → J s → J s') →
  (∀ s f fs q' s', pending (pipe_ s) = f :: fs → pending q' = fs → run f (set_pipe q' s) = Done (tt, s') → pipe_ s' = q' →
     J s → J s') →
  LoopClient sub_delete OnEvent OnTimeout run (λ own news s, CI own news s ∧ J s).
Proof.
  intros Hsame Hdel Hev Hto Hrun.
  assert (∀ {T A} (m : M T A) s (Q : A → T → Prop), wp m Q s → wp m (λ a s', Q a s' ∧ m s = Done (a, s')) s) as Hst.
  { intros T A m s Q. unfold wp. by destruct (m s) as [[a s']| | |]. }
  assert (∀ tmp s s' xs', keeps CI tmp s s' xs' → J s' → keeps (λ own news s, CI own news s ∧ J s) tmp s s' xs') as Hk.
  { intros tmp s s' xs' (own' & news' & ? & ? & ?) ?. exists own', news'. split; [done|]. by split. }
  split; [split|..].
  - intros own news s s' [Hs HJs] Hw Hpi Hpf Hf Hg. split; [by eapply (client_frame sub_delete)|]. by eapply Hsame.
  - intros own news s q [Hs _]. by eapply (client_own sub_delete).
  - intros own news s q h [Hs HJs] Hq He Ho Hn. eapply wp_mono; [apply Hst; exact (client_delete sub_delete _ _ _ _ _ Hs Hq He Ho Hn)|].
    intros [] w [Hw Hd]. split; [done|]. by eapply Hdel.
  - intros tmp own news xs s p h evs HI [Hs HJs] Htmp Htp Hp He. eapply wp_mono; [apply Hst; by eapply client_event|].
    intros [] s' [(xs' & ? & ?) Hd]. exists xs'. split; [|done]. apply Hk; [done|]. by eapply Hev.
  - intros tmp own news xs s p h HI [Hs HJs] Htmp Htp Hp He. eapply wp_mono; [apply Hst; by eapply client_timeout|].
    intros [] s' [(xs' & ? & ?) Hd]. exists xs'. split; [|done]. apply Hk; [done|]. by eapply Hto.
  - intros tmp own news xs s f fs q' HI [Hs HJs] Htmp Hq Hq'. eapply wp_mono; [apply Hst; by eapply client_run|].
    intros [] s' [(xs' & ? & ?) Hd]. exists xs'. split; [|done]. apply Hk; [done|]. by eapply Hrun.
Qed.

(** [J] is kept by a relation that the methods stay in. *)
Lemma LoopClient_and (R : St → St → Prop) :
  (∀ s s', pipe_ s' = pipe_ s → (∀ q h', handlers s' !! q = Some h' → ∃ h, handlers s !! q = Some h ∧ same_object h h') →
     R s s') →
  (∀ s s', R s s' → J s → J s') →
  (∀ p e, Stable R (OnEvent p e)) → (∀ p, Stable R (OnTimeout p)) →
  (∀ s f fs q' s', pending (pipe_ s) = f :: fs → pending q' = fs → run f (set_pipe q' s) = Done (tt, s') → pipe_ s' = q' →
     J s → J s') →
  LoopClient sub_delete OnEvent OnTimeout run (λ own news s, CI own news s ∧ J s).
Proof.
  intros Hsame HJ Hev Hto Hrun. apply LoopClient_also; [| | | |exact Hrun].
  - intros s s' ???. apply HJ. by apply Hsame.
  - intros s q h w Hq _. apply HJ, Hsame; [done|]. cbn. intros r h' [_ Hr]%lookup_delete_Some. by exists h'.
  - intros tmp own news xs s p h evs s' _ _ _ _ _ Hs. apply HJ. by eapply Hev.
  - intros tmp own news xs s p h s' _ _ _ _ _ Hs. apply HJ. by eapply Hto.
Qed.
End also.
