(* ===== verification/Deadlines.v ===== *)
(** * How late a timeout is (event_loop.cc, [EventLoop::Loop])

    A turn begins with a wait of up to the loop's whole timeout, whatever the
    time to the first deadline, and looks at the deadlines at its end. Over
    any number of turns, a deadline is therefore met late by less than one
    timeout more; and it can be that late. *)

From S2P Require Import Prelude IntrusiveList Epoll EventLoop LoopTheorems Frame.

(** What [epoll_wait] counts in. *)
Definition millisecond : Duration := 1000000.

Section deadlines.
Context {P F W K PQ : Type} `{EpollLaws K} `{!WaitLog K} `{PipeLaws PQ F}.
Abbreviation St := (EventLoop.St P W K PQ).
Context (sub_delete : P → M W unit) (OnEvent : ptr → Z → M St unit) (OnTimeout : ptr → M St unit)
  (run : F → M St unit) (vector_capacity : nat → nat → nat).
Context (CI : (ptr → Z) → gset ptr → St → Prop) `{!LoopClient sub_delete OnEvent OnTimeout run CI}.

Abbreviation Turn := (Loop_turn sub_delete OnEvent OnTimeout run vector_capacity).

(** The loop's invariant and that of its handlers, between turns. *)
Definition well_formed (s : St) : Prop := ∃ own news xs, Inv (ext_plus (λ _, 0%Z) own) news xs s ∧ CI own news s.

(** The handler [q] is registered, with the deadline [d]. *)
Definition awaits (s : St) (q : ptr) (d : Time) : Prop :=
  ∃ h, handlers s !! q = Some h ∧ event_loop_ h = true ∧ deadline_ h = d.

(** The time that a wait takes is bounded by what [epoll_wait] was asked for, in
    milliseconds, when that is not negative. *)
Definition wait_bound (slack : Duration) (ms : Z) (from until : Time) : Prop :=
  (0 ≤ ms → until ≤ from + ms * millisecond + slack)%Z.

(** [s1] is [s] with what happens while the loop, at the beginning of its turn,
    is in [epoll_wait]. Time passes: as much as the call of [Loop_wait] asks
    [epoll_wait] for, or less, or [slack] more if the kernel is late. Other
    threads may write to the pipe and make handlers that are not registered. *)
Record waits (slack : Duration) (s s1 : St) : Prop := {
  wt_formed : well_formed s1;
  wt_timeout : timeout_ s1 = timeout_ s;
  wt_clock : (time (clk s) ≤ time (clk s1))%Z ∧ ∀ s2, Loop_wait vector_capacity s1 = Done (tt, s2) →
    wait_bound slack (waited (kernel (ep s2))) (time (clk s)) (time (clk s1));
  wt_handlers : ∀ q d, awaits s1 q d → awaits s q d
}.

(** What [Loop_wait] passes to [epoll_wait]. *)
Lemma Loop_wait_returns (s : St) :
  well_formed s → turn_env vector_capacity s →
  ∃ s2, Loop_wait vector_capacity s = Done (tt, s2) ∧ waited (kernel (ep s2)) = wait_ms (Some (timeout_ s)).
Proof.
  intros (own & news & xs & HI & _) [Hroom Hint _ _].
  destruct (inv_pipe _ _ _ _ HI) as (evp & Hevp & _).
  pose proof (interest_pos _ (pipe_fd s) (inv_epoll _ _ _ _ HI) ltac:(by eexists)) as Hpos.
  assert (wp (Loop_wait vector_capacity) (λ _ s2, waited (kernel (ep s2)) = wait_ms (Some (timeout_ s))) s) as Hw.
  { apply wp_bind, wp_gets, wp_zoom. eapply wp_mono; [apply wp_run|].
    - eapply (EPoll_Wait_wp vector_capacity) with (Q := λ _ _, True); [by apply HI|lia|done..].
    - intros [] e [He _]. exact (EPoll_Wait_waited vector_capacity _ _ _ He). }
  apply wp_Done in Hw as ([] & s2 & Hs2 & Hw). by exists s2.
Qed.

Inductive round (slack : Duration) (s s' : St) : Prop :=
  | round_turn s1 : waits slack s s1 → turn_env vector_capacity s1 → turns Turn s1 s' → round slack s s'.

Lemma turns_unique (s s1 s2 : St) : turns Turn s s1 → turns Turn s s2 → s1 = s2.
Proof. intros [n1 Hs1] [n2 Hs2]. specialize (Hs1 (S (n1 + n2)) ltac:(lia)). rewrite Hs2 in Hs1 by lia. congruence. Qed.

Lemma turn_returns (s : St) :
  well_formed s → turn_env vector_capacity s →
  ∃ s', turns Turn s s' ∧ well_formed s' ∧ none_expired s' ∧ timeout_ s' = timeout_ s.
Proof.
  intros (own & news & xs & HI & HC) He.
  destruct (Loop_turn_wp sub_delete OnEvent OnTimeout run vector_capacity CI own news xs s HI HC He) as [n Hn].
  apply Loop_turns. exists n. intros fuel Hf. destruct (wp_Done _ _ _ (Hn fuel Hf)) as ([] & s' & Hs' & xs' & Hk & Hend).
  destruct Hk as (own' & news' & HI' & HC' & Hto & _). exists s'. split; [done|]. split; [|done]. by exists own', news', xs'.
Qed.

Lemma round_formed slack s s' : round slack s s' → well_formed s' ∧ none_expired s' ∧ timeout_ s' = timeout_ s.
Proof.
  intros [s1 Hw He Ht]. destruct (turn_returns s1 (wt_formed _ _ _ Hw) He) as (s2 & Ht2 & Hf & Hn & Hto).
  rewrite (turns_unique _ _ _ Ht Ht2). split_and!; [done..|]. rewrite Hto. apply (wt_timeout _ _ _ Hw).
Qed.

(** C21: no handler stays registered long after its deadline. After any number of
    turns of the event loop, whatever the class of handlers: if [epoll_wait]
    takes no longer than the turn asks it to, and the slack of the kernel, then
    when it returns a registered handler is past its deadline by less than the
    loop's timeout, a millisecond (that the wait is rounded up by) and the
    slack; and the turn returns, and at its end no registered handler is past
    its deadline. *)
Theorem timeouts_come slack (s0 s s1 : St) :
  (0 < timeout_ s0 ≤ (2 ^ 31 - 1) * millisecond)%Z → none_expired s0 →
  rtc (round slack) s0 s → waits slack s s1 → turn_env vector_capacity s1 →
  (∀ q d, awaits s1 q d → (time (clk s1) < d + timeout_ s0 + millisecond + slack)%Z) ∧
  ∃ s', turns Turn s1 s' ∧ well_formed s' ∧ ∀ q d, awaits s' q d → (time (clk s') < d)%Z.
Proof.
  intros Hpos Hn0 Hr Hw He.
  assert (none_expired s ∧ timeout_ s = timeout_ s0) as [Hn Hto].
  { apply (rtc_invariant (round slack) (λ s, none_expired s ∧ timeout_ s = timeout_ s0) s0 s Hr); [done|].
    intros a b [_ <-] (_ & ? & ?)%round_formed. done. }
  split.
  - intros q d (h & Hq & Hev & Hd)%(wt_handlers _ _ _ Hw). specialize (Hn q h Hq Hev).
    destruct (Loop_wait_returns s1 (wt_formed _ _ _ Hw) He) as (s2 & Hs2 & Hms2).
    pose proof (wt_clock _ _ _ Hw) as [_ Hc]. specialize (Hc s2 Hs2). unfold wait_bound in Hc.
    rewrite Hms2, (wt_timeout _ _ _ Hw) in Hc. pose proof (wait_ms_rounds_up (timeout_ s0) Hpos) as (Hms0 & [_ Hms] & _).
    rewrite Hto in Hc. specialize (Hc ltac:(lia)). unfold millisecond in *. lia.
  - destruct (turn_returns s1 (wt_formed _ _ _ Hw) He) as (s' & Ht & Hf & Hend & _). exists s'. split_and!; [done..|].
    intros q d (h & Hq & Hev & <-). by eapply Hend.
Qed.
End deadlines.

(** ** An example: two handlers, whose deadlines pass during a wait *)
Module DeadlineExample.
Import LoopTheorems.Example.
Local Open Scope Z_scope.

(** The first deadline is at 5 s and 3 ns, the second at 5 s and 7 ns; the last
    turn has ended a nanosecond before the first. *)
Definition before : St := set_clk (mkClock (seconds 5 + 2) []) two.
Definition after_wait : St := set_clk (mkClock (seconds 10 + 2) []) two.

Lemma moved_ok c : (time (clk two) ≤ time c) → well_formed CI (set_clk c two).
Proof.
  intros Hc. exists (λ _, 0), ∅, [1%positive; 2%positive]. split; [|exact two_CI]. apply Inv_clk; [exact two_ok|done].
Qed.

Lemma before_waits : waits (λ _ n, n) CI 0 before after_wait.
Proof.
  split; [by apply moved_ok|done|split; [by vm_compute|]|done].
  intros s2 Hs2. assert (after (Loop_wait (λ _ n, n)) after_wait = s2) as <- by (unfold after; by rewrite Hs2).
  by vm_compute.
Qed.

Lemma before_none : none_expired before.
Proof.
  intros q h Hq Hev. assert (map_Forall (λ _ h, time (clk before) < deadline_ h) (handlers before)) as Hall.
  { apply (bool_decide_unpack _). by vm_compute. }
  by eapply Hall.
Qed.
End DeadlineExample.

(** The first handler is past its deadline by the whole timeout but a
    nanosecond, though [epoll_wait] returned at the time it was asked to:
    nothing in the loop shortens the wait for it. *)
Lemma expired_handler_waits :
  none_expired DeadlineExample.before ∧ waits (λ _ n, n) Example.CI 0 DeadlineExample.before DeadlineExample.after_wait ∧
  ∃ d, awaits DeadlineExample.after_wait 1 d ∧
    time (clk DeadlineExample.after_wait) = (d + timeout_ DeadlineExample.before - 1)%Z.
Proof.
  split; [exact DeadlineExample.before_none|]. split; [exact DeadlineExample.before_waits|].
  exists (seconds 5 + 3)%Z. split; [|by vm_compute]. eexists. split; [by vm_compute|]. by split.
Qed.

Lemma timeouts_come_witness :
  (∀ q d, awaits DeadlineExample.after_wait q d → (seconds 10 + 2 < d + seconds 5 + millisecond + 0)%Z) ∧
  awaits DeadlineExample.after_wait 1 (seconds 5 + 3)%Z.
Proof.
  split; [|eexists; split; [by vm_compute|by split]].
  apply (timeouts_come Example.sub_delete Example.OnEvent Example.OnTimeout Example.run (λ _ n, n) Example.CI 0
    DeadlineExample.before DeadlineExample.before DeadlineExample.after_wait); [by vm_compute|exact DeadlineExample.before_none|
    apply rtc_refl|exact DeadlineExample.before_waits|].
  split; [vm_compute; lia|reflexivity| |reflexivity].
  intros s' Hs'. vm_compute in Hs'. injection Hs' as <-. vm_compute. lia.
Defined.
