(* ===== verification/OneShot.v ===== *)
(** * Handlers that finish once

    [ParseEventHandler] and [ConnectEventHandler] have the same life: they are
    created outside the loop, added by a function that goes through the pipe
    (or runs at once), and finish by removing themselves and calling their
    callback. This file gives that life its invariant and proves, once for
    both, that it satisfies the loop's interface [LoopClient], and what follows
    for the runs of a program that uses such a class. *)

From S2P Require Import Prelude IntrusiveList Epoll EventLoop LoopTheorems.

Section one_shot.
Context {P W K PQ : Type} `{EpollLaws K} `{PipeLaws PQ ptr}.

(** The derived fields of a handler: [key] identifies its callback, [PI] is the
    class's own invariant of a handler, its descriptor and the world.
    [finished] lists the callbacks that have been called. *)
Context (key : P → nat) (finished : W → list nat).

(** The function that goes through the pipe: [event_loop_.Add(eh, EVENTS)]. *)
Definition add_later (evs : Z) (p : ptr) : M (St P W K PQ) unit := Add (Some p) evs.

(** A handler that has been created and has not finished. *)
Definition live (s : St P W K PQ) (news : gset ptr) (p : ptr) (h : EventHandler P) : Prop :=
  handlers s !! p = Some h ∧ (event_loop_ h = true ∨ p ∈ news).

(** The invariant; [ks] are callbacks that have been handed over. *)
Record OneShot_inv (PI : Z → P → W → Prop) (ks : list nat) (own : ptr → Z) (news : gset ptr) (s : St P W K PQ) : Prop := {
  os_own : ∀ q, own q = 0%Z;
  os_fd : ∀ p q hp hq, live s news p hp → live s news q hq → fd_ hp = fd_ hq → p = q;
  os_key : ∀ p q hp hq, live s news p hp → live s news q hq →
    key (sub_ hp) = key (sub_ hq) → p = q;
  os_fresh : ∀ p h, p ∈ news → handlers s !! p = Some h → fd_ h ≠ pipe_fd s;
  os_pending : NoDup (pending (pipe_ s)) ∧ ∀ p, p ∈ pending (pipe_ s) ↔ p ∈ news;
  os_live : ∀ p h, live s news p h → key (sub_ h) ∉ finished (world s) ∧ PI (fd_ h) (sub_ h) (world s);
  os_once : NoDup (finished (world s));
  os_accounted : ∀ k, k ∈ ks ↔
    k ∈ finished (world s) ∨ ∃ p h, live s news p h ∧ key (sub_ h) = k
}.

Context (PI : Z → P → W → Prop).
Abbreviation OneShot := (OneShot_inv PI).

Lemma live_frame s s' news p h' :
  (∀ q h', handlers s' !! q = Some h' → ∃ h, handlers s !! q = Some h ∧ same_object h h') →
  live s' news p h' → ∃ h, live s news p h ∧ same_object h h'.
Proof.
  intros Hf [Hp Hl]. destruct (Hf p h' Hp) as (h & Hh & Hsame). exists h. split; [|done].
  split; [done|]. destruct Hsame as (_ & <- & _). done.
Qed.

Lemma OneShot_frame ks own news s s' :
  OneShot ks own news s → finished (world s') = finished (world s) →
  (∀ p h, live s news p h → PI (fd_ h) (sub_ h) (world s) → PI (fd_ h) (sub_ h) (world s')) →
  pipe_ s' = pipe_ s → pipe_fd s' = pipe_fd s →
  (∀ q h', handlers s' !! q = Some h' → ∃ h, handlers s !! q = Some h ∧ same_object h h') →
  (∀ q h, handlers s !! q = Some h → handlers s' !! q = None →
     event_loop_ h = false ∧ q ∉ news) →
  OneShot ks own news s'.
Proof.
  intros [Hown Hfd Hkey Hfresh Hpend Hlive Honce Hacc] Hw HPI Hpi Hpf Hf Hgone.
  assert (Hlf := λ p h', live_frame s s' news p h' Hf).
  split; rewrite ?Hw, ?Hpi, ?Hpf; try done.
  - intros p q hp hq (hp' & Hp & Hfp & _ & _)%Hlf (hq' & Hq & Hfq & _ & _)%Hlf Heq.
    eapply Hfd; [done..|congruence].
  - intros p q hp hq (hp' & Hp & _ & _ & Hsp)%Hlf (hq' & Hq & _ & _ & Hsq)%Hlf Heq.
    eapply Hkey; [done..|congruence].
  - intros p h Hp (h' & Hh & -> & _)%Hf. by eapply Hfresh.
  - intros p h (h' & Hp & -> & _ & ->)%Hlf. destruct (Hlive _ _ Hp). split; [done|]. by eapply HPI.
  - intros k. rewrite Hacc. split.
    2: { intros [Hk|(p & h & (h' & Hp & _ & _ & Hs)%Hlf & Hk)]; [by left|right].
         exists p, h'. by rewrite <- Hs. }
    intros [Hk|(p & h & [Hp Hl] & Hk)]; [by left|right].
    destruct (handlers s' !! p) as [h'|] eqn:Hp'.
    + destruct (Hf p h' Hp') as (h2 & Hh2 & _ & He & Hs). rewrite Hp in Hh2. simplify_eq.
      exists p, h'. unfold live. split; [|congruence]. split; [done|]. by rewrite He.
    + destruct (Hgone p h Hp Hp') as [He Hn]. destruct Hl; congruence.
Qed.

Lemma OneShot_weaken (PI' : Z → P → W → Prop) ks own news s :
  OneShot ks own news s → (∀ fd x, PI fd x (world s) → PI' fd x (world s)) →
  OneShot_inv PI' ks own news s.
Proof.
  intros HC HPI. split; try apply HC. intros p h Hl.
  destruct (os_live _ _ _ _ _ HC p h Hl). auto.
Qed.

Abbreviation no_refs := (λ _ : ptr, 0%Z).

Definition os_ok (x : list nat * gset ptr * St P W K PQ) : Prop :=
  ∃ xs, Inv no_refs x.1.2 xs x.2 ∧ OneShot x.1.1 no_refs x.1.2 x.2.

(** Every request's callback has been called once, or its handler lives and the
    callback has not been called; nothing else is called. *)
Lemma os_ok_once ks news s :
  os_ok (ks, news, s) → NoDup (finished (world s)) ∧
  ∀ k, k ∈ ks ↔ k ∈ finished (world s) ∨
    (k ∉ finished (world s) ∧ ∃ p h, live s news p h ∧ key (sub_ h) = k).
Proof.
  intros (xs & HI & HC). cbn in *. split; [apply HC|].
  intros k. rewrite (os_accounted _ _ _ _ _ HC). split; [|naive_solver].
  intros [Hk|(p & h & Hl & <-)]; [by left|right]. split; [by eapply os_live|]. by exists p, h.
Qed.

(** The loop as it is constructed. *)
Lemma os_init s :
  Inv no_refs ∅ [] s → handlers s = ∅ → pending (pipe_ s) = [] → finished (world s) = [] →
  os_ok ([], ∅, s).
Proof.
  intros HI Hhs Hp Hf. exists []. split; [done|]. cbn.
  assert (∀ p h, ¬ live s ∅ p h) as Hno.
  { intros p h [Hh _]. by rewrite Hhs in Hh. }
  split; cbn; rewrite ?Hp, ?Hf; try done.
  - by intros ???? ?%Hno.
  - by intros ???? ?%Hno.
  - split; [constructor|]. intros p. set_solver.
  - by intros ?? ?%Hno.
  - constructor.
  - intros k. split; [by intros ?%not_elem_of_nil|].
    intros [?%not_elem_of_nil|(? & ? & []%Hno & _)]. done.
Qed.

(** Methods that do not finish. *)
Lemma OneShot_sub ks own news s p h x w :
  OneShot ks own news s → live s news p h →
  key x = key (sub_ h) → PI (fd_ h) x w → finished w = finished (world s) →
  (∀ fd y, fd ≠ fd_ h → PI fd y (world s) → PI fd y w) →
  OneShot ks own news (set_world w (put_handler p (set_sub x h) s)).
Proof.
  intros [Hown Hfd Hkey Hfresh Hpend Hlive Honce Hacc] Hlp Hkx HPI Hw Hother.
  pose proof (proj1 Hlp) as Hp.
  assert (∀ q hq, live (set_world w (put_handler p (set_sub x h) s)) news q hq →
    ∃ hq', live s news q hq' ∧ fd_ hq = fd_ hq' ∧ key (sub_ hq) = key (sub_ hq') ∧
      (PI (fd_ hq') (sub_ hq') (world s) → PI (fd_ hq) (sub_ hq) w)) as Hlf.
  { intros q hq [Hq Hl]. cbn in Hq.
    apply lookup_insert_Some in Hq as [[<- <-]|[Hne Hq]]; [by exists h|].
    exists hq. split; [done|]. split_and!; [done..|]. apply Hother. intros Heq.
    apply Hne. by eapply Hfd. }
  split; cbn; rewrite ?Hw; try done.
  - intros q1 q2 h1 h2 (?&?&?&_)%Hlf (?&?&?&_)%Hlf ?. eapply Hfd; [done..|congruence].
  - intros q1 q2 h1 h2 (?&?&_&?&_)%Hlf (?&?&_&?&_)%Hlf ?. eapply Hkey; [done..|congruence].
  - intros q hq Hq [[<- <-]|[? Hhq]]%lookup_insert_Some; [by eapply (Hfresh p h)|by eapply Hfresh].
  - intros q hq (h' & Hl & _ & -> & Hi)%Hlf. destruct (Hlive _ _ Hl). auto.
  - intros k. rewrite Hacc. split.
    2: { intros [Hk|(q & hq & (h' & Hq & _ & Hs & _)%Hlf & Hk)]; [by left|right].
         exists q, h'. by rewrite <- Hs. }
    intros [Hk|(q & hq & [Hq Hl] & Hk)]; [by left|right].
    destruct (decide (p = q)) as [<-|Hne].
    + exists p, (set_sub x h). unfold live; cbn. rewrite lookup_insert_eq.
      rewrite Hp in Hq. simplify_eq. by rewrite Hkx.
    + exists q, hq. unfold live; cbn. by rewrite lookup_insert_ne.
Qed.

(** ** Creation, from another thread *)

(** The address is free; no handler that lives has this descriptor or this
    callback. *)
Record fresh_request (p : ptr) (fd : Z) (x : P) (news : gset ptr) (s : St P W K PQ) : Prop := {
  fr_ptr : handlers s !! p = None;
  fr_fd : (0 ≤ fd)%Z ∧ fd ≠ pipe_fd s ∧ ∀ q h, live s news q h → fd_ h ≠ fd;
  fr_key : key x ∉ finished (world s) ∧ ∀ q h, live s news q h → key (sub_ h) ≠ key x;
  fr_PI : PI fd x (world s)
}.

Definition create (evs : Z) (p : ptr) (fd : Z) (x : P) : M (St P W K PQ) unit :=
  new_handler p fd x ;; ScheduleOrRun (add_later evs) p.

Lemma OneShot_create ks own news s p fd x q' :
  OneShot ks own news s → fresh_request p fd x news s → p ∉ news →
  pending q' = pending (pipe_ s) ++ [p] →
  OneShot (key x :: ks) own ({[p]} ∪ news) (set_pipe q' (alloc_handler p fd x s)).
Proof.
  intros [Hown Hfd Hkey Hfresh [Hnd Hpend] Hlive Honce Hacc] [Hp (Hpos & Hpf & Hfds) [Hk Hks] HPI] Hn Hq'.
  set (s' := set_pipe _ _).
  assert (∀ q hq, live s' ({[p]} ∪ news) q hq →
    (q = p ∧ hq = mkEH fd 0 false 0 x) ∨ (q ≠ p ∧ live s news q hq)) as Hlf.
  { intros q hq [Hq Hl]. cbn in Hq. apply lookup_insert_Some in Hq as [[<- <-]|[Hne Hq]]; [by left|].
    right. split; [done|]. split; [done|]. set_solver. }
  split; cbn; rewrite ?Hq'; try done.
  - intros p1 p2 h1 h2 [[-> ->]|[? H1']]%Hlf [[-> ->]|[? H2']]%Hlf Heq; cbn in *;
      [done|by destruct (Hfds _ _ H2')|by destruct (Hfds _ _ H1')|by eapply Hfd].
  - intros p1 p2 h1 h2 [[-> ->]|[? H1']]%Hlf [[-> ->]|[? H2']]%Hlf Heq; cbn in *;
      [done|by destruct (Hks _ _ H2')|by destruct (Hks _ _ H1')|by eapply Hkey].
  - intros q hq Hq [[<- <-]|[Hne Hhq]]%lookup_insert_Some; [done|]. eapply Hfresh; [|done]. set_solver.
  - split.
    + apply NoDup_app. split_and!; [done| |apply NoDup_singleton].
      intros q Hq%Hpend ->%list_elem_of_singleton. done.
    + intros q. rewrite elem_of_app, list_elem_of_singleton, Hpend. set_solver.
  - intros q hq [[-> ->]|[? Hl]]%Hlf; [done|]. by eapply Hlive.
  - intros k. rewrite elem_of_cons, Hacc. split.
    + intros [->|[?|(q & hq & [Hq Hl] & <-)]]; [right|by left|right].
      * exists p, (mkEH fd 0 false 0 x). split; [|done]. split; cbn;
          [apply lookup_insert_eq|right; set_solver].
      * exists q, hq. split; [|done]. split; cbn; [|set_solver].
        rewrite lookup_insert_ne; [done|]. intros <-. congruence.
    + intros [?|(q & hq & [[-> ->]|[? Hl]]%Hlf & <-)]; [by right; left|by left|].
      right; right. by exists q, hq.
Qed.

Lemma as_thread_back t (s : St P W K PQ) : this_thread s = loop_ s → as_thread (loop_ s) (as_thread t s) = s.
Proof. intros <-. by destruct s. Qed.

Lemma create_wp ks own news xs s t evs p fd x Q :
  Inv own news xs s → OneShot ks own news s → fresh_request p fd x news s → t ≠ loop_ s →
  (∀ q', pending q' = pending (pipe_ s) ++ [p] →
     let s' := set_pipe q' (alloc_handler p fd x s) in
     Inv own ({[p]} ∪ news) xs s' → OneShot (key x :: ks) own ({[p]} ∪ news) s' →
     Q tt (as_thread t s')) →
  wp (create evs p fd x) Q (as_thread t s).
Proof.
  intros HI HC Hf Ht HQ. pose proof Hf as [Hp (Hpos & Hpf & _) _ _].
  unfold create, new_handler, ScheduleOrRun, Schedule.
  apply wp_bind, wp_bind, wp_CHECK; [by apply Z.leb_le|]. apply wp_modify, wp_bind, wp_on_loop_thread.
  cbn [this_thread loop_ as_thread alloc_handler put_handler set_handlers set_lst].
  rewrite (proj2 (Z.eqb_neq _ _)) by done. apply wp_bind, wp_on_loop_thread.
  cbn [this_thread loop_ as_thread alloc_handler put_handler set_handlers set_lst].
  rewrite (proj2 (Z.eqb_neq _ _)) by done. apply wp_bind, wp_CHECK; [done|]. apply wp_bind.
  destruct (pipe_write_ok p (pipe_ s)) as (q' & Hw & Hq'). unfold wp at 1. cbn. rewrite Hw.
  apply wp_CHECK; [done|]. apply (HQ q' Hq').
  - apply Inv_pipe. by apply Inv_alloc.
  - apply OneShot_create; try done. intros (h & ? & _)%(inv_news _ _ _ _ HI). congruence.
Qed.

(** [Finish] of both classes: [loop->Remove(this)], then the callback [cb] with
    the handler's descriptor and fields. The class's invariant of the handler
    itself is not needed any more. *)
Context (sub_delete : P → M W unit).

Definition Finish_with (p : ptr) (cb : Z → P → M W unit) : M (St P W K PQ) unit :=
  Remove sub_delete (Some p) ;;
  h ← handler p;
  on_world (cb (fd_ h) (sub_ h)).

Lemma Finish_with_wp ks tmp own news xs s p h cb (R : W → Prop) Q :
  Inv (ext_plus tmp own) news xs s →
  OneShot_inv (λ fd x w, fd = fd_ h ∨ PI fd x w) ks own news s →
  (0 < tmp p)%Z → handlers s !! p = Some h → event_loop_ h = true →
  wp (cb (fd_ h) (sub_ h))
     (λ _ w, R w ∧ finished w = finished (world s) ++ [key (sub_ h)] ∧
             ∀ fd x, fd ≠ fd_ h → PI fd x (world s) → PI fd x w) (world s) →
  (∀ s' xs', Inv (ext_plus tmp own) news xs' s' → OneShot ks own news s' →
     pipe_ s' = pipe_ s → timeout_ s' = timeout_ s → clk s' = clk s → sublist xs' xs →
     (∀ q, q ∈ xs' → handlers s' !! q = handlers s !! q) →
     R (world s') → ¬ registered s' p →
     Q tt s') →
  wp (Finish_with p cb) Q s.
Proof.
  intros HI HC Htmp Hp Hev Hcb HQ. unfold Finish_with. apply wp_bind.
  assert (p ∉ news) as Hnews by (intros (? & ? & ? & ?)%(inv_news _ _ _ _ HI); congruence).
  pose proof (os_own _ _ _ _ _ HC p) as Hown.
  eapply Remove_wp; [done..|unfold ext_plus; lia|].
  intros s1 ys HI1 (Hpi & Hpf & Hth & Hlp & Hto & Hw) Hsub Hck _ Hhs.
  apply wp_bind. eapply wp_handler; [by rewrite Hhs, lookup_insert_eq|]. cbn.
  apply wp_zoom. rewrite Hw. eapply wp_mono; [done|]. intros [] w (HR & Hfin & HPI).
  assert (p ∉ ys) as Hpy.
  { eapply Inv_unlinked; [done|by rewrite Hhs, lookup_insert_eq|done]. }
  eapply HQ with (xs' := ys); cbn; try done; [by apply Inv_world| | |].
  2: { intros q Hq. rewrite Hhs, lookup_insert_ne; [done|set_solver]. }
  2: { intros (h' & Hh' & He'). cbn in Hh'. rewrite Hhs, lookup_insert_eq in Hh'. by simplify_eq. }
  destruct HC as [Hown' Hfd Hkey Hfresh Hpend Hlive Honce Hacc].
  assert (∀ q hq, live (set_world w s1) news q hq → q ≠ p ∧ live s news q hq) as Hlf.
  { intros q hq [Hq Hl]. cbn in Hq. rewrite Hhs in Hq.
    apply lookup_insert_Some in Hq as [[<- <-]|[? Hq]]; [by destruct Hl|].
    split; [done|]. by split. }
  destruct (Hlive p h) as [Hkp _]; [by split; [|left]|].
  split; cbn; rewrite ?Hpi, ?Hpf, ?Hfin; try done.
  - intros q1 q2 h1 h2 [_ ?]%Hlf [_ ?]%Hlf ?. by eapply Hfd.
  - intros q1 q2 h1 h2 [_ ?]%Hlf [_ ?]%Hlf ?. by eapply Hkey.
  - intros q hq Hq Hhq. rewrite Hhs in Hhq. rewrite lookup_insert_ne in Hhq by set_solver.
    by eapply Hfresh.
  - intros q hq [Hne Hl]%Hlf.
    assert (fd_ hq ≠ fd_ h) as Hfdq.
    { intros Heq. apply Hne. eapply Hfd; [done| |done]. by split; [|left]. }
    destruct (Hlive _ _ Hl) as [Hk [Heq|?]]; [done|]. split; [|by apply HPI].
    rewrite not_elem_of_app, not_elem_of_cons. split_and!; [done| |by apply not_elem_of_nil].
    intros Heq. apply Hne. eapply Hkey; [done| |done]. by split; [|left].
  - apply NoDup_app. split_and!; [done| |apply NoDup_singleton]. set_solver.
  - intros k. rewrite Hacc. split.
    2: { intros [[Hk| ->%list_elem_of_singleton]%elem_of_app|(q & hq & [_ Hq]%Hlf & Hk)].
         - by left.
         - right. exists p, h. split; [by split; [|left]|done].
         - right. by exists q, hq. }
    intros [Hk|(q & hq & [Hq Hl] & Hk)]; [left; set_solver|].
    destruct (decide (q = p)) as [->|Hne].
    + left. rewrite Hp in Hq. simplify_eq. set_solver.
    + right. exists q, hq. split; [|done]. split; [|done]. cbn. by rewrite Hhs, lookup_insert_ne.
Qed.

(** Adding a handler that waits. *)
Lemma add_later_wp ks tmp own news xs s p ps q' evs Q :
  Inv (ext_plus tmp own) news xs s → OneShot ks own news s →
  pending (pipe_ s) = p :: ps → pending q' = ps →
  (∀ s' news' xs', Inv (ext_plus tmp own) news' xs' s' → OneShot ks own news' s' →
     pipe_ s' = q' → timeout_ s' = timeout_ s →
     (time (clk s) ≤ time (clk s'))%Z → horizon (clk s') = horizon (clk s) → Q tt s') →
  wp (add_later evs p) Q (set_pipe q' s).
Proof.
  intros HI HC Hps Hq' HQ. pose proof HC as [Hown Hfd Hkey Hfresh [Hnd Hpend] Hlive Honce Hacc].
  rewrite Hps in Hnd, Hpend. apply NoDup_cons in Hnd as [Hpps Hnd].
  assert (p ∈ news) as Hp by (apply Hpend; set_solver).
  destruct (inv_news _ _ _ _ HI p Hp) as (h & Hh & Hev & Hext).
  unfold add_later. eapply Add_wp with (h := h); [by apply Inv_pipe|done|done| |].
  - destruct (interest _ !! fd_ h) as [ev|] eqn:Hi; [|done]. exfalso. cbn in Hi.
    destruct (inv_interest _ _ _ _ HI _ _ Hi) as (q & hq & Hq & Hevq & Hfq & _).
    { by eapply Hfresh. }
    assert (q = p) as ->; [|congruence].
    eapply Hfd; [split; [done|by left]|split; [done|by right]|done].
  - intros s' t HI' (Hpi & Hpf & _ & _ & Hto & Hw) Htime Hhor Hhs. cbn in *.
    eapply HQ; [done| |done|done|done|done].
    assert (∀ q hq, live s' (news ∖ {[p]}) q hq → ∃ hq', live s news q hq' ∧
      fd_ hq = fd_ hq' ∧ sub_ hq = sub_ hq') as Hlf.
    { intros q hq [Hq Hl]. rewrite Hhs in Hq.
      apply lookup_insert_Some in Hq as [[<- <-]|[? Hq]].
      - exists h. split; [|done]. split; [done|by right].
      - exists hq. split; [|done]. split; [done|]. set_solver. }
    split; rewrite ?Hpi, ?Hw, ?Hpf; try done.
    + intros q1 q2 h1 h2 (?&?&?&?)%Hlf (?&?&?&?)%Hlf ?. eapply Hfd; [done..|congruence].
    + intros q1 q2 h1 h2 (?&?&?&?)%Hlf (?&?&?&?)%Hlf ?. eapply Hkey; [done..|congruence].
    + intros q hq Hq Hhq. rewrite Hhs, lookup_insert_ne in Hhq by set_solver.
      eapply Hfresh; [|done]. set_solver.
    + rewrite Hq'. split; [done|]. intros q. split.
      * intros Hq. apply elem_of_difference. split; [apply Hpend; set_solver|]. set_solver.
      * intros [Hq Hne]%elem_of_difference. apply Hpend in Hq. set_solver.
    + intros q hq (h' & Hl & -> & ->)%Hlf. by eapply Hlive.
    + intros k. rewrite Hacc. split.
      2: { intros [Hk|(q & hq & (h' & Hq & _ & Hs)%Hlf & Hk)]; [by left|right].
           exists q, h'. by rewrite <- Hs. }
      intros [Hk|(q & hq & [Hq Hl] & Hk)]; [by left|right].
      destruct (decide (q = p)) as [->|Hne].
      * rewrite Hh in Hq. simplify_eq. eexists p, _. split; [split|];
          [by rewrite Hhs, lookup_insert_eq|by left|done].
      * exists q, hq. split; [|done]. split; [by rewrite Hhs, lookup_insert_ne|]. set_solver.
Qed.

(** ** The interface *)

(** A method of a registered handler that finishes, or keeps waiting. *)
Definition ok_step (ks : list nat) (m : ptr → M (St P W K PQ) unit) : Prop :=
  ∀ tmp own news xs s p h,
    Inv (ext_plus tmp own) news xs s → OneShot ks own news s →
    (0 < tmp p)%Z → handlers s !! p = Some h → event_loop_ h = true →
    wp (m p) (λ _ s', ∃ xs', Inv (ext_plus tmp own) news xs' s' ∧ OneShot ks own news s' ∧
      pipe_ s' = pipe_ s ∧ timeout_ s' = timeout_ s ∧ clk s' = clk s ∧ sublist xs' xs ∧
      ∀ q, q ∈ xs' → deadline_ <$> handlers s' !! q = deadline_ <$> handlers s !! q) s.

Context (OnEvent : ptr → Z → M (St P W K PQ) unit) (OnTimeout : ptr → M (St P W K PQ) unit).

Lemma OneShot_client ks evs :
  (∀ x w, sub_delete x w = Done (tt, w)) →
  (∀ e, ok_step ks (λ p, OnEvent p e)) → ok_step ks OnTimeout →
  LoopClient sub_delete OnEvent OnTimeout (add_later evs) (OneShot ks).
Proof.
  intros Hdel Hevent Htimeout. split; [split|..].
  - intros own news s s' HC Hw Hpi Hpf Hf Hgone. eapply OneShot_frame; try done; rewrite ?Hw; auto.
    intros q h Hq Hn. by destruct (Hgone q h Hq Hn) as (? & _ & ?).
  - intros own news s q HC. by rewrite (os_own _ _ _ _ _ HC).
  - intros own news s q h HC Hq Hev _ Hn. unfold wp. rewrite Hdel.
    eapply OneShot_frame; cbn; try done.
    + intros r h' [_ Hr]%lookup_delete_Some. by exists h'.
    + intros r h' Hr [<-|?]%lookup_delete_None; [|congruence]. rewrite Hq in Hr. by simplify_eq.
  - intros tmp own news xs s p h evs' HI HC _ Htmp Hp Hev.
    eapply wp_mono; [by eapply (Hevent evs')|].
    intros [] s' (xs' & HI' & HC' & Hpi & Hto & Hck & _). exists xs'. split; [|done].
    exists own, news. by rewrite Hck.
  - intros tmp own news xs s p h HI HC _ Htmp Hp Hev.
    eapply wp_mono; [by eapply Htimeout|].
    intros [] s' (xs' & HI' & HC' & Hpi & Hto & Hck & Hsub & Hdl). exists xs'. split; [|done].
    exists own, news. by rewrite Hck.
  - intros tmp own news xs s p fs q' HI HC _ Hp Hq'.
    eapply add_later_wp; [done..|]. intros s' news' xs' HI' HC' Hpi Hto Hti Hho.
    exists xs'. split; [|done]. exists own, news'. split_and!; try done. lia.
Qed.

(** ** Runs

    The steps of a program that uses the class: a request from another thread, a
    turn of the loop, time that passes and what other parts of the program do
    to the world, and a request that is answered at once. [ks] lists the callbacks of the requests so far. *)
Context (vector_capacity : nat → nat → nat) (evs : Z).

Abbreviation Turn := (Loop_turn sub_delete OnEvent OnTimeout (add_later evs) vector_capacity).

Inductive os_step : list nat * gset ptr * St P W K PQ → list nat * gset ptr * St P W K PQ → Prop :=
  | os_request ks news s t p fd x s' :
      t ≠ loop_ s → fresh_request p fd x news s →
      create evs p fd x (as_thread t s) = Done (tt, s') →
      os_step (ks, news, s) (key x :: ks, {[p]} ∪ news, as_thread (loop_ s) s')
  | os_turn ks news news' s s' :
      turn_env vector_capacity s → (∃ n, ∀ fuel, n < fuel → Turn fuel s = Done (tt, s')) →
      (∀ p, p ∈ news' ↔ p ∈ pending (pipe_ s')) →
      os_step (ks, news, s) (ks, news', s')
  | os_env ks news s c w :
      (time (clk s) ≤ time c)%Z → finished w = finished (world s) →
      (∀ p h, live s news p h → PI (fd_ h) (sub_ h) (world s) → PI (fd_ h) (sub_ h) w) →
      os_step (ks, news, s) (ks, news, set_world w (set_clk c s))
  | os_at_once ks news s k w :
      finished w = finished (world s) ++ [k] → k ∉ finished (world s) →
      (∀ p h, live s news p h → key (sub_ h) ≠ k) →
      (∀ p h, live s news p h → PI (fd_ h) (sub_ h) (world s) → PI (fd_ h) (sub_ h) w) →
      os_step (ks, news, s) (k :: ks, news, set_world w s).

(** A handler to which the loop dispatches an event. *)
Lemma os_dispatching ks news s p h :
  os_ok (ks, news, s) → handlers s !! p = Some h → p ∉ news →
  ∃ xs, Inv (ext_plus (ext_add p 1 no_refs) no_refs) news xs (after (IncRef p) s) ∧
        OneShot ks no_refs news (after (IncRef p) s).
Proof.
  intros (xs & HI & HC) Hp Hn. cbn in HI, HC. exists xs.
  apply (wp_after (IncRef p) (λ s, Inv _ news xs s ∧ OneShot ks no_refs news s)).
  eapply IncRef_wp; [done..|]. intros HI'. split.
  - eapply Inv_ext_eq; [done|]. intros q. unfold ext_plus, ext_add. by case_decide.
  - eapply OneShot_frame; [done|done|done|done|done|..]; cbn.
    + intros q h' [[<- <-]|[? Hq]]%lookup_insert_Some; [by exists h|by exists h'].
    + intros q h' Hq Hn'. apply lookup_insert_None in Hn' as [? _]. congruence.
Qed.

Lemma OneShot_own ks own own' news news' s :
  OneShot ks own news s → (∀ q, own' q = 0%Z) → (∀ q, q ∈ news' ↔ q ∈ news) →
  OneShot ks own' news' s.
Proof.
  intros HC Hown Hn. assert (news' = news) as -> by (apply leibniz_equiv; intros q; apply Hn).
  split; try done; apply HC.
Qed.

(** The invariant depends on which callbacks were handed over, and on what is in
    the pipe. *)
Lemma os_ok_same ks ks' news news' s :
  os_ok (ks, news, s) → (∀ k, k ∈ ks' ↔ k ∈ ks) → (∀ q, q ∈ news' ↔ q ∈ pending (pipe_ s)) →
  os_ok (ks', news', s).
Proof.
  intros (xs & HI & HC) Hk Hn. cbn in *. assert (∀ q, q ∈ news' ↔ q ∈ news) as Heq.
  { intros q. rewrite Hn. apply (os_pending _ _ _ _ _ HC). }
  exists xs. split; [by eapply Inv_news_eq|]. cbn.
  apply (OneShot_own ks' no_refs no_refs news news'); [|done..].
  destruct HC as [Hown Hfd Hkey Hfresh Hpend Hlive Honce Hacc]. split; try done.
  intros k. by rewrite Hk.
Qed.

(** Between two turns every handler waits for its end. *)
Lemma os_ok_live ks news s p h : os_ok (ks, news, s) → handlers s !! p = Some h → live s news p h.
Proof.
  intros (xs & HI & HC) Hp. cbn in *. split; [done|].
  destruct (inv_kept _ _ _ _ HI p h Hp) as [?|[?|?]]; [by left|lia|by right].
Qed.

Context (Hclient : ∀ ks, LoopClient sub_delete OnEvent OnTimeout (add_later evs) (OneShot ks)).

Lemma os_turn_ok ks news s :
  os_ok (ks, news, s) → turn_env vector_capacity s →
  ∃ n, ∀ fuel, n < fuel →
    ∃ s' news', Turn fuel s = Done (tt, s') ∧ os_ok (ks, news', s') ∧ none_expired s'.
Proof.
  intros (xs & HI & HC) He. cbn in *. pose proof (Hclient ks).
  destruct (Loop_turn_wp sub_delete OnEvent OnTimeout (add_later evs) vector_capacity (OneShot ks)
    no_refs news xs s) as [n Hn]; [|done..|].
  { by eapply Inv_ext_eq. }
  exists n. intros fuel Hf. specialize (Hn fuel Hf). apply wp_Done in Hn as ([] & s' & Hs' & xs' & (own' & news' & HI' & HC' & _) & Hex).
  exists s', news'. split_and!; [done| |done]. exists xs'. cbn. split.
  - eapply Inv_ext_eq; [done|]. intros q. unfold ext_plus. rewrite (os_own _ _ _ _ _ HC'). done.
  - by eapply OneShot_own.
Qed.

Lemma os_step_ok x y : os_ok x → os_step x y → os_ok y.
Proof.
  intros (xs & HI & HC) Hstep. destruct Hstep as [ks news s t p fd x s' Ht Hf Hs'
    |ks news news' s s' He [m Hs'] Hn|ks news s c w Hc Hw HPI|ks news s k w Hw Hk Hks HPI]; cbn in *.
  - assert (wp (create evs p fd x) (λ _ s', os_ok (key x :: ks, {[p]} ∪ news, as_thread (loop_ s) s')) (as_thread t s))
      as Hwp.
    { eapply create_wp; [done..|]. intros q' _ s2 HI2 HC2. exists xs. cbn.
      replace (as_thread _ _) with s2; [done|]. subst s2.
      unfold as_thread, set_pipe, alloc_handler, put_handler, set_handlers, set_lst; cbn.
      by rewrite (inv_thread _ _ _ _ HI). }
    unfold wp in Hwp. by rewrite Hs' in Hwp.
  - destruct (os_turn_ok ks news s ltac:(by exists xs) He) as [n Hturn].
    destruct (Hturn (S (n `max` m)) ltac:(lia)) as (s2 & news2 & Hs2 & (xs2 & HI2 & HC2) & _).
    rewrite (Hs' (S (n `max` m))) in Hs2 by lia. simplify_eq.
    assert (∀ p, p ∈ news' ↔ p ∈ news2) as Heq.
    { intros p. rewrite Hn. apply (os_pending _ _ _ _ _ HC2). }
    exists xs2. cbn in *. split; [by eapply Inv_news_eq|by eapply OneShot_own].
  - exists xs. cbn. split; [apply Inv_world; by apply Inv_clk|].
    eapply OneShot_frame; cbn; try done; [|congruence]. intros q h' ?. by exists h'.
  - exists xs. cbn. split; [by apply Inv_world|].
    destruct HC as [Hown Hfd Hkey Hfresh Hpend Hlive Honce Hacc]. split; cbn; try done.
    + intros p h Hl. change (live s news p h) in Hl. destruct (Hlive _ _ Hl). rewrite Hw.
      split; [|by eapply HPI]. rewrite not_elem_of_app, list_elem_of_singleton. split; [done|].
      by eapply Hks.
    + rewrite Hw. apply NoDup_app. split_and!; [done| |apply NoDup_singleton]. set_solver.
    + intros k'. rewrite Hw, elem_of_cons, Hacc, elem_of_app, list_elem_of_singleton. naive_solver.
Qed.

Lemma os_runs ks news s ks' news' s' :
  os_ok (ks, news, s) → rtc os_step (ks, news, s) (ks', news', s') →
  os_ok (ks', news', s') ∧ NoDup (finished (world s')) ∧
  ∀ k, k ∈ ks' ↔ k ∈ finished (world s') ∨
    (k ∉ finished (world s') ∧ ∃ p h, live s' news' p h ∧ key (sub_ h) = k).
Proof.
  intros Hok Hrun. assert (os_ok (ks', news', s')) as Hok'.
  { eapply (rtc_invariant os_step os_ok); [done..|]. intros ????. by eapply os_step_ok. }
  split; [done|]. by eapply os_ok_once.
Qed.
End one_shot.
