(* ===== verification/Sock.v ===== *)
(** * Socket errors (sock.h, sock.cc), error numbers and descriptors *)

From S2P Require Import Prelude.

(** errno.h (Linux). *)
Definition EAGAIN : Z := 11.
Definition EWOULDBLOCK : Z := 11.
Definition ENOMEM : Z := 12.
Definition ENFILE : Z := 23.
Definition EMFILE : Z := 24.
Definition ETIME : Z := 62.
Definition ENOBUFS : Z := 105.
Definition EINPROGRESS : Z := 115.

(** The kernel's [getsockopt(fd, SOL_SOCKET, SO_ERROR)]: the error and its
    length, or a failure. *)
Class SockOptKernel (K : Type) := {
  getsockopt_error : Z → K → option (Z * Z) * K
}.

(** sock.cc: [SockError]. *)
Definition SockError {K} `{SockOptKernel K} (fd : Z) : M K Z :=
  r ← (λ k, Done (getsockopt_error fd k));
  match r with
  | None => abort "getsockopt(fd, SOL_SOCKET, SO_ERROR, &err, &len) == 0"
  | Some (err, len) => CHECK "len == sizeof(err)" (len =? 4)%Z ;; mret err
  end.

(** getsockopt(2), of a socket. *)
Class SockOptLaws (K : Type) `{SockOptKernel K} := {
  getsockopt_ok : ∀ fd k, ∃ err k', getsockopt_error fd k = (Some (err, 4%Z), k')
}.

Lemma SockError_wp {K} `{SockOptLaws K} fd Q k :
  (∀ err k', getsockopt_error fd k = (Some (err, 4%Z), k') → Q err k') → wp (SockError fd) Q k.
Proof.
  intros HQ. unfold SockError. apply wp_bind. unfold wp at 1.
  destruct (getsockopt_ok fd k) as (err & k' & Hk). rewrite Hk. wp_steps; [done|]. by apply HQ.
Qed.

(** ** Descriptors *)

(** [close(2)], and the descriptors that are open. *)
Class FdKernel (K : Type) := { sys_close : Z → K → bool * K; opened : K → gset Z }.
Class FdLaws (K : Type) `{FdKernel K} := {
  close_open : ∀ fd k, fd ∈ opened k →
    ∃ k', sys_close fd k = (true, k') ∧ opened k' = opened k ∖ {[fd]};
  close_closed : ∀ fd k, fd ∉ opened k → (sys_close fd k).1 = false
}.

(** [CHECK(close(fd) == 0)]. *)
Definition close_checked {K} `{FdKernel K} (fd : Z) : M K unit :=
  ok ← (λ k, Done (sys_close fd k));
  CHECK "close(fd) == 0" ok.

Lemma close_checked_wp {K} `{FdLaws K} fd Q k :
  fd ∈ opened k →
  (∀ k', sys_close fd k = (true, k') → opened k' = opened k ∖ {[fd]} → Q tt k') →
  wp (close_checked fd) Q k.
Proof.
  intros Hfd HQ. destruct (close_open fd k Hfd) as (k' & Hc & Ho). unfold close_checked.
  apply wp_bind. unfold wp at 1. rewrite Hc. apply wp_CHECK; [done|]. by apply HQ.
Qed.

(** A descriptor that is free. *)
Definition sim_fresh (fds : gset Z) : Z := Z.of_N (fresh (set_map Z.to_N fds : gset N)).

Lemma sim_fresh_new fds : (0 ≤ sim_fresh fds)%Z ∧ sim_fresh fds ∉ fds.
Proof.
  unfold sim_fresh. split; [lia|]. intros Hin.
  apply (is_fresh (set_map Z.to_N fds : gset N)). apply elem_of_map. eexists. split; [|exact Hin].
  by rewrite N2Z.id.
Qed.
