(* ===== verification/Addr.v ===== *)
(** * Addresses (addr.h, addr.cc)

    [IpPort] and how it prints. Of [sockaddr_in] the model has the fields that
    the program reads: the family, the four bytes of [sin_addr] and [sin_port]
    in network byte order, as a little-endian machine sees it. *)

From stdpp Require Import pretty.
From S2P Require Import Prelude.

Definition AF_INET : Z := 2.

Record sockaddr := mkSockaddr { sa_family : Z; sin_addr : N * N * N * N; sin_port : N }.

(** [struct addrinfo]: the fields that are used; the list of results is in
    Dns.v. *)
Record addrinfo := mkAddrinfo { ai_family : Z; ai_addr : option sockaddr }.

#[export] Instance sockaddr_eq_dec : EqDecision sockaddr.
Proof. solve_decision. Defined.
#[export] Instance addrinfo_eq_dec : EqDecision addrinfo.
Proof. solve_decision. Defined.

(** addr.cc: [Cast] of an [addrinfo], which is the constructor [IpPort]. *)
Definition IpPort {S} (addr : addrinfo) : M S sockaddr :=
  a ← non_null "addr.ai_addr" (ai_addr addr);
  CHECK "addr.sa_family == AF_INET" (sa_family a =? AF_INET)%Z ;;
  mret a.

(** arpa/inet.h. *)
Definition ntohs (x : N) : N := (x `mod` 256 * 256 + x `div` 256)%N.

Definition decimal (n : N) : bytes := B (pretty n).

Definition DOT : ascii := "."%char.

Definition inet_ntoa (a : N * N * N * N) : bytes :=
  let '(a, b, c, d) := a in
  decimal a ++ DOT :: decimal b ++ DOT :: decimal c ++ DOT :: decimal d.

(** addr.cc: [operator<<]. *)
Definition print_IpPort (x : sockaddr) : bytes :=
  inet_ntoa (sin_addr x) ++ COLON :: decimal (ntohs (sin_port x)).

(** An address of the Internet, with a port of 16 bits. *)
Definition sockaddr_ok (x : sockaddr) : Prop := sa_family x = AF_INET ∧ (sin_port x < 65536)%N.

Definition ipv4 (a : addrinfo) : Prop := ∃ x, ai_addr a = Some x ∧ sa_family x = AF_INET.

Lemma IpPort_wp {S} a Q (s : S) :
  ipv4 a → (∀ x, ai_addr a = Some x → Q x s) → wp (IpPort a) Q s.
Proof.
  intros (x & Hx & Hf) HQ. unfold IpPort. rewrite Hx. wp_steps; [by apply Z.eqb_eq|by apply HQ].
Qed.

(** *** Decimal numbers *)
Definition is_digit (c : ascii) : Prop := (48 ≤ N_of_ascii c ≤ 57)%N.

Lemma pretty_char_digit n : (n < 10)%N → is_digit (pretty_N_char n).
Proof.
  intros Hn. unfold is_digit.
  assert (n = 0 ∨ n = 1 ∨ n = 2 ∨ n = 3 ∨ n = 4 ∨ n = 5 ∨ n = 6 ∨ n = 7 ∨ n = 8 ∨ n = 9)%N as Hc
    by lia.
  destruct_or! Hc; subst; vm_compute; split; discriminate.
Qed.

Lemma pretty_go_digits n s :
  Forall is_digit (B s) → Forall is_digit (B (pretty_N_go n s)).
Proof.
  revert s. induction (N.lt_wf_0 n) as [n _ IH]; intros s Hs.
  destruct (decide (n = 0)%N) as [->|Hn]; [by rewrite pretty_N_go_0|].
  rewrite pretty_N_go_step by lia. apply IH; [apply N.div_lt; lia|].
  cbn. constructor; [|done]. apply pretty_char_digit, N.mod_lt. lia.
Qed.

Lemma decimal_digits n : Forall is_digit (decimal n).
Proof.
  unfold decimal, pretty, pretty_N. case_decide; [|by apply pretty_go_digits].
  cbn. constructor; [|done]. vm_compute. split; discriminate.
Qed.

(** *** Reading a number *)

(** The number that digits stand for: each one multiplies what has been read by
    ten. *)
Definition digit (c : ascii) : N := N_of_ascii c - 48.
Definition read_dec (l : bytes) : N := foldl (λ acc c, acc * 10 + digit c)%N 0%N l.

Lemma digit_pretty n : (n < 10)%N → digit (pretty_N_char n) = n.
Proof.
  intros Hn.
  assert (n = 0 ∨ n = 1 ∨ n = 2 ∨ n = 3 ∨ n = 4 ∨ n = 5 ∨ n = 6 ∨ n = 7 ∨ n = 8 ∨ n = 9)%N as Hc by lia.
  destruct_or! Hc; by subst.
Qed.

Lemma read_pretty_go n s :
  foldl (λ acc c, acc * 10 + digit c)%N 0%N (B (pretty_N_go n s)) = foldl (λ acc c, acc * 10 + digit c)%N n (B s).
Proof.
  revert s. induction (N.lt_wf_0 n) as [n _ IH]; intros s.
  destruct (decide (n = 0)%N) as [->|Hn]; [by rewrite pretty_N_go_0|].
  rewrite pretty_N_go_step by lia. rewrite IH by (apply N.div_lt; lia).
  cbn. rewrite digit_pretty by (apply N.mod_lt; lia). f_equal.
  pose proof (N.div_mod n 10 ltac:(lia)). lia.
Qed.

Lemma read_decimal n : read_dec (decimal n) = n.
Proof.
  unfold decimal, pretty, pretty_N, read_dec. case_decide as Hn; [by subst|]. by rewrite read_pretty_go.
Qed.

(** *** Reading an address *)

(** What precedes the first [c], and what follows it. *)
Fixpoint split_at (c : ascii) (l : bytes) : option (bytes * bytes) :=
  match l with
  | [] => None
  | d :: l =>
      if decide (d = c) then Some ([], l) else
      '(before, rest) ← split_at c l; Some (d :: before, rest)
  end.

Lemma split_at_app c l r : c ∉ l → split_at c (l ++ c :: r) = Some (l, r).
Proof.
  induction l as [|d l IH]; intros Hc; cbn.
  - by rewrite decide_True.
  - rewrite decide_False by set_solver. by rewrite IH by set_solver.
Qed.

Definition read_number (l : bytes) : option N :=
  if decide (l ≠ [] ∧ Forall is_digit l) then Some (read_dec l) else None.

(** The reader of "a.b.c.d:port", written independently of [print_IpPort]: four
    numbers of a byte, then a number of 16 bits. *)
Definition read_IpPort (l : bytes) : option (N * N * N * N * N) :=
  '(a, l) ← split_at DOT l;
  '(b, l) ← split_at DOT l;
  '(c, l) ← split_at DOT l;
  '(d, p) ← split_at COLON l;
  a ← read_number a; b ← read_number b; c ← read_number c; d ← read_number d; p ← read_number p;
  if decide (a < 256 ∧ b < 256 ∧ c < 256 ∧ d < 256 ∧ p < 65536)%N then Some (a, b, c, d, p) else None.

Lemma decimal_nonempty n : decimal n ≠ [].
Proof.
  intros Hn. pose proof (read_decimal n) as Hr. unfold decimal in *. destruct (decide (n = 0)%N) as [->|Hz]; [done|].
  rewrite Hn in Hr. by subst.
Qed.

Lemma read_number_decimal n : read_number (decimal n) = Some n.
Proof.
  unfold read_number. rewrite decide_True by (split; [apply decimal_nonempty|apply decimal_digits]).
  by rewrite read_decimal.
Qed.

Lemma not_digit_not_in n c : ¬ is_digit c → c ∉ decimal n.
Proof. intros Hc Hin. apply Hc. by eapply Forall_forall in Hin; [|apply decimal_digits]. Qed.

Lemma DOT_not_in n : DOT ∉ decimal n.
Proof. apply not_digit_not_in. vm_compute. by intros [[] _]. Qed.

Lemma COLON_not_in n : COLON ∉ decimal n.
Proof. apply not_digit_not_in. vm_compute. by intros [_ []]. Qed.

(** *** Theorems *)

(** C38: what [operator<<] prints of an address is its four bytes in decimal, from
    the first one in memory, and the port: a reader of "a.b.c.d:port" gets the
    bytes back, and the port in the order of the host - the one whose high byte
    is the first byte of [sin_port] in memory. *)
Theorem print_IpPort_read a b c d port_hi port_lo :
  (a < 256 ∧ b < 256 ∧ c < 256 ∧ d < 256)%N → (port_hi < 256 ∧ port_lo < 256)%N →
  read_IpPort (print_IpPort (mkSockaddr AF_INET (a, b, c, d) (port_hi + 256 * port_lo))) =
  Some (a, b, c, d, 256 * port_hi + port_lo)%N.
Proof.
  intros Hip [Hhi Hlo]. unfold print_IpPort, inet_ntoa, read_IpPort. cbn [sin_addr sin_port].
  rewrite <- !(assoc_L (++)). cbn [app]. rewrite split_at_app by apply DOT_not_in. cbn [mbind option_bind].
  rewrite <- !(assoc_L (++)). cbn [app]. rewrite split_at_app by apply DOT_not_in. cbn [mbind option_bind].
  rewrite <- !(assoc_L (++)). cbn [app]. rewrite split_at_app by apply DOT_not_in. cbn [mbind option_bind].
  rewrite split_at_app by apply COLON_not_in. cbn [mbind option_bind].
  rewrite !read_number_decimal. cbn [mbind option_bind].
  assert (ntohs (port_hi + 256 * port_lo) = 256 * port_hi + port_lo)%N as ->.
  { unfold ntohs. rewrite (N.mul_comm 256 port_lo), N.Div0.mod_add, N.mod_small, N.div_add, N.div_small by lia. lia. }
  rewrite decide_True by lia. done.
Qed.

Lemma print_IpPort_read_witness :
  print_IpPort (mkSockaddr AF_INET (127, 0, 0, 1)%N 0xBB01%N) = B "127.0.0.1:443" ∧
  read_IpPort (B "127.0.0.1:443") = Some (127, 0, 0, 1, 443)%N.
Proof.
  split; [vm_compute; reflexivity|].
  exact (print_IpPort_read 127 0 0 1 0x01 0xBB (ltac:(repeat split)) (ltac:(repeat split))).
Defined.
