(* ===== verification/Parser.v ===== *)
(** * The HTTP CONNECT parser (parser.h, parser.cc)

    [ParseEventHandler] on the event loop: its buffer and its incremental
    [Read], a reference definition of the request on the whole text, and the
    proof that they agree however the request is cut into reads. *)

From S2P Require Import Prelude Logging IntrusiveList Epoll EventLoop LoopTheorems OneShot Sock.

(** What [read(2)] returns on a non-blocking socket: bytes (none at the end of
    the stream), or an error. *)
Inductive read_result := ReadData (d : bytes) | ReadErr (err : Z).

(** [received k fd] is what has been read from the descriptor. *)
Class ReadKernel (K : Type) := {
  sys_read : Z → nat → K → read_result * K;
  received : K → Z → bytes
}.
Class ReadLaws (K : Type) `{ReadKernel K} := {
  read_data : ∀ fd n k d k', sys_read fd n k = (ReadData d, k') →
    length d ≤ n ∧ received k' fd = received k fd ++ d ∧
    ∀ fd', fd' ≠ fd → received k' fd' = received k fd';
  read_err : ∀ fd n k e k', sys_read fd n k = (ReadErr e, k') →
    ∀ fd', received k' fd' = received k fd'
}.

(** ** Text *)

Definition kConnectPrefix : bytes := B "CONNECT ".
Definition CRLFCRLF : bytes := [CR; LF; CR; LF].

(** [memcmp(s + i, t + j, n) == 0]. *)
Definition memcmp_eq (s : bytes) (i : nat) (t : bytes) (j n : nat) : bool :=
  bool_decide (take n (drop i s) = take n (drop j t)).

(** parser.cc: [EndsWith]. *)
Definition EndsWith (s suffix : bytes) : bool :=
  (length suffix <=? length s) &&
  memcmp_eq s (length s - length suffix) suffix 0 (length suffix).

(** [std::string_view::find_first_of(chars, start)]; [None] is [npos]. *)
Definition find_first_of (s chars : bytes) (start : nat) : option nat :=
  Nat.add start <$> find_first (λ c, bool_decide (c ∈ chars)) (drop start s).

(** [std::string_view::substr(pos, count)]; a count of [npos - pos] reaches the
    end. *)
Definition substr {S} (s : bytes) (pos : nat) (count : option nat) : M S bytes :=
  CHECK "out_of_range" (pos <=? length s) ;;
  mret (match count with Some n => take n (drop pos s) | None => drop pos s end).

(** Writing into a buffer. *)
Definition write_at (s : bytes) (pos : nat) (d : bytes) : bytes :=
  take pos s ++ d ++ drop (pos + length d) s.

Section parser.
Context {K EK PQ : Type} `{ReadLaws K} `{SockOptKernel K} `{EpollLaws EK} `{PipeLaws PQ ptr}.

(** parser.h: [Parser::Options] (the timeout is the loop's). *)
Record ParserOptions := mkParserOptions {
  max_request_size_bytes : nat; accept_timeout : Duration
}.
Definition parser_defaults : ParserOptions := mkParserOptions 1024 (seconds 5).

(** parser.cc: the fields of [ParseEventHandler]; [cb_] names the callback. *)
Record ParseEventHandler := mkParse { cb_ : nat; content_ : bytes; size_ : nat }.

(** The kernel's sockets and the calls of callbacks so far. *)
Record parser_world := mkPW { sockets : K; calls : list (nat * bytes) }.

Abbreviation pst := (ParseEventHandler * parser_world)%type.

Definition parse_new (opt : ParserOptions) (cb : nat) : ParseEventHandler :=
  mkParse cb (repeat NUL (max_request_size_bytes opt)) 0.

(** [read(fd(), content_.data() + size_, content_.size() - size_)]: more bytes
    than asked for would be written past the buffer. *)
Definition read_into (fd : Z) : M pst (nat + Z) := λ s,
  let '(h, w) := s in
  let n := length (content_ h) - size_ h in
  match sys_read fd n (sockets w) with
  | (ReadErr e, k) => Done (inr e, (h, mkPW k (calls w)))
  | (ReadData d, k) =>
      if n <? length d then UB "read past the buffer"
      else Done (inl (length d),
             (mkParse (cb_ h) (write_at (content_ h) (size_ h) d) (size_ h), mkPW k (calls w)))
  end.

Definition put_size (n : nat) : M pst unit :=
  modify (λ s, (mkParse (cb_ s.1) (content_ s.1) n, s.2)).

(** parser.cc: the body of the loop of [ParseEventHandler::Read]: a decision, or
    [None] to go on. *)
Definition Read_body (fd : Z) : M pst (option (option bytes)) :=
  ret ← read_into fd;
  size ← gets (λ s, size_ s.1);
  content ← gets (λ s, content_ s.1);
  match ret with
  | inr err =>
      if (err =? EAGAIN)%Z || (err =? EWOULDBLOCK)%Z then mret (Some None)
      else mret (Some (Some []))
  | inl ret =>
      let n := Nat.min ret (length kConnectPrefix - size) in
      if (size <? length kConnectPrefix) && negb (memcmp_eq content size kConnectPrefix size n)
      then mret (Some (Some []))
      else
        put_size (size + ret) ;;
        let req := take (size + ret) content in
        if EndsWith req CRLFCRLF then
          let start := length kConnectPrefix in
          host_port ← substr req start ((λ e, e - start) <$> find_first_of req [SP; CR] start);
          mret (Some (Some host_port))
        else if ret =? 0 then mret (Some (Some []))
        else if size + ret =? length content then mret (Some (Some []))
        else mret None
  end.

Fixpoint Read_loop (fd : Z) (fuel : nat) : M pst (option bytes) :=
  match fuel with
  | 0 => no_fuel
  | S fuel =>
      r ← Read_body fd;
      match r with Some r => mret r | None => Read_loop fd fuel end
  end.

(** parser.cc: [ParseEventHandler::Read]. Every iteration but the last one reads
    at least one byte, so the free space bounds their number. *)
Definition Read (fd : Z) : M pst (option bytes) :=
  s ← get;
  CHECK "size_ < content_.size()" (size_ s.1 <? length (content_ s.1)) ;;
  Read_loop fd (S (length (content_ s.1) - size_ s.1)).

(** ** The handler *)
Abbreviation St := (EventLoop.St ParseEventHandler parser_world EK PQ).

(** The destructor has nothing to do; a call of the callback is recorded. *)
Definition parse_delete (x : ParseEventHandler) : M parser_world unit := mret tt.

Definition call_cb (host_port : bytes) (fd : Z) (h : ParseEventHandler) : M parser_world unit :=
  modify (λ w, mkPW (sockets w) (calls w ++ [(cb_ h, host_port)])).

(** parser.cc: [ParseEventHandler::Finish]. *)
Definition Finish (p : ptr) (host_port : bytes) : M St unit :=
  Finish_with parse_delete p (call_cb host_port).

Definition on_sockets {A} (m : M K A) : M St A :=
  on_world (zoom sockets (λ k w, mkPW k (calls w)) m).

(** An operand of [LOG(WARN)], which is evaluated when the level is enabled. *)
Definition log_warn_operand (min_lvl : Severity) (m : M St unit) : M St unit :=
  when (severity_value min_lvl <=? severity_value WARN)%Z m.

(** parser.cc: [ParseEventHandler::OnEvent]. *)
Definition OnEvent (min_lvl : Severity) (p : ptr) (events : Z) : M St unit :=
  h ← handler p;
  if HasBits events EPOLLERR then
    log_warn_operand min_lvl (on_sockets (SockError (fd_ h)) ;; mret tt) ;;
    Finish p []
  else if HasBits events EPOLLIN then
    host_port ← on_sub p (Read (fd_ h));
    match host_port with
    | Some host_port => Finish p host_port
    | None => mret tt
    end
  else mret tt.

(** parser.cc: [ParseEventHandler::OnTimeout]. *)
Definition OnTimeout (p : ptr) : M St unit := Finish p [].

(** parser.cc: [Parser::ParseRequest]; [p] is the address of the new handler. *)
Definition ParseRequest (opt : ParserOptions) (p : ptr) (fd : Z) (cb : nat) : M St unit :=
  CHECK "fd >= 0" (0 <=? fd)%Z ;;
  new_handler p fd (parse_new opt cb) ;;
  ScheduleOrRun (add_later EPOLLIN) p.

(** ** The reference definition *)

Inductive verdict := Incomplete | Malformed | Host (host_port : bytes).

(** The text starts as a CONNECT request does, as far as it goes. *)
Definition prefix_ok (acc : bytes) : bool :=
  bool_decide (take (length kConnectPrefix) acc = take (length acc) kConnectPrefix).

(** The bytes after the prefix, up to the first space or carriage return. *)
Definition host_of (acc : bytes) : bytes :=
  let rest := drop (length kConnectPrefix) acc in
  match find_first (λ c, bool_decide (c ∈ [SP; CR])) rest with
  | Some i => take i rest
  | None => rest
  end.

(** What the text read so far says, with room for [max] bytes. *)
Definition judge (max : nat) (acc : bytes) : verdict :=
  if negb (prefix_ok acc) then Malformed
  else if bool_decide (CRLFCRLF `suffix_of` acc) then Host (host_of acc)
  else if max <=? length acc then Malformed
  else Incomplete.

(** The text cut into pieces: the first piece that decides. *)
Fixpoint feed (max : nat) (acc : bytes) (ds : list bytes) : verdict :=
  match ds with
  | [] => judge max acc
  | d :: ds => match judge max (acc ++ d) with Incomplete => feed max (acc ++ d) ds | v => v end
  end.

(** The regular expression of the comment on [ParseEventHandler]: the prefix, a
    maximal run of characters other than space and carriage return, which is
    the capture, anything, and an empty line. *)
Definition matches (req host_port : bytes) : Prop :=
  ∃ rest, req = kConnectPrefix ++ host_port ++ rest ++ CRLFCRLF ∧
    SP ∉ host_port ∧ CR ∉ host_port ∧
    ∃ c t, rest ++ CRLFCRLF = c :: t ∧ (c = SP ∨ c = CR).

(** The handler's invariant: the buffer holds what has been read, which is an
    incomplete request with room left. *)
Definition parse_ok (h : ParseEventHandler) : Prop := size_ h < length (content_ h).

Definition in_buffer (h : ParseEventHandler) (acc : bytes) : Prop :=
  take (size_ h) (content_ h) = acc ∧ size_ h = length acc ∧ parse_ok h ∧
  judge (length (content_ h)) acc = Incomplete.

(** ** Text lemmas *)

Lemma EndsWith_spec s suffix : EndsWith s suffix = bool_decide (suffix `suffix_of` s).
Proof.
  unfold EndsWith, memcmp_eq. rewrite drop_0, (take_ge suffix) by done.
  apply eq_true_iff_eq. rewrite andb_true_iff, Nat.leb_le, !bool_decide_eq_true. split.
  - intros [Hlen Heq]. exists (take (length s - length suffix) s).
    rewrite take_ge in Heq by (rewrite length_drop; lia). rewrite <- Heq at 2.
    by rewrite take_drop.
  - intros [l ->]. rewrite length_app. split; [lia|].
    rewrite Nat.add_sub, drop_app_length, take_ge; done.
Qed.

Lemma length_kConnectPrefix : length kConnectPrefix = 8.
Proof. done. Qed.

Lemma LF_not_in_prefix : LF ∉ kConnectPrefix.
Proof. by apply (bool_decide_unpack _). Qed.

(** A request that ends in an empty line goes past the prefix. *)
Lemma terminated_long acc :
  prefix_ok acc = true → CRLFCRLF `suffix_of` acc → 8 < length acc.
Proof.
  unfold prefix_ok. rewrite bool_decide_eq_true, length_kConnectPrefix. intros Hp [l ->].
  apply Nat.lt_nge. intros Hlen. rewrite take_ge in Hp by done.
  apply LF_not_in_prefix. rewrite <- (take_drop (length (l ++ CRLFCRLF)) kConnectPrefix), <- Hp.
  unfold CRLFCRLF. set_solver.
Qed.

Lemma take_clamp {A} (l : list A) n m : length l ≤ m → take (n `min` m) l = take n l.
Proof.
  intros Hl. destruct (Nat.min_spec n m) as [[_ ->]|[? ->]]; [done|]. by rewrite !take_ge by lia.
Qed.

(** [Read] compares only the new bytes with the prefix. *)
Lemma prefix_ok_app acc d :
  prefix_ok acc = true →
  prefix_ok (acc ++ d) =
    let n := length d `min` (length kConnectPrefix - length acc) in
    bool_decide (take n d = take n (drop (length acc) kConnectPrefix)).
Proof.
  cbv zeta. set (k := kConnectPrefix). unfold prefix_ok; fold k. rewrite bool_decide_eq_true. intros Hacc.
  apply bool_decide_ext. destruct (decide (length k ≤ length acc)) as [Hlong|Hshort].
  - replace (length k - length acc) with 0 by lia. rewrite Nat.min_0_r, !take_0.
    split; [done|intros _]. rewrite take_app_le by done. rewrite Hacc.
    by rewrite !take_ge by (rewrite ?length_app; lia).
  - rewrite take_ge in Hacc by lia. rewrite take_app_ge by lia.
    assert (take (length (acc ++ d)) k = acc ++ take (length d) (drop (length acc) k)) as ->.
    { rewrite length_app, <- take_take_drop, <- Hacc. done. }
    rewrite (take_clamp (drop (length acc) k)) by (rewrite length_drop; lia).
    rewrite (Nat.min_comm (length d)), (take_clamp d _ (length d)) by done.
    split; [apply app_inv_head|by intros ->].
Qed.

Lemma drop_write_at s pos d :
  pos ≤ length s → drop pos (write_at s pos d) = d ++ drop (pos + length d) s.
Proof. intros. unfold write_at. by rewrite drop_app_ge, length_take_le, Nat.sub_diag by (rewrite ?length_take; lia). Qed.

Lemma take_write_at s pos d :
  pos ≤ length s → take (pos + length d) (write_at s pos d) = take pos s ++ d.
Proof.
  intros. unfold write_at. rewrite (assoc_L (++)), take_app_length'; [done|].
  rewrite length_app, length_take_le; lia.
Qed.

Lemma length_write_at s pos d :
  pos + length d ≤ length s → length (write_at s pos d) = length s.
Proof. intros. unfold write_at. rewrite !length_app, length_take, length_drop. lia. Qed.

Lemma judge_incomplete max acc :
  judge max acc = Incomplete ↔
  prefix_ok acc = true ∧ ¬ CRLFCRLF `suffix_of` acc ∧ length acc < max.
Proof.
  unfold judge. destruct (prefix_ok acc); cbn; [|naive_solver].
  case_bool_decide; [naive_solver|]. destruct (Nat.leb_spec max (length acc)); [|naive_solver].
  split; [done|]. intros (_ & _ & ?). lia.
Qed.

(** A request that ends in an empty line has the whole prefix, and ends after
    it. *)
Lemma terminated_split acc :
  prefix_ok acc = true → CRLFCRLF `suffix_of` acc →
  ∃ m, acc = kConnectPrefix ++ m ++ CRLFCRLF.
Proof.
  intros Hp Ht. pose proof (terminated_long _ Hp Ht) as Hlong. destruct Ht as [l ->].
  unfold prefix_ok in Hp. rewrite bool_decide_eq_true in Hp.
  rewrite (take_ge kConnectPrefix) in Hp by (rewrite length_kConnectPrefix; lia).
  destruct (Nat.leb_spec (length kConnectPrefix) (length l)).
  - rewrite take_app_le in Hp by done. exists (drop (length kConnectPrefix) l).
    rewrite (assoc_L (++)). rewrite <- Hp at 1. by rewrite take_drop.
  - exfalso. assert (CR ∉ kConnectPrefix) as Hcr by by apply (bool_decide_unpack _).
    apply Hcr. rewrite <- Hp, take_app_ge by lia.
    destruct (length kConnectPrefix - length l) eqn:?; [lia|]. unfold CRLFCRLF. cbn. set_solver.
Qed.

Abbreviation host_end := (λ c, bool_decide (c ∈ [SP; CR])).

(** The first space or carriage return of a text that ends in an empty line. *)
Lemma host_end_found m :
  ∃ hp rest c t, find_first host_end (m ++ CRLFCRLF) = Some (length hp) ∧
    m = hp ++ rest ∧ rest ++ CRLFCRLF = c :: t ∧ (c = SP ∨ c = CR) ∧ SP ∉ hp ∧ CR ∉ hp.
Proof.
  destruct (find_first host_end (m ++ CRLFCRLF)) as [e|] eqn:E.
  2: { exfalso. apply find_first_None in E. rewrite Forall_forall in E. specialize (E CR).
       rewrite bool_decide_eq_false in E. apply E; unfold CRLFCRLF; set_solver. }
  apply find_first_Some in E as (hp & c & t & Heq & <- & Hc & Hhp).
  rewrite Forall_forall in Hhp. setoid_rewrite bool_decide_eq_false in Hhp.
  rewrite bool_decide_eq_true in Hc.
  assert (SP ∉ hp) by (intros Hin; apply (Hhp _ Hin); set_solver).
  assert (CR ∉ hp) as Hcr by (intros Hin; apply (Hhp _ Hin); set_solver).
  assert (∃ rest, m = hp ++ rest ∧ rest ++ CRLFCRLF = c :: t) as (rest & -> & Hrest).
  { apply app_eq_app in Heq as (k & [(-> & Hk)|(-> & Hk)]); [by exists k|].
    destruct k as [|d k].
    - exists []. rewrite !app_nil_r in *. by split.
    - exfalso. apply Hcr. injection Hk as <- _. set_solver. }
  exists hp, rest, c, t. split_and!; try done. set_solver.
Qed.

(** The host of a complete request, as [find_first_of] and [substr] get it. *)
Lemma complete_host acc :
  prefix_ok acc = true → CRLFCRLF `suffix_of` acc →
  ∃ e, find_first_of acc [SP; CR] (length kConnectPrefix) = Some (length kConnectPrefix + e) ∧
       host_of acc = take e (drop (length kConnectPrefix) acc).
Proof.
  intros Hp (m & ->)%terminated_split; [|done].
  destruct (host_end_found m) as (hp & rest & c & t & Hf & _).
  exists (length hp). unfold find_first_of, host_of. rewrite drop_app_length, Hf. done.
Qed.

Lemma host_of_complete m hp rest c t :
  m = hp ++ rest → rest ++ CRLFCRLF = c :: t → (c = SP ∨ c = CR) → SP ∉ hp → CR ∉ hp →
  host_of (kConnectPrefix ++ m ++ CRLFCRLF) = hp.
Proof.
  intros -> Hrest Hc Hsp Hcr. unfold host_of. rewrite drop_app_length.
  rewrite <- (assoc_L (++)). rewrite Hrest.
  rewrite (proj2 (find_first_Some _ (hp ++ c :: t) (length hp))), take_app_length; [done|].
  exists hp, c, t. split_and!; [done|done|apply bool_decide_eq_true; set_solver|].
  apply Forall_forall. intros d Hd. apply bool_decide_eq_false. set_solver.
Qed.

Lemma judge_matches max acc host_port :
  judge max acc = Host host_port ↔ matches acc host_port.
Proof.
  unfold judge. split.
  - destruct (prefix_ok acc) eqn:Hp; cbn; [|done]. case_bool_decide as Ht; [|by destruct (_ <=? _)].
    intros [= <-]. destruct (terminated_split _ Hp Ht) as (m & ->).
    destruct (host_end_found m) as (hp & rest & c & t & _ & Hm & Hrest & Hc & ? & ?).
    rewrite (host_of_complete m hp rest c t) by done. exists rest. rewrite Hm, <- (assoc_L (++)).
    eauto 10.
  - intros (rest & -> & Hsp & Hcr & c & t & Hrest & Hc).
    assert (prefix_ok (kConnectPrefix ++ host_port ++ rest ++ CRLFCRLF) = true) as ->.
    { unfold prefix_ok. rewrite take_app_length, bool_decide_true; [done|].
      rewrite length_app. symmetry. apply take_ge, Nat.le_add_r. }
    rewrite bool_decide_true by (do 2 apply suffix_app_r; by apply suffix_app_r). cbn. f_equal.
    rewrite (assoc_L (++) host_port). by eapply host_of_complete.
Qed.

(** The reference definition accepts exactly the requests of the regular
    expression in the class's comment, with its capture. *)
Lemma judge_accepts_regex max acc host_port :
  judge max acc = Host host_port ↔ matches acc host_port.
Proof. apply judge_matches. Qed.

Lemma prefix_ok_mono acc d : prefix_ok (acc ++ d) = true → prefix_ok acc = true.
Proof.
  unfold prefix_ok. rewrite !bool_decide_eq_true, length_app. intros Heq.
  apply (f_equal (take (length acc))) in Heq. rewrite !take_take in Heq.
  rewrite (Nat.min_l (length acc) (length acc + length d)) in Heq by lia. rewrite <- Heq.
  destruct (Nat.leb_spec (length kConnectPrefix) (length acc)).
  - rewrite Nat.min_r by done. by rewrite take_app_le.
  - rewrite Nat.min_l by lia. rewrite take_app_length, take_ge by lia. done.
Qed.

(** The answer does not depend on how the network cuts the request: if no
    shorter prefix of the text ends in an empty line and the text fits in the
    buffer, then for every way to cut it into pieces that are not empty, the
    reads decide what the reference definition decides on the whole text. *)
Lemma feed_fragmentation max req ds :
  length req ≤ max → (∀ t, t `prefix_of` req → t ≠ req → ¬ CRLFCRLF `suffix_of` t) →
  Forall (λ d, d ≠ []) ds → concat ds = req → feed max [] ds = judge max req.
Proof.
  intros Hlen Hend Hne Hreq. change (concat ds) with ([] ++ concat ds) in Hreq.
  set (acc := []) in Hreq |- *. clearbody acc. revert acc Hne Hreq. induction ds as [|d ds IH]; intros acc Hne Hreq.
  { cbn in *. by rewrite app_nil_r in Hreq; subst. }
  cbn in Hreq |- *. apply Forall_cons in Hne as [Hd Hne]. rewrite (assoc_L (++)) in Hreq.
  destruct ds as [|d' ds].
  { cbn in *. rewrite app_nil_r in Hreq. rewrite Hreq. by destruct (judge max req). }
  apply Forall_cons in Hne as [Hd' Hne]. cbn in Hd'.
  assert (length (acc ++ d) < length req) as Hlt.
  { rewrite <- Hreq, (length_app (acc ++ d)). destruct d'; [done|]. cbn. lia. }
  assert (¬ CRLFCRLF `suffix_of` (acc ++ d)).
  { apply Hend; [rewrite <- Hreq; by apply prefix_app_r|]. intros Heq. rewrite Heq in Hlt. lia. }
  destruct (prefix_ok (acc ++ d)) eqn:Hp.
  - rewrite (proj2 (judge_incomplete max (acc ++ d))) by (split_and!; [done|done|lia]).
    apply IH; [by constructor|done].
  - assert (judge max req = Malformed) as ->.
    { unfold judge. destruct (prefix_ok req) eqn:Hr; [|done]. rewrite <- Hreq in Hr.
      apply prefix_ok_mono in Hr. congruence. }
    unfold judge. by rewrite Hp.
Qed.

(** *** The reading loop *)
Abbreviation max_size h := (length (content_ h)).

(** What [Read] answers to a verdict. *)
Definition answers (v : verdict) (r : option bytes) : Prop :=
  match v with Incomplete => False | Malformed => r = Some [] | Host hp => r = Some hp end.

(** The socket has stopped to give data: it would block, its stream has ended,
    or it has failed. *)
Definition stopped (fd : Z) (r : option bytes) (k' : K) : Prop :=
  ∃ n k x, 0 < n ∧ sys_read fd n k = (x, k') ∧
    match r with
    | None => x = ReadErr EAGAIN
    | Some hp => hp = [] ∧ (x = ReadData [] ∨ ∃ e, x = ReadErr e ∧ e ≠ EAGAIN)
    end.

Definition same_request (fd : Z) (s s' : pst) : Prop :=
  cb_ s'.1 = cb_ s.1 ∧ max_size s'.1 = max_size s.1 ∧ calls s'.2 = calls s.2 ∧
  ∀ fd', fd' ≠ fd → received (sockets s'.2) fd' = received (sockets s.2) fd'.

(** After the text [acc'], [Read] has the answer [r]. *)
Definition read_state (fd : Z) (base acc : bytes) (r : option (option bytes)) (s' : pst) : Prop :=
  received (sockets s'.2) fd = base ++ acc ∧ length acc ≤ max_size s'.1 ∧
  match r with
  | None => in_buffer s'.1 acc
  | Some r =>
      answers (judge (max_size s'.1) acc) r ∨
      judge (max_size s'.1) acc = Incomplete ∧ stopped fd r (sockets s'.2) ∧
      (r = None → in_buffer s'.1 acc)
  end.

(** The buffer and [memcmp] after [d] has been read behind [acc]. *)
Lemma text_read h acc d :
  in_buffer h acc → length d ≤ max_size h - size_ h →
  let content := write_at (content_ h) (size_ h) d in
  length content = max_size h ∧ take (size_ h + length d) content = acc ++ d ∧ length (acc ++ d) ≤ max_size h ∧
  (size_ h <? length kConnectPrefix) && negb (memcmp_eq content (size_ h) kConnectPrefix (size_ h)
    (length d `min` (length kConnectPrefix - size_ h))) = negb (prefix_ok (acc ++ d)).
Proof.
  intros (Hbuf & Hsz & Hroom & Hj) Hlen. unfold parse_ok in Hroom. cbv zeta.
  apply judge_incomplete in Hj as (Hp & _ & _). pose proof (prefix_ok_app acc d Hp) as ->. cbv zeta.
  rewrite <- Hsz. split_and!.
  - apply length_write_at. lia.
  - rewrite take_write_at by lia. by rewrite Hbuf.
  - rewrite length_app. lia.
  - unfold memcmp_eq. rewrite drop_write_at by lia. rewrite take_app_le by lia.
    destruct (Nat.ltb_spec (size_ h) (length kConnectPrefix)) as [?|Hlong]; [done|].
    cbn [andb]. by rewrite (proj2 (Nat.sub_0_le _ _) Hlong), Nat.min_0_r.
Qed.

(** [read] fails. *)
Lemma read_stopped fd h w base acc e k :
  in_buffer h acc → received (sockets w) fd = base ++ acc →
  sys_read fd (max_size h - size_ h) (sockets w) = (ReadErr e, k) →
  read_state fd base acc (Some (if (e =? EAGAIN)%Z then None else Some [])) (h, mkPW k (calls w)).
Proof.
  intros Hin Hrec Er. pose proof Hin as (Hbuf & Hsz & Hroom & Hj). unfold parse_ok in Hroom.
  split; [cbn; by rewrite (read_err _ _ _ _ _ Er)|]. split; [cbn; lia|]. right. split; [done|].
  split; [|by intros _]. exists (max_size h - size_ h), (sockets w), (ReadErr e). split; [lia|]. split; [done|].
  destruct (Z.eqb_spec e EAGAIN) as [->|]; [done|]. eauto.
Qed.

Lemma Read_body_wp fd h w base acc :
  in_buffer h acc → received (sockets w) fd = base ++ acc →
  wp (Read_body fd)
    (λ r s', same_request fd (h, w) s' ∧ ∃ d, read_state fd base (acc ++ d) r s' ∧
       (d = [] → is_Some r)) (h, w).
Proof.
  intros Hin Hrec. pose proof Hin as (Hbuf & Hsz & Hroom & Hj). unfold parse_ok in Hroom.
  unfold Read_body. apply wp_bind. unfold wp at 1, read_into.
  destruct (sys_read fd _ (sockets w)) as [[d|e] k] eqn:Er.
  2: { pose proof (read_stopped _ _ _ _ _ _ _ Hin Hrec Er) as Hst. pose proof (read_err _ _ _ _ _ Er) as Hk.
       apply wp_bind, wp_gets, wp_bind, wp_gets. unfold EWOULDBLOCK. change 11%Z with EAGAIN. rewrite orb_diag.
       destruct (e =? EAGAIN)%Z; apply wp_ret; (split; [done|]); exists []; rewrite app_nil_r; by split. }
  destruct (read_data _ _ _ _ _ Er) as (Hlen & Hk & Hother).
  rewrite (proj2 (Nat.ltb_ge _ _)) by done.
  apply wp_bind, wp_gets, wp_bind, wp_gets. cbn [fst content_ size_]. cbv zeta.
  destruct (text_read _ _ _ Hin Hlen) as (Hmx & Hreq & Hfits & ->).
  set (content := write_at _ _ _) in *.
  assert (received k fd = base ++ acc ++ d) as Hk' by (rewrite Hk, Hrec; by rewrite (assoc_L (++))).
  assert (∀ n r, answers (judge (max_size h) (acc ++ d)) r → let s' := (mkParse (cb_ h) content n, mkPW k (calls w)) in
    same_request fd (h, w) s' ∧ ∃ d, read_state fd base (acc ++ d) (Some r) s' ∧ (d = [] → is_Some (Some r))) as Hdecide.
  { intros n r Hr s'. split; [done|]. exists d. split; [|by eexists]. split; [exact Hk'|]. cbn. rewrite Hmx. auto. }
  unfold judge in Hdecide.
  destruct (prefix_ok (acc ++ d)) eqn:Hpref; cbn [negb] in *; [|by apply wp_ret, Hdecide].
  unfold put_size. apply wp_bind, wp_modify. cbn [fst snd content_]. rewrite Hreq, EndsWith_spec, Hmx.
  case_bool_decide as Hend.
  { destruct (complete_host _ Hpref Hend) as (e & He & Hhost). rewrite He. cbn [fmap option_fmap option_map].
    unfold substr. pose proof (terminated_long _ Hpref Hend).
    apply wp_bind, wp_bind, wp_CHECK; [apply Nat.leb_le; rewrite length_kConnectPrefix; lia|].
    apply wp_ret, wp_ret, Hdecide. cbn. by rewrite Hhost, Nat.sub_0_r. }
  destruct d as [|c d]; cbn [length Nat.eqb].
  { apply wp_ret. split; [done|]. exists []. split; [split; [done|split; [cbn; by rewrite Hmx|]]|by eexists].
    right. cbn. rewrite Hmx. rewrite app_nil_r in *. split_and!; [done| |done].
    exists (max_size h - size_ h), (sockets w); eexists. split; [|split; [done|]]; [lia|]. by split; [|left]. }
  assert (length (acc ++ c :: d) = size_ h + S (length d)) as Hl by (rewrite length_app, Hsz; done).
  rewrite <- Hl. destruct (Nat.eqb_spec (length (acc ++ c :: d)) (max_size h)) as [Hfull|Hmore]; apply wp_ret.
  - apply Hdecide. by rewrite (proj2 (Nat.leb_le _ _)) by lia.
  - split; [done|]. exists (c :: d). split; [split; [done|split; [cbn; by rewrite Hmx|]]|done].
    unfold in_buffer, parse_ok. cbn. split_and!; [by rewrite Hl|done|rewrite Hmx; lia|].
    rewrite Hmx. apply judge_incomplete. split_and!; [done..|lia].
Qed.

(** The text that is read is decided by its first prefix that a read ends and
    that is not incomplete. *)
Lemma Read_loop_wp fuel fd h w base acc :
  in_buffer h acc → received (sockets w) fd = base ++ acc → max_size h - size_ h < fuel →
  wp (Read_loop fd fuel)
    (λ r s', same_request fd (h, w) s' ∧ ∃ ds, read_state fd base (acc ++ concat ds) (Some r) s' ∧
       feed (max_size h) acc ds = judge (max_size h) (acc ++ concat ds)) (h, w).
Proof.
  revert h w acc. induction fuel as [|fuel IH]; intros h w acc Hin Hrec Hf; [lia|]. cbn.
  eapply wp_bind_mono; [by apply Read_body_wp|].
  intros r [h' w'] ((Hcb & Hmx & Hcalls & Hoth) & d & (Hrec' & Hfit & Hr) & Hd). cbn in *. destruct r as [r|].
  - apply wp_ret. split; [done|]. exists [d]. cbn. rewrite app_nil_r. split; [done|].
    by destruct (judge (max_size h) (acc ++ d)) eqn:Hj.
  - eapply wp_mono; [apply IH; [done|done|]|].
    + destruct Hin as (_ & Hs & Hok & _), Hr as (_ & Hs' & Hok' & _). unfold parse_ok in *.
      rewrite length_app in Hs'. destruct d; [by destruct Hd|cbn in *; lia].
    + intros r [h2 w2] ((? & ? & ? & Hoth2) & ds & Hst & Hfeed). cbn in *.
      split.
      { unfold same_request; cbn. split_and!; [congruence..|]. intros fd' Hne. by rewrite Hoth2, Hoth. } exists (d :: ds). cbn. rewrite (assoc_L (++)).
      split; [done|]. destruct Hr as (_ & _ & _ & Hj). rewrite Hmx in *. by rewrite Hj.
Qed.

Lemma Read_wp fd h w base acc :
  in_buffer h acc → received (sockets w) fd = base ++ acc →
  wp (Read fd) (λ r s', same_request fd (h, w) s' ∧ ∃ ds,
     received (sockets s'.2) fd = base ++ acc ++ concat ds ∧
     length (acc ++ concat ds) ≤ max_size h ∧
     feed (max_size h) acc ds = judge (max_size h) (acc ++ concat ds) ∧
     match feed (max_size h) acc ds with
     | Host hp => r = Some hp
     | Malformed => r = Some []
     | Incomplete => stopped fd r (sockets s'.2) ∧ (r = None → in_buffer s'.1 (acc ++ concat ds))
     end) (h, w).
Proof.
  intros Hin Hrec. unfold Read. wp_step; wp_step; wp_step; wp_step.
  { cbn. apply Nat.ltb_lt. by destruct Hin as (_ & _ & ? & _). }
  eapply wp_mono; [apply Read_loop_wp; [done|done|cbn [fst]; lia]|].
  intros r [h' w'] ((Hcb & Hmx & Hcalls & Hoth) & ds & (Hrec' & Hfit & Hr) & Hfeed). cbn in *.
  split; [done|]. exists ds. split; [done|]. split; [by rewrite <- Hmx|].
  split; [done|]. rewrite Hfeed. rewrite Hmx in Hr.
  destruct Hr as [Hr|(-> & ? & ?)]; [|done]. by destruct (judge (max_size h) _).
Qed.

(** C17: a call of [Read] on a handler whose buffer holds an incomplete request
    returns after finitely many reads: its [CHECK] holds, no read goes past the
    buffer and no [substr] is out of range. It has the reference definition's
    answer to the text received so far, cut as it was read ([feed]): the
    capture of a complete request, the empty string for a malformed one. When
    the text is still incomplete it answers nothing if the socket would
    block, keeping the text in the buffer, and the empty string if the stream
    has ended or failed. *)
Theorem Read_correct fd h w base acc :
  in_buffer h acc → received (sockets w) fd = base ++ acc →
  wp (Read fd) (λ r s', same_request fd (h, w) s' ∧ ∃ ds,
     received (sockets s'.2) fd = base ++ acc ++ concat ds ∧
     length (acc ++ concat ds) ≤ max_size h ∧
     feed (max_size h) acc ds = judge (max_size h) (acc ++ concat ds) ∧
     match feed (max_size h) acc ds with
     | Host hp => r = Some hp
     | Malformed => r = Some []
     | Incomplete => stopped fd r (sockets s'.2) ∧ (r = None → in_buffer s'.1 (acc ++ concat ds))
     end) (h, w).
Proof. apply Read_wp. Qed.
(** C24: [Read] implements the documented regular expression, however the network
    cuts the request: when it returns, with [req] the text received so far, it
    answers a host exactly when the whole of [req] matches with that host as
    its capture, and [req] fits in [max_request_size_bytes]. *)
Theorem Read_accepts_regex fd h w base acc :
  in_buffer h acc → received (sockets w) fd = base ++ acc →
  wp (Read fd) (λ r s', ∃ req, received (sockets s'.2) fd = base ++ req ∧
     length req ≤ max_size h ∧
     ∀ host_port, host_port ≠ [] → r = Some host_port ↔ matches req host_port) (h, w).
Proof.
  intros Hin Hrec. eapply wp_mono; [by apply Read_wp|].
  intros r s' (_ & ds & Hrec' & Hlen & Hfeed & Hr). exists (acc ++ concat ds).
  split_and!; [done..|]. intros hp Hne. rewrite <- (judge_matches (max_size h)), <- Hfeed.
  destruct (feed _ _ _); [|naive_solver..].
  destruct Hr as [(? & ? & ? & _ & _ & Hstop) _]. destruct r; naive_solver.
Qed.

(** ** The handler's methods *)
Context `{!SockOptLaws K}
  (sockopt_reads : ∀ fd k fd', received (getsockopt_error fd k).2 fd' = received k fd').

Abbreviation parse_finished := (λ w, (calls w).*1).

(** A handler's buffer holds the end of what its socket has received, an
    incomplete request. *)
Definition parse_PI (fd : Z) (h : ParseEventHandler) (w : parser_world) : Prop :=
  ∃ base acc, received (sockets w) fd = base ++ acc ∧ in_buffer h acc.

Abbreviation Waiting := (OneShot_inv cb_ parse_finished parse_PI).

(** [Waiting], except for the buffer of the handler with the descriptor [fd]. *)
Abbreviation Waiting_but fd0 :=
  (OneShot_inv cb_ parse_finished (λ fd x w, fd = fd0 ∨ parse_PI fd x w)).

(** The handler [p] has answered [hp] and is not registered any more. *)
Definition answered (p : ptr) (hp : bytes) (s s' : St) : Prop :=
  ∃ h, handlers s !! p = Some h ∧ calls (world s') = calls (world s) ++ [(cb_ (sub_ h), hp)] ∧
       ¬ registered s' p.

Definition waits (p : ptr) (acc : bytes) (s s' : St) : Prop :=
  calls (world s') = calls (world s) ∧ ∃ h, handlers s' !! p = Some h ∧
    event_loop_ h = true ∧ in_buffer (sub_ h) acc.

(** What every method of a registered handler keeps. *)
Definition step_post (ks : list nat) (tmp own : ptr → Z) (news : gset ptr) (xs : list ptr)
    (s s' : St) : Prop :=
  ∃ xs', Inv (ext_plus tmp own) news xs' s' ∧ Waiting ks own news s' ∧
    pipe_ s' = pipe_ s ∧ timeout_ s' = timeout_ s ∧ clk s' = clk s ∧ sublist xs' xs ∧
    ∀ q, q ∈ xs' → deadline_ <$> handlers s' !! q = deadline_ <$> handlers s !! q.

Lemma Finish_wp ks tmp own news xs s p h hp :
  Inv (ext_plus tmp own) news xs s → Waiting_but (fd_ h) ks own news s →
  (0 < tmp p)%Z → handlers s !! p = Some h → event_loop_ h = true →
  wp (Finish p hp) (λ _ s', step_post ks tmp own news xs s s' ∧ answered p hp s s' ∧
                            sockets (world s') = sockets (world s)) s.
Proof.
  intros HI HC Htmp Hp Hev. eapply Finish_with_wp with
    (R := λ w, sockets w = sockets (world s) ∧ calls w = calls (world s) ++ [(cb_ (sub_ h), hp)]);
    [done..| |].
  - apply wp_modify. cbn. by rewrite fmap_app.
  - intros s' xs' HI' HC' Hpi Hto Hck Hsub Hhs [Hso Hca] Hreg. split_and!; [|by exists h|done].
    exists xs'. split_and!; try done. intros q Hq. by rewrite Hhs.
Qed.

(** A read changes the fields of its handler and the kernel. *)
Lemma after_read ks tmp own news xs s p h x w :
  Inv (ext_plus tmp own) news xs s → Waiting ks own news s →
  handlers s !! p = Some h → event_loop_ h = true →
  same_request (fd_ h) (sub_ h, world s) (x, w) →
  let s' := set_world w (put_handler p (set_sub x h) s) in
  Inv (ext_plus tmp own) news xs s' ∧ Waiting_but (fd_ h) ks own news s' ∧
  (parse_PI (fd_ h) x w → Waiting ks own news s').
Proof.
  intros HI HC Hp Hev (Hcb & Hmx & Hca & Hother). cbn in *.
  assert (live s news p h) as Hl by (by split; [|left]).
  assert (∀ fd y, fd ≠ fd_ h → parse_PI fd y (world s) → parse_PI fd y w) as HPI.
  { intros fd y Hfd (b & a & Hr & Hb). exists b, a. by rewrite Hother. }
  split_and!.
  - apply Inv_world. eapply Inv_put; cbn; try done.
    + by apply (inv_ref _ _ _ _ HI).
    + apply HI.
    + by left.
    + intros (? & ? & ? & ?)%(inv_news _ _ _ _ HI). congruence.
  - apply OneShot_sub; cbn; try done; [|by left|by rewrite Hca|].
    + eapply OneShot_weaken; [done|]. by right.
    + intros fd y Hfd [?|?]; [done|]. right. by apply HPI.
  - intros Hx. apply OneShot_sub; cbn; try done. by rewrite Hca.
Qed.

(** What the handler [p] does with an event, its text so far being [acc]. *)
Definition event_post (p : ptr) (h : EventHandler ParseEventHandler) (evs : Z) (base acc : bytes)
    (s s' : St) : Prop :=
  if HasBits evs EPOLLERR then answered p [] s s'
  else if HasBits evs EPOLLIN then
    ∃ ds, received (sockets (world s')) (fd_ h) = base ++ acc ++ concat ds ∧
      feed (max_size (sub_ h)) acc ds = judge (max_size (sub_ h)) (acc ++ concat ds) ∧
      match feed (max_size (sub_ h)) acc ds with
      | Host hp => answered p hp s s'
      | Malformed => answered p [] s s'
      | Incomplete =>
          (waits p (acc ++ concat ds) s s' ∧ stopped (fd_ h) None (sockets (world s'))) ∨
          (answered p [] s s' ∧ stopped (fd_ h) (Some []) (sockets (world s')))
      end
  else s' = s.

(** The operand of the log line changes nothing that matters here. *)
Lemma log_operand_wp min_lvl ks tmp own news xs s fd Q :
  Inv (ext_plus tmp own) news xs s → Waiting ks own news s →
  (∀ k, let s' := set_world (mkPW k (calls (world s))) s in
     Inv (ext_plus tmp own) news xs s' → Waiting ks own news s' → Q tt s') →
  wp (log_warn_operand min_lvl (on_sockets (SockError fd) ;; mret tt)) Q s.
Proof.
  intros HI HC HQ. apply wp_when; intros _.
  - apply wp_bind. unfold on_sockets, on_world. apply wp_zoom, wp_zoom, SockError_wp.
    intros err k' Hk. pose proof (sockopt_reads fd (sockets (world s))) as Hreads. rewrite Hk in Hreads.
    apply wp_ret. apply HQ; [by apply Inv_world|].
    eapply OneShot_frame; cbn; try done; [|by intros q h' ?; exists h'|congruence].
    intros q hq _ (b & a & Hr & Hb). exists b, a. cbn. by rewrite Hreads.
  - specialize (HQ (sockets (world s))).
    replace (set_world _ s) with s in HQ by (destruct s as [????????? []]; done). by apply HQ.
Qed.

Lemma answered_from p hp s1 s s' h h1 :
  answered p hp s1 s' → handlers s1 !! p = Some h1 → handlers s !! p = Some h →
  cb_ (sub_ h1) = cb_ (sub_ h) → calls (world s1) = calls (world s) → answered p hp s s'.
Proof.
  intros (h' & Hh' & Hca & Hr) Hp1 Hp Hcb Hc. exists h. split; [done|]. split; [|done].
  rewrite Hca, Hc. simplify_eq. congruence.
Qed.

(** What a step keeps, when its beginning only changes fields. *)
Lemma step_post_from ks tmp own news xs s1 s s' p h h1 :
  step_post ks tmp own news xs s1 s' → handlers s1 = <[p := h1]> (handlers s) →
  handlers s !! p = Some h → deadline_ h1 = deadline_ h → pipe_ s1 = pipe_ s →
  timeout_ s1 = timeout_ s → clk s1 = clk s → step_post ks tmp own news xs s s'.
Proof.
  intros (xs' & ? & ? & Hpi & Hto & Hck & Hsub & Hdl) Hhs Hp Hd ? ? ?. exists xs'.
  split_and!; try done; [congruence..|]. intros q Hq. rewrite Hdl by done. rewrite Hhs.
  destruct (decide (p = q)) as [<-|]; [|by rewrite lookup_insert_ne].
  rewrite lookup_insert_eq, Hp. cbn. congruence.
Qed.

Lemma OnEvent_wp min_lvl ks tmp own news xs s p h evs base acc :
  Inv (ext_plus tmp own) news xs s → Waiting ks own news s →
  (0 < tmp p)%Z → handlers s !! p = Some h → event_loop_ h = true →
  received (sockets (world s)) (fd_ h) = base ++ acc → in_buffer (sub_ h) acc →
  wp (OnEvent min_lvl p evs) (λ _ s', step_post ks tmp own news xs s s' ∧
    event_post p h evs base acc s s') s.
Proof.
  intros HI HC Htmp Hp Hev Hrec Hin. unfold OnEvent, event_post.
  apply wp_bind. eapply wp_handler; [done|].
  destruct (HasBits evs EPOLLERR); [|destruct (HasBits evs EPOLLIN)].
  - apply wp_bind. eapply log_operand_wp; [done..|]. intros k s1 HI1 HC1.
    eapply wp_mono.
    + eapply Finish_wp; [done| |done|done|done].
      eapply OneShot_weaken; [done|]. by right.
    + intros [] s' (Hpost & Hans & _). split; [|by eapply answered_from].
      eapply step_post_from with (p := p) (h1 := h); try done. cbn. by rewrite insert_id.
  - apply wp_bind. eapply wp_on_sub; [done|]. eapply wp_mono; [by apply Read_wp|].
    intros r [x w] (Hsame & ds & Hrec' & _ & Hfj & Hr). cbn [fst snd] in *.
    destruct (after_read _ _ _ _ _ _ _ _ _ _ HI HC Hp Hev Hsame) as (HI1 & HC1 & HC1').
    destruct Hsame as (Hcb & Hmx & Hca & Hother). cbn [fst snd] in *.
    set (s1 := set_world w _) in *.
    assert (handlers s1 !! p = Some (set_sub x h)) as Hp1 by apply lookup_insert_eq.
    assert (∀ hp, r = Some hp → wp (Finish p hp) (λ _ s', step_post ks tmp own news xs s s' ∧
      answered p hp s s' ∧ sockets (world s') = sockets w) s1) as Hfin.
    { intros hp ->. eapply wp_mono; [by apply (Finish_wp ks tmp own news xs s1 p (set_sub x h))|]. intros [] s' (? & ? & ?).
      split_and!; [|by eapply answered_from|done]. by eapply step_post_from with (p := p) (h1 := set_sub x h). }
    destruct r as [hp|].
    + eapply wp_mono; [by apply Hfin|]. intros [] s' (Hpost & Hans & Hso). split; [done|].
      exists ds. rewrite Hso. split; [done|]. split; [done|]. clear Hfj. destruct (feed _ acc ds); simplify_eq; [|done..].
      destruct Hr as [Hstop _]. right.
      assert (hp = []) as -> by (by destruct Hstop as (? & ? & ? & ? & ? & ? & ?)).
      done.
    + apply wp_ret. destruct (feed _ acc ds) eqn:Ef; [|done..]. destruct Hr as [Hstop Hbuf].
      specialize (Hbuf eq_refl). split.
      * exists xs. split_and!; try done.
        -- apply HC1'. exists base, (acc ++ concat ds). done.
        -- intros q _. cbn. destruct (decide (p = q)) as [<-|];
             [by rewrite lookup_insert_eq, Hp|by rewrite lookup_insert_ne].
      * exists ds. cbn. split; [done|]. rewrite Ef. split; [done|]. left. split; [|done]. split; [done|].
        exists (set_sub x h). by split_and!.
  - apply wp_ret. split; [|done]. exists xs. split_and!; done.
Qed.

(** C31: the handler's answer to an event: an error gives the empty host, bytes
    give the answer of the reference definition to the text received so far,
    after which the handler is not registered any more and its callback has
    been called exactly once; as long as the request is incomplete and the
    socket is alive, the handler stays registered with its text in the buffer
    and calls nothing. An event without either bit does nothing. *)
Theorem OnEvent_correct min_lvl ks tmp own news xs s p h evs base acc :
  Inv (ext_plus tmp own) news xs s → Waiting ks own news s →
  (0 < tmp p)%Z → handlers s !! p = Some h → event_loop_ h = true →
  received (sockets (world s)) (fd_ h) = base ++ acc → in_buffer (sub_ h) acc →
  wp (OnEvent min_lvl p evs) (λ _ s', step_post ks tmp own news xs s s' ∧
    event_post p h evs base acc s s') s.
Proof. apply OnEvent_wp. Qed.

Lemma parse_client min_lvl ks :
  LoopClient parse_delete (OnEvent min_lvl) OnTimeout (add_later EPOLLIN) (Waiting ks).
Proof.
  apply OneShot_client; [done|..].
  - intros e tmp own news xs s p h HI HC Htmp Hp Hev.
    destruct (os_live _ _ _ _ _ _ _ HC p h) as (_ & base & acc & Hrec & Hin); [by split; [|left]|].
    eapply wp_mono; [by apply (OnEvent_wp min_lvl ks tmp own news xs s p h e base acc)|].
    by intros [] s' [? _].
  - intros tmp own news xs s p h HI HC Htmp Hp Hev. eapply wp_mono.
    + apply (Finish_wp ks tmp own news xs s p h); try done. eapply OneShot_weaken; [done|]. by right.
    + by intros [] s' [? _].
Qed.

(** ** Runs of the parser *)
Context (vector_capacity : nat → nat → nat) (min_lvl : Severity) (opt : ParserOptions).

Abbreviation ParserTurn :=
  (Loop_turn parse_delete (OnEvent min_lvl) OnTimeout (add_later EPOLLIN) vector_capacity).
Abbreviation pconf := (list nat * gset ptr * St)%type.

(** The callbacks of the requests so far, the handlers that wait in the pipe, and
    the state. A request comes from another thread, with a descriptor that no
    other request is using and a new callback. *)
Inductive parser_step : pconf → pconf → Prop :=
  | parser_request ks news s t p fd cb s' :
      t ≠ loop_ s → handlers s !! p = None →
      fd ≠ pipe_fd s → (∀ q h, live s news q h → fd_ h ≠ fd ∧ cb_ (sub_ h) ≠ cb) →
      cb ∉ parse_finished (world s) →
      ParseRequest opt p fd cb (as_thread t s) = Done (tt, s') →
      parser_step (ks, news, s) (cb :: ks, {[p]} ∪ news, as_thread (loop_ s) s')
  | parser_turn ks news news' s s' :
      turn_env vector_capacity s →
      (∃ n, ∀ fuel, n < fuel → ParserTurn fuel s = Done (tt, s')) →
      (∀ p, p ∈ news' ↔ p ∈ pending (pipe_ s')) →
      parser_step (ks, news, s) (ks, news', s')
  | parser_time ks news s c :
      (time (clk s) ≤ time c)%Z → parser_step (ks, news, s) (ks, news, set_clk c s).

Definition parser_ok : pconf → Prop := os_ok cb_ parse_finished parse_PI.

Lemma parse_new_ok cb fd w :
  0 < max_request_size_bytes opt → parse_PI fd (parse_new opt cb) w.
Proof.
  intros Hmax. exists (received (sockets w) fd), []. rewrite app_nil_r. split; [done|].
  unfold in_buffer, parse_ok, parse_new; cbn. rewrite List.repeat_length. split_and!; [done|done|done|].
  apply judge_incomplete. split_and!; [done| |done]. by intros [[|? [|? [|? [|? ?]]]] ?].
Qed.

Lemma parser_step_os x y :
  0 < max_request_size_bytes opt → parser_step x y →
  os_step cb_ parse_finished parse_PI parse_delete (OnEvent min_lvl) OnTimeout vector_capacity
    EPOLLIN x y.
Proof.
  intros Hmax []; [|by econstructor|].
  - match goal with H : ParseRequest _ _ _ _ _ = _ |- _ => rename H into Hreq end.
    assert (0 ≤ fd)%Z as Hpos.
    { unfold ParseRequest in Hreq. destruct (Z.leb_spec 0 fd); [done|by cbn in Hreq]. }
    change cb with (cb_ (parse_new opt cb)).
    eapply os_request with (fd := fd); [done| |].
    + split; [done|split_and!; naive_solver|split; naive_solver|by apply parse_new_ok].
    + rewrite <- Hreq. unfold ParseRequest. by rewrite (proj2 (Z.leb_le _ _) Hpos).
  - replace (set_clk c s) with (set_world (world s) (set_clk c s)) by (by destruct s).
    by constructor.
Qed.

Lemma parser_runs x y :
  0 < max_request_size_bytes opt → rtc parser_step x y →
  rtc (os_step cb_ parse_finished parse_PI parse_delete (OnEvent min_lvl) OnTimeout vector_capacity
    EPOLLIN) x y.
Proof. intros Hmax. induction 1; econstructor; [by apply parser_step_os|done]. Qed.

(** C18: every accepted request is answered exactly once. In every run of the
    parser, from its construction, no callback is called twice, and the
    callbacks of the requests so far are those that have been called and those
    whose handlers wait in the pipe or in the loop; nothing else is called. *)
Theorem request_answered_once s0 ks news s :
  0 < max_request_size_bytes opt → parser_ok ([], ∅, s0) →
  rtc parser_step ([], ∅, s0) (ks, news, s) →
  NoDup (parse_finished (world s)) ∧
  ∀ k, k ∈ ks ↔ k ∈ parse_finished (world s) ∨
    (k ∉ parse_finished (world s) ∧ ∃ p h, live s news p h ∧ cb_ (sub_ h) = k).
Proof.
  intros Hmax Hok Hrun. eapply (os_runs cb_ parse_finished parse_PI); [|exact Hok|by apply parser_runs].
  intros ks'. apply parse_client.
Qed.

(** Requests do not wait for ever. In every state that the parser can reach,
    a turn of its loop returns, and after it no handler is registered whose
    deadline the clock has reached: the callbacks of the requests that were
    accepted have been called, or their handlers are still in the pipe, or
    they have time left. *)
Lemma request_answered_in_time s0 ks news s :
  0 < max_request_size_bytes opt → parser_ok ([], ∅, s0) →
  rtc parser_step ([], ∅, s0) (ks, news, s) → turn_env vector_capacity s →
  ∃ n, ∀ fuel, n < fuel → ∃ s', ParserTurn fuel s = Done (tt, s') ∧
    ∀ k, k ∈ ks → k ∈ parse_finished (world s') ∨
      ∃ p h, handlers s' !! p = Some h ∧ cb_ (sub_ h) = k ∧
        (p ∈ pending (pipe_ s') ∨ (event_loop_ h = true ∧ (time (clk s') < deadline_ h)%Z)).
Proof.
  intros Hmax Hok Hrun He.
  destruct (os_runs cb_ parse_finished parse_PI parse_delete (OnEvent min_lvl) OnTimeout
    vector_capacity EPOLLIN (λ ks, parse_client min_lvl ks) _ _ _ _ _ _ Hok
    (parser_runs _ _ Hmax Hrun)) as (Hok' & _).
  destruct (os_turn_ok cb_ parse_finished parse_PI parse_delete (OnEvent min_lvl) OnTimeout
    vector_capacity EPOLLIN (λ ks, parse_client min_lvl ks) _ _ _ Hok' He) as [n Hn].
  exists n. intros fuel Hf. destruct (Hn fuel Hf) as (s' & news' & Hs' & (xs & HI & HC) & Hend).
  cbn in HI, HC. exists s'. split; [done|].
  intros k [Hk|(p & h & [Hp Hl] & Hk)]%(os_accounted _ _ _ _ _ _ _ HC); [by left|right].
  exists p, h. split_and!; [done..|]. destruct Hl as [Hl|Hl]; [right|left].
  - split; [done|]. by eapply Hend.
  - by apply (os_pending _ _ _ _ _ _ _ HC).
Qed.
End parser.

(** ** Sockets that keep the laws *)

(** What the next reads of a descriptor return, and what has been read. *)
Record sim_net := mkSimNet { scripts : Z → list read_result; got : Z → bytes }.

Definition upd_fd {A} (f : Z → A) (fd : Z) (a : A) : Z → A := λ x, if decide (x = fd) then a else f x.

Definition sim_read (fd : Z) (n : nat) (k : sim_net) : read_result * sim_net :=
  match scripts k fd with
  | [] => (ReadErr EAGAIN, k)
  | ReadErr e :: rest => (ReadErr e, mkSimNet (upd_fd (scripts k) fd rest) (got k))
  | ReadData d :: rest =>
      (ReadData (take n d),
       mkSimNet (upd_fd (scripts k) fd (if length d <=? n then rest else ReadData (drop n d) :: rest))
         (upd_fd (got k) fd (got k fd ++ take n d)))
  end.

#[export] Instance sim_read_kernel : ReadKernel sim_net := {| sys_read := sim_read; received := got |}.
#[export] Instance sim_read_laws : ReadLaws sim_net.
Proof.
  split; cbn; unfold sim_read; intros fd n k; destruct (scripts k fd) as [|[d|e] rest].
  - by intros ??[=].
  - intros d' k' [= <- <-]. cbn. unfold upd_fd. rewrite decide_True, length_take by done.
    split_and!; [lia|done|]. intros fd' Hne. by rewrite decide_False.
  - by intros ??[=].
  - by intros e k' [= <- <-].
  - by intros ??[=].
  - by intros e' k' [= <- <-].
Qed.

#[export] Instance sim_sockopt : SockOptKernel sim_net := {| getsockopt_error := λ _ k, (Some (104%Z, 4%Z), k) |}.
#[export] Instance sim_sockopt_laws : SockOptLaws sim_net.
Proof. split. intros fd k. by eexists _, _. Qed.

Lemma sim_sockopt_reads fd (k : sim_net) fd' : received (getsockopt_error fd k).2 fd' = received k fd'.
Proof. done. Qed.

Module ParserExample.
Abbreviation St := (EventLoop.St ParseEventHandler (parser_world (K:=sim_net)) sim_epoll (list ptr)).

(** A client that sends its request in two pieces. *)
Definition net : sim_net :=
  mkSimNet (λ fd, if decide (fd = 9%Z)
                  then [ReadData (B "CONNECT a.b:4"); ReadData (B "43 HTTP/1.1" ++ CRLFCRLF)] else [])
    (λ _, []).

Definition start : St :=
  mkSt ∅ (mkL ∅ list_new) (EPoll_new (mkSimEpoll ∅ [[3%Z]; [9%Z]])) (mkClock 0 [3%N; 4%N]) []
    3 7 7 0 (mkPW net []).

Definition turn := Loop_turn parse_delete (OnEvent INFO) OnTimeout (add_later EPOLLIN) (λ _ n, n) 10.
Definition constructed : St := after (EventLoop_new (seconds 5) 7) start.
Definition requested : St :=
  as_thread 7 (after (ParseRequest parser_defaults 1 9 0) (as_thread 8 constructed)).
(** The first turn adds the handler, the second one reads. *)
Definition added : St := after turn requested.
Definition answered : St := after turn added.

Example it_answers : calls (world answered) = [(0, B "a.b:443")].
Proof. vm_compute. reflexivity. Qed.

Lemma constructed_ok : parser_ok ([], ∅, constructed).
Proof.
  apply os_init; [|reflexivity..]. pattern constructed; apply wp_after.
  eapply EventLoop_new_wp; [by repeat split|done..].
Qed.

Abbreviation Step := (parser_step (λ _ n, n) INFO parser_defaults).

Lemma request_step : Step ([], ∅, constructed) ([0], {[1%positive]} ∪ ∅, requested).
Proof.
  apply (parser_request _ _ _ [] ∅ constructed 8 1 9 0); try done.
  - by intros q h [? _].
  - by intros ?%not_elem_of_nil.
Qed.

Lemma requested_env : turn_env (λ _ n, n) requested.
Proof.
  split; [vm_compute; lia|reflexivity| |reflexivity].
  intros s' Hs'. vm_compute in Hs'. injection Hs' as <-. vm_compute. lia.
Qed.

Lemma added_step : Step ([0], {[1%positive]} ∪ ∅, requested) ([0], ∅, added).
Proof.
  apply parser_turn; [apply requested_env| |].
  - exists 2. intros [|[|[|fuel]]] Hf; [lia..|]. vm_compute. reflexivity.
  - intros p. vm_compute. split; intros H; inversion H.
Qed.

Lemma added_env : turn_env (λ _ n, n) added.
Proof.
  split; [vm_compute; lia|reflexivity| |reflexivity].
  intros s' Hs'. vm_compute in Hs'. injection Hs' as <-. vm_compute. lia.
Qed.

Lemma runs_to_added : rtc Step ([], ∅, constructed) ([0], ∅, added).
Proof. eapply rtc_l; [apply request_step|]. eapply rtc_l; [apply added_step|]. apply rtc_refl. Qed.

(** The handler that has been added, while the loop dispatches an event to it. *)
Definition dispatching : St := after (IncRef 1%positive) added.
Definition waiting_handler : EventHandler ParseEventHandler :=
  mkEH 9 (seconds 5 + 3) true 2 (parse_new parser_defaults 0).

Definition added_handler : EventHandler ParseEventHandler :=
  mkEH 9 (seconds 5 + 3) true 1 (parse_new parser_defaults 0).

Lemma added_lookup : handlers added !! 1%positive = Some added_handler.
Proof. vm_compute. reflexivity. Qed.

Lemma dispatching_ok :
  ∃ xs, Inv (ext_plus (ext_add 1 1 (λ _, 0%Z)) (λ _, 0%Z)) ∅ xs dispatching ∧
        OneShot_inv cb_ (λ w, (calls w).*1) parse_PI [0] (λ _, 0%Z) ∅ dispatching.
Proof.
  assert (parser_ok ([0], ∅, added)) as Hok.
  { eapply (os_runs cb_ _ parse_PI); [intros; by apply parse_client|apply constructed_ok|].
    eapply parser_runs; [|by apply runs_to_added]. vm_compute. lia. }
  eapply os_dispatching; [exact Hok|apply added_lookup|set_solver].
Qed.
End ParserExample.

Lemma Read_correct_witness :
  let h := parse_new parser_defaults 0 in
  let w := mkPW ParserExample.net [] in
  wp (Read 9) (λ r s', same_request 9 (h, w) s' ∧ ∃ ds,
     received (sockets s'.2) 9 = concat ds ∧ length (concat ds) ≤ 1024 ∧
     feed 1024 [] ds = judge 1024 (concat ds) ∧
     match feed 1024 [] ds with
     | Host hp => r = Some hp
     | Malformed => r = Some []
     | Incomplete => stopped 9 r (sockets s'.2) ∧ (r = None → in_buffer s'.1 (concat ds))
     end) (h, w).
Proof.
  apply (Read_correct 9 (parse_new parser_defaults 0) (mkPW ParserExample.net []) [] []);
    [|reflexivity].
  split; [reflexivity|]. split; [reflexivity|]. split; [vm_compute; lia|reflexivity].
Defined.

Lemma Read_accepts_regex_witness :
  wp (Read 9) (λ r s', ∃ req, received (sockets s'.2) 9 = req ∧ length req ≤ 1024 ∧
     ∀ host_port, host_port ≠ [] → r = Some host_port ↔ matches req host_port)
    (parse_new parser_defaults 0, mkPW ParserExample.net []).
Proof.
  apply (Read_accepts_regex 9 (parse_new parser_defaults 0) (mkPW ParserExample.net []) [] []);
    [|reflexivity].
  split; [reflexivity|]. split; [reflexivity|]. split; [vm_compute; lia|reflexivity].
Defined.

Lemma OnEvent_correct_witness :
  ∃ xs, wp (OnEvent INFO 1 EPOLLIN) (λ _ s',
    step_post [0] (ext_add 1 1 (λ _, 0%Z)) (λ _, 0%Z) ∅ xs ParserExample.dispatching s' ∧
    event_post 1 ParserExample.waiting_handler EPOLLIN [] [] ParserExample.dispatching s')
    ParserExample.dispatching.
Proof.
  destruct ParserExample.dispatching_ok as (xs & HI & HC). exists xs.
  apply (OnEvent_correct sim_sockopt_reads INFO [0] (ext_add 1 1 (λ _, 0%Z)) (λ _, 0%Z) ∅ xs
    ParserExample.dispatching 1 ParserExample.waiting_handler EPOLLIN [] [] HI HC);
    [reflexivity|vm_compute; reflexivity|reflexivity|reflexivity|].
  split; [reflexivity|]. split; [reflexivity|]. split; [vm_compute; lia|reflexivity].
Defined.

Lemma request_answered_once_witness :
  NoDup (calls (world ParserExample.added)).*1 ∧
  ∀ k, k ∈ [0] ↔ k ∈ (calls (world ParserExample.added)).*1 ∨
    (k ∉ (calls (world ParserExample.added)).*1 ∧
     ∃ p h, live ParserExample.added ∅ p h ∧ cb_ (sub_ h) = k).
Proof.
  apply (request_answered_once sim_sockopt_reads (λ _ n, n) INFO parser_defaults
    ParserExample.constructed [0] ∅ ParserExample.added);
    [vm_compute; lia|apply ParserExample.constructed_ok|apply ParserExample.runs_to_added].
Defined.

