(* ===== verification/Connector.v ===== *)
(** * Connecting to servers (connector.h, connector.cc)

    [ConnectAsync], the handler [ConnectEventHandler], which is another
    one-shot handler (OneShot.v), and [Connector::Connect]; who owns the socket
    at each point. *)

From S2P Require Import Prelude Logging IntrusiveList Epoll EventLoop LoopTheorems OneShot Sock Addr.

(** socket(2), setsockopt(2) and connect(2): a descriptor or an error, success,
    an error. *)
Class ConnectKernel (K : Type) := {
  sys_socket : Z → K → (Z + Z) * K;
  set_nodelay : Z → K → bool * K;
  sys_connect : Z → sockaddr → K → option Z * K
}.
Class ConnectLaws (K : Type) `{ConnectKernel K, FdKernel K, SockOptKernel K} := {
  socket_ok : ∀ family k fd k', sys_socket family k = (inl fd, k') →
    (0 ≤ fd)%Z ∧ fd ∉ opened k ∧ opened k' = {[fd]} ∪ opened k;
  socket_err : ∀ k e k', sys_socket AF_INET k = (inr e, k') →
    opened k' = opened k ∧ e ∈ [EMFILE; ENFILE; ENOBUFS; ENOMEM];
  nodelay_ok : ∀ fd k, fd ∈ opened k →
    ∃ k', set_nodelay fd k = (true, k') ∧ opened k' = opened k;
  connect_opened : ∀ fd a k, opened (sys_connect fd a k).2 = opened k;
  sockopt_opened : ∀ fd k, opened (getsockopt_error fd k).2 = opened k
}.

Section connector.
Context {K EK PQ : Type} `{ConnectLaws K} `{!FdLaws K} `{!SockOptLaws K} `{EpollLaws EK}
  `{PipeLaws PQ ptr}.

(** connector.h: [Connector::Options]. *)
Definition connect_timeout : Duration := seconds 10.

(** The fields of [ConnectEventHandler]; [conn_cb] names the callback. *)
Record ConnectEventHandler := mkConnect { conn_cb : nat }.

(** The kernel's sockets and the calls of callbacks so far. *)
Record connector_world := mkCW { net : K; connected : list (nat * Z) }.

Abbreviation St := (EventLoop.St ConnectEventHandler connector_world EK PQ).

Definition on_net {A} (m : M K A) : M connector_world A := zoom net (λ k w, mkCW k (connected w)) m.
Definition run_cb (cb : nat) (fd : Z) : M connector_world unit :=
  modify (λ w, mkCW (net w) (connected w ++ [(cb, fd)])).

(** An operand of [LOG(INFO)], evaluated when the level is enabled. *)
Definition log_info_operand {S} (min_lvl : Severity) (m : M S unit) : M S unit :=
  when (severity_value min_lvl <=? severity_value INFO)%Z m.

(** connector.cc: [ConnectAsync]. *)
Definition ConnectAsync (min_lvl : Severity) (addr : addrinfo) : M K Z :=
  r ← (λ k, Done (sys_socket (ai_family addr) k));
  match r with
  | inr err =>
      CHECK "errno == EMFILE || errno == ENFILE || errno == ENOBUFS || errno == ENOMEM"
        ((err =? EMFILE) || (err =? ENFILE) || (err =? ENOBUFS) || (err =? ENOMEM))%Z ;;
      mret (-1)%Z
  | inl fd =>
      log_info_operand min_lvl (IpPort addr ;; mret tt) ;;
      ok ← (λ k, Done (set_nodelay fd k));
      CHECK "setsockopt(fd, IPPROTO_TCP, TCP_NODELAY) == 0" ok ;;
      a ← deref "addr.ai_addr" (λ _, ai_addr addr);
      r ← (λ k, Done (sys_connect fd a k));
      match r with
      | Some err =>
          if negb (err =? EINPROGRESS)%Z then close_checked fd ;; mret (-1)%Z else mret fd
      | None => mret fd
      end
  end.

(** connector.cc: what [ConnectEventHandler::Finish] does after [Remove]. *)
Definition conn_finished (err : Z) (fd : Z) (h : ConnectEventHandler) : M connector_world unit :=
  if (err =? 0)%Z then run_cb (conn_cb h) fd
  else on_net (close_checked fd) ;; run_cb (conn_cb h) (-1).

Definition conn_delete (x : ConnectEventHandler) : M connector_world unit := mret tt.

(** connector.cc: [ConnectEventHandler::Finish]. *)
Definition ConnFinish (p : ptr) (err : Z) : M St unit :=
  Finish_with conn_delete p (conn_finished err).

(** connector.cc: [ConnectEventHandler::OnEvent]. *)
Definition ConnOnEvent (p : ptr) (events : Z) : M St unit :=
  h ← handler p;
  if HasBits events EPOLLERR || HasBits events EPOLLOUT then
    err ← on_world (on_net (SockError (fd_ h)));
    ConnFinish p err
  else mret tt.

(** connector.cc: [ConnectEventHandler::OnTimeout]. *)
Definition ConnOnTimeout (p : ptr) : M St unit := ConnFinish p ETIME.

(** connector.cc: [Connector::Connect]; [p] is the address of the new handler. *)
Definition Connect (min_lvl : Severity) (p : ptr) (addr : addrinfo) (cb : nat) : M St unit :=
  fd ← on_world (on_net (ConnectAsync min_lvl addr));
  if (fd <? 0)%Z then on_world (run_cb cb fd)
  else create EPOLLOUT p fd (mkConnect cb).

(** ** Specifications *)
Abbreviation conn_results := (λ w, (connected w).*1).

(** A handler owns its socket. *)
Definition conn_PI (fd : Z) (h : ConnectEventHandler) (w : connector_world) : Prop :=
  fd ∈ opened (net w).

Abbreviation Connecting := (OneShot_inv conn_cb conn_results conn_PI).

Lemma ConnectAsync_wp min_lvl addr Q k :
  ipv4 addr → ai_family addr = AF_INET →
  (∀ fd k', (0 ≤ fd)%Z → fd ∉ opened k → opened k' = {[fd]} ∪ opened k → Q fd k') →
  (∀ k', opened k' = opened k → Q (-1)%Z k') →
  wp (ConnectAsync min_lvl addr) Q k.
Proof.
  intros Haddr Hfam Hok Herr. unfold ConnectAsync. rewrite Hfam. apply wp_bind. unfold wp at 1.
  destruct (sys_socket AF_INET k) as [[fd|e] k1] eqn:Es.
  2: { destruct (socket_err _ _ _ Es) as [Ho He]. wp_steps; [|by apply Herr].
       rewrite !elem_of_cons in He. destruct He as [->|[->|[->|[->|He]]]]; try done. set_solver. }
  destruct (socket_ok _ _ _ _ Es) as (Hpos & Hnew & Ho).
  apply wp_bind. apply (wp_mono _ (λ _ k2, k2 = k1)).
  { apply wp_when; [|done]. intros _. apply wp_bind, IpPort_wp; [done|]. by intros. }
  intros [] ? ->. apply wp_bind. unfold wp at 1.
  destruct (nodelay_ok fd k1) as (k2 & -> & Ho2); [set_solver|].
  apply wp_bind, wp_CHECK; [done|]. destruct Haddr as (a & Ha & _). rewrite Ha.
  apply wp_bind. eapply wp_deref; [done|]. apply wp_bind. unfold wp at 1.
  pose proof (connect_opened fd a k2) as Ho3.
  destruct (sys_connect fd a k2) as [[e|] k3]; cbn in Ho3; [destruct (negb _)|].
  - apply wp_bind, close_checked_wp; [set_solver|]. intros k4 _ Ho4. apply wp_ret, Herr.
    rewrite Ho4, Ho3, Ho2, Ho. clear -Hnew. set_solver.
  - apply wp_ret, Hok; [done..|]. congruence.
  - apply wp_ret, Hok; [done..|]. congruence.
Qed.

(** What [Finish] does to the socket: kept and handed over without an error,
    closed with one. *)
Definition conn_done (p : ptr) (h : EventHandler ConnectEventHandler) (err : Z) (s s' : St) : Prop :=
  ¬ registered s' p ∧
  if (err =? 0)%Z
  then connected (world s') = connected (world s) ++ [(conn_cb (sub_ h), fd_ h)] ∧
       opened (net (world s')) = opened (net (world s))
  else connected (world s') = connected (world s) ++ [(conn_cb (sub_ h), (-1)%Z)] ∧
       opened (net (world s')) = opened (net (world s)) ∖ {[fd_ h]}.

Definition conn_step (ks : list nat) (tmp own : ptr → Z) (news : gset ptr) (xs : list ptr)
    (s s' : St) : Prop :=
  ∃ xs', Inv (ext_plus tmp own) news xs' s' ∧ Connecting ks own news s' ∧
    pipe_ s' = pipe_ s ∧ timeout_ s' = timeout_ s ∧ clk s' = clk s ∧ sublist xs' xs ∧
    ∀ q, q ∈ xs' → deadline_ <$> handlers s' !! q = deadline_ <$> handlers s !! q.

Lemma ConnFinish_wp ks tmp own news xs s p h err :
  Inv (ext_plus tmp own) news xs s → Connecting ks own news s →
  (0 < tmp p)%Z → handlers s !! p = Some h → event_loop_ h = true →
  wp (ConnFinish p err) (λ _ s', conn_step ks tmp own news xs s s' ∧ conn_done p h err s s') s.
Proof.
  intros HI HC Htmp Hp Hev.
  destruct (os_live _ _ _ _ _ _ _ HC p h) as [_ Hopen]; [by split; [|left]|]. unfold conn_PI in Hopen.
  eapply Finish_with_wp with (R := λ w, if (err =? 0)%Z
    then connected w = connected (world s) ++ [(conn_cb (sub_ h), fd_ h)] ∧
         opened (net w) = opened (net (world s))
    else connected w = connected (world s) ++ [(conn_cb (sub_ h), (-1)%Z)] ∧
         opened (net w) = opened (net (world s)) ∖ {[fd_ h]}); [done| |done..| |].
  - eapply OneShot_weaken; [done|]. by right.
  - unfold conn_finished. destruct (err =? 0)%Z.
    + apply wp_modify. cbn. by rewrite fmap_app.
    + apply wp_bind, wp_zoom, close_checked_wp; [done|]. intros k' _ Ho. apply wp_modify. cbn.
      rewrite fmap_app. split_and!; [done..|]. intros fd x Hne. unfold conn_PI. cbn. set_solver.
  - intros s' xs' HI' HC' Hpi Hto Hck Hsub Hhs HR Hreg. split; [|by split].
    exists xs'. split_and!; try done. intros q Hq. by rewrite Hhs.
Qed.

Lemma ConnOnEvent_wp ks tmp own news xs s p h evs :
  Inv (ext_plus tmp own) news xs s → Connecting ks own news s →
  (0 < tmp p)%Z → handlers s !! p = Some h → event_loop_ h = true →
  wp (ConnOnEvent p evs) (λ _ s', conn_step ks tmp own news xs s s' ∧
    if HasBits evs EPOLLERR || HasBits evs EPOLLOUT
    then ∃ err k, getsockopt_error (fd_ h) (net (world s)) = (Some (err, 4%Z), k) ∧ conn_done p h err s s'
    else s' = s) s.
Proof.
  intros HI HC Htmp Hp Hev. unfold ConnOnEvent. apply wp_bind. eapply wp_handler; [done|].
  destruct (HasBits evs EPOLLERR || HasBits evs EPOLLOUT).
  2: { apply wp_ret. split; [|done]. exists xs. by split_and!. }
  apply wp_bind, wp_zoom, wp_zoom, SockError_wp. intros err k Hk.
  pose proof (sockopt_opened (fd_ h) (net (world s))) as Ho. rewrite Hk in Ho. cbn in Ho.
  eapply wp_mono.
  - apply (ConnFinish_wp ks tmp own news xs _ p h); try done; [by apply Inv_world|].
    eapply OneShot_frame; cbn; try done; [|by intros q h' ?; exists h'|congruence].
    intros q hq _. unfold conn_PI. cbn. by rewrite Ho.
  - intros [] s' [Hstep Hdone]. split; [done|]. exists err, k. split; [done|].
    unfold conn_done in *. cbn in *. by rewrite Ho in Hdone.
Qed.

(** C35: who owns the socket when the connection attempt ends: the handler calls
    its callback once and is not registered any more; if the socket has no
    error ([SO_ERROR]), the callback gets the open socket; if it has one, or
    the attempt has timed out, the handler closes the socket (exactly once: it
    was open) and the callback gets -1. Other events do nothing. *)
Theorem connect_attempt_ends ks tmp own news xs s p h evs :
  Inv (ext_plus tmp own) news xs s → Connecting ks own news s →
  (0 < tmp p)%Z → handlers s !! p = Some h → event_loop_ h = true →
  fd_ h ∈ opened (net (world s)) ∧
  wp (ConnOnEvent p evs) (λ _ s',
    if HasBits evs EPOLLERR || HasBits evs EPOLLOUT
    then ∃ err k, getsockopt_error (fd_ h) (net (world s)) = (Some (err, 4%Z), k) ∧ conn_done p h err s s'
    else s' = s) s ∧
  wp (ConnOnTimeout p) (λ _ s', conn_done p h ETIME s s') s.
Proof.
  intros HI HC Htmp Hp Hev. split_and!.
  - by destruct (os_live _ _ _ _ _ _ _ HC p h) as [_ ?]; [split; [|left]|].
  - eapply wp_mono; [by apply (ConnOnEvent_wp ks tmp own news xs s p h)|]. by intros [] s' [_ ?].
  - eapply wp_mono; [by apply (ConnFinish_wp ks tmp own news xs s p h)|]. by intros [] s' [_ ?].
Qed.

Lemma connect_client ks :
  LoopClient conn_delete ConnOnEvent ConnOnTimeout (add_later EPOLLOUT) (Connecting ks).
Proof.
  apply OneShot_client; [done|..].
  - intros e tmp own news xs s p h HI HC Htmp Hp Hev.
    eapply wp_mono; [by apply (ConnOnEvent_wp ks tmp own news xs s p h)|]. by intros [] s' [? _].
  - intros tmp own news xs s p h HI HC Htmp Hp Hev.
    eapply wp_mono; [by apply (ConnFinish_wp ks tmp own news xs s p h)|]. by intros [] s' [? _].
Qed.

(** ** Requests *)

(** A new callback at a free address; the loop's pipe is a descriptor of this
    process. *)
Definition new_attempt (p : ptr) (cb : nat) (news : gset ptr) (s : St) : Prop :=
  handlers s !! p = None ∧ pipe_fd s ∈ opened (net (world s)) ∧
  cb ∉ conn_results (world s) ∧ ∀ q h, live s news q h → conn_cb (sub_ h) ≠ cb.

Lemma attempt_frame ks own news s p cb k :
  Connecting ks own news s → new_attempt p cb news s → opened (net (world s)) ⊆ opened k →
  Connecting ks own news (set_world (mkCW k (connected (world s))) s).
Proof.
  intros HC _ Hsub. eapply OneShot_frame; cbn; try done; [|by intros q h' ?; exists h'|congruence].
  intros q hq _. unfold conn_PI. cbn. set_solver.
Qed.

(** [R]: what else holds of the socket and the kernel after [ConnectAsync]. *)
Lemma Connect_wp min_lvl ks own news xs s t p addr cb (R : Z → K → Prop) :
  Inv own news xs s → Connecting ks own news s → new_attempt p cb news s → t ≠ loop_ s →
  ipv4 addr → ai_family addr = AF_INET → wp (ConnectAsync min_lvl addr) R (net (world s)) →
  wp (Connect min_lvl p addr cb) (λ _ s', pipe_fd s' = pipe_fd s ∧ loop_ s' = loop_ s ∧ (
    (connected (world s') = connected (world s) ++ [(cb, (-1)%Z)] ∧ handlers s' = handlers s ∧
     opened (net (world s')) = opened (net (world s)) ∧ R (-1)%Z (net (world s'))) ∨
    (connected (world s') = connected (world s) ∧ ∃ fd,
     handlers s' = <[p := mkEH fd 0 false 0 (mkConnect cb)]> (handlers s) ∧ (0 ≤ fd)%Z ∧
     fd ∉ opened (net (world s)) ∧ opened (net (world s')) = {[fd]} ∪ opened (net (world s)) ∧
     R fd (net (world s')) ∧ pending (pipe_ s') = pending (pipe_ s) ++ [p]))) (as_thread t s).
Proof.
  intros HI HC Hnew Ht Haddr Hfam HR. pose proof Hnew as (Hp & Hpf & Hcb & Hcbs).
  unfold Connect. apply wp_bind, wp_zoom, wp_zoom.
  eapply wp_mono; [apply wp_and; [exact HR|apply (ConnectAsync_wp min_lvl addr (λ fd k,
    ((0 ≤ fd)%Z ∧ fd ∉ opened (net (world s)) ∧ opened k = {[fd]} ∪ opened (net (world s))) ∨
    (fd = (-1)%Z ∧ opened k = opened (net (world s))))); [done..|auto|auto]]|].
  intros fd k [HRk [(Hpos & Hfd & Ho)|[-> Ho]]].
  - rewrite (proj2 (Z.ltb_ge _ _)) by done.
    set (s1 := set_world (mkCW k (connected (world s))) s).
    change (set_world _ (as_thread t s)) with (as_thread t s1).
    eapply create_wp; [by apply Inv_world|eapply attempt_frame; [done..|set_solver]| |done|].
    + split; [done| | |cbn; set_solver].
      * split; [done|]. split; [set_solver|]. intros q h Hl Heq.
        destruct (os_live _ _ _ _ _ _ _ HC q h Hl) as [_ Hq]. unfold conn_PI in Hq. set_solver.
      * split; [done|]. intros q h Hl. by eapply Hcbs.
    + intros q' Hq' s2 _ _. do 2 (split; [done|]). right. split; [done|]. exists fd. by split_and!.
  - apply wp_zoom, wp_modify. do 2 (split; [done|]). left. by split_and!.
Qed.


(** ** Runs *)
Context (vector_capacity : nat → nat → nat) (min_lvl : Severity).

Abbreviation ConnTurn :=
  (Loop_turn conn_delete ConnOnEvent ConnOnTimeout (add_later EPOLLOUT) vector_capacity).
Abbreviation cconf := (list nat * gset ptr * St)%type.

(** A request from another thread, a turn, time, and what the rest of the program
    does to its descriptors: it opens some and closes those it owns. *)
Inductive connector_step : cconf → cconf → Prop :=
  | connector_request ks news s t p addr cb s' news' :
      t ≠ loop_ s → new_attempt p cb news s → ipv4 addr → ai_family addr = AF_INET →
      Connect min_lvl p addr cb (as_thread t s) = Done (tt, s') →
      (∀ q, q ∈ news' ↔ q ∈ pending (pipe_ s')) →
      connector_step (ks, news, s) (cb :: ks, news', as_thread (loop_ s) s')
  | connector_turn ks news news' s s' :
      turn_env vector_capacity s →
      (∃ n, ∀ fuel, n < fuel → ConnTurn fuel s = Done (tt, s')) →
      (∀ p, p ∈ news' ↔ p ∈ pending (pipe_ s')) →
      connector_step (ks, news, s) (ks, news', s')
  | connector_env ks news s c k :
      (time (clk s) ≤ time c)%Z →
      (∀ p h, live s news p h → fd_ h ∈ opened k) →
      connector_step (ks, news, s)
        (ks, news, set_world (mkCW k (connected (world s))) (set_clk c s)).

Definition connector_ok : cconf → Prop := os_ok conn_cb conn_results conn_PI.

Abbreviation cstep := (os_step conn_cb conn_results conn_PI conn_delete ConnOnEvent ConnOnTimeout
  vector_capacity EPOLLOUT).

Lemma connector_os x y : connector_ok x → cstep x y → connector_ok y.
Proof. apply os_step_ok. apply connect_client. Qed.

Lemma request_ok ks news s t p addr cb s' news' :
  connector_ok (ks, news, s) → t ≠ loop_ s → new_attempt p cb news s → ipv4 addr →
  ai_family addr = AF_INET → Connect min_lvl p addr cb (as_thread t s) = Done (tt, s') →
  (∀ q, q ∈ news' ↔ q ∈ pending (pipe_ s')) →
  connector_ok (cb :: ks, news', as_thread (loop_ s) s').
Proof.
  intros Hok Ht Hnew Haddr Hfam Hs' Hn. pose proof Hok as (xs & HI & HC). cbn in HI, HC.
  pose proof Hnew as (Hp & Hpf & Hcb & Hcbs). pose proof (inv_thread _ _ _ _ HI) as Hth.
  assert (∀ k, opened (net (world s)) ⊆ opened k →
    connector_ok (ks, news, set_world (mkCW k (connected (world s))) s)) as Henv.
  { intros k Hk. eexists. split; [by apply Inv_world|by eapply attempt_frame]. }
  assert (wp (Connect min_lvl p addr cb)
    (λ _ s', ∃ news', connector_ok (cb :: ks, news', as_thread (loop_ s) s')) (as_thread t s)) as Hw.
  { unfold Connect. apply wp_bind, wp_zoom, wp_zoom, ConnectAsync_wp; [done..| |].
    - intros fd k Hpos Hfd Ho. rewrite (proj2 (Z.ltb_ge _ _)) by done.
      destruct (Henv k ltac:(set_solver)) as (xs1 & HI1 & HC1). cbn in HI1, HC1.
      set (s1 := set_world (mkCW k (connected (world s))) s) in *.
      change (set_world _ (as_thread t s)) with (as_thread t s1).
      eapply create_wp; [done|done| |done|].
      + split; [done| | |unfold conn_PI; cbn; set_solver].
        * split; [done|]. split; [set_solver|]. intros q h Hl Heq.
          destruct (os_live _ _ _ _ _ _ _ HC q h Hl) as [_ Hq]. unfold conn_PI in Hq. set_solver.
        * split; [done|]. intros q h Hl. by eapply Hcbs.
      + intros q' _ s2 HI2 HC2. exists ({[p]} ∪ news). change (loop_ s) with (loop_ s2).
        rewrite as_thread_back by apply HI2. by exists xs1.
    - intros k Ho. apply wp_zoom, wp_modify. exists news.
      specialize (Henv k ltac:(set_solver)). change (loop_ s) with (loop_ (set_world
        (mkCW k (connected (world s) ++ [(cb, (-1)%Z)])) s)).
      change (set_world _ (set_world _ (as_thread t s))) with
        (as_thread t (set_world (mkCW k (connected (world s) ++ [(cb, (-1)%Z)])) s)).
      rewrite as_thread_back by done.
      change (set_world _ s) with (set_world (mkCW k (connected (world s) ++ [(cb, (-1)%Z)]))
        (set_world (mkCW k (connected (world s))) s)).
      eapply connector_os; [exact Henv|]. apply os_at_once; cbn; [by rewrite fmap_app|done|done|done]. }
  unfold wp in Hw. rewrite Hs' in Hw. destruct Hw as [news2 Hw]. by eapply (os_ok_same conn_cb).
Qed.

Lemma connector_step_ok x y : connector_ok x → connector_step x y → connector_ok y.
Proof.
  intros Hx Hxy. destruct Hxy; [by eapply request_ok|eapply connector_os; [done|]..].
  - by apply os_turn.
  - apply os_env; [done..|]. intros q hq Hl _. unfold conn_PI; cbn. eauto.
Qed.

(** C22: every attempt to connect ends exactly once. In every run of the connector,
    from its construction, no callback is called twice, and the callbacks of
    the requests so far are those that have been called and those whose
    handlers live, which own an open socket each, no two the same. *)
Theorem connect_answered_once s0 ks news s :
  connector_ok ([], ∅, s0) → rtc connector_step ([], ∅, s0) (ks, news, s) →
  NoDup (connected (world s)).*1 ∧
  (∀ k, k ∈ ks ↔ k ∈ (connected (world s)).*1 ∨
    (k ∉ (connected (world s)).*1 ∧ ∃ p h, live s news p h ∧ conn_cb (sub_ h) = k)) ∧
  ∀ p q hp hq, live s news p hp → live s news q hq →
    fd_ hp ∈ opened (net (world s)) ∧ (fd_ hp = fd_ hq → p = q).
Proof.
  intros Hok Hrun. assert (connector_ok (ks, news, s)) as Hok'.
  { eapply (rtc_invariant connector_step connector_ok); [exact Hrun|exact Hok|].
    apply connector_step_ok. }
  destruct (os_ok_once _ _ _ _ _ _ Hok') as [Honce Hks]. split; [done|]. split; [done|].
  intros p q hp hq Hp Hq. destruct Hok' as (xs & HI & HC). cbn in *. split.
  - by destruct (os_live _ _ _ _ _ _ _ HC p hp Hp).
  - by eapply os_fd.
Qed.
End connector.

(** ** Sockets that keep the laws *)

(** The open descriptors, the pending errors, and the addresses that can be
    reached. *)
Record sim_conn := mkSimConn { sim_opened : gset Z; sim_errors : Z → Z; reachable : sockaddr → bool }.

#[export] Instance sim_conn_fds : FdKernel sim_conn := {|
  sys_close := λ fd k, if decide (fd ∈ sim_opened k)
    then (true, mkSimConn (sim_opened k ∖ {[fd]}) (sim_errors k) (reachable k)) else (false, k);
  opened := sim_opened
|}.
#[export] Instance sim_conn_fd_laws : FdLaws sim_conn.
Proof.
  split; cbn; intros fd k Hfd.
  - rewrite decide_True by done. by eexists.
  - by rewrite decide_False by done.
Qed.
#[export] Instance sim_conn_sockopt : SockOptKernel sim_conn := {|
  getsockopt_error := λ fd k, (Some (sim_errors k fd, 4%Z), k) |}.
#[export] Instance sim_conn_sockopt_laws : SockOptLaws sim_conn.
Proof. split. intros fd k. by eexists _, _. Qed.
#[export] Instance sim_conn_kernel : ConnectKernel sim_conn := {|
  sys_socket := λ family k, let fd := sim_fresh (sim_opened k) in
    (inl fd, mkSimConn ({[fd]} ∪ sim_opened k) (sim_errors k) (reachable k));
  set_nodelay := λ fd k, (true, k);
  sys_connect := λ fd a k, (Some (if reachable k a then EINPROGRESS else 101%Z), k)
|}.
#[export] Instance sim_conn_laws : ConnectLaws sim_conn.
Proof.
  split; cbn; try done.
  - intros family k fd k' [= <- <-]. by destruct (sim_fresh_new (sim_opened k)).
  - intros fd k _. by eexists.
Qed.

Module ConnectorExample.
Abbreviation St := (EventLoop.St ConnectEventHandler (connector_world (K:=sim_conn)) sim_epoll (list ptr)).

Definition localhost : addrinfo := mkAddrinfo AF_INET (Some (mkSockaddr AF_INET (127, 0, 0, 1)%N 0xBB01%N)).

Definition start : St :=
  mkSt ∅ (mkL ∅ list_new) (EPoll_new (mkSimEpoll ∅ [[3%Z]; [4%Z]])) (mkClock 0 [3%N; 4%N]) []
    3 7 7 0 (mkCW (mkSimConn {[3%Z]} (λ _, 0%Z) (λ _, true)) []).

Definition turn := Loop_turn conn_delete ConnOnEvent ConnOnTimeout (add_later EPOLLOUT) (λ _ n, n) 10.
Definition constructed : St := after (EventLoop_new connect_timeout 7) start.
Definition requested : St := as_thread 7 (after (Connect INFO 1 localhost 0) (as_thread 8 constructed)).
Definition added : St := after turn requested.
Definition ended : St := after turn added.

Example it_connects : connected (world ended) = [(0, 4%Z)].
Proof. vm_compute. reflexivity. Qed.

Lemma conn_constructed_ok : connector_ok ([], ∅, constructed).
Proof.
  apply os_init; [|reflexivity..]. pattern constructed; apply wp_after.
  eapply EventLoop_new_wp; [by repeat split|done..].
Qed.

Abbreviation Step := (connector_step (λ _ n, n) INFO).

Lemma first_attempt : new_attempt 1 0 ∅ constructed.
Proof.
  split; [reflexivity|]. split; [by apply (bool_decide_unpack _)|].
  split; [by intros ?%not_elem_of_nil|]. by intros q h [? _].
Qed.

Lemma conn_request_step : Step ([], ∅, constructed) ([0], {[1%positive]}, requested).
Proof.
  apply (connector_request _ _ [] ∅ constructed 8 1 localhost 0); try done; [apply first_attempt|by eexists|].
  intros q. vm_compute pending. set_solver.
Qed.

Lemma conn_requested_env : turn_env (λ _ n, n) requested.
Proof.
  split; [vm_compute; lia|reflexivity| |reflexivity].
  intros s' Hs'. vm_compute in Hs'. injection Hs' as <-. vm_compute. lia.
Qed.

Lemma conn_added_step : Step ([0], {[1%positive]}, requested) ([0], ∅, added).
Proof.
  apply connector_turn; [apply conn_requested_env| |].
  - exists 2. intros [|[|[|fuel]]] Hf; [lia..|]. vm_compute. reflexivity.
  - intros p. vm_compute. split; intros H; inversion H.
Qed.

Lemma conn_runs_to_added : rtc Step ([], ∅, constructed) ([0], ∅, added).
Proof. eapply rtc_l; [apply conn_request_step|]. eapply rtc_l; [apply conn_added_step|]. apply rtc_refl. Qed.

(** The handler that has been added, while the loop dispatches an event to it. *)
Definition dispatching : St := after (IncRef 1%positive) added.
Definition waiting_handler : EventHandler ConnectEventHandler :=
  mkEH 4 (connect_timeout + 3) true 2 (mkConnect 0).

Definition added_handler : EventHandler ConnectEventHandler :=
  mkEH 4 (connect_timeout + 3) true 1 (mkConnect 0).

Lemma conn_added_lookup : handlers added !! 1%positive = Some added_handler.
Proof. vm_compute. reflexivity. Qed.

Lemma conn_dispatching_ok :
  ∃ xs, Inv (ext_plus (ext_add 1 1 (λ _, 0%Z)) (λ _, 0%Z)) ∅ xs dispatching ∧
        OneShot_inv conn_cb (λ w, (connected w).*1) conn_PI [0] (λ _, 0%Z) ∅ dispatching.
Proof.
  assert (connector_ok ([0], ∅, added)) as Hok.
  { eapply connector_step_ok; [|apply conn_added_step]. eapply connector_step_ok; [|apply conn_request_step].
    apply conn_constructed_ok. }
  eapply os_dispatching; [exact Hok|apply conn_added_lookup|set_solver].
Qed.
End ConnectorExample.

Lemma connect_attempt_ends_witness :
  fd_ ConnectorExample.waiting_handler ∈ opened (net (world ConnectorExample.dispatching)) ∧
  wp (ConnOnEvent 1 EPOLLOUT) (λ _ s', ∃ err k,
    getsockopt_error 4 (net (world ConnectorExample.dispatching)) = (Some (err, 4%Z), k) ∧
    conn_done 1 ConnectorExample.waiting_handler err ConnectorExample.dispatching s')
    ConnectorExample.dispatching ∧
  wp (ConnOnTimeout 1) (λ _ s', conn_done 1 ConnectorExample.waiting_handler ETIME
    ConnectorExample.dispatching s') ConnectorExample.dispatching.
Proof.
  destruct ConnectorExample.conn_dispatching_ok as (xs & HI & HC).
  apply (connect_attempt_ends [0] (ext_add 1 1 (λ _, 0%Z)) (λ _, 0%Z) ∅ xs
    ConnectorExample.dispatching 1 ConnectorExample.waiting_handler EPOLLOUT HI HC);
    [reflexivity|vm_compute; reflexivity|reflexivity].
Defined.


Lemma connect_answered_once_witness :
  NoDup (connected (world ConnectorExample.added)).*1 ∧
  (∀ k, k ∈ [0] ↔ k ∈ (connected (world ConnectorExample.added)).*1 ∨
    (k ∉ (connected (world ConnectorExample.added)).*1 ∧
     ∃ p h, live ConnectorExample.added ∅ p h ∧ conn_cb (sub_ h) = k)) ∧
  ∀ p q hp hq, live ConnectorExample.added ∅ p hp → live ConnectorExample.added ∅ q hq →
    fd_ hp ∈ opened (net (world ConnectorExample.added)) ∧ (fd_ hp = fd_ hq → p = q).
Proof.
  apply (connect_answered_once (λ _ n, n) INFO ConnectorExample.constructed [0] ∅
    ConnectorExample.added); [apply ConnectorExample.conn_constructed_ok|apply ConnectorExample.conn_runs_to_added].
Defined.
