(* ===== verification/Buffer.v ===== *)
(** * The forwarder's buffers (forwarder.cc, class Buffer)

    A buffer is a pipe of the kernel: bytes go from a socket into the pipe and
    from the pipe into another socket with splice(2). The kernel's side is a
    parameter that is observed through a [view]. *)

From S2P Require Import Prelude Sock.

(** What can be observed of the kernel: the open descriptors; for each writing
    end of a pipe its reading end; for each reading end the bytes in the pipe
    and its capacity; for each socket the bytes that have been taken from it
    and given to it, and the number of bytes that its peer will still send; and
    how many calls of splice(2) have failed, other than by a plain [EAGAIN], so
    that bytes may have been lost. *)
Record view := mkView {
  v_opened : gset Z;
  v_reader : gmap Z Z;
  v_content : gmap Z bytes;
  v_cap : gmap Z Z;
  v_taken : gmap Z bytes;
  v_given : gmap Z bytes;
  v_supply : gmap Z nat;
  v_failures : nat
}.

Definition bytes_at (m : gmap Z bytes) (fd : Z) : bytes := default [] (m !! fd).

Definition with_opened (o : gset Z) (v : view) : view :=
  mkView o (v_reader v) (v_content v) (v_cap v) (v_taken v) (v_given v) (v_supply v) (v_failures v).
Definition with_content (r : Z) (d : bytes) (v : view) : view :=
  mkView (v_opened v) (v_reader v) (<[r := d]> (v_content v)) (v_cap v) (v_taken v) (v_given v) (v_supply v) (v_failures v).
Definition with_cap (r c : Z) (v : view) : view :=
  mkView (v_opened v) (v_reader v) (v_content v) (<[r := c]> (v_cap v)) (v_taken v) (v_given v) (v_supply v) (v_failures v).
Definition with_pipe (r w : Z) (v : view) : view :=
  mkView ({[r; w]} ∪ v_opened v) (<[w := r]> (delete r (v_reader v))) (<[r := []]> (v_content v)) (v_cap v)
    (v_taken v) (v_given v) (v_supply v) (v_failures v).
(** Taking [d] from the socket [fd]; giving [d] to it. *)
Definition with_taken (fd : Z) (d : bytes) (v : view) : view :=
  mkView (v_opened v) (v_reader v) (v_content v) (v_cap v)
    (<[fd := bytes_at (v_taken v) fd ++ d]> (v_taken v)) (v_given v)
    (<[fd := default 0 (v_supply v !! fd) - length d]> (v_supply v)) (v_failures v).
Definition with_given (fd : Z) (d : bytes) (v : view) : view :=
  mkView (v_opened v) (v_reader v) (v_content v) (v_cap v) (v_taken v)
    (<[fd := bytes_at (v_given v) fd ++ d]> (v_given v)) (v_supply v) (v_failures v).
Definition with_failure (v : view) : view :=
  mkView (v_opened v) (v_reader v) (v_content v) (v_cap v) (v_taken v) (v_given v) (v_supply v) (S (v_failures v)).

(** Bytes in the pipe, and capacity, by its reading end. *)
Abbreviation piped v r := (bytes_at (v_content v) r).
Abbreviation supply v fd := (default 0 (v_supply v !! fd)).

(** pipe(2), fcntl(2), write(2), splice(2) (both with [SPLICE_F_NONBLOCK]),
    ioctl(2) [FIONREAD]: a number or an error. *)
Class PipeKernel (K : Type) := {
  sys_pipe : K → (Z * Z + Z) * K;
  set_pipe_sz : Z → Z → K → Z * K;
  get_pipe_sz : Z → K → Z;
  sys_write : Z → bytes → K → (Z + Z) * K;
  splice : Z → Z → Z → K → (Z + Z) * K;
  fionread : Z → K → option Z;
  view_of : K → view
}.

(** What the forwarder relies on and the manual does not promise: the program
    may give its pipes the size it asks for (the size is rounded up to a power
    of two, at least a page; [EPERM] is documented above the user's limit, and
    [Init] would abort), and a peer does not send without end while one event
    is handled. *)
Class PipeAssumptions (K : Type) `{PipeKernel K, FdKernel K} := {
  size_granted : ∀ r n k, r ∈ v_opened (view_of k) → (0 < n < 2 ^ 31 - 1)%Z →
    ∃ c k', set_pipe_sz r n k = (c, k') ∧ (Z.max n 4096 ≤ c < 2 ^ 31)%Z ∧
      view_of k' = with_cap r c (view_of k);
  finite_supply : ∀ fd w r n k m k', splice fd w n k = (inl m, k') →
    v_reader (view_of k) !! w = Some r → (m ≤ Z.of_nat (supply (view_of k) fd))%Z
}.

Class PipeKernelLaws (K : Type) `{PipeKernel K, FdKernel K} := {
  pipe_assumptions :: PipeAssumptions K;
  opened_view : ∀ k, opened k = v_opened (view_of k);
  close_view : ∀ fd k, fd ∈ v_opened (view_of k) →
    ∃ k', sys_close fd k = (true, k') ∧ view_of k' = with_opened (v_opened (view_of k) ∖ {[fd]}) (view_of k);
  pipe_made : ∀ k r w k', sys_pipe k = (inl (r, w), k') →
    (0 ≤ r)%Z ∧ (0 ≤ w)%Z ∧ r ≠ w ∧ r ∉ v_opened (view_of k) ∧ w ∉ v_opened (view_of k) ∧
    view_of k' = with_pipe r w (view_of k);
  pipe_failed : ∀ k e k', sys_pipe k = (inr e, k') → view_of k' = view_of k ∧ (e = EMFILE ∨ e = ENFILE);
  get_size : ∀ fd r k, fd ∈ v_opened (view_of k) →
    (fd = r ∧ v_reader (view_of k) !! r = None) ∨ v_reader (view_of k) !! fd = Some r →
    get_pipe_sz fd k = default 0%Z (v_cap (view_of k) !! r);
  write_pipe : ∀ w r d k, d ≠ [] →
    w ∈ v_opened (view_of k) → r ∈ v_opened (view_of k) → v_reader (view_of k) !! w = Some r →
    (Z.of_nat (length (piped (view_of k) r) + length d) ≤ default 0 (v_cap (view_of k) !! r))%Z →
    ∃ k', sys_write w d k = (inl (Z.of_nat (length d)), k') ∧
      view_of k' = with_content r (piped (view_of k) r ++ d) (view_of k);
  write_nothing : ∀ fd k res k', sys_write fd [] k = (res, k') → view_of k' = view_of k;
  splice_in : ∀ fd w r n k res k', splice fd w n k = (res, k') →
    fd ∈ v_opened (view_of k) → w ∈ v_opened (view_of k) → r ∈ v_opened (view_of k) →
    v_reader (view_of k) !! w = Some r → (0 < n)%Z →
    match res with
    | inl m => (* the end of the stream, or some bytes *)
        (m = 0%Z ∧ view_of k' = view_of k) ∨
        ∃ d, d ≠ [] ∧ Z.of_nat (length d) = m ∧ (m ≤ n)%Z ∧
          view_of k' = with_content r (piped (view_of k) r ++ d) (with_taken fd d (view_of k))
    | inr e => view_of k' = if decide (e = EAGAIN) then view_of k else with_failure (view_of k)
    end;
  splice_out : ∀ r fd k res k',
    splice r fd (Z.of_nat (length (piped (view_of k) r))) k = (res, k') →
    fd ∈ v_opened (view_of k) → r ∈ v_opened (view_of k) → piped (view_of k) r ≠ [] →
    match res with
    | inl m => ∃ d rest, piped (view_of k) r = d ++ rest ∧ d ≠ [] ∧ Z.of_nat (length d) = m ∧
        view_of k' = with_content r rest (with_given fd d (view_of k))
    | inr e => (* WSL may clear the pipe *)
        (e = EAGAIN ∧ view_of k' = view_of k) ∨
        (e ≠ EAGAIN ∧ view_of k' = with_failure (view_of k)) ∨
        view_of k' = with_failure (with_content r [] (view_of k))
    end;
  fionread_ok : ∀ r k, r ∈ v_opened (view_of k) →
    fionread r k = Some (Z.of_nat (length (piped (view_of k) r)))
}.

Definition kResponse : bytes := B "HTTP/1.1 200 OK" ++ [CR; LF; CR; LF].

(** forwarder.cc: [enum class IoStatus]. *)
Inductive IoStatus := kData | kEof | kError | kNoOp.

(** forwarder.cc: [class Buffer]; [capacity_] has no value before [Init]. *)
Record Buffer := mkBuffer { capacity_ : Z; size_of : Z; pipe0 : Z; pipe1 : Z }.

Definition buffer_new (garbage : Z) : Buffer := mkBuffer garbage 0 (-1) (-1).

Section buffer.
Context {K : Type} `{PipeKernelLaws K}.
Abbreviation bst := (Buffer * K)%type.

Definition call {A} (f : K → A * K) : M bst A := λ s,
  let '(a, k) := f s.2 in Done (a, (s.1, k)).
Definition look {A} (f : K → A) : M bst A := gets (λ s, f s.2).
Definition put_buffer (f : Buffer → Buffer) : M bst unit := modify (λ s, (f s.1, s.2)).
Definition set_size_ (n : Z) (b : Buffer) : Buffer := mkBuffer (capacity_ b) n (pipe0 b) (pipe1 b).
Definition set_pipe0 (n : Z) (b : Buffer) : Buffer := mkBuffer (capacity_ b) (size_of b) n (pipe1 b).
Definition set_pipe1 (n : Z) (b : Buffer) : Buffer := mkBuffer (capacity_ b) (size_of b) (pipe0 b) n.
Definition set_capacity (c : Z) (b : Buffer) : Buffer := mkBuffer c (size_of b) (pipe0 b) (pipe1 b).

(** [CHECK(close(fd) == 0)] on one of the buffer's descriptors. *)
Definition close_fd (fd : Z) : M bst unit :=
  ok ← call (sys_close fd);
  CHECK "close(pipe) == 0" ok.

(** [std::numeric_limits<int>::max()]. *)
Definition INT_MAX : Z := 2 ^ 31 - 1.

(** forwarder.cc: [Buffer::Init]. *)
Definition Init (size_bytes : Z) : M bst bool :=
  CHECK "size_bytes > 0 && size_bytes < INT_MAX" ((0 <? size_bytes) && (size_bytes <? INT_MAX))%Z ;;
  r ← call sys_pipe;
  match r with
  | inr e =>
      CHECK "errno == EMFILE || errno == ENFILE" ((e =? EMFILE) || (e =? ENFILE))%Z ;;
      put_buffer (set_pipe0 (-1)) ;; put_buffer (set_pipe1 (-1)) ;;
      mret false
  | inl (r, w) =>
      put_buffer (set_pipe0 r) ;; put_buffer (set_pipe1 w) ;;
      c ← call (set_pipe_sz r size_bytes);
      put_buffer (set_capacity c) ;;
      CHECK "fcntl(pipe_[0], F_SETPIPE_SZ, size_bytes) > 0" (0 <? c)%Z ;;
      for_each (λ fd,
        CHECK "fd >= 0" (0 <=? fd)%Z ;;
        n ← look (get_pipe_sz fd);
        CHECK "fcntl(fd, F_GETPIPE_SZ) == capacity_" (n =? c)%Z) [r; w] ;;
      mret true
  end.

(** forwarder.cc: [~Buffer]. *)
Definition buffer_delete : M bst unit :=
  b ← gets fst;
  for_each (λ fd, when (0 <=? fd)%Z (close_fd fd)) [pipe0 b; pipe1 b].

(** forwarder.cc: [Buffer::Write]; the difference of the [int]s is converted to
    [size_t] after it has been checked not to be negative. *)
Definition Write (data : bytes) : M bst unit :=
  b ← gets fst;
  CHECK "size_ >= 0" (0 <=? size_of b)%Z ;;
  CHECK "size_ <= capacity_" (size_of b <=? capacity_ b)%Z ;;
  CHECK "data.size() <= capacity_ - size_" (Z.of_nat (length data) <=? capacity_ b - size_of b)%Z ;;
  CHECK "pipe_[1] >= 0" (0 <=? pipe1 b)%Z ;;
  r ← call (sys_write (pipe1 b) data);
  CHECK "write(pipe_[1]) == data.size()"
    (match r with inl n => n =? Z.of_nat (length data) | inr _ => false end)%Z ;;
  put_buffer (set_size_ (size_of b + Z.of_nat (length data))) ;;
  b ← gets fst;
  CHECK "size_ >= 0" (0 <=? size_of b)%Z ;;
  CHECK "size_ <= capacity_" (size_of b <=? capacity_ b)%Z.

(** forwarder.cc: [Buffer::WriteFrom]. *)
Definition WriteFrom (fd : Z) : M bst IoStatus :=
  b ← gets fst;
  CHECK "pipe_[1] >= 0" (0 <=? pipe1 b)%Z ;;
  CHECK "size_ >= 0" (0 <=? size_of b)%Z ;;
  CHECK "size_ <= capacity_" (size_of b <=? capacity_ b)%Z ;;
  if (size_of b =? capacity_ b)%Z then mret kNoOp else
  ret ← call (splice fd (pipe1 b) (capacity_ b - size_of b));
  match ret with
  | inr e =>
      if (e =? EAGAIN)%Z then mret kNoOp else
      close_fd (pipe1 b) ;; put_buffer (set_pipe1 (-1)) ;; mret kError
  | inl ret =>
      if (ret =? 0)%Z then close_fd (pipe1 b) ;; put_buffer (set_pipe1 (-1)) ;; mret kEof else
      put_buffer (set_size_ (size_of b + ret)) ;;
      b ← gets fst;
      CHECK "size_ >= 0" (0 <=? size_of b)%Z ;;
      CHECK "size_ <= capacity_" (size_of b <=? capacity_ b)%Z ;;
      mret kData
  end.

(** forwarder.cc: [Buffer::ReadTo]. *)
Definition ReadTo (fd : Z) : M bst IoStatus :=
  b ← gets fst;
  CHECK "pipe_[0] >= 0" (0 <=? pipe0 b)%Z ;;
  CHECK "size_ >= 0" (0 <=? size_of b)%Z ;;
  if (size_of b =? 0)%Z then
    if (0 <=? pipe1 b)%Z then mret kNoOp else
    close_fd (pipe0 b) ;; put_buffer (set_pipe0 (-1)) ;; mret kEof
  else
    w ← call (sys_write fd []);
    if match w with inr e => (e =? EAGAIN) || (e =? EWOULDBLOCK) | inl _ => false end%Z then mret kNoOp
    else
      ret ← call (splice (pipe0 b) fd (size_of b));
      CHECK "ret != 0" (match ret with inl n => negb (n =? 0) | inr _ => true end)%Z ;;
      match ret with
      | inr e =>
          same ← (if (e =? EAGAIN)%Z then
                    len ← look (fionread (pipe0 b));
                    CHECK "ioctl(pipe_[0], FIONREAD, &len) == 0" (bool_decide (is_Some len)) ;;
                    mret (bool_decide (len = Some (size_of b)))
                  else mret false);
          if same : bool then mret kNoOp
          else close_fd (pipe0 b) ;; put_buffer (set_pipe0 (-1)) ;; mret kError
      | inl ret =>
          put_buffer (set_size_ (size_of b - ret)) ;;
          b ← gets fst;
          CHECK "size_ >= 0" (0 <=? size_of b)%Z ;;
          CHECK "size_ <= capacity_" (size_of b <=? capacity_ b)%Z ;;
          mret kData
      end.

(** ** The invariant *)
Record buf_ok (b : Buffer) (v : view) : Prop := {
  bo_size : (0 ≤ size_of b ≤ capacity_ b)%Z;
  bo_read : (0 ≤ pipe0 b)%Z → pipe0 b ∈ v_opened v ∧
    Z.of_nat (length (piped v (pipe0 b))) = size_of b ∧ v_cap v !! pipe0 b = Some (capacity_ b);
  bo_write : (0 ≤ pipe1 b)%Z → pipe1 b ∈ v_opened v ∧
    ((0 ≤ pipe0 b)%Z → v_reader v !! pipe1 b = Some (pipe0 b));
  bo_distinct : (0 ≤ pipe0 b)%Z → pipe0 b ≠ pipe1 b
}.

(** The descriptors that a buffer owns: those that are not -1. *)
Definition nonneg (fd : Z) : gset Z := if decide (0 ≤ fd)%Z then {[fd]} else ∅.
Definition owned (b : Buffer) : gset Z := nonneg (pipe0 b) ∪ nonneg (pipe1 b).

Lemma elem_of_nonneg x fd : x ∈ nonneg fd ↔ x = fd ∧ (0 ≤ fd)%Z.
Proof. unfold nonneg. case_decide; set_solver. Qed.

(** *** Specifications *)
Lemma wp_call {A} (f : K → A * K) (Q : A → bst → Prop) b k :
  (∀ a k', f k = (a, k') → Q a (b, k')) → wp (call f) Q (b, k).
Proof. intros HQ. unfold wp, call. cbn. destruct (f k) as [a k'] eqn:E. by apply HQ. Qed.

Lemma wp_put f (Q : unit → bst → Prop) b k : Q tt (f b, k) → wp (put_buffer f) Q (b, k).
Proof. done. Qed.
Lemma wp_buffer (Q : Buffer → bst → Prop) b k : Q b (b, k) → wp (gets fst) Q (b, k).
Proof. done. Qed.
Lemma wp_look {A} (f : K → A) (Q : A → bst → Prop) b k : Q (f k) (b, k) → wp (look f) Q (b, k).
Proof. done. Qed.

Ltac buf_step :=
  lazymatch goal with
  | |- wp (put_buffer _) _ _ => apply wp_put
  | |- wp (look _) _ _ => apply wp_look
  | |- wp (gets fst) _ _ => apply wp_buffer
  | |- _ => wp_step
  end.
Ltac buf_steps := repeat (buf_step; cbn beta).

Lemma close_fd_wp fd Q b k :
  fd ∈ v_opened (view_of k) →
  (∀ k', view_of k' = with_opened (v_opened (view_of k) ∖ {[fd]}) (view_of k) → Q tt (b, k')) →
  wp (close_fd fd) Q (b, k).
Proof.
  intros Hfd HQ. unfold close_fd. destruct (close_view fd k Hfd) as (k' & Hc & Hv).
  apply wp_bind, wp_call. intros a k2 Hk2. rewrite Hc in Hk2. simplify_eq. wp_steps; [done|].
  by apply HQ.
Qed.

(** The data of a buffer. *)
Abbreviation data b v := (piped v (pipe0 b)).

Lemma Init_wp size g Q k :
  (0 < size < INT_MAX)%Z →
  (∀ b' k' r w c, b' = mkBuffer c 0 r w → (0 ≤ r)%Z → (0 ≤ w)%Z → r ≠ w →
     r ∉ v_opened (view_of k) → w ∉ v_opened (view_of k) → (Z.max size 4096 ≤ c)%Z →
     view_of k' = with_cap r c (with_pipe r w (view_of k)) → Q true (b', k')) →
  (∀ k', view_of k' = view_of k → Q false (buffer_new g, k')) →
  wp (Init size) Q (buffer_new g, k).
Proof.
  intros Hsize Hok Herr. unfold Init. apply wp_bind, wp_CHECK.
  { apply andb_true_iff. split; apply Z.ltb_lt; lia. }
  apply wp_bind, wp_call. intros [[r w]|e] k1 Hp.
  - destruct (pipe_made _ _ _ _ Hp) as (Hr & Hw & Hne & Hor & How & Hv).
    buf_steps. apply wp_call. intros c k2 Hc.
    destruct (size_granted r size k1) as (c' & k3 & Hc' & Hbound & Hv2).
    { rewrite Hv. cbn. set_solver. }
    { unfold INT_MAX in *. lia. }
    rewrite Hc' in Hc. simplify_eq. buf_steps; [apply Z.ltb_lt; lia|].
    cbn [for_each]. buf_steps; cbn.
    + by apply Z.leb_le.
    + apply Z.eqb_eq. rewrite (get_size r r); rewrite ?Hv2, ?Hv; cbn; [by rewrite lookup_insert_eq|set_solver|].
      left. by rewrite lookup_insert_ne, lookup_delete_eq.
    + by apply Z.leb_le.
    + apply Z.eqb_eq. rewrite (get_size w r); rewrite ?Hv2, ?Hv; cbn; [by rewrite lookup_insert_eq|set_solver|].
      right. apply lookup_insert_eq.
    + eapply Hok; [done|done|done|done|done|done|lia|]. by rewrite Hv2, Hv.
  - destruct (pipe_failed _ _ _ Hp) as [Hv He]. buf_steps.
    { apply orb_true_iff. destruct He as [-> | ->]; [left|right]; done. }
    cbn. by apply Herr.
Qed.

(** The new buffer is empty and right. *)
Lemma buf_ok_init c r w v :
  (0 ≤ r)%Z → (0 ≤ w)%Z → r ≠ w → (0 ≤ c)%Z →
  buf_ok (mkBuffer c 0 r w) (with_cap r c (with_pipe r w v)).
Proof.
  intros. split; cbn; [lia| | |done].
  - intros _. split; [set_solver|]. unfold bytes_at. by rewrite !lookup_insert_eq.
  - intros _. split; [set_solver|]. intros _. apply lookup_insert_eq.
Qed.

Lemma Write_wp d Q b k :
  buf_ok b (view_of k) → (0 ≤ pipe0 b)%Z → (0 ≤ pipe1 b)%Z → d ≠ [] →
  (size_of b + Z.of_nat (length d) ≤ capacity_ b)%Z →
  (∀ k', view_of k' = with_content (pipe0 b) (data b (view_of k) ++ d) (view_of k) →
     Q tt (set_size_ (size_of b + Z.of_nat (length d)) b, k')) →
  wp (Write d) Q (b, k).
Proof.
  intros [Hs Hr Hw Hd] Hp0 Hp1 Hne Hfit HQ. destruct (Hr Hp0) as (Ho & Hlen & Hcap).
  destruct (Hw Hp1) as (Ho1 & Hrd). specialize (Hrd Hp0).
  unfold Write. buf_steps; cbn; try (by apply Z.leb_le; lia).
  apply wp_call. intros a k1 Ha.
  destruct (write_pipe (pipe1 b) (pipe0 b) d k) as (k2 & Hk2 & Hv); [done..| |].
  { rewrite Hcap. cbn. lia. }
  rewrite Hk2 in Ha. simplify_eq. buf_steps; cbn; try (by apply Z.eqb_eq || apply Z.leb_le; lia). by apply HQ.
Qed.

(** [WriteFrom]'s call of splice(2), for the room that is left, answers
    [EAGAIN]. *)
Definition source_blocks (fd : Z) (b : Buffer) (k k' : K) : Prop :=
  splice fd (pipe1 b) (capacity_ b - size_of b) k = (inr EAGAIN, k').
Definition no_room (b : Buffer) : Prop := size_of b = capacity_ b.

(** The three ends of [WriteFrom]: nothing can be taken; some bytes are in the
    buffer; the writing end is closed. *)
Lemma WriteFrom_wp fd Q b k :
  buf_ok b (view_of k) → (0 ≤ pipe0 b)%Z → (0 ≤ pipe1 b)%Z → fd ∈ v_opened (view_of k) →
  (∀ k', view_of k' = view_of k → no_room b ∧ k' = k ∨ source_blocks fd b k k' → Q kNoOp (b, k')) →
  (∀ k' d, d ≠ [] → (size_of b + Z.of_nat (length d) ≤ capacity_ b)%Z → length d ≤ supply (view_of k) fd →
     view_of k' = with_content (pipe0 b) (data b (view_of k) ++ d) (with_taken fd d (view_of k)) →
     Q kData (set_size_ (size_of b + Z.of_nat (length d)) b, k')) →
  (∀ k' st v1, st = kEof ∧ v1 = view_of k ∨ st = kError ∧ v1 = with_failure (view_of k) →
     view_of k' = with_opened (v_opened (view_of k) ∖ {[pipe1 b]}) v1 →
     Q st (set_pipe1 (-1) b, k')) →
  wp (WriteFrom fd) Q (b, k).
Proof.
  intros [Hs Hr Hw Hd] Hp0 Hp1 Hfd Hnoop Hdata Hclosed. destruct (Hr Hp0) as (Ho & Hlen & Hcap).
  destruct (Hw Hp1) as (Ho1 & Hrd). specialize (Hrd Hp0).
  unfold WriteFrom. buf_steps; cbn; try (by apply Z.leb_le; lia).
  destruct (Z.eqb_spec (size_of b) (capacity_ b)) as [Hfull|Hroom].
  { apply wp_ret, Hnoop; [done|by left]. }
  apply wp_bind, wp_call. intros res k1 Hk1.
  pose proof (splice_in _ _ (pipe0 b) _ _ _ _ Hk1 Hfd Ho1 Ho Hrd ltac:(lia)) as Hres.
  destruct res as [m|e].
  - destruct Hres as [[-> Hv]|(d & Hne & Hm & Hmn & Hv)].
    + cbn. apply wp_bind, close_fd_wp; [by rewrite Hv|]. intros k2 Hv2. buf_steps.
      apply (Hclosed _ _ (view_of k)); [by left|]. by rewrite Hv2, Hv.
    + destruct (Z.eqb_spec m 0) as [->|Hm0]; [destruct d; [done|cbn in Hm; lia]|].
      buf_steps; cbn; try (by apply Z.leb_le; lia).
      pose proof (finite_supply _ _ _ _ _ _ _ Hk1 Hrd).
      rewrite <- Hm. apply Hdata; [done|lia|lia|done].
  - destruct (Z.eqb_spec e EAGAIN) as [->|He].
    + apply wp_ret, Hnoop; [done|by right].
    + rewrite decide_False in Hres by done. apply wp_bind, close_fd_wp; [by rewrite Hres|]. intros k2 Hv2. buf_steps.
      apply (Hclosed _ _ (with_failure (view_of k))); [by right|]. by rewrite Hv2, Hres.
Qed.

(** [ReadTo]'s empty write(2), or else its call of splice(2) for all that is in
    the buffer, answers [EAGAIN]. *)
Definition sink_blocks (fd : Z) (b : Buffer) (k k' : K) : Prop :=
  ∃ res k1, sys_write fd [] k = (res, k1) ∧
    (res = inr EAGAIN ∧ k' = k1 ∨ res ≠ inr EAGAIN ∧ splice (pipe0 b) fd (size_of b) k1 = (inr EAGAIN, k')).
Definition nothing_yet (b : Buffer) : Prop := size_of b = 0%Z ∧ (0 ≤ pipe1 b)%Z.

(** The ends of [ReadTo]: nothing to do; some bytes are given to the socket; the
    reading end is closed, after the last byte or because of an error. *)
Lemma ReadTo_wp fd Q b k :
  buf_ok b (view_of k) → (0 ≤ pipe0 b)%Z → fd ∈ v_opened (view_of k) →
  (∀ k', view_of k' = view_of k →
     nothing_yet b ∧ k' = k ∨ sink_blocks fd b k k' → Q kNoOp (b, k')) →
  (∀ k' d rest, d ≠ [] → data b (view_of k) = d ++ rest →
     view_of k' = with_content (pipe0 b) rest (with_given fd d (view_of k)) →
     Q kData (set_size_ (size_of b - Z.of_nat (length d)) b, k')) →
  (∀ k', size_of b = 0%Z → (pipe1 b < 0)%Z →
     view_of k' = with_opened (v_opened (view_of k) ∖ {[pipe0 b]}) (view_of k) →
     Q kEof (set_pipe0 (-1) b, k')) →
  (∀ k' v1, v1 = view_of k ∨ v1 = with_content (pipe0 b) [] (view_of k) →
     view_of k' = with_opened (v_opened (view_of k) ∖ {[pipe0 b]}) (with_failure v1) →
     Q kError (set_pipe0 (-1) b, k')) →
  wp (ReadTo fd) Q (b, k).
Proof.
  intros [Hs Hr Hw Hd] Hp0 Hfd Hnoop Hdata Heof Herr. destruct (Hr Hp0) as (Ho & Hlen & Hcap).
  unfold ReadTo. buf_steps; try (by apply Z.leb_le; lia).
  destruct (Z.eqb_spec (size_of b) 0) as [Hz|Hnz].
  { destruct (Z.leb_spec 0 (pipe1 b)) as [Hp1|Hp1].
    - apply wp_ret, Hnoop; [done|by left].
    - buf_steps. apply close_fd_wp; [done|]. intros k1 Hv1. buf_steps. by apply Heof. }
  apply wp_bind, wp_call. intros w k1 Hk1. pose proof (write_nothing _ _ _ _ Hk1) as Hv1.
  destruct (match w with inr e => _ | inl _ => false end) eqn:Ew.
  { apply wp_ret, Hnoop; [done|]. right. exists w, k1. split; [done|]. left. split; [|done].
    destruct w as [|e]; [done|]. apply orb_true_iff in Ew.
    destruct Ew as [->%Z.eqb_eq | ->%Z.eqb_eq]; done. }
  buf_steps. apply wp_call. intros res k2 Hk2.
  assert (size_of b = Z.of_nat (length (data b (view_of k1)))) as Hsz by (by rewrite Hv1).
  pose proof Hk2 as Hk3. rewrite Hsz in Hk3.
  pose proof (splice_out _ _ _ _ _ Hk3) as Hres. rewrite Hv1 in Hres.
  specialize (Hres Hfd Ho ltac:(intros Hn; rewrite Hn in Hlen; cbn in Hlen; lia)).
  destruct res as [m|e].
  - destruct Hres as (d & rest & Hdr & Hne & Hm & Hv2).
    assert (length (data b (view_of k)) = length d + length rest) as Hl by (by rewrite Hdr, length_app).
    assert (0 < length d) by (destruct d; [done|cbn; lia]).
    buf_steps; cbn; try (by apply Z.leb_le; lia).
    { apply negb_true_iff, Z.eqb_neq. lia. }
    rewrite <- Hm. by eapply Hdata.
  - apply wp_bind, wp_CHECK; [done|]. apply wp_bind.
    assert (∀ v1, v1 = view_of k ∨ v1 = with_content (pipe0 b) [] (view_of k) → view_of k2 = with_failure v1 →
      wp (close_fd (pipe0 b) ;; put_buffer (set_pipe0 (-1)) ;; mret kError) Q (b, k2)) as Hclose.
    { intros v1 Hv Hk. buf_steps. apply close_fd_wp; [rewrite Hk; by destruct Hv as [-> | ->]|].
      intros k3 Hv3. buf_steps. apply (Herr _ v1 Hv). rewrite Hv3, Hk. by destruct Hv as [-> | ->]. }
    destruct (Z.eqb_spec e EAGAIN) as [->|He].
    2: { apply wp_ret. destruct Hres as [[? _]|[[_ Hv]|Hv]]; [done| |]; (eapply Hclose; [|exact Hv]; auto). }
    destruct Hres as [[_ Hv]|[[? _]|Hv]]; [|done|].
    + (* the pipe has not been cleared *)
      apply wp_bind, wp_look. rewrite fionread_ok by (by rewrite Hv). buf_steps; [done|].
      rewrite Hv, bool_decide_true by (by rewrite Hlen). apply wp_ret, Hnoop; [done|]. right. exists w, k1.
      split; [done|]. right. split; [by intros ->|done].
    + apply wp_bind, wp_look. rewrite fionread_ok by (by rewrite Hv). buf_steps; [done|].
      rewrite bool_decide_false; [eapply Hclose; [|exact Hv]; by right|].
      rewrite Hv. cbn. unfold bytes_at. rewrite lookup_insert_eq. cbn. intros Hn. simplify_eq.
Qed.

(** The destructor closes what is still open. *)
Lemma with_opened_twice o o' v : with_opened o (with_opened o' v) = with_opened o v.
Proof. done. Qed.

Lemma close_if_wp fd Q b k :
  ((0 ≤ fd)%Z → fd ∈ v_opened (view_of k)) →
  (∀ k', view_of k' = with_opened (v_opened (view_of k) ∖ nonneg fd)
                        (view_of k) → Q tt (b, k')) →
  wp (when (0 <=? fd)%Z (close_fd fd)) Q (b, k).
Proof.
  intros Hfd HQ. apply wp_when; [intros Hz%Z.leb_le|intros Hz%Z.leb_gt].
  - apply close_fd_wp; [by apply Hfd|]. intros k' Hv. apply HQ. rewrite Hv.
    unfold nonneg. by rewrite decide_True.
  - apply HQ. unfold nonneg. rewrite decide_False by lia. destruct (view_of k). unfold with_opened. cbn.
    f_equal. set_solver.
Qed.

Lemma buffer_delete_wp Q b k :
  buf_ok b (view_of k) →
  (∀ k', view_of k' = with_opened (v_opened (view_of k) ∖ owned b) (view_of k) → Q tt (b, k')) →
  wp buffer_delete Q (b, k).
Proof.
  intros [Hs Hr Hw Hd] HQ. unfold buffer_delete. buf_steps. cbn [for_each].
  apply wp_bind, close_if_wp; [intros Hz; by apply Hr|]. intros k1 Hv1.
  apply wp_bind, close_if_wp.
  - intros Hz. rewrite Hv1. cbn. apply elem_of_difference. split; [by apply Hw|].
    rewrite elem_of_nonneg. intros [Heq Hz']. by apply Hd in Hz'.
  - intros k2 Hv2. apply wp_ret, HQ. rewrite Hv2, Hv1, with_opened_twice. f_equal. cbn.
    unfold owned. set_solver.
Qed.

(** *** Preservation *)

(** [v'] differs from [v] at the descriptors [S] only. *)
Record agree_off (S : gset Z) (v v' : view) : Prop := {
  ag_opened : ∀ fd, fd ∉ S → fd ∈ v_opened v' ↔ fd ∈ v_opened v;
  ag_reader : ∀ fd, fd ∉ S → v_reader v' !! fd = v_reader v !! fd;
  ag_content : ∀ fd, fd ∉ S → v_content v' !! fd = v_content v !! fd;
  ag_cap : ∀ fd, fd ∉ S → v_cap v' !! fd = v_cap v !! fd;
  ag_taken : ∀ fd, fd ∉ S → v_taken v' !! fd = v_taken v !! fd;
  ag_given : ∀ fd, fd ∉ S → v_given v' !! fd = v_given v !! fd;
  ag_supply : ∀ fd, fd ∉ S → v_supply v' !! fd = v_supply v !! fd;
  ag_failures : v_failures v ≤ v_failures v'
}.

Lemma agree_refl S v : agree_off S v v.
Proof. by split. Qed.

Lemma agree_trans S v1 v2 v3 : agree_off S v1 v2 → agree_off S v2 v3 → agree_off S v1 v3.
Proof.
  intros [E1 E2 E3 E4 E5 E6 E7 E8] [G1 G2 G3 G4 G5 G6 G7 G8].
  split; [intros fd Hfd..|by etrans]; [by rewrite G1, E1|by rewrite G2, E2|by rewrite G3, E3|by rewrite G4, E4
    |by rewrite G5, E5|by rewrite G6, E6|by rewrite G7, E7].
Qed.

Lemma agree_mono S T v v' : agree_off S v v' → S ⊆ T → agree_off T v v'.
Proof. intros [] Hsub. split; [intros fd Hfd; eauto..|done]. Qed.

Lemma agree_opened S v o : (∀ fd, fd ∉ S → fd ∈ o ↔ fd ∈ v_opened v) → agree_off S v (with_opened o v).
Proof. intros Ho. by split. Qed.
Lemma agree_content S v r d : r ∈ S → agree_off S v (with_content r d v).
Proof. intros Hr. split; cbn; try done; intros fd Hfd; try done. rewrite lookup_insert_ne; [done|set_solver]. Qed.
Lemma agree_taken S v fd d : fd ∈ S → agree_off S v (with_taken fd d v).
Proof.
  intros Hr. split; cbn; try done; intros fd' Hfd; try done; (rewrite lookup_insert_ne; [done|set_solver]).
Qed.
Lemma agree_given S v fd d : fd ∈ S → agree_off S v (with_given fd d v).
Proof. intros Hr. split; cbn; try done; intros fd' Hfd; try done. rewrite lookup_insert_ne; [done|set_solver]. Qed.
Lemma agree_failure S v : agree_off S v (with_failure v).
Proof. split; cbn; try done. lia. Qed.
Lemma agree_pipe S v r w : r ∈ S → w ∈ S → agree_off S v (with_pipe r w v).
Proof.
  intros Hr Hw. split; cbn; try done; intros fd Hfd; try done; [set_solver|..].
  - rewrite lookup_insert_ne by set_solver. rewrite lookup_delete_ne; [done|set_solver].
  - rewrite lookup_insert_ne; [done|set_solver].
Qed.
Lemma agree_cap S v r c : r ∈ S → agree_off S v (with_cap r c v).
Proof. intros Hr. split; cbn; try done; intros fd Hfd; try done. rewrite lookup_insert_ne; [done|set_solver]. Qed.

(** A buffer depends on its own descriptors only. *)
Lemma buf_ok_frame S b v v' :
  buf_ok b v → agree_off S v v' → owned b ## S → buf_ok b v'.
Proof.
  intros [Hs Hr Hw Hd] Hag Hdis.
  assert (∀ fd, (0 ≤ fd)%Z → fd = pipe0 b ∨ fd = pipe1 b → fd ∉ S) as Hout.
  { intros fd Hfd Heq Hin. apply (Hdis fd); [|done]. unfold owned. rewrite elem_of_union, !elem_of_nonneg.
    destruct Heq as [-> | ->]; auto. }
  split; [done|..|done].
  - intros Hp0. destruct (Hr Hp0) as (Ho & Hlen & Hcap). pose proof (Hout _ Hp0 (or_introl eq_refl)) as Hn.
    rewrite (ag_opened _ _ _ Hag), (ag_cap _ _ _ Hag) by done. unfold bytes_at.
    by rewrite (ag_content _ _ _ Hag) by done.
  - intros Hp1. destruct (Hw Hp1) as [Ho Hrd]. pose proof (Hout _ Hp1 (or_intror eq_refl)) as Hn.
    by rewrite (ag_opened _ _ _ Hag), (ag_reader _ _ _ Hag) by done.
Qed.

Lemma bytes_at_insert m r d : bytes_at (<[r := d]> m) r = d.
Proof. unfold bytes_at. by rewrite lookup_insert_eq. Qed.

Lemma buf_ok_content b v d n :
  buf_ok b v → (0 ≤ pipe0 b)%Z → Z.of_nat (length d) = n → (n ≤ capacity_ b)%Z →
  buf_ok (set_size_ n b) (with_content (pipe0 b) d v).
Proof.
  intros [Hs Hr Hw Hd] Hp0 <- Hn. split; cbn; [lia| |done|done].
  intros _. destruct (Hr Hp0) as (? & _ & ?). by rewrite bytes_at_insert.
Qed.

Lemma buf_ok_taken b v fd d : buf_ok b v → buf_ok b (with_taken fd d v).
Proof. intros []. by split. Qed.
Lemma buf_ok_given b v fd d : buf_ok b v → buf_ok b (with_given fd d v).
Proof. intros []. by split. Qed.

Lemma buf_ok_failure b v : buf_ok b v → buf_ok b (with_failure v).
Proof. intros []. by split. Qed.

Lemma buf_ok_close1 b v v1 :
  buf_ok b v → v1 = v ∨ v1 = with_failure v →
  buf_ok (set_pipe1 (-1) b) (with_opened (v_opened v ∖ {[pipe1 b]}) v1).
Proof.
  intros [Hs Hr Hw Hd] Hv1. assert (v_opened v1 = v_opened v ∧ v_content v1 = v_content v ∧ v_cap v1 = v_cap v) as (_ & Ec & Ep)
    by (by destruct Hv1 as [-> | ->]). split; cbn; [done| |lia|lia].
  intros Hp0. destruct (Hr Hp0) as (? & ? & ?). specialize (Hd Hp0). rewrite Ec, Ep. split_and!; [set_solver|done..].
Qed.

Lemma buf_ok_close0 b v o :
  buf_ok b v → o = v_opened v ∖ {[pipe0 b]} → (0 ≤ pipe0 b)%Z →
  ∀ v1, v1 = v ∨ v1 = with_content (pipe0 b) [] v →
  buf_ok (set_pipe0 (-1) b) (with_opened o v1).
Proof.
  intros [Hs Hr Hw Hd] -> Hp0 v1 Hv1. split; cbn; [done|lia| |lia].
  intros Hp1. destruct (Hw Hp1) as [Ho _]. specialize (Hd Hp0). split; [|lia]. set_solver.
Qed.

(** *** Theorems *)

(** [Init] makes a pipe with both ends open, empty, whose capacity is at least
    the size asked for; when the process has no descriptors left, the buffer
    has none and nothing has changed. No [CHECK] fails in either case. *)
Lemma Init_correct size g k :
  (0 < size < INT_MAX)%Z →
  wp (Init size) (λ ok s',
    if ok : bool
    then buf_ok s'.1 (view_of s'.2) ∧ (0 ≤ pipe0 s'.1)%Z ∧ (0 ≤ pipe1 s'.1)%Z ∧
         (size ≤ capacity_ s'.1)%Z ∧ data s'.1 (view_of s'.2) = [] ∧
         owned s'.1 ## v_opened (view_of k) ∧
         v_opened (view_of s'.2) = owned s'.1 ∪ v_opened (view_of k)
    else s'.1 = buffer_new g ∧ view_of s'.2 = view_of k) (buffer_new g, k).
Proof.
  intros Hsize. apply Init_wp; [done| |done].
  intros b' k' r w c -> Hr Hw Hne Hor How Hc Hv. cbn. rewrite Hv.
  assert (owned (mkBuffer c 0 r w) = {[r; w]}) as ->.
  { unfold owned, nonneg. cbn. by rewrite !decide_True. }
  split_and!; [apply buf_ok_init; (done || lia)|done|done|lia| |set_solver|done].
  cbn. by rewrite bytes_at_insert.
Qed.

(** C36: [WriteFrom] on every branch: the bytes taken from the socket are appended
    to the buffer, within its capacity; at the end of the stream and on an
    error the writing end is closed and the bytes stay; otherwise the buffer
    is full and no call was made, or splice(2), asked for what there is room
    for, has answered [EAGAIN], and nothing has changed. The invariant is kept
    and no [CHECK] fails. *)
Theorem WriteFrom_correct fd b k :
  buf_ok b (view_of k) → (0 ≤ pipe0 b)%Z → (0 ≤ pipe1 b)%Z → fd ∈ v_opened (view_of k) →
  fd ∉ owned b →
  wp (WriteFrom fd) (λ st s', let b' := s'.1 in let v := view_of k in let v' := view_of s'.2 in
    buf_ok b' v' ∧ agree_off ({[fd]} ∪ owned b) v v' ∧
    (st = kError ↔ v_failures v < v_failures v') ∧
    match st with
    | kData => ∃ d, d ≠ [] ∧ bytes_at (v_taken v') fd = bytes_at (v_taken v) fd ++ d ∧
        data b' v' = data b v ++ d ∧ owned b' = owned b
    | kEof | kError => pipe1 b' = (-1)%Z ∧ pipe1 b ∉ v_opened v' ∧ data b' v' = data b v ∧
        v_taken v' = v_taken v
    | kNoOp => b' = b ∧ v' = v ∧ (no_room b ∧ s'.2 = k ∨ source_blocks fd b k s'.2)
    end) (b, k).
Proof.
  intros Hok Hp0 Hp1 Hfd Hnot. apply WriteFrom_wp; [done..| | |].
  - intros k' Hv Hwhy. cbn. rewrite Hv in *. split_and!; [done|apply agree_refl|split; [done|lia]|done..].
  - intros k' d Hne Hfit Hsup Hv. cbn. rewrite Hv. split_and!.
    + apply buf_ok_content; [by apply buf_ok_taken|done| |done].
      destruct Hok as [_ Hr _ _]. destruct (Hr Hp0) as (_ & <- & _). cbn. rewrite length_app. lia.
    + eapply agree_trans; [apply (agree_taken _ _ fd d); set_solver|]. apply agree_content.
      unfold owned. rewrite !elem_of_union, !elem_of_nonneg. auto.
    + cbn. split; [done|lia].
    + exists d. cbn. by rewrite !bytes_at_insert.
  - intros k' st v1 Hst Hv. cbn. rewrite Hv.
    assert (agree_off ({[fd]} ∪ owned b) (view_of k)
      (with_opened (v_opened (view_of k) ∖ {[pipe1 b]}) v1)).
    { eapply agree_trans with (v2 := v1); [destruct Hst as [[_ ->]|[_ ->]]; [apply agree_refl|apply agree_failure]|].
      apply agree_opened. intros fd' Hfd'. unfold owned in Hfd'.
      rewrite !elem_of_union, !elem_of_nonneg in Hfd'. destruct Hst as [[_ ->]|[_ ->]]; cbn; set_solver. }
    destruct Hst as [[-> ->]|[-> ->]]; (split_and!; [eapply buf_ok_close1; auto|done| |done| |done|done]);
      cbn; (set_solver || (split; [done|lia])).
Qed.

(** C37: [ReadTo] on every branch: the bytes given to the socket are the first ones
    of the buffer; after the last byte of a finished stream the reading end is
    closed; on an error (a cleared pipe included) it is closed too; otherwise
    the buffer is empty and may still be filled, and no call was made, or
    write(2) or splice(2), asked for all that is in the buffer, has answered
    [EAGAIN], and nothing has changed. The invariant is kept and no [CHECK]
    fails. *)
Theorem ReadTo_correct fd b k :
  buf_ok b (view_of k) → (0 ≤ pipe0 b)%Z → fd ∈ v_opened (view_of k) → fd ∉ owned b →
  wp (ReadTo fd) (λ st s', let b' := s'.1 in let v := view_of k in let v' := view_of s'.2 in
    buf_ok b' v' ∧ agree_off ({[fd]} ∪ owned b) v v' ∧
    (st = kError ↔ v_failures v < v_failures v') ∧
    match st with
    | kData => ∃ d, d ≠ [] ∧ bytes_at (v_given v') fd = bytes_at (v_given v) fd ++ d ∧
        data b v = d ++ data b' v' ∧ owned b' = owned b
    | kEof => pipe0 b' = (-1)%Z ∧ pipe0 b ∉ v_opened v' ∧ data b v = [] ∧ (pipe1 b < 0)%Z ∧
        v_given v' = v_given v
    | kError => pipe0 b' = (-1)%Z ∧ pipe0 b ∉ v_opened v' ∧ v_given v' = v_given v
    | kNoOp => b' = b ∧ v' = v ∧
        ((data b v = [] ∧ (0 ≤ pipe1 b)%Z ∧ s'.2 = k) ∨ sink_blocks fd b k s'.2)
    end) (b, k).
Proof.
  intros Hok Hp0 Hfd Hnot. pose proof Hok as [Hs Hr _ _]. destruct (Hr Hp0) as (Ho & Hlen & _).
  assert (pipe0 b ∈ {[fd]} ∪ owned b) as Hin.
  { unfold owned. rewrite !elem_of_union, !elem_of_nonneg. auto. }
  assert (size_of b = 0%Z → data b (view_of k) = []) as Hempty.
  { intros Hz. rewrite Hz in Hlen. by destruct (data b (view_of k)). }
  assert (∀ v1, v1 = view_of k ∨ v1 = with_content (pipe0 b) [] (view_of k) →
    agree_off ({[fd]} ∪ owned b) (view_of k)
      (with_opened (v_opened (view_of k) ∖ {[pipe0 b]}) v1)) as Hag.
  { intros v1 Hv1. eapply agree_trans with (v2 := v1).
    - destruct Hv1 as [-> | ->]; [apply agree_refl|by apply agree_content].
    - apply agree_opened. intros fd' Hfd'. destruct Hv1 as [-> | ->]; cbn; set_solver. }
  apply ReadTo_wp; [done..| | | |].
  - intros k' Hv Hwhy. cbn. rewrite Hv in *. split_and!; [done|apply agree_refl|split; [done|lia]|done|done|].
    destruct Hwhy as [[[Hz ?] ->]|?]; [left|by right]. auto.
  - intros k' d rest Hne Hdr Hv. cbn. rewrite Hv.
    assert (length (data b (view_of k)) = length d + length rest) as Hl by (by rewrite Hdr, length_app).
    split_and!.
    + apply buf_ok_content; [by apply buf_ok_given|done|lia|lia].
    + eapply agree_trans; [apply (agree_given _ _ fd d); set_solver|]. by apply agree_content.
    + cbn. split; [done|lia].
    + exists d. cbn. by rewrite !bytes_at_insert.
  - intros k' Hz Hp1 Hv. cbn. rewrite Hv. split_and!; [|by apply Hag; left| |done| |by apply Hempty|done|done].
    + eapply buf_ok_close0; [done|done|done|by left].
    + cbn. split; [done|lia].
    + cbn. set_solver.
  - intros k' v1 Hv1 Hv. cbn. rewrite Hv. split_and!; [| | |done| |].
    + apply (buf_ok_failure _ (with_opened _ v1)). by eapply buf_ok_close0.
    + eapply agree_trans; [by apply Hag|apply (agree_failure _ (with_opened _ v1))].
    + cbn. split; [destruct Hv1 as [-> | ->]; cbn; lia|done].
    + cbn. set_solver.
    + by destruct Hv1 as [-> | ->].
Qed.
End buffer.

(** ** Pipes that keep the laws *)

(** What the peers have sent and not been read, and how many bytes each socket
    accepts at a time. *)
Record sim_pipes := mkSimPipes { sim_view : view; arriving : Z → bytes; room : Z → nat }.

Definition sim_with (v : view) (k : sim_pipes) : sim_pipes := mkSimPipes v (arriving k) (room k).

Definition sim_pipe (k : sim_pipes) : (Z * Z + Z) * sim_pipes :=
  let r := sim_fresh (v_opened (sim_view k)) in
  let w := sim_fresh ({[r]} ∪ v_opened (sim_view k)) in
  (inl (r, w), sim_with (with_pipe r w (sim_view k)) k).

Definition sim_splice (fin fout n : Z) (k : sim_pipes) : (Z + Z) * sim_pipes :=
  let v := sim_view k in
  match v_reader v !! fout with
  | Some r =>
      if decide (is_Some (v_content v !! fin)) then (inr 22%Z, sim_with (with_failure v) k) else
      let d := take (Z.to_nat n `min` supply v fin) (arriving k fin) in
      if decide (d = []) then (if decide (supply v fin = 0) then inl 0%Z else inr EAGAIN, k)
      else (inl (Z.of_nat (length d)),
            mkSimPipes (with_content r (piped v r ++ d) (with_taken fin d v))
              (λ fd, if decide (fd = fin) then drop (length d) (arriving k fin) else arriving k fd) (room k))
  | None =>
      let d := take (room k fout) (piped v fin) in
      if decide (d = []) then (inr EAGAIN, k)
      else (inl (Z.of_nat (length d)), sim_with (with_content fin (drop (length d) (piped v fin))
                                                   (with_given fout d v)) k)
  end.

#[export] Instance sim_pipes_fds : FdKernel sim_pipes := {|
  sys_close := λ fd k, if decide (fd ∈ v_opened (sim_view k))
    then (true, sim_with (with_opened (v_opened (sim_view k) ∖ {[fd]}) (sim_view k)) k) else (false, k);
  opened := λ k, v_opened (sim_view k)
|}.

#[export] Instance sim_pipes_kernel : PipeKernel sim_pipes := {|
  sys_pipe := sim_pipe;
  set_pipe_sz := λ r n k, (Z.min (Z.max n 4096) (2 ^ 31 - 1),
    sim_with (with_cap r (Z.min (Z.max n 4096) (2 ^ 31 - 1)) (sim_view k)) k);
  get_pipe_sz := λ fd k, let r := default fd (v_reader (sim_view k) !! fd) in
    default 0%Z (v_cap (sim_view k) !! r);
  sys_write := λ w d k, match d, v_reader (sim_view k) !! w with
    | _ :: _, Some r => (inl (Z.of_nat (length d)), sim_with (with_content r (piped (sim_view k) r ++ d) (sim_view k)) k)
    | _, _ => (inl 0%Z, k)
    end;
  splice := sim_splice;
  fionread := λ r k, Some (Z.of_nat (length (piped (sim_view k) r)));
  view_of := sim_view
|}.

#[export] Instance sim_pipes_assumptions : PipeAssumptions sim_pipes.
Proof.
  split; cbn.
  - intros r n k _ Hn. eexists _, _. split; [done|]. split; [lia|done].
  - intros fd w r n k m k' Hs Hr. unfold sim_splice in Hs. rewrite Hr in Hs. case_decide; [done|].
    repeat case_decide; simplify_eq; [lia|]. rewrite length_take. lia.
Qed.

#[export] Instance sim_pipes_laws : PipeKernelLaws sim_pipes.
Proof.
  split; cbn; try done; try apply sim_pipes_assumptions.
  - intros fd k Hfd. rewrite decide_True by done. by eexists.
  - intros k r w k' [= <- <- <-]. destruct (sim_fresh_new (v_opened (sim_view k))) as [? Hr].
    set (r := sim_fresh (v_opened (sim_view k))) in *.
    destruct (sim_fresh_new ({[r]} ∪ v_opened (sim_view k))) as [? Hw].
    split_and!; try done; set_solver.
  - intros fd r k _ [[-> Hr] | ->]; [by rewrite Hr|done].
  - intros w r d k Hd _ _ Hr _. destruct d as [|c d]; [done|]. rewrite Hr. by eexists.
  - intros fd k res k' [= <- <-]. done.
  - intros fd w r n k res k' Hs _ _ _ Hr Hn. unfold sim_splice in Hs. rewrite Hr in Hs.
    case_decide as Hc; [by simplify_eq|]. set (d := take _ _) in Hs.
    assert (length d ≤ Z.to_nat n `min` supply (sim_view k) fd) as Hd.
    { unfold d. rewrite length_take. lia. }
    destruct (decide (d = [])) as [He|He].
    + case_decide; simplify_eq; [by left|done].
    + simplify_eq. right. exists d. split_and!; [done|done|lia|done].
  - intros r fd k res k' Hs _ _ Hne. unfold sim_splice in Hs.
    destruct (v_reader (sim_view k) !! fd) as [r2|].
    + assert (is_Some (v_content (sim_view k) !! r)) as Hc.
      { unfold bytes_at in Hne. destruct (v_content (sim_view k) !! r); [by eexists|done]. }
      rewrite decide_True in Hs by done. simplify_eq. right. by left.
    + set (d := take _ _) in Hs. destruct (decide (d = [])) as [He|He]; simplify_eq; [by left|].
      exists d, (drop (length d) (piped (sim_view k) r)). split_and!; [|done..].
      unfold d. rewrite length_take. destruct (Nat.min_spec (room k fd) (length (piped (sim_view k) r)))
        as [[? ->]|[? ->]]; [by rewrite take_drop|].
      rewrite (take_ge _ (room k fd)) by lia. by rewrite drop_all, app_nil_r.
Qed.

Module BufferExample.
(** Two sockets, 5 and 6, and a peer that sends three bytes. *)
Definition net : sim_pipes :=
  mkSimPipes (mkView {[5%Z; 6%Z]} ∅ ∅ ∅ ∅ ∅ {[5%Z := 3]} 0) (λ fd, if decide (fd = 5%Z) then B "abc" else [])
    (λ _, 2).
Definition made : Buffer * sim_pipes := after (Init 4096) (buffer_new 0, net).
Definition filled : Buffer * sim_pipes := after (WriteFrom 5) made.
Definition moved : Buffer * sim_pipes := after (ReadTo 6) filled.

Example it_moves :
  bytes_at (v_given (sim_view moved.2)) 6 = B "ab" ∧ piped (sim_view moved.2) (pipe0 moved.1) = B "c".
Proof. vm_compute. done. Qed.

Lemma made_ok : buf_ok made.1 (view_of made.2).
Proof.
  apply (wp_after (Init 4096) (λ s, buf_ok s.1 (view_of s.2))). apply Init_wp; [done| |].
  - intros b' k' r w c -> Hr Hw Hne _ _ Hc Hv. cbn -[view_of]. rewrite Hv. apply buf_ok_init; (done || lia).
  - intros k' _. split; cbn; lia.
Qed.

Lemma filled_ok : buf_ok filled.1 (view_of filled.2).
Proof.
  apply (wp_after (WriteFrom 5) (λ s, buf_ok s.1 (view_of s.2)) made).
  pose proof made_ok as Hok. destruct (bo_read _ _ Hok) as (_ & Hlen & _); [by vm_compute|].
  apply (WriteFrom_wp 5 _ made.1 made.2); [done|by vm_compute..|by apply (bool_decide_unpack _); vm_compute| | |].
  - intros k' Hv _. cbn [fst snd]. by rewrite Hv.
  - intros k' d _ Hfit _ Hv. cbn [fst snd]. rewrite Hv.
    apply buf_ok_content; [by apply buf_ok_taken|by vm_compute|by rewrite length_app, Nat2Z.inj_add, Hlen|done].
  - intros k' st v1 Hst Hv. cbn [fst snd]. rewrite Hv. eapply buf_ok_close1; [done|]. destruct Hst as [[_ ->]|[_ ->]]; auto.
Qed.
End BufferExample.

Lemma WriteFrom_correct_witness :
  wp (WriteFrom 5) (λ st s', buf_ok s'.1 (view_of s'.2) ∧ st = kData ∧
    bytes_at (v_taken (view_of s'.2)) 5 = B "abc") BufferExample.made.
Proof.
  assert (wp (WriteFrom 5) (λ st s', st = kData ∧ bytes_at (v_taken (view_of s'.2)) 5 = B "abc") BufferExample.made) as Hrun
    by (vm_compute; split; reflexivity).
  eapply wp_mono; [apply wp_and; [|exact Hrun]|].
  - apply (WriteFrom_correct 5 BufferExample.made.1 BufferExample.made.2 BufferExample.made_ok);
      [vm_compute; discriminate|vm_compute; discriminate| |].
    + apply (bool_decide_unpack _). vm_compute. exact I.
    + apply (bool_decide_unpack _). vm_compute. exact I.
  - intros st s' [[Hok _] Hst]. split; [exact Hok|exact Hst].
Defined.

Lemma ReadTo_correct_witness :
  wp (ReadTo 6) (λ st s', buf_ok s'.1 (view_of s'.2) ∧ st = kData ∧
    bytes_at (v_given (view_of s'.2)) 6 = B "ab") BufferExample.filled.
Proof.
  assert (wp (ReadTo 6) (λ st s', st = kData ∧ bytes_at (v_given (view_of s'.2)) 6 = B "ab") BufferExample.filled) as Hrun
    by (vm_compute; split; reflexivity).
  eapply wp_mono; [apply wp_and; [|exact Hrun]|].
  - apply (ReadTo_correct 6 BufferExample.filled.1 BufferExample.filled.2 BufferExample.filled_ok);
      [vm_compute; discriminate| |].
    + apply (bool_decide_unpack _). vm_compute. exact I.
    + apply (bool_decide_unpack _). vm_compute. exact I.
  - intros st s' [[Hok _] Hst]. split; [exact Hok|exact Hst].
Defined.
