(* ===== verification/Forwarder.v ===== *)
(** * Forwarding (forwarder.h, forwarder.cc)

    Two linked handlers forward bytes between a client and a server. *)

From S2P Require Import Prelude Logging IntrusiveList Epoll EventLoop LoopTheorems Sock Buffer.

Inductive shut_how := SHUT_RD | SHUT_WR.
Definition ENOTCONN : Z := 107.

(** shutdown(2): an error or none. *)
Class ShutdownKernel (K : Type) := { sys_shutdown : Z → shut_how → K → option Z * K }.
Class ForwardLaws (K : Type) `{PipeKernelLaws K, ShutdownKernel K, SockOptKernel K} := {
  shutdown_ok : ∀ fd how k, fd ∈ v_opened (view_of k) →
    ∃ e k', sys_shutdown fd how k = (e, k') ∧ (e = None ∨ e = Some ENOTCONN) ∧ view_of k' = view_of k;
  sockopt_view : ∀ fd k, view_of (getsockopt_error fd k).2 = view_of k
}.

(** The descriptors of other parts of the program, which the forwarder leaves
    alone: a parameter of its invariant. *)
Class Reserved := reserved : list Z.

Section forwarder.
Context {K EK PQ : Type} `{ForwardLaws K} `{!SockOptLaws K} `{EpollLaws EK} `{PipeLaws PQ (Z * Z)} `{Reserved}.

(** forwarder.h: [Forwarder::Options] (the timeout is the loop's). *)
Record ForwarderOptions := mkFwdOptions {
  client_to_server_buffer_size_bytes : Z; server_to_client_buffer_size_bytes : Z
}.
Definition forwarder_defaults : ForwarderOptions := mkFwdOptions (Z.shiftl 4 10) (Z.shiftl 8 10).
Definition read_write_timeout : Duration := seconds 600.

Inductive link_name := Client | Server.

(** forwarder.cc: the fields of [LinkEventHandler]. *)
Record LinkEventHandler := mkLink {
  name_ : link_name; out_ : Buffer; readable_ : bool; writable_ : bool; other_ : option ptr
}.

Abbreviation St := (EventLoop.St LinkEventHandler K EK PQ).
Abbreviation Handler := (EventHandler LinkEventHandler).

Definition set_out (b : Buffer) (l : LinkEventHandler) : LinkEventHandler :=
  mkLink (name_ l) b (readable_ l) (writable_ l) (other_ l).
Definition set_readable (r : bool) (l : LinkEventHandler) : LinkEventHandler :=
  mkLink (name_ l) (out_ l) r (writable_ l) (other_ l).
Definition set_writable (w : bool) (l : LinkEventHandler) : LinkEventHandler :=
  mkLink (name_ l) (out_ l) (readable_ l) w (other_ l).
Definition set_other (o : option ptr) (l : LinkEventHandler) : LinkEventHandler :=
  mkLink (name_ l) (out_ l) (readable_ l) (writable_ l) o.

Definition link (p : ptr) : M St LinkEventHandler := h ← handler p; mret (sub_ h).
Definition upd_link (p : ptr) (f : LinkEventHandler → LinkEventHandler) : M St unit :=
  upd_handler p (λ h, set_sub (f (sub_ h)) h).
(** A method of the buffer [out_]. *)
Definition on_out {A} (p : ptr) (m : M (Buffer * K) A) : M St A :=
  on_sub p (zoom (λ lk, (out_ lk.1, lk.2)) (λ bk lk, (set_out bk.1 lk.1, bk.2)) m).
(** The pointer [other_], which is followed. *)
Definition other (p : ptr) : M St ptr :=
  l ← link p; match other_ l with Some q => mret q | None => undefined "other_" end.

(** forwarder.cc: [~LinkEventHandler], then the destructor of [out_]. *)
Definition link_delete (l : LinkEventHandler) : M K unit :=
  CHECK "!readable_ && !writable_" (negb (readable_ l) && negb (writable_ l)) ;;
  zoom (λ k, (out_ l, k)) (λ bk _, bk.2) buffer_delete.

(** forwarder.cc: [LinkEventHandler::Close]. *)
Definition Close (p : ptr) : M St unit :=
  l ← link p;
  when (readable_ l || writable_ l) (
    upd_link p (set_readable false) ;;
    upd_link p (set_writable false) ;;
    q ← other p; DecRef link_delete q ;;
    Remove link_delete (Some p) ;;
    h ← handler p; on_world (close_checked (fd_ h))).

(** forwarder.cc: [LinkEventHandler::Terminate]. *)
Definition Terminate (p : ptr) : M St unit :=
  Close p ;; q ← other p; Close q.

Definition shutdown_checked (p : ptr) (how : shut_how) : M St unit :=
  h ← handler p;
  r ← on_world (λ k, Done (sys_shutdown (fd_ h) how k));
  CHECK "shutdown(fd()) == 0 || errno == ENOTCONN"
    (match r with None => true | Some e => e =? ENOTCONN end)%Z.

(** forwarder.cc: [LinkEventHandler::CloseForReading]. *)
Definition CloseForReading (p : ptr) : M St unit :=
  l ← link p;
  CHECK "readable_" (readable_ l) ;;
  if writable_ l then
    upd_link p (set_readable false) ;;
    Modify (Some p) (Z.lor EPOLLOUT EPOLLET) ;;
    shutdown_checked p SHUT_RD
  else Close p.

(** forwarder.cc: [LinkEventHandler::CloseForWriting]. *)
Definition CloseForWriting (p : ptr) : M St unit :=
  l ← link p;
  CHECK "writable_" (writable_ l) ;;
  if readable_ l then
    upd_link p (set_writable false) ;;
    Modify (Some p) (Z.lor EPOLLIN EPOLLET) ;;
    shutdown_checked p SHUT_WR
  else Close p.

(** The two halves of an iteration of [ForwardFromOther]: [Moved] is [io = true],
    [Broken] is [return false]. *)
Inductive progress := Moved | Idle | Broken.

Definition half_in (p : ptr) : M St progress :=
  q ← other p;
  lq ← link q;
  if readable_ lq then
    hq ← handler q;
    st ← on_out p (WriteFrom (fd_ hq));
    match st with
    | kData => mret Moved
    | kEof => q ← other p; CloseForReading q ;; mret Moved
    | kError => Terminate p ;; mret Broken
    | kNoOp => mret Idle
    end
  else mret Idle.

Definition half_out (p : ptr) : M St progress :=
  l ← link p;
  if writable_ l then
    h ← handler p;
    st ← on_out p (ReadTo (fd_ h));
    match st with
    | kData => mret Moved
    | kEof => CloseForWriting p ;; mret Moved
    | kError => Terminate p ;; mret Broken
    | kNoOp => mret Idle
    end
  else mret Idle.

Fixpoint forward_loop (p : ptr) (res : bool) (fuel : nat) : M St bool :=
  match fuel with
  | 0 => no_fuel
  | S fuel =>
      i ← half_in p;
      match i with
      | Broken => mret false
      | _ =>
          o ← half_out p;
          match i, o with
          | _, Broken => mret false
          | Idle, Idle => mret res
          | _, _ => forward_loop p true fuel
          end
      end
  end.

(** The fuel: every iteration but the last one takes a byte from the peer, moves
    one out of the buffer, or closes an end. *)
Definition measure_of (hp hq : Handler) (v : view) : nat :=
  2 * supply v (fd_ hq) + Z.to_nat (size_of (out_ (sub_ hp))) +
  Nat.b2n (readable_ (sub_ hq)) + Nat.b2n (writable_ (sub_ hp)).

Definition forward_fuel (p : ptr) : M St nat :=
  hp ← handler p;
  q ← other p;
  hq ← handler q;
  gets (λ s, S (measure_of hp hq (view_of (world s)))).

(** forwarder.cc: [LinkEventHandler::ForwardFromOther]. *)
Definition ForwardFromOther (p : ptr) : M St bool :=
  n ← forward_fuel p; forward_loop p false n.

(** forwarder.cc: [LinkEventHandler::Refresh]. *)
Definition RefreshLink (p : ptr) : M St unit :=
  l ← link p;
  when (readable_ l || writable_ l) (Refresh (Some p)).

(** An operand of [LOG(INFO)], evaluated when the level is enabled. *)
Definition log_info (min_lvl : Severity) (m : M St unit) : M St unit :=
  when (severity_value min_lvl <=? severity_value INFO)%Z m.

(** forwarder.cc: the lambda [Process] of [OnEvent]. The operands of [|] are
    evaluated in an order that C++ does not specify: [left_first]. *)
Definition Process (min_lvl : Severity) (left_first : bool) (p : ptr) (events : Z) : M St bool :=
  if HasBits events EPOLLERR then
    h ← handler p;
    log_info min_lvl (on_world (SockError (fd_ h)) ;; mret tt) ;;
    Terminate p ;; mret false
  else
    let left := if HasBits events EPOLLOUT then ForwardFromOther p else mret false in
    let right := if HasBits events EPOLLIN then q ← other p; ForwardFromOther q else mret false in
    if left_first then a ← left; b ← right; mret (a || b)
    else b ← right; a ← left; mret (a || b).

(** forwarder.cc: [LinkEventHandler::OnEvent]. *)
Definition OnEvent (min_lvl : Severity) (left_first : bool) (p : ptr) (events : Z) : M St unit :=
  q ← other p; IncRef q ;;
  ok ← Process min_lvl left_first p events;
  when ok (RefreshLink p ;; q ← other p; RefreshLink q) ;;
  q ← other p; DecRef link_delete q.

(** forwarder.cc: [LinkEventHandler::OnTimeout]. *)
Definition OnTimeout (p : ptr) : M St unit :=
  q ← other p; IncRef q ;;
  Terminate p ;;
  q ← other p; DecRef link_delete q.

(** [new LinkEventHandler(fd, name)], at a free address. *)
Definition new_link (fd : Z) (name : link_name) : M St ptr :=
  p ← gets (λ s, fresh (dom (handlers s)));
  new_handler p fd (mkLink name (buffer_new 0) true true None) ;;
  mret p.

(** forwarder.cc: [LinkEventHandler::New]. *)
Definition New (opt : ForwarderOptions) (fds : Z * Z) : M St unit :=
  let '(client_fd, server_fd) := fds in
  client ← new_link client_fd Client;
  server ← new_link server_fd Server;
  ok1 ← on_out client (Init (server_to_client_buffer_size_bytes opt));
  ok ← (if ok1 : bool then on_out server (Init (client_to_server_buffer_size_bytes opt)) else mret false);
  if ok : bool then
    upd_link client (set_other (Some server)) ;;
    upd_link server (set_other (Some client)) ;;
    IncRef client ;;
    IncRef server ;;
    Add (Some client) (Z.lor EPOLLIN (Z.lor EPOLLOUT EPOLLET)) ;;
    Add (Some server) (Z.lor EPOLLIN (Z.lor EPOLLOUT EPOLLET)) ;;
    on_out client (Write kResponse)
  else
    for_each (λ p,
      h ← handler p;
      on_world (close_checked (fd_ h)) ;;
      upd_link p (set_readable false) ;;
      upd_link p (set_writable false) ;;
      delete_handler link_delete p) [client; server].

(** forwarder.cc: [Forwarder::Forward]. *)
Definition Forward (opt : ForwarderOptions) (client_fd server_fd : Z) : M St unit :=
  CHECK "client_fd >= 0" (0 <=? client_fd)%Z ;;
  CHECK "server_fd >= 0" (0 <=? server_fd)%Z ;;
  ScheduleOrRun (New opt) (client_fd, server_fd).

(** ** The invariant *)

Definition open (l : LinkEventHandler) : bool := readable_ l || writable_ l.

(** What a handler owns: its socket while it is open, the ends of its pipe. *)
Inductive role := Sock | RdEnd | WrEnd.
Definition uses (h : Handler) (r : role) (fd : Z) : Prop :=
  match r with
  | Sock => open (sub_ h) = true ∧ fd = fd_ h
  | RdEnd => fd = pipe0 (out_ (sub_ h)) ∧ (0 ≤ fd)%Z
  | WrEnd => fd = pipe1 (out_ (sub_ h)) ∧ (0 ≤ fd)%Z
  end.

(** The reference to [q] that its peer holds while it is open. The peer of a
    closed link may be gone, and its address may have been given to another
    link. *)
Definition ref_from (s : St) (q p : ptr) : Z :=
  match handlers s !! p with
  | Some hp => if decide (other_ (sub_ hp) = Some q) then Z.b2z (open (sub_ hp)) else 0
  | None => 0
  end.
Definition refs (s : St) (q : ptr) : Z :=
  match handlers s !! q with
  | Some h => match other_ (sub_ h) with Some p => ref_from s q p | None => 0 end
  | None => 0
  end.

(** The sockets that wait in the loop's pipe. *)
Definition waiting_fds (s : St) : list Z :=
  concat ((λ fds, [fds.1; fds.2]) <$> pending (pipe_ s)).

(** The descriptors that no link has: the reading end of the loop's pipe, those
    of other parts of the program, the sockets that wait. *)
Definition apart_fds (s : St) : list Z := pipe_fd s :: reserved ++ waiting_fds s.

Record Fwd (A B : ptr → Prop) (own : ptr → Z) (news : gset ptr) (s : St) : Prop := {
  fw_news : news = ∅;
  fw_peer : ∀ p h, handlers s !! p = Some h →
    ∃ q, other_ (sub_ h) = Some q ∧ q ≠ p ∧
      (open (sub_ h) = true → ∃ hq, handlers s !! q = Some hq ∧ other_ (sub_ hq) = Some p) ∧
      ∀ hq, handlers s !! q = Some hq → other_ (sub_ hq) = Some p → fd_ hq ≠ fd_ h;
  fw_open : ∀ p h, handlers s !! p = Some h → event_loop_ h = open (sub_ h);
  fw_own : ∀ q, own q = refs s q;
  fw_buf : ∀ p h, handlers s !! p = Some h → buf_ok (out_ (sub_ h)) (view_of (world s));
  (* a link that can be read has a buffer to go to, and a link to write to *)
  fw_in : ∀ p q hp hq, handlers s !! p = Some hp → handlers s !! q = Some hq →
    other_ (sub_ hp) = Some q → other_ (sub_ hq) = Some p → ¬ A p → readable_ (sub_ hq) = true →
    writable_ (sub_ hp) = true ∧ (0 ≤ pipe1 (out_ (sub_ hp)))%Z;
  fw_out : ∀ p h, handlers s !! p = Some h → ¬ B p → writable_ (sub_ h) = true →
    (0 ≤ pipe0 (out_ (sub_ h)))%Z;
  fw_uses : ∀ p h r fd, handlers s !! p = Some h → uses h r fd →
    fd ∈ v_opened (view_of (world s));
  fw_unique : ∀ p q hp hq r r' fd, handlers s !! p = Some hp → handlers s !! q = Some hq →
    uses hp r fd → uses hq r' fd → p = q ∧ r = r';
  fw_waiting : NoDup (apart_fds s) ∧ ∀ fd, fd ∈ apart_fds s →
    (0 ≤ fd)%Z ∧ fd ∈ v_opened (view_of (world s)) ∧
    ∀ p h r, handlers s !! p = Some h → ¬ uses h r fd
}.

Definition none : ptr → Prop := λ _, False.

Lemma owned_uses h fd : fd ∈ owned (out_ (sub_ h)) ↔ uses h RdEnd fd ∨ uses h WrEnd fd.
Proof. unfold owned. rewrite elem_of_union, !elem_of_nonneg. cbn. naive_solver. Qed.

Lemma refs_own A B own news s p q hp hq :
  Fwd A B own news s → handlers s !! p = Some hp → handlers s !! q = Some hq →
  other_ (sub_ hp) = Some q → other_ (sub_ hq) = Some p → own q = Z.b2z (open (sub_ hp)).
Proof.
  intros HF Hp Hq Ho Ho'. rewrite (fw_own _ _ _ _ _ HF). unfold refs, ref_from.
  by rewrite Hq, Ho', Hp, decide_True.
Qed.

(** *** One handler's fields and the kernel change *)
Lemma refs_put s p h x w q :
  handlers s !! p = Some h → other_ x = other_ (sub_ h) → open x = open (sub_ h) →
  refs (set_world w (put_handler p (set_sub x h) s)) q = refs s q.
Proof.
  intros Hp Ho Hopen.
  assert (∀ y, ref_from (set_world w (put_handler p (set_sub x h) s)) q y = ref_from s q y) as Hy.
  { intros y. unfold ref_from. cbn. destruct (decide (p = y)) as [<-|].
    - rewrite lookup_insert_eq, Hp. cbn. by rewrite Hopen, Ho.
    - by rewrite lookup_insert_ne. }
  unfold refs. cbn. destruct (decide (p = q)) as [<-|].
  - rewrite lookup_insert_eq, Hp. cbn. rewrite Ho. by destruct (other_ (sub_ h)).
  - rewrite lookup_insert_ne by done. destruct (handlers s !! q) as [hq|]; [|done].
    by destruct (other_ (sub_ hq)).
Qed.

Lemma Fwd_update A B A' B' own news s p h x w S :
  Fwd A B own news s → handlers s !! p = Some h →
  other_ x = other_ (sub_ h) → open x = open (sub_ h) →
  buf_ok (out_ x) (view_of w) →
  agree_off S (view_of (world s)) (view_of w) →
  (∀ r hr, r ≠ p → handlers s !! r = Some hr → owned (out_ (sub_ hr)) ## S) →
  (∀ r fd, uses (set_sub x h) r fd → uses h r fd) →
  (∀ fd, fd ∈ v_opened (view_of (world s)) → fd ∈ v_opened (view_of w) ∨
     ((∃ r, uses h r fd) ∧ ∀ r, ¬ uses (set_sub x h) r fd)) →
  (* the links *)
  (readable_ x = true → readable_ (sub_ h) = true) →
  (∀ r, r ≠ p → (A r → A' r) ∧ (B r → B' r)) →
  (∀ q hq, ¬ A' p → other_ x = Some q → handlers s !! q = Some hq → other_ (sub_ hq) = Some p →
     readable_ (sub_ hq) = true → writable_ x = true ∧ (0 ≤ pipe1 (out_ x))%Z) →
  (¬ B' p → writable_ x = true → (0 ≤ pipe0 (out_ x))%Z) →
  Fwd A' B' own news (set_world w (put_handler p (set_sub x h) s)).
Proof.
  intros HF Hp Ho Hopen Hbuf Hag Hdis Huses Hcl Hrd HAB Hin Hout.
  destruct HF as [Fn Fp Fo Fw Fb Fi Fu Fs Fq [Fnd Fwt]].
  assert (∀ r hr, handlers (set_world w (put_handler p (set_sub x h) s)) !! r = Some hr →
    ∃ hr0, handlers s !! r = Some hr0 ∧ other_ (sub_ hr) = other_ (sub_ hr0) ∧
      event_loop_ hr = event_loop_ hr0 ∧ open (sub_ hr) = open (sub_ hr0) ∧
      fd_ hr = fd_ hr0 ∧ (∀ ro fd, uses hr ro fd → uses hr0 ro fd) ∧ (r = p ∧ hr = set_sub x h ∨ r ≠ p ∧ hr = hr0)) as Hlf.
  { intros r hr Hr. cbn in Hr. apply lookup_insert_Some in Hr as [[<- <-]|[? Hr]];
      [exists h|exists hr]; split_and!; auto. }
  assert (∀ r hr ro fd, handlers (set_world w (put_handler p (set_sub x h) s)) !! r = Some hr →
    uses hr ro fd → fd ∈ v_opened (view_of w)) as Hop.
  { intros r hr ro fd Hr Hu. destruct (Hlf _ _ Hr) as (hr0 & Hr0 & _ & _ & _ & _ & Hu0 & Hwho).
    pose proof (Fs _ _ _ _ Hr0 (Hu0 _ _ Hu)) as Hfd.
    destruct (Hcl fd Hfd) as [?|[[ro' Hro'] Hno]]; [done|].
    destruct (Fq _ _ _ _ _ _ _ Hr0 Hp (Hu0 _ _ Hu) Hro') as [-> _].
    destruct Hwho as [[_ ->]|[? _]]; [by destruct (Hno ro)|done]. }
  split; try done.
  - intros r hr Hr. destruct (Hlf _ _ Hr) as (hr0 & Hr0 & -> & _ & -> & -> & _).
    destruct (Fp _ _ Hr0) as (q & ? & ? & Hal & Hq). exists q. split_and!; try done.
    + intros (hq & Hhq & ?)%Hal. cbn. destruct (decide (p = q)) as [<-|].
      * rewrite lookup_insert_eq. exists (set_sub x h). split; [done|]. cbn. by simplify_eq; rewrite Ho.
      * rewrite lookup_insert_ne by done. by exists hq.
    + intros hq Hhq. destruct (Hlf _ _ Hhq) as (hq0 & Hq0 & -> & _ & _ & -> & _). by apply Hq.
  - intros r hr Hr. destruct (Hlf _ _ Hr) as (hr0 & Hr0 & _ & -> & -> & _). by apply (Fo r).
  - intros q. by rewrite refs_put.
  - intros r hr Hr. destruct (Hlf _ _ Hr) as (hr0 & Hr0 & _ & _ & _ & _ & _ & [[-> ->]|[Hne ->]]); [done|].
    eapply buf_ok_frame; [by eapply Fb|done|by eapply Hdis].
  - intros r q hr hq Hr Hq Hoth Hback HnA Hread.
    destruct (Hlf _ _ Hr) as (hr0 & Hr0 & Ho0 & _ & _ & _ & _ & [[-> ->]|[Hne ->]]).
    + destruct (Hlf _ _ Hq) as (hq0 & Hq0 & _ & _ & _ & _ & _ & [[-> ->]|[_ ->]]).
      * exfalso. cbn in Hoth. rewrite Ho in Hoth. destruct (Fp _ _ Hp) as (q & Hq' & Hne & _). congruence.
      * by eapply Hin.
    + destruct (Hlf _ _ Hq) as (hq0 & Hq0 & _ & _ & _ & _ & _ & [[-> ->]|[_ ->]]).
      * eapply (Fi r p hr0 h); try done; [by rewrite <- Ho| |by apply Hrd]. intros HA. by apply HnA, (HAB r Hne).
      * eapply (Fi r q hr0 hq0); try done. intros HA. by apply HnA, (HAB r Hne).
  - intros r hr Hr HnB Hw. destruct (Hlf _ _ Hr) as (hr0 & Hr0 & _ & _ & _ & _ & _ & [[-> ->]|[Hne ->]]);
      [by apply Hout|]. eapply (Fu r); try done. intros HB. by apply HnB, (HAB r Hne).
  - intros r q hr hq ro ro' fd Hr Hq Hu Hu'.
    destruct (Hlf _ _ Hr) as (hr0 & Hr0 & _ & _ & _ & _ & Hu0 & _).
    destruct (Hlf _ _ Hq) as (hq0 & Hq0 & _ & _ & _ & _ & Hv0 & _). apply (Fq r q hr0 hq0 ro ro' fd); auto.
  - split; [done|]. intros fd Hfd. destruct (Fwt fd Hfd) as (? & Hofd & Hno). split_and!; try done.
    + destruct (Hcl fd Hofd) as [?|[[ro Hro] _]]; [done|]. exfalso. by apply (Hno _ _ _ Hp Hro).
    + intros r hr ro Hr Hu. destruct (Hlf _ _ Hr) as (hr0 & Hr0 & _ & _ & _ & _ & Hu0 & _).
      apply (Hno r hr0 ro); auto.
Qed.

(** *** Closing *)

Definition pair (s : St) (p q : ptr) (hp hq : Handler) : Prop :=
  handlers s !! p = Some hp ∧ handlers s !! q = Some hq ∧
  other_ (sub_ hp) = Some q ∧ other_ (sub_ hq) = Some p ∧ p ≠ q.

Definition closed (l : LinkEventHandler) : LinkEventHandler := set_writable false (set_readable false l).

(** The loop's side of the state that the forwarder's methods leave alone. *)
Definition same_loop (s s' : St) : Prop :=
  pipe_ s' = pipe_ s ∧ pipe_fd s' = pipe_fd s ∧ timeout_ s' = timeout_ s ∧ clk s' = clk s.

Lemma wp_upd_link p f h (Q : unit → St → Prop) s :
  handlers s !! p = Some h → Q tt (put_handler p (set_sub (f (sub_ h)) h) s) →
  wp (upd_link p f) Q s.
Proof. intros Hp HQ. by apply (wp_upd_handler _ _ h). Qed.

Lemma wp_link p h (Q : LinkEventHandler → St → Prop) s :
  handlers s !! p = Some h → Q (sub_ h) s → wp (link p) Q s.
Proof. intros Hp HQ. unfold link. apply wp_bind. by apply (wp_handler _ h). Qed.

Lemma wp_other p h q (Q : ptr → St → Prop) s :
  handlers s !! p = Some h → other_ (sub_ h) = Some q → Q q s → wp (other p) Q s.
Proof. intros Hp Ho HQ. unfold other. apply wp_bind, (wp_link _ h); [done|]. rewrite Ho. by apply wp_ret. Qed.

Lemma put_put p h h' (s : St) : put_handler p h' (put_handler p h s) = put_handler p h' s.
Proof. unfold put_handler, set_handlers. cbn. by rewrite insert_insert_eq. Qed.

(** Changing the fields of a handler does not concern the loop. *)
Lemma Inv_sub ext news xs (s : St) p h x :
  Inv ext news xs s → handlers s !! p = Some h → Inv ext news xs (put_handler p (set_sub x h) s).
Proof.
  intros HI Hp. eapply Inv_put; cbn; try done.
  - by apply (inv_ref _ _ _ _ HI).
  - apply HI.
  - by apply (inv_kept _ _ _ _ HI).
  - intros (? & ? & _ & ?)%(inv_news _ _ _ _ HI). done.
Qed.

Lemma close_world_wp fd (Q : unit → St → Prop) s :
  fd ∈ v_opened (view_of (world s)) →
  (∀ k, view_of k = with_opened (v_opened (view_of (world s)) ∖ {[fd]}) (view_of (world s)) →
     Q tt (set_world k s)) →
  wp (on_world (close_checked fd)) Q s.
Proof.
  intros Hfd HQ. apply wp_zoom. unfold close_checked. apply wp_bind. unfold wp at 1.
  destruct (close_view fd (world s) Hfd) as (k & -> & Hv). wp_steps; [done|]. by apply HQ.
Qed.

(** What the heap of handlers is after the link [p] of [q] has been closed, and
    the reference to [q] has been given back. *)
Section closing.
Context (s s' : St) (p q : ptr) (hp hq : Handler).
Hypothesis Hpair : pair s p q hp hq.
Hypothesis Hhs : handlers s' =
  <[p := mkEH (fd_ hp) (deadline_ hp) false (ref_count_ hp - 1) (closed (sub_ hp))]>
    (<[q := set_ref (ref_count_ hq - 1) hq]> (handlers s)).

Lemma closed_lookup r hr : handlers s' !! r = Some hr → ∃ hr0, handlers s !! r = Some hr0 ∧
  fd_ hr = fd_ hr0 ∧ out_ (sub_ hr) = out_ (sub_ hr0) ∧ other_ (sub_ hr) = other_ (sub_ hr0) ∧
  (∀ ro fd, uses hr ro fd → uses hr0 ro fd ∧ (r = p → ro ≠ Sock)) ∧
  event_loop_ hr = (if decide (r = p) then false else event_loop_ hr0) ∧
  readable_ (sub_ hr) = (if decide (r = p) then false else readable_ (sub_ hr0)) ∧
  writable_ (sub_ hr) = (if decide (r = p) then false else writable_ (sub_ hr0)).
Proof.
  destruct Hpair as (Hp & Hq & _). rewrite Hhs. intros Hr.
  apply lookup_insert_Some in Hr as [[<- <-]|[Hnp Hr]]; [exists hp|apply lookup_insert_Some in Hr as [[<- <-]|[Hnq Hr]]; [exists hq|exists hr]];
    rewrite ?(decide_True _ _ eq_refl), ?decide_False by done; split_and!; try done.
  all: intros [] fd Hu; cbn in *; naive_solver.
Qed.

Lemma closed_None r : handlers s' !! r = None ↔ handlers s !! r = None.
Proof.
  destruct Hpair as (Hp & Hq & _). rewrite Hhs, !lookup_insert_None. split; [by intros [[]]|].
  intros Hr. split_and!; [done|congruence..].
Qed.

Lemma closed_is_Some r : is_Some (handlers s' !! r) ↔ is_Some (handlers s !! r).
Proof. rewrite <- !not_eq_None_Some. by rewrite closed_None. Qed.

Lemma closed_ref_from r y : (y, r) ≠ (p, q) → ref_from s' r y = ref_from s r y.
Proof.
  destruct Hpair as (Hp & Hq & Hop & _). intros Hne. unfold ref_from.
  destruct (handlers s' !! y) as [hy|] eqn:Hy; [|by rewrite (proj1 (closed_None y) Hy)].
  destruct (closed_lookup _ _ Hy) as (hy0 & Hy0 & _ & _ & -> & _ & _ & Hre & Hwr).
  rewrite Hy0. unfold open. rewrite Hre, Hwr. destruct (decide (y = p)) as [->|]; [|done].
  rewrite Hp in Hy0. simplify_eq. by rewrite !decide_False by congruence.
Qed.

Lemma closed_ref_pair : ref_from s' q p = 0%Z ∧ ref_from s q p = Z.b2z (open (sub_ hp)).
Proof.
  destruct Hpair as (Hp & Hq & Hop & _). unfold ref_from. rewrite Hhs, lookup_insert_eq, Hp.
  by rewrite !decide_True.
Qed.

Lemma closed_refs r :
  open (sub_ hp) = true → refs s' r = (refs s r + if decide (r = q) then -1 else 0)%Z.
Proof.
  destruct Hpair as (Hp & Hq & Hop & Hoq & Hne). intros Hopen. unfold refs.
  destruct (handlers s' !! r) as [hr|] eqn:Hr.
  2: { apply closed_None in Hr. rewrite Hr, decide_False by congruence. done. }
  destruct (closed_lookup _ _ Hr) as (hr0 & Hr0 & _ & _ & -> & _). rewrite Hr0.
  destruct (decide (r = q)) as [->|Hrq].
  - simplify_eq. rewrite Hoq. destruct closed_ref_pair as [-> ->]. by rewrite Hopen.
  - destruct (other_ (sub_ hr0)); [|done]. rewrite closed_ref_from by congruence. lia.
Qed.

Lemma closed_socket A B own news r hr ro fd :
  Fwd A B own news s → open (sub_ hp) = true → handlers s' !! r = Some hr → uses hr ro fd → fd ≠ fd_ hp.
Proof.
  destruct Hpair as (Hp & _). intros HF Hopen Hr Hu Heq.
  destruct (closed_lookup _ _ Hr) as (hr0 & Hr0 & _ & _ & _ & Hu0 & _). destruct (Hu0 _ _ Hu) as [Hu1 Hnot].
  destruct (fw_unique _ _ _ _ _ HF r p hr0 hp ro Sock fd Hr0 Hp Hu1) as [Hrp Hro]; [by split|]. by apply Hnot.
Qed.

Lemma closed_peer A B own news r hr :
  Fwd A B own news s → handlers s' !! r = Some hr →
  ∃ y, other_ (sub_ hr) = Some y ∧ y ≠ r ∧
    (open (sub_ hr) = true → ∃ hy, handlers s' !! y = Some hy ∧ other_ (sub_ hy) = Some r) ∧
    ∀ hy, handlers s' !! y = Some hy → other_ (sub_ hy) = Some r → fd_ hy ≠ fd_ hr.
Proof.
  intros HF Hr. destruct (closed_lookup _ _ Hr) as (hr0 & Hr0 & -> & _ & -> & _ & _ & Hre & Hwr).
  destruct (fw_peer _ _ _ _ _ HF _ _ Hr0) as (y & ? & ? & Hal & Hy). exists y. split_and!; try done.
  - intros Ho. assert (open (sub_ hr0) = true) as (hy0 & Hy0 & ?)%Hal.
    { unfold open in *. rewrite Hre, Hwr in Ho. by case_decide. }
    destruct (proj2 (closed_is_Some y) (ex_intro _ _ Hy0)) as [hy Hhy]. exists hy. split; [done|].
    destruct (closed_lookup _ _ Hhy) as (hy1 & Hy1 & _ & _ & -> & _). by simplify_eq.
  - intros hy Hhy. destruct (closed_lookup _ _ Hhy) as (hy0 & Hy0 & -> & _ & -> & _). by apply Hy.
Qed.

(** The invariant after a link has been closed. *)
Lemma Fwd_closed A B own :
  Fwd A B own ∅ s → open (sub_ hp) = true → A p ∨ readable_ (sub_ hq) = false →
  pipe_ s' = pipe_ s → pipe_fd s' = pipe_fd s →
  view_of (world s') = with_opened (v_opened (view_of (world s)) ∖ {[fd_ hp]}) (view_of (world s)) →
  Fwd A B (ext_add q (-1) own) ∅ s'.
Proof.
  intros HF Hopen HA Hpi Hpf Hv. pose proof Hpair as (Hp & _).
  assert (∀ r hr ro fd, handlers s' !! r = Some hr → uses hr ro fd → fd ≠ fd_ hp) as Hno
    by (intros; by eapply closed_socket).
  split; rewrite ?Hv; try done.
  - intros r hr. by apply (closed_peer _ _ _ _ _ _ HF).
  - intros r hr (hr0 & Hr0 & _ & _ & _ & _ & He & Hre & Hwr)%closed_lookup.
    unfold open. rewrite He, Hre, Hwr. case_decide; [done|]. by apply (fw_open _ _ _ _ _ HF r).
  - intros r. rewrite closed_refs by done. unfold ext_add. rewrite (fw_own _ _ _ _ _ HF r). case_decide; lia.
  - intros r hr Hr. destruct (closed_lookup _ _ Hr) as (hr0 & Hr0 & _ & Hout & _). rewrite Hout.
    eapply (buf_ok_frame {[fd_ hp]}); [by eapply (fw_buf _ _ _ _ _ HF)|apply agree_opened; set_solver|].
    intros fd Hfd ->%elem_of_singleton. rewrite <- Hout in Hfd.
    apply owned_uses in Hfd as [Hu|Hu]; by eapply Hno.
  - intros r y hr hy Hr Hy Hoth Hback HnA Hread.
    destruct (closed_lookup _ _ Hr) as (hr0 & Hr0 & _ & Hout & Hor & _ & _ & _ & Hwr).
    destruct (closed_lookup _ _ Hy) as (hy0 & Hy0 & _ & _ & Hoy & _ & _ & Hre & _).
    rewrite Hre in Hread. destruct (decide (y = p)); [done|]. rewrite Hwr, Hout. rewrite Hor in Hoth. rewrite Hoy in Hback.
    destruct (decide (r = p)) as [->|]; [|by eapply (fw_in _ _ _ _ _ HF)].
    destruct Hpair as (_ & Hq & Hop & _). simplify_eq. destruct HA; congruence.
  - intros r hr (hr0 & Hr0 & _ & -> & _ & _ & _ & _ & ->)%closed_lookup HnB Hw.
    case_decide; [done|]. by eapply (fw_out _ _ _ _ _ HF).
  - intros r hr ro fd Hr Hu. pose proof (Hno _ _ _ _ Hr Hu).
    destruct (closed_lookup _ _ Hr) as (hr0 & Hr0 & _ & _ & _ & Hu0 & _).
    pose proof (fw_uses _ _ _ _ _ HF r hr0 ro fd Hr0 (proj1 (Hu0 _ _ Hu))). cbn. set_solver.
  - intros r y hr hy ro ro' fd (hr0 & Hr0 & _ & _ & _ & Hu0 & _)%closed_lookup
      (hy0 & Hy0 & _ & _ & _ & Hv0 & _)%closed_lookup Hu Hu'.
    apply (fw_unique _ _ _ _ _ HF r y hr0 hy0 ro ro' fd); [done..|by apply Hu0|by apply Hv0].
  - destruct (fw_waiting _ _ _ _ _ HF) as [Fnd Fwt].
    unfold apart_fds, waiting_fds. rewrite Hpi, Hpf. split; [done|]. intros fd Hfd.
    destruct (Fwt fd Hfd) as (? & ? & Hnu). split_and!; try done.
    + cbn. apply elem_of_difference. split; [done|]. intros ->%elem_of_singleton. by apply (Hnu p hp Sock Hp).
    + intros r hr ro (hr0 & Hr0 & _ & _ & _ & Hu0 & _)%closed_lookup Hu. apply (Hnu r hr0 ro Hr0). by apply Hu0.
Qed.
End closing.

Lemma Close_wp A B tmp own xs s p q hp hq (Q : unit → St → Prop) :
  Inv (ext_plus tmp own) ∅ xs s → Fwd A B own ∅ s → pair s p q hp hq →
  (0 < tmp p)%Z → (0 < tmp q)%Z → A p ∨ readable_ (sub_ hq) = false →
  (open (sub_ hp) = false → Q tt s) →
  (∀ s' own' xs', open (sub_ hp) = true → Inv (ext_plus tmp own') ∅ xs' s' → Fwd A B own' ∅ s' →
     same_loop s s' → sublist xs' xs →
     view_of (world s') = with_opened (v_opened (view_of (world s)) ∖ {[fd_ hp]}) (view_of (world s)) →
     handlers s' = <[p := mkEH (fd_ hp) (deadline_ hp) false (ref_count_ hp - 1) (closed (sub_ hp))]>
       (<[q := set_ref (ref_count_ hq - 1) hq]> (handlers s)) → Q tt s') →
  wp (Close p) Q s.
Proof.
  intros HI HF Hpair Htp Htq HA Hshut HQ. pose proof Hpair as (Hp & Hq & Hop & Hoq & Hne).
  pose proof (refs_own _ _ _ _ _ _ _ _ _ HF Hp Hq Hop Hoq) as Hown.
  unfold Close. apply wp_bind, (wp_link _ hp); [done|]. apply wp_when; [|by intros; apply Hshut].
  intros Hopen. change (open (sub_ hp) = true) in Hopen. rewrite Hopen in Hown. cbn in Hown.
  assert (event_loop_ hp = true) as Hev by (by rewrite (fw_open _ _ _ _ _ HF _ _ Hp)).
  apply wp_bind, (wp_upd_link _ _ hp); [done|]. apply wp_bind.
  eapply wp_upd_link; [apply lookup_insert_eq|]. rewrite put_put. cbn [sub_ set_sub].
  set (s1 := put_handler p _ s).
  assert (Inv (ext_plus tmp own) ∅ xs s1) as HI1.
  { unfold s1. pose proof (Inv_sub _ _ _ _ _ _ (closed (sub_ hp)) HI Hp) as HI1. by destruct hp. }
  assert (handlers s1 !! q = Some hq) as Hq1 by (unfold s1; cbn; by rewrite lookup_insert_ne).
  apply wp_bind. eapply wp_other; [apply lookup_insert_eq|done|]. apply wp_bind.
  eapply DecRef_wp; [exact HI1|exact Hq1|unfold ext_plus; lia|right; unfold ext_plus; lia|]. intros HI2.
  apply wp_bind. eapply Remove_wp with (p := p); [exact HI2|..].
  - unfold s1. cbn. rewrite lookup_insert_ne by done. apply lookup_insert_eq.
  - done.
  - set_solver.
  - rewrite ext_add_ne by done. unfold ext_plus. rewrite (fw_own _ _ _ _ _ HF p).
    unfold refs, ref_from. rewrite Hp, Hop, Hq. case_decide; [|lia]. destruct (open (sub_ hq)); cbn; lia.
  - intros s3 ys HI3 (Hpi & Hpf & _ & _ & Hto & Hw) Hsub Hck Hint Hhs.
    apply wp_bind. eapply wp_handler; [by rewrite Hhs, lookup_insert_eq|].
    assert (world s3 = world s) as Hw3 by by rewrite Hw.
    eapply close_world_wp.
    { rewrite Hw3. by apply (fw_uses _ _ _ _ _ HF p hp Sock). }
    intros k Hv. rewrite Hw3 in Hv. cbn in Hv.
    assert (handlers (set_world k s3) = <[p := mkEH (fd_ hp) (deadline_ hp) false (ref_count_ hp - 1) (closed (sub_ hp))]>
       (<[q := set_ref (ref_count_ hq - 1) hq]> (handlers s))) as Hhs'.
    { cbn. rewrite Hhs. unfold s1. cbn. rewrite (insert_insert_ne _ q p), insert_insert_eq by done.
      done. }
    eapply HQ; [done| | |..|exact Hhs']; try done.
    + apply Inv_world. eapply Inv_ext_eq; [exact HI3|]. intros x. instantiate (1 := ext_add q (-1) own).
      unfold ext_plus, ext_add. case_decide; lia.
    + by eapply Fwd_closed.
Qed.

(** Exemptions that are not needed any more. *)
Lemma Fwd_relax A B A' B' own news s :
  Fwd A B own news s →
  (∀ r, ¬ A' r → ¬ A r ∨ ∀ hr q hq, handlers s !! r = Some hr → other_ (sub_ hr) = Some q →
     handlers s !! q = Some hq → other_ (sub_ hq) = Some r → readable_ (sub_ hq) = false) →
  (∀ r, ¬ B' r → ¬ B r ∨ ∀ hr, handlers s !! r = Some hr → writable_ (sub_ hr) = false) →
  Fwd A' B' own news s.
Proof.
  intros [Fn Fp Fo Fw Fb Fi Fu Fs Fq Fwt] HA HB. split; try done.
  - intros p q hp hq Hp Hq Ho Ho' Hn Hr. destruct (HA p Hn) as [?|Hno]; [by eapply Fi|].
    rewrite (Hno _ _ _ Hp Ho Hq Ho') in Hr. done.
  - intros p h Hp Hn Hw. destruct (HB p Hn) as [?|Hno]; [by eapply Fu|].
    rewrite (Hno _ Hp) in Hw. done.
Qed.

(** *** What a step of a pair of links changes *)
Definition hfds (h : Handler) : gset Z :=
  (if open (sub_ h) then {[fd_ h]} else ∅) ∪ owned (out_ (sub_ h)).

Lemma elem_of_hfds h fd : fd ∈ hfds h ↔ ∃ r, uses h r fd.
Proof.
  unfold hfds. rewrite elem_of_union, owned_uses. split.
  - intros [Hs|[?|?]]; [|by exists RdEnd|by exists WrEnd]. exists Sock. cbn.
    destruct (open (sub_ h)); set_solver.
  - intros [[] Hu]; [left|by right; left|by right; right]. destruct Hu as [-> ->]. set_solver.
Qed.

(** The bytes that flow from the socket [src] through the buffer to the socket
    [dst]: [d] is taken, [e] is given; nothing is lost, duplicated or
    reordered, unless both links are dead. *)
Definition flow (v v' : view) (src dst : Z) (b b' : Buffer) (dead : Prop) : Prop :=
  ∃ d e, bytes_at (v_taken v') src = bytes_at (v_taken v) src ++ d ∧
    bytes_at (v_given v') dst = bytes_at (v_given v) dst ++ e ∧
    ((pipe0 b < 0)%Z → d = [] ∧ e = [] ∧ (pipe0 b' < 0)%Z) ∧
    ((0 ≤ pipe0 b)%Z → ∃ rest, piped v (pipe0 b) ++ d = e ++ rest ∧
       ((0 ≤ pipe0 b')%Z → pipe0 b' = pipe0 b ∧ piped v' (pipe0 b') = rest) ∧
       ((pipe0 b' < 0)%Z → rest = [] ∨ dead)).

Lemma flow_kept v v' src dst b b' dead :
  v_taken v' !! src = v_taken v !! src → v_given v' !! dst = v_given v !! dst →
  ((0 ≤ pipe0 b)%Z → v_content v' !! pipe0 b = v_content v !! pipe0 b) →
  pipe0 b' = pipe0 b → flow v v' src dst b b' dead.
Proof.
  intros Ht Hg Hc Hb. exists [], []. unfold bytes_at. rewrite !app_nil_r, Ht, Hg, Hb.
  split_and!; [done..|]. intros Hp. exists (piped v (pipe0 b)). split; [by rewrite ?app_nil_r|]. split; [|lia].
  intros _. split; [done|]. by rewrite Hc.
Qed.

Lemma flow_same v v' src dst b dead :
  v_taken v' !! src = v_taken v !! src → v_given v' !! dst = v_given v !! dst →
  ((0 ≤ pipe0 b)%Z → v_content v' !! pipe0 b = v_content v !! pipe0 b) →
  flow v v' src dst b b dead.
Proof. intros. by apply flow_kept. Qed.

Lemma flow_trans v1 v2 v3 src dst b1 b2 b3 (dead2 dead3 : Prop) :
  (dead2 → dead3) → flow v1 v2 src dst b1 b2 dead2 → flow v2 v3 src dst b2 b3 dead3 →
  flow v1 v3 src dst b1 b3 dead3.
Proof.
  intros Hdead (d1 & e1 & Ht1 & Hg1 & Hcl1 & Hop1) (d2 & e2 & Ht2 & Hg2 & Hcl2 & Hop2).
  exists (d1 ++ d2), (e1 ++ e2). rewrite Ht2, Ht1, Hg2, Hg1, !(assoc_L (++)). split_and!; [done..| |].
  - intros Hneg. destruct (Hcl1 Hneg) as (-> & -> & Hneg2). destruct (Hcl2 Hneg2) as (-> & -> & ?). done.
  - intros Hpos. destruct (Hop1 Hpos) as (rest1 & Heq1 & Hr1 & Hc1).
    destruct (decide (0 ≤ pipe0 b2)%Z) as [Hp2|Hn2].
    + destruct (Hr1 Hp2) as [Hsame Hrest1]. destruct (Hop2 Hp2) as (rest2 & Heq2 & Hr2 & Hc2).
      exists rest2. rewrite Heq1, <- !(assoc_L (++)). rewrite Hrest1 in Heq2. rewrite Heq2.
      split; [done|]. split; [|done]. intros Hp3. destruct (Hr2 Hp3). split; [congruence|done].
    + destruct (Hcl2 ltac:(lia)) as (-> & -> & Hn3). exists rest1. rewrite !app_nil_r.
      split; [done|]. split; [lia|]. intros _. destruct (Hc1 ltac:(lia)); auto.
Qed.

Record link_keeps (h h' : Handler) : Prop := {
  lk_fd : fd_ h' = fd_ h;
  lk_name : name_ (sub_ h') = name_ (sub_ h);
  lk_deadline : deadline_ h' = deadline_ h;
  lk_other : other_ (sub_ h') = other_ (sub_ h);
  lk_uses : ∀ r fd, uses h' r fd → uses h r fd;
  lk_readable : readable_ (sub_ h') = true → readable_ (sub_ h) = true;
  lk_writable : writable_ (sub_ h') = true → writable_ (sub_ h) = true
}.

Lemma link_keeps_trans h1 h2 h3 : link_keeps h1 h2 → link_keeps h2 h3 → link_keeps h1 h3.
Proof. intros [] []. split; [congruence..|auto|auto|auto]. Qed.

Definition dead (hp hq : Handler) : Prop := open (sub_ hp) = false ∧ open (sub_ hq) = false.

Lemma dead_keeps hp hq hp' hq' : link_keeps hp hp' → link_keeps hq hq' → dead hp hq → dead hp' hq'.
Proof.
  intros [_ _ _ _ _ R1 W1] [_ _ _ _ _ R2 W2] [D1 D2]. unfold dead, open in *.
  apply orb_false_iff in D1 as [? ?], D2 as [? ?].
  split; apply orb_false_iff; split;
    (apply not_true_iff_false; intros Ht; first [apply R1 in Ht|apply W1 in Ht|apply R2 in Ht|apply W2 in Ht]; congruence).
Qed.

(** The only excuse for a loss of bytes: both links are closed, after a failure
    that splice(2) has reported between [s] and [s'], or because of [E]: an error
    of a socket, the timeout. *)
Definition broke (E : Prop) (s s' : St) (hp hq : Handler) : Prop :=
  dead hp hq ∧ (E ∨ v_failures (view_of (world s)) < v_failures (view_of (world s'))).

(** A link is no longer written to only after the reading end of its buffer has
    been closed; or else [D]. *)
Definition drained (D : Prop) (h h' : Handler) : Prop :=
  writable_ (sub_ h) = true → writable_ (sub_ h') = true ∨ (pipe0 (out_ (sub_ h')) < 0)%Z ∨ D.

Lemma drained_trans (D1 D2 : Prop) h1 h2 h3 :
  link_keeps h2 h3 → (D1 → D2) → drained D1 h1 h2 → drained D2 h2 h3 → drained D2 h1 h3.
Proof.
  intros Hk HD H12 H23 Hw. destruct (H12 Hw) as [Hw2|[Hneg|?]]; [by apply H23| |auto].
  right. left. destruct (Z.lt_ge_cases (pipe0 (out_ (sub_ h3))) 0) as [|Hpos]; [done|].
  destruct (lk_uses _ _ Hk RdEnd (pipe0 (out_ (sub_ h3)))) as [Heq _]; [by split|]. lia.
Qed.

Lemma drained_same D h h' : writable_ (sub_ h') = writable_ (sub_ h) → drained D h h'.
Proof. intros Hw ?. left. congruence. Qed.

Lemma drained_weaken (D D' : Prop) h h' : (D → D') → drained D h h' → drained D' h h'.
Proof. intros HD Hd Hw. destruct (Hd Hw) as [?|[?|?]]; auto. Qed.

(** From the pair [hp], [hq] in [s] to the pair [hp'], [hq'] in [s']; bytes may be
    lost if [D]. *)
Record pstep (D : Prop) (p q : ptr) (hp hq hp' hq' : Handler) (s s' : St) : Prop := {
  ps_loop : same_loop s s';
  ps_others : ∀ x, x ≠ p → x ≠ q → handlers s' !! x = handlers s !! x;
  ps_pair : pair s' p q hp' hq';
  ps_p : link_keeps hp hp';
  ps_q : link_keeps hq hq';
  ps_view : agree_off (hfds hp ∪ hfds hq) (view_of (world s)) (view_of (world s'));
  ps_flow_p : flow (view_of (world s)) (view_of (world s')) (fd_ hq) (fd_ hp) (out_ (sub_ hp))
    (out_ (sub_ hp')) D;
  ps_flow_q : flow (view_of (world s)) (view_of (world s')) (fd_ hp) (fd_ hq) (out_ (sub_ hq))
    (out_ (sub_ hq')) D;
  ps_drained : drained D hp hp' ∧ drained D hq hq'
}.

Lemma hfds_keeps h h' : link_keeps h h' → hfds h' ⊆ hfds h.
Proof. intros [_ _ _ _ Hu _ _] fd [r Hr]%elem_of_hfds. apply elem_of_hfds. exists r. auto. Qed.

Lemma pstep_trans (D1 D2 : Prop) p q hp1 hq1 hp2 hq2 hp3 hq3 s1 s2 s3 :
  pstep D1 p q hp1 hq1 hp2 hq2 s1 s2 → pstep D2 p q hp2 hq2 hp3 hq3 s2 s3 → (D1 → D2) →
  pstep D2 p q hp1 hq1 hp3 hq3 s1 s3.
Proof.
  intros [(?&?&?&?) O1 _ P1 Q1 V1 F1 G1 [J1 K1]] [(?&?&?&?) O2 Pair P2 Q2 V2 F2 G2 [J2 K2]] HD. split; try done.
  - split_and!; congruence.
  - intros x ??. by rewrite O2, O1.
  - by eapply link_keeps_trans.
  - by eapply link_keeps_trans.
  - eapply agree_trans; [done|]. eapply agree_mono; [done|]. apply hfds_keeps in P1, Q1. set_solver.
  - rewrite (lk_fd _ _ P1), (lk_fd _ _ Q1) in F2. by eapply flow_trans.
  - rewrite (lk_fd _ _ P1), (lk_fd _ _ Q1) in G2. by eapply flow_trans.
  - split; by eapply drained_trans.
Qed.

Lemma link_keeps_refl h : link_keeps h h.
Proof. by split. Qed.

Lemma pstep_refl D p q hp hq s : pair s p q hp hq → pstep D p q hp hq hp hq s s.
Proof.
  intros Hp. split; try done; try apply link_keeps_refl; try apply agree_refl; try by apply flow_same.
  split; by apply drained_same.
Qed.

Lemma pair_sym s p q hp hq : pair s p q hp hq → pair s q p hq hp.
Proof. intros (?&?&?&?&?). split_and!; auto. Qed.

Lemma pstep_sym D p q hp hq hp' hq' s s' :
  pstep D p q hp hq hp' hq' s s' → pstep D q p hq hp hq' hp' s s'.
Proof.
  intros [L O Pa P Q V F G [? ?]]. split; auto.
  - by apply pair_sym.
  - by rewrite (comm_L (∪)).
Qed.

Lemma flow_weaken v v' src dst b b' (D D' : Prop) :
  (D → D') → flow v v' src dst b b' D → flow v v' src dst b b' D'.
Proof.
  intros HD (d & e & ? & ? & ? & G). exists d, e. split_and!; auto. intros Hp.
  destruct (G Hp) as (rest & ? & ? & Hc). exists rest. split_and!; auto. intros Hn.
  destruct (Hc Hn) as [?|?]; auto.
Qed.

Lemma pstep_weaken (D D' : Prop) p q hp hq hp' hq' s s' :
  pstep D p q hp hq hp' hq' s s' → (D → D') → pstep D' p q hp hq hp' hq' s s'.
Proof.
  intros [? ? ? ? ? ? ? ? [? ?]] HD. split; auto; [by eapply flow_weaken..|].
  split; by eapply drained_weaken.
Qed.

(** Two steps, with the excuses of both. *)
Lemma broke_trans (E1 E : Prop) s s1 s2 hp hq :
  v_failures (view_of (world s)) ≤ v_failures (view_of (world s1)) →
  (E1 → E ∨ v_failures (view_of (world s)) < v_failures (view_of (world s1))) →
  v_failures (view_of (world s1)) ≤ v_failures (view_of (world s2)) →
  broke E1 s1 s2 hp hq → broke E s s2 hp hq.
Proof. intros H01 HE H12 [Hd [He|Hf]]; (split; [done|]); [destruct (HE He); [by left|right; lia]|right; lia]. Qed.

Lemma broke_keeps E s s1 s2 hp hq hp' hq' :
  link_keeps hp hp' → link_keeps hq hq' →
  v_failures (view_of (world s1)) ≤ v_failures (view_of (world s2)) →
  broke E s s1 hp hq → broke E s s2 hp' hq'.
Proof. intros ??? [? Hf]. split; [by eapply dead_keeps|]. destruct Hf; [by left|right; lia]. Qed.

Lemma pstep_failures D p q hp hq hp' hq' s s' :
  pstep D p q hp hq hp' hq' s s' → v_failures (view_of (world s)) ≤ v_failures (view_of (world s')).
Proof. intros Hst. apply (ag_failures _ _ _ (ps_view _ _ _ _ _ _ _ _ _ Hst)). Qed.

Lemma pstep_broke E p q hp1 hq1 hp2 hq2 hp3 hq3 s1 s2 s3 :
  pstep (broke E s1 s2 hp2 hq2) p q hp1 hq1 hp2 hq2 s1 s2 →
  pstep (broke E s2 s3 hp3 hq3) p q hp2 hq2 hp3 hq3 s2 s3 →
  pstep (broke E s1 s3 hp3 hq3) p q hp1 hq1 hp3 hq3 s1 s3.
Proof.
  intros H12 H23. pose proof (pstep_failures _ _ _ _ _ _ _ _ _ H12). pose proof (pstep_failures _ _ _ _ _ _ _ _ _ H23).
  eapply pstep_trans; [exact H12|eapply pstep_weaken; [exact H23|]|].
  - apply broke_trans; auto.
  - apply broke_keeps; [apply H23..|done].
Qed.

(** Closing is a step. *)
Lemma pstep_close (D : Prop) p q hp hq s s' :
  pair s p q hp hq → open (sub_ hp) = true → same_loop s s' →
  (writable_ (sub_ hp) = true → (pipe0 (out_ (sub_ hp)) < 0)%Z ∨ D) →
  view_of (world s') = with_opened (v_opened (view_of (world s)) ∖ {[fd_ hp]}) (view_of (world s)) →
  handlers s' = <[p := mkEH (fd_ hp) (deadline_ hp) false (ref_count_ hp - 1) (closed (sub_ hp))]>
    (<[q := set_ref (ref_count_ hq - 1) hq]> (handlers s)) →
  pstep D p q hp hq (mkEH (fd_ hp) (deadline_ hp) false (ref_count_ hp - 1) (closed (sub_ hp)))
    (set_ref (ref_count_ hq - 1) hq) s s'.
Proof.
  intros (Hp & Hq & Hop & Hoq & Hne) Hopen Hloop Hdr Hv Hhs. split; try done.
  - intros x ??. rewrite Hhs, !lookup_insert_ne; done.
  - unfold pair. rewrite Hhs, lookup_insert_eq, lookup_insert_ne, lookup_insert_eq by done. done.
  - split; cbn; try done. intros [] fd Hu; cbn in *; naive_solver.
  - rewrite Hv. apply agree_opened. intros fd Hfd. unfold hfds in Hfd. rewrite Hopen in Hfd. set_solver.
  - rewrite Hv. by apply flow_same.
  - rewrite Hv. by apply flow_same.
  - split; [intros Hw; right; by apply Hdr|by apply drained_same].
Qed.

(** What a method of a pair leaves. *)
Definition pair_post (E : Prop) (A B : ptr → Prop) (tmp : ptr → Z) (p q : ptr) (hp hq : Handler) (xs : list ptr)
    (s : St) (R : Handler → Handler → St → Prop) (s' : St) : Prop :=
  ∃ own' xs' hp' hq', Inv (ext_plus tmp own') ∅ xs' s' ∧ Fwd A B own' ∅ s' ∧ sublist xs' xs ∧
    pstep (broke E s s' hp' hq') p q hp hq hp' hq' s s' ∧ R hp' hq' s'.

Lemma Fwd_frame A B own news s s' :
  Fwd A B own news s → handlers s' = handlers s → view_of (world s') = view_of (world s) →
  pipe_ s' = pipe_ s → pipe_fd s' = pipe_fd s → Fwd A B own news s'.
Proof.
  intros [Fn Fp Fo Fw Fb Fi Fu Fs Fq Fwt] Hhs Hv Hpi Hpf.
  split; unfold refs, ref_from, apart_fds, waiting_fds in *; rewrite ?Hhs, ?Hv, ?Hpi, ?Hpf; done.
Qed.

Lemma pstep_frame D p q hp hq hp' hq' s s1 s' :
  pstep D p q hp hq hp' hq' s s1 → handlers s' = handlers s1 → view_of (world s') = view_of (world s1) →
  same_loop s1 s' → pstep D p q hp hq hp' hq' s s'.
Proof.
  intros [(?&?&?&?) O Pa P Q V F G J] Hhs Hv (?&?&?&?). split; rewrite ?Hv; try done.
  - split_and!; congruence.
  - intros x ??. rewrite Hhs. auto.
  - unfold pair in *. by rewrite Hhs.
Qed.

Lemma Terminate_wp A B A' B' tmp own xs s p q hp hq :
  Inv (ext_plus tmp own) ∅ xs s → Fwd A B own ∅ s → pair s p q hp hq →
  (0 < tmp p)%Z → (0 < tmp q)%Z →
  (∀ r, r ≠ p → r ≠ q → (A r → A' r) ∧ (B r → B' r)) →
  wp (Terminate p) (λ _, pair_post True A' B' tmp p q hp hq xs s (λ hp' hq' _, dead hp' hq')) s.
Proof.
  intros HI HF Hpair Htp Htq HAB.
  set (A1 := λ r, A r ∨ r = p ∨ r = q). set (B1 := λ r, B r ∨ r = p ∨ r = q).
  assert (Fwd A1 B1 own ∅ s) as HF1.
  { eapply Fwd_relax; [exact HF|..]; intros r Hr; left; unfold A1, B1 in Hr; naive_solver. }
  assert (∀ own2 xs2 hp2 hq2 s2, Inv (ext_plus tmp own2) ∅ xs2 s2 → Fwd A1 B1 own2 ∅ s2 →
    sublist xs2 xs → pstep True p q hp hq hp2 hq2 s s2 → open (sub_ hp2) = false →
    wp (q ← other p; Close q) (λ _, pair_post True A' B' tmp p q hp hq xs s (λ hp' hq' _, dead hp' hq')) s2)
    as Hsecond.
  { intros own2 xs2 hp2 hq2 s2 HI2 HF2 Hsub2 Hst2 Hop2.
    pose proof (ps_pair _ _ _ _ _ _ _ _ _ Hst2) as Hpair2.
    assert (∀ own3 s3 hp3 hq3, Fwd A1 B1 own3 ∅ s3 → pair s3 p q hp3 hq3 → dead hp3 hq3 →
      Fwd A' B' own3 ∅ s3) as Hend.
    { intros own3 s3 hp3 hq3 HF3 (Hp3 & Hq3 & Hop3 & Hoq3 & _) [D1 D2].
      unfold open in D1, D2. apply orb_false_iff in D1 as [R1 W1], D2 as [R2 W2].
      eapply Fwd_relax; [exact HF3|..]; intros r Hr.
      - destruct (decide (r = p)) as [->|]; [right; naive_solver|].
        destruct (decide (r = q)) as [->|]; [right; naive_solver|]. left.
        intros [?|[?|?]]; [|done..]. apply Hr. by apply HAB.
      - destruct (decide (r = p)) as [->|]; [right; naive_solver|].
        destruct (decide (r = q)) as [->|]; [right; naive_solver|]. left.
        intros [?|[?|?]]; [|done..]. apply Hr. by apply HAB. }
    destruct Hpair2 as (Hp2 & Hq2 & Ho2 & Hoq2 & Hne).
    apply wp_bind. eapply wp_other; [done|done|].
    eapply (Close_wp A1 B1 tmp own2 xs2 s2 q p hq2 hp2); [done|done|by apply pair_sym|done|done| | |].
    - unfold open in Hop2. apply orb_false_iff in Hop2 as [? _]. by right.
    - intros Hq. exists own2, xs2, hp2, hq2. split_and!; try done; [by eapply Hend|].
      eapply pstep_weaken; [exact Hst2|]. intros _. by split; [|left].
    - intros s3 own3 xs3 Hq HI3 HF3 Hl3 Hsub3 Hv3 Hhs3.
      pose proof (pstep_close True q p hq2 hp2 s2 s3 (pair_sym _ _ _ _ _ (ps_pair _ _ _ _ _ _ _ _ _ Hst2)) Hq Hl3 (λ _, or_intror I) Hv3 Hhs3)
        as Hst3%pstep_sym.
      match type of Hst3 with pstep _ _ _ _ _ ?hp3 ?hq3 _ _ => exists own3, xs3, hp3, hq3 end.
      split; [done|]. split; [|split; [by etrans|split; [|by split]]].
      + eapply Hend; [exact HF3|apply (ps_pair _ _ _ _ _ _ _ _ _ Hst3)|]. by split.
      + apply (pstep_weaken True); [|intros _; split; [by split|by left]]. eapply pstep_trans; [exact Hst2|exact Hst3|done]. }
  unfold Terminate. apply wp_bind.
  eapply (Close_wp A1 B1 tmp own xs s p q hp hq); [done..| | |].
  - left. by right; left.
  - intros Hclosed. eapply Hsecond; [done..|by apply pstep_refl|done].
  - intros s2 own2 xs2 Hopen HI2 HF2 Hl2 Hsub2 Hv2 Hhs2.
    eapply Hsecond; [done..| |].
    + eapply pstep_close; [done..|by right|done|done].
    + done.
Qed.

(** Changing a flag, then the interest list, then a shutdown of the socket. *)
Lemma half_close_wp A B tmp own xs s p q hp hq x evs how (Q : unit → St → Prop) :
  Inv (ext_plus tmp own) ∅ xs s → pair s p q hp hq → open (sub_ hp) = true →
  Fwd A B own ∅ (put_handler p (set_sub x hp) s) → x = set_readable false (sub_ hp) ∨ x = set_writable false (sub_ hp) →
  open x = true → (∀ D, drained D hp (set_sub x hp)) →
  (∀ s', Inv (ext_plus tmp own) ∅ xs s' → Fwd A B own ∅ s' →
     (∃ o, view_of (world s') = with_opened o (view_of (world s))) →
     (∀ D, pstep D p q hp hq (set_sub x hp) hq s s') → Q tt s') →
  wp (Modify (Some p) evs ;; shutdown_checked p how) Q (put_handler p (set_sub x hp) s).
Proof.
  intros HI Hpair Hopen HF Hx Hox Hdr HQ. pose proof Hpair as (Hp & Hq & Hop & Hoq & Hne).
  pose proof (Inv_sub _ _ _ _ _ _ x HI Hp) as HI1. set (s1 := put_handler p (set_sub x hp) s) in *.
  assert (handlers s1 !! p = Some (set_sub x hp)) as Hp1 by apply lookup_insert_eq.
  assert (open x = event_loop_ hp) as Hev.
  { pose proof (fw_open _ _ _ _ _ HF _ _ Hp1) as He. by cbn in He. }
  assert (fd_ hp ∈ v_opened (view_of (world s))) as Hfd.
  { apply (fw_uses _ _ _ _ _ HF p (set_sub x hp) Sock _ Hp1). by split. }
  apply wp_bind. eapply Modify_wp; [exact HI1|exact Hp1|cbn; congruence|].
  intros s2 HI2 (Hpi & Hpf & _ & _ & Hto & Hw) Hck Hhs2 _.
  unfold shutdown_checked. apply wp_bind. eapply wp_handler; [by rewrite Hhs2|]. apply wp_bind, wp_zoom.
  unfold wp at 1. cbn [fd_ set_sub].
  destruct (shutdown_ok (fd_ hp) how (world s2)) as (e & k & -> & He & Hv); [by rewrite Hw|].
  assert (view_of (world s2) = view_of (world s)) as Hv2 by by rewrite Hw.
  apply wp_CHECK; [by destruct He as [-> | ->]|]. apply HQ.
  - by apply Inv_world.
  - eapply Fwd_frame; [exact HF|done|cbn; by rewrite Hv|done|done].
  - exists (v_opened (view_of (world s))). cbn. rewrite Hv, Hv2. by destruct (view_of (world s)).
  - intros D. assert (handlers s2 = <[p := set_sub x hp]> (handlers s)) as Hhs by by rewrite Hhs2.
    split; cbn.
    + by split_and!.
    + intros y ??. by rewrite Hhs, lookup_insert_ne.
    + unfold pair. cbn. rewrite Hhs, lookup_insert_eq, lookup_insert_ne by done.
      split_and!; try done. by destruct Hx as [-> | ->].
    + split; cbn; try done; try by destruct Hx as [-> | ->].
      intros [] fd Hu; cbn in *; destruct Hx as [-> | ->]; naive_solver.
    + apply link_keeps_refl.
    + rewrite Hv, Hv2. apply agree_refl.
    + rewrite Hv, Hv2. destruct Hx as [-> | ->]; by apply flow_same.
    + rewrite Hv, Hv2. by apply flow_same.
    + split; [done|by apply drained_same].
Qed.

Lemma CloseForReading_wp A B A' tmp own xs s p q hp hq :
  Inv (ext_plus tmp own) ∅ xs s → Fwd A B own ∅ s → pair s p q hp hq →
  (0 < tmp p)%Z → (0 < tmp q)%Z → readable_ (sub_ hp) = true → ¬ A p →
  (∀ r, r ≠ q → A r → A' r) →
  wp (CloseForReading p) (λ _, pair_post False A' B tmp p q hp hq xs s (λ hp' hq' s',
    readable_ (sub_ hp') = false ∧ out_ (sub_ hp') = out_ (sub_ hp) ∧ sub_ hq' = sub_ hq ∧
    ∃ o, view_of (world s') = with_opened o (view_of (world s)))) s.
Proof.
  intros HI HF Hpair Htp Htq Hr HnA HA. pose proof Hpair as (Hp & Hq & Hop & Hoq & Hne).
  unfold CloseForReading. apply wp_bind, (wp_link _ hp); [done|]. apply wp_bind, wp_CHECK; [done|].
  assert (∀ own' s' hp', Fwd A B own' ∅ s' → handlers s' !! p = Some hp' → readable_ (sub_ hp') = false →
    (∃ hq', handlers s' !! q = Some hq' ∧ other_ (sub_ hq') = Some p) → Fwd A' B own' ∅ s') as Hend.
  { intros own' s' hp' HF' Hp' Hr' (hq' & Hq' & Hoq'). eapply Fwd_relax; [exact HF'|..]; intros r Hn; [|by left].
    destruct (decide (r = q)) as [->|]; [right|left; auto]. naive_solver. }
  destruct (writable_ (sub_ hp)) eqn:Hw.
  - apply wp_bind, (wp_upd_link _ _ hp); [done|].
    eapply (half_close_wp A B tmp own xs s p q hp hq (set_readable false (sub_ hp))); [done|done| | |by left| | |].
    + unfold open. by rewrite Hw, orb_true_r.
    + replace (put_handler p _ s) with (set_world (world s) (put_handler p (set_sub (set_readable false (sub_ hp)) hp) s))
        by (by destruct s).
      eapply Fwd_update with (S := ∅); cbn; try done.
      * unfold open; cbn. by rewrite Hr, Hw.
      * by eapply fw_buf.
      * intros [] fd Hu; cbn in *; unfold open in *; cbn in *; [rewrite Hr; naive_solver|done|done].
      * intros fd Hfd. by left.
      * intros q' hq' Hn Hoth Hq' Hoq' Hr'. destruct (fw_in _ _ _ _ _ HF p q' hp hq' Hp Hq') as [? ?]; done.
      * intros Hn _. by apply (fw_out _ _ _ _ _ HF p hp).
    + unfold open; cbn. done.
    + intros D. by apply drained_same.
    + intros s' HI' HF' Ho Hst. pose proof (ps_pair _ _ _ _ _ _ _ _ _ (Hst True)) as (Hp' & Hq' & _ & Hoq' & _).
      exists own, xs, (set_sub (set_readable false (sub_ hp)) hp), hq. split_and!; try done. by eapply Hend; eauto.
  - assert (readable_ (sub_ hq) = false) as Hrq.
    { destruct (readable_ (sub_ hq)) eqn:E; [|done].
      destruct (fw_in _ _ _ _ _ HF p q hp hq) as [? _]; try done. congruence. }
    assert (open (sub_ hp) = true) as Hopen by (unfold open; by rewrite Hr).
    eapply (Close_wp A B tmp own xs s p q hp hq); [done..|by right|congruence|].
    intros s' own' xs' _ HI' HF' Hl' Hsub' Hv' Hhs'.
    assert (∀ D, writable_ (sub_ hp) = true → (pipe0 (out_ (sub_ hp)) < 0)%Z ∨ D) as Hdr by congruence.
    pose proof (λ D, pstep_close D p q hp hq s s' Hpair Hopen Hl' (Hdr D) Hv' Hhs') as Hst.
    pose proof (ps_pair _ _ _ _ _ _ _ _ _ (Hst True)) as (Hp' & Hq' & _ & Hoq' & _).
    eexists own', xs', _, _. split_and!; try done; [by eapply Hend; eauto|by eexists].
Qed.

Lemma CloseForWriting_wp A B B' tmp own xs s p q hp hq :
  Inv (ext_plus tmp own) ∅ xs s → Fwd A B own ∅ s → pair s p q hp hq →
  (0 < tmp p)%Z → (0 < tmp q)%Z → writable_ (sub_ hp) = true → ¬ A p →
  (pipe0 (out_ (sub_ hp)) < 0)%Z → (pipe1 (out_ (sub_ hp)) < 0)%Z → (∀ r, r ≠ p → B r → B' r) →
  wp (CloseForWriting p) (λ _, pair_post False A B' tmp p q hp hq xs s (λ hp' hq' s',
    writable_ (sub_ hp') = false ∧ out_ (sub_ hp') = out_ (sub_ hp) ∧ sub_ hq' = sub_ hq ∧
    ∃ o, view_of (world s') = with_opened o (view_of (world s)))) s.
Proof.
  intros HI HF Hpair Htp Htq Hw HnA Hp0 Hp1 HB. pose proof Hpair as (Hp & Hq & Hop & Hoq & Hne).
  assert (readable_ (sub_ hq) = false) as Hrq.
  { destruct (readable_ (sub_ hq)) eqn:E; [|done].
    destruct (fw_in _ _ _ _ _ HF p q hp hq) as [_ ?]; try done. lia. }
  unfold CloseForWriting. apply wp_bind, (wp_link _ hp); [done|]. apply wp_bind, wp_CHECK; [done|].
  assert (∀ own' s' hp', Fwd A B own' ∅ s' → handlers s' !! p = Some hp' → writable_ (sub_ hp') = false →
    Fwd A B' own' ∅ s') as Hend.
  { intros own' s' hp' HF' Hp' Hw'. eapply Fwd_relax; [exact HF'|..]; intros r Hn; [by left|].
    destruct (decide (r = p)) as [->|]; [right|left; auto]. naive_solver. }
  destruct (readable_ (sub_ hp)) eqn:Hr.
  - apply wp_bind, (wp_upd_link _ _ hp); [done|].
    eapply (half_close_wp A B tmp own xs s p q hp hq (set_writable false (sub_ hp))); [done|done| | |by right| | |].
    + unfold open. by rewrite Hr.
    + replace (put_handler p _ s) with (set_world (world s) (put_handler p (set_sub (set_writable false (sub_ hp)) hp) s))
        by (by destruct s).
      eapply Fwd_update with (S := ∅); cbn; try done.
      * unfold open; cbn. by rewrite Hr, Hw.
      * by eapply fw_buf.
      * intros [] fd Hu; cbn in *; unfold open in *; cbn in *; [rewrite Hr; naive_solver|done|done].
      * intros fd Hfd. by left.
      * intros q' hq' Hn Hoth Hq' _ Hr'. rewrite Hop in Hoth. simplify_eq. congruence.
    + unfold open; cbn. by rewrite Hr.
    + intros D _. right. by left.
    + intros s' HI' HF' Ho Hst. pose proof (ps_pair _ _ _ _ _ _ _ _ _ (Hst True)) as (Hp' & _).
      exists own, xs, (set_sub (set_writable false (sub_ hp)) hp), hq. split_and!; try done. by eapply Hend.
  - assert (open (sub_ hp) = true) as Hopen by (unfold open; by rewrite Hw, orb_true_r).
    eapply (Close_wp A B tmp own xs s p q hp hq); [done..|by right|congruence|].
    intros s' own' xs' _ HI' HF' Hl' Hsub' Hv' Hhs'.
    pose proof (λ D, pstep_close D p q hp hq s s' Hpair Hopen Hl' (λ _, or_introl Hp0) Hv' Hhs') as Hst.
    pose proof (ps_pair _ _ _ _ _ _ _ _ _ (Hst True)) as (Hp' & _).
    eexists own', xs', _, _. split_and!; try done; [by eapply Hend|by eexists].
Qed.
End forwarder.
