(* ===== verification/ForwarderTheorems.v ===== *)
(** * What the forwarder promises (forwarder.cc)

    The loop of [ForwardFromOther], the callbacks, and the theorems. *)

From S2P Require Import Prelude Logging IntrusiveList Epoll EventLoop LoopTheorems Sock Buffer Forwarder.

Section theorems.
Context {K EK PQ : Type} `{ForwardLaws K} `{!SockOptLaws K} `{EpollLaws EK} `{PipeLaws PQ (Z * Z)} `{Reserved}.
Abbreviation St := (EventLoop.St LinkEventHandler K EK PQ).
Abbreviation Handler := (EventHandler LinkEventHandler).

Lemma owned_sub b b' :
  pipe0 b' = pipe0 b ∨ pipe0 b' = (-1)%Z → pipe1 b' = pipe1 b ∨ pipe1 b' = (-1)%Z →
  owned b' ⊆ owned b.
Proof.
  intros H0' H1' fd. unfold owned. rewrite !elem_of_union, !elem_of_nonneg.
  destruct H0' as [-> | ->], H1' as [-> | ->]; lia.
Qed.

(** One operation of the buffer of a link, on one of the two sockets. *)
Lemma out_step A' B' D tmp own xs (s : St) p q hp hq b' k fd hp' s' :
  Inv (ext_plus tmp own) ∅ xs s → Fwd none none own ∅ s → pair s p q hp hq →
  hp' = set_sub (set_out b' (sub_ hp)) hp → s' = set_world k (put_handler p hp' s) →
  fd = fd_ hp ∧ open (sub_ hp) = true ∨ fd = fd_ hq ∧ open (sub_ hq) = true →
  agree_off ({[fd]} ∪ owned (out_ (sub_ hp))) (view_of (world s)) (view_of k) →
  v_taken (view_of k) !! fd_ hp = v_taken (view_of (world s)) !! fd_ hp →
  v_given (view_of k) !! fd_ hq = v_given (view_of (world s)) !! fd_ hq →
  buf_ok b' (view_of k) →
  pipe0 b' = pipe0 (out_ (sub_ hp)) ∨ pipe0 b' = (-1)%Z ∧ B' p →
  pipe1 b' = pipe1 (out_ (sub_ hp)) ∨ pipe1 b' = (-1)%Z ∧ A' p →
  (∀ x, x ∈ v_opened (view_of (world s)) → x ∈ v_opened (view_of k) ∨
     x ∈ owned (out_ (sub_ hp)) ∧ x ∉ owned b') →
  flow (view_of (world s)) (view_of k) (fd_ hq) (fd_ hp) (out_ (sub_ hp)) b' D →
  Inv (ext_plus tmp own) ∅ xs s' ∧ Fwd A' B' own ∅ s' ∧ pstep D p q hp hq hp' hq s s'.
Proof.
  intros HI HF Hpair -> -> Hfd Hag Htk Hgv Hbuf Hp0 Hp1 Hcl Hflow.
  pose proof Hpair as (Hp & Hq & Hop & Hoq & Hne).
  assert (owned b' ⊆ owned (out_ (sub_ hp))) as Hsub by (apply owned_sub; naive_solver).
  assert (∀ r x, uses (set_sub (set_out b' (sub_ hp)) hp) r x → uses hp r x) as Huses.
  { intros [] x Hu; cbn in *; [done|destruct Hp0 as [E|[E _]]|destruct Hp1 as [E|[E _]]]; rewrite E in Hu;
      [done|lia|done|lia]. }
  assert (∃ r y hy, handlers s !! y = Some hy ∧ (y = p ∨ y = q) ∧ uses hy r fd ∧ r = Sock) as (ro & y & hy & Hy & Hyw & Hyu & ->).
  { destruct Hfd as [[-> ?]|[-> ?]]; exists Sock; [exists p, hp|exists q, hq]; (split_and!; [done|auto|done|done]). }
  assert (∀ r hr x, r ≠ p → handlers s !! r = Some hr → x ∈ owned (out_ (sub_ hr)) →
    x ∉ {[fd]} ∪ owned (out_ (sub_ hp))) as Hdis.
  { intros r hr x Hrp Hr Hx [->%elem_of_singleton|Hx']%elem_of_union.
    - apply owned_uses in Hx as [Hu|Hu]; by destruct (fw_unique _ _ _ _ _ HF _ _ _ _ _ _ _ Hr Hy Hu Hyu).
    - apply owned_uses in Hx as [Hu|Hu]; apply owned_uses in Hx' as [Hu'|Hu'];
        by destruct (fw_unique _ _ _ _ _ HF _ _ _ _ _ _ _ Hr Hp Hu Hu'). }
  split; [|split].
  - apply Inv_world. by apply Inv_sub.
  - eapply (Fwd_update none none A' B' own ∅ s p hp (set_out b' (sub_ hp)) k); try done.
    + intros r hr Hrp Hr x Hx. by apply Hdis with r hr.
    + intros x Hx. destruct (Hcl x Hx) as [?|[Hx1 Hx2]]; [by left|]. right.
      apply owned_uses in Hx1. split; [destruct Hx1; eauto|]. intros [] Hu.
      * apply Huses in Hu. destruct Hx1 as [Hu'|Hu']; by destruct (fw_unique _ _ _ _ _ HF p p hp hp _ _ x Hp Hp Hu Hu').
      * apply Hx2. apply (owned_uses (set_sub (set_out b' (sub_ hp)) hp)). by left.
      * apply Hx2. apply (owned_uses (set_sub (set_out b' (sub_ hp)) hp)). by right.
    + intros q' hq' HnA Hoth Hq' Hback Hr. cbn in *.
      destruct (fw_in _ _ _ _ _ HF p q' hp hq' Hp Hq' Hoth Hback) as [? ?]; [by intros []|done|]. split; [done|].
      destruct Hp1 as [E|[_ ?]]; [by rewrite E|done].
    + intros HnB Hw. destruct Hp0 as [E|[_ ?]]; [|done]. cbn. rewrite E.
      apply (fw_out _ _ _ _ _ HF p hp); [done|by intros []|done].
  - split; cbn; try done; [| | | |by split; apply drained_same].
    + intros x Hxp _. by rewrite lookup_insert_ne.
    + unfold pair. cbn. rewrite lookup_insert_eq, lookup_insert_ne by done. done.
    + eapply agree_mono; [done|]. unfold hfds. destruct Hfd as [[-> ->]|[-> ->]]; set_solver.
    + apply flow_same; [done|done|]. intros Hq0.
      apply (ag_content _ _ _ Hag). apply Hdis with q hq; [done..|].
      unfold owned. rewrite elem_of_union, !elem_of_nonneg. auto.
Qed.

Lemma pair_fds own (s : St) p q hp hq :
  Fwd none none own ∅ s → pair s p q hp hq → fd_ hq ≠ fd_ hp.
Proof.
  intros HF (Hp & Hq & Hop & Hoq & _). destruct (fw_peer _ _ _ _ _ HF _ _ Hp) as (q' & Ho & _ & _ & Hback).
  simplify_eq. by apply Hback.
Qed.
Lemma pair_post_mono E A B tmp p q hp hq xs (s : St) (R R' : Handler → Handler → St → Prop) s' :
  pair_post E A B tmp p q hp hq xs s R s' →
  (∀ hp' hq', fd_ hp' = fd_ hp → fd_ hq' = fd_ hq →
     v_failures (view_of (world s)) ≤ v_failures (view_of (world s')) → R hp' hq' s' → R' hp' hq' s') →
  pair_post E A B tmp p q hp hq xs s R' s'.
Proof.
  intros (own' & xs' & hp' & hq' & HI & HF & Hsub & Hst & HR) HRR.
  exists own', xs', hp', hq'. split_and!; try done.
  apply HRR; [apply (ps_p _ _ _ _ _ _ _ _ _ Hst)|apply (ps_q _ _ _ _ _ _ _ _ _ Hst)|by eapply pstep_failures|done].
Qed.

Lemma pair_post_sym E A B tmp p q hp hq xs (s : St) R s' :
  pair_post E A B tmp q p hq hp xs s R s' →
  pair_post E A B tmp p q hp hq xs s (λ hp' hq' s', R hq' hp' s') s'.
Proof.
  intros (own' & xs' & hq' & hp' & HI & HF & Hsub & Hst & HR).
  exists own', xs', hp', hq'. split_and!; try done. apply pstep_sym.
  apply (pstep_weaken (broke E s s' hq' hp')); [done|]. by intros [[] ?].
Qed.

Lemma pair_post_step (E1 E D : Prop) A B tmp p q hp hq hp1 hq1 xs xs1 (s s1 : St) R s' :
  pstep D p q hp hq hp1 hq1 s s1 → sublist xs1 xs →
  (E1 → E ∨ v_failures (view_of (world s)) < v_failures (view_of (world s1))) →
  (∀ hp' hq', link_keeps hp1 hp' → link_keeps hq1 hq' → R hp' hq' s' → D →
     v_failures (view_of (world s1)) ≤ v_failures (view_of (world s')) → broke E s s' hp' hq') →
  pair_post E1 A B tmp p q hp1 hq1 xs1 s1 R s' → pair_post E A B tmp p q hp hq xs s R s'.
Proof.
  intros Hst1 Hsub1 HE HD (own' & xs' & hp' & hq' & HI & HF & Hsub & Hst & HR).
  exists own', xs', hp', hq'. split_and!; try done; [by etrans|].
  pose proof (pstep_failures _ _ _ _ _ _ _ _ _ Hst1). pose proof (pstep_failures _ _ _ _ _ _ _ _ _ Hst).
  eapply pstep_trans; [exact Hst1|eapply pstep_weaken; [exact Hst|by apply broke_trans]|]. intros ?.
  eapply HD; [apply (ps_p _ _ _ _ _ _ _ _ _ Hst)|apply (ps_q _ _ _ _ _ _ _ _ _ Hst)|done..].
Qed.

(** Nothing has happened. *)
Lemma pair_post_idle E tmp own xs (s : St) p q hp hq k (R : Handler → Handler → St → Prop) :
  Inv (ext_plus tmp own) ∅ xs s → Fwd none none own ∅ s → pair s p q hp hq →
  view_of k = view_of (world s) → R hp hq (set_world k s) →
  pair_post E none none tmp p q hp hq xs s R (set_world k s).
Proof.
  intros HI HF Hpair Hv HR. exists own, xs, hp, hq. split_and!; try done.
  - by apply Inv_world.
  - by eapply Fwd_frame.
  - eapply pstep_frame; [by apply pstep_refl|done|done|by split_and!].
Qed.

Lemma pair_post_refl E tmp own xs (s : St) p q hp hq (R : Handler → Handler → St → Prop) :
  Inv (ext_plus tmp own) ∅ xs s → Fwd none none own ∅ s → pair s p q hp hq →
  R hp hq s → pair_post E none none tmp p q hp hq xs s R s.
Proof. intros HI HF Hpair HR. exists own, xs, hp, hq. split_and!; try done. by apply pstep_refl. Qed.

Lemma set_world_same (s : St) : set_world (world s) s = s.
Proof. by destruct s. Qed.

(** A method of the buffer that leaves it as it is. *)
Lemma put_same (s : St) p h k :
  handlers s !! p = Some h →
  set_world k (put_handler p (set_sub (set_out (out_ (sub_ h)) (sub_ h)) h) s) = set_world k s.
Proof.
  intros Hp. destruct s as [? ? hs]. cbn in *. unfold set_world, put_handler, set_handlers. cbn.
  replace (set_sub (set_out (out_ (sub_ h)) (sub_ h)) h) with h by (by destruct h as [? ? ? ? []]).
  by rewrite insert_id.
Qed.

Lemma wp_on_out {A} p (m : M (Buffer * K) A) h (Q : A → St → Prop) s :
  handlers s !! p = Some h →
  wp m (λ a bk, Q a (set_world bk.2 (put_handler p (set_sub (set_out bk.1 (sub_ h)) h) s)))
    (out_ (sub_ h), world s) →
  wp (on_out p m) Q s.
Proof. intros Hp Hm. apply (wp_on_sub _ _ h); [done|]. by apply wp_zoom. Qed.

(** Nothing can be taken from the socket of [hq] into the buffer of [hp]: [hq] is
    not read any more, or the buffer is full, and there has been no call; or the
    call of splice(2) for what there is room for, which has led from [k] to
    [k'], has answered [EAGAIN]. *)
Definition in_stuck (hp hq : Handler) (k k' : K) : Prop :=
  (readable_ (sub_ hq) = false ∨ no_room (out_ (sub_ hp))) ∧ k' = k ∨
  source_blocks (fd_ hq) (out_ (sub_ hp)) k k'.

(** Nothing can be given from the buffer of [hp] to its socket. *)
Definition out_stuck (hp : Handler) (k k' : K) : Prop :=
  (writable_ (sub_ hp) = false ∨ nothing_yet (out_ (sub_ hp))) ∧ k' = k ∨
  sink_blocks (fd_ hp) (out_ (sub_ hp)) k k'.

(** What one half of an iteration leaves. *)
Definition half_post (why : K → K → Prop) (hp hq : Handler) (s : St) (i : progress) (hp' hq' : Handler) (s' : St) : Prop :=
  match i with
  | Moved => measure_of hp' hq' (view_of (world s')) < measure_of hp hq (view_of (world s))
  | Broken => broke False s s' hp' hq'
  | Idle => hp' = hp ∧ hq' = hq ∧ view_of (world s') = view_of (world s) ∧ why (world s) (world s')
  end.

Definition only (p : ptr) : ptr → Prop := λ r, r = p.

(** *** The two halves of an iteration *)
Section halves.
Context (tmp own : ptr → Z) (xs : list ptr) (s : St) (p q : ptr) (hp hq : Handler).
Hypothesis HI : Inv (ext_plus tmp own) ∅ xs s.
Hypothesis HF : Fwd none none own ∅ s.
Hypothesis Hpair : pair s p q hp hq.

(** The state in which the buffer of [p] is [b]. *)
Definition buffer_is (b : Buffer) (k : K) : St := set_world k (put_handler p (set_sub (set_out b (sub_ hp)) hp) s).

Lemma half_moved W b' k fd :
  fd = fd_ hp ∧ open (sub_ hp) = true ∨ fd = fd_ hq ∧ open (sub_ hq) = true →
  agree_off ({[fd]} ∪ owned (out_ (sub_ hp))) (view_of (world s)) (view_of k) →
  v_taken (view_of k) !! fd_ hp = v_taken (view_of (world s)) !! fd_ hp →
  v_given (view_of k) !! fd_ hq = v_given (view_of (world s)) !! fd_ hq →
  buf_ok b' (view_of k) →
  pipe0 b' = pipe0 (out_ (sub_ hp)) → pipe1 b' = pipe1 (out_ (sub_ hp)) →
  v_opened (view_of k) = v_opened (view_of (world s)) →
  flow (view_of (world s)) (view_of k) (fd_ hq) (fd_ hp) (out_ (sub_ hp)) b' False →
  measure_of (set_sub (set_out b' (sub_ hp)) hp) hq (view_of k) < measure_of hp hq (view_of (world s)) →
  pair_post False none none tmp p q hp hq xs s (half_post W hp hq s Moved) (buffer_is b' k).
Proof.
  intros Hfd Hag Htk Hgv Hbuf Hp0 Hp1 Ho Hflow Hm.
  edestruct (out_step none none False tmp own xs s p q hp hq b' k fd) as (HI1 & HF1 & Hst1);
    [done|done|done|reflexivity|reflexivity|done|done|done|done|done|by left|by left|intros x Hx; left; by rewrite Ho|done|].
  exists own, xs. do 2 eexists. split; [exact HI1|]. split; [exact HF1|]. split; [done|].
  split; [by eapply pstep_weaken|exact Hm].
Qed.

(** [WriteFrom] has taken [d] from the peer's socket. *)
Lemma half_taken W k d :
  readable_ (sub_ hq) = true → (0 ≤ pipe0 (out_ (sub_ hp)))%Z → d ≠ [] →
  (size_of (out_ (sub_ hp)) + Z.of_nat (length d) ≤ capacity_ (out_ (sub_ hp)))%Z →
  length d ≤ supply (view_of (world s)) (fd_ hq) →
  view_of k = with_content (pipe0 (out_ (sub_ hp))) (piped (view_of (world s)) (pipe0 (out_ (sub_ hp))) ++ d)
    (with_taken (fd_ hq) d (view_of (world s))) →
  pair_post False none none tmp p q hp hq xs s (half_post W hp hq s Moved)
    (buffer_is (set_size_ (size_of (out_ (sub_ hp)) + Z.of_nat (length d)) (out_ (sub_ hp))) k).
Proof.
  intros Hr Hp0 Hd Hfit Hsup Hv. pose proof Hpair as (Hp & _).
  pose proof (fw_buf _ _ _ _ _ HF _ _ Hp) as Hbuf. pose proof (pair_fds _ _ _ _ _ _ HF Hpair) as Hfds.
  destruct (bo_read _ _ Hbuf Hp0) as (_ & Hlen & _).
  assert (pipe0 (out_ (sub_ hp)) ∈ owned (out_ (sub_ hp))) as Hown0 by (apply owned_uses; left; by split).
  apply half_moved with (fd_ hq); rewrite ?Hv; cbn; try done.
  - right. unfold open. by rewrite Hr.
  - eapply agree_trans; [apply (agree_taken _ _ (fd_ hq) d); set_solver|]. apply agree_content. set_solver.
  - by rewrite lookup_insert_ne.
  - apply buf_ok_content; [by apply buf_ok_taken|done|rewrite length_app; cbn; lia|done].
  - exists d, []. cbn. rewrite bytes_at_insert, !app_nil_r. split_and!; [done|done|lia|].
    intros _. exists (piped (view_of (world s)) (pipe0 (out_ (sub_ hp))) ++ d).
    rewrite bytes_at_insert. split_and!; [done..|lia].
  - unfold measure_of. cbn. rewrite lookup_insert_eq. cbn.
    assert (0 < length d) by (destruct d; [done|cbn; lia]). lia.
Qed.

(** [ReadTo] has given [d] to the link's socket. *)
Lemma half_given W k d rest :
  writable_ (sub_ hp) = true → (0 ≤ pipe0 (out_ (sub_ hp)))%Z → d ≠ [] →
  piped (view_of (world s)) (pipe0 (out_ (sub_ hp))) = d ++ rest →
  view_of k = with_content (pipe0 (out_ (sub_ hp))) rest (with_given (fd_ hp) d (view_of (world s))) →
  pair_post False none none tmp p q hp hq xs s (half_post W hp hq s Moved)
    (buffer_is (set_size_ (size_of (out_ (sub_ hp)) - Z.of_nat (length d)) (out_ (sub_ hp))) k).
Proof.
  intros Hw Hp0 Hd Hdr Hv. pose proof Hpair as (Hp & _).
  pose proof (fw_buf _ _ _ _ _ HF _ _ Hp) as Hbuf. pose proof (pair_fds _ _ _ _ _ _ HF Hpair) as Hfds.
  destruct (bo_read _ _ Hbuf Hp0) as (_ & Hlen & Hcap). pose proof (bo_size _ _ Hbuf) as Hsz.
  assert (pipe0 (out_ (sub_ hp)) ∈ owned (out_ (sub_ hp))) as Hown0 by (apply owned_uses; left; by split).
  assert (length d + length rest = Z.to_nat (size_of (out_ (sub_ hp)))) as Hl
    by (rewrite <- length_app, <- Hdr; lia).
  apply half_moved with (fd_ hp); rewrite ?Hv; cbn; try done.
  - left. unfold open. by rewrite Hw, orb_true_r.
  - eapply agree_trans; [apply (agree_given _ _ (fd_ hp) d); set_solver|]. apply agree_content. set_solver.
  - by rewrite lookup_insert_ne.
  - apply buf_ok_content; [by apply buf_ok_given|done|lia|lia].
  - exists [], d. cbn. rewrite bytes_at_insert, !app_nil_r. split_and!; [done|done|lia|].
    intros _. exists rest. rewrite bytes_at_insert. split_and!; [done..|lia].
  - unfold measure_of. cbn.
    assert (0 < length d) by (destruct d; [done|cbn; lia]). lia.
Qed.

(** [WriteFrom] has closed the writing end. *)
Lemma half_shut_in k v1 :
  v1 = view_of (world s) ∨ v1 = with_failure (view_of (world s)) →
  open (sub_ hq) = true → (0 ≤ pipe0 (out_ (sub_ hp)))%Z → (0 ≤ pipe1 (out_ (sub_ hp)))%Z →
  view_of k = with_opened (v_opened (view_of (world s)) ∖ {[pipe1 (out_ (sub_ hp))]}) v1 →
  let hp1 := set_sub (set_out (set_pipe1 (-1) (out_ (sub_ hp))) (sub_ hp)) hp in
  let s1 := buffer_is (set_pipe1 (-1) (out_ (sub_ hp))) k in
  Inv (ext_plus tmp own) ∅ xs s1 ∧ Fwd (only p) none own ∅ s1 ∧ pstep False p q hp hq hp1 hq s s1.
Proof.
  intros Hv1 Ho Hp0 Hp1 Hv hp1 s1. pose proof Hpair as (Hp & _). pose proof (fw_buf _ _ _ _ _ HF _ _ Hp) as Hbuf.
  assert (pipe1 (out_ (sub_ hp)) ∈ owned (out_ (sub_ hp))) as Hown1 by (apply owned_uses; right; by split).
  apply (out_step (only p) none False tmp own xs s p q hp hq (set_pipe1 (-1) (out_ (sub_ hp))) k (fd_ hq));
    [done|done|done|reflexivity|reflexivity|by right|..]; rewrite ?Hv; cbn; try done.
  - eapply agree_trans; [|apply (agree_opened _ v1)].
    + destruct Hv1 as [-> | ->]; [apply agree_refl|apply agree_failure].
    + destruct Hv1 as [-> | ->]; cbn; set_solver.
  - by destruct Hv1 as [-> | ->].
  - by destruct Hv1 as [-> | ->].
  - by eapply buf_ok_close1.
  - by left.
  - by right.
  - intros x Hx. destruct (decide (x = pipe1 (out_ (sub_ hp)))) as [->|]; [right|left; set_solver].
    split; [done|]. unfold owned. cbn. rewrite elem_of_union, !elem_of_nonneg.
    pose proof (bo_distinct _ _ Hbuf Hp0). lia.
  - destruct Hv1 as [-> | ->]; by apply flow_kept.
Qed.

(** [ReadTo] has closed the reading end; [D] if there was something to read. *)
Lemma half_shut_out k v1 v2 (D : Prop) :
  open (sub_ hp) = true → (0 ≤ pipe0 (out_ (sub_ hp)))%Z →
  v1 = view_of (world s) ∨ v1 = with_content (pipe0 (out_ (sub_ hp))) [] (view_of (world s)) →
  v2 = v1 ∨ v2 = with_failure v1 →
  view_of k = with_opened (v_opened (view_of (world s)) ∖ {[pipe0 (out_ (sub_ hp))]}) v2 →
  (piped (view_of (world s)) (pipe0 (out_ (sub_ hp))) = [] ∨ D) →
  let hp1 := set_sub (set_out (set_pipe0 (-1) (out_ (sub_ hp))) (sub_ hp)) hp in
  let s1 := buffer_is (set_pipe0 (-1) (out_ (sub_ hp))) k in
  Inv (ext_plus tmp own) ∅ xs s1 ∧ Fwd none (only p) own ∅ s1 ∧ pstep D p q hp hq hp1 hq s s1.
Proof.
  intros Ho Hp0 Hv1 Hv2 Hv HD hp1 s1. pose proof Hpair as (Hp & _). pose proof (fw_buf _ _ _ _ _ HF _ _ Hp) as Hbuf.
  assert (pipe0 (out_ (sub_ hp)) ∈ owned (out_ (sub_ hp))) as Hown0 by (apply owned_uses; left; by split).
  assert (v_taken v2 = v_taken (view_of (world s)) ∧ v_given v2 = v_given (view_of (world s)) ∧
    v_opened v2 = v_opened (view_of (world s))) as (Ht & Hg & Ho2)
    by (by destruct Hv2 as [-> | ->], Hv1 as [-> | ->]).
  apply (out_step none (only p) D tmp own xs s p q hp hq (set_pipe0 (-1) (out_ (sub_ hp))) k (fd_ hp));
    [done|done|done|reflexivity|reflexivity|by left|..]; rewrite ?Hv; cbn; try done.
  - eapply agree_trans; [|apply (agree_opened _ v2); rewrite Ho2; set_solver].
    apply agree_trans with v1; [destruct Hv1 as [-> | ->]|destruct Hv2 as [-> | ->]];
      first [apply agree_refl|apply agree_failure|apply agree_content; set_solver].
  - by rewrite Ht.
  - by rewrite Hg.
  - destruct Hv2 as [-> | ->]; [|apply (buf_ok_failure _ (with_opened _ v1))]; by eapply buf_ok_close0.
  - by right.
  - by left.
  - intros x Hx. destruct (decide (x = pipe0 (out_ (sub_ hp)))) as [->|]; [right|left; set_solver].
    split; [done|]. unfold owned. cbn. rewrite elem_of_union, !elem_of_nonneg.
    pose proof (bo_distinct _ _ Hbuf Hp0). lia.
  - exists [], []. unfold bytes_at at 1 2 3 4. cbn. rewrite Ht, Hg, !app_nil_r.
    split_and!; [done|done|lia|]. intros _. eexists. split_and!; [done|cbn; lia|done].
Qed.

Hypothesis Htp : (0 < tmp p)%Z.
Hypothesis Htq : (0 < tmp q)%Z.

(** [Terminate], after splice(2) has failed and the buffer has been closed. *)
Lemma half_broken A1 B1 D W hp1 s1 :
  Inv (ext_plus tmp own) ∅ xs s1 → Fwd A1 B1 own ∅ s1 → pstep D p q hp hq hp1 hq s s1 →
  v_failures (view_of (world s)) < v_failures (view_of (world s1)) →
  (∀ r, r ≠ p → ¬ A1 r ∧ ¬ B1 r) →
  wp (Terminate p ;; mret Broken) (λ i s', pair_post False none none tmp p q hp hq xs s (half_post W hp hq s i) s') s1.
Proof.
  intros HI1 HF1 Hst1 Hlt HAB. apply wp_bind.
  eapply wp_mono; [eapply (Terminate_wp A1 B1 none none tmp own xs s1 p q hp1 hq);
    [exact HI1|exact HF1|apply Hst1|done|done|naive_solver]|].
  intros [] s' Hpost. apply wp_ret. eapply (pair_post_step True); [exact Hst1|done|intros _; by right| |].
  - cbn. by intros hp' hq' _ _ Hd _ Hle.
  - eapply pair_post_mono; [exact Hpost|]. intros hp' hq' _ _ Hle Hd. split; [done|]. right. lia.
Qed.

Lemma half_in_wp :
  wp (half_in p) (λ i s', pair_post False none none tmp p q hp hq xs s
    (half_post (in_stuck hp hq) hp hq s i) s') s.
Proof.
  pose proof Hpair as (Hp & Hq & Hop & Hoq & Hne).
  unfold half_in. apply wp_bind, (wp_other _ hp q); [done..|]. apply wp_bind, (wp_link _ hq); [done|].
  destruct (readable_ (sub_ hq)) eqn:Hrq.
  2: { apply wp_ret. apply pair_post_refl with own; [done..|]. split_and!; try done. left. auto. }
  destruct (fw_in _ _ _ _ _ HF p q hp hq) as [Hw Hp1]; try done; [by intros []|].
  assert (0 ≤ pipe0 (out_ (sub_ hp)))%Z as Hp0 by (eapply fw_out; [exact HF|exact Hp|by intros []|done]).
  assert (open (sub_ hq) = true) as Hoq' by (unfold open; by rewrite Hrq).
  apply wp_bind, (wp_handler _ hq); [done|]. apply wp_bind, (wp_on_out _ _ hp); [done|].
  apply WriteFrom_wp; [by apply (fw_buf _ _ _ _ _ HF _ _ Hp)|done|done| | | |].
  { apply (fw_uses _ _ _ _ _ HF q hq Sock _ Hq). by split. }
  - intros k Hv Hwhy. apply wp_ret. cbn. rewrite put_same by done.
    apply pair_post_idle with own; try done. split_and!; try done.
    destruct Hwhy as [[? ->]|Hb]; [left; auto|by right].
  - intros k d Hd Hfit Hsup Hv. apply wp_ret. by apply half_taken.
  - intros k st v1 Hst Hv.
    destruct (half_shut_in k v1) as (HI1 & HF1 & Hst1); [destruct Hst as [[_ ?]|[_ ?]]; auto|done..|].
    set (hp1 := set_sub _ hp) in *. set (s1 := buffer_is _ k) in *.
    change (set_world (set_pipe1 (-1) (out_ (sub_ hp)), k).2 _) with s1.
    destruct Hst as [[-> ->]|[-> ->]].
    2: { eapply half_broken; [exact HI1|exact HF1|exact Hst1|unfold s1; cbn; rewrite Hv; cbn; lia|]. intros r Hr. by split; [|intros []]. }
    pose proof (ps_pair _ _ _ _ _ _ _ _ _ Hst1) as Hpair1. pose proof Hpair1 as (Hp1' & _ & Hop1 & _).
    apply wp_bind, (wp_other p hp1 q); [exact Hp1'|done|]. apply wp_bind.
    eapply wp_mono; [eapply (CloseForReading_wp (only p) none none tmp own xs s1 q p hq hp1);
      [exact HI1|exact HF1|by apply pair_sym|done|done|done|by apply not_eq_sym|by intros r Hr ->]|].
    intros [] s' Hpost%pair_post_sym. apply wp_ret.
    eapply (pair_post_step False); [exact Hst1|done|by intros []|by intros ???? []|].
    eapply pair_post_mono; [exact Hpost|]. intros hp' hq' _ Hfd' _ (Hr' & _ & Hsub & o & Hv').
    cbn [half_post]. unfold measure_of. rewrite Hr', Hsub, Hfd', Hv', Hrq. unfold s1. cbn. rewrite Hv. cbn. lia.
Qed.

Lemma half_out_wp :
  wp (half_out p) (λ i s', pair_post False none none tmp p q hp hq xs s
    (half_post (out_stuck hp) hp hq s i) s') s.
Proof.
  pose proof Hpair as (Hp & Hq & Hop & Hoq & Hne).
  unfold half_out. apply wp_bind, (wp_link _ hp); [done|].
  destruct (writable_ (sub_ hp)) eqn:Hw.
  2: { apply wp_ret. apply pair_post_refl with own; [done..|]. split_and!; try done. left. auto. }
  assert (0 ≤ pipe0 (out_ (sub_ hp)))%Z as Hp0 by (eapply fw_out; [exact HF|exact Hp|by intros []|done]).
  assert (open (sub_ hp) = true) as Hop' by (unfold open; by rewrite Hw, orb_true_r).
  pose proof (fw_buf _ _ _ _ _ HF _ _ Hp) as Hbuf. destruct (bo_read _ _ Hbuf Hp0) as (_ & Hlen & _).
  apply wp_bind, (wp_handler _ hp); [done|]. apply wp_bind, (wp_on_out _ _ hp); [done|].
  apply ReadTo_wp; [done|done| | | | |].
  { apply (fw_uses _ _ _ _ _ HF p hp Sock _ Hp). by split. }
  - intros k Hv Hwhy. apply wp_ret. cbn. rewrite put_same by done.
    apply pair_post_idle with own; try done. split_and!; try done.
    destruct Hwhy as [[? ->]|Hb]; [left; auto|by right].
  - intros k d rest Hd Hdr Hv. apply wp_ret. by eapply half_given.
  - intros k Hz Hp1 Hv.
    destruct (half_shut_out k (view_of (world s)) (view_of (world s)) False) as (HI1 & HF1 & Hst1);
      [done|done|by left|by left|done| |].
    { left. apply length_zero_iff_nil. lia. }
    set (hp1 := set_sub _ hp) in *. set (s1 := buffer_is _ k) in *.
    change (set_world (set_pipe0 (-1) (out_ (sub_ hp)), k).2 _) with s1.
    apply wp_bind. eapply wp_mono; [eapply (CloseForWriting_wp none (only p) none tmp own xs s1 p q hp1 hq);
      [exact HI1|exact HF1|apply Hst1|done|done|done|by intros []|done|done|by intros r Hr ->]|].
    intros [] s' Hpost. apply wp_ret.
    eapply (pair_post_step False); [exact Hst1|done|by intros []|by intros ???? []|].
    eapply pair_post_mono; [exact Hpost|]. intros hp' hq' _ Hfd' _ (Hw' & Hout & Hsub & o & Hv').
    cbn [half_post]. unfold measure_of. rewrite Hw', Hout, Hsub, Hfd', Hv', Hw. unfold s1. cbn. rewrite Hv. cbn. lia.
  - intros k v1 Hv1 Hv.
    destruct (half_shut_out k v1 (with_failure v1) True) as (HI1 & HF1 & Hst1); [done|done|done|by right|done|by right|].
    eapply half_broken; [exact HI1|exact HF1|exact Hst1| |].
    { cbn. rewrite Hv. destruct Hv1 as [-> | ->]; cbn; lia. }
    intros r Hr. by split; [intros []|].
Qed.
End halves.

Lemma pair_post_after E A B tmp p q hp hq hp1 hq1 xs xs1 (s s1 : St) R s' :
  pstep (broke E s s1 hp1 hq1) p q hp hq hp1 hq1 s s1 → sublist xs1 xs →
  pair_post E A B tmp p q hp1 hq1 xs1 s1 R s' → pair_post E A B tmp p q hp hq xs s R s'.
Proof.
  intros. eapply pair_post_step; [done|done|by left| |done]. intros hp' hq' ?? _ ??. by eapply broke_keeps.
Qed.

(** What [ForwardFromOther] leaves: both links are closed after a failure of
    splice(2), or neither side of
    the buffer can move: the last two calls, which have led to the kernel [k],
    have moved nothing; if it returns [false] in the latter case, nothing has
    been moved. *)
Definition settled (hp hq : Handler) (k : K) : Prop :=
  ∃ k0 k1, view_of k0 = view_of k ∧ view_of k1 = view_of k ∧ in_stuck hp hq k0 k1 ∧ out_stuck hp k1 k.
Definition loop_post (res b : bool) (hp hq : Handler) (s : St) (hp' hq' : Handler) (s' : St) : Prop :=
  (b = false ∧ broke False s s' hp' hq') ∨
  (settled hp' hq' (world s') ∧
   (b = true ∨ b = res ∧ hp' = hp ∧ hq' = hq ∧ view_of (world s') = view_of (world s))).

Lemma forward_loop_wp fuel tmp own xs (s : St) p q hp hq res :
  Inv (ext_plus tmp own) ∅ xs s → Fwd none none own ∅ s → pair s p q hp hq →
  (0 < tmp p)%Z → (0 < tmp q)%Z →
  measure_of hp hq (view_of (world s)) < fuel →
  wp (forward_loop p res fuel) (λ b s', pair_post False none none tmp p q hp hq xs s
    (loop_post res b hp hq s) s') s.
Proof.
  revert own xs s hp hq res. induction fuel as [|fuel IH]; intros own xs s hp hq res HI HF Hpair Htp Htq Hfuel; [lia|].
  cbn [forward_loop]. eapply wp_bind_mono; [by eapply half_in_wp|].
  intros i s1 (own1 & xs1 & hp1 & hq1 & HI1 & HF1 & Hsub1 & Hst1 & Hpost1).
  pose proof (ps_pair _ _ _ _ _ _ _ _ _ Hst1) as Hpair1.
  assert (i ≠ Broken → wp (o ← half_out p; match i, o with
      | _, Broken => mret false | Idle, Idle => mret res | _, _ => forward_loop p true fuel end)
    (λ b s', pair_post False none none tmp p q hp hq xs s (loop_post res b hp hq s) s') s1) as Hrest.
  { intros Hi. eapply wp_bind_mono; [by eapply half_out_wp|].
    intros o s2 (own2 & xs2 & hp2 & hq2 & HI2 & HF2 & Hsub2 & Hst2 & Hpost2).
    assert (pstep (broke False s s2 hp2 hq2) p q hp hq hp2 hq2 s s2) as Hst by (by eapply pstep_broke).
    assert (xs2 `sublist_of` xs) as Hsub by (by etrans).
    assert (measure_of hp2 hq2 (view_of (world s2)) < measure_of hp hq (view_of (world s)) →
      wp (forward_loop p true fuel) (λ b s', pair_post False none none tmp p q hp hq xs s
        (loop_post res b hp hq s) s') s2) as Hagain.
    { intros Hlt. eapply wp_mono; [eapply (IH own2 xs2 s2 hp2 hq2 true); try done; [apply Hst|lia]|].
      intros b s' Hpost. eapply pair_post_after; [exact Hst|done|].
      eapply pair_post_mono; [exact Hpost|]. intros hp' hq' _ _ Hle [[? Hbr]|[? [?|[-> _]]]]; [left; split; [done|]|right; auto..].
      eapply broke_trans, Hbr; [by eapply pstep_failures|done|done]. }
    destruct i, o; cbn [half_post] in Hpost1, Hpost2; try done.
    - apply Hagain. lia.
    - destruct Hpost2 as (-> & -> & Hv2 & _). apply Hagain. by rewrite Hv2.
    - apply wp_ret. exists own2, xs2, hp2, hq2. split_and!; try done. left. split; [done|].
      eapply broke_trans, Hpost2; [by eapply pstep_failures|done|by eapply pstep_failures].
    - destruct Hpost1 as (-> & -> & Hv1 & _). apply Hagain. by rewrite <- Hv1.
    - destruct Hpost1 as (-> & -> & Hv1 & Hin), Hpost2 as (-> & -> & Hv2 & Hout).
      apply wp_ret. exists own2, xs2, hp, hq. split_and!; try done. right. rewrite Hv1 in Hv2.
      split; [exists (world s), (world s1)|by right]. by rewrite Hv1, Hv2.
    - apply wp_ret. exists own2, xs2, hp2, hq2. split_and!; try done. left. split; [done|].
      eapply broke_trans, Hpost2; [by eapply pstep_failures|done|by eapply pstep_failures]. }
  destruct i; [by apply Hrest..|]. apply wp_ret. exists own1, xs1, hp1, hq1. split_and!; try done. by left.
Qed.

Lemma ForwardFromOther_wp tmp own xs (s : St) p q hp hq :
  Inv (ext_plus tmp own) ∅ xs s → Fwd none none own ∅ s → pair s p q hp hq →
  (0 < tmp p)%Z → (0 < tmp q)%Z →
  wp (ForwardFromOther p) (λ b s', pair_post False none none tmp p q hp hq xs s
    (loop_post false b hp hq s) s') s.
Proof.
  intros HI HF Hpair Htp Htq. pose proof Hpair as (Hp & Hq & Hop & _).
  unfold ForwardFromOther, forward_fuel. do 2 apply wp_bind. apply (wp_handler _ hp); [done|].
  apply wp_bind, (wp_other _ hp q); [done..|]. apply wp_bind, (wp_handler _ hq); [done|].
  apply wp_gets. eapply forward_loop_wp; try done. lia.
Qed.
(** *** The callbacks *)

(** Forwarding to [p], if [b]. *)
Definition forwarded_to (b : bool) (p : ptr) (hp hq : Handler) (s : St) (moved : bool) (hp' hq' : Handler) (s' : St) : Prop :=
  if b then ForwardFromOther p s = Done (moved, s') ∧ loop_post false moved hp hq s hp' hq' s'
  else moved = false ∧ hp' = hp ∧ hq' = hq ∧ s' = s.

(** What the events of [p] ask for: after an error both links are closed;
    otherwise [EPOLLOUT] forwards to [p] and [EPOLLIN] to its peer [q], one
    after the other. *)
Definition both_ways (left_first out_ready in_ready : bool) (p q : ptr) (hp hq : Handler) (s : St) (moved : bool)
    (hp' hq' : Handler) (s' : St) : Prop :=
  ∃ m1 m2 hp1 hq1 s1, moved = m1 || m2 ∧
    if left_first then forwarded_to out_ready p hp hq s m1 hp1 hq1 s1 ∧ forwarded_to in_ready q hq1 hp1 s1 m2 hq' hp' s'
    else forwarded_to in_ready q hq hp s m2 hq1 hp1 s1 ∧ forwarded_to out_ready p hp1 hq1 s1 m1 hp' hq' s'.
Definition processed (left_first : bool) (events : Z) (p q : ptr) (hp hq : Handler) (s : St) (moved : bool)
    (hp' hq' : Handler) (s' : St) : Prop :=
  if HasBits events EPOLLERR then moved = false ∧ dead hp' hq'
  else both_ways left_first (HasBits events EPOLLOUT) (HasBits events EPOLLIN) p q hp hq s moved hp' hq' s'.

Definition way_ok (tmp : ptr → Z) (p q : ptr) (m : M St bool)
    (R : Handler → Handler → St → bool → Handler → Handler → St → Prop) : Prop := ∀ own xs s hp hq,
  Inv (ext_plus tmp own) ∅ xs s → Fwd none none own ∅ s → pair s p q hp hq →
  wp m (λ b s', pair_post False none none tmp p q hp hq xs s (R hp hq s b) s') s.

Lemma pair_post_weaken (E E' : Prop) A B tmp p q hp hq xs (s : St) R s' :
  (E → E') → pair_post E A B tmp p q hp hq xs s R s' → pair_post E' A B tmp p q hp hq xs s R s'.
Proof.
  intros HE (own' & xs' & hp' & hq' & HI & HF & Hsub & Hst & HR). exists own', xs', hp', hq'.
  split_and!; try done. eapply pstep_weaken; [exact Hst|]. by apply broke_trans; [|left; apply HE|apply (pstep_failures _ _ _ _ _ _ _ _ _ Hst)].
Qed.

Lemma way_left b tmp p q : (0 < tmp p)%Z → (0 < tmp q)%Z →
  way_ok tmp p q (if b : bool then ForwardFromOther p else mret false) (forwarded_to b p).
Proof.
  intros Htp Htq own xs s hp hq HI HF Hpair. destruct b.
  - eapply wp_mono; [apply wp_run; by eapply ForwardFromOther_wp|].
    intros m s' [Hrun Hpost]. eapply pair_post_mono; [exact Hpost|]. by intros hp' hq' _ _ _.
  - apply wp_ret. by eapply pair_post_refl.
Qed.

Lemma way_right b tmp p q : (0 < tmp p)%Z → (0 < tmp q)%Z →
  way_ok tmp p q (if b : bool then (q ← other p; ForwardFromOther q) else mret false)
    (λ hp hq s m hp' hq', forwarded_to b q hq hp s m hq' hp').
Proof.
  intros Htp Htq own xs s hp hq HI HF Hpair. pose proof Hpair as (Hp & _ & Ho & _).
  pose proof (way_left b tmp q p Htq Htp own xs s hq hp HI HF (pair_sym _ _ _ _ _ Hpair)) as Hway.
  assert (wp (if b then q ← other p; ForwardFromOther q else mret false)
    (λ m s', pair_post False none none tmp q p hq hp xs s (forwarded_to b q hq hp s m) s') s) as Hrun.
  { destruct b; [|exact Hway]. by apply wp_bind, (wp_other _ hp q). }
  eapply wp_mono; [exact Hrun|]. intros m s' Hpost. by apply pair_post_sym in Hpost.
Qed.

Lemma way_both tmp p q m1 m2 (f : bool → bool → bool) R1 R2 :
  way_ok tmp p q m1 R1 → way_ok tmp p q m2 R2 →
  way_ok tmp p q (a ← m1; b ← m2; mret (f a b)) (λ hp hq s m hp' hq' s', ∃ a b hp1 hq1 s1,
    m = f a b ∧ R1 hp hq s a hp1 hq1 s1 ∧ R2 hp1 hq1 s1 b hp' hq' s').
Proof.
  intros H1' H2' own xs s hp hq HI HF Hpair. eapply wp_bind_mono; [by eapply H1'|].
  intros a s1 (own1 & xs1 & hp1 & hq1 & HI1 & HF1 & Hsub1 & Hst1 & Hpost1).
  eapply wp_bind_mono; [eapply H2'; [done|done|apply Hst1]|]. intros b s2 Hpost2. apply wp_ret.
  eapply pair_post_after; [exact Hst1|done|]. eapply pair_post_mono; [exact Hpost2|].
  intros hp' hq' _ _ _ HR. by exists a, b, hp1, hq1, s1.
Qed.

Lemma Process_wp min_lvl left_first tmp own xs (s : St) p q hp hq events :
  Inv (ext_plus tmp own) ∅ xs s → Fwd none none own ∅ s → pair s p q hp hq →
  (0 < tmp p)%Z → (0 < tmp q)%Z →
  wp (Process min_lvl left_first p events) (λ m s',
    pair_post (HasBits events EPOLLERR = true) none none tmp p q hp hq xs s
      (processed left_first events p q hp hq s m) s') s.
Proof.
  intros HI HF Hpair Htp Htq. unfold Process, processed. destruct (HasBits events EPOLLERR).
  - pose proof Hpair as (Hp & _).
    apply wp_bind, (wp_handler _ hp); [done|]. apply wp_bind.
    assert (∀ k, view_of k = view_of (world s) → wp (Terminate p ;; mret false)
      (λ b s', pair_post (true = true) none none tmp p q hp hq xs s (λ hp' hq' _, b = false ∧ dead hp' hq') s') (set_world k s)) as Hend.
    { intros k Hv. eapply wp_bind_mono.
      - eapply (Terminate_wp none none none none tmp own xs _ p q hp hq);
          [by apply Inv_world|by eapply Fwd_frame|done|done|done|done].
      - intros [] s' Hpost. apply wp_ret. eapply (pair_post_step True _ False _ _ _ _ _ _ _ hp hq xs xs s (set_world k s));
          [|done|by left|by intros|].
        + eapply pstep_frame; [by apply pstep_refl|done|exact Hv|by split_and!].
        + eapply pair_post_mono; [exact Hpost|]. by intros hp' hq' _ _ _. }
    unfold log_info. apply wp_when; intros _.
    + apply wp_bind, wp_zoom, SockError_wp. intros err k Hk. apply wp_ret, Hend.
      pose proof (sockopt_view (fd_ hp) (world s)) as Hv. by rewrite Hk in Hv.
    + specialize (Hend (world s) eq_refl). by rewrite set_world_same in Hend.
  - pose proof (way_left (HasBits events EPOLLOUT) tmp p q Htp Htq) as Hl.
    pose proof (way_right (HasBits events EPOLLIN) tmp p q Htp Htq) as Hr.
    destruct left_first; (eapply wp_mono; [by eapply way_both|]); intros m s' Hpost;
      (apply (pair_post_weaken False); [done|]); (eapply pair_post_mono; [exact Hpost|]).
    + intros hp' hq' _ _ _ (a & b & hp1 & hq1 & s1 & -> & ? & ?). by exists a, b, hp1, hq1, s1.
    + intros hp' hq' _ _ _ (b & a & hp1 & hq1 & s1 & -> & ? & ?). by exists a, b, hp1, hq1, s1.
Qed.
End theorems.
