(* ===== verification/ForwarderLoop.v ===== *)
(** * The forwarder in its event loop (forwarder.cc)

    Two linked handlers as a client of the loop: the invariant that every
    callback keeps, which says what has reached each socket; creation; runs. *)

From S2P Require Import Prelude Logging IntrusiveList Epoll EventLoop LoopTheorems Sock Buffer Forwarder ForwarderTheorems.

(** What the forwarder says to a side before it relays anything. *)
Definition greeting (n : link_name) : bytes :=
  match n with Client => kResponse | Server => [] end.

(** The bytes in a buffer that are still to be read. *)
Definition buffered (b : Buffer) (v : view) : bytes :=
  if decide (0 ≤ pipe0 b)%Z then piped v (pipe0 b) else [].

Section loop.
Context {K EK PQ : Type} `{ForwardLaws K} `{!SockOptLaws K} `{EpollLaws EK} `{PipeLaws PQ (Z * Z)} `{Reserved}.
Abbreviation St := (EventLoop.St LinkEventHandler K EK PQ).
Abbreviation Handler := (EventHandler LinkEventHandler).

(** What has been given to the socket of [hp], and what is in its buffer, is
    the greeting and then what has been taken from the socket of its peer. *)
Definition relayed (hp hq : Handler) (v : view) : Prop :=
  bytes_at (v_given v) (fd_ hp) ++ buffered (out_ (sub_ hp)) v =
  greeting (name_ (sub_ hp)) ++ bytes_at (v_taken v) (fd_ hq).

Record Fwd_ok (own : ptr → Z) (news : gset ptr) (s : St) : Prop := {
  fo_fwd : Fwd none none own news s;
  fo_relayed : ∀ p q hp hq, pair s p q hp hq → open (sub_ hp) = true → open (sub_ hq) = true →
    relayed hp hq (view_of (world s));
  fo_untouched : ∀ fd, fd ∈ apart_fds s →
    bytes_at (v_taken (view_of (world s))) fd = [] ∧ bytes_at (v_given (view_of (world s))) fd = []
}.

Lemma relayed_flow (hp hq hp' hq' : Handler) v v' D :
  fd_ hp' = fd_ hp → fd_ hq' = fd_ hq → name_ (sub_ hp') = name_ (sub_ hp) →
  flow v v' (fd_ hq) (fd_ hp) (out_ (sub_ hp)) (out_ (sub_ hp')) D → ¬ D →
  relayed hp hq v → relayed hp' hq' v'.
Proof.
  unfold relayed, buffered. intros -> -> -> (d & e & -> & -> & Hneg & Hpos) HD Hr.
  rewrite (assoc_L (++) (greeting _)), <- Hr, <- !(assoc_L (++)). f_equal.
  destruct (decide (0 ≤ pipe0 (out_ (sub_ hp)))%Z) as [Hp|Hp].
  - destruct (Hpos Hp) as (rest & -> & Hopen & Hclosed). f_equal. case_decide as Hp'.
    + by destruct (Hopen Hp') as [_ ->].
    + by destruct Hclosed as [-> |]; [lia| |].
  - destruct Hneg as (-> & -> & ?); [lia|]. by rewrite decide_False by lia.
Qed.

Lemma open_keeps (h h' : Handler) : link_keeps h h' → open (sub_ h') = true → open (sub_ h) = true.
Proof.
  intros [_ _ _ _ _ Hr Hw]. unfold open. rewrite !orb_true_iff. naive_solver.
Qed.

(** The sockets and the buffer of another link are not those of the pair. *)
Lemma relayed_frame own (s : St) p q hp hq x y hx hy v' :
  Fwd none none own ∅ s → pair s p q hp hq → pair s x y hx hy →
  x ≠ p → x ≠ q → y ≠ p → y ≠ q → open (sub_ hx) = true → open (sub_ hy) = true →
  agree_off (hfds hp ∪ hfds hq) (view_of (world s)) v' →
  relayed hx hy (view_of (world s)) → relayed hx hy v'.
Proof.
  intros HF (Hp & Hq & _) (Hx & Hy & _) ???? Hox Hoy Hag.
  assert (∀ z hz ro fd, z ≠ p → z ≠ q → handlers s !! z = Some hz → uses hz ro fd →
    fd ∉ hfds hp ∪ hfds hq) as Hout.
  { intros z hz ro fd Hzp Hzq Hz Hu [[ro' Hin]%elem_of_hfds|[ro' Hin]%elem_of_hfds]%elem_of_union.
    - by destruct (fw_unique _ _ _ _ _ HF _ _ _ _ _ _ _ Hz Hp Hu Hin).
    - by destruct (fw_unique _ _ _ _ _ HF _ _ _ _ _ _ _ Hz Hq Hu Hin). }
  unfold relayed, buffered, bytes_at. rewrite (ag_given _ _ _ Hag), (ag_taken _ _ _ Hag);
    [|by apply (Hout y hy Sock)|by apply (Hout x hx Sock)].
  case_decide as Hp0; [|done]. rewrite (ag_content _ _ _ Hag); [done|]. by apply (Hout x hx RdEnd).
Qed.

Lemma Fwd_ok_step E own own' (s s' : St) p q hp hq hp' hq' :
  Fwd_ok own ∅ s → pair s p q hp hq → pstep (broke E s s' hp' hq') p q hp hq hp' hq' s s' →
  Fwd none none own' ∅ s' → Fwd_ok own' ∅ s'.
Proof.
  intros [HF Hrel Hunt] Hpair Hst HF'. pose proof Hst as [Hloop Hoth Hpair' Kp Kq Hag Hfp Hfq _].
  assert (open (sub_ hp') = true → open (sub_ hq') = true → ¬ broke E s s' hp' hq') as Hlive.
  { intros Ho _ [[Hd _] _]. congruence. }
  split; [done| |].
  - intros x y hx hy Hxy Hox Hoy. pose proof Hxy as (Hx & Hy & Hxo & Hyo & Hne).
    pose proof Hpair' as (Hp' & Hq' & Hpo' & Hqo' & _).
    destruct (decide (x = p)) as [->|Hxp].
    { assert (y = q ∧ hx = hp') as [-> ->] by (split; congruence). assert (hy = hq') as -> by congruence.
      eapply relayed_flow; [apply Kp|apply Kq|apply Kp|exact Hfp|by apply Hlive|].
      apply (Hrel p q); [done|by eapply open_keeps..]. }
    destruct (decide (x = q)) as [->|Hxq].
    { assert (y = p ∧ hx = hq') as [-> ->] by (split; congruence). assert (hy = hp') as -> by congruence.
      eapply relayed_flow; [apply Kq|apply Kp|apply Kq|exact Hfq|by apply Hlive|].
      apply (Hrel q p); [by apply pair_sym|by eapply open_keeps..]. }
    assert (y ≠ p ∧ y ≠ q) as [Hyp Hyq] by (split; intros ->; congruence).
    assert (pair s x y hx hy) as Hxy0.
    { unfold pair. by rewrite <- (Hoth x), <- (Hoth y). }
    eapply relayed_frame; [exact HF|exact Hpair|exact Hxy0|done..|]. by apply (Hrel x y).
  - destruct Hloop as (Hpi & Hpf & _). intros fd Hfd. unfold apart_fds, waiting_fds in Hfd. rewrite Hpi, Hpf in Hfd.
    destruct (fw_waiting _ _ _ _ _ HF) as [_ Hw]. destruct (Hw fd Hfd) as (_ & _ & Hno).
    assert (fd ∉ hfds hp ∪ hfds hq) as Hout.
    { destruct Hpair as (Hp & Hq & _).
      intros [[ro Hin]%elem_of_hfds|[ro Hin]%elem_of_hfds]%elem_of_union; [by apply (Hno p hp ro)|by apply (Hno q hq ro)]. }
    unfold bytes_at. rewrite (ag_taken _ _ _ Hag), (ag_given _ _ _ Hag) by done. by apply Hunt.
Qed.
(** *** The owner of links *)

(** The loop changes reference counts and deadlines, and destroys links that are
    closed and have no reference. *)
Lemma Fwd_loop_frame own news (s s' : St) :
  Fwd none none own news s → world s' = world s → pipe_ s' = pipe_ s → pipe_fd s' = pipe_fd s →
  (∀ q h', handlers s' !! q = Some h' → ∃ h, handlers s !! q = Some h ∧ same_object h h') →
  (∀ q h, handlers s !! q = Some h → handlers s' !! q = None →
     event_loop_ h = false ∧ own q = 0%Z ∧ q ∉ news) →
  Fwd none none own news s'.
Proof.
  intros [Fn Fp Fo Fw Fb Fi Fu Fs Fq Fwt] Hw Hpi Hpf Hsame Hgone.
  assert (∀ r hr, handlers s' !! r = Some hr → ∃ h, handlers s !! r = Some h ∧ sub_ hr = sub_ h ∧
    fd_ hr = fd_ h ∧ event_loop_ hr = event_loop_ h ∧ ∀ ro fd, uses hr ro fd → uses h ro fd) as Hlf.
  { intros r hr Hr. destruct (Hsame r hr Hr) as (h & Hh & Hfd & Hev & Hsub). exists h. split_and!; try done.
    intros ro fd. unfold uses. by rewrite Hsub, Hfd. }
  assert (∀ r h, handlers s !! r = Some h → handlers s' !! r = None → open (sub_ h) = false ∧ own r = 0%Z)
    as Hdrop.
  { intros r h Hr Hn. destruct (Hgone r h Hr Hn) as (He & ? & _). by rewrite <- (Fo r h Hr). }
  assert (∀ r q, ref_from s' q r = ref_from s q r) as Href.
  { intros r q. unfold ref_from. destruct (handlers s' !! r) as [hr|] eqn:Hr.
    - destruct (Hlf r hr Hr) as (h & -> & -> & _). done.
    - destruct (handlers s !! r) as [h|] eqn:Hh; [|done]. destruct (Hdrop r h Hh Hr) as [-> _].
      by case_decide. }
  split; rewrite ?Hw, ?Hpf; try done.
  - intros p h Hp. destruct (Hlf p h Hp) as (h0 & Hp0 & -> & -> & _).
    destruct (Fp p h0 Hp0) as (q & Hq & Hne & Hal & Hfd). exists q. split_and!; try done.
    + intros Ho. destruct (Hal Ho) as (hq & Hhq & Hback).
      destruct (handlers s' !! q) as [hq'|] eqn:Hq'.
      * exists hq'. split; [done|]. destruct (Hlf q hq' Hq') as (hq0 & ? & -> & _). by simplify_eq.
      * exfalso. destruct (Hdrop q hq Hhq Hq') as [_ Hown]. rewrite Fw in Hown. unfold refs, ref_from in Hown.
        rewrite Hhq, Hback, Hp0, decide_True, Ho in Hown by done. done.
    + intros hq Hhq. destruct (Hlf q hq Hhq) as (hq0 & ? & -> & -> & _). by apply Hfd.
  - intros p h Hp. destruct (Hlf p h Hp) as (h0 & Hp0 & -> & _ & -> & _). by apply (Fo p).
  - intros q. rewrite Fw. unfold refs. destruct (handlers s' !! q) as [hq|] eqn:Hq.
    + destruct (Hlf q hq Hq) as (h0 & -> & -> & _). destruct (other_ (sub_ h0)); [|done].
      by rewrite Href.
    + destruct (handlers s !! q) as [h|] eqn:Hh; [|done]. destruct (Hdrop q h Hh Hq) as [_ Hown].
      rewrite Fw in Hown. unfold refs in Hown. by rewrite Hh in Hown.
  - intros p h Hp. destruct (Hlf p h Hp) as (h0 & Hp0 & -> & _). by apply (Fb p).
  - intros p q hp hq Hp Hq. destruct (Hlf p hp Hp) as (hp0 & Hp0 & -> & _).
    destruct (Hlf q hq Hq) as (hq0 & Hq0 & -> & _). by apply (Fi p q).
  - intros p h Hp. destruct (Hlf p h Hp) as (h0 & Hp0 & -> & _). by apply (Fu p).
  - intros p h r fd Hp Hu. destruct (Hlf p h Hp) as (h0 & Hp0 & _ & _ & _ & Hu0).
    apply (Fs p h0 r); auto.
  - intros p q hp hq r r' fd Hp Hq Hu Hu'. destruct (Hlf p hp Hp) as (hp0 & Hp0 & _ & _ & _ & Hup).
    destruct (Hlf q hq Hq) as (hq0 & Hq0 & _ & _ & _ & Huq). apply (Fq p q hp0 hq0 r r' fd); auto.
  - unfold apart_fds, waiting_fds in *. rewrite Hpi, Hpf. destruct Fwt as [Hnd Hwt]. split; [done|].
    intros fd Hfd. destruct (Hwt fd Hfd) as (? & ? & Hno). split_and!; try done.
    intros p h r Hp Hu. destruct (Hlf p h Hp) as (h0 & Hp0 & _ & _ & _ & Hu0). apply (Hno p h0 r); auto.
Qed.

(** Descriptors that no link uses are closed. *)
Lemma Fwd_shrink own news (s : St) k O :
  Fwd none none own news s → view_of k = with_opened (v_opened (view_of (world s)) ∖ O) (view_of (world s)) →
  (∀ fd, fd ∈ O → fd ∉ apart_fds s ∧ ∀ p h r, handlers s !! p = Some h → ¬ uses h r fd) →
  Fwd none none own news (set_world k s).
Proof.
  intros [Fn Fp Fo Fw Fb Fi Fu Fs Fq [Hnd Hwt]] Hv HO.
  assert (agree_off O (view_of (world s)) (view_of k)) as Hag by (rewrite Hv; apply agree_opened; set_solver).
  split; cbn [world set_world]; try done.
  - intros p h Hp. eapply buf_ok_frame; [by apply (Fb p)|done|].
    intros fd Hfd HfO. destruct (HO fd HfO) as [_ Hno].
    apply owned_uses in Hfd as [Hu|Hu]; by apply (Hno _ _ _ Hp Hu).
  - intros p h r fd Hp Hu. pose proof (Fs p h r fd Hp Hu) as Hfd.
    rewrite Hv. cbn. apply elem_of_difference. split; [done|]. intros HfO.
    destruct (HO fd HfO) as [_ Hno]. by apply (Hno p h r).
  - split; [done|]. intros fd Hfd. destruct (Hwt fd Hfd) as (? & ? & ?). split_and!; try done.
    rewrite Hv. cbn. apply elem_of_difference. split; [done|]. intros HfO. by destruct (HO fd HfO).
Qed.

#[export] Instance Fwd_owner : HandlerOwner link_delete Fwd_ok.
Proof.
  split.
  - intros own news s s' [HF Hrel Hunt] Hw Hpi Hpf Hsame Hgone. split.
    + by eapply Fwd_loop_frame.
    + intros p q hp hq (Hp & Hq & Hpo & Hqo & Hne) Hop Hoq. rewrite Hw.
      destruct (Hsame p hp Hp) as (hp0 & Hp0 & Hfp & _ & Hsp).
      destruct (Hsame q hq Hq) as (hq0 & Hq0 & Hfq & _ & Hsq).
      unfold relayed. rewrite Hfp, Hfq, Hsp. rewrite Hsp in Hpo, Hop. rewrite Hsq in Hqo, Hoq.
      by apply (Hrel p q hp0 hq0).
    + unfold apart_fds, waiting_fds. by rewrite Hw, Hpi, Hpf.
  - intros own news s q [HF _ _]. rewrite (fw_own _ _ _ _ _ HF). unfold refs, ref_from.
    destruct (handlers s !! q) as [h|]; [|done]. destruct (other_ (sub_ h)) as [p|]; [|done].
    destruct (handlers s !! p) as [hp|]; [|done]. case_decide; [|done]. destruct (open (sub_ hp)); cbn; lia.
  - intros own news s q h [HF Hrel Hunt] Hq Hev Hown Hnews.
    assert (open (sub_ h) = false) as Hclosed by (by rewrite <- (fw_open _ _ _ _ _ HF q h Hq)).
    unfold open in Hclosed. apply orb_false_iff in Hclosed as [Hr Hw].
    unfold link_delete. rewrite Hr, Hw. apply wp_bind, wp_CHECK; [done|]. apply wp_zoom.
    apply buffer_delete_wp; [by apply (fw_buf _ _ _ _ _ HF q h)|]. intros k Hv. cbn [snd].
    assert (Fwd none none own news (drop_handler q s)) as HF1.
    { eapply Fwd_loop_frame; [exact HF|done..| |]; cbn.
      - intros r h' [_ Hr']%lookup_delete_Some. by exists h'.
      - intros r h' Hr' [<-|?]%lookup_delete_None; [|congruence]. rewrite Hq in Hr'. by simplify_eq. }
    split.
    + eapply Fwd_shrink; [exact HF1|exact Hv|]. intros fd Hfd%owned_uses. cbn.
      assert (∃ ro, ro ≠ Sock ∧ uses h ro fd) as (ro & Hro & Hu) by (destruct Hfd; [by exists RdEnd|by exists WrEnd]).
      split.
      * intros Hw'. destruct (fw_waiting _ _ _ _ _ HF) as [_ Hwt]. destruct (Hwt fd Hw') as (_ & _ & Hno).
        by apply (Hno q h ro).
      * intros p hp r [Hne Hp]%lookup_delete_Some Hu'.
        by destruct (fw_unique _ _ _ _ _ HF _ _ _ _ _ _ _ Hq Hp Hu Hu').
    + intros p r hp hr (Hp & Hr' & Hpo & Hqo & Hne) Hop Hor. cbn in Hp, Hr'.
      apply lookup_delete_Some in Hp as [? Hp], Hr' as [? Hr'].
      pose proof (Hrel p r hp hr) as Hrl. unfold relayed, buffered in *. cbn [world set_world]. rewrite Hv.
      by apply Hrl.
    + intros fd Hfd. cbn [world set_world]. rewrite Hv. by apply Hunt.
Qed.
(** *** The callbacks *)

Definition same_links (s s' : St) : Prop := ∀ x hx, handlers s !! x = Some hx →
  ∃ hx', handlers s' !! x = Some hx' ∧ same_object hx hx'.

Lemma same_links_refl s : same_links s s.
Proof. intros x hx Hx. by exists hx. Qed.

Lemma same_object_trans (h1 h2 h3 : Handler) : same_object h1 h2 → same_object h2 h3 → same_object h1 h3.
Proof. intros (?&?&?) (?&?&?). split_and!; congruence. Qed.

Lemma same_links_trans s1 s2 s3 : same_links s1 s2 → same_links s2 s3 → same_links s1 s3.
Proof.
  intros H12 H23 x hx Hx. destruct (H12 x hx Hx) as (h2 & Hx2 & ?). destruct (H23 x h2 Hx2) as (h3 & Hx3 & ?).
  exists h3. split; [done|]. by eapply same_object_trans.
Qed.

Lemma same_links_put (s : St) p h h' :
  handlers s !! p = Some h → same_object h h' → same_links s (put_handler p h' s).
Proof.
  intros Hp Hsame x hx Hx. cbn. destruct (decide (p = x)) as [<-|].
  - rewrite lookup_insert_eq. exists h'. split; [done|]. congruence.
  - rewrite lookup_insert_ne by done. by exists hx.
Qed.

(** The part of [keeps] about the clock and the loop. *)
Definition later (s s' : St) : Prop :=
  pipe_ s' = pipe_ s ∧ world s' = world s ∧ timeout_ s' = timeout_ s ∧
  (time (clk s) ≤ time (clk s'))%Z ∧ (horizon (clk s') ≤ horizon (clk s))%Z.

Lemma later_refl s : later s s.
Proof. by split_and!. Qed.

(** [s'] is [s] after a link that is open has got a new deadline, counted from
    a time read in between; a closed link keeps its own. *)
Record refreshed (p : ptr) (h : Handler) (s s' : St) : Prop := {
  rf_later : later s s';
  rf_others : ∀ x, x ≠ p → handlers s' !! x = handlers s !! x;
  rf_self : ∃ h', handlers s' !! p = Some h' ∧ same_object h h' ∧
    if open (sub_ h) then (time (clk s) + timeout_ s ≤ deadline_ h' ≤ time (clk s') + timeout_ s)%Z
    else deadline_ h' = deadline_ h
}.

Lemma refreshed_links p h s s' : handlers s !! p = Some h → refreshed p h s s' → same_links s s'.
Proof.
  intros Hp [_ Hoth (h' & Hp' & Hsame & _)] x hx Hx. destruct (decide (x = p)) as [->|Hne].
  - simplify_eq. by exists h'.
  - exists hx. by rewrite Hoth.
Qed.

Lemma RefreshLink_wp tmp own xs (s : St) p h (Q : unit → St → Prop) :
  Inv (ext_plus tmp own) ∅ xs s → Fwd_ok own ∅ s → handlers s !! p = Some h →
  (∀ s' xs', Inv (ext_plus tmp own) ∅ xs' s' → Fwd_ok own ∅ s' → refreshed p h s s' → Q tt s') →
  wp (RefreshLink p) Q s.
Proof.
  intros HI HF Hp HQ. unfold RefreshLink. apply wp_bind, (wp_link _ h); [done|]. fold (open (sub_ h)).
  apply wp_when; intros Hopen.
  2: { eapply HQ; [done..|]. split; [apply later_refl|done|]. exists h. by rewrite Hopen. }
  eapply Refresh_wp; [exact HI|exact Hp|by rewrite (fw_open _ _ _ _ _ (fo_fwd _ _ _ HF) p h Hp)|set_solver|].
  intros s' l1 l2 _ HI' (Hpi & Hpf & _ & _ & Hto & Hw) Htime Hhor _ Hhs.
  eapply HQ; [exact HI'|..].
  - eapply (client_frame link_delete); [exact HF|done..| |]; rewrite Hhs.
    + intros q h' [[<- <-]|[? Hq]]%lookup_insert_Some; [by exists h|by exists h'].
    + intros q h' Hq Hn. apply lookup_insert_None in Hn as [? _]. congruence.
  - split; [split_and!; try done; lia|..].
    + intros x Hx. by rewrite Hhs, lookup_insert_ne.
    + rewrite Hhs, lookup_insert_eq. eexists. split; [done|]. split; [done|]. rewrite Hopen. cbn. lia.
Qed.

(** What is left of a pair after a callback of [p], which closes both links if
    [E]. *)
Record callback_post (E : Prop) (p q : ptr) (hp hq hp' hq' : Handler) (s s' : St) : Prop := {
  cp_pipe : pipe_ s' = pipe_ s;
  cp_keeps : link_keeps hp hp' ∧ link_keeps hq hq';
  cp_self : ∃ hx, handlers s' !! p = Some hx ∧ same_object hp' hx;
  cp_peer : ∀ hx, handlers s' !! q = Some hx → same_object hq' hx;
  cp_alive : handlers s' !! q = None → dead hp' hq';
  cp_flow_p : flow (view_of (world s)) (view_of (world s')) (fd_ hq) (fd_ hp) (out_ (sub_ hp))
    (out_ (sub_ hp')) (broke E s s' hp' hq');
  cp_flow_q : flow (view_of (world s)) (view_of (world s')) (fd_ hp) (fd_ hq) (out_ (sub_ hq))
    (out_ (sub_ hq')) (broke E s s' hp' hq');
  cp_drained : drained (broke E s s' hp' hq') hp hp' ∧ drained (broke E s s' hp' hq') hq hq'
}.

Lemma callback_post_weaken (E E' : Prop) p q hp hq hp' hq' s s' :
  (E → E') → callback_post E p q hp hq hp' hq' s s' → callback_post E' p q hp hq hp' hq' s s'.
Proof.
  intros HE [? ? ? ? ? Fp Fq [Jp Jq]].
  assert (broke E s s' hp' hq' → broke E' s s' hp' hq') as Hbr.
  { intros [? [?|?]]; (split; [done|]); auto. }
  split; try done; [by eapply flow_weaken|by eapply flow_weaken|split; by eapply drained_weaken].
Qed.

(** Giving back a reference to a link: it is destroyed if it is closed and
    nobody else knows it. *)
Lemma release_wp tmp own xs (s : St) q hq (Q : unit → St → Prop) :
  Inv (ext_plus tmp own) ∅ xs s → Fwd_ok own ∅ s → handlers s !! q = Some hq → (0 < tmp q)%Z →
  (∀ s', Inv (ext_plus (ext_add q (-1) tmp) own) ∅ xs s' → Fwd_ok own ∅ s' →
     pipe_ s' = pipe_ s → timeout_ s' = timeout_ s → clk s' = clk s →
     (∃ o, view_of (world s') = with_opened o (view_of (world s))) →
     (∀ x, x ≠ q → handlers s' !! x = handlers s !! x) →
     (∀ hx, handlers s' !! q = Some hx → same_object hq hx ∧ deadline_ hx = deadline_ hq) →
     (handlers s' !! q = None → open (sub_ hq) = false ∧ own q = 0%Z) → Q tt s') →
  wp (DecRef link_delete q) Q s.
Proof.
  intros HI HF Hq Htq HQ. pose proof (client_own link_delete own ∅ s q HF) as Hown.
  assert (∀ x, ext_plus (ext_add q (-1) tmp) own x = ext_add q (-1) (ext_plus tmp own) x) as Hext.
  { intros x. unfold ext_plus, ext_add. case_decide; lia. }
  assert (∃ o, view_of (world s) = with_opened o (view_of (world s))) as Hsame
    by (exists (v_opened (view_of (world s))); by destruct (view_of (world s))).
  destruct (decide (event_loop_ hq = true ∨ (1 < ext_plus tmp own q)%Z)) as [Hkeep|Hlast].
  - eapply DecRef_wp; [exact HI|exact Hq|unfold ext_plus; lia|exact Hkeep|]. intros HI'.
    eapply HQ; try done.
    + by eapply Inv_ext_eq.
    + eapply (client_frame link_delete); [exact HF|done..| |]; cbn.
      * intros x h' [[<- <-]|[? Hx]]%lookup_insert_Some; [by exists hq|by exists h'].
      * intros x h' Hx Hn. apply lookup_insert_None in Hn as [? _]. congruence.
    + intros x Hx. cbn. by rewrite lookup_insert_ne.
    + intros hx. cbn. rewrite lookup_insert_eq. by intros [= <-].
    + cbn. by rewrite lookup_insert_eq.
  - assert (event_loop_ hq = false ∧ own q = 0%Z ∧ ext_plus tmp own q = 1%Z) as (Hev & Ho & Ht).
    { unfold ext_plus in *. destruct (event_loop_ hq); [naive_solver|]. split; [done|]. lia. }
    assert (open (sub_ hq) = false) as Hclosed by (by rewrite <- (fw_open _ _ _ _ _ (fo_fwd _ _ _ HF) q hq Hq)).
    eapply DecRef_last_wp; [exact HI|exact Hq|exact Ht|exact Hev|set_solver|].
    eapply wp_mono; [apply wp_and|].
    + eapply (client_delete link_delete own ∅ s q hq); done || set_solver.
    + instantiate (1 := λ _ w, ∃ o, view_of w = with_opened o (view_of (world s))).
      unfold link_delete. unfold open in Hclosed. apply orb_false_iff in Hclosed as [-> ->].
      apply wp_bind, wp_CHECK; [done|]. apply wp_zoom, buffer_delete_wp.
      * by apply (fw_buf _ _ _ _ _ (fo_fwd _ _ _ HF) q hq).
      * intros k Hv. by eexists.
    + intros [] w [HF' Hv] HI'. eapply HQ; try done.
      * by eapply Inv_ext_eq.
      * intros x Hx. cbn. by rewrite lookup_delete_ne.
      * intros hx. cbn. by rewrite lookup_delete_eq.
Qed.

(** The frame of both callbacks: a reference to the peer is held while they
    run. *)
Lemma take_peer_wp tmp own xs (s : St) p hp (m : M St unit) (Q : unit → St → Prop) :
  Inv (ext_plus tmp own) ∅ xs s → Fwd_ok own ∅ s → handlers s !! p = Some hp → event_loop_ hp = true →
  (∀ q hq, let hq1 := set_ref (ref_count_ hq + 1) hq in let s1 := put_handler q hq1 s in
     pair s p q hp hq → pair s1 p q hp hq1 →
     Inv (ext_plus (ext_add q 1 tmp) own) ∅ xs s1 → Fwd_ok own ∅ s1 → wp m Q s1) →
  wp (q ← other p; IncRef q ;; m) Q s.
Proof.
  intros HI HF Hp Hev HQ. assert (open (sub_ hp) = true) as Hopen
    by (by rewrite <- (fw_open _ _ _ _ _ (fo_fwd _ _ _ HF) p hp Hp)).
  destruct (fw_peer _ _ _ _ _ (fo_fwd _ _ _ HF) p hp Hp) as (q & Ho & Hne & Hal & _).
  destruct (Hal Hopen) as (hq & Hq & Hback).
  apply wp_bind, (wp_other _ hp q); [done..|]. apply wp_bind.
  eapply IncRef_wp; [exact HI|exact Hq|set_solver|]. intros HI1.
  apply (HQ q hq); [by split_and!| | |].
  - split_and!; try done; cbn; [by rewrite lookup_insert_ne|apply lookup_insert_eq].
  - eapply Inv_ext_eq; [exact HI1|]. intros x. unfold ext_plus, ext_add. case_decide; lia.
  - eapply (client_frame link_delete); [exact HF|done..| |]; cbn.
    + intros x h' [[<- <-]|[? Hx]]%lookup_insert_Some; [by exists hq|by exists h'].
    + intros x h' Hx Hn. apply lookup_insert_None in Hn as [? _]. congruence.
Qed.

Lemma drop_peer_wp tmp own xs (s : St) p q hp hq (Q : unit → St → Prop) :
  Inv (ext_plus (ext_add q 1 tmp) own) ∅ xs s → Fwd_ok own ∅ s → pair s p q hp hq → (0 ≤ tmp q)%Z →
  (∀ s', Inv (ext_plus tmp own) ∅ xs s' → Fwd_ok own ∅ s' →
     pipe_ s' = pipe_ s → timeout_ s' = timeout_ s → clk s' = clk s →
     (∃ o, view_of (world s') = with_opened o (view_of (world s))) →
     (∀ x, x ≠ q → handlers s' !! x = handlers s !! x) →
     (∀ hx, handlers s' !! q = Some hx → same_object hq hx ∧ deadline_ hx = deadline_ hq) →
     (handlers s' !! q = None → open (sub_ hq) = false ∧ own q = 0%Z) → Q tt s') →
  wp (q ← other p; DecRef link_delete q) Q s.
Proof.
  intros HI HF (Hp & Hq & Ho & _) Htq HQ. apply wp_bind, (wp_other _ hp q); [done..|].
  eapply release_wp; [exact HI|exact HF|exact Hq|rewrite ext_add_eq; lia|].
  intros s' HI'. apply HQ. eapply Inv_ext_eq; [exact HI'|].
  intros x. unfold ext_plus, ext_add. case_decide; lia.
Qed.

(** The end of a callback, from the state in which the work is done. *)
Lemma callback_end E tmp own xs (s s2 : St) p q hp hq hq1 hp2 hq2 (Q : unit → St → Prop) :
  sub_ hq1 = sub_ hq → fd_ hq1 = fd_ hq → deadline_ hq1 = deadline_ hq →
  pstep (broke E (put_handler q hq1 s) s2 hp2 hq2) p q hp hq1 hp2 hq2 (put_handler q hq1 s) s2 →
  ∀ s3 hp3 hq3, later s2 s3 → pair s3 p q hp3 hq3 → same_object hp2 hp3 → same_object hq2 hq3 →
  Inv (ext_plus (ext_add q 1 tmp) own) ∅ xs s3 → Fwd_ok own ∅ s3 → (0 ≤ tmp q)%Z →
  (∀ s', keeps Fwd_ok tmp s s' xs → callback_post E p q hp hq hp2 hq2 s s' → clk s' = clk s3 →
     (∀ x, x ≠ q → handlers s' !! x = handlers s3 !! x) →
     (∀ hx, handlers s' !! q = Some hx → deadline_ hx = deadline_ hq3) → Q tt s') →
  wp (q ← other p; DecRef link_delete q) Q s3.
Proof.
  intros Hs1 Hf1 Hd1 Hst s3 hp3 hq3 (Hpi & Hw & Hto & Ht & Hh) Hpair Hsp Hsq HI HF Htq HQ.
  eapply drop_peer_wp; [exact HI|exact HF|exact Hpair|exact Htq|].
  intros s' HI' HF' Hpi' Hto' Hck' [o Hv'] Hoth Hpeer Hgone.
  pose proof Hst as [(Hpi0 & Hpf0 & Hto0 & Hck0) _ _ Kp Kq _ Fp Fq [Jp Jq]]. cbn in Hpi0, Hpf0, Hto0, Hck0.
  apply HQ; [| |done|done|].
  - exists own, ∅. split_and!; [done|done|congruence|..]; rewrite Hck'; rewrite Hck0 in Ht, Hh; done.
  - rewrite Hf1 in Fp, Fq. rewrite Hs1 in Fq. cbn in Fp, Fq.
    assert (broke E (put_handler q hq1 s) s2 hp2 hq2 → broke E s s' hp2 hq2) as Hbr.
    { intros [? Hf]. split; [done|]. destruct Hf as [?|Hf]; [by left|right]. by rewrite Hv', Hw. }
    assert (∀ src dst b b' D, flow (view_of (world s)) (view_of (world s2)) src dst b b' D →
      flow (view_of (world s)) (view_of (world s')) src dst b b' D) as Hfl.
    { intros. rewrite Hv', Hw. done. }
    split; [congruence| | | | |by eapply flow_weaken, Hfl|by eapply flow_weaken, Hfl|].
    + split; [done|]. destruct Kq as [? ? ? ? Ku ? ?]. rewrite Hs1 in *. split; try first [done|congruence].
      intros r x Hu. specialize (Ku r x Hu). unfold uses in *. by rewrite Hs1, Hf1 in Ku.
    + destruct Hpair as (Hp3 & _ & _ & _ & Hne). exists hp3. by rewrite Hoth.
    + intros hx Hx. destruct (Hpeer hx Hx) as [? _]. by eapply same_object_trans.
    + intros [Hcq Hown]%Hgone. destruct Hpair as (Hp3 & Hq3 & Hpo & Hqo & _).
      pose proof (refs_own _ _ _ _ _ _ _ _ _ (fo_fwd _ _ _ HF) Hp3 Hq3 Hpo Hqo) as Hrefs.
      destruct Hsp as (_ & _ & Hsp), Hsq as (_ & _ & Hsq). rewrite Hsp, Hsq in *. split; [|done].
      rewrite Hown in Hrefs. by destruct (open (sub_ hp2)).
    + split; [by eapply drained_weaken|]. intros Hwq. rewrite <- Hs1 in Hwq. by apply (drained_weaken _ _ _ _ Hbr Jq).
  - intros hx Hx. by apply Hpeer.
Qed.
Lemma pair_same (s s' : St) p q hp hq :
  pair s p q hp hq → same_links s s' →
  ∃ hp' hq', pair s' p q hp' hq' ∧ same_object hp hp' ∧ same_object hq hq'.
Proof.
  intros (Hp & Hq & Ho & Ho' & Hne) Hsame. destruct (Hsame p hp Hp) as (hp' & Hp' & Hsp).
  destruct (Hsame q hq Hq) as (hq' & Hq' & Hsq). exists hp', hq'. split; [|done].
  pose proof Hsp as (_ & _ & E1). pose proof Hsq as (_ & _ & E2). unfold pair. by rewrite E1, E2.
Qed.

Lemma later_trans s1 s2 s3 : later s1 s2 → later s2 s3 → later s1 s3.
Proof. intros (?&?&?&?&?) (?&?&?&?&?). split_and!; (congruence || lia). Qed.

(** The deadline of [x], which was [h], after a callback that has moved some
    bytes or none. *)
Definition deadline_after (moved : bool) (x : ptr) (h : Handler) (s s' : St) : Prop :=
  ∀ hx, handlers s' !! x = Some hx →
    if moved && open (sub_ hx) then (time (clk s) + timeout_ s ≤ deadline_ hx ≤ time (clk s') + timeout_ s)%Z
    else deadline_ hx = deadline_ h.

(** What [OnEvent] of [p] does with the events, while a reference to the peer is
    held. *)
Definition link_event_post (left_first : bool) (events : Z) (p q : ptr) (hp hq hp' hq' : Handler) (s s' : St) : Prop :=
  let hq1 := set_ref (ref_count_ hq + 1) hq in
  ∃ moved s2, processed left_first events p q hp hq1 (put_handler q hq1 s) moved hp' hq' s2 ∧
    deadline_after moved p hp s s' ∧ deadline_after moved q hq s s'.

(** Both links are refreshed, if bytes have been moved. *)
Lemma refresh_both_wp tmp own xs (s : St) p q hp hq moved (Q : unit → St → Prop) :
  Inv (ext_plus tmp own) ∅ xs s → Fwd_ok own ∅ s → pair s p q hp hq →
  (∀ s' xs' hp' hq', Inv (ext_plus tmp own) ∅ xs' s' → Fwd_ok own ∅ s' → later s s' → pair s' p q hp' hq' →
     same_object hp hp' → same_object hq hq' →
     deadline_after moved p hp s s' → deadline_after moved q hq s s' → Q tt s') →
  wp (when moved (RefreshLink p ;; q ← other p; RefreshLink q)) Q s.
Proof.
  intros HI HF Hpair HQ. pose proof Hpair as (Hp & Hq & Ho & Hoq & Hne). unfold deadline_after in HQ.
  apply wp_when.
  2: { intros ->. eapply (HQ s); [done|done|apply later_refl|done|done|done| |]; cbn; intros; congruence. }
  intros ->. apply wp_bind. eapply RefreshLink_wp; [exact HI|exact HF|exact Hp|].
  intros s3 xs3 HI3 HF3 Hr3. pose proof (refreshed_links _ _ _ _ Hp Hr3) as Hl3.
  destruct Hr3 as [Hlat3 Hoth3 (hp3 & Hp3 & Hsp & Hd3)]. pose proof Hsp as (_ & _ & Esp).
  apply wp_bind, (wp_other _ hp3 q); [done|congruence|].
  eapply RefreshLink_wp; [exact HI3|exact HF3|by rewrite Hoth3|]. intros s4 xs4 HI4 HF4 Hr4.
  destruct Hr4 as [Hlat4 Hoth4 (hq4 & Hq4 & Hsq & Hd4)]. pose proof Hsq as (_ & _ & Esq).
  pose proof Hlat3 as (_ & _ & Hto3 & Hc3 & _). pose proof Hlat4 as (_ & _ & Hto4 & Hc4 & _). rewrite Hto3 in Hd4.
  assert (handlers s4 !! p = Some hp3) as Hp4 by (by rewrite Hoth4).
  apply (HQ s4 xs4 hp3 hq4); try done.
  - by eapply later_trans.
  - split_and!; [done|done|by rewrite Esp|by rewrite Esq|done].
  - intros hx Hx. simplify_eq. rewrite Esp. cbn. destruct (open (sub_ hp)); [lia|done].
  - intros hx Hx. simplify_eq. rewrite Esq. cbn. destruct (open (sub_ hq)); [lia|done].
Qed.

Lemma link_OnEvent_wp min_lvl left_first tmp own xs (s : St) p hp events :
  Inv (ext_plus tmp own) ∅ xs s → Fwd_ok own ∅ s → (∀ q, (0 ≤ tmp q)%Z) → (0 < tmp p)%Z →
  handlers s !! p = Some hp → event_loop_ hp = true →
  wp (OnEvent min_lvl left_first p events) (λ _ s', ∃ xs' q hq hp' hq', pair s p q hp hq ∧
    keeps Fwd_ok tmp s s' xs' ∧ callback_post (HasBits events EPOLLERR = true) p q hp hq hp' hq' s s' ∧
    link_event_post left_first events p q hp hq hp' hq' s s') s.
Proof.
  intros HI HF Htmp Htp Hp Hev. unfold OnEvent.
  eapply take_peer_wp; [exact HI|exact HF|exact Hp|exact Hev|].
  intros q hq hq1 s1 Hpair Hpair1 HI1 HF1. pose proof Hpair as (_ & _ & _ & _ & Hne).
  assert (0 < ext_add q 1 tmp p)%Z as Htp1 by (by rewrite ext_add_ne).
  assert (0 < ext_add q 1 tmp q)%Z as Htq1 by (rewrite ext_add_eq; pose proof (Htmp q); lia).
  eapply wp_bind_mono; [eapply Process_wp; [exact HI1|apply HF1|exact Hpair1|exact Htp1|exact Htq1]|].
  intros moved s2 (own2 & xs2 & hp2 & hq2 & HI2 & HF2 & Hsub2 & Hst & Hproc).
  pose proof (Fwd_ok_step _ _ _ _ _ _ _ _ _ _ _ HF1 Hpair1 Hst HF2) as HF2'.
  pose proof (ps_pair _ _ _ _ _ _ _ _ _ Hst) as Hpair2. pose proof (ps_loop _ _ _ _ _ _ _ _ _ Hst) as (_ & _ & Hto2 & Hck2).
  pose proof (lk_deadline _ _ (ps_p _ _ _ _ _ _ _ _ _ Hst)) as Hdp.
  pose proof (lk_deadline _ _ (ps_q _ _ _ _ _ _ _ _ _ Hst)) as Hdq.
  apply wp_bind. eapply refresh_both_wp; [exact HI2|exact HF2'|exact Hpair2|].
  intros s3 xs3 hp3 hq3 HI3 HF3 Hlat Hpair3 Hsp Hsq Hp3 Hq3.
  eapply (callback_end _ tmp own2 xs3 s s2 p q hp hq hq1); [done|done|done|exact Hst|exact Hlat|exact Hpair3|done..|].
  intros s' Hkeeps Hpost Hck' Hoth' Hpeer. exists xs3, q, hq, hp2, hq2. split_and!; [done..|].
  exists moved, s2. split; [exact Hproc|]. cbn in Hto2, Hck2. unfold deadline_after in *.
  rewrite Hck2, Hto2, Hdp in Hp3. rewrite Hck2, Hto2, Hdq in Hq3. rewrite Hck'. split.
  - intros hx Hx. rewrite Hoth' in Hx by done. by apply Hp3.
  - intros hx Hx. destruct Hpair3 as (_ & Hq3' & _). specialize (Hq3 hq3 Hq3'). rewrite (Hpeer hx Hx).
    destruct (cp_peer _ _ _ _ _ _ _ _ _ Hpost hx Hx) as (_ & _ & ->). by destruct Hsq as (_ & _ & <-).
Qed.

Lemma link_OnTimeout_wp tmp own xs (s : St) p hp :
  Inv (ext_plus tmp own) ∅ xs s → Fwd_ok own ∅ s → (∀ q, (0 ≤ tmp q)%Z) → (0 < tmp p)%Z →
  handlers s !! p = Some hp → event_loop_ hp = true →
  wp (OnTimeout p) (λ _ s', ∃ xs' q hq hp' hq', pair s p q hp hq ∧
    keeps Fwd_ok tmp s s' xs' ∧ callback_post True p q hp hq hp' hq' s s' ∧ dead hp' hq' ∧
    sublist xs' xs ∧ (∀ x, x ∈ xs' → deadline_ <$> handlers s' !! x = deadline_ <$> handlers s !! x)) s.
Proof.
  intros HI HF Htmp Htp Hp Hev. unfold OnTimeout.
  eapply take_peer_wp; [exact HI|exact HF|exact Hp|exact Hev|].
  intros q hq hq1 s1 Hpair Hpair1 HI1 HF1. pose proof Hpair as (_ & Hq & _ & _ & Hne).
  eapply wp_bind_mono.
  { eapply (Terminate_wp none none none none); [exact HI1|apply HF1|exact Hpair1| | |done].
    - by rewrite ext_add_ne.
    - rewrite ext_add_eq. pose proof (Htmp q). lia. }
  intros [] s2 (own2 & xs2 & hp2 & hq2 & HI2 & HF2 & Hsub2 & Hst & Hdead).
  pose proof (Fwd_ok_step _ _ _ _ _ _ _ _ _ _ _ HF1 Hpair1 Hst HF2) as HF2'.
  pose proof Hst as [_ Hoth Hpair2 Kp Kq _ _ _ _].
  eapply (callback_end _ tmp own2 xs2 s s2 p q hp hq hq1);
    [done|done|done|exact Hst|apply later_refl|exact Hpair2|done|done|done|done|done|].
  intros s' Hkeeps Hpost _ Hoth' Hpeer. exists xs2, q, hq, hp2, hq2. split_and!; try done.
  intros x Hx. destruct Hkeeps as (own' & news' & HI' & _).
  apply (inv_reg _ _ _ _ HI') in Hx as (hx & Hx & _). rewrite Hx. cbn.
  destruct (decide (x = q)) as [->|Hxq].
  - rewrite Hq. cbn. f_equal. by rewrite (Hpeer hx Hx), (lk_deadline _ _ Kq).
  - rewrite Hoth' in Hx by done. destruct (decide (x = p)) as [->|Hxp].
    + destruct Hpair2 as (Hp2 & _). rewrite Hp2 in Hx. simplify_eq. rewrite Hp. cbn. f_equal. apply Kp.
    + rewrite Hoth in Hx by done. unfold s1 in Hx. cbn in Hx. rewrite lookup_insert_ne in Hx by done.
      by rewrite Hx.
Qed.
(** *** The rest of the program *)

(** Other threads open descriptors, and schedule functions; the descriptors that
    wait are new to the forwarder. *)
Record waiting_ok (s : St) (fd : Z) : Prop := {
  wt_open : (0 ≤ fd)%Z ∧ fd ∈ v_opened (view_of (world s));
  wt_unused : ∀ p h r, handlers s !! p = Some h → ¬ uses h r fd;
  wt_untouched : bytes_at (v_taken (view_of (world s))) fd = [] ∧
    bytes_at (v_given (view_of (world s))) fd = []
}.

Lemma waits own (s : St) fd : Fwd_ok own ∅ s → fd ∈ apart_fds s → waiting_ok s fd.
Proof.
  intros [HF _ Hunt] Hfd. destruct (fw_waiting _ _ _ _ _ HF) as [_ Hw].
  destruct (Hw fd Hfd) as (? & ? & ?). split; auto.
Qed.

Lemma not_apart (s : St) fd : fd ∉ apart_fds s → fd ≠ pipe_fd s.
Proof. intros Hn ->. apply Hn. by left. Qed.

Definition with_supply (m : gmap Z nat) (v : view) : view :=
  mkView (v_opened v) (v_reader v) (v_content v) (v_cap v) (v_taken v) (v_given v) m (v_failures v).

Lemma with_supply_same v : with_supply (v_supply v) v = v.
Proof. by destruct v. Qed.

Lemma Fwd_env_supply m own (s s' : St) S :
  Fwd_ok own ∅ s → handlers s' = handlers s →
  agree_off S (with_supply m (view_of (world s))) (view_of (world s')) →
  (∀ fd, fd ∈ S → ∀ p h r, handlers s !! p = Some h → ¬ uses h r fd) →
  NoDup (apart_fds s') → (∀ fd, fd ∈ apart_fds s' → waiting_ok s' fd) →
  Fwd_ok own ∅ s'.
Proof.
  intros [[Fn Fp Fo Fw Fb Fi Fu Fs Fq Fwt] Hrel Hunt] Hhs Hag HS Hnd Hwt.
  assert (∀ p h r fd, handlers s !! p = Some h → uses h r fd → fd ∉ S) as Hout.
  { intros p h r fd Hp Hu HfS. by apply (HS fd HfS p h r). }
  split; [split; unfold refs, ref_from in *; rewrite ?Hhs; try done|..].
  - intros p h Hp. eapply (buf_ok_frame S _ (with_supply m (view_of (world s)))); [|done|].
    + by destruct (Fb p h Hp).
    + intros fd Hfd HfS. apply owned_uses in Hfd as [Hu|Hu]; by apply (Hout _ _ _ _ Hp Hu).
  - intros p h r fd Hp Hu. apply (ag_opened _ _ _ Hag); [by eapply Hout|by eapply Fs].
  - split; [done|]. intros fd Hfd. destruct (Hwt fd Hfd) as [(?&?) Hno _]. rewrite Hhs in Hno.
    by split_and!.
  - intros p q hp hq Hpair Hop Hoq. unfold pair in Hpair. rewrite Hhs in Hpair.
    pose proof Hpair as (Hp & Hq & _). pose proof (Hrel p q hp hq Hpair Hop Hoq) as Hr.
    unfold relayed, buffered, bytes_at in *.
    rewrite (ag_given _ _ _ Hag), (ag_taken _ _ _ Hag);
      [|by apply (Hout q hq Sock)|by apply (Hout p hp Sock)].
    case_decide; [|done]. rewrite (ag_content _ _ _ Hag); [done|]. by apply (Hout p hp RdEnd).
  - intros fd Hfd. apply (Hwt fd Hfd).
Qed.

Lemma Fwd_env own (s s' : St) S :
  Fwd_ok own ∅ s → handlers s' = handlers s →
  agree_off S (view_of (world s)) (view_of (world s')) →
  (∀ fd, fd ∈ S → ∀ p h r, handlers s !! p = Some h → ¬ uses h r fd) →
  NoDup (apart_fds s') → (∀ fd, fd ∈ apart_fds s' → waiting_ok s' fd) →
  Fwd_ok own ∅ s'.
Proof.
  intros HF Hhs Hag. apply (Fwd_env_supply (v_supply (view_of (world s)))); [done..|].
  by rewrite with_supply_same.
Qed.

(** *** A new pair *)

Record new_pair (p q : ptr) (hp hq : Handler) (s : St) : Prop := {
  np_free : handlers s !! p = None ∧ handlers s !! q = None ∧ p ≠ q;
  np_linked : other_ (sub_ hp) = Some q ∧ other_ (sub_ hq) = Some p ∧ fd_ hq ≠ fd_ hp;
  np_open : ∀ h, h = hp ∨ h = hq → event_loop_ h = true ∧ readable_ (sub_ h) = true ∧
    writable_ (sub_ h) = true ∧ (0 ≤ pipe0 (out_ (sub_ h)))%Z ∧ (0 ≤ pipe1 (out_ (sub_ h)))%Z ∧
    buf_ok (out_ (sub_ h)) (view_of (world s));
  np_uses : ∀ h r fd, h = hp ∨ h = hq → uses h r fd →
    fd ∈ v_opened (view_of (world s)) ∧ fd ∉ apart_fds s ∧
    (∀ x hx r', handlers s !! x = Some hx → ¬ uses hx r' fd) ∧
    (∀ r', uses h r' fd → r = r');
  np_apart : ∀ r r' fd, uses hp r fd → ¬ uses hq r' fd;
  np_relayed : relayed hp hq (view_of (world s)) ∧ relayed hq hp (view_of (world s))
}.

Lemma np_open_open p q hp hq s :
  new_pair p q hp hq s → open (sub_ hp) = true ∧ open (sub_ hq) = true.
Proof.
  intros Hnp. unfold open. destruct (np_open _ _ _ _ _ Hnp hp) as (_ & -> & _); [by left|].
  by destruct (np_open _ _ _ _ _ Hnp hq) as (_ & -> & _); [by right|].
Qed.

(** The heap of handlers with a new pair. *)
Section insertion.
Context (s s' : St) (p q : ptr) (hp hq : Handler).
Hypothesis Hnew : new_pair p q hp hq s.
Hypothesis Hhs : handlers s' = <[p := hp]> (<[q := hq]> (handlers s)).

(** One of the new links. *)
Definition added (x : ptr) (h : Handler) : Prop := (x = p ∧ h = hp) ∨ (x = q ∧ h = hq).

Lemma inserted_lookup x h : handlers s' !! x = Some h →
  added x h ∨ (x ≠ p ∧ x ≠ q ∧ handlers s !! x = Some h).
Proof.
  intros Hx. rewrite Hhs in Hx. unfold added.
  apply lookup_insert_Some in Hx as [[<- <-]|[? Hx]]; [by left; left|].
  apply lookup_insert_Some in Hx as [[<- <-]|[? Hx]]; [by left; right|by right].
Qed.

Lemma inserted_added x h : added x h → handlers s' !! x = Some h ∧ (h = hp ∨ h = hq).
Proof.
  destruct (np_free _ _ _ _ _ Hnew) as (_ & _ & Hne). rewrite Hhs.
  intros [[-> ->]|[-> ->]]; [rewrite lookup_insert_eq|rewrite lookup_insert_ne, lookup_insert_eq by done]; auto.
Qed.

Lemma inserted_old x : x ≠ p → x ≠ q → handlers s' !! x = handlers s !! x.
Proof. intros ??. by rewrite Hhs, !lookup_insert_ne. Qed.

(** The peer of a new link is the other. *)
Lemma added_peer x h : added x h →
  ∃ y hy, other_ (sub_ h) = Some y ∧ y ≠ x ∧ added y hy ∧ other_ (sub_ hy) = Some x ∧
    fd_ hy ≠ fd_ h ∧ open (sub_ hy) = true.
Proof.
  destruct Hnew as [(_ & _ & Hne) (Hpo & Hqo & Hfd) _ _ _ _].
  destruct (np_open_open _ _ _ _ _ Hnew) as [Hop Hoq].
  intros [[-> ->]|[-> ->]]; [exists q, hq|exists p, hp]; unfold added; split_and!; auto.
Qed.

(** An older link does not have a new one as its peer, if the peer is alive. *)
Lemma inserted_refs own' A B news x :
  Fwd A B own' news s → refs s' x = (refs s x + if decide (x = p ∨ x = q) then 1 else 0)%Z.
Proof.
  intros HF. destruct (np_free _ _ _ _ _ Hnew) as (Hp & Hq & Hne). unfold refs.
  destruct (decide (x = p ∨ x = q)) as [Hx|Hx]; [|apply Decidable.not_or in Hx as [Hxp Hxq]].
  - assert (handlers s !! x = None) as -> by (by destruct Hx as [-> | ->]).
    assert (∃ h, added x h) as (h & Ha) by (destruct Hx as [-> | ->]; eexists; [by left|by right]).
    destruct (added_peer _ _ Ha) as (y & hy & Ho & _ & Hay & Hback & _ & Hopen).
    rewrite (proj1 (inserted_added _ _ Ha)), Ho. unfold ref_from.
    by rewrite (proj1 (inserted_added _ _ Hay)), decide_True, Hopen.
  - rewrite inserted_old, Z.add_0_r by done. destruct (handlers s !! x) as [h|]; [|done].
    destruct (other_ (sub_ h)) as [y|]; [|done]. unfold ref_from.
    destruct (handlers s' !! y) as [hy|] eqn:Hy.
    + destruct (inserted_lookup _ _ Hy) as [Ha|(_ & _ & ->)]; [|done].
      destruct (added_peer _ _ Ha) as (z & hz & Hz & _ & Haz & _).
      rewrite decide_False by (destruct Haz as [[-> _]|[-> _]]; congruence).
      destruct Ha as [[-> _]|[-> _]]; [by rewrite Hp|by rewrite Hq].
    + destruct (handlers s !! y) as [hy|] eqn:Hy0; [|done].
      rewrite inserted_old in Hy by congruence. congruence.
Qed.

(** A descriptor of a new link has no other use. *)
Lemma added_uses x y hx hy r r' fd :
  added x hx → handlers s' !! y = Some hy → uses hx r fd → uses hy r' fd → x = y ∧ r = r'.
Proof.
  intros Ha Hy Hu Hu'. pose proof (np_apart _ _ _ _ _ Hnew) as Hapart.
  destruct (np_uses _ _ _ _ _ Hnew hx r fd) as (_ & _ & Hno & Hsame); [by apply (inserted_added x)|done|].
  destruct (inserted_lookup _ _ Hy) as [Hay|(_ & _ & Hy0)]; [|by destruct (Hno y hy r' Hy0 Hu')].
  destruct Ha as [[-> ->]|[-> ->]], Hay as [[-> ->]|[-> ->]]; try (split; [done|by apply Hsame]);
    by destruct (Hapart _ _ _ ltac:(eassumption) ltac:(eassumption)).
Qed.

Lemma inserted_peer A B own' news x h :
  Fwd A B own' news s → handlers s' !! x = Some h →
  ∃ y, other_ (sub_ h) = Some y ∧ y ≠ x ∧
    (open (sub_ h) = true → ∃ hy, handlers s' !! y = Some hy ∧ other_ (sub_ hy) = Some x) ∧
    ∀ hy, handlers s' !! y = Some hy → other_ (sub_ hy) = Some x → fd_ hy ≠ fd_ h.
Proof.
  intros HF [Ha|(Hxp & Hxq & Hx0)]%inserted_lookup.
  - destruct (added_peer _ _ Ha) as (y & hy & ? & ? & Hay & ? & ? & _).
    apply inserted_added in Hay as [Hy _]. exists y. split_and!; [done|done|intros _; by exists hy|].
    intros hy' Hy' _. congruence.
  - destruct (fw_peer _ _ _ _ _ HF x h Hx0) as (y & Hy & Hyx & Hal & Hfdy). exists y. split_and!; try done.
    + intros (hy & Hhy & ?)%Hal. exists hy. split; [|done].
      destruct (np_free _ _ _ _ _ Hnew) as (? & ? & _). rewrite inserted_old; [done|congruence..].
    + intros hy [Ha|(_ & _ & Hy0)]%inserted_lookup Hback; [|by apply Hfdy].
      destruct (added_peer _ _ Ha) as (z & hz & ? & _ & Haz & _). exfalso.
      destruct Haz as [[-> _]|[-> _]]; congruence.
Qed.

Lemma Fwd_inserted own :
  Fwd none none own ∅ s → world s' = world s → apart_fds s' = apart_fds s →
  Fwd none none (ext_add q 1 (ext_add p 1 own)) ∅ s'.
Proof.
  intros HF Hw Hwt. destruct (np_open_open _ _ _ _ _ Hnew) as [Hop Hoq].
  assert (∀ x h, added x h → h = hp ∨ h = hq) as Hwhich by (intros; by eapply inserted_added).
  pose proof (np_open _ _ _ _ _ Hnew) as Hnp. destruct (np_free _ _ _ _ _ Hnew) as (_ & _ & Hne).
  split; rewrite ?Hw, ?Hwt; [done| | | | | | | | | ].
  - intros x h. by apply (inserted_peer _ _ _ _ _ _ HF).
  - intros x h [[[-> ->]|[-> ->]]|(_ & _ & Hx0)]%inserted_lookup; [| |by apply (fw_open _ _ _ _ _ HF x)];
      [rewrite Hop|rewrite Hoq]; apply Hnp; auto.
  - intros x. rewrite (inserted_refs _ _ _ _ _ HF). unfold ext_add. rewrite (fw_own _ _ _ _ _ HF x).
    destruct (decide (x = p)), (decide (x = q)); [congruence|rewrite decide_True by auto; lia..|].
    rewrite decide_False by (intros [?|?]; done). lia.
  - intros x h [Ha%Hwhich|(_ & _ & Hx0)]%inserted_lookup; [by apply Hnp|by apply (fw_buf _ _ _ _ _ HF x)].
  - intros x y hx hy [Ha%Hwhich|(_ & _ & Hx0)]%inserted_lookup Hy Hxo Hyo HnA Hr.
    + destruct (Hnp hx Ha) as (_ & _ & ? & _ & ? & _). auto.
    + apply inserted_lookup in Hy as [Ha|(_ & _ & Hy0)]; [|by apply (fw_in _ _ _ _ _ HF x y hx hy)].
      destruct (added_peer _ _ Ha) as (z & hz & Hz & _ & Haz & _).
      destruct (np_free _ _ _ _ _ Hnew) as (? & ? & _), Haz as [[-> _]|[-> _]]; congruence.
  - intros x h [Ha%Hwhich|(_ & _ & Hx0)]%inserted_lookup HnB Hwr; [by apply Hnp|by apply (fw_out _ _ _ _ _ HF x)].
  - intros x h r fd [Ha%Hwhich|(_ & _ & Hx0)]%inserted_lookup Hu; [|by apply (fw_uses _ _ _ _ _ HF x h r)].
    by eapply (np_uses _ _ _ _ _ Hnew).
  - intros x y hx hy r r' fd Hx Hy Hu Hu'. destruct (inserted_lookup _ _ Hx) as [Ha|(_ & _ & Hx0)]; [by eapply added_uses|].
    destruct (inserted_lookup _ _ Hy) as [Ha|(_ & _ & Hy0)]; [|by apply (fw_unique _ _ _ _ _ HF x y hx hy r r' fd)].
    by destruct (added_uses y x hy hx r' r fd Ha Hx Hu' Hu) as [-> ->].
  - destruct (fw_waiting _ _ _ _ _ HF) as [Hnd Fwt]. split; [done|]. intros fd Hfdw.
    destruct (Fwt fd Hfdw) as (? & ? & Hno). split_and!; try done.
    intros x h r [Ha%Hwhich|(_ & _ & Hx0)]%inserted_lookup Hu; [|by apply (Hno x h r)].
    by destruct (np_uses _ _ _ _ _ Hnew h r fd Ha Hu) as (_ & ? & _).
Qed.

Lemma Fwd_insert own :
  Fwd_ok own ∅ s → world s' = world s → apart_fds s' = apart_fds s →
  Fwd_ok (ext_add q 1 (ext_add p 1 own)) ∅ s'.
Proof.
  intros [HF Hrel Hunt] Hw Hwt. destruct (np_relayed _ _ _ _ _ Hnew) as [Hrp Hrq].
  split; [by apply Fwd_inserted| |by rewrite ?Hw, ?Hwt].
  rewrite Hw. intros x y hx hy (Hx & Hy & Hxo & Hyo & Hxy) Hox Hoy.
  destruct (np_free _ _ _ _ _ Hnew) as (_ & _ & Hne).
  assert (∀ z h, added z h → handlers s' !! z = Some h) as Hin by (intros; by apply inserted_added).
  destruct (inserted_lookup _ _ Hx) as [Ha|(Hxp & Hxq & Hx0)].
  - destruct (added_peer _ _ Ha) as (z & hz & ? & _ & Haz & _). assert (z = y) as -> by congruence.
    pose proof (Hin _ _ Haz). assert (hz = hy) as -> by congruence.
    destruct Ha as [[-> ->]|[-> ->]], Haz as [[? ->]|[? ->]]; (done || congruence).
  - destruct (inserted_lookup _ _ Hy) as [Ha|(_ & _ & Hy0)]; [|by apply (Hrel x y hx hy)].
    destruct (added_peer _ _ Ha) as (z & hz & ? & _ & Haz & _). destruct Haz as [[-> _]|[-> _]]; congruence.
Qed.
End insertion.
End loop.
