(* ===== verification/ForwarderNew.v ===== *)
(** * Creation of a pair of links (forwarder.cc, LinkEventHandler::New)

    Two sockets become a pair of registered links, or both are closed. *)

From S2P Require Import Prelude Logging IntrusiveList Epoll EventLoop LoopTheorems Sock Buffer Forwarder ForwarderTheorems ForwarderLoop.

Section creation.
Context {K EK PQ : Type} `{ForwardLaws K} `{!SockOptLaws K} `{EpollLaws EK} `{PipeLaws PQ (Z * Z)} `{Reserved}.
Abbreviation St := (EventLoop.St LinkEventHandler K EK PQ).
Abbreviation Handler := (EventHandler LinkEventHandler).

(** A link that has just been constructed, with its buffer. *)
Definition young (fd : Z) (n : link_name) (b : Buffer) : Handler :=
  mkEH fd 0 false 0 (mkLink n b true true None).

Lemma new_link_wp fd n (Q : ptr → St → Prop) s :
  (0 ≤ fd)%Z →
  (∀ p, handlers s !! p = None → Q p (alloc_handler p fd (mkLink n (buffer_new 0) true true None) s)) →
  wp (new_link fd n) Q s.
Proof.
  intros Hfd HQ. unfold new_link. apply wp_bind, wp_gets, wp_bind. unfold new_handler.
  apply wp_bind, wp_CHECK; [by apply Z.leb_le|]. apply wp_modify, wp_ret, HQ.
  apply not_elem_of_dom, is_fresh.
Qed.

(** The first reference to a link. *)
Lemma adopt_wp ext news xs (s : St) p h (Q : unit → St → Prop) :
  Inv ext news xs s → p ∈ news → handlers s !! p = Some h →
  (Inv (ext_add p 1 ext) (news ∖ {[p]}) xs (put_handler p (set_ref (ref_count_ h + 1) h) s) →
   Q tt (put_handler p (set_ref (ref_count_ h + 1) h) s)) →
  wp (IncRef p) Q s.
Proof.
  intros HI Hp Hh HQ. destruct (inv_news _ _ _ _ HI p Hp) as (h' & Hh' & Hev & Hext).
  rewrite Hh in Hh'. simplify_eq. pose proof (inv_ref _ _ _ _ HI p h' Hh) as Href.
  rewrite Hev, Hext in Href. unfold IncRef. apply wp_bind, (wp_handler _ h'); [done|].
  apply wp_bind, wp_CHECK; [by rewrite Href|]. apply (wp_upd_handler _ _ h'); [done|].
  apply HQ. by apply Inv_adopt.
Qed.

(** The end of a link that has not been registered: its socket is closed, then
    its buffer. *)
Definition discard (p : ptr) : M St unit :=
  h ← handler p;
  on_world (close_checked (fd_ h)) ;;
  upd_link p (set_readable false) ;;
  upd_link p (set_writable false) ;;
  delete_handler link_delete p.

Lemma discard_wp ext news xs (s : St) p h (Q : unit → St → Prop) :
  Inv ext news xs s → p ∈ news → handlers s !! p = Some h →
  buf_ok (out_ (sub_ h)) (view_of (world s)) → fd_ h ∈ v_opened (view_of (world s)) →
  fd_ h ∉ owned (out_ (sub_ h)) →
  (∀ k, view_of k = with_opened (v_opened (view_of (world s)) ∖ {[fd_ h]} ∖ owned (out_ (sub_ h)))
                      (view_of (world s)) →
     Inv ext (news ∖ {[p]}) xs (set_world k (drop_handler p s)) → Q tt (set_world k (drop_handler p s))) →
  wp (discard p) Q s.
Proof.
  intros HI Hp Hh Hbuf Hfd Hnot HQ. destruct (inv_news _ _ _ _ HI p Hp) as (h' & Hh' & Hev & Hext).
  rewrite Hh in Hh'. simplify_eq. pose proof (inv_ref _ _ _ _ HI p h' Hh) as Href.
  rewrite Hev, Hext in Href. unfold discard. apply wp_bind, (wp_handler _ h'); [done|].
  apply wp_bind, close_world_wp; [done|]. intros k Hv. apply wp_bind, (wp_upd_link _ _ h'); [done|].
  apply wp_bind. eapply wp_upd_link; [apply lookup_insert_eq|]. rewrite put_put. unfold delete_handler.
  apply wp_bind. eapply wp_handler; [apply lookup_insert_eq|]. apply wp_bind, wp_zoom.
  unfold link_delete. cbn [sub_ set_sub readable_ writable_ set_readable set_writable].
  apply wp_bind, wp_CHECK; [done|]. apply wp_zoom, buffer_delete_wp; cbn [out_ world put_handler set_world set_handlers].
  { eapply buf_ok_frame; [exact Hbuf|rewrite Hv; apply (agree_opened {[fd_ h']}); set_solver|set_solver]. }
  intros k2 Hv2. apply wp_bind, wp_CHECK; [cbn; by rewrite Hev|]. apply wp_bind, wp_CHECK; [cbn; by rewrite Href|].
  apply wp_modify. cbn [snd].
  match goal with |- Q tt ?x => replace x with (set_world k2 (drop_handler p s)) end.
  - apply HQ; [by rewrite Hv2, Hv|]. apply Inv_world. by eapply Inv_discard.
  - unfold drop_handler, put_handler, set_handlers, set_world, set_lst. cbn. by rewrite delete_insert_eq.
Qed.
(** The sizes of the buffers that [Init] accepts. *)
Definition opt_ok (opt : ForwarderOptions) : Prop :=
  (0 < client_to_server_buffer_size_bytes opt < INT_MAX)%Z ∧
  (0 < server_to_client_buffer_size_bytes opt < INT_MAX)%Z.

(** The two sockets become a pair of links that can be read and written, with
    the response in the buffer to the client; or both are closed. *)
Definition relaying (c f : Z) (s' : St) : Prop := ∃ p q hp hq, pair s' p q hp hq ∧
  fd_ hp = c ∧ fd_ hq = f ∧ name_ (sub_ hp) = Client ∧ name_ (sub_ hq) = Server ∧
  (∀ h, h = hp ∨ h = hq → event_loop_ h = true ∧ readable_ (sub_ h) = true ∧ writable_ (sub_ h) = true) ∧
  buffered (out_ (sub_ hp)) (view_of (world s')) = kResponse ∧
  buffered (out_ (sub_ hq)) (view_of (world s')) = [].
Definition refused (c f : Z) (s s' : St) : Prop :=
  handlers s' = handlers s ∧
  v_opened (view_of (world s')) = v_opened (view_of (world s)) ∖ {[c; f]}.

Definition same_queue (s s' : St) : Prop :=
  pipe_ s' = pipe_ s ∧ pipe_fd s' = pipe_fd s ∧ timeout_ s' = timeout_ s ∧
  (time (clk s) ≤ time (clk s'))%Z ∧ (horizon (clk s') ≤ horizon (clk s))%Z.

(** Two sockets that wait for a pair of links, and two addresses for the links. *)
Record to_pair (own : ptr → Z) (s : St) (p q : ptr) (c f : Z) : Prop := {
  tp_fwd : Fwd_ok own ∅ s;
  tp_waiting : waiting_ok s c ∧ waiting_ok s f;
  tp_apart : c ≠ f ∧ c ∉ apart_fds s ∧ f ∉ apart_fds s;
  tp_free : handlers s !! p = None ∧ handlers s !! q = None ∧ p ≠ q
}.

Lemma same_apart (s s' : St) : pipe_ s' = pipe_ s → pipe_fd s' = pipe_fd s → apart_fds s' = apart_fds s.
Proof. intros Hpi Hpf. unfold apart_fds, waiting_fds. by rewrite Hpi, Hpf. Qed.

(** The other links do not notice what happens to the two sockets and to
    descriptors that were not open. *)
Lemma others_kept own (s s' : St) p q c f S :
  to_pair own s p q c f → handlers s' = handlers s → pipe_ s' = pipe_ s → pipe_fd s' = pipe_fd s →
  agree_off S (view_of (world s)) (view_of (world s')) →
  (∀ fd, fd ∈ S → fd ∈ v_opened (view_of (world s)) → fd = c ∨ fd = f) → Fwd_ok own ∅ s'.
Proof.
  intros [HF [Hc Hf] (_ & Hcw & Hfw) _] Hhs Hpi Hpf Hag HS. pose proof (same_apart _ _ Hpi Hpf) as Hwt.
  apply (Fwd_env own s s' S); rewrite ?Hwt; [done..| | |].
  - intros fd Hfd x h r Hx Hu. destruct (HS fd Hfd) as [-> | ->];
      [by eapply (fw_uses _ _ _ _ _ (fo_fwd _ _ _ HF))|by eapply (wt_unused _ _ Hc)|by eapply (wt_unused _ _ Hf)].
  - apply (fw_waiting _ _ _ _ _ (fo_fwd _ _ _ HF)).
  - intros fd Hfd. destruct (waits _ _ _ HF Hfd) as [(?&Ho) Hno [Ht Hg]].
    assert (fd ∉ S) as Hout by (intros Hin; by destruct (HS fd Hin Ho) as [-> | ->]).
    split; [split; [done|by apply (ag_opened _ _ _ Hag)]|by rewrite Hhs|].
    unfold bytes_at. by rewrite (ag_taken _ _ _ Hag), (ag_given _ _ _ Hag).
Qed.

(** *** No buffers *)
Lemma buf_ok_new v : buf_ok (buffer_new 0) v.
Proof. split; cbn; lia. Qed.
Lemma owned_new g : owned (buffer_new g) = ∅.
Proof. done. Qed.

Lemma refuse_wp tmp own xs (s s2 : St) p q c f b (Q : unit → St → Prop) :
  to_pair own s p q c f → Inv (ext_plus tmp own) {[p; q]} xs s2 →
  handlers s2 = <[q := young f Server (buffer_new 0)]> (<[p := young c Client b]> (handlers s)) →
  same_queue s s2 → buf_ok b (view_of (world s2)) → owned b ## v_opened (view_of (world s)) →
  v_opened (view_of (world s2)) = owned b ∪ v_opened (view_of (world s)) →
  agree_off (owned b) (view_of (world s)) (view_of (world s2)) →
  (∀ s', Inv (ext_plus tmp own) ∅ xs s' → Fwd_ok own ∅ s' → same_queue s s' → refused c f s s' → Q tt s') →
  wp (for_each discard [p; q]) Q s2.
Proof.
  intros Htp HI Hhs Hsame Hbuf Hdis Hop Hag HQ.
  pose proof Htp as [_ [[(Hc0 & Hco) _ _] [(Hf0 & Hfo) _ _]] (Hcf & _ & _) (Hp & Hq & Hne)].
  assert (c ∉ owned b ∧ f ∉ owned b) as [Hcb Hfb] by set_solver.
  cbn [for_each]. apply wp_bind. eapply discard_wp; [exact HI|set_solver| | | | |].
  { rewrite Hhs, lookup_insert_ne by done. apply lookup_insert_eq. }
  { done. }
  { rewrite Hop. cbn. set_solver. }
  { done. }
  cbn [young fd_ sub_ out_]. intros k Hv HI1. apply wp_bind. eapply discard_wp; [exact HI1|set_solver| | | | |].
  { cbn. rewrite lookup_delete_ne, Hhs by done. apply lookup_insert_eq. }
  { apply buf_ok_new. }
  { cbn. rewrite Hv. cbn. rewrite Hop. set_solver. }
  { cbn. rewrite owned_new. set_solver. }
  cbn [young fd_ sub_ out_]. rewrite owned_new. intros k2 Hv2 HI2. cbn [world set_world drop_handler set_lst set_handlers] in Hv2.
  rewrite Hv in Hv2. cbn in Hv2. rewrite Hop, with_opened_twice in Hv2.
  set (s' := set_world k2 _) in *.
  assert (handlers s' = handlers s) as Hhs'.
  { unfold s'. cbn. rewrite Hhs, (delete_insert_ne _ p q) by done.
    rewrite !delete_insert_eq, (delete_id (handlers s) p) by done. by apply delete_id. }
  apply wp_ret, HQ.
  - eapply Inv_news_eq; [exact HI2|]. set_solver.
  - destruct Hsame as (Hpi & Hpf & _). apply (others_kept own s s' p q c f ({[c; f]} ∪ owned b)); [done..| |set_solver].
    unfold s'. cbn [world set_world]. rewrite Hv2.
    eapply agree_trans; [eapply agree_mono; [exact Hag|set_solver]|]. apply agree_opened. rewrite Hop. set_solver.
  - by destruct Hsame as (?&?&?&?&?).
  - split; [done|]. unfold s'. cbn [world set_world]. rewrite Hv2. cbn. set_solver.
Qed.
(** *** Both buffers *)

(** Two maps that are made by insertions. *)
Ltac inserts := apply map_eq; intros ?; rewrite !lookup_insert; repeat case_decide; (congruence || done).

Lemma not_watched ext news xs (s : St) fd :
  Inv ext news xs s → fd ≠ pipe_fd s →
  (∀ x h, handlers s !! x = Some h → event_loop_ h = true → fd_ h ≠ fd) →
  interest (kernel (ep s)) !! fd = None.
Proof.
  intros HI Hfd Hno. destruct (interest _ !! fd) as [ev|] eqn:Hi; [|done]. exfalso.
  destruct (inv_interest _ _ _ _ HI _ _ Hi Hfd) as (x & h & Hx & Hev & Hfdx & _). by apply (Hno x h).
Qed.

(** What the two buffers of a pair are, before anything has happened. *)
Record two_buffers (b1 b2 : Buffer) (v v2 : view) : Prop := {
  tb_ok : buf_ok b1 v2 ∧ buf_ok b2 v2;
  tb_ends : (0 ≤ pipe0 b1)%Z ∧ (0 ≤ pipe1 b1)%Z ∧ (0 ≤ pipe0 b2)%Z ∧ (0 ≤ pipe1 b2)%Z;
  tb_empty : size_of b1 = 0%Z ∧ size_of b2 = 0%Z;
  tb_room : (4096 ≤ capacity_ b1)%Z;
  tb_apart : owned b1 ## owned b2;
  tb_fresh : owned b1 ∪ owned b2 ## v_opened v;
  tb_opened : v_opened v2 = owned b1 ∪ owned b2 ∪ v_opened v;
  tb_agree : agree_off (owned b1 ∪ owned b2) v v2
}.

(** A buffer that [Init] has made. *)
Record made (b : Buffer) (v v' : view) : Prop := {
  md_ok : buf_ok b v';
  md_ends : (0 ≤ pipe0 b)%Z ∧ (0 ≤ pipe1 b)%Z;
  md_empty : size_of b = 0%Z;
  md_room : (4096 ≤ capacity_ b)%Z;
  md_fresh : owned b ## v_opened v;
  md_opened : v_opened v' = owned b ∪ v_opened v;
  md_agree : agree_off (owned b) v v'
}.

Lemma made_both b1 b2 v v1 v2 : made b1 v v1 → made b2 v1 v2 → two_buffers b1 b2 v v2.
Proof.
  intros [Hb1 [??] ?? Hf1 Ho1 Ha1] [Hb2 [??] ?? Hf2 Ho2 Ha2]. rewrite Ho1 in Hf2, Ho2.
  split; try done.
  - split; [|done]. eapply buf_ok_frame; [done..|set_solver].
  - set_solver.
  - set_solver.
  - set_solver.
  - eapply agree_trans; (eapply agree_mono; [eassumption|set_solver]).
Qed.

(** [Init] of the buffer of a link that has just been constructed. *)
Lemma Init_young_wp ext news xs (s : St) p fd n size (Q : bool → St → Prop) :
  (0 < size < INT_MAX)%Z → Inv ext news xs s → handlers s !! p = Some (young fd n (buffer_new 0)) →
  (∀ k, view_of k = view_of (world s) → Q false (set_world k s)) →
  (∀ k b, let s' := set_world k (put_handler p (young fd n b) s) in
     made b (view_of (world s)) (view_of k) → Inv ext news xs s' → Q true s') →
  wp (on_out p (Init size)) Q s.
Proof.
  intros Hsize HI Hp Herr Hok. apply (wp_on_out _ _ (young fd n (buffer_new 0))); [done|].
  cbn [young sub_ out_]. apply Init_wp; [done| |].
  - intros b k r w c -> Hr Hw Hrw Hor How Hcap Hv. cbn [fst snd].
    assert (owned (mkBuffer c 0 r w) = {[r; w]}) as Hown by (unfold owned, nonneg; cbn; by rewrite !decide_True).
    apply (Hok k (mkBuffer c 0 r w)).
    + rewrite Hv. split; rewrite ?Hown; cbn; [apply buf_ok_init; (done || lia)|done|done|lia|set_solver|set_solver|].
      eapply agree_trans; [apply agree_pipe|apply agree_cap]; set_solver.
    + apply Inv_world. exact (Inv_sub _ _ _ _ _ _ (mkLink n (mkBuffer c 0 r w) true true None) HI Hp).
  - intros k Hv. cbn [fst snd]. pose proof (put_same s p _ k Hp) as Hs. cbn in Hs. rewrite Hs. by apply Herr.
Qed.

Definition registered_link (h : Handler) (fd : Z) (n : link_name) (b : Buffer) (o : ptr) : Prop :=
  ∃ t r, h = mkEH fd t true r (mkLink n b true true (Some o)).

Lemma young_pair own (s s' : St) p q c f b1 b2 hp hq :
  to_pair own s p q c f →
  registered_link hp c Client b1 q → registered_link hq f Server b2 p →
  handlers s' = handlers s → apart_fds s' = apart_fds s →
  buf_ok b1 (view_of (world s')) → buf_ok b2 (view_of (world s')) →
  (0 ≤ pipe0 b1)%Z ∧ (0 ≤ pipe1 b1)%Z ∧ (0 ≤ pipe0 b2)%Z ∧ (0 ≤ pipe1 b2)%Z →
  owned b1 ## owned b2 → owned b1 ∪ owned b2 ## v_opened (view_of (world s)) →
  v_opened (view_of (world s')) = owned b1 ∪ owned b2 ∪ v_opened (view_of (world s)) →
  relayed hp hq (view_of (world s')) ∧ relayed hq hp (view_of (world s')) →
  new_pair p q hp hq s'.
Proof.
  intros [HF [Hc Hf] (Hcf & Hcw & Hfw) (Hp & Hq & Hne)] (t1 & r1 & ->) (t2 & r2 & ->) Hhs Hwt Hb1 Hb2 (?&?&?&?) Hap Hfr Hop Hrel.
  assert (∀ fd, fd ∈ apart_fds s → fd ∈ v_opened (view_of (world s))) as Hwo
    by (intros fd Hfd; by destruct (waits _ _ _ HF Hfd) as [(?&?) _ _]).
  pose proof (fw_uses _ _ _ _ _ (fo_fwd _ _ _ HF)) as Huo.
  destruct Hc as [(Hc0 & Hco) Hcu _], Hf as [(Hf0 & Hfo) Hfu _].
  assert (∀ n b o fd t r ro x, fd ∈ v_opened (view_of (world s)) →
    uses (mkEH fd t true r (mkLink n b true true o)) ro x →
    (ro = Sock ∧ x = fd) ∨ (ro ≠ Sock ∧ x ∈ owned b)) as Huse.
  { intros n b o fd t r ro x Hfd Hu. destruct ro; [left; by destruct Hu|right|right]; (split; [done|]);
      apply (owned_uses (mkEH fd t true r (mkLink n b true true o))); [by left|by right]. }
  assert (∀ n b o fd t r, pipe0 b ≠ pipe1 b → fd ∉ owned b → ∀ ro ro' x,
    uses (mkEH fd t true r (mkLink n b true true o)) ro x →
    uses (mkEH fd t true r (mkLink n b true true o)) ro' x → ro = ro') as Hself.
  { intros n b o fd t r Hpp Hfb ro ro' x Hu Hu'. unfold owned in Hfb.
    rewrite elem_of_union, !elem_of_nonneg in Hfb.
    destruct ro, ro'; try done; cbn in *; exfalso; destruct Hu as [Hu1 Hu2], Hu' as [Hu1' Hu2'];
      try (apply Hfb; (left; split; congruence) || (right; split; congruence)); congruence. }
  assert (c ∉ owned b1 ∧ f ∉ owned b2 ∧ f ∉ owned b1 ∧ c ∉ owned b2) as (Hcb1 & Hfb2 & Hfb1 & Hcb2) by set_solver.
  split; rewrite ?Hhs, ?Hwt; cbn [sub_ other_ fd_ out_ readable_ writable_ event_loop_]; try done.
  - intros h [-> | ->]; by split_and!.
  - intros h r fd Hh Hu.
    assert (fd ∈ {[c; f]} ∪ (owned b1 ∪ owned b2)) as Hfd.
    { destruct Hh as [-> | ->]; apply Huse in Hu; set_solver. }
    assert (fd ∉ apart_fds s ∧ ∀ x hx r', handlers s !! x = Some hx → ¬ uses hx r' fd) as [? ?].
    { rewrite elem_of_union in Hfd. destruct Hfd as [Hfd|Hfd].
      - assert (fd = c ∨ fd = f) as [-> | ->] by set_solver; done.
      - split; [intros ?%Hwo; set_solver|]. intros x hx r' Hx Hu'. pose proof (Huo x hx r' fd Hx Hu'). set_solver. }
    split_and!; [rewrite Hop; set_solver|done|done|].
    intros r' Hu'. destruct Hh as [-> | ->].
    + eapply Hself; [|exact Hcb1|exact Hu|exact Hu']. by apply (bo_distinct _ _ Hb1).
    + eapply Hself; [|exact Hfb2|exact Hu|exact Hu']. by apply (bo_distinct _ _ Hb2).
  - intros r r' fd Hu Hu'. apply Huse in Hu; [|done]. apply Huse in Hu'; [|done]. set_solver.
Qed.
(** What [New] leaves. *)
Definition New_post (tmp : ptr → Z) (c f : Z) (s s' : St) : Prop := ∃ own' xs',
  Inv (ext_plus tmp own') ∅ xs' s' ∧ Fwd_ok own' ∅ s' ∧ same_queue s s' ∧
  (relaying c f s' ∨ refused c f s s').

(** The links are told of each other, referenced, and registered. *)
Lemma register_wp tmp own xs (s s2 : St) p q c f b1 b2 (Q : unit → St → Prop) m :
  Inv (ext_plus tmp own) {[p; q]} xs s2 → p ≠ q → c ≠ f →
  handlers s !! p = None → handlers s !! q = None →
  handlers s2 = <[q := young f Server b2]> (<[p := young c Client b1]> (handlers s)) →
  same_queue s s2 → c ≠ pipe_fd s → f ≠ pipe_fd s →
  (∀ x h, handlers s !! x = Some h → event_loop_ h = true → fd_ h ≠ c ∧ fd_ h ≠ f) →
  (∀ s' hp hq xs', Inv (ext_plus tmp (ext_add q 1 (ext_add p 1 own))) ∅ xs' s' → same_queue s s' →
     world s' = world s2 → handlers s' = <[p := hp]> (<[q := hq]> (handlers s)) →
     registered_link hp c Client b1 q → registered_link hq f Server b2 p → wp m Q s') →
  wp (upd_link p (set_other (Some q)) ;;
      upd_link q (set_other (Some p)) ;;
      IncRef p ;; IncRef q ;;
      Add (Some p) (Z.lor EPOLLIN (Z.lor EPOLLOUT EPOLLET)) ;;
      Add (Some q) (Z.lor EPOLLIN (Z.lor EPOLLOUT EPOLLET)) ;; m) Q s2.
Proof.
  intros HI Hne Hcf Hp Hq Hhs (Hpi & Hpf & Hto & Ht & Hh) Hcp Hfp Hunw HQ.
  assert (handlers s2 !! p = Some (young c Client b1)) as Hp2
    by (by rewrite Hhs, lookup_insert_ne, lookup_insert_eq).
  apply wp_bind, (wp_upd_link _ _ (young c Client b1)); [done|].
  pose proof (Inv_sub _ _ _ _ _ _ (mkLink Client b1 true true (Some q)) HI Hp2) as HI3.
  set (s3 := put_handler p _ s2) in *.
  assert (handlers s3 !! q = Some (young f Server b2)) as Hq3
    by (unfold s3; cbn; by rewrite lookup_insert_ne, Hhs, lookup_insert_eq).
  apply wp_bind, (wp_upd_link _ _ (young f Server b2)); [done|].
  pose proof (Inv_sub _ _ _ _ _ _ (mkLink Server b2 true true (Some p)) HI3 Hq3) as HI4.
  set (s4 := put_handler q _ s3) in *.
  set (hp4 := mkEH c 0 false 0 (mkLink Client b1 true true (Some q))).
  set (hq4 := mkEH f 0 false 0 (mkLink Server b2 true true (Some p))).
  assert (handlers s4 = <[p := hp4]> (<[q := hq4]> (handlers s))) as Hhs4.
  { unfold s4, s3. cbn. rewrite Hhs. inserts. }
  apply wp_bind. eapply adopt_wp; [exact HI4|set_solver|by rewrite Hhs4, lookup_insert_eq|]. intros HI5.
  set (s5 := put_handler p _ s4) in *.
  apply wp_bind. eapply adopt_wp; [exact HI5|set_solver| |].
  { unfold s5. rewrite handlers_put. by rewrite lookup_insert_ne, Hhs4, lookup_insert_ne, lookup_insert_eq. }
  intros HI6. set (s6 := put_handler q _ s5) in *.
  assert (handlers s6 = <[p := set_ref 1 hp4]> (<[q := set_ref 1 hq4]> (handlers s))) as Hhs6.
  { unfold s6, s5. rewrite !handlers_put, Hhs4. inserts. }
  assert (Inv (ext_plus tmp (ext_add q 1 (ext_add p 1 own))) ∅ xs s6) as HI6'.
  { eapply Inv_ext_eq; [eapply Inv_news_eq; [exact HI6|set_solver]|].
    intros x. unfold ext_plus, ext_add. repeat case_decide; lia. }
  apply wp_bind. eapply Add_wp; [exact HI6'|by rewrite Hhs6, lookup_insert_eq|done| |].
  { eapply not_watched; [exact HI6'|cbn; by rewrite Hpf|]. intros x h Hx Hev. rewrite Hhs6 in Hx.
    apply lookup_insert_Some in Hx as [[<- <-]|[? Hx]]; [done|].
    apply lookup_insert_Some in Hx as [[<- <-]|[? Hx]]; [done|]. by apply (Hunw x h). }
  intros s7 t1 HI7 (Hpi7 & Hpf7 & _ & _ & Hto7 & Hw7) Ht7 Hh7 Hhs7.
  apply wp_bind. eapply (Add_wp _ _ _ _ q (set_ref 1 hq4)).
  { eapply Inv_news_eq; [exact HI7|set_solver]. }
  { rewrite Hhs7, lookup_insert_ne, Hhs6, lookup_insert_ne by done. apply lookup_insert_eq. }
  { done. }
  { eapply not_watched; [exact HI7|rewrite Hpf7; cbn; congruence|]. intros x h Hx Hev. rewrite Hhs7, Hhs6 in Hx.
    apply lookup_insert_Some in Hx as [[<- <-]|[? Hx]]; [done|].
    rewrite lookup_insert_ne in Hx by done.
    apply lookup_insert_Some in Hx as [[<- <-]|[? Hx]]; [done|]. by apply (Hunw x h). }
  intros s8 t2 HI8 (Hpi8 & Hpf8 & _ & _ & Hto8 & Hw8) Ht8 Hh8 Hhs8.
  eapply (HQ s8 (mkEH c t1 true 2 _) (mkEH f t2 true 2 _)).
  - eapply Inv_news_eq; [exact HI8|set_solver].
  - cbn in *. split_and!; [congruence|congruence|congruence|lia..].
  - by rewrite Hw8, Hw7.
  - rewrite Hhs8, Hhs7, Hhs6. inserts.
  - by do 2 eexists.
  - by do 2 eexists.
Qed.
(** *** The response *)

Lemma no_bytes b1 b2 v v2 :
  two_buffers b1 b2 v v2 → piped v2 (pipe0 b1) = [] ∧ piped v2 (pipe0 b2) = [].
Proof.
  intros [[Hb1 Hb2] (Hr1 & _ & Hr2 & _) [Hz1 Hz2] _ _ _ _ _].
  destruct (bo_read _ _ Hb1 Hr1) as (_ & Hl1 & _), (bo_read _ _ Hb2 Hr2) as (_ & Hl2 & _).
  split; apply length_zero_iff_nil; lia.
Qed.

(** The buffers after the response has been written to the first. *)
Record greeted (b1 b2 : Buffer) (v v' : view) : Prop := {
  gr_ok : buf_ok b1 v' ∧ buf_ok b2 v';
  gr_bytes : buffered b1 v' = kResponse ∧ buffered b2 v' = [];
  gr_opened : v_opened v' = owned b1 ∪ owned b2 ∪ v_opened v;
  gr_agree : agree_off (owned b1 ∪ owned b2) v v'
}.

Lemma response_written b1 b2 v v2 :
  two_buffers b1 b2 v v2 →
  greeted (set_size_ (Z.of_nat (length kResponse)) b1) b2 v (with_content (pipe0 b1) kResponse v2).
Proof.
  intros Htb. destruct (no_bytes _ _ _ _ Htb) as [_ Hd2].
  destruct Htb as [[Hb1 Hb2] (H0b1 & H1b1 & H0b2 & H1b2) [Hz1 Hz2] Hroom Hap Hfr Hop Hag].
  assert (pipe0 b1 ∈ owned b1 ∧ pipe0 b2 ∈ owned b2) as [Ho1 Ho2]
    by (unfold owned; rewrite !elem_of_union, !elem_of_nonneg; auto).
  assert (pipe0 b2 ≠ pipe0 b1) as Hpp by (intros Heq; apply (Hap (pipe0 b1)); [done|by rewrite <- Heq]).
  split.
  - split; [apply buf_ok_content; [done|done|done|cbn; lia]|].
    eapply buf_ok_frame; [exact Hb2|apply (agree_content {[pipe0 b1]}); set_solver|set_solver].
  - unfold buffered. cbn [pipe0 set_size_]. rewrite !decide_True by done. unfold piped, bytes_at. cbn [v_content with_content].
    by rewrite lookup_insert_eq, lookup_insert_ne.
  - done.
  - eapply agree_trans; [exact Hag|]. apply agree_content. set_solver.
Qed.

(** A pair that has relayed nothing yet. *)
Lemma greeted_relayed own (s : St) p q c f b1 b2 v hp hq :
  to_pair own s p q c f → greeted b1 b2 (view_of (world s)) v →
  owned b1 ∪ owned b2 ## v_opened (view_of (world s)) →
  registered_link hp c Client b1 q → registered_link hq f Server b2 p →
  relayed hp hq v ∧ relayed hq hp v.
Proof.
  intros [_ [Hc Hf] _ _] [_ [Hg1 Hg2] _ Hag] Hfr (t1 & r1 & ->) (t2 & r2 & ->).
  destruct Hc as [(_ & Hco) _ [Hct Hcg]], Hf as [(_ & Hfo) _ [Hft Hfg]].
  assert (c ∉ owned b1 ∪ owned b2 ∧ f ∉ owned b1 ∪ owned b2) as [HcO HfO] by (split; intros ?; by eapply Hfr).
  unfold relayed, bytes_at in *. cbn [fd_ sub_ out_ name_ greeting].
  by rewrite !(ag_given _ _ _ Hag), !(ag_taken _ _ _ Hag), Hct, Hcg, Hft, Hfg, Hg1, Hg2.
Qed.

(** From the two new links, with their buffers, to the pair. *)
Lemma accept_wp tmp own xs (s s2 : St) p q c f b1 b2 :
  to_pair own s p q c f → Inv (ext_plus tmp own) {[p; q]} xs s2 →
  handlers s2 = <[q := young f Server b2]> (<[p := young c Client b1]> (handlers s)) →
  same_queue s s2 → two_buffers b1 b2 (view_of (world s)) (view_of (world s2)) →
  wp (upd_link p (set_other (Some q)) ;;
      upd_link q (set_other (Some p)) ;;
      IncRef p ;; IncRef q ;;
      Add (Some p) (Z.lor EPOLLIN (Z.lor EPOLLOUT EPOLLET)) ;;
      Add (Some q) (Z.lor EPOLLIN (Z.lor EPOLLOUT EPOLLET)) ;;
      on_out p (Write kResponse)) (λ _, New_post tmp c f s) s2.
Proof.
  intros Htp HI Hhs Hsame Htb. pose proof Htp as [HF [Hc Hf] (Hcf & Hcw & Hfw) (Hp & Hq & Hne)].
  eapply (register_wp tmp own xs s s2 p q c f b1 b2); [done..|by apply not_apart|by apply not_apart| |].
  { intros x h Hx Hev. rewrite (fw_open _ _ _ _ _ (fo_fwd _ _ _ HF) x h Hx) in Hev.
    split; intros Heq; [apply (wt_unused _ _ Hc x h Sock Hx)|apply (wt_unused _ _ Hf x h Sock Hx)]; by split. }
  intros s3 hp hq xs3 HI3 Hsame3 Hw3 Hhs3 (t1 & r1 & ->) Hrq.
  destruct (no_bytes _ _ _ _ Htb) as [Hd1 _]. pose proof (response_written _ _ _ _ Htb) as Hgr.
  destruct Htb as [[Hb1 _] Hends [Hz1 _] Hroom Hap Hfr _ _]. destruct Hends as (?&?&?&?).
  eapply wp_on_out; [by rewrite Hhs3, lookup_insert_eq|]. rewrite Hw3. cbn [sub_ out_].
  apply Write_wp; [done..| |].
  { rewrite Hz1. cbn. lia. }
  intros k Hv. cbn [fst snd]. rewrite Hd1 in Hv. cbn [app] in Hv. rewrite Hz1. cbn [Z.add].
  set (b1' := set_size_ _ b1). set (hp' := set_sub (set_out b1' _) _). set (s' := set_world k _).
  fold b1' in Hgr. rewrite <- Hv in Hgr. change (owned b1) with (owned b1') in *.
  assert (registered_link hp' c Client b1' q) as Hrp by (by do 2 eexists).
  assert (handlers s' = <[p := hp']> (<[q := hq]> (handlers s))) as Hhs'.
  { unfold s'. cbn [handlers set_world]. rewrite handlers_put, Hhs3. by rewrite insert_insert_eq. }
  set (sm := set_handlers (handlers s) s').
  assert (same_queue s s') as Hsame' by (by destruct Hsame3 as (?&?&?&?&?)).
  assert (apart_fds sm = apart_fds s) as Hwt by (by apply same_apart; apply Hsame').
  assert (Fwd_ok own ∅ sm) as HFm.
  { apply (others_kept own s sm p q c f (owned b1' ∪ owned b2)); [done|done|apply Hsame'|apply Hsame'|apply Hgr|set_solver]. }
  exists (ext_add q 1 (ext_add p 1 own)), xs3. split; [|split; [|split; [done|left]]].
  - apply Inv_world. eapply (Inv_sub _ _ _ _ _ _ _ HI3). by rewrite Hhs3, lookup_insert_eq.
  - apply (Fwd_insert sm s' p q hp' hq); [|done..].
    by apply (young_pair own s sm p q c f b1' b2); (apply Hgr || eapply greeted_relayed || idtac).
  - exists p, q, hp', hq. destruct Hrq as (t2 & r2 & ->). split_and!; try done; [|by intros h [-> | ->]|apply Hgr..].
    unfold pair. by rewrite Hhs', lookup_insert_eq, lookup_insert_ne, lookup_insert_eq.
Qed.

Lemma New_wp opt tmp own xs (s : St) c f :
  opt_ok opt → Inv (ext_plus tmp own) ∅ xs s → Fwd_ok own ∅ s → waiting_ok s c → waiting_ok s f → c ≠ f →
  c ∉ apart_fds s → f ∉ apart_fds s →
  wp (New opt (c, f)) (λ _, New_post tmp c f s) s.
Proof.
  intros [Hn2 Hn1] HI HF Hc Hf Hcf Hcw Hfw.
  pose proof Hc as [(Hc0 & Hco) _ _]. pose proof Hf as [(Hf0 & Hfo) _ _].
  unfold New. apply wp_bind, new_link_wp; [done|]. intros p Hp.
  apply wp_bind, new_link_wp; [done|]. intros q Hq. cbn in Hq.
  apply lookup_insert_None in Hq as [Hq Hne].
  assert (to_pair own s p q c f) as Htp by (by split).
  pose proof (Inv_alloc _ _ _ _ p c (mkLink Client (buffer_new 0) true true None) HI Hp) as HI1.
  pose proof (Inv_alloc _ _ _ _ q f (mkLink Server (buffer_new 0) true true None) HI1
    ltac:(cbn; by rewrite lookup_insert_ne)) as HI2.
  set (s2 := alloc_handler q f _ _) in *.
  assert (handlers s2 = <[q := young f Server (buffer_new 0)]> (<[p := young c Client (buffer_new 0)]> (handlers s)))
    as Hhs2 by done.
  apply (Inv_news_eq _ _ {[p; q]}) in HI2; [|set_solver].
  assert (∀ s3 b, Inv (ext_plus tmp own) {[p; q]} xs s3 →
    handlers s3 = <[q := young f Server (buffer_new 0)]> (<[p := young c Client b]> (handlers s)) →
    same_queue s s3 → buf_ok b (view_of (world s3)) → owned b ## v_opened (view_of (world s)) →
    v_opened (view_of (world s3)) = owned b ∪ v_opened (view_of (world s)) →
    agree_off (owned b) (view_of (world s)) (view_of (world s3)) →
    wp (for_each discard [p; q]) (λ _, New_post tmp c f s) s3) as Hrefuse.
  { intros s3 b ???????. eapply (refuse_wp tmp own xs s s3 p q c f b); [done..|]. intros s' HI' HF' Hsm' Href.
    exists own, xs. split_and!; try done. by right. }
  assert (∀ k : K, same_queue s (set_world k s2)) as Hsame by done.
  apply wp_bind. eapply (Init_young_wp _ _ _ s2 p c Client); [done|exact HI2|by rewrite Hhs2, lookup_insert_ne, lookup_insert_eq| |].
  { intros k Hv. apply wp_bind, wp_ret. apply (Hrefuse _ (buffer_new 0)); cbn [world set_world]; rewrite ?Hv, ?owned_new;
      [by apply Inv_world|done|done|apply buf_ok_new|set_solver|set_solver|apply agree_refl]. }
  intros k1 b1 s3 Hm1 HI3.
  assert (handlers s3 = <[q := young f Server (buffer_new 0)]> (<[p := young c Client b1]> (handlers s))) as Hhs3.
  { unfold s3. cbn [handlers set_world]. rewrite handlers_put, Hhs2. inserts. }
  apply wp_bind. eapply (Init_young_wp _ _ _ s3 q f Server); [done|exact HI3|by rewrite Hhs3, lookup_insert_eq| |].
  { intros k Hv. change (world s3) with k1 in Hv. destruct Hm1.
    apply (Hrefuse _ b1); cbn [world set_world]; rewrite ?Hv; try done. by apply Inv_world. }
  intros k2 b2 s4 Hm2 HI4. eapply (accept_wp tmp own xs s s4 p q c f b1 b2); try done.
  - unfold s4. cbn [handlers set_world]. rewrite handlers_put, Hhs3. inserts.
  - by eapply made_both.
Qed.
End creation.
