(* ===== verification/ForwarderRuns.v ===== *)
(** * Runs of the forwarder (forwarder.h, forwarder.cc)

    The links are a client of the event loop. Other threads hand sockets over
    with [Forward]; the loop turns. The theorems about the relayed bytes. *)

From S2P Require Import Prelude Logging IntrusiveList Epoll EventLoop LoopTheorems Sock Buffer Forwarder ForwarderTheorems ForwarderLoop ForwarderNew.

Section runs.
Context {K EK PQ : Type} `{ForwardLaws K} `{!SockOptLaws K} `{EpollLaws EK} `{PipeLaws PQ (Z * Z)} `{Reserved}.
Abbreviation St := (EventLoop.St LinkEventHandler K EK PQ).
Abbreviation Handler := (EventHandler LinkEventHandler).

Context (opt : ForwarderOptions) (min_lvl : Severity) (left_first : bool)
  (vector_capacity : nat → nat → nat).

Abbreviation no_tmp := (λ _ : ptr, 0%Z).
Abbreviation Turn := (Loop_turn link_delete (OnEvent min_lvl left_first) OnTimeout (New opt) vector_capacity).

(** The pair at the head of the queue is taken out of it. *)
Lemma Fwd_pop own (s : St) c f fs q' :
  Fwd_ok own ∅ s → pending (pipe_ s) = (c, f) :: fs → pending q' = fs →
  let s' := set_pipe q' s in
  Fwd_ok own ∅ s' ∧ waiting_ok s' c ∧ waiting_ok s' f ∧ c ≠ f ∧
  c ∉ apart_fds s' ∧ f ∉ apart_fds s'.
Proof.
  intros HF Hq Hq' s'. pose proof (fw_waiting _ _ _ _ _ (fo_fwd _ _ _ HF)) as [Hnd _].
  assert (apart_fds s ≡ₚ c :: f :: apart_fds s') as Hw.
  { unfold apart_fds, waiting_fds, s'. cbn. rewrite Hq, Hq'. cbn. solve_Permutation. }
  rewrite Hw in Hnd. apply NoDup_cons in Hnd as [Hc Hnd]. apply NoDup_cons in Hnd as [Hf Hnd].
  assert (∀ fd, fd ∈ apart_fds s → waiting_ok s' fd) as Hok.
  { intros fd Hfd. by destruct (waits _ _ _ HF Hfd). }
  setoid_rewrite Hw in Hok. split_and!.
  - eapply (Fwd_env own s s' ∅); [done|done|apply agree_refl|set_solver|done|].
    intros fd Hfd. apply Hok. by do 2 right.
  - apply Hok. by left.
  - apply Hok. right. by left.
  - intros ->. apply Hc. by left.
  - intros ?. apply Hc. by right.
  - done.
Qed.

#[export] Instance Fwd_client : opt_ok opt →
  LoopClient link_delete (OnEvent min_lvl left_first) OnTimeout (New opt) Fwd_ok.
Proof.
  intros Hopt. split; [apply Fwd_owner|..].
  - intros tmp own news xs s p h evs HI HF Htmp Htp Hp Hev.
    pose proof (fw_news _ _ _ _ _ (fo_fwd _ _ _ HF)) as ->.
    eapply wp_mono; [by eapply link_OnEvent_wp|].
    intros [] s' (xs' & q & hq & hp' & hq' & _ & Hk & Hpost & _). exists xs'.
    split; [done|by eapply cp_pipe].
  - intros tmp own news xs s p h HI HF Htmp Htp Hp Hev.
    pose proof (fw_news _ _ _ _ _ (fo_fwd _ _ _ HF)) as ->.
    eapply wp_mono; [by eapply link_OnTimeout_wp|].
    intros [] s' (xs' & q & hq & hp' & hq' & _ & Hk & _ & _ & Hsub & Hdl). by exists xs'.
  - intros tmp own news xs s [c f] fs q' HI HF Htmp Hq Hq'.
    pose proof (fw_news _ _ _ _ _ (fo_fwd _ _ _ HF)) as ->.
    destruct (Fwd_pop _ _ _ _ _ _ HF Hq Hq') as (HF' & Hc & Hf & Hcf & Hcw & Hfw).
    eapply wp_mono; [eapply New_wp; try done; by apply Inv_pipe|].
    intros [] s' (own' & xs' & HI' & HF2 & (Hpi & _ & Hto & Ht & Hh) & _).
    exists xs'. split; [|done]. exists own', ∅. by split_and!.
Qed.

(** ** Runs *)

Definition fwd_ok (s : St) : Prop := ∃ own xs, Inv (ext_plus no_tmp own) ∅ xs s ∧ Fwd_ok own ∅ s.

(** A socket that another thread hands over: open, new to the forwarder. *)
Definition handed (s : St) (fd : Z) : Prop := waiting_ok s fd ∧ fd ∉ apart_fds s.

(** - [fs_forward]: another thread calls [Forward];
    - [fs_turn]: a turn of the loop;
    - [fs_env]: time passes, peers send, other parts of the program open and
      close descriptors [S] that the forwarder does not have. *)
Inductive fwd_step : St → St → Prop :=
  | fs_forward s t c f s' :
      t ≠ loop_ s → handed s c → handed s f → c ≠ f →
      Forward opt c f (as_thread t s) = Done (tt, s') → fwd_step s (as_thread (loop_ s) s')
  | fs_turn s s' :
      turn_env vector_capacity s → (∃ n, ∀ fuel, n < fuel → Turn fuel s = Done (tt, s')) → fwd_step s s'
  | fs_env s c w m S :
      (time (clk s) ≤ time c)%Z →
      agree_off S (with_supply m (view_of (world s))) (view_of w) →
      (∀ fd, fd ∈ S → fd ∉ apart_fds s ∧ ∀ p h r, handlers s !! p = Some h → ¬ uses h r fd) →
      fwd_step s (set_world w (set_clk c s)).

Lemma fwd_turn_ok s :
  opt_ok opt → fwd_ok s → turn_env vector_capacity s →
  ∃ n, ∀ fuel, n < fuel → ∃ s', Turn fuel s = Done (tt, s') ∧ fwd_ok s' ∧ none_expired s'.
Proof.
  intros Hopt (own & xs & HI & HF) He. pose proof (Fwd_client Hopt).
  destruct (Loop_turn_wp link_delete (OnEvent min_lvl left_first) OnTimeout (New opt) vector_capacity Fwd_ok
    own ∅ xs s HI HF He) as [n Hn].
  exists n. intros fuel Hf. specialize (Hn fuel Hf).
  apply wp_Done in Hn as ([] & s' & Hs' & xs' & (own' & news' & HI' & HF' & _) & Hex).
  pose proof (fw_news _ _ _ _ _ (fo_fwd _ _ _ HF')) as ->.
  exists s'. split_and!; [done| |done]. by exists own', xs'.
Qed.

Lemma Forward_wp s t c f :
  fwd_ok s → t ≠ loop_ s → handed s c → handed s f → c ≠ f →
  wp (Forward opt c f) (λ _ s', fwd_ok (as_thread (loop_ s) s') ∧
    pending (pipe_ s') = pending (pipe_ s) ++ [(c, f)] ∧ world s' = world s ∧ handlers s' = handlers s) (as_thread t s).
Proof.
  intros (own & xs & HI & HF) Ht [Hc Hcw] [Hf Hfw] Hcf.
  pose proof Hc as [[Hc0 _] _ _]. pose proof Hf as [[Hf0 _] _ _].
  unfold Forward, ScheduleOrRun, Schedule. apply wp_bind, wp_CHECK; [by apply Z.leb_le|].
  apply wp_bind, wp_CHECK; [by apply Z.leb_le|]. apply wp_bind, wp_on_loop_thread. cbn [this_thread loop_ as_thread].
  rewrite (proj2 (Z.eqb_neq _ _)) by done. apply wp_bind, wp_on_loop_thread. cbn [this_thread loop_ as_thread].
  rewrite (proj2 (Z.eqb_neq _ _)) by done. apply wp_bind, wp_CHECK; [done|]. apply wp_bind.
  destruct (pipe_write_ok (c, f) (pipe_ s)) as (q' & Hw & Hq'). unfold wp at 1. cbn. rewrite Hw.
  apply wp_CHECK; [done|]. split; [|done].
  assert (as_thread (loop_ s) (set_pipe q' (as_thread t s)) = set_pipe q' s) as ->.
  { rewrite <- (inv_thread _ _ _ _ HI). by destruct s. }
  assert (apart_fds (set_pipe q' s) = apart_fds s ++ [c; f]) as Hwt.
  { unfold apart_fds, waiting_fds. cbn. by rewrite Hq', fmap_app, concat_app, (assoc_L (++)). }
  exists own, xs. split; [by apply Inv_pipe|].
  eapply (Fwd_env own s _ ∅); [done|done|apply agree_refl|set_solver|..]; rewrite Hwt.
  - apply NoDup_app. split_and!.
    + apply (fw_waiting _ _ _ _ _ (fo_fwd _ _ _ HF)).
    + intros x Hx Hin. apply elem_of_cons in Hin as [->|Hin]; [done|].
      apply list_elem_of_singleton in Hin as ->. done.
    + apply NoDup_cons. split; [|apply NoDup_singleton]. by intros ->%list_elem_of_singleton.
  - intros fd [Hfd|Hfd]%elem_of_app; [by destruct (waits _ _ _ HF Hfd)|].
    apply elem_of_cons in Hfd as [->|Hfd]; [by destruct Hc|].
    apply list_elem_of_singleton in Hfd as ->. by destruct Hf.
Qed.

Lemma fwd_step_ok s s' : opt_ok opt → fwd_ok s → fwd_step s s' → fwd_ok s'.
Proof.
  intros Hopt Hok Hstep. destruct Hstep as [s t c f s' Ht Hc Hf Hcf Hs'|s s' He [m Hs']|s c w m S Hc Hag HS].
  - pose proof (Forward_wp s t c f Hok Ht Hc Hf Hcf) as Hwp. unfold wp in Hwp. rewrite Hs' in Hwp. apply Hwp.
  - destruct (fwd_turn_ok s Hopt Hok He) as [n Hturn].
    destruct (Hturn (Datatypes.S (n `max` m)) ltac:(lia)) as (s2 & Hs2 & Hok2 & _).
    rewrite (Hs' (Datatypes.S (n `max` m))) in Hs2 by lia. by simplify_eq.
  - destruct Hok as (own & xs & HI & HF). exists own, xs.
    split; [apply Inv_world; by apply Inv_clk|].
    eapply (Fwd_env_supply m own s); [done|done|exact Hag| | |].
    + intros fd Hfd. by apply HS.
    + apply (fw_waiting _ _ _ _ _ (fo_fwd _ _ _ HF)).
    + intros fd Hfd. assert (fd ∉ S) as Hout by (intros Hin; by apply (HS fd Hin)).
      destruct (waits _ _ _ HF Hfd) as [(?&?) Hno [Htk Hgv]]. split; [|done|].
      * split; [done|by apply (ag_opened _ _ _ Hag)].
      * cbn [world set_world]. unfold bytes_at. rewrite (ag_taken _ _ _ Hag), (ag_given _ _ _ Hag) by done. done.
Qed.

Lemma fwd_runs s s' : opt_ok opt → fwd_ok s → rtc fwd_step s s' → fwd_ok s'.
Proof.
  intros Hopt Hok Hrun. eapply (rtc_invariant fwd_step fwd_ok); [done..|]. intros ????. by eapply fwd_step_ok.
Qed.

(** The loop as it is constructed. *)
Record fwd_start (s : St) : Prop := {
  st_inv : ∃ xs, Inv (λ _, 0%Z) ∅ xs s;
  st_no_link : handlers s = ∅;
  st_nodup : NoDup (apart_fds s);
  st_apart : ∀ fd, fd ∈ apart_fds s → waiting_ok s fd
}.

Lemma fwd_ok_start s : fwd_start s → fwd_ok s.
Proof.
  intros [[xs HI] Hhs Hnd Hap]. exists no_tmp, xs. split; [by eapply Inv_ext_eq|].
  split; [split|..]; unfold pair, refs; rewrite ?Hhs; try done.
  - split; [done|]. intros fd Hfd. destruct (Hap fd Hfd) as [(? & ?) _ _]. split_and!; [done..|].
    intros p h r. by rewrite lookup_empty.
  - intros p q hp hq (Hp & _). done.
  - intros fd Hfd. apply (Hap fd Hfd).
Qed.
(** The loop takes a reference to a link before it dispatches an event to it. *)
Lemma fwd_take tmp own xs s p h :
  Inv (ext_plus tmp own) ∅ xs s → Fwd_ok own ∅ s → handlers s !! p = Some h →
  Inv (ext_plus (ext_add p 1 tmp) own) ∅ xs (after (IncRef p) s) ∧ Fwd_ok own ∅ (after (IncRef p) s).
Proof.
  intros HI HF Hp. apply (wp_after (IncRef p) (λ s, Inv _ ∅ xs s ∧ Fwd_ok own ∅ s)).
  eapply IncRef_wp; [exact HI|exact Hp|set_solver|]. intros HI'. split.
  - eapply Inv_ext_eq; [done|]. intros q. unfold ext_plus, ext_add. case_decide; lia.
  - eapply (client_frame link_delete); [exact HF|done..| |]; cbn.
    + intros q h' [[<- <-]|[? Hq]]%lookup_insert_Some; [by exists h|by exists h'].
    + intros q h' Hq Hn. apply lookup_insert_None in Hn as [? _]. congruence.
Qed.

(** *** Theorems *)

(** C4: in every run from the construction of the loop - sockets handed over by
    other threads, turns of the loop, bytes and closures from the peers, other
    descriptors opened and closed - as long as both links of a connection are
    open, what each side has been given, followed by what is in its buffer, is
    exactly the 200 response (to the client) and then the bytes taken from the
    other side: none of them is lost, duplicated, reordered or sent to another
    connection. (A descriptor can be used anew once its link is closed; what
    the step that closes a link leaves in the buffer of the other, and what
    each later step gives of it, is the subject of C15 and C33.) Each open
    descriptor has one owner, in one role; and the descriptors of other parts
    of the program are still open, and nothing has been taken from them or
    given to them. *)
Theorem relayed_in_order s0 s :
  opt_ok opt → fwd_start s0 → rtc fwd_step s0 s →
  (∀ p q hp hq, pair s p q hp hq → open (sub_ hp) = true → open (sub_ hq) = true →
     let v := view_of (world s) in
     bytes_at (v_given v) (fd_ hp) ++ buffered (out_ (sub_ hp)) v =
     greeting (name_ (sub_ hp)) ++ bytes_at (v_taken v) (fd_ hq)) ∧
  (∀ p q hp hq r r' fd, handlers s !! p = Some hp → handlers s !! q = Some hq →
     uses hp r fd → uses hq r' fd → fd ∈ v_opened (view_of (world s)) ∧ p = q ∧ r = r') ∧
  ∀ fd, fd ∈ reserved → waiting_ok s fd.
Proof.
  intros Hopt Hs0 Hrun.
  destruct (fwd_runs s0 s Hopt (fwd_ok_start s0 Hs0) Hrun) as (own & ys & _ & HF).
  split; [by apply HF|]. split.
  - intros p q hp hq r r' fd Hp Hq' Hu Hu'. pose proof (fo_fwd _ _ _ HF) as HF'. split.
    + by eapply (fw_uses _ _ _ _ _ HF').
    + by eapply (fw_unique _ _ _ _ _ HF').
  - intros fd Hfd. apply (waits _ _ _ HF). unfold apart_fds. set_solver.
Qed.

(** C16: in every reachable state a turn of the forwarder's loop returns: no
    [CHECK] fails - no descriptor is closed twice, no link is destroyed while
    it is open - no freed link is touched, [ForwardFromOther] terminates, and
    no registered link is left whose deadline has passed. *)
Theorem forwarder_turn_returns s0 s :
  opt_ok opt → fwd_start s0 → rtc fwd_step s0 s →
  turn_env vector_capacity s →
  ∃ n, ∀ fuel, n < fuel → ∃ s', Turn fuel s = Done (tt, s') ∧ none_expired s'.
Proof.
  intros Hopt Hs0 Hrun He.
  destruct (fwd_turn_ok s Hopt (fwd_runs s0 s Hopt (fwd_ok_start s0 Hs0) Hrun) He) as [n Hn].
  exists n. intros fuel Hf. destruct (Hn fuel Hf) as (s' & Hs' & _ & Hex). by exists s'.
Qed.

(** [Forwarder::Forward] aborts on a negative descriptor; called on another
    thread it queues the two sockets, and nothing else changes. *)
Lemma Forward_correct s t c f :
  (∀ c f, (c < 0 ∨ f < 0)%Z → ∃ why, Forward opt c f s = Abort why) ∧
  (fwd_ok s → t ≠ loop_ s → handed s c → handed s f → c ≠ f →
   wp (Forward opt c f) (λ _ s', fwd_ok (EventLoop.as_thread (loop_ s) s') ∧
     pending (pipe_ s') = pending (pipe_ s) ++ [(c, f)] ∧ world s' = world s ∧ handlers s' = handlers s) (EventLoop.as_thread t s)).
Proof.
  split; [|apply Forward_wp]. intros c' f' Hneg. unfold Forward.
  destruct (Z.leb_spec 0 c') as [Hc|Hc]; [|by eexists; apply bind_Abort].
  rewrite (proj2 (Z.leb_gt 0 f')) by lia. by eexists.
Qed.

(** C34: [LinkEventHandler::New] makes of two sockets a pair of registered links
    that can be read and written, with the 200 response in the buffer to the
    client; when there are no descriptors left for the buffers it closes both
    sockets, and a pipe that it has opened, and leaves no link. No [CHECK]
    fails in either case. *)
Theorem New_correct tmp own xs s c f :
  opt_ok opt → Inv (ext_plus tmp own) ∅ xs s → Fwd_ok own ∅ s → handed s c → handed s f → c ≠ f →
  wp (New opt (c, f)) (λ _ s', (∃ own' xs', Inv (ext_plus tmp own') ∅ xs' s' ∧ Fwd_ok own' ∅ s') ∧
    (relaying c f s' ∨ refused c f s s')) s.
Proof.
  intros Hopt HI HF [Hc Hcw] [Hf Hfw] Hcf. eapply wp_mono; [by eapply New_wp|].
  intros [] s' (own' & xs' & HI' & HF' & _ & Hout). split; [|done]. by exists own', xs'.
Qed.


(** [LinkEventHandler::OnTimeout] closes both sides of the connection and
    touches no other connection's deadline. *)
Lemma link_OnTimeout_correct tmp own xs s p hp :
  Inv (ext_plus tmp own) ∅ xs s → Fwd_ok own ∅ s → (∀ q, (0 ≤ tmp q)%Z) → (0 < tmp p)%Z →
  handlers s !! p = Some hp → event_loop_ hp = true →
  wp (OnTimeout p) (λ _ s', ∃ xs' q hq hp' hq', pair s p q hp hq ∧
    keeps Fwd_ok tmp s s' xs' ∧ callback_post True p q hp hq hp' hq' s s' ∧ dead hp' hq' ∧
    sublist xs' xs ∧ (∀ x, x ∈ xs' → deadline_ <$> handlers s' !! x = deadline_ <$> handlers s !! x)) s.
Proof. apply link_OnTimeout_wp. Qed.

(** C15: [ForwardFromOther] terminates and moves as much as can be moved. When it
    returns, either both links are closed after a failure of splice(2), or its
    last two calls have moved nothing: the source is not read any more, or the
    buffer is full, or splice(2) from the socket for what there is room for has
    answered [EAGAIN]; then the sink is not written to any more, or the buffer
    is empty, or write(2) or splice(2) of all that is in the buffer has
    answered [EAGAIN], leaving the kernel in the state that the program goes on
    with. So with edge-triggered events no byte is forgotten. If it returns
    [false] without a failure, nothing has been moved. The bytes go through the
    buffer in order, and the sink is given up only once the buffer is drained,
    unless there was a failure. (That a peer sends finitely many bytes
    meanwhile is the law [finite_supply].) *)
Theorem ForwardFromOther_correct tmp own xs s p q hp hq :
  Inv (ext_plus tmp own) ∅ xs s → Fwd_ok own ∅ s → pair s p q hp hq → (0 < tmp p)%Z → (0 < tmp q)%Z →
  wp (ForwardFromOther p) (λ b s', ∃ own' xs' hp' hq',
    Inv (ext_plus tmp own') ∅ xs' s' ∧ Fwd_ok own' ∅ s' ∧
    pstep (broke False s s' hp' hq') p q hp hq hp' hq' s s' ∧
    ((b = false ∧ broke False s s' hp' hq') ∨
     (settled hp' hq' (world s') ∧
      (b = true ∨ (hp' = hp ∧ hq' = hq ∧ view_of (world s') = view_of (world s)))))) s.
Proof.
  intros HI HF Hpair Htp Htq. eapply wp_mono; [by eapply ForwardFromOther_wp; try apply HF|].
  intros b s' (own' & xs' & hp' & hq' & HI' & HF' & _ & Hst & Hpost). exists own', xs', hp', hq'.
  split_and!; try done.
  - by eapply Fwd_ok_step.
  - destruct Hpost as [?|[? [?|(_ & ? & ? & ?)]]]; [by left|right; split; [done|by left]|right].
    split; [done|]. by right.
Qed.
End runs.

(** ** Sockets and pipes that keep the laws *)

#[export] Instance sim_pipes_shutdown : ShutdownKernel sim_pipes := {| sys_shutdown := λ fd how k, (None, k) |}.
#[export] Instance sim_pipes_sockopt : SockOptKernel sim_pipes :=
  {| getsockopt_error := λ fd k, (Some (0%Z, 4%Z), k) |}.
#[export] Instance sim_pipes_sockopt_laws : SockOptLaws sim_pipes.
Proof. split. intros fd k. by do 2 eexists. Qed.
#[export] Instance sim_pipes_forward : ForwardLaws sim_pipes.
Proof.
  split; [|done]. intros fd how k _. exists None, k. split; [done|]. split; [by left|done].
Qed.

Module ForwarderExample.
Abbreviation St := (EventLoop.St LinkEventHandler sim_pipes sim_epoll (list (Z * Z))).

(** Another part of the program has the descriptor 5. *)
Local Instance elsewhere : Reserved := [5%Z].

(** A client (20) that has sent "abc", a server (21) that has sent "xy" and
    closed. *)
Definition net : sim_pipes :=
  mkSimPipes (mkView {[3%Z; 5%Z; 20%Z; 21%Z]} ∅ ∅ ∅ ∅ ∅ {[20%Z := 4; 21%Z := 2]} 0)
    (λ fd, if decide (fd = 20%Z) then B "abc" else if decide (fd = 21%Z) then B "xy" else [])
    (λ _, 16).

Definition start : St :=
  mkSt ∅ (mkL ∅ list_new) (EPoll_new (mkSimEpoll ∅ [[3%Z]; [20%Z; 21%Z]])) (mkClock 0 [3%N; 4%N]) []
    3 7 7 0 net.

Definition turn := Loop_turn link_delete (OnEvent INFO true) OnTimeout (New forwarder_defaults) (λ _ n, n) 10.
Definition constructed : St := after (EventLoop_new read_write_timeout 7) start.
Definition requested : St := as_thread 7 (after (Forward forwarder_defaults 20 21) (as_thread 8 constructed)).
Definition running : St := after turn requested.
Definition relayed_some : St := after turn running.

Example it_relays :
  bytes_at (v_given (view_of (world relayed_some))) 20 = kResponse ++ B "xy" ∧
  bytes_at (v_given (view_of (world relayed_some))) 21 = B "abc".
Proof. vm_compute. done. Qed.
Abbreviation Step := (fwd_step forwarder_defaults INFO true (λ _ n, n)).

Lemma options_ok : opt_ok forwarder_defaults.
Proof. split; split; reflexivity. Qed.

Lemma fwd_constructed_ok : Inv (λ _, 0%Z) ∅ [] constructed.
Proof. pattern constructed; apply wp_after. eapply EventLoop_new_wp; [by repeat split|done..]. Qed.

Lemma fwd_constructed_start : fwd_start constructed.
Proof.
  split; [exists []; apply fwd_constructed_ok|done| |].
  - apply (bool_decide_unpack _). by vm_compute.
  - intros fd Hfd. split; [|by intros p h r Hp|by vm_compute].
    change (apart_fds constructed) with [3%Z; 5%Z] in Hfd.
    apply elem_of_cons in Hfd as [-> | ->%list_elem_of_singleton]; (split; [done|]); by apply (bool_decide_unpack _).
Qed.

Lemma fwd_handed fd : fd = 20%Z ∨ fd = 21%Z → handed constructed fd.
Proof.
  intros Hfd. split; [|change (apart_fds constructed) with [3%Z; 5%Z]; destruct Hfd as [-> | ->]; set_solver]. split.
  - destruct Hfd as [-> | ->]; (split; [done|]); by apply (bool_decide_unpack _).
  - by intros p h r Hp.
  - destruct Hfd as [-> | ->]; by split.
Qed.

Lemma fwd_request_step : Step constructed requested.
Proof.
  apply (fs_forward _ _ _ _ constructed 8 20 21); [done|apply fwd_handed; by left|apply fwd_handed; by right|done|].
  vm_compute. reflexivity.
Qed.

Lemma fwd_requested_env : turn_env (λ _ n, n) requested.
Proof.
  split; [vm_compute; lia|reflexivity| |reflexivity].
  intros s' Hs'. vm_compute in Hs'. injection Hs' as <-. vm_compute. lia.
Qed.

Lemma fwd_accept_step : Step requested running.
Proof.
  apply fs_turn; [apply fwd_requested_env|].
  exists 2. intros [|[|[|fuel]]] Hf; [lia..|]. vm_compute. reflexivity.
Qed.

Lemma fwd_runs_to_running : rtc Step constructed running.
Proof. eapply rtc_l; [apply fwd_request_step|]. eapply rtc_l; [apply fwd_accept_step|]. apply rtc_refl. Qed.

Lemma fwd_running_env : turn_env (λ _ n, n) running.
Proof.
  split; [vm_compute; lia|reflexivity| |reflexivity].
  intros s' Hs'. vm_compute in Hs'. injection Hs' as <-. vm_compute. lia.
Qed.

Lemma fwd_running_ok : fwd_ok running.
Proof.
  eapply fwd_runs; [apply options_ok| |apply fwd_runs_to_running].
  apply fwd_ok_start, fwd_constructed_start.
Qed.

(** The client's link, while the loop dispatches an event to it. *)
Definition dispatching : St := after (IncRef 1%positive) running.

Lemma fwd_dispatched : ∃ own xs,
  Inv (ext_plus (ext_add 1 1 (λ _, 0%Z)) own) ∅ xs dispatching ∧ Fwd_ok own ∅ dispatching.
Proof.
  destruct fwd_running_ok as (own & xs & HI & HF).
  assert (∃ h, handlers running !! 1%positive = Some h) as [h Hh] by (vm_compute; by eexists).
  exists own, xs. by eapply fwd_take.
Qed.

Lemma fwd_dispatched_link : ∃ h, handlers dispatching !! 1%positive = Some h ∧ event_loop_ h = true.
Proof. vm_compute. by eexists. Qed.

Definition held_once : ptr → Z := ext_add 1 1 (λ _, 0%Z).

Lemma held_once_nonneg q : (0 ≤ held_once q)%Z.
Proof. unfold held_once, ext_add. case_decide; lia. Qed.

(** Both links, with a reference to each. *)
Definition both_held : St := after (IncRef 2%positive) dispatching.

Lemma fwd_both_held : ∃ own xs,
  Inv (ext_plus (ext_add 2 1 (ext_add 1 1 (λ _, 0%Z))) own) ∅ xs both_held ∧ Fwd_ok own ∅ both_held.
Proof.
  destruct fwd_dispatched as (own & xs & HI & HF).
  assert (∃ h, handlers dispatching !! 2%positive = Some h) as [h Hh] by (vm_compute; by eexists).
  exists own, xs. by eapply fwd_take.
Qed.

Lemma fwd_both_pair : ∃ hp hq, pair both_held 1 2 hp hq.
Proof. do 2 eexists. split; [vm_compute; reflexivity|]. split; [vm_compute; reflexivity|]. done. Qed.
End ForwarderExample.

#[local] Existing Instance ForwarderExample.elsewhere.

Lemma relayed_in_order_witness :
  rtc ForwarderExample.Step ForwarderExample.constructed ForwarderExample.running ∧
  ∀ p q hp hq, pair ForwarderExample.running p q hp hq →
    open (sub_ hp) = true → open (sub_ hq) = true →
    let v := view_of (world ForwarderExample.running) in
    bytes_at (v_given v) (fd_ hp) ++ buffered (out_ (sub_ hp)) v =
    greeting (name_ (sub_ hp)) ++ bytes_at (v_taken v) (fd_ hq).
Proof.
  split; [apply ForwarderExample.fwd_runs_to_running|].
  apply (relayed_in_order forwarder_defaults INFO true (λ _ n, n) ForwarderExample.constructed);
    [apply ForwarderExample.options_ok|apply ForwarderExample.fwd_constructed_start|].
  apply ForwarderExample.fwd_runs_to_running.
Defined.

Lemma forwarder_turn_returns_witness :
  ∃ n, ∀ fuel, n < fuel → ∃ s',
    Loop_turn link_delete (OnEvent INFO true) OnTimeout (New forwarder_defaults) (λ _ n, n) fuel
      ForwarderExample.running = Done (tt, s') ∧ none_expired s'.
Proof.
  apply (forwarder_turn_returns forwarder_defaults INFO true (λ _ n, n) ForwarderExample.constructed);
    [apply ForwarderExample.options_ok|apply ForwarderExample.fwd_constructed_start
    |apply ForwarderExample.fwd_runs_to_running|apply ForwarderExample.fwd_running_env].
Defined.

Lemma New_correct_witness :
  wp (New forwarder_defaults (20%Z, 21%Z)) (λ _ s',
    relaying 20 21 s' ∨ refused 20 21 ForwarderExample.constructed s') ForwarderExample.constructed.
Proof.
  assert (fwd_ok ForwarderExample.constructed) as (own & xs & HI & HF).
  { apply fwd_ok_start, ForwarderExample.fwd_constructed_start. }
  eapply wp_mono.
  - apply (New_correct forwarder_defaults _ own xs ForwarderExample.constructed 20 21
      ForwarderExample.options_ok HI HF); [| |discriminate].
    + apply ForwarderExample.fwd_handed. left. reflexivity.
    + apply ForwarderExample.fwd_handed. right. reflexivity.
  - intros [] s' [_ Hout]. exact Hout.
Defined.


Lemma ForwardFromOther_correct_witness :
  ∃ hp hq, pair ForwarderExample.both_held 1 2 hp hq ∧
  wp (ForwardFromOther 1%positive) (λ b s', b = true ∧ ∃ hp' hq',
    pstep (broke False ForwarderExample.both_held s' hp' hq') 1 2 hp hq hp' hq' ForwarderExample.both_held s' ∧
    settled hp' hq' (world s')) ForwarderExample.both_held.
Proof.
  destruct ForwarderExample.fwd_both_held as (own & xs & HI & HF).
  destruct ForwarderExample.fwd_both_pair as (hp & hq & Hpair). exists hp, hq. split; [exact Hpair|].
  assert (wp (ForwardFromOther 1%positive) (λ b _, b = true) ForwarderExample.both_held) as Hrun
    by (vm_compute; reflexivity).
  eapply wp_mono.
  - apply wp_and; [exact Hrun|].
    apply (ForwardFromOther_correct (ext_add 2 1 (ext_add 1 1 (λ _, 0%Z))) own xs _ 1 2 hp hq HI HF Hpair);
      reflexivity.
  - intros b s' [-> (own' & xs' & hp' & hq' & _ & _ & Hst & Hout)]. split; [reflexivity|]. exists hp', hq'.
    split; [exact Hst|]. destruct Hout as [[Hd _]|[Hs _]]; [discriminate Hd|exact Hs].
Defined.
