(* ===== verification/Executor.v ===== *)
(** * What the resolver needs of the thread pool

    An executor has functions that wait, each for a time; it begins each once,
    not before that time. ThreadPool.v has the pool, PoolExecutor.v that it is
    an executor; Dns.v is about any. *)

From S2P Require Import Prelude Epoll.

(** A function is named by a number. [ex_ok] is the executor's invariant. *)
Class Executor (E : Type) := {
  ex_now : E → Time;
  ex_pending : E → list (Time * nat);
  ex_ok : E → Prop;
  ex_schedule : Time → nat → E → E → Prop;
  ex_start : nat → E → E → Prop;
  ex_silent : E → E → Prop
}.

Class ExecutorLaws (E : Type) `{Executor E} := {
  ex_schedule_ok : ∀ t f e e', ex_ok e → ex_schedule t f e e' →
    ex_ok e' ∧ ex_now e' = ex_now e ∧ ex_pending e' ≡ₚ (t, f) :: ex_pending e;
  ex_start_ok : ∀ f e e', ex_ok e → ex_start f e e' →
    ex_ok e' ∧ ex_now e' = ex_now e ∧ ∃ t, (t ≤ ex_now e)%Z ∧ ex_pending e ≡ₚ (t, f) :: ex_pending e';
  ex_silent_ok : ∀ e e', ex_ok e → ex_silent e e' →
    ex_ok e' ∧ (ex_now e ≤ ex_now e')%Z ∧ ex_pending e' ≡ₚ ex_pending e
}.
