(* ===== verification/ThreadPool.v ===== *)
(** * The thread pool (thread_pool.h, thread_pool.cc)

    A critical section - what a thread does from when it has the mutex to when
    it releases it, in [wait], [wait_until], [unlock] or at the end of a scope -
    is one step. Between the steps of a thread the other threads, the callers
    of [Schedule] and time go on in any order; [notify_one] wakes any of the
    threads that wait; [wait] and [wait_until] may return for no reason. *)

From Stdlib Require Import Sorting.Sorted.
From S2P Require Import Prelude Epoll.

(** thread_pool.h: [ThreadPool::Work]; [None] is an empty [std::function]. *)
Record Work := mkWork { w_t : Time; w_idx : Z; w_f : option nat }.

#[export] Instance Work_eq_dec : EqDecision Work.
Proof. solve_decision. Defined.

(** thread_pool.h: [Work::operator<]. *)
Definition Work_lt (a b : Work) : bool :=
  (w_t b <? w_t a)%Z || ((w_t b =? w_t a)%Z && (w_idx b <? w_idx a)%Z).

(** [std::priority_queue<Work>]: the list of its elements, the top first. *)
Fixpoint pq_push (w : Work) (q : list Work) : list Work :=
  match q with
  | [] => [w]
  | x :: q' => if Work_lt w x then x :: pq_push w q' else w :: x :: q'
  end.

(** Where a thread is: about to lock the mutex, at the beginning of [Next] or
    after [cv_.wait] or [sleeper_cv_.wait_until] ([Woken true]); waiting on
    [cv_]; waiting on [sleeper_cv_]; after the critical section that has taken
    a function, with [notify]; in the function; at the end. *)
Inductive tstate :=
  | Looking | Waiting | Sleeping (until : Time) | Woken (slept : bool)
  | Taken (w : Work) (notify : bool) | Running (f : nat) | Exited.

#[export] Instance tstate_eq_dec : EqDecision tstate.
Proof. solve_decision. Defined.

(** Calls of [notify_one] and [notify_all] that are still to be made, or are
    under way. *)
Inductive notification := CvOne | CvAll | SleeperOne.

Record Pool := mkPool {
  last_idx_ : Z;
  exit_ : bool;
  have_sleeper_ : bool;
  work_ : list Work;
  threads_ : gmap nat tstate;
  notifications : list notification;
  pool_now : Time
}.

(** thread_pool.cc: the constructor. *)
Definition ThreadPool_new (num_threads : nat) (now : Time) : Pool :=
  mkPool 0 false false [] (list_to_map ((λ i, (i, Looking)) <$> seq 1 num_threads)) [] now.

Definition set_thread (tid : nat) (st : tstate) (s : Pool) : Pool :=
  mkPool (last_idx_ s) (exit_ s) (have_sleeper_ s) (work_ s) (<[tid := st]> (threads_ s)) (notifications s) (pool_now s).
Definition set_have_sleeper (b : bool) (s : Pool) : Pool :=
  mkPool (last_idx_ s) (exit_ s) b (work_ s) (threads_ s) (notifications s) (pool_now s).
Definition set_work (q : list Work) (s : Pool) : Pool :=
  mkPool (last_idx_ s) (exit_ s) (have_sleeper_ s) q (threads_ s) (notifications s) (pool_now s).
Definition set_last_idx (n : Z) (s : Pool) : Pool :=
  mkPool n (exit_ s) (have_sleeper_ s) (work_ s) (threads_ s) (notifications s) (pool_now s).
Definition set_exit (s : Pool) : Pool :=
  mkPool (last_idx_ s) true (have_sleeper_ s) (work_ s) (threads_ s) (notifications s) (pool_now s).
Definition set_notifications (ns : list notification) (s : Pool) : Pool :=
  mkPool (last_idx_ s) (exit_ s) (have_sleeper_ s) (work_ s) (threads_ s) ns (pool_now s).
Definition set_pool_now (t : Time) (s : Pool) : Pool :=
  mkPool (last_idx_ s) (exit_ s) (have_sleeper_ s) (work_ s) (threads_ s) (notifications s) t.

Definition notify (n : notification) (s : Pool) : Pool := set_notifications (n :: notifications s) s.

Definition INT64_MAX : Z := 2 ^ 63 - 1.

(** thread_pool.cc: [ThreadPool::Schedule], up to the call of [notify_one],
    which is left to be made. *)
Definition Schedule (t : Time) (f : option nat) : M Pool unit :=
  n ← gets last_idx_;
  if (n =? INT64_MAX)%Z then undefined "++last_idx_" else
  modify (λ s, set_work (pq_push (mkWork t (n + 1) f) (work_ s)) (set_last_idx (n + 1) s)) ;;
  q ← gets work_;
  match q with
  | [] => undefined "work_.top()"
  | top :: _ =>
      when (w_idx top =? n + 1)%Z (modify (λ s, notify (if have_sleeper_ s then SleeperOne else CvOne) s))
  end.

(** thread_pool.cc: [~ThreadPool], up to the notifications. *)
Definition ThreadPool_delete : M Pool unit :=
  modify set_exit ;; modify (notify CvAll) ;; modify (notify SleeperOne).

(** thread_pool.cc: the body of the loop of [Next], up to the next release of
    the mutex. *)
Definition Next_body (tid : nat) : M Pool unit :=
  e ← gets exit_;
  if e : bool then modify (set_thread tid Exited) else
  q ← gets work_;
  match q with
  | [] => modify (set_thread tid Waiting)
  | top :: rest =>
      now ← gets pool_now;
      if (w_t top <=? now)%Z then
        modify (set_work rest) ;;
        hs ← gets have_sleeper_;
        modify (set_thread tid (Taken top (negb (bool_decide (rest = [])) && negb hs)))
      else
        hs ← gets have_sleeper_;
        if hs : bool then modify (set_thread tid Waiting)
        else modify (set_have_sleeper true) ;; modify (set_thread tid (Sleeping (w_t top)))
  end.

(** A thread gets the mutex: at the beginning of [Next], or where it waited. *)
Definition Next (tid : nat) (st : tstate) : M Pool unit :=
  match st with
  | Woken true =>
      hs ← gets have_sleeper_;
      CHECK "have_sleeper_" hs ;;
      modify (set_have_sleeper false) ;;
      Next_body tid
  | _ => Next_body tid
  end.

(** After the critical section: [cv_.notify_one()] if [notify], then the
    function is called, or the loop ends if it is empty. *)
Definition leave (w : Work) (n : bool) (tid : nat) : M Pool unit :=
  modify (set_thread tid (match w_f w with Some f => Running f | None => Exited end)) ;;
  when n (modify (notify CvOne)).

(** ** Steps *)

Definition looks (st : tstate) : bool :=
  match st with Looking | Woken _ => true | _ => false end.
Definition sleeperish (st : tstate) : bool :=
  match st with Sleeping _ | Woken true => true | _ => false end.

(** [notify_all] *)
Definition wake_all (s : Pool) : Pool :=
  mkPool (last_idx_ s) (exit_ s) (have_sleeper_ s) (work_ s)
    ((λ st, match st with Waiting => Woken false | _ => st end) <$> threads_ s) (notifications s) (pool_now s).

(** What a notification wakes: one thread of those that wait, if there is one. *)
Inductive delivered : notification → Pool → Pool → Prop :=
  | dl_one s tid : threads_ s !! tid = Some Waiting → delivered CvOne s (set_thread tid (Woken false) s)
  | dl_none s : (∀ tid, threads_ s !! tid ≠ Some Waiting) → delivered CvOne s s
  | dl_all s : delivered CvAll s (wake_all s)
  | dl_sleeper s tid u : threads_ s !! tid = Some (Sleeping u) →
      delivered SleeperOne s (set_thread tid (Woken true) s)
  | dl_no_sleeper s : (∀ tid u, threads_ s !! tid ≠ Some (Sleeping u)) → delivered SleeperOne s s.

(** A configuration: what has been scheduled, what has been taken, and when;
    the pool. *)
Definition pconf : Type := list Work * list (Work * Time) * Pool.

(** What the threads do, and what happens to the notifications that have been
    made: steps that come about by themselves, the functions returning. *)
Inductive thread_step : pconf → pconf → Prop :=
  | ps_next sch tk s tid st s' :
      threads_ s !! tid = Some st → looks st = true → Next tid st s = Done (tt, s') →
      thread_step (sch, tk, s)
        (sch, match threads_ s' !! tid with Some (Taken w _) => tk ++ [(w, pool_now s)] | _ => tk end, s')
  | ps_leave sch tk s tid w n s' :
      threads_ s !! tid = Some (Taken w n) → leave w n tid s = Done (tt, s') →
      thread_step (sch, tk, s) (sch, tk, s')
  | ps_return sch tk s tid f :
      threads_ s !! tid = Some (Running f) → thread_step (sch, tk, s) (sch, tk, set_thread tid Looking s)
  | ps_deliver sch tk s n ns1 ns2 s' :
      notifications s = ns1 ++ n :: ns2 → delivered n (set_notifications (ns1 ++ ns2) s) s' →
      thread_step (sch, tk, s) (sch, tk, s')
  | ps_timeout sch tk s tid u :
      threads_ s !! tid = Some (Sleeping u) → (u ≤ pool_now s)%Z →
      thread_step (sch, tk, s) (sch, tk, set_thread tid (Woken true) s).

(** These, the calls of [Schedule] and of the destructor, wake-ups for no
    reason and the passing of time. *)
Inductive pool_step : pconf → pconf → Prop :=
  | ps_thread c c' : thread_step c c' → pool_step c c'
  | ps_schedule sch tk s t f s' :
      last_idx_ s ≠ INT64_MAX → Schedule t f s = Done (tt, s') →
      pool_step (sch, tk, s) (sch ++ [mkWork t (last_idx_ s + 1) f], tk, s')
  | ps_delete sch tk s s' : ThreadPool_delete s = Done (tt, s') → pool_step (sch, tk, s) (sch, tk, s')
  | ps_spurious sch tk s tid st :
      threads_ s !! tid = Some st → st = Waiting ∨ (∃ u, st = Sleeping u) →
      pool_step (sch, tk, s) (sch, tk, set_thread tid (Woken (sleeperish st)) s)
  | ps_time sch tk s t : (pool_now s ≤ t)%Z → pool_step (sch, tk, s) (sch, tk, set_pool_now t s).

(** ** The queue *)

(** [a] comes out before [b]. *)
Definition before (a b : Work) : Prop := Work_lt b a = true.

Lemma before_spec a b :
  before a b ↔ (w_t a < w_t b ∨ (w_t a = w_t b ∧ w_idx a < w_idx b))%Z.
Proof. unfold before, Work_lt. rewrite orb_true_iff, andb_true_iff, !Z.ltb_lt, Z.eqb_eq. naive_solver lia. Qed.

Lemma before_trans a b c : before a b → before b c → before a c.
Proof. rewrite !before_spec. lia. Qed.

Lemma not_before a b : Work_lt b a = false → w_idx a ≠ w_idx b → before b a.
Proof.
  intros Hlt Hne. assert (¬ before a b) as Hn by (unfold before; congruence).
  rewrite before_spec in *. lia.
Qed.

Lemma pq_push_perm w q : pq_push w q ≡ₚ w :: q.
Proof.
  induction q as [|x q IH]; [done|]. cbn. destruct (Work_lt w x); [|done]. rewrite IH. constructor.
Qed.

Lemma pq_push_sorted w q :
  StronglySorted before q → (∀ x, x ∈ q → w_idx x ≠ w_idx w) → StronglySorted before (pq_push w q).
Proof.
  induction 1 as [|x q Hq IH Hx]; intros Hne; cbn; [repeat constructor|].
  destruct (Work_lt w x) eqn:Hlt.
  - constructor; [apply IH; intros y Hy; apply Hne; by right|].
    rewrite pq_push_perm. constructor; [done|done].
  - assert (before w x) as Hwx by (apply not_before; [done|apply Hne; by left]).
    constructor; [by constructor|]. constructor; [done|].
    eapply Forall_impl; [exact Hx|]. intros y Hy. by eapply before_trans.
Qed.

(** The top of the queue is the new element, or what it was. *)
Lemma pq_push_top w q : ∃ top rest, pq_push w q = top :: rest ∧
  (top = w ∨ before top w ∧ ∃ rest', q = top :: rest').
Proof.
  destruct q as [|x q]; cbn; [by exists w, []; split; [|left]|].
  destruct (Work_lt w x) eqn:Hlt; [exists x, (pq_push w q)|exists w, (x :: q)]; (split; [done|]); [right|by left].
  split; [done|]. by exists q.
Qed.

(** ** The invariant *)

Definition someone_looks (s : Pool) : Prop :=
  (∃ tid st, threads_ s !! tid = Some st ∧ looks st = true) ∨ CvOne ∈ notifications s ∨
  ∃ tid w, threads_ s !! tid = Some (Taken w true).

(** What has been scheduled, taken and is in the queue. *)
Record QInv (sch : list Work) (tk : list (Work * Time)) (s : Pool) : Prop := {
  qi_sorted : StronglySorted before (work_ s);
  qi_once : sch ≡ₚ tk.*1 ++ work_ s;
  qi_nodup : NoDup (w_idx <$> sch);
  qi_idx : ∀ w, w ∈ sch → (w_idx w ≤ last_idx_ s)%Z;
  qi_due : ∀ w t, (w, t) ∈ tk → (w_t w ≤ t ≤ pool_now s)%Z
}.

(** The threads: [have_sleeper_] says whether a thread is, or was and has not
    had the mutex since, on [sleeper_cv_]; there is one at most. *)
Record TInv (s : Pool) : Prop := {
  ti_sleeper : have_sleeper_ s = true → ∃ tid st, threads_ s !! tid = Some st ∧ sleeperish st = true;
  ti_have : ∀ tid st, threads_ s !! tid = Some st → sleeperish st = true → have_sleeper_ s = true;
  ti_one : ∀ tid tid' st st', threads_ s !! tid = Some st → threads_ s !! tid' = Some st' →
    sleeperish st = true → sleeperish st' = true → tid = tid';
  ti_until : exit_ s = false → ∀ tid u, threads_ s !! tid = Some (Sleeping u) →
    (∀ w, w ∈ work_ s → (u ≤ w_t w)%Z) ∨ SleeperOne ∈ notifications s;
  ti_awake : exit_ s = false → have_sleeper_ s = false → work_ s ≠ [] →
    ∀ tid, threads_ s !! tid = Some Waiting → someone_looks s;
  ti_exit_all : exit_ s = true → ∀ tid, threads_ s !! tid = Some Waiting → CvAll ∈ notifications s;
  ti_exit_sleeper : exit_ s = true → ∀ tid u, threads_ s !! tid = Some (Sleeping u) → SleeperOne ∈ notifications s
}.

(** What a thread does with the mutex. *)
Definition woke (st : tstate) (s : Pool) : Pool :=
  match st with Woken true => set_have_sleeper false s | _ => s end.

Inductive next_outcome (tid : nat) (s1 : Pool) : Pool → Prop :=
  | no_exit : exit_ s1 = true → next_outcome tid s1 (set_thread tid Exited s1)
  | no_empty : exit_ s1 = false → work_ s1 = [] → next_outcome tid s1 (set_thread tid Waiting s1)
  | no_due top rest : exit_ s1 = false → work_ s1 = top :: rest → (w_t top ≤ pool_now s1)%Z →
      next_outcome tid s1 (set_thread tid (Taken top (negb (bool_decide (rest = [])) && negb (have_sleeper_ s1)))
        (set_work rest s1))
  | no_wait top rest : exit_ s1 = false → work_ s1 = top :: rest → (pool_now s1 < w_t top)%Z →
      have_sleeper_ s1 = true → next_outcome tid s1 (set_thread tid Waiting s1)
  | no_sleep top rest : exit_ s1 = false → work_ s1 = top :: rest → (pool_now s1 < w_t top)%Z →
      have_sleeper_ s1 = false →
      next_outcome tid s1 (set_thread tid (Sleeping (w_t top)) (set_have_sleeper true s1)).

Lemma Next_body_wp tid s : wp (Next_body tid) (λ _ s', next_outcome tid s s') s.
Proof.
  unfold Next_body. apply wp_bind, wp_gets. destruct (exit_ s) eqn:He; [by apply wp_modify, no_exit|].
  apply wp_bind, wp_gets. destruct (work_ s) as [|top rest] eqn:Hw; [by apply wp_modify, no_empty|].
  apply wp_bind, wp_gets. destruct (Z.leb_spec (w_t top) (pool_now s)) as [Hdue|Hlate].
  - apply wp_bind, wp_modify, wp_bind, wp_gets, wp_modify. by eapply (no_due tid s).
  - apply wp_bind, wp_gets. destruct (have_sleeper_ s) eqn:Hs.
    + by eapply wp_modify, no_wait.
    + apply wp_bind, wp_modify, wp_modify. by eapply no_sleep.
Qed.

Lemma Next_wp s tid st :
  TInv s → threads_ s !! tid = Some st → looks st = true →
  wp (Next tid st) (λ _ s', next_outcome tid (woke st s) s') s.
Proof.
  intros HI Ht Hl. destruct st as [| | |[]| | |]; try done; try apply Next_body_wp.
  unfold Next. apply wp_bind, wp_gets, wp_bind, wp_CHECK.
  - by eapply ti_have.
  - apply wp_bind, wp_modify. apply Next_body_wp.
Qed.

(** *** The queue through a step *)
Lemma QInv_new n now : QInv [] [] (ThreadPool_new n now).
Proof. split; cbn; [constructor|done|constructor|by intros ? ?%elem_of_nil|by intros ? ? ?%elem_of_nil]. Qed.

Lemma QInv_frame sch tk s s' :
  QInv sch tk s → work_ s' = work_ s → last_idx_ s' = last_idx_ s → (pool_now s ≤ pool_now s')%Z → QInv sch tk s'.
Proof.
  intros [??? Hidx Hdue] Hw Hl Hn. split; [by rewrite Hw|by rewrite Hw|done|by rewrite Hl|].
  intros w t H. specialize (Hdue w t H). lia.
Qed.

Lemma QInv_push sch tk s t f s' :
  QInv sch tk s → last_idx_ s' = (last_idx_ s + 1)%Z → pool_now s' = pool_now s →
  work_ s' = pq_push (mkWork t (last_idx_ s + 1) f) (work_ s) →
  QInv (sch ++ [mkWork t (last_idx_ s + 1) f]) tk s'.
Proof.
  intros [Hs Ho Hn Hidx Hdue] Hl Hp Hw. set (w := mkWork t (last_idx_ s + 1) f) in *.
  split.
  - rewrite Hw. apply pq_push_sorted; [done|]. intros x Hx.
    assert (x ∈ sch) as Hxs by (rewrite Ho, elem_of_app; by right). specialize (Hidx _ Hxs). cbn. lia.
  - rewrite Hw, pq_push_perm, Ho. solve_Permutation.
  - rewrite fmap_app. apply NoDup_app. split; [done|]. split; [|apply NoDup_singleton].
    intros i (x & -> & Hx)%list_elem_of_fmap [=Hi]%list_elem_of_singleton. specialize (Hidx _ Hx). lia.
  - intros x [Hx | ->%list_elem_of_singleton]%elem_of_app; [|cbn; lia]. specialize (Hidx _ Hx). lia.
  - by rewrite Hp.
Qed.

Lemma QInv_pop sch tk s top rest s' :
  QInv sch tk s → work_ s = top :: rest → (w_t top ≤ pool_now s)%Z →
  work_ s' = rest → last_idx_ s' = last_idx_ s → pool_now s' = pool_now s →
  QInv sch (tk ++ [(top, pool_now s)]) s'.
Proof.
  intros [Hs Ho Hn Hidx Hdue] Hw Ht Hw' Hl Hp. split; rewrite ?Hl, ?Hp, ?Hw'; [| |done|done|].
  - rewrite Hw in Hs. by apply StronglySorted_inv in Hs as [? _].
  - rewrite Ho, Hw, fmap_app. cbn. solve_Permutation.
  - intros w t [H | [= -> ->]%list_elem_of_singleton]%elem_of_app; [by apply Hdue|lia].
Qed.

(** *** The threads through a step *)

(** A case for each thread that a hypothesis looks up. *)
Ltac threads := repeat match goal with
  | H : (<[_ := _]> _ !! _) = Some _ |- _ => apply lookup_insert_Some in H; destruct H as [[? H]|[? H]]; simplify_eq
  end.

Lemma TInv_new n now : TInv (ThreadPool_new n now).
Proof.
  assert (∀ tid st, threads_ (ThreadPool_new n now) !! tid = Some st → st = Looking) as Hl.
  { intros tid st (i & [= -> ->] & _)%elem_of_list_to_map_2%list_elem_of_fmap. done. }
  split; try done; intros; repeat match goal with H : _ !! _ = Some _ |- _ => apply Hl in H; simplify_eq end; done.
Qed.

Lemma someone_looks_thread tid st s : looks st = true → someone_looks (set_thread tid st s).
Proof. intros. left. exists tid, st. cbn. by rewrite lookup_insert_eq. Qed.

Lemma someone_looks_frame tid st0 st s :
  threads_ s !! tid = Some st0 → looks st0 = false → (∀ w, st0 ≠ Taken w true) →
  someone_looks s → someone_looks (set_thread tid st s).
Proof.
  intros Ht Hl Hnt [(i & x & Hi & Hx)|[?|(i & w & Hi)]].
  - left. exists i, x. split; [|done]. cbn. rewrite lookup_insert_ne; congruence.
  - by right; left.
  - right; right. exists i, w. cbn. rewrite lookup_insert_ne; [done|]. intros ->. simplify_eq. by destruct (Hnt w).
Qed.

(** A thread that waited on neither condition variable, and does not begin to. *)
Lemma TInv_other tid st0 st s :
  TInv s → threads_ s !! tid = Some st0 → sleeperish st0 = false → sleeperish st = false → st ≠ Waiting →
  (someone_looks s → someone_looks (set_thread tid st s)) → TInv (set_thread tid st s).
Proof.
  intros [H1 H2 H3 H4 H5 H6 H7] Ht H0 Hst Hw Hsl. split; cbn.
  - intros (i & x & Hi & Hx)%H1. exists i, x. split; [|done]. rewrite lookup_insert_ne; congruence.
  - intros i x Hi Hx. threads; [congruence|eauto].
  - intros i j x y Hi Hj Hx Hy. threads; try congruence. eauto.
  - intros He i u Hi. threads. by eapply H4.
  - intros He Hh Hq i Hi. threads. apply Hsl. by eapply H5.
  - intros He i Hi. threads. by eapply H6.
  - intros He i u Hi. threads. by eapply H7.
Qed.

(** Changes that are not of the threads. *)
Lemma TInv_frame s s' :
  TInv s → threads_ s' = threads_ s → have_sleeper_ s' = have_sleeper_ s → exit_ s' = exit_ s →
  (∀ n, n ∈ notifications s → n ∈ notifications s') →
  ((∀ w, w ∈ work_ s' → ∃ x, x ∈ work_ s ∧ (w_t x ≤ w_t w)%Z) ∨ (have_sleeper_ s = true → SleeperOne ∈ notifications s')) →
  (work_ s = [] → work_ s' = [] ∨ (have_sleeper_ s = false → CvOne ∈ notifications s')) →
  TInv s'.
Proof.
  intros [H1 H2 H3 H4 H5 H6 H7] Ht Hh He Hn Hq Hs.
  split; rewrite ?Ht, ?Hh, ?He; try done.
  - intros Hex i u Hi. destruct Hq as [Hq|Hq].
    + destruct (H4 Hex i u Hi) as [H|H]; [left|right; by apply Hn].
      intros w (x & Hx & ?)%Hq. specialize (H x Hx). lia.
    + right. apply Hq. by eapply H2.
  - intros Hex Hsl Hw i Hi.
    destruct (decide (work_ s = [])) as [E|E].
    + destruct (Hs E) as [?|H]; [done|]. right; left. by apply H.
    + destruct (H5 Hex Hsl E i Hi) as [(j & x & Hj & Hx)|[H|(j & w & Hj)]].
      * left. exists j, x. by rewrite Ht.
      * right; left. by apply Hn.
      * right; right. exists j, w. by rewrite Ht.
  - intros Hex i Hi. apply Hn. by eapply H6.
  - intros Hex i u Hi. apply Hn. by eapply H7.
Qed.

(** A thread stops to wait: it will look. *)
Lemma TInv_woken tid st s :
  TInv s → threads_ s !! tid = Some st → (st = Waiting ∨ ∃ u, st = Sleeping u) →
  TInv (set_thread tid (Woken (sleeperish st)) s).
Proof.
  intros [H1 H2 H3 H4 H5 H6 H7] Ht Hst.
  split; cbn.
  - intros (i & x & Hi & Hx)%H1. destruct (decide (i = tid)) as [->|Hne].
    + exists tid, (Woken (sleeperish st)). rewrite lookup_insert_eq. split; [done|]. cbn. simplify_eq. by rewrite Hx.
    + exists i, x. by rewrite lookup_insert_ne.
  - intros i x Hi Hx. threads; [|by eauto]. eapply H2; [done|]. by destruct (sleeperish st).
  - assert (∀ b, sleeperish (Woken b) = true → b = true) as Hb by (by intros []).
    intros i j x y Hi Hj Hx Hy. threads; eauto.
  - intros He i u Hi. threads. by eapply H4.
  - intros _ _ _ i _. apply someone_looks_thread. done.
  - intros He i Hi. threads. by eapply H6.
  - intros He i u Hi. threads. by eapply H7.
Qed.

Lemma woke_sleeper s tid st :
  TInv s → threads_ s !! tid = Some st → looks st = true →
  have_sleeper_ (woke st s) = true → ∃ i x, i ≠ tid ∧ threads_ s !! i = Some x ∧ sleeperish x = true.
Proof.
  intros HI Ht Hl Hh. destruct (decide (st = Woken true)) as [->|Hne]; [done|].
  destruct (ti_sleeper _ HI) as (i & x & Hi & Hx); [by destruct st as [| | |[]| | |]|].
  exists i, x. split; [|done]. intros ->. by destruct st as [| | |[]| | |]; simplify_eq.
Qed.

Lemma woke_have s tid st i x :
  TInv s → threads_ s !! tid = Some st → i ≠ tid → threads_ s !! i = Some x → sleeperish x = true →
  have_sleeper_ (woke st s) = true.
Proof.
  intros HI Ht Hne Hi Hx. destruct (decide (st = Woken true)) as [->|Hn].
  - destruct Hne. by eapply (ti_one _ HI).
  - pose proof (ti_have _ HI i x Hi Hx). by destruct st as [| | |[]| | |].
Qed.

Lemma woke_threads st s : threads_ (woke st s) = threads_ s.
Proof. by destruct st as [| | |[]| | |]. Qed.
Lemma woke_exit st s : exit_ (woke st s) = exit_ s.
Proof. by destruct st as [| | |[]| | |]. Qed.
Lemma woke_work st s : work_ (woke st s) = work_ s.
Proof. by destruct st as [| | |[]| | |]. Qed.
Lemma woke_notifications st s : notifications (woke st s) = notifications s.
Proof. by destruct st as [| | |[]| | |]. Qed.
Lemma woke_now st s : pool_now (woke st s) = pool_now s.
Proof. by destruct st as [| | |[]| | |]. Qed.
Lemma woke_last st s : last_idx_ (woke st s) = last_idx_ s.
Proof. by destruct st as [| | |[]| | |]. Qed.
#[export] Hint Rewrite woke_threads woke_exit woke_work woke_notifications woke_now woke_last : pool.

(** The thread had the mutex and does not go to [sleeper_cv_]. *)
Lemma TInv_turn tid st st' s s' :
  TInv s → threads_ s !! tid = Some st → looks st = true →
  threads_ s' = <[tid := st']> (threads_ s) → exit_ s' = exit_ s → notifications s' = notifications s →
  have_sleeper_ s' = have_sleeper_ (woke st s) → (∀ w, w ∈ work_ s' → w ∈ work_ s) → sleeperish st' = false →
  (st' = Waiting → exit_ s = false) →
  (exit_ s = false → have_sleeper_ s' = false → work_ s' ≠ [] → someone_looks s') →
  TInv s'.
Proof.
  intros HI Ht Hl Hth He Hn Hh Hw Hst Hwait Haw. split; rewrite ?Hth, ?He, ?Hn, ?Hh.
  - intros (i & x & Hne & Hi & Hx)%(woke_sleeper s tid); [|done..].
    exists i, x. by rewrite lookup_insert_ne.
  - intros i x Hi Hx. threads; [congruence|]. by eapply woke_have.
  - intros i j x y Hi Hj Hx Hy. threads; try congruence. by eapply (ti_one _ HI).
  - intros Hex i u Hi. threads. destruct (ti_until _ HI Hex i u) as [Hu|Hu]; [done| |by right].
    left. intros w Hw'. by apply Hu, Hw.
  - intros Hex Hsl Hq _ _. apply Haw; [done|congruence|done].
  - intros Hex i Hi. threads; [|by eapply (ti_exit_all _ HI)]. by rewrite Hwait in Hex.
  - intros Hex i u Hi. threads. by eapply (ti_exit_sleeper _ HI).
Qed.

Lemma TInv_sleep tid st s top rest :
  TInv s → threads_ s !! tid = Some st → looks st = true →
  exit_ s = false → work_ s = top :: rest → (∀ w, w ∈ rest → (w_t top ≤ w_t w)%Z) →
  have_sleeper_ (woke st s) = false →
  TInv (set_thread tid (Sleeping (w_t top)) (set_have_sleeper true (woke st s))).
Proof.
  intros HI Ht Hl Hex Hw Htop Hh.
  assert (∀ i x, i ≠ tid → threads_ s !! i = Some x → sleeperish x = false) as Hno.
  { intros i x Hne Hi. destruct (sleeperish x) eqn:Hx; [|done].
    pose proof (woke_have s tid st i x HI Ht Hne Hi Hx). congruence. }
  split; cbn; autorewrite with pool; try congruence.
  - intros _. exists tid, (Sleeping (w_t top)). by rewrite lookup_insert_eq.
  - intros i j x y Hi Hj Hx Hy. threads; [done|..].
    + pose proof (Hno _ _ ltac:(done) Hi). congruence.
    + pose proof (Hno _ _ ltac:(done) Hj). congruence.
    + pose proof (Hno i x ltac:(congruence) Hi). congruence.
  - intros _ i u Hi. threads.
    + left. rewrite Hw. intros w [-> | H]%elem_of_cons; [lia|by apply Htop].
    + by apply Hno in Hi.
Qed.

Lemma top_least sch tk s top rest :
  QInv sch tk s → work_ s = top :: rest → ∀ w, w ∈ rest → before top w.
Proof.
  intros HQ Hw. pose proof (qi_sorted _ _ _ HQ) as Hs. rewrite Hw in Hs.
  apply StronglySorted_inv in Hs as [_ Hs]. by apply Forall_forall.
Qed.

Lemma late_all sch tk s top rest :
  QInv sch tk s → work_ s = top :: rest → (pool_now s < w_t top)%Z → ∀ w, w ∈ work_ s → (pool_now s < w_t w)%Z.
Proof.
  intros HQ Hw Hlate w. rewrite Hw. intros [->|Hin%(top_least _ _ _ _ _ HQ Hw)%before_spec]%elem_of_cons; [done|lia].
Qed.

(** What [Next] does keeps the invariant. *)
Lemma next_TInv sch tk s tid st s' :
  QInv sch tk s → TInv s → threads_ s !! tid = Some st → looks st = true →
  next_outcome tid (woke st s) s' → TInv s'.
Proof.
  intros HQ HI Ht Hl Hout.
  destruct Hout as [He|He Hw|top rest He Hw Hdue|top rest He Hw Hlate Hh|top rest He Hw Hlate Hh];
    autorewrite with pool in *.
  1-4: eapply (TInv_turn tid st _ s); cbn;
    autorewrite with pool; rewrite ?Hw; try done.
  - congruence.
  - intros w H. by right.
  - intros _ Hh Hne. right; right. exists tid, top. cbn.
    rewrite lookup_insert_eq, Hh, bool_decide_eq_false_2 by done. done.
  - congruence.
  - eapply TInv_sleep; try done. intros w Hin%(top_least _ _ _ _ _ HQ Hw). apply before_spec in Hin. lia.
Qed.

(** A notification has been delivered. *)
Lemma TInv_drop n ns1 ns2 s :
  TInv s → notifications s = ns1 ++ n :: ns2 →
  (n = CvOne → (∃ tid st, threads_ s !! tid = Some st ∧ looks st = true) ∨ ∀ tid, threads_ s !! tid ≠ Some Waiting) →
  (n = CvAll → ∀ tid, threads_ s !! tid ≠ Some Waiting) →
  (n = SleeperOne → ∀ tid u, threads_ s !! tid ≠ Some (Sleeping u)) →
  TInv (set_notifications (ns1 ++ ns2) s).
Proof.
  intros HI Hn H1 H2 H3.
  assert (∀ m, m ∈ notifications s → m = n ∨ m ∈ ns1 ++ ns2) as Hin.
  { intros m. rewrite Hn, !elem_of_app, elem_of_cons. tauto. }
  split; cbn; [apply HI..| | | |].
  - intros He tid u Ht. destruct (ti_until _ HI He tid u Ht) as [?|[<-|?]%Hin]; [by left| |by right].
    by destruct (H3 eq_refl tid u).
  - intros He Hh Hw tid Ht. destruct (ti_awake _ HI He Hh Hw tid Ht) as [?|[[<-|?]%Hin|?]].
    + by left.
    + destruct (H1 eq_refl) as [?|Hno]; [by left|by destruct (Hno tid)].
    + by right; left.
    + by right; right.
  - intros He tid Ht. destruct (Hin _ (ti_exit_all _ HI He tid Ht)) as [<-|?]; [|done]. by destruct (H2 eq_refl tid).
  - intros He tid u Ht. destruct (Hin _ (ti_exit_sleeper _ HI He tid u Ht)) as [<-|?]; [|done].
    by destruct (H3 eq_refl tid u).
Qed.

Lemma wake_all_lookup s tid st :
  threads_ (wake_all s) !! tid = Some st →
  (st = Woken false ∧ threads_ s !! tid = Some Waiting) ∨ (st ≠ Waiting ∧ threads_ s !! tid = Some st).
Proof. cbn. rewrite lookup_fmap, fmap_Some. intros (x & Hx & ->). destruct x; auto. Qed.

Lemma TInv_wake_all s : TInv s → TInv (wake_all s).
Proof.
  intros [H1 H2 H3 H4 H5 H6 H7].
  assert (∀ tid st, threads_ (wake_all s) !! tid = Some st → sleeperish st = true → threads_ s !! tid = Some st) as Hsl.
  { intros tid st [[-> ?]|[? ?]]%wake_all_lookup; done. }
  split.
  - intros (i & x & Hi & Hx)%H1. exists i, x. split; [|done]. cbn. rewrite lookup_fmap, Hi. by destruct x.
  - intros i x Hi Hx. apply (H2 i x); [|done]. by apply Hsl.
  - intros i j x y Hi Hj Hx Hy. by eapply H3; try by apply Hsl.
  - intros He i u Hi. apply H4 with i; [done|]. by apply Hsl.
  - intros _ _ _ i [[? ?]|[? ?]]%wake_all_lookup; done.
  - intros _ i [[? ?]|[? ?]]%wake_all_lookup; done.
  - intros He i u Hi. apply H7 with i u; [done|]. by apply Hsl.
Qed.

Lemma delivered_TInv s n ns1 ns2 s' :
  TInv s → notifications s = ns1 ++ n :: ns2 → delivered n (set_notifications (ns1 ++ ns2) s) s' → TInv s'.
Proof.
  intros HI Hn Hd. inversion Hd as [? tid Ht|? Hno| |? tid u Ht|? Hno]; subst; cbn in *.
  - eapply (TInv_drop CvOne _ _ (set_thread tid (Woken false) s)); try done.
    + apply (TInv_woken tid Waiting s); auto.
    + intros _. left. exists tid, (Woken false). cbn. by rewrite lookup_insert_eq.
  - eapply TInv_drop; try done. by right.
  - eapply (TInv_drop CvAll _ _ (wake_all s)); try done; [by apply TInv_wake_all|].
    intros _ tid [[? ?]|[? ?]]%wake_all_lookup; done.
  - eapply (TInv_drop SleeperOne _ _ (set_thread tid (Woken true) s)); try done.
    + apply (TInv_woken tid (Sleeping u) s); eauto.
    + intros _ i v Hi. cbn in Hi. threads.
      pose proof (ti_one _ HI tid i _ _ Ht Hi eq_refl eq_refl). congruence.
  - by eapply TInv_drop.
Qed.

Lemma TInv_notify n s : TInv s → TInv (notify n s).
Proof.
  intros HI. apply (TInv_frame s); cbn; auto; [intros m Hm; by right|].
  left. intros w Hw. by exists w.
Qed.

Lemma TInv_Schedule t f s :
  TInv s → last_idx_ s ≠ INT64_MAX →
  wp (Schedule t f) (λ _ s', TInv s' ∧ last_idx_ s' = (last_idx_ s + 1)%Z ∧ pool_now s' = pool_now s ∧
    work_ s' = pq_push (mkWork t (last_idx_ s + 1) f) (work_ s)) s.
Proof.
  intros HI Hmax. unfold Schedule. apply wp_bind, wp_gets. rewrite (proj2 (Z.eqb_neq _ _) Hmax).
  apply wp_bind, wp_modify, wp_bind, wp_gets. cbn [work_ set_work set_last_idx].
  set (w := mkWork t (last_idx_ s + 1) f).
  destruct (pq_push_top w (work_ s)) as (top & rest & Hq & Htop). rewrite Hq.
  apply wp_when; [intros Hnew; apply wp_modify|intros Hold]; (split_and_all; [|done..]).
  - apply (TInv_frame s); cbn; auto.
    + intros n Hn. by right.
    + right. intros ->. by left.
    + intros _. right. intros ->. by left.
  - destruct Htop as [->|(Hlt%before_spec & rest' & Hq')]; [by rewrite Z.eqb_refl in Hold|].
    apply (TInv_frame s); cbn; auto; [|by rewrite Hq'].
    left. intros x. rewrite <- Hq, pq_push_perm, elem_of_cons. intros [->|Hx]; [|by exists x].
    exists top. rewrite Hq'. split; [by left|]. cbn in *. lia.
Qed.

Lemma TInv_exit s : TInv s → TInv (notify SleeperOne (notify CvAll (set_exit s))).
Proof.
  intros [H1 H2 H3 H4 H5 H6 H7]. split; cbn; try done; intros; by repeat constructor.
Qed.

Lemma TInv_leave tid w n s :
  TInv s → threads_ s !! tid = Some (Taken w n) → wp (leave w n tid) (λ _, TInv) s.
Proof.
  intros HI Ht. unfold leave. apply wp_bind, wp_modify.
  set (st := match w_f w with Some f => Running f | None => Exited end).
  assert (sleeperish st = false ∧ st ≠ Waiting) as [Hs Hw] by (unfold st; by destruct (w_f w)).
  apply wp_when; [intros ->; apply wp_modify|intros ->].
  - (* the notification is there before the thread goes on *)
    apply (TInv_other tid (Taken w true) st (notify CvOne s)); try done; [by apply TInv_notify|].
    intros _. right; left. by left.
  - eapply (TInv_other tid (Taken w false) st); try done. by apply (someone_looks_frame tid (Taken w false)).
Qed.

(** ** Runs *)

Definition PInv (c : pconf) : Prop := QInv c.1.1 c.1.2 c.2 ∧ TInv c.2.

Lemma next_QInv sch tk s tid st s' :
  QInv sch tk s → next_outcome tid (woke st s) s' →
  QInv sch (match threads_ s' !! tid with Some (Taken w _) => tk ++ [(w, pool_now s)] | _ => tk end) s'.
Proof.
  intros HQ Hout. destruct Hout as [He|He Hw|top rest He Hw Hdue|top rest He Hw Hlate Hh|top rest He Hw Hlate Hh];
    cbn; rewrite lookup_insert_eq, ?woke_work, ?woke_now in *.
  3: by eapply (QInv_pop _ _ s top rest); cbn; rewrite ?woke_last, ?woke_now.
  all: apply (QInv_frame _ _ s); cbn; autorewrite with pool; done.
Qed.

Lemma delivered_frame n s s' :
  delivered n s s' → work_ s' = work_ s ∧ last_idx_ s' = last_idx_ s ∧ pool_now s' = pool_now s ∧ exit_ s' = exit_ s ∧
  notifications s' = notifications s.
Proof. by destruct 1. Qed.

Lemma thread_step_PInv c c' : thread_step c c' → PInv c → PInv c'.
Proof.
  destruct 1 as [sch tk s tid st s' Ht Hl Hn|sch tk s tid w n s' Ht Hn|sch tk s tid f Ht|
    sch tk s n ns1 ns2 s' Hn Hd|sch tk s tid u Ht Hu]; intros [HQ HI]; cbn in HQ, HI.
  - pose proof (Next_wp s tid st HI Ht Hl) as Hout. unfold wp in Hout. rewrite Hn in Hout.
    split; [by eapply next_QInv|by eapply next_TInv].
  - pose proof (TInv_leave tid w n s HI Ht) as Hout. unfold wp in Hout. rewrite Hn in Hout.
    split; [|done]. cbn. unfold leave in Hn. destruct n; injection Hn as <-; by apply (QInv_frame _ _ s).
  - split; [by apply (QInv_frame _ _ s)|]. apply (TInv_other tid (Running f)); try done.
    intros _. by apply someone_looks_thread.
  - split; [|by eapply delivered_TInv]. apply delivered_frame in Hd as (? & ? & Hnow & _).
    apply (QInv_frame _ _ s); cbn in *; [done..|]. lia.
  - split; [by apply (QInv_frame _ _ s)|]. apply (TInv_woken tid (Sleeping u)); eauto.
Qed.

Lemma pool_step_PInv c c' : pool_step c c' → PInv c → PInv c'.
Proof.
  destruct 1 as [c c' Hs|sch tk s t f s' Hmax Hs|sch tk s s' Hs|sch tk s tid st Ht Hst|sch tk s t Ht];
    [by apply thread_step_PInv|..]; intros [HQ HI]; cbn in HQ, HI.
  - pose proof (TInv_Schedule t f s HI Hmax) as Hout. unfold wp in Hout. rewrite Hs in Hout.
    destruct Hout as (? & ? & ? & ?). split; [|done]. by eapply QInv_push.
  - injection Hs as <-. split; [by apply (QInv_frame _ _ s)|by apply TInv_exit].
  - split; [by apply (QInv_frame _ _ s)|by apply TInv_woken].
  - split; [by apply (QInv_frame _ _ s)|]. apply (TInv_frame s); cbn; auto. left. intros w Hw. by exists w.
Qed.

Definition pool_init (num_threads : nat) (now : Time) : pconf := ([], [], ThreadPool_new num_threads now).

Lemma pool_run_PInv n now c : rtc pool_step (pool_init n now) c → PInv c.
Proof.
  intros Hr. eapply (rtc_invariant _ PInv); [done| |].
  - split; [apply QInv_new|apply TInv_new].
  - intros a b Ha Hs. by eapply pool_step_PInv.
Qed.

(** ** What is still to be done

    A measure of what the threads do by themselves. *)
Definition notification_rank (threads : nat) (n : notification) : nat :=
  match n with CvOne => 2 | CvAll => S threads | SleeperOne => 2 end.
Definition thread_rank (now : Time) (st : tstate) : nat :=
  match st with
  | Exited => 0
  | Waiting => 1
  | Looking | Woken _ => 2
  | Sleeping u => if (u <=? now)%Z then 3 else 1
  | Running _ => 3
  | Taken _ n => 4 + (if n then 2 else 0)
  end.
Definition threads_rank (now : Time) (m : gmap nat tstate) : nat := map_fold (λ _ st k, thread_rank now st + k) 0 m.
Definition pool_rank (s : Pool) : nat :=
  threads_rank (pool_now s) (threads_ s) + 5 * length (work_ s) +
  sum_list (notification_rank (size (threads_ s)) <$> notifications s).

Lemma threads_rank_insert_None now m tid st :
  m !! tid = None → threads_rank now (<[tid := st]> m) = thread_rank now st + threads_rank now m.
Proof. intros Hm. unfold threads_rank. rewrite map_fold_insert_L; [done| |done]. intros. lia. Qed.

Lemma threads_rank_insert now m tid st0 st :
  m !! tid = Some st0 → threads_rank now (<[tid := st]> m) + thread_rank now st0 = threads_rank now m + thread_rank now st.
Proof.
  intros Hm. rewrite <- (insert_delete_id m tid st0) at 2 by done. rewrite <- insert_delete_eq.
  rewrite !threads_rank_insert_None by apply lookup_delete_eq. lia.
Qed.

Lemma threads_rank_wake_all now (m : gmap nat tstate) :
  threads_rank now ((λ st, match st with Waiting => Woken false | _ => st end) <$> m) ≤ threads_rank now m + size m.
Proof.
  induction m as [|i x m Hi IH] using map_ind; [done|].
  rewrite fmap_insert, !threads_rank_insert_None by (rewrite ?lookup_fmap, ?Hi; done).
  rewrite map_size_insert_None by done. destruct x; cbn in *; lia.
Qed.

Lemma size_set_thread (m : gmap nat tstate) tid st0 st : m !! tid = Some st0 → size (<[tid := st]> m) = size m.
Proof. intros Hm. by rewrite map_size_insert_Some by eauto. Qed.

(** A step of one thread that leaves the notifications alone. *)
Lemma pool_rank_thread tid st0 st s s' k :
  threads_ s !! tid = Some st0 → threads_ s' = <[tid := st]> (threads_ s) → pool_now s' = pool_now s →
  notifications s' = notifications s →
  thread_rank (pool_now s) st + 5 * length (work_ s') + k ≤ thread_rank (pool_now s) st0 + 5 * length (work_ s) →
  pool_rank s' + k ≤ pool_rank s.
Proof.
  intros Ht Hth Hnow Hn Hle. unfold pool_rank. rewrite Hth, Hnow, Hn, (size_set_thread _ _ st0) by done.
  pose proof (threads_rank_insert (pool_now s) (threads_ s) tid st0 st Ht). lia.
Qed.

Lemma next_rank tid st s s' :
  threads_ s !! tid = Some st → looks st = true → next_outcome tid (woke st s) s' → pool_rank s' < pool_rank s.
Proof.
  intros Ht Hl Hout. assert (thread_rank (pool_now s) st = 2) as Hr by by destruct st as [| | |[]| | |].
  assert (pool_rank s' + 1 ≤ pool_rank s); [|lia].
  destruct Hout as [He|He Hw|top rest He Hw Hdue|top rest He Hw Hlate Hh|top rest He Hw Hlate Hh];
    autorewrite with pool in *;
    (eapply (pool_rank_thread tid st _ s); [done|cbn; by rewrite ?woke_threads|cbn; apply woke_now|
      cbn; apply woke_notifications|]); rewrite Hr; cbn; rewrite ?woke_work; try lia.
  - rewrite Hw. cbn. destruct (_ && _); lia.
  - rewrite (proj2 (Z.leb_gt _ _) Hlate). lia.
Qed.

Lemma notification_rank_remove N ns1 n ns2 :
  sum_list (notification_rank N <$> ns1 ++ n :: ns2) =
  notification_rank N n + sum_list (notification_rank N <$> ns1 ++ ns2).
Proof. induction ns1 as [|m ns1 IH]; [done|]. rewrite <- !app_comm_cons, !fmap_cons. cbn [sum_list]. lia. Qed.

Lemma delivered_rank n s s' :
  delivered n s s' → pool_rank s' < pool_rank s + notification_rank (size (threads_ s)) n.
Proof.
  destruct 1 as [s tid Ht|s Hno|s|s tid u Ht|s Hno]; cbn; try lia.
  - assert (pool_rank (set_thread tid (Woken false) s) + 0 ≤ pool_rank s + 1); [|lia].
    unfold pool_rank. cbn. rewrite (size_set_thread _ _ Waiting) by done.
    pose proof (threads_rank_insert (pool_now s) _ tid Waiting (Woken false) Ht) as H. cbn in H. lia.
  - unfold pool_rank. cbn. rewrite map_size_fmap.
    pose proof (threads_rank_wake_all (pool_now s) (threads_ s)). lia.
  - unfold pool_rank. cbn. rewrite (size_set_thread _ _ (Sleeping u)) by done.
    pose proof (threads_rank_insert (pool_now s) _ tid _ (Woken true) Ht) as H. cbn in H.
    destruct (u <=? pool_now s)%Z; lia.
Qed.

Lemma deliver_rank n ns1 ns2 s s' :
  notifications s = ns1 ++ n :: ns2 → delivered n (set_notifications (ns1 ++ ns2) s) s' → pool_rank s' < pool_rank s.
Proof.
  intros Hn Hd%delivered_rank. eapply Nat.lt_le_trans; [exact Hd|].
  unfold pool_rank. rewrite Hn, notification_rank_remove. cbn. lia.
Qed.

Lemma leave_rank tid w n s s' :
  threads_ s !! tid = Some (Taken w n) → leave w n tid s = Done (tt, s') → pool_rank s' < pool_rank s.
Proof.
  intros Ht. unfold leave. set (st := match w_f w with Some f => Running f | None => Exited end).
  assert (thread_rank (pool_now s) st ≤ 3) as Hst by (unfold st; destruct (w_f w); cbn; lia).
  assert (pool_rank (set_thread tid st s) + (if n then 3 else 1) ≤ pool_rank s) as Hr.
  { eapply pool_rank_thread; try done. cbn. destruct n; lia. }
  destruct n; intros [= <-]; cbn in *; [|lia].
  assert (pool_rank (notify CvOne (set_thread tid st s)) = 2 + pool_rank (set_thread tid st s)) as ->; [|lia].
  unfold pool_rank. cbn. lia.
Qed.

Lemma thread_step_rank c c' : PInv c → thread_step c c' → pool_rank c'.2 < pool_rank c.2.
Proof.
  intros [_ HI]. destruct 1 as [sch tk s tid st s' Ht Hl Hn|sch tk s tid w n s' Ht Hn|sch tk s tid f Ht|
    sch tk s n ns1 ns2 s' Hn Hd|sch tk s tid u Ht Hu]; cbn in *.
  - pose proof (Next_wp s tid st HI Ht Hl) as Hout. unfold wp in Hout. rewrite Hn in Hout. by eapply next_rank.
  - by eapply leave_rank.
  - assert (pool_rank (set_thread tid Looking s) + 1 ≤ pool_rank s); [|lia].
    eapply pool_rank_thread; try done. cbn. lia.
  - by eapply deliver_rank.
  - assert (pool_rank (set_thread tid (Woken true) s) + 1 ≤ pool_rank s); [|lia].
    eapply pool_rank_thread; try done. cbn. rewrite (proj2 (Z.leb_le _ _) Hu). lia.
Qed.

Lemma nsteps_rank k c c' : PInv c → nsteps thread_step k c c' → k + pool_rank c'.2 ≤ pool_rank c.2.
Proof.
  intros HI Hn. induction Hn as [c|k c d e Hs Hn IH]; [done|].
  pose proof (thread_step_rank c d HI Hs). specialize (IH (thread_step_PInv _ _ Hs HI)). lia.
Qed.

(** *** When nothing is left to be done *)
Lemma delivered_total n s : ∃ s', delivered n s s'.
Proof.
  destruct n.
  - destruct (decide (map_Exists (λ _ st, st = Waiting) (threads_ s))) as [(tid & st & Ht & ->)|Hno].
    + eexists. by apply (dl_one s tid).
    + exists s. apply dl_none. intros tid Ht. apply Hno. by exists tid, Waiting.
  - eexists. apply dl_all.
  - destruct (decide (map_Exists (λ _ st, match st with Sleeping _ => true | _ => false end = true) (threads_ s)))
      as [(tid & st & Ht & Hst)|Hno].
    + destruct st as [| |u| | | |]; try done. eexists. by apply (dl_sleeper s tid u).
    + exists s. apply dl_no_sleeper. intros tid u Ht. apply Hno. by exists tid, (Sleeping u).
Qed.

Definition asleep (now : Time) (st : tstate) : Prop :=
  st = Waiting ∨ (∃ u, st = Sleeping u ∧ (now < u)%Z) ∨ st = Exited.

Lemma stuck_asleep sch tk s :
  PInv (sch, tk, s) → (∀ c, ¬ thread_step (sch, tk, s) c) →
  notifications s = [] ∧ ∀ tid st, threads_ s !! tid = Some st → asleep (pool_now s) st.
Proof.
  intros [_ HI] Hno. cbn in HI. split.
  - destruct (notifications s) as [|n ns] eqn:Hn; [done|].
    destruct (delivered_total n (set_notifications ([] ++ ns) s)) as [s' Hd].
    destruct (Hno (sch, tk, s')). by eapply (ps_deliver _ _ s n []).
  - assert (∀ tid st, threads_ s !! tid = Some st → looks st = true → False) as Hl.
    { intros tid st Ht Hlk. pose proof (Next_wp s tid st HI Ht Hlk) as ([] & s' & Hr & _)%wp_Done.
      eapply Hno. by eapply ps_next. }
    intros tid st Ht. destruct st as [| |u|b|w n|f|]; unfold asleep; auto.
    + by destruct (Hl _ _ Ht).
    + right; left. exists u. split; [done|]. destruct (Z.lt_ge_cases (pool_now s) u); [done|].
      destruct (Hno (sch, tk, set_thread tid (Woken true) s)). by eapply ps_timeout.
    + by destruct (Hl _ _ Ht).
    + assert (∃ s', leave w n tid s = Done (tt, s')) as [s' Hs] by (destruct n; by eexists).
      destruct (Hno (sch, tk, s')). by eapply ps_leave.
    + destruct (Hno (sch, tk, set_thread tid Looking s)). by eapply ps_return.
Qed.

(** No wake-up is lost: once the threads have nothing to do, what is due has
    been taken; and all have ended after the destructor's call. *)
Lemma stuck_done sch tk s :
  PInv (sch, tk, s) → (∀ c, ¬ thread_step (sch, tk, s) c) →
  (exit_ s = true → ∀ tid st, threads_ s !! tid = Some st → st = Exited) ∧
  (exit_ s = false → (∃ tid st, threads_ s !! tid = Some st ∧ st ≠ Exited) →
    ∀ w, w ∈ work_ s → (pool_now s < w_t w)%Z).
Proof.
  intros HP Hno. destruct (stuck_asleep _ _ _ HP Hno) as [Hnn Has]. destruct HP as [_ HI]. cbn in HI. split.
  - intros He tid st Ht. destruct (Has tid st Ht) as [-> | [(u & -> & _)| ->]]; [..|done].
    + pose proof (ti_exit_all _ HI He tid Ht) as H. rewrite Hnn in H. by apply elem_of_nil in H.
    + pose proof (ti_exit_sleeper _ HI He tid u Ht) as H. rewrite Hnn in H. by apply elem_of_nil in H.
  - intros He (tid & st & Ht & Hne) w Hw. destruct (have_sleeper_ s) eqn:Hh.
    + destruct (ti_sleeper _ HI Hh) as (i & x & Hi & Hx).
      destruct (Has i x Hi) as [-> | [(u & -> & Hu)| ->]]; try done.
      destruct (ti_until _ HI He i u Hi) as [H|H]; [specialize (H w Hw); lia|].
      rewrite Hnn in H. by apply elem_of_nil in H.
    + destruct (Has tid st Ht) as [-> | [(u & -> & Hu)| ->]]; [|..|done].
      * destruct (ti_awake _ HI He Hh ltac:(by intros E; rewrite E in Hw; apply elem_of_nil in Hw) tid Ht)
          as [(i & x & Hi & Hx)|[H|(i & v & Hi)]].
        -- by destruct (Has i x Hi) as [-> | [(u & -> & Hu)| ->]].
        -- rewrite Hnn in H. by apply elem_of_nil in H.
        -- by destruct (Has i _ Hi) as [?|[(u & ? & Hu)|?]].
      * pose proof (ti_have _ HI tid _ Ht eq_refl). congruence.
Qed.

(** ** Theorems *)

(** C10: In every state that the pool can reach - its threads, the callers of
    [Schedule], the destructor, wake-ups with a reason or none and time taking
    their steps in any order - every function scheduled has been taken by
    exactly one thread or is still in the queue, none has been taken before
    its time, and a thread that gets the mutex returns from its critical
    section - the [CHECK] of [have_sleeper_] holds - having ended, waited, or
    taken the first element of the queue: the earliest due, of equals the one
    scheduled first. *)
Theorem scheduled_runs_once n now sch tk s :
  rtc pool_step (pool_init n now) (sch, tk, s) →
  sch ≡ₚ tk.*1 ++ work_ s ∧ NoDup (w_idx <$> sch) ∧ (∀ w t, (w, t) ∈ tk → (w_t w ≤ t ≤ pool_now s)%Z) ∧
  ∀ tid st, threads_ s !! tid = Some st → looks st = true → ∃ s', Next tid st s = Done (tt, s') ∧
    match threads_ s' !! tid with
    | Some (Taken w _) => work_ s = w :: work_ s' ∧ (w_t w ≤ pool_now s)%Z ∧
        ∀ x, x ∈ work_ s' → (w_t w < w_t x ∨ w_t w = w_t x ∧ w_idx w < w_idx x)%Z
    | Some Exited => exit_ s = true ∧ work_ s' = work_ s
    | Some _ => exit_ s = false ∧ work_ s' = work_ s ∧ ∀ x, x ∈ work_ s → (pool_now s < w_t x)%Z
    | None => False
    end.
Proof.
  intros [HQ HI]%pool_run_PInv. cbn in HQ, HI. split; [apply HQ|]. split; [apply HQ|]. split; [apply HQ|].
  intros tid st Ht Hl. pose proof (Next_wp s tid st HI Ht Hl) as ([] & s' & Hr & Hout)%wp_Done.
  exists s'. split; [done|].
  destruct Hout as [He|He Hw|top rest He Hw Hdue|top rest He Hw Hlate Hh|top rest He Hw Hlate Hh];
    cbn; rewrite lookup_insert_eq, ?woke_exit, ?woke_work, ?woke_now in *; [done|..].
  - rewrite Hw. split_and_all; [done..|]. by intros x ?%elem_of_nil.
  - split_and_all; [done..|]. intros x Hx%(top_least _ _ _ _ _ HQ Hw). by apply before_spec.
  - split_and_all; [done..|]. by eapply late_all.
  - split_and_all; [done..|]. by eapply late_all.
Qed.

(** C11: No wake-up is lost and nothing goes on for ever: from every state that
    the pool can reach the threads by themselves make at most [pool_rank]
    steps; and when they can make none, every thread waits or has ended, none
    past the time it waits for; after the destructor's call all have ended, so
    that its [join]s return; before it, unless every thread has ended, each
    function scheduled for the present or the past has been taken. *)
Theorem pool_settles n now sch tk s k sch' tk' s' :
  rtc pool_step (pool_init n now) (sch, tk, s) →
  nsteps thread_step k (sch, tk, s) (sch', tk', s') →
  k + pool_rank s' ≤ pool_rank s ∧
  ((∀ c, ¬ thread_step (sch', tk', s') c) →
    notifications s' = [] ∧ (∀ tid st, threads_ s' !! tid = Some st → asleep (pool_now s') st) ∧
    (exit_ s' = true → ∀ tid st, threads_ s' !! tid = Some st → st = Exited) ∧
    (exit_ s' = false → (∃ tid st, threads_ s' !! tid = Some st ∧ st ≠ Exited) →
      ∀ w, w ∈ sch' → (w_t w ≤ pool_now s')%Z → w ∈ tk'.*1)).
Proof.
  intros HP%pool_run_PInv Hn. pose proof (nsteps_rank _ _ _ HP Hn) as Hrank.
  split; [done|]. intros Hno.
  assert (PInv (sch', tk', s')) as HP'.
  { apply (rtc_invariant thread_step PInv) with (sch, tk, s); [by apply rtc_nsteps; exists k|done|].
    intros a b Ha Hs. by eapply thread_step_PInv. }
  destruct (stuck_asleep _ _ _ HP' Hno) as [Hnn Has]. destruct (stuck_done _ _ _ HP' Hno) as [Hex Hdue].
  split_and_all; [done..|]. intros He Hsome w Hw Ht. destruct HP' as [HQ _]. cbn in HQ.
  rewrite (qi_once _ _ _ HQ), elem_of_app in Hw. destruct Hw as [?|Hw]; [done|].
  specialize (Hdue He Hsome w Hw). lia.
Qed.

(** ** An example: two threads; a function for time 15, at 10; then one for 10. *)
Module PoolExample.
Local Open Scope Z_scope.

Definition late : Work := mkWork 15 1 (Some 1%nat).
Definition soon : Work := mkWork 10 2 (Some 2%nat).

(** Thread 1 sleeps until 15, thread 2 waits. *)
Definition p0 : Pool := ThreadPool_new 2 10.
Definition p1 : Pool := after (Schedule 15 (Some 1%nat)) p0.
Definition p2 : Pool := after (Next 1 Looking) p1.
Definition p3 : Pool := after (Next 2 Looking) p2.
(** The second call of [Schedule] wakes thread 1, which takes the function. *)
Definition p4 : Pool := after (Schedule 10 (Some 2%nat)) p3.
Definition p5 : Pool := set_thread 1 (Woken true) (set_notifications [CvOne] p4).
Definition p6 : Pool := after (Next 1 (Woken true)) p5.

Lemma p3_threads : threads_ p3 !! 1%nat = Some (Sleeping 15) ∧ threads_ p3 !! 2%nat = Some Waiting.
Proof. by split; vm_compute. Qed.
Lemma p6_state : threads_ p6 !! 1%nat = Some (Taken soon true) ∧ work_ p6 = [late] ∧ have_sleeper_ p6 = false.
Proof. by vm_compute. Qed.

Lemma run5 : rtc pool_step (pool_init 2 10) ([late; soon], [], p5).
Proof.
  eapply rtc_l; [by apply (ps_schedule [] [] p0 15 (Some 1%nat) p1)|].
  eapply rtc_l; [apply ps_thread; by apply (ps_next [late] [] p1 1 Looking p2)|].
  eapply rtc_l; [apply ps_thread; by apply (ps_next [late] [] p2 2 Looking p3)|].
  eapply rtc_l; [by apply (ps_schedule [late] [] p3 10 (Some 2%nat) p4)|].
  eapply rtc_l; [|apply rtc_refl].
  apply ps_thread, (ps_deliver _ _ p4 SleeperOne [] [CvOne]); [by vm_compute|].
  by apply (dl_sleeper _ 1 15); vm_compute.
Qed.

Lemma run6 : rtc pool_step (pool_init 2 10) ([late; soon], [(soon, 10)], p6).
Proof.
  eapply rtc_r; [apply run5|]. apply ps_thread. by apply (ps_next [late; soon] [] p5 1 (Woken true) p6).
Qed.
End PoolExample.

Lemma scheduled_runs_once_witness :
  rtc pool_step (pool_init 2 10) ([PoolExample.late; PoolExample.soon], [], PoolExample.p5) ∧
  ∃ s', Next 1 (Woken true) PoolExample.p5 = Done (tt, s') ∧
    threads_ s' !! 1 = Some (Taken PoolExample.soon true) ∧ work_ s' = [PoolExample.late].
Proof.
  split; [apply PoolExample.run5|].
  destruct (scheduled_runs_once _ _ _ _ _ PoolExample.run5) as (_ & _ & _ & H).
  destruct (H 1 (Woken true) ltac:(by vm_compute) eq_refl) as (s' & Hs & Hout).
  exists s'. split; [exact Hs|]. vm_compute in Hs. injection Hs as <-. by vm_compute.
Defined.

Lemma pool_settles_witness :
  rtc pool_step (pool_init 2 10) ([PoolExample.late; PoolExample.soon], [], PoolExample.p5) ∧
  1 + pool_rank PoolExample.p6 ≤ pool_rank PoolExample.p5.
Proof.
  split; [apply PoolExample.run5|].
  apply (pool_settles 2 10 _ _ _ 1 [PoolExample.late; PoolExample.soon] [(PoolExample.soon, 10%Z)] PoolExample.p6 PoolExample.run5).
  eapply nsteps_l; [|apply nsteps_O].
  by apply (ps_next [PoolExample.late; PoolExample.soon] [] PoolExample.p5 1 (Woken true) PoolExample.p6).
Defined.
