(* ===== verification/PoolExecutor.v ===== *)
(** * The thread pool is an executor

    The pool of ThreadPool.v, with the functions in its queue as what is
    pending, implements the interface of Executor.v: each of its steps is a
    call of [Schedule], the beginning of a function that was pending and is
    due, or changes nothing that is pending. *)

From S2P Require Import Prelude Epoll Executor ThreadPool.

(** The functions of a list of work, with their times. *)
Definition funs (l : list Work) : list (Time * nat) := omap (λ w, pair (w_t w) <$> w_f w) l.

#[export] Instance pool_executor : Executor pconf := {
  ex_now c := pool_now c.2;
  ex_pending c := funs (work_ c.2);
  ex_ok := PInv;
  ex_schedule t f c c' := last_idx_ c.2 ≠ INT64_MAX ∧ Schedule t (Some f) c.2 = Done (tt, c'.2) ∧
    c'.1.1 = c.1.1 ++ [mkWork t (last_idx_ c.2 + 1) (Some f)] ∧ c'.1.2 = c.1.2;
  ex_start f c c' := thread_step c c' ∧ ∃ w t, c'.1.2 = c.1.2 ++ [(w, t)] ∧ w_f w = Some f;
  ex_silent c c' := pool_step c c' ∧ funs c'.1.1 = funs c.1.1 ∧ funs c'.1.2.*1 = funs c.1.2.*1
}.

#[export] Instance funs_proper : Proper ((≡ₚ) ==> (≡ₚ)) funs.
Proof. intros l l'. apply omap_Permutation. Qed.
Lemma funs_app l l' : funs (l ++ l') = funs l ++ funs l'.
Proof. apply omap_app. Qed.

Lemma pending_once c : PInv c → funs c.1.1 ≡ₚ funs c.1.2.*1 ++ ex_pending c.
Proof. intros [HQ _]. cbn [ex_pending pool_executor]. by rewrite <- funs_app, (qi_once _ _ _ HQ). Qed.

(** A step of a thread schedules nothing and takes one element at most. *)
Lemma thread_step_keeps c c' :
  thread_step c c' → PInv c → c'.1.1 = c.1.1 ∧ pool_now c'.2 = pool_now c.2 ∧
  (c'.1.2 = c.1.2 ∨ ∃ w t, c'.1.2 = c.1.2 ++ [(w, t)]).
Proof.
  destruct 1 as [sch tk s tid st s' Ht Hl Hn|sch tk s tid w n s' Ht Hn|sch tk s tid f Ht|
    sch tk s n ns1 ns2 s' Hn Hd|sch tk s tid u Ht Hu]; intros [_ HI]; cbn in HI |- *.
  - pose proof (Next_wp s tid st HI Ht Hl) as Hout. unfold wp in Hout. rewrite Hn in Hout.
    split_and_all; [done| |].
    + destruct Hout; cbn; apply woke_now.
    + destruct (threads_ s' !! tid) as [[]|]; eauto.
  - unfold leave in Hn. destruct n; injection Hn as <-; auto.
  - auto.
  - apply delivered_frame in Hd as (_ & _ & ? & _). auto.
  - auto.
Qed.

Lemma pool_step_now c c' : pool_step c c' → PInv c → (pool_now c.2 ≤ pool_now c'.2)%Z.
Proof.
  intros Hs HI. destruct Hs as [c c' Hs|sch tk s t f s' Hmax Hs|sch tk s s' Hs|sch tk s tid st Ht Hst|sch tk s t Ht];
    cbn in *.
  - destruct (thread_step_keeps _ _ Hs HI) as (_ & -> & _). lia.
  - destruct HI as [_ HI]. pose proof (TInv_Schedule t f s HI Hmax) as Hout. unfold wp in Hout. rewrite Hs in Hout.
    destruct Hout as (_ & _ & -> & _). cbn. lia.
  - injection Hs as <-. cbn. lia.
  - lia.
  - lia.
Qed.

#[export] Instance pool_executor_laws : ExecutorLaws pconf.
Proof.
  split.
  - intros t f [[sch tk] s] [[sch' tk'] s'] HI (Hmax & Hs & Hsch & Htk). cbn in *. subst.
    pose proof (pool_step_PInv _ _ (ps_schedule sch tk s t (Some f) s' Hmax Hs) HI) as HI'.
    destruct HI as [_ HT]. pose proof (TInv_Schedule t (Some f) s HT Hmax) as Hout. unfold wp in Hout. cbn in HT, Hout.
    rewrite Hs in Hout. destruct Hout as (_ & _ & Hnow & Hw). split; [done|]. split; [done|].
    by rewrite Hw, pq_push_perm.
  - intros f c c' HI (Hs & w & t & Htk & Hf).
    pose proof (thread_step_PInv _ _ Hs HI) as HI'.
    destruct (thread_step_keeps _ _ Hs HI) as (Hsch & Hnow & _). split; [done|]. split; [done|].
    exists (w_t w). cbn [ex_now pool_executor]. split.
    + destruct HI' as [HQ _]. destruct (qi_due _ _ _ HQ w t) as [? ?]; [rewrite Htk; apply elem_of_app; right; by left|].
      rewrite Hnow in *. lia.
    + pose proof (pending_once c HI) as H1. pose proof (pending_once c' HI') as H2.
      rewrite Hsch, H1, Htk, fmap_app, funs_app, <- (assoc_L (++)) in H2. apply Permutation_app_inv_l in H2.
      rewrite H2. cbn. by rewrite Hf.
  - intros c c' HI (Hs & Hsch & Htk). pose proof (pool_step_PInv _ _ Hs HI) as HI'.
    split; [done|]. split; [by apply pool_step_now|].
    pose proof (pending_once c HI) as H1. pose proof (pending_once c' HI') as H2.
    rewrite Hsch, H1, Htk in H2. by apply Permutation_app_inv_l in H2.
Qed.

(** C26: The pool implements the executor that the resolver is proved against:
    in every state that it can reach each step is a call of [Schedule] with a
    function, the beginning of a function that was pending and is due, or one
    that changes nothing that is pending; and the executor's laws hold there. *)
Theorem pool_is_executor n now c c' :
  rtc pool_step (pool_init n now) c → pool_step c c' →
  ex_ok c ∧ ex_ok c' ∧
  ((∃ t f, ex_schedule t f c c' ∧ ex_pending c' ≡ₚ (t, f) :: ex_pending c) ∨
   (∃ t f, ex_start f c c' ∧ (t ≤ ex_now c)%Z ∧ ex_pending c ≡ₚ (t, f) :: ex_pending c') ∨
   (ex_silent c c' ∧ ex_pending c' ≡ₚ ex_pending c)).
Proof.
  intros HI%pool_run_PInv Hs. assert (ex_ok c) as HE by exact HI. split; [done|]. split; [by eapply pool_step_PInv|].
  assert ((∃ t f, ex_schedule t f c c') ∨ (∃ f, ex_start f c c') ∨ ex_silent c c') as [(t & f & Hx)|[(f & Hx)|Hx]].
  - destruct Hs as [c c' Hs|sch tk s t [f|] s' Hmax Hs|sch tk s s' Hs|sch tk s tid st Ht Hst|sch tk s t Ht].
    + destruct (thread_step_keeps _ _ Hs HI) as (Hsch & _ & [Htk|(w & t & Htk)]).
      * right; right. split; [by apply ps_thread|]. by rewrite Hsch, Htk.
      * destruct (w_f w) as [f|] eqn:Hf; [right; left; exists f; split; [done|by exists w, t]|].
        right; right. split; [by apply ps_thread|]. rewrite Hsch, Htk, fmap_app, funs_app. cbn. rewrite Hf.
        by rewrite app_nil_r.
    + left. by exists t, f.
    + right; right. split; [by eapply ps_schedule|]. cbn. by rewrite funs_app, app_nil_r.
    + right; right. split; [by eapply ps_delete|done].
    + right; right. split; [by eapply ps_spurious|done].
    + right; right. split; [by eapply ps_time|done].
  - left. exists t, f. split; [done|]. by apply (ex_schedule_ok t f c c' HE) in Hx as (_ & _ & ?).
  - right; left. pose proof (ex_start_ok f c c' HE Hx) as (_ & _ & t & ? & ?). by exists t, f.
  - right; right. split; [done|]. by apply (ex_silent_ok c c' HE) in Hx as (_ & _ & ?).
Qed.

Lemma pool_is_executor_witness :
  pool_step ([PoolExample.late; PoolExample.soon], [], PoolExample.p5)
    ([PoolExample.late; PoolExample.soon], [(PoolExample.soon, 10%Z)], PoolExample.p6) ∧
  ex_ok (([PoolExample.late; PoolExample.soon], [(PoolExample.soon, 10%Z)], PoolExample.p6) : pconf).
Proof.
  assert (pool_step ([PoolExample.late; PoolExample.soon], [], PoolExample.p5)
    ([PoolExample.late; PoolExample.soon], [(PoolExample.soon, 10%Z)], PoolExample.p6)) as Hs.
  { apply ps_thread.
    by apply (ps_next [PoolExample.late; PoolExample.soon] [] PoolExample.p5 1 (Woken true) PoolExample.p6). }
  split; [exact Hs|]. apply (pool_is_executor 2 10 _ _ PoolExample.run5 Hs).
Defined.
