(* ===== verification/Dns.v ===== *)
(** * The resolver (dns.h, dns.cc): data and operations

    The cache of [DnsResolver], the lists that [getaddrinfo] returns, made
    into rings, and the critical sections of [Resolve] and
    [ProcessCacheEntry], each up to the next release of the mutex. *)

From S2P Require Import Prelude Logging Epoll Addr.

(** dns.h: [DnsResolver::Options], without the number of threads. *)
Record DnsOptions := mkDnsOptions {
  dns_cache_ttl : Duration;
  dns_cache_refresh_period : Duration;
  dns_cache_refresh_duration : Duration
}.
Definition dns_defaults : DnsOptions := mkDnsOptions (seconds 300) (seconds 75) (seconds 3600).

(** dns.h: [CacheData]. A callback is named by a number; an [addrinfo] is
    known by its place in the memory of the lists. *)
Record CacheData := mkData {
  callbacks : list nat;
  addr : option nat;
  used_at : Time;
  resolved_at : Time;
  successfully_resolved_at : Time;
  use_count : Z
}.
Definition CacheData_new : CacheData := mkData [] None 0 0 0 0.

(** A node of a list of addresses: what is read of it, and [ai_next]. *)
Record info := mkInfo { info_data : addrinfo; ai_next : option nat }.

(** [cache_] maps a key to its node of the [std::map], where an iterator
    points; and the memory of the lists of addresses. *)
Record Dns := mkDns {
  cache_ : gmap bytes nat;
  nodes : gmap nat (bytes * CacheData);
  next_node : nat;
  infos : gmap nat info;
  next_info : nat
}.
Definition DnsResolver_new : Dns := mkDns ∅ ∅ 0 ∅ 0.

Definition set_callbacks (cbs : list nat) (c : CacheData) : CacheData :=
  mkData cbs (addr c) (used_at c) (resolved_at c) (successfully_resolved_at c) (use_count c).
Definition set_addr (p : option nat) (c : CacheData) : CacheData :=
  mkData (callbacks c) p (used_at c) (resolved_at c) (successfully_resolved_at c) (use_count c).
Definition set_used_at (t : Time) (c : CacheData) : CacheData :=
  mkData (callbacks c) (addr c) t (resolved_at c) (successfully_resolved_at c) (use_count c).
Definition set_resolved_at (t : Time) (c : CacheData) : CacheData :=
  mkData (callbacks c) (addr c) (used_at c) t (successfully_resolved_at c) (use_count c).
Definition set_successfully_resolved_at (t : Time) (c : CacheData) : CacheData :=
  mkData (callbacks c) (addr c) (used_at c) (resolved_at c) t (use_count c).
Definition set_use_count (n : Z) (c : CacheData) : CacheData :=
  mkData (callbacks c) (addr c) (used_at c) (resolved_at c) (successfully_resolved_at c) n.

(** The node that an iterator points to. *)
Definition node (it : nat) : M Dns (bytes * CacheData) := deref "it" (λ s, nodes s !! it).
Definition data (it : nat) : M Dns CacheData := '(_, c) ← node it; mret c.
Definition upd_data (it : nat) (f : CacheData → CacheData) : M Dns unit :=
  '(key, c) ← node it;
  modify (λ s, mkDns (cache_ s) (<[it := (key, f c)]> (nodes s)) (next_node s) (infos s) (next_info s)).

Definition find_node (host_port : bytes) : M Dns (option nat) := gets (λ s, cache_ s !! host_port).
Definition insert_node (host_port : bytes) (c : CacheData) : M Dns nat :=
  it ← gets next_node;
  modify (λ s, mkDns (<[host_port := it]> (cache_ s)) (<[it := (host_port, c)]> (nodes s)) (S it) (infos s) (next_info s)) ;;
  mret it.
Definition erase_node (it : nat) : M Dns unit :=
  '(key, _) ← node it;
  modify (λ s, mkDns (delete key (cache_ s)) (delete it (nodes s)) (next_node s) (infos s) (next_info s)).

(** ** Lists of addresses *)
Definition info_at (l : nat) : M Dns info := deref "*p" (λ s, infos s !! l).
Definition set_next (l : nat) (q : option nat) : M Dns unit :=
  x ← info_at l;
  modify (λ s, mkDns (cache_ s) (nodes s) (next_node s) (<[l := mkInfo (info_data x) q]> (infos s)) (next_info s)).

(** dns.cc: [Advance(p)]: what it returns, and [p] after it. *)
Definition Advance (p : option nat) : M Dns (option nat * option nat) :=
  match p with
  | None => mret (None, None)
  | Some l => x ← info_at l; mret (Some l, ai_next x)
  end.

(** dns.cc: [Describe], from [p] on. *)
Fixpoint Describe (fuel : nat) (head : nat) (p : option nat) : M Dns bytes :=
  match p with
  | None => mret []
  | Some l =>
      match fuel with
      | 0 => no_fuel
      | S fuel =>
          let sep := if decide (l = head) then [] else B ", " in
          x ← info_at l;
          a ← IpPort (info_data x);
          rest ← Describe fuel head (ai_next x);
          mret (sep ++ print_IpPort a ++ rest)
      end
  end.

(** The list that [getaddrinfo] allocates. *)
Fixpoint chain (l : nat) (xs : list addrinfo) : gmap nat info :=
  match xs with
  | [] => ∅
  | x :: xs => <[l := mkInfo x (match xs with [] => None | _ => Some (S l) end)]> (chain (S l) xs)
  end.
Definition alloc_chain (xs : list addrinfo) : M Dns nat :=
  l ← gets next_info;
  modify (λ s, mkDns (cache_ s) (nodes s) (next_node s) (chain l xs ∪ infos s) (l + length xs)) ;;
  mret l.

(** The loop of [ResolveSync] that makes the list a ring; its [tail]. *)
Fixpoint close_ring (fuel : nat) (res tail : nat) : M Dns nat :=
  match fuel with
  | 0 => no_fuel
  | S fuel =>
      x ← info_at tail;
      match ai_next x with
      | Some next => close_ring fuel res next
      | None => set_next tail (Some res) ;; mret tail
      end
  end.

(** What [ResolveSync] asks for: the host and the port, as C strings. *)
Definition query (host_port : bytes) : option (bytes * bytes) :=
  i ← find_first (λ c, bool_decide (c = COLON)) (c_str host_port);
  Some (take i (c_str host_port), drop (S i) (c_str host_port)).

(** dns.cc: [ResolveSync]; the head of the ring, and the [tail] that the deleter
    of the pointer has captured. [getaddrinfo] is what the system answers to
    this call: an error, or a list. *)
Definition ResolveSync (min_lvl : Severity) (getaddrinfo : bytes → bytes → option (list addrinfo))
    (host_port : bytes) : M Dns (option (nat * nat)) :=
  match query host_port with
  | None => mret None
  | Some (host, port) =>
      match getaddrinfo host port with
      | None => mret None
      | Some xs =>
          res ← alloc_chain xs;
          x ← info_at res;
          a ← deref "res->ai_addr" (λ _, ai_addr (info_data x));
          CHECK "res->ai_addr->sa_family == AF_INET" (sa_family a =? AF_INET)%Z ;;
          when (severity_value min_lvl <=? severity_value INFO)%Z
            (fuel ← gets next_info; Describe (S fuel) res (Some res) ;; mret tt) ;;
          fuel ← gets next_info;
          tail ← close_ring (S fuel) res res;
          mret (Some (res, tail))
      end
  end.

(** ** [Resolve] and [ProcessCacheEntry] *)

(** What a thread does next, the mutex released: lock it for [Resolve] of a
    key at a time read before, call a callback of it; begin
    [ProcessCacheEntry], lock the mutex for it at a time read before, resolve,
    lock it again at a time read before for what was resolved, call the
    callbacks that are left and lock it again. *)
Inductive act :=
  | AResolve (now : Time) (host_port : bytes) (cb : nat)
  | ACall (cb : nat) (p : option nat)
  | AStart (it : nat)
  | AProcess (now : Time) (it : nat)
  | AResolveSync (it : nat)
  | AUpdate (now : Time) (it : nat) (p : option nat)
  | ACallbacks (it : nat) (cbs : list nat) (p : option nat).

(** An answer of [getaddrinfo] for a node: its ring, with the tail that the
    deleter has captured, and when. *)
Record answer := mkAnswer {
  a_it : nat; a_key : bytes; a_head : nat; a_tail : nat; a_addrs : list addrinfo; a_time : Time
}.

(** What a step brings about: what is to be done next, the functions to
    [Schedule], the callbacks called, the answers got. *)
Record effects := mkEffects {
  e_acts : list act;
  e_schedule : list (Time * nat);
  e_called : list (nat * option addrinfo);
  e_answers : list answer
}.
Definition then_ (a : act) : effects := mkEffects [a] [] [] [].
Definition then_schedule (t : Time) (it : nat) : effects := mkEffects [] [(t, it)] [] [].
Definition no_effects : effects := mkEffects [] [] [] [].

Section dns.
Context (opt_ : DnsOptions) (min_lvl : Severity).

(** dns.cc: [CacheData::Use]. *)
Definition Use (it : nat) (now : Time) : M Dns unit :=
  upd_data it (λ c, set_use_count (use_count c + 1) c) ;;
  c ← data it;
  '(_, q) ← Advance (addr c);
  upd_data it (set_addr q) ;;
  upd_data it (λ c, set_used_at (Z.max (used_at c) now) c).

(** dns.cc: [DnsResolver::Resolve], from the lock on. *)
Definition Resolve (now : Time) (host_port : bytes) (cb : nat) : M Dns effects :=
  it ← find_node host_port;
  match it with
  | None =>
      it ← insert_node host_port (set_callbacks [cb] CacheData_new);
      mret (then_schedule now it)
  | Some it =>
      c ← data it;
      if negb (bool_decide (callbacks c = [])) then
        upd_data it (λ c, set_callbacks (callbacks c ++ [cb]) c) ;;
        mret no_effects
      else
        let p := if (now <? successfully_resolved_at c + dns_cache_ttl opt_)%Z then addr c else None in
        Use it now ;;
        mret (then_ (ACall cb p))
  end.

(** dns.cc: [ProcessCacheEntry], from where the callbacks are done. *)
Definition Process_next (it : nat) : M Dns effects :=
  c ← data it;
  mret (then_schedule (Z.min (resolved_at c + dns_cache_refresh_period opt_)
                             (used_at c + dns_cache_refresh_duration opt_)) it).

(** dns.cc: [ProcessCacheEntry], from the test for callbacks. *)
Definition Process_callbacks (now : Time) (it : nat) : M Dns effects :=
  c ← data it;
  if negb (bool_decide (callbacks c = [])) then
    upd_data it (set_callbacks []) ;;
    for_each (λ _, Use it now) (callbacks c) ;;
    mret (then_ (ACallbacks it (callbacks c) (addr c)))
  else Process_next it.

(** dns.cc: the beginning of [ProcessCacheEntry]. *)
Definition Process_begin (now : Time) (it : nat) : M Dns effects :=
  c ← data it;
  if bool_decide (callbacks c = []) && (used_at c + dns_cache_refresh_duration opt_ <=? now)%Z then
    erase_node it ;; mret no_effects
  else if (resolved_at c + dns_cache_refresh_period opt_ <=? now)%Z then mret (then_ (AResolveSync it))
  else Process_callbacks now it.

(** The loop that moves a new ring on as far as the old one has been used. *)
Fixpoint rotate (fuel : nat) (it : nat) (i : Z) (head : option nat) : M Dns unit :=
  match fuel with
  | 0 => no_fuel
  | S fuel =>
      c ← data it;
      if (use_count c =? 0)%Z then mret tt else
      upd_data it (λ c, set_use_count (use_count c - 1) c) ;;
      '(_, q) ← Advance (addr c);
      upd_data it (set_addr q) ;;
      when (bool_decide (q = head)) (upd_data it (λ c, set_use_count (Z.rem (use_count c) (i + 1)) c)) ;;
      rotate fuel it (i + 1) head
  end.

(** dns.cc: [ProcessCacheEntry], once [ResolveSync] has returned [p]. *)
Definition Process_update (now : Time) (it : nat) (p : option nat) : M Dns effects :=
  upd_data it (set_resolved_at now) ;;
  when (bool_decide (is_Some p)) (
    upd_data it (set_addr p) ;;
    upd_data it (set_successfully_resolved_at now) ;;
    c ← data it;
    rotate (S (Z.to_nat (use_count c))) it 0 p) ;;
  Process_callbacks now it.

(** The argument of a callback: what [*addr] is. *)
Definition read_addr (p : option nat) : M Dns (option addrinfo) :=
  match p with
  | None => mret None
  | Some l => x ← info_at l; mret (Some (info_data x))
  end.

(** One step of what a thread does, at [now], [getaddrinfo] answering as it
    does then. *)
Definition perform (getaddrinfo : bytes → bytes → option (list addrinfo)) (now : Time) (a : act) : M Dns effects :=
  match a with
  | AResolve t host_port cb => Resolve t host_port cb
  | ACall cb p => x ← read_addr p; mret (mkEffects [] [] [(cb, x)] [])
  | AStart it => mret (then_ (AProcess now it))
  | AProcess t it => Process_begin t it
  | AResolveSync it =>
      '(key, _) ← node it;
      p ← ResolveSync min_lvl getaddrinfo key;
      mret (mkEffects [AUpdate now it (fst <$> p)] [] [] (
        match p, query key with
        | Some (head, tail), Some (host, port) =>
            match getaddrinfo host port with
            | Some xs => [mkAnswer it key head tail xs now]
            | None => []
            end
        | _, _ => []
        end))
  | AUpdate t it p => Process_update t it p
  | ACallbacks it [] _ => Process_next it
  | ACallbacks it (cb :: cbs) p =>
      '(q, p) ← Advance p;
      x ← read_addr q;
      mret (mkEffects [ACallbacks it cbs p] [] [(cb, x)] [])
  end.
End dns.

(** getaddrinfo(3), with the hints of [ResolveSync]: when it succeeds the list
    is not empty, and its addresses are IPv4 addresses. *)
Class AddrInfoLaws (getaddrinfo : bytes → bytes → option (list addrinfo)) := {
  addrs_some : ∀ host port xs, getaddrinfo host port = Some xs → xs ≠ [];
  addrs_ipv4 : ∀ host port xs, getaddrinfo host port = Some xs → Forall (λ x, ipv4 x ∧ ai_family x = AF_INET) xs
}.

(** ** Rings *)

(** The list [xs] from [l] on, with a null pointer at its end; and as a ring. *)
Definition linked (m : gmap nat info) (l : nat) (xs : list addrinfo) : Prop :=
  ∀ i x, xs !! i = Some x →
    m !! (l + i) = Some (mkInfo x (if decide (S i = length xs) then None else Some (l + S i))).
Definition ring (m : gmap nat info) (l : nat) (xs : list addrinfo) : Prop :=
  xs ≠ [] ∧ ∀ i x, xs !! i = Some x → m !! (l + i) = Some (mkInfo x (Some (l + S i mod length xs))).

Lemma ring_length m l xs ys : ring m l xs → ring m l ys → length xs ≤ length ys → length xs = length ys.
Proof.
  intros [Hx Hrx] [Hy Hry] Hle. destruct (decide (length xs = length ys)) as [|Hne]; [done|exfalso].
  assert (0 < length xs) by (destruct xs; cbn; [done|lia]).
  destruct (lookup_lt_is_Some_2 xs (length xs - 1)) as [x Hi]; [lia|].
  destruct (lookup_lt_is_Some_2 ys (length xs - 1)) as [y Hj]; [lia|].
  pose proof (Hrx _ _ Hi) as H1. rewrite (Hry _ _ Hj) in H1. injection H1 as _ H1.
  replace (S (length xs - 1)) with (length xs) in H1 by lia.
  rewrite Nat.Div0.mod_same, Nat.mod_small in H1 by lia. lia.
Qed.

(** A place is the head of one ring. *)
Lemma ring_inj m l xs ys : ring m l xs → ring m l ys → xs = ys.
Proof.
  intros Hx Hy. assert (length xs = length ys) as Hlen.
  { destruct (Nat.le_ge_cases (length xs) (length ys)); [by eapply ring_length|symmetry; by eapply ring_length]. }
  destruct Hx as [_ Hx], Hy as [_ Hy]. apply (list_eq_same_length _ _ (length ys)); [done|done|].
  intros i x y _ Hi Hj. pose proof (Hx _ _ Hi) as H. rewrite (Hy _ _ Hj) in H. congruence.
Qed.

Lemma chain_lookup l xs i x :
  xs !! i = Some x → chain l xs !! (l + i) = Some (mkInfo x (if decide (S i = length xs) then None else Some (l + S i))).
Proof.
  revert l i. induction xs as [|y xs IH]; intros l i Hi; [done|]. destruct i as [|i]; cbn in Hi.
  - injection Hi as ->. cbn [chain]. rewrite Nat.add_0_r, lookup_insert_eq. do 2 f_equal.
    destruct xs; cbn; [done|]. f_equal. lia.
  - cbn [chain]. rewrite lookup_insert_ne by lia.
    replace (l + S i) with (S l + i) by lia. rewrite (IH _ _ Hi). do 2 f_equal. cbn [length].
    repeat case_decide; try lia; [done|]. f_equal. lia.
Qed.

Lemma chain_lookup_None l xs k : k < l ∨ l + length xs ≤ k → chain l xs !! k = None.
Proof.
  revert l. induction xs as [|y xs IH]; intros l Hk; [done|]. cbn in *.
  rewrite lookup_insert_ne by lia. apply IH. lia.
Qed.

Lemma linked_head m l xs : linked m l xs → xs ≠ [] → ∃ x, xs !! 0 = Some x ∧ ∃ q, m !! l = Some (mkInfo x q).
Proof.
  destruct xs as [|x xs]; [done|]. intros Hl _. exists x. split; [done|].
  specialize (Hl 0 x eq_refl). rewrite Nat.add_0_r in Hl. eauto.
Qed.

Lemma wp_info_at l x Q s : infos s !! l = Some x → Q x s → wp (info_at l) Q s.
Proof. intros. by eapply wp_deref. Qed.

(** [Describe], called before the list is made a ring, returns. *)
Lemma Describe_wp fuel hd xs l i p s :
  linked (infos s) l xs → Forall (λ x, ipv4 x ∧ ai_family x = AF_INET) xs → i < length xs → length xs - i < fuel →
  p = l + i → wp (Describe fuel hd (Some p)) (λ _ s', s' = s) s.
Proof.
  intros Hl Hx. revert i p. induction fuel as [|fuel IH]; intros i p Hi Hf ->; [lia|]. cbn [Describe].
  destruct (lookup_lt_is_Some_2 xs i Hi) as [x Hxi].
  apply wp_bind. eapply wp_info_at; [by apply Hl|]. cbn [info_data ai_next].
  apply wp_bind, IpPort_wp; [by eapply (Forall_lookup_1 _ _ _ _ Hx)|]. intros a _. apply wp_bind.
  apply (wp_mono _ (λ _ s', s' = s)); [|by intros ? ? ->].
  case_decide; [by destruct fuel|]. eapply IH; [| |done]; lia.
Qed.

Definition with_infos (m : gmap nat info) (s : Dns) : Dns := mkDns (cache_ s) (nodes s) (next_node s) m (next_info s).

Lemma close_ring_wp fuel xs l i tail s :
  linked (infos s) l xs → i < length xs → length xs - i < fuel → tail = l + i →
  wp (close_ring fuel l tail) (λ t s', t = l + pred (length xs) ∧ ∃ m, s' = with_infos m s ∧ ring m l xs ∧
    (∀ k, k < l → m !! k = infos s !! k) ∧ ∀ k, is_Some (m !! k) → is_Some (infos s !! k)) s.
Proof.
  intros Hl. revert i tail. induction fuel as [|fuel IH]; intros i tail Hi Hf ->; [lia|]. cbn [close_ring].
  destruct (lookup_lt_is_Some_2 xs i Hi) as [x Hxi].
  apply wp_bind. eapply wp_info_at; [by apply Hl|]. cbn [ai_next].
  case_decide as Hlast; [|eapply IH; [| |done]; lia].
  unfold set_next. apply wp_bind, wp_bind. eapply wp_info_at; [by apply Hl|]. apply wp_modify, wp_ret.
  split; [lia|]. eexists. split; [done|]. cbn [info_data]. split_and_all.
  - split; [by destruct xs|]. intros j y Hy. pose proof (lookup_lt_Some _ _ _ Hy).
    destruct (decide (j = i)) as [->|Hne].
    + simplify_eq. rewrite lookup_insert_eq, Hlast, Nat.Div0.mod_same. do 3 f_equal. lia.
    + rewrite lookup_insert_ne by lia. rewrite (Hl j y Hy), decide_False by lia. rewrite Nat.mod_small by lia. done.
  - intros k Hk. by rewrite lookup_insert_ne by lia.
  - intros k. destruct (decide (k = l + i)) as [->|?]; [|by rewrite lookup_insert_ne].
    intros _. eexists. by apply Hl.
Qed.

(** Every place in use is below [next_info]. *)
Definition infos_ok (s : Dns) : Prop := ∀ l x, infos s !! l = Some x → l < next_info s.

Lemma ResolveSync_wp min_lvl gai `{!AddrInfoLaws gai} key s :
  infos_ok s →
  wp (ResolveSync min_lvl gai key) (λ p s', cache_ s' = cache_ s ∧ nodes s' = nodes s ∧ next_node s' = next_node s ∧
    infos_ok s' ∧
    match query key ≫= λ '(host, port), gai host port with
    | None => p = None ∧ s' = s
    | Some xs => p = Some (next_info s, next_info s + pred (length xs)) ∧ next_info s' = next_info s + length xs ∧
        ring (infos s') (next_info s) xs ∧ ∀ k, k < next_info s → infos s' !! k = infos s !! k
    end) s.
Proof.
  intros Hok. unfold ResolveSync. destruct (query key) as [[host port]|]; [|by apply wp_ret].
  cbn. destruct (gai host port) as [xs|] eqn:Hg; [|by apply wp_ret].
  pose proof (addrs_some _ _ _ Hg) as Hne. pose proof (addrs_ipv4 _ _ _ Hg) as Hx.
  unfold alloc_chain. apply wp_bind, wp_bind, wp_gets, wp_bind, wp_modify, wp_ret.
  set (l := next_info s). set (s1 := mkDns _ _ _ (chain l xs ∪ _) _).
  assert (linked (infos s1) l xs) as Hl by (intros i x Hi; cbn; by apply lookup_union_Some_l, chain_lookup).
  assert (∀ k, k < l → infos s1 !! k = infos s !! k) as Hold.
  { intros k Hk. cbn. apply lookup_union_r, chain_lookup_None. lia. }
  assert (infos_ok s1) as Hok1.
  { intros k x [Hk|[_ Hk]]%lookup_union_Some_raw; cbn.
    - destruct (decide (k < l + length xs)); [done|]. rewrite chain_lookup_None in Hk by lia. done.
    - apply Hok in Hk. fold l in Hk. lia. }
  destruct (linked_head _ _ _ Hl Hne) as (x & Hx0 & q & Hq).
  assert (0 < length xs) by (by apply lookup_lt_Some in Hx0).
  apply wp_bind. eapply wp_info_at; [done|]. cbn [info_data].
  destruct (Forall_lookup_1 _ _ _ _ Hx Hx0) as [(a & Ha & Hf) _]. apply wp_bind.
  eapply wp_deref; [done|]. apply wp_bind, wp_CHECK; [by apply Z.eqb_eq|].
  apply wp_bind. apply (wp_mono _ (λ _ s', s' = s1)).
  { apply wp_when; [|done]. intros _. apply wp_bind, wp_gets, wp_bind.
    apply (wp_mono _ (λ _ s', s' = s1)); [|by intros ? ? ->].
    apply (Describe_wp (S (next_info s1)) l xs l 0 l s1); [done..| |]; cbn; lia. }
  intros [] ? ->. apply wp_bind, wp_gets, wp_bind.
  eapply wp_mono; [apply (close_ring_wp (S (next_info s1)) xs l 0 l s1); [done..| |]; cbn; lia|].
  intros ? s' (-> & m & -> & Hr & Hm & Hdom). apply wp_ret. cbn. split_and_all; try done.
  - intros k y Hk. destruct (Hdom k) as [z Hz]; [by eexists|]. by eapply Hok1.
  - intros k Hk. rewrite Hm by done. by apply Hold.
Qed.

(** ** The data of an entry *)
Definition put_data (it : nat) (key : bytes) (c : CacheData) (s : Dns) : Dns :=
  mkDns (cache_ s) (<[it := (key, c)]> (nodes s)) (next_node s) (infos s) (next_info s).

Lemma put_data_lookup it key c s : nodes (put_data it key c s) !! it = Some (key, c).
Proof. apply lookup_insert_eq. Qed.
Lemma put_data_put it key c c' s : put_data it key c' (put_data it key c s) = put_data it key c' s.
Proof. unfold put_data. cbn. by rewrite insert_insert_eq. Qed.
Lemma put_data_id it key c s : nodes s !! it = Some (key, c) → put_data it key c s = s.
Proof. intros Hn. unfold put_data. rewrite insert_id by done. by destruct s. Qed.

Lemma wp_node it key c Q s : nodes s !! it = Some (key, c) → Q (key, c) s → wp (node it) Q s.
Proof. intros. by eapply wp_deref. Qed.
Lemma wp_data it key c Q s : nodes s !! it = Some (key, c) → Q c s → wp (data it) Q s.
Proof. intros. unfold data. by eapply wp_bind, wp_node. Qed.
Lemma wp_upd_data it key c f Q s :
  nodes s !! it = Some (key, c) → Q tt (put_data it key (f c) s) → wp (upd_data it f) Q s.
Proof. intros. unfold upd_data. eapply wp_bind, wp_node; [done|]. by apply wp_modify. Qed.

(** What a pointer is advanced to. *)
Definition next_of (m : gmap nat info) (p : option nat) : option nat := l ← p; x ← m !! l; ai_next x.
Definition valid (m : gmap nat info) (p : option nat) : Prop := ∀ l, p = Some l → is_Some (m !! l).

Lemma wp_Advance p Q s : valid (infos s) p → Q (p, next_of (infos s) p) s → wp (Advance p) Q s.
Proof.
  intros Hv HQ. destruct p as [l|]; [|by apply wp_ret]. destruct (Hv l eq_refl) as [x Hx].
  cbn [Advance]. eapply wp_bind, wp_info_at; [done|]. apply wp_ret. unfold next_of in HQ. cbn in HQ. by rewrite Hx in HQ.
Qed.

(** A pointer into a ring. *)
Definition on_ring (m : gmap nat info) (l : nat) (xs : list addrinfo) (i : nat) (p : option nat) : Prop :=
  ring m l xs ∧ p = Some (l + i mod length xs).

Lemma ring_pos m l xs i : ring m l xs → i mod length xs < length xs.
Proof. intros [? _]. apply Nat.mod_upper_bound. by destruct xs. Qed.

Lemma on_ring_lookup m l xs i p :
  on_ring m l xs i p → ∃ x, xs !! (i mod length xs) = Some x ∧
    m !! (l + i mod length xs) = Some (mkInfo x (Some (l + S i mod length xs))).
Proof.
  intros [Hr _]. pose proof (ring_pos _ _ _ i Hr) as Hi.
  destruct (lookup_lt_is_Some_2 xs _ Hi) as [x Hx]. exists x. split; [done|].
  destruct Hr as [? Hr]. rewrite (Hr _ _ Hx). do 3 f_equal.
  rewrite <- (Nat.add_1_r (i mod _)), Nat.Div0.add_mod_idemp_l, Nat.add_1_r. done.
Qed.

Lemma on_ring_valid m l xs i p : on_ring m l xs i p → valid m p.
Proof. intros Hr k Hk. destruct (on_ring_lookup _ _ _ _ _ Hr) as (x & _ & Hx). destruct Hr as [_ ->]. simplify_eq. eauto. Qed.

Lemma on_ring_next m l xs i p : on_ring m l xs i p → on_ring m l xs (S i) (next_of m p).
Proof.
  intros Hr. destruct (on_ring_lookup _ _ _ _ _ Hr) as (x & _ & Hx). destruct Hr as [Hr ->].
  split; [done|]. unfold next_of. cbn. by rewrite Hx.
Qed.

Lemma on_ring_head m l xs : ring m l xs → on_ring m l xs 0 (Some l).
Proof. intros Hr. split; [done|]. rewrite Nat.Div0.mod_0_l. do 2 f_equal. lia. Qed.

(** [CacheData::Use] on the data of an entry, [k] times. *)
Definition used (m : gmap nat info) (now : Time) (c : CacheData) : CacheData :=
  set_used_at (Z.max (used_at c) now) (set_addr (next_of m (addr c)) (set_use_count (use_count c + 1) c)).

Lemma Use_wp it now key c Q s :
  nodes s !! it = Some (key, c) → valid (infos s) (addr c) →
  Q tt (put_data it key (used (infos s) now c) s) → wp (Use it now) Q s.
Proof.
  intros Hn Hv HQ. unfold Use. apply wp_bind. eapply wp_upd_data; [done|].
  apply wp_bind. eapply wp_data; [apply put_data_lookup|]. cbn [addr set_use_count].
  apply wp_bind, wp_Advance; [done|]. apply wp_bind. eapply wp_upd_data; [apply put_data_lookup|].
  rewrite put_data_put. eapply wp_upd_data; [apply put_data_lookup|]. by rewrite put_data_put.
Qed.

(** A pointer that is null, or in a ring and so are those after it. *)
Definition in_ring (m : gmap nat info) (p : option nat) : Prop := p = None ∨ ∃ l xs i, on_ring m l xs i p.

Lemma in_ring_valid m p : in_ring m p → valid m p.
Proof. intros [->|(l & xs & i & Hr)]; [done|]. by eapply on_ring_valid. Qed.
Lemma in_ring_next m p : in_ring m p → in_ring m (next_of m p).
Proof. intros [->|(l & xs & i & Hr)]; [by left|]. right. exists l, xs, (S i). by apply on_ring_next. Qed.

Lemma uses_wp {A} (cbs : list A) it now key c Q s :
  nodes s !! it = Some (key, c) → in_ring (infos s) (addr c) →
  Q tt (put_data it key (Nat.iter (length cbs) (used (infos s) now) c) s) →
  wp (for_each (λ _, Use it now) cbs) Q s.
Proof.
  revert c s. induction cbs as [|cb cbs IH]; intros c s Hn Hr HQ; cbn.
  - apply wp_ret. cbn in HQ. by rewrite put_data_id in HQ.
  - apply wp_bind. eapply Use_wp; [done|by apply in_ring_valid|].
    eapply IH; [apply put_data_lookup|by apply in_ring_next|].
    rewrite put_data_put. cbn [infos put_data]. by rewrite <- Nat.iter_succ_r.
Qed.

Lemma iter_used m now k c :
  let c' := Nat.iter k (used m now) c in
  callbacks c' = callbacks c ∧ resolved_at c' = resolved_at c ∧
  successfully_resolved_at c' = successfully_resolved_at c ∧
  use_count c' = (use_count c + Z.of_nat k)%Z ∧ addr c' = Nat.iter k (next_of m) (addr c).
Proof.
  cbn zeta. induction k as [|k IH]; [cbn; split_and_all; [..|lia|]; done|].
  rewrite !Nat.iter_succ. revert IH. generalize (Nat.iter k (used m now) c) as d.
  intros d (H1 & H2 & H3 & H4 & H5). cbn. rewrite H1, H2, H3, H4, H5. split_and_all; [done..|lia|done].
Qed.

Lemma rotate_wrap i v n : i < n ∨ i + S v < 2 * n → S i mod n = 0 → S i = n.
Proof.
  intros Hiv Hm. destruct (decide (n = 0)) as [->|Hn]; [lia|].
  apply Nat.Div0.div_exact in Hm. revert Hm. generalize (S i `div` n) as q. intros q Hq.
  assert (S i < 2 * n) by lia. assert (q = 1) as -> by nia. lia.
Qed.

(** The loop returns, however often the entry has been used: the position in
    the new ring is the number of uses modulo its length. *)
Lemma rotate_wp fuel it key c l xs i v Q s :
  nodes s !! it = Some (key, c) → use_count c = Z.of_nat v → on_ring (infos s) l xs i (addr c) →
  (i < length xs ∨ i + v < 2 * length xs) → v < fuel →
  Q tt (put_data it key (set_use_count 0 (set_addr (Some (l + (i + v) mod length xs)) c)) s) →
  wp (rotate fuel it (Z.of_nat i) (Some l)) Q s.
Proof.
  revert c i v s. induction fuel as [|fuel IH]; intros c i v s Hn Huse Hr Hiv Hf HQ; [lia|]. cbn [rotate].
  apply wp_bind. eapply wp_data; [done|]. rewrite Huse. destruct (Z.eqb_spec (Z.of_nat v) 0) as [Hv|Hv].
  - assert (v = 0) as -> by lia. apply wp_ret. destruct Hr as [_ Ha]. rewrite Nat.add_0_r, <- Ha in HQ.
    replace (set_use_count 0 (set_addr (addr c) c)) with c in HQ.
    2: { destruct c. unfold set_use_count, set_addr. cbn in *. by rewrite Huse. }
    by rewrite put_data_id in HQ.
  - destruct v as [|v]; [lia|].
    apply wp_bind. eapply wp_upd_data; [done|]. rewrite Huse.
    apply wp_bind, wp_Advance; [by eapply on_ring_valid|].
    apply wp_bind. eapply wp_upd_data; [apply put_data_lookup|]. rewrite put_data_put. cbn [infos put_data].
    pose proof (on_ring_next _ _ _ _ _ Hr) as Hr'. set (q := next_of (infos s) (addr c)) in *.
    replace (Z.of_nat i + 1)%Z with (Z.of_nat (S i)) by lia.
    apply wp_bind, wp_when; rewrite ?bool_decide_eq_true, ?bool_decide_eq_false; intros Hq.
    + eapply wp_upd_data; [apply put_data_lookup|]. rewrite put_data_put.
      destruct Hr' as [Hring Hq']. rewrite Hq' in Hq. injection Hq as Hq.
      assert (S i mod length xs = 0) as Hmod by lia. pose proof (rotate_wrap _ _ _ Hiv Hmod) as Hi.
      assert (Z.rem (Z.of_nat (S v) - 1) (Z.of_nat (S i)) = Z.of_nat (v mod S i)) as Hrem.
      { rewrite Z.rem_mod_nonneg, Nat2Z.inj_mod by lia. f_equal. lia. }
      eapply (IH _ (S i) (v mod S i)); [apply put_data_lookup|done| |right|..].
      * by split.
      * pose proof (Nat.mod_upper_bound v (S i)). lia.
      * pose proof (Nat.Div0.mod_le v (S i)). lia.
      * rewrite put_data_put. eapply (eq_rect _ (λ k, Q tt (put_data _ _ (set_use_count 0 (set_addr (Some (l + k)) c)) s))); [exact HQ|].
        rewrite Hi. rewrite Nat.Div0.add_mod_idemp_r, <- Hi. f_equal. lia.
    + eapply (IH _ (S i) v); [apply put_data_lookup|cbn; lia|done| |lia|].
      * cbn [addr] in *. pose proof (ring_pos _ _ _ i (proj1 Hr)).
        destruct (decide (S i = length xs)) as [Hi|Hi]; [|lia].
        destruct Hq. destruct Hr' as [_ ->]. rewrite Hi, Nat.Div0.mod_same. f_equal. lia.
      * rewrite put_data_put. by replace (S i + v) with (i + S v) by lia.
Qed.

(** ** What each step does *)
Section outcomes.
Context (opt_ : DnsOptions) (min_lvl : Severity).

(** The end of [ProcessCacheEntry] on the data [d]. *)
Inductive tail_outcome (t : Time) (it : nat) (m : gmap nat info) (d : CacheData) : effects → CacheData → Prop :=
  | to_next : callbacks d = [] →
      tail_outcome t it m d (then_schedule (Z.min (resolved_at d + dns_cache_refresh_period opt_)
                                             (used_at d + dns_cache_refresh_duration opt_)) it) d
  | to_callbacks : callbacks d ≠ [] →
      tail_outcome t it m d (then_ (ACallbacks it (callbacks d) (addr d)))
        (Nat.iter (length (callbacks d)) (used m t) (set_callbacks [] d)).

Lemma Process_callbacks_wp t it key d Q s :
  nodes s !! it = Some (key, d) → in_ring (infos s) (addr d) →
  (∀ f d', tail_outcome t it (infos s) d f d' → Q f (put_data it key d' s)) →
  wp (Process_callbacks opt_ t it) Q s.
Proof.
  intros Hn Hr HQ. unfold Process_callbacks. apply wp_bind. eapply wp_data; [done|].
  case_bool_decide as Hc; cbn [negb].
  - unfold Process_next. apply wp_bind. eapply wp_data; [done|]. apply wp_ret.
    specialize (HQ _ _ (to_next t it _ d Hc)). by rewrite put_data_id in HQ.
  - apply wp_bind. eapply wp_upd_data; [done|]. apply wp_bind.
    eapply uses_wp; [apply put_data_lookup|done|]. rewrite put_data_put. apply wp_ret, HQ. by apply to_callbacks.
Qed.

(** The data after a resolution that gave [p]. *)
Inductive updated (t : Time) (m : gmap nat info) (d : CacheData) : option nat → CacheData → Prop :=
  | up_none : updated t m d None (set_resolved_at t d)
  | up_some l xs : ring m l xs →
      updated t m d (Some l)
        (set_use_count 0 (set_addr (Some (l + Z.to_nat (use_count d) mod length xs))
          (set_successfully_resolved_at t (set_resolved_at t d)))).

Lemma updated_in_ring t m d p d' : updated t m d p d' → in_ring m (addr d) → in_ring m (addr d').
Proof.
  intros [|l xs Hr] Hd; [done|]. right. exists l, xs, (Z.to_nat (use_count d)). by split.
Qed.

Lemma Process_update_wp t it key d p Q s :
  nodes s !! it = Some (key, d) → in_ring (infos s) (addr d) → (0 ≤ use_count d)%Z →
  (∀ l, p = Some l → ∃ xs, ring (infos s) l xs) →
  (∀ d1 f d', updated t (infos s) d p d1 → tail_outcome t it (infos s) d1 f d' → Q f (put_data it key d' s)) →
  wp (Process_update opt_ t it p) Q s.
Proof.
  intros Hn Hr Hu Hp HQ. unfold Process_update. apply wp_bind. eapply wp_upd_data; [done|].
  apply wp_bind, (wp_mono _ (λ _ s', ∃ d1, updated t (infos s) d p d1 ∧ s' = put_data it key d1 s)).
  - apply wp_when; rewrite ?bool_decide_eq_true, ?bool_decide_eq_false.
    + intros [l ->]. destruct (Hp l eq_refl) as [xs Hl].
      apply wp_bind. eapply wp_upd_data; [apply put_data_lookup|]. rewrite put_data_put.
      apply wp_bind. eapply wp_upd_data; [apply put_data_lookup|]. rewrite put_data_put.
      apply wp_bind. eapply wp_data; [apply put_data_lookup|].
      set (d0 := set_successfully_resolved_at _ _).
      assert (0 < length xs) by (destruct Hl as [? _]; destruct xs; cbn; [done|lia]).
      eapply (rotate_wp _ it key d0 l xs 0 (Z.to_nat (use_count d))).
      * apply put_data_lookup.
      * cbn. by rewrite Z2Nat.id.
      * by apply on_ring_head.
      * by left.
      * cbn. lia.
      * rewrite put_data_put. eexists. split; [by apply up_some|]. done.
    + intros Hnone. destruct p; [by destruct Hnone|]. eexists. split; [apply up_none|done].
  - intros [] s' (d1 & Hd1 & ->). eapply Process_callbacks_wp; [apply put_data_lookup|by eapply updated_in_ring|].
    intros f d' Ht. rewrite put_data_put. by eapply HQ.
Qed.

(** [ProcessCacheEntry] at [t] does not erase the entry. *)
Definition kept (t : Time) (d : CacheData) : Prop :=
  callbacks d ≠ [] ∨ (t < used_at d + dns_cache_refresh_duration opt_)%Z.

(** A step of an action, in a state where it can be made. *)
Inductive performed (gai : bytes → bytes → option (list addrinfo)) (now : Time) (s : Dns) :
    act → effects → Dns → Prop :=
  | pf_miss t hp cb : cache_ s !! hp = None →
      performed gai now s (AResolve t hp cb) (then_schedule t (next_node s))
        (mkDns (<[hp := next_node s]> (cache_ s)) (<[next_node s := (hp, set_callbacks [cb] CacheData_new)]> (nodes s))
           (S (next_node s)) (infos s) (next_info s))
  | pf_wait t hp cb it d : nodes s !! it = Some (hp, d) → callbacks d ≠ [] →
      performed gai now s (AResolve t hp cb) no_effects (put_data it hp (set_callbacks (callbacks d ++ [cb]) d) s)
  | pf_hit t hp cb it d : nodes s !! it = Some (hp, d) → callbacks d = [] →
      performed gai now s (AResolve t hp cb)
        (then_ (ACall cb (if (t <? successfully_resolved_at d + dns_cache_ttl opt_)%Z then addr d else None)))
        (put_data it hp (used (infos s) t d) s)
  | pf_call cb p : performed gai now s (ACall cb p)
      (mkEffects [] [] [(cb, l ← p; info_data <$> infos s !! l)] []) s
  | pf_start it : performed gai now s (AStart it) (then_ (AProcess now it)) s
  | pf_erase t it key d : nodes s !! it = Some (key, d) → callbacks d = [] →
      performed gai now s (AProcess t it) no_effects
        (mkDns (delete key (cache_ s)) (delete it (nodes s)) (next_node s) (infos s) (next_info s))
  | pf_resolve t it key d : nodes s !! it = Some (key, d) → kept t d →
      performed gai now s (AProcess t it) (then_ (AResolveSync it)) s
  | pf_begin t it key d f d' : nodes s !! it = Some (key, d) → tail_outcome t it (infos s) d f d' →
      kept t d → (t < resolved_at d + dns_cache_refresh_period opt_)%Z →
      performed gai now s (AProcess t it) f (put_data it key d' s)
  | pf_failed it key d s' : nodes s !! it = Some (key, d) →
      (cache_ s' = cache_ s ∧ nodes s' = nodes s ∧ next_node s' = next_node s ∧ infos s' = infos s ∧ next_info s' = next_info s) →
      performed gai now s (AResolveSync it) (then_ (AUpdate now it None)) s'
  | pf_resolved it key d host port xs s' : nodes s !! it = Some (key, d) →
      cache_ s' = cache_ s → nodes s' = nodes s → next_node s' = next_node s → infos_ok s' →
      query key = Some (host, port) → gai host port = Some xs →
      next_info s' = next_info s + length xs → ring (infos s') (next_info s) xs →
      (∀ k, k < next_info s → infos s' !! k = infos s !! k) →
      performed gai now s (AResolveSync it)
        (mkEffects [AUpdate now it (Some (next_info s))] [] [] [mkAnswer it key (next_info s) (next_info s + pred (length xs)) xs now]) s'
  | pf_update t it key d p d1 f d' : nodes s !! it = Some (key, d) →
      updated t (infos s) d p d1 → tail_outcome t it (infos s) d1 f d' →
      performed gai now s (AUpdate t it p) f (put_data it key d' s)
  | pf_callback it cb cbs p : performed gai now s (ACallbacks it (cb :: cbs) p)
      (mkEffects [ACallbacks it cbs (next_of (infos s) p)] [] [(cb, l ← p; info_data <$> infos s !! l)] []) s
  | pf_last it p d key : nodes s !! it = Some (key, d) →
      performed gai now s (ACallbacks it [] p)
        (then_schedule (Z.min (resolved_at d + dns_cache_refresh_period opt_)
                          (used_at d + dns_cache_refresh_duration opt_)) it) s.

(** The node that an action is for, and its pointer. *)
Definition act_it (a : act) : option nat :=
  match a with
  | AResolve _ _ _ | ACall _ _ => None
  | AStart it | AProcess _ it | AResolveSync it | AUpdate _ it _ | ACallbacks it _ _ => Some it
  end.
Definition act_ptr (a : act) : option nat :=
  match a with ACall _ p | AUpdate _ _ p | ACallbacks _ _ p => p | _ => None end.

Lemma wp_read_addr p Q s :
  valid (infos s) p → Q (l ← p; info_data <$> infos s !! l) s → wp (read_addr p) Q s.
Proof.
  intros Hv HQ. destruct p as [l|]; [|by apply wp_ret]. destruct (Hv l eq_refl) as [x Hx].
  cbn [read_addr]. eapply wp_bind, wp_info_at; [done|]. apply wp_ret. cbn in HQ. by rewrite Hx in HQ.
Qed.

Lemma perform_wp gai `{!AddrInfoLaws gai} now a s :
  infos_ok s →
  (∀ hp it, cache_ s !! hp = Some it → ∃ d, nodes s !! it = Some (hp, d)) →
  (∀ it key d, nodes s !! it = Some (key, d) → in_ring (infos s) (addr d) ∧ (0 ≤ use_count d)%Z) →
  (∀ it, act_it a = Some it → is_Some (nodes s !! it)) →
  in_ring (infos s) (act_ptr a) →
  (∀ t it l, a = AUpdate t it (Some l) → ∃ xs, ring (infos s) l xs) →
  wp (perform opt_ min_lvl gai now a) (λ f s', performed gai now s a f s') s.
Proof.
  intros Hok Hcache Hnodes Hit Hptr Hup. destruct a as [t hp cb|cb p|it|t it|it|t it p|it cbs p]; cbn [perform].
  - unfold Resolve. apply wp_bind, wp_gets. destruct (cache_ s !! hp) as [it|] eqn:Hhp.
    + destruct (Hcache _ _ Hhp) as [d Hd]. destruct (Hnodes _ _ _ Hd) as [Hr _].
      apply wp_bind. eapply wp_data; [done|]. case_bool_decide as Hc; cbn [negb]; apply wp_bind.
      * eapply Use_wp; [done|by apply in_ring_valid|]. by apply wp_ret, pf_hit.
      * eapply wp_upd_data; [done|]. by apply wp_ret, pf_wait.
    + unfold insert_node. apply wp_bind, wp_bind, wp_gets, wp_bind, wp_modify, wp_ret, wp_ret. by apply pf_miss.
  - apply wp_bind, wp_read_addr; [by apply in_ring_valid|]. apply wp_ret, pf_call.
  - apply wp_ret, pf_start.
  - destruct (Hit it eq_refl) as [[key d] Hd]. destruct (Hnodes _ _ _ Hd) as [Hr _].
    unfold Process_begin. apply wp_bind. eapply wp_data; [done|].
    destruct (bool_decide (callbacks d = []) && _) eqn:He; [|assert (kept t d) as Hk; [|destruct (Z.leb_spec (resolved_at d + dns_cache_refresh_period opt_) t)]].
    + apply andb_true_iff in He as [Hc%bool_decide_eq_true _].
      apply wp_bind. unfold erase_node. apply wp_bind. eapply wp_node; [done|].
      apply wp_modify, wp_ret. by eapply pf_erase.
    + apply andb_false_iff in He as [He|He]; [left; by apply bool_decide_eq_false in He|right; by apply Z.leb_gt].
    + by eapply wp_ret, pf_resolve.
    + eapply Process_callbacks_wp; [done..|]. intros f d' Ht. by eapply pf_begin.
  - destruct (Hit it eq_refl) as [[key d] Hd]. apply wp_bind. eapply wp_node; [done|]. apply wp_bind.
    eapply wp_mono; [by apply (ResolveSync_wp min_lvl gai)|].
    intros p s' (Hc & Hn & Hnn & Hok' & Hres). apply wp_ret.
    destruct (query key) as [[host port]|] eqn:Hq; cbn in Hres.
    + destruct (gai host port) as [xs|] eqn:Hg.
      * destruct Hres as (-> & Hni & Hring & Hold). by eapply pf_resolved.
      * destruct Hres as [-> ->]. by eapply pf_failed.
    + destruct Hres as [-> ->]. by eapply pf_failed.
  - destruct (Hit it eq_refl) as [[key d] Hd]. destruct (Hnodes _ _ _ Hd) as [Hr Hu].
    eapply Process_update_wp; [done..| |].
    + intros l ->. by eapply Hup.
    + intros d1 f d' H1 H2. by eapply pf_update.
  - destruct (Hit it eq_refl) as [[key d] Hd]. destruct cbs as [|cb cbs].
    + unfold Process_next. apply wp_bind. eapply wp_data; [done|]. apply wp_ret. by eapply pf_last.
    + apply wp_bind, wp_Advance; [by apply in_ring_valid|]. apply wp_bind, wp_read_addr; [by apply in_ring_valid|].
      apply wp_ret, pf_callback.
Qed.
End outcomes.

(** ** Theorems *)

Lemma on_ring_iter m l xs i p k : on_ring m l xs i p → on_ring m l xs (i + k) (Nat.iter k (next_of m) p).
Proof.
  intros Hr. induction k as [|k IH]; [by rewrite Nat.add_0_r|].
  rewrite Nat.iter_succ, Nat.add_succ_r. by apply on_ring_next.
Qed.

(** [ResolveSync] returns, whatever [getaddrinfo] answers: null for a key
    without a colon and for an error; otherwise the head of a ring of the
    addresses, in their order, that one can go round for ever - the i-th from
    the head is the i-th of the list, modulo its length. It allocates and
    changes nothing else, prints the list before it is a ring, and hands the
    deleter the last node. *)
Lemma ResolveSync_correct min_lvl gai key s :
  AddrInfoLaws gai → infos_ok s →
  ∃ p s', ResolveSync min_lvl gai key s = Done (p, s') ∧ cache_ s' = cache_ s ∧ nodes s' = nodes s ∧ infos_ok s' ∧
    (∀ k, k < next_info s → infos s' !! k = infos s !! k) ∧
    match query key ≫= λ '(host, port), gai host port with
    | None => p = None ∧ s' = s
    | Some xs => p = Some (next_info s, next_info s + pred (length xs)) ∧
        ∀ i, let q := Nat.iter i (next_of (infos s')) (fst <$> p) in
          q = Some (next_info s + i mod length xs) ∧
          (l ← q; info_data <$> infos s' !! l) = xs !! (i mod length xs)
    end.
Proof.
  intros Hg Hok. destruct (wp_Done _ _ _ (ResolveSync_wp min_lvl gai key s Hok)) as (p & s' & Hr & Hc & Hn & _ & Hok' & Hm).
  exists p, s'. destruct (query key ≫= _) as [xs|].
  - destruct Hm as (-> & _ & Hring & Hold). split_and_all; [done..|]. intros i. cbn [fmap option_fmap option_map fst].
    pose proof (on_ring_iter _ _ _ 0 _ i (on_ring_head _ _ _ Hring)) as Hi. cbn [Nat.add] in Hi.
    destruct (on_ring_lookup _ _ _ _ _ Hi) as (x & Hx & Hl). destruct Hi as [_ Hi].
    split; [done|]. rewrite Hi, Hx. cbn. by rewrite Hl.
  - destruct Hm as [-> ->]. by split_and_all.
Qed.

(** C25: What [ProcessCacheEntry] does with the addresses it has resolved: it
    terminates; the entry's place in the new ring is as far on as the old
    address has been used since the last resolution, modulo the length of the
    ring, so that the addresses go on being used in turn; callbacks that wait
    get the addresses from there, and the place is moved on past theirs. *)
Theorem Process_update_correct opt t it key d l xs s :
  nodes s !! it = Some (key, d) → in_ring (infos s) (addr d) → (0 ≤ use_count d)%Z → ring (infos s) l xs →
  let u := Z.to_nat (use_count d) in let k := length (callbacks d) in
  ∃ f d', Process_update opt t it (Some l) s = Done (f, put_data it key d' s) ∧
    callbacks d' = [] ∧ resolved_at d' = t ∧ successfully_resolved_at d' = t ∧
    use_count d' = Z.of_nat k ∧ addr d' = Some (l + (u + k) mod length xs) ∧
    f = match callbacks d with
        | [] => then_schedule (Z.min (t + dns_cache_refresh_period opt) (used_at d + dns_cache_refresh_duration opt)) it
        | _ => then_ (ACallbacks it (callbacks d) (Some (l + u mod length xs)))
        end.
Proof.
  intros Hn Hr Hu Hl u k.
  assert (wp (Process_update opt t it (Some l)) (λ f s', ∃ d1 d', s' = put_data it key d' s ∧
    updated t (infos s) d (Some l) d1 ∧ tail_outcome opt t it (infos s) d1 f d') s) as Hwp.
  { eapply Process_update_wp; [done..| |].
    - intros ? [= <-]. by exists xs.
    - intros d1 f d' H1 H2. by exists d1, d'. }
  apply wp_Done in Hwp as (f & s' & Hdone & d1 & d' & -> & Hup & Ht).
  exists f, d'. split; [done|].
  inversion Hup as [|? xs' Hl']; subst u k d1 l0. rewrite (ring_inj _ _ _ _ Hl' Hl) in *. clear Hup Hl'.
  destruct Ht as [Hnil|Hne]; cbn [callbacks set_use_count set_addr set_successfully_resolved_at set_resolved_at] in *.
  - cbn. rewrite Hnil. cbn. rewrite Nat.add_0_r. by split_and_all.
  - match goal with |- context [Nat.iter ?k _ ?d] => set (n := k); set (d1 := d) end.
    destruct (iter_used (infos s) t n d1) as (H1 & H2 & H3 & H4 & H5).
    assert (on_ring (infos s) l xs (Z.to_nat (use_count d)) (addr d1)) as Hu1 by by split.
    destruct (on_ring_iter _ _ _ _ _ n Hu1) as [_ Hk].
    rewrite H1, H2, H3, H4, H5, Hk. split_and_all; try done. by destruct (callbacks d).
Qed.

(** C27: [Resolve], on every branch: a new key gets an entry and its task; a
    callback for a key that is being resolved waits; and for one that has been
    resolved the answer is immediate, and is the address of the entry if it is
    fresh and null otherwise, and the entry moves on to its next address. *)
Theorem Resolve_correct opt now hp cb s :
  (∀ it, cache_ s !! hp = Some it → ∃ d, nodes s !! it = Some (hp, d) ∧ in_ring (infos s) (addr d)) →
  match cache_ s !! hp with
  | None => Resolve opt now hp cb s = Done (then_schedule now (next_node s),
      mkDns (<[hp := next_node s]> (cache_ s)) (<[next_node s := (hp, mkData [cb] None 0 0 0 0)]> (nodes s))
        (S (next_node s)) (infos s) (next_info s))
  | Some it => ∃ d, nodes s !! it = Some (hp, d) ∧ Resolve opt now hp cb s =
      if decide (callbacks d = []) then
        Done (then_ (ACall cb (if (now <? successfully_resolved_at d + dns_cache_ttl opt)%Z then addr d else None)),
          put_data it hp (mkData [] (next_of (infos s) (addr d)) (Z.max (used_at d) now) (resolved_at d)
            (successfully_resolved_at d) (use_count d + 1)) s)
      else Done (no_effects, put_data it hp (set_callbacks (callbacks d ++ [cb]) d) s)
  end.
Proof.
  intros Hc. destruct (cache_ s !! hp) as [it|] eqn:Hhp.
  - destruct (Hc it eq_refl) as (d & Hd & Hr). exists d. split; [done|].
    assert (∀ r, wp (Resolve opt now hp cb) (λ f s', r = Done (f, s')) s → Resolve opt now hp cb s = r) as Hrun
      by (by intros r (f & s' & -> & ->)%wp_Done).
    apply Hrun. unfold Resolve, find_node. apply wp_bind, wp_gets. rewrite Hhp. apply wp_bind. eapply wp_data; [done|].
    case_decide as Hcb; [rewrite bool_decide_eq_true_2 by done|rewrite bool_decide_eq_false_2 by done]; cbn [negb]; apply wp_bind.
    + eapply Use_wp; [done|by apply in_ring_valid|]. apply wp_ret. unfold used, set_used_at, set_addr, set_use_count. cbn. by rewrite Hcb.
    + eapply wp_upd_data; [done|]. by apply wp_ret.
  - unfold Resolve, find_node. erewrite bind_Done by done. rewrite Hhp. done.
Qed.

(** ** An example *)
Module DnsExample.
Local Open Scope Z_scope.

Definition key : bytes := B "example.org:443".
Definition address (n : N) : addrinfo := mkAddrinfo AF_INET (Some (mkSockaddr AF_INET (10, 0, 0, n)%N 0xBB01%N)).

(** A system that knows one host, which has three addresses. *)
Definition gai (host port : bytes) : option (list addrinfo) :=
  if bool_decide (host = B "example.org" ∧ port = B "443") then Some [address 1; address 2; address 3] else None.

#[export] Instance gai_laws : AddrInfoLaws gai.
Proof.
  split; unfold gai; intros host port xs; case_bool_decide; intros [= <-]; [done|].
  repeat constructor; eexists; split; done.
Qed.

Example it_splits : query key = Some (B "example.org", B "443").
Proof. by vm_compute. Qed.
(** A NUL ends the text for [strchr]. *)
Example it_stops_at_NUL : query (B "example" ++ NUL :: B ".org:443") = None.
Proof. by vm_compute. Qed.

Definition s1 : Dns := after (Resolve dns_defaults 100 key 7) DnsResolver_new.
Definition s2 : Dns := after (ResolveSync INFO gai key) s1.
Definition waiting : CacheData := mkData [7%nat] None 0 0 0 0.
Definition infos2 : gmap nat info := infos s2.

Lemma s2_ring : ring infos2 0 [address 1; address 2; address 3].
Proof. split; [done|]. intros i x Hi. by destruct i as [|[|[|i]]]; cbn in Hi; simplify_eq; vm_compute. Qed.

(** The list, printed before it is a ring. *)
Example it_describes : ∃ s', (l ← alloc_chain [address 1; address 2]; Describe 3 l (Some l)) s1 =
  Done (B "10.0.0.1:443, 10.0.0.2:443", s').
Proof. eexists. by vm_compute. Qed.

(** An entry whose addresses have been used five times; two callbacks wait. *)
Definition busy : CacheData := mkData [8%nat; 9%nat] None 100 0 0 5.
Definition s3 : Dns := put_data 0 key busy s2.
End DnsExample.

Lemma Process_update_correct_witness :
  ∃ f d', Process_update dns_defaults (seconds 100) 0 (Some 0) DnsExample.s3 =
      Done (f, put_data 0 DnsExample.key d' DnsExample.s3) ∧
    addr d' = Some 1 ∧ f = then_ (ACallbacks 0 [8; 9] (Some 2)).
Proof.
  destruct (Process_update_correct dns_defaults (seconds 100) 0 DnsExample.key DnsExample.busy 0
    [DnsExample.address 1; DnsExample.address 2; DnsExample.address 3] DnsExample.s3
    eq_refl (or_introl eq_refl) ltac:(done) DnsExample.s2_ring) as (f & d' & Hr & _ & _ & _ & _ & Ha & Hf).
  exists f, d'. split; [exact Hr|]. rewrite Ha, Hf. by vm_compute.
Defined.

Lemma Resolve_correct_witness :
  Resolve dns_defaults 200 DnsExample.key 8 DnsExample.s1 =
    Done (no_effects, put_data 0 DnsExample.key (mkData [7; 8] None 0 0 0 0) DnsExample.s1).
Proof.
  assert (∀ it, cache_ DnsExample.s1 !! DnsExample.key = Some it →
    ∃ d, nodes DnsExample.s1 !! it = Some (DnsExample.key, d) ∧ in_ring (infos DnsExample.s1) (addr d)) as Hc.
  { intros it Hit. exists DnsExample.waiting. vm_compute in Hit. injection Hit as <-. split; [by vm_compute|by left]. }
  destruct (Resolve_correct dns_defaults 200 DnsExample.key 8 DnsExample.s1 Hc) as (d & Hd & ->).
  vm_compute in Hd. injection Hd as <-. by vm_compute.
Defined.

(** An entry that has not been resolved has [resolved_at] 0, the clock's
    beginning - on a steady clock, the machine's: during the first
    [dns_cache_refresh_period] after it [ProcessCacheEntry] does not resolve a
    new entry, and its callbacks get null. *)
Lemma unresolved_at_boot opt t it hp cb s :
  nodes s !! it = Some (hp, set_callbacks [cb] CacheData_new) → (t < dns_cache_refresh_period opt)%Z →
  ∃ s', Process_begin opt t it s = Done (then_ (ACallbacks it [cb] None), s').
Proof.
  intros Hn Ht. assert (wp (Process_begin opt t it) (λ f _, f = then_ (ACallbacks it [cb] None)) s) as (f & s' & ? & ->)%wp_Done.
  { unfold Process_begin. apply wp_bind. eapply wp_data; [done|]. cbn [callbacks set_callbacks resolved_at CacheData_new].
    rewrite bool_decide_eq_false_2 by done. cbn [andb]. rewrite (proj2 (Z.leb_gt _ _)) by (cbn; lia).
    eapply Process_callbacks_wp; [done|by left|]. intros f d' Hout. inversion Hout; done. }
  by exists s'.
Qed.
