(* ===== verification/DnsRuns.v ===== *)
(** * The resolver in use

    Threads that call [Resolve] and the tasks of the thread pool, which is any
    executor, take their steps in any order. The invariants of the resolver,
    and that every callback is answered once, with addresses of its own key
    that are fresh. *)

From S2P Require Import Prelude Logging Epoll Addr Executor Dns ThreadPool PoolExecutor.

Section resolver.
Context {E : Type} `{ExecutorLaws E} (opt_ : DnsOptions) (min_lvl : Severity).

(** The resolver; the executor; what threads are about to do; the calls of
    [threads_.Schedule] that they are about to make; the calls of [Resolve],
    with their keys and the time they have read; the callbacks called, with
    their arguments; the answers of [getaddrinfo]. *)
Record conf := mkConf {
  dns : Dns;
  ex : E;
  acts : list act;
  scheduling : list (Time * nat);
  accepted : list (nat * bytes * Time);
  called : list (nat * option addrinfo);
  answers : list answer
}.

Definition dns_init (e : E) : conf := mkConf DnsResolver_new e [] [] [] [] [].

Inductive dns_step : conf → conf → Prop :=
  | ds_resolve c hp cb :
      dns_step c (mkConf (dns c) (ex c) (AResolve (ex_now (ex c)) hp cb :: acts c) (scheduling c)
        ((cb, hp, ex_now (ex c)) :: accepted c) (called c) (answers c))
  | ds_act c a rest gai f s' :
      acts c ≡ₚ a :: rest → AddrInfoLaws gai →
      perform opt_ min_lvl gai (ex_now (ex c)) a (dns c) = Done (f, s') →
      dns_step c (mkConf s' (ex c) (e_acts f ++ rest) (e_schedule f ++ scheduling c) (accepted c)
        (called c ++ e_called f) (answers c ++ e_answers f))
  | ds_schedule c t it rest e' :
      scheduling c ≡ₚ (t, it) :: rest → ex_schedule t it (ex c) e' →
      dns_step c (mkConf (dns c) e' (acts c) rest (accepted c) (called c) (answers c))
  | ds_start c it e' :
      ex_start it (ex c) e' →
      dns_step c (mkConf (dns c) e' (AStart it :: acts c) (scheduling c) (accepted c) (called c) (answers c))
  | ds_silent c e' :
      ex_silent (ex c) e' →
      dns_step c (mkConf (dns c) e' (acts c) (scheduling c) (accepted c) (called c) (answers c)).

(** ** One task for each entry *)

(** The entries that something is to be done for. *)
Definition owners (c : conf) : list nat :=
  (ex_pending (ex c)).*2 ++ (scheduling c).*2 ++ omap act_it (acts c).

Record Owned (c : conf) : Prop := {
  ow_ok : ex_ok (ex c);
  ow_nodup : NoDup (owners c);
  ow_nodes : ∀ it, it ∈ owners c ↔ is_Some (nodes (dns c) !! it);
  ow_next : ∀ it x, nodes (dns c) !! it = Some x → it < next_node (dns c);
  ow_cache : ∀ hp it, cache_ (dns c) !! hp = Some it ↔ ∃ d, nodes (dns c) !! it = Some (hp, d)
}.

(** ** The callbacks *)
Definition act_cbs (a : act) : list nat :=
  match a with
  | AResolve _ _ cb | ACall cb _ => [cb]
  | ACallbacks _ cbs _ => cbs
  | _ => []
  end.
Definition node_cbs (m : gmap nat (bytes * CacheData)) : list nat := map_to_list m ≫= λ x, callbacks x.2.2.

Definition Counted (c : conf) : Prop :=
  (accepted c).*1.*1 ≡ₚ (called c).*1 ++ (acts c ≫= act_cbs) ++ node_cbs (nodes (dns c)).

(** ** Where addresses come from *)

(** The first answer for its entry. *)
Definition first_answer (rs : list answer) (r : answer) : Prop :=
  ∃ l1 l2, rs = l1 ++ r :: l2 ∧ ∀ r', r' ∈ l1 → a_it r' ≠ a_it r.

Definition of_answer (m : gmap nat info) (r : answer) (p : option nat) : Prop :=
  ∃ i, on_ring m (a_head r) (a_addrs r) i p.

(** The answer [r] may be given to the callback [cb]. *)
Definition good_answer (c : conf) (cb : nat) (r : answer) : Prop :=
  r ∈ answers c ∧ ∃ t, (cb, a_key r, t) ∈ accepted c ∧
    (t < a_time r + dns_cache_ttl opt_ ∨ first_answer (answers c) r)%Z.

Definition node_base (c : conf) (it : nat) (key : bytes) (d : CacheData) : Prop :=
  (0 ≤ use_count d)%Z ∧
  (∀ cb, cb ∈ callbacks d → ∃ t, (cb, key, t) ∈ accepted c) ∧
  (addr d = None ∨ ∃ r, r ∈ answers c ∧ a_it r = it ∧ a_key r = key ∧ a_time r = successfully_resolved_at d ∧
    of_answer (infos (dns c)) r (addr d)).
Definition node_ok (c : conf) (it : nat) (key : bytes) (d : CacheData) : Prop :=
  node_base c it key d ∧ (callbacks d ≠ [] → addr d = None).

Definition act_ok (c : conf) (a : act) : Prop :=
  match a with
  | AResolve t hp cb => (cb, hp, t) ∈ accepted c
  | ACall cb p => p = None ∨ ∃ r, good_answer c cb r ∧ of_answer (infos (dns c)) r p
  | AUpdate t it p => p = None ∨ ∃ r, r ∈ answers c ∧ a_it r = it ∧ a_time r = t ∧ p = Some (a_head r)
  | ACallbacks it cbs p => p = None ∨
      ∃ r, of_answer (infos (dns c)) r p ∧ ∀ cb, cb ∈ cbs → good_answer c cb r
  | _ => True
  end.

Definition call_ok (c : conf) (x : nat * option addrinfo) : Prop :=
  ∀ a, x.2 = Some a → ∃ r, good_answer c x.1 r ∧ a ∈ a_addrs r.

Definition answer_ok (c : conf) (r : answer) : Prop :=
  ring (infos (dns c)) (a_head r) (a_addrs r) ∧ a_it r < next_node (dns c) ∧ a_head r < next_info (dns c) ∧
  (is_Some (query (a_key r)) ∧ Forall (λ x, ipv4 x ∧ ai_family x = AF_INET) (a_addrs r)) ∧
  (∀ key d, nodes (dns c) !! a_it r = Some (key, d) → key = a_key r ∧
    (addr d = None → ∃ t, AUpdate t (a_it r) (Some (a_head r)) ∈ acts c)).

Record Fresh (c : conf) : Prop := {
  fr_infos : infos_ok (dns c);
  fr_heads : NoDup (a_head <$> answers c);
  fr_nodes : ∀ it key d, nodes (dns c) !! it = Some (key, d) → node_ok c it key d;
  fr_acts : ∀ a, a ∈ acts c → act_ok c a;
  fr_called : ∀ x, x ∈ called c → call_ok c x;
  fr_answers : ∀ r, r ∈ answers c → answer_ok c r
}.

(** *** Tasks through a step *)

(** The same entries under the same keys. *)
Definition same_keys (s s' : Dns) : Prop :=
  cache_ s' = cache_ s ∧ next_node s' = next_node s ∧
  ∀ it key, (∃ d, nodes s' !! it = Some (key, d)) ↔ ∃ d, nodes s !! it = Some (key, d).

Lemma same_keys_refl s s' : cache_ s' = cache_ s → nodes s' = nodes s → next_node s' = next_node s → same_keys s s'.
Proof. intros H1 H2 H3. unfold same_keys. by rewrite H1, H2, H3. Qed.

Lemma same_keys_put it key d d' s : nodes s !! it = Some (key, d) → same_keys s (put_data it key d' s).
Proof.
  intros Hn. split; [done|]. split; [done|]. intros it' key'. cbn. destruct (decide (it' = it)) as [->|Hne].
  - rewrite lookup_insert_eq, Hn. split; intros [? [= <- _]]; by eexists.
  - by rewrite lookup_insert_ne.
Qed.

Lemma same_keys_some s s' it : same_keys s s' → is_Some (nodes s' !! it) ↔ is_Some (nodes s !! it).
Proof.
  intros (_ & _ & Hk). split; intros [[key d] Hd].
  - destruct (proj1 (Hk it key)) as [d' ?]; eauto.
  - destruct (proj2 (Hk it key)) as [d' ?]; eauto.
Qed.

Lemma Owned_same c c' :
  Owned c → ex_ok (ex c') → owners c' ≡ₚ owners c → same_keys (dns c) (dns c') → Owned c'.
Proof.
  intros [Hok Hnd Hn Hx Hc] Hok' Hp Hk. pose proof Hk as (Hcache & Hnext & Hkeys). split.
  - done.
  - by rewrite Hp.
  - intros it. rewrite Hp, Hn. symmetry. by apply same_keys_some.
  - intros it [key d] Hd. rewrite Hnext. destruct (proj1 (Hkeys it key)) as [d' ?]; eauto.
  - intros hp it. rewrite Hcache, Hc. symmetry. apply Hkeys.
Qed.

(** What an action is about, and what its step leaves to be done. *)
Definition eff_its (f : effects) : list nat := (e_schedule f).*2 ++ omap act_it (e_acts f).

Definition stepped (c : conf) (rest : list act) (f : effects) (s' : Dns) : conf :=
  mkConf s' (ex c) (e_acts f ++ rest) (e_schedule f ++ scheduling c) (accepted c) (called c ++ e_called f) (answers c ++ e_answers f).

Definition others (c : conf) (rest : list act) : list nat :=
  (ex_pending (ex c)).*2 ++ (scheduling c).*2 ++ omap act_it rest.

Lemma owners_before c a rest : acts c ≡ₚ a :: rest → owners c ≡ₚ omap act_it [a] ++ others c rest.
Proof.
  intros Ha. unfold owners, others. rewrite (omap_Permutation act_it _ _ Ha).
  change (a :: rest) with ([a] ++ rest). rewrite omap_app. solve_Permutation.
Qed.

Lemma owners_after c rest f s' : owners (stepped c rest f s') ≡ₚ eff_its f ++ others c rest.
Proof. unfold owners, others, eff_its. cbn. rewrite omap_app, fmap_app. solve_Permutation. Qed.

Lemma tail_its t it m d f d' : tail_outcome opt_ t it m d f d' → eff_its f = [it].
Proof. by destruct 1. Qed.

Lemma performed_Owned c a rest gai now f s' :
  Owned c → acts c ≡ₚ a :: rest → performed opt_ gai now (dns c) a f s' → Owned (stepped c rest f s').
Proof.
  intros HO Ha Hp. pose proof (owners_before c a rest Ha) as Hb. pose proof (owners_after c rest f s') as Haf.
  assert (eff_its f = omap act_it [a] → same_keys (dns c) s' → Owned (stepped c rest f s')) as Hsame.
  { intros He Hk. apply (Owned_same c); [done|apply HO| |done]. by rewrite Haf, Hb, He. }
  destruct HO as [Hok Hnd Hn Hx Hc].
  destruct Hp as [t hp cb Hmiss|t hp cb it d Hd Hcb|t hp cb it d Hd Hcb|cb p|it|t it key d Hd Hcb|t it|
    t it key d f d' Hd Ht|it key d s' Hd (? & ? & ? & _)|it key d host port xs s' Hd ? ? ? _ _ _ _ _ _|
    t it key d p d1 f d' Hd Hu Ht|it cb cbs p|it p d key Hd];
    try (apply Hsame; [first [done|by erewrite tail_its by done]|first [by eapply same_keys_put|by apply same_keys_refl]]).
  - (* a new entry *)
    cbn in Hb, Haf.
    assert (nodes (dns c) !! next_node (dns c) = None) as Hnone.
    { destruct (nodes _ !! _) eqn:En; [|done]. apply Hx in En. lia. }
    assert (next_node (dns c) ∉ others c rest) as Hnew.
    { rewrite <- Hb, Hn. rewrite Hnone. by intros [? ?]. }
    split; cbn [dns stepped ex cache_ nodes next_node].
    + done.
    + rewrite Haf. constructor; [done|]. by rewrite <- Hb.
    + intros i. rewrite Haf. cbn. rewrite elem_of_cons, <- Hb, Hn. destruct (decide (i = next_node (dns c))) as [->|Hne].
      * rewrite lookup_insert_eq. naive_solver.
      * rewrite lookup_insert_ne by done. naive_solver.
    + intros i x [[<- _]|[_ Hi%Hx]]%lookup_insert_Some; lia.
    + intros k i. destruct (decide (k = hp)) as [->|Hk]; [rewrite lookup_insert_eq|rewrite lookup_insert_ne by done].
      * split; [intros [= <-]; rewrite lookup_insert_eq; by eexists|].
        intros [d [[-> _]|[_ Hi]]%lookup_insert_Some]; [done|].
        assert (cache_ (dns c) !! hp = Some i) by (apply Hc; by eexists). congruence.
      * rewrite Hc. destruct (decide (i = next_node (dns c))) as [->|Hne].
        -- rewrite lookup_insert_eq, Hnone. split; [by intros [? ?]|]. intros [? [= ? _]]. congruence.
        -- by rewrite lookup_insert_ne.
  - (* the entry is erased *)
    cbn in Hb, Haf.
    assert (it ∉ others c rest) as Hnot by (rewrite Hb in Hnd; by apply NoDup_cons in Hnd as [? _]).
    split; cbn [dns stepped ex cache_ nodes next_node].
    + done.
    + rewrite Haf. rewrite Hb in Hnd. by apply NoDup_cons in Hnd as [_ ?].
    + intros i. rewrite Haf. cbn. specialize (Hn i). rewrite Hb, elem_of_cons in Hn.
      destruct (decide (i = it)) as [->|Hne].
      * rewrite lookup_delete_eq. split; [done|]. by intros [? ?].
      * rewrite lookup_delete_ne by done. naive_solver.
    + intros i x [_ Hi%Hx]%lookup_delete_Some. done.
    + intros k i. rewrite lookup_delete_Some, Hc. split.
      * intros [Hk [d' Hd']]. exists d'. rewrite lookup_delete_ne; [done|]. intros ->. congruence.
      * intros [d' [Hi Hd']%lookup_delete_Some]. split; [|by eexists]. intros ->.
        assert (cache_ (dns c) !! k = Some i) by (apply Hc; by eexists).
        assert (cache_ (dns c) !! k = Some it) by (apply Hc; by eexists). congruence.
Qed.

(** *** Callbacks through a step *)
Lemma node_cbs_insert it key d m : m !! it = None → node_cbs (<[it := (key, d)]> m) ≡ₚ callbacks d ++ node_cbs m.
Proof. intros Hm. unfold node_cbs. by rewrite map_to_list_insert. Qed.

Lemma node_cbs_delete it key d m : m !! it = Some (key, d) → node_cbs m ≡ₚ callbacks d ++ node_cbs (delete it m).
Proof.
  intros Hm. rewrite <- (insert_delete_id m it (key, d)) at 1 by done.
  by rewrite node_cbs_insert by apply lookup_delete_eq.
Qed.

Lemma node_cbs_update it key d d' m :
  m !! it = Some (key, d) → node_cbs (<[it := (key, d')]> m) ≡ₚ callbacks d' ++ node_cbs (delete it m).
Proof. intros Hm. rewrite <- insert_delete_eq. by rewrite node_cbs_insert by apply lookup_delete_eq. Qed.

Lemma node_cbs_keep it key d d' m :
  m !! it = Some (key, d) → callbacks d' = callbacks d → node_cbs (<[it := (key, d')]> m) ≡ₚ node_cbs m.
Proof. intros Hm Hcb. rewrite (node_cbs_update _ _ _ _ _ Hm), (node_cbs_delete _ _ _ _ Hm). by rewrite Hcb. Qed.

Lemma tail_cbs t it key d0 d f d' (s : Dns) :
  nodes s !! it = Some (key, d0) → callbacks d0 = callbacks d → tail_outcome opt_ t it (infos s) d f d' →
  e_called f = [] ∧ (e_acts f ≫= act_cbs) ++ node_cbs (<[it := (key, d')]> (nodes s)) ≡ₚ node_cbs (nodes s).
Proof.
  intros Hn Hcb [Hnil|Hne]; (split; [done|]); cbn.
  - by apply (node_cbs_keep _ _ d0).
  - rewrite (node_cbs_update _ _ _ _ _ Hn), (node_cbs_delete _ _ _ _ Hn), Hcb.
    destruct (iter_used (infos s) t (length (callbacks d)) (set_callbacks [] d)) as [-> _].
    cbn. solve_Permutation.
Qed.

Lemma updated_cbs t m d p d1 : updated t m d p d1 → callbacks d1 = callbacks d.
Proof. by destruct 1. Qed.

Lemma performed_cbs a gai now s f s' :
  performed opt_ gai now s a f s' → (∀ hp it, cache_ s !! hp = Some it ↔ ∃ d, nodes s !! it = Some (hp, d)) →
  (∀ it x, nodes s !! it = Some x → it < next_node s) →
  (e_called f).*1 ++ (e_acts f ≫= act_cbs) ++ node_cbs (nodes s') ≡ₚ act_cbs a ++ node_cbs (nodes s).
Proof.
  intros Hp Hc Hx.
  destruct Hp as [t hp cb Hmiss|t hp cb it d Hd Hcb|t hp cb it d Hd Hcb|cb p|it|t it key d Hd Hcb|t it|
    t it key d f d' Hd Ht|it key d s' Hd (? & -> & _)|it key d host port xs s' Hd ? -> ? _ _ _ _ _ _|
    t it key d p d1 f d' Hd Hu Ht|it cb cbs p|it p d key Hd]; cbn [act_cbs e_called e_acts then_ then_schedule no_effects]; try done.
  - cbn. rewrite node_cbs_insert; [done|]. destruct (nodes s !! _) eqn:En; [|done]. apply Hx in En. lia.
  - cbn. rewrite (node_cbs_update _ _ _ _ _ Hd), (node_cbs_delete _ _ _ _ Hd). cbn. solve_Permutation.
  - cbn. rewrite (node_cbs_keep _ _ d); done.
  - cbn. rewrite (node_cbs_delete _ _ _ _ Hd), Hcb. done.
  - destruct (tail_cbs _ _ key d d f d' s Hd eq_refl Ht) as [-> ?]. done.
  - apply updated_cbs in Hu. destruct (tail_cbs _ _ key d d1 f d' s Hd (eq_sym Hu) Ht) as [-> ?]. done.
  - cbn. rewrite app_nil_r. done.
Qed.

Lemma performed_Counted c a rest gai now f s' :
  Owned c → Counted c → acts c ≡ₚ a :: rest → performed opt_ gai now (dns c) a f s' → Counted (stepped c rest f s').
Proof.
  intros HO HC Ha Hp. pose proof (performed_cbs _ _ _ _ _ _ Hp (ow_cache _ HO) (ow_next _ HO)) as Hcb.
  unfold Counted in *. cbn [stepped accepted called acts dns]. rewrite HC, Ha, bind_cons, fmap_app, bind_app.
  transitivity ((called c).*1 ++ (rest ≫= act_cbs) ++ act_cbs a ++ node_cbs (nodes (dns c))); [solve_Permutation|].
  rewrite <- Hcb. solve_Permutation.
Qed.

(** *** Addresses through a step *)

(** What later steps keep. *)
Record extends (c c' : conf) : Prop := {
  xt_answers : ∃ rs, answers c' = answers c ++ rs;
  xt_accepted : ∀ x, x ∈ accepted c → x ∈ accepted c';
  xt_rings : ∀ l xs, ring (infos (dns c)) l xs → ring (infos (dns c')) l xs;
  xt_nodes : next_node (dns c) ≤ next_node (dns c');
  xt_infos : next_info (dns c) ≤ next_info (dns c')
}.

Lemma extends_answer c c' r : extends c c' → r ∈ answers c → r ∈ answers c'.
Proof. intros [[rs ->] _ _ _ _] Hr. apply elem_of_app. by left. Qed.

Lemma extends_accepted c c' x : extends c c' → x ∈ accepted c → x ∈ accepted c'.
Proof. intros [_ Ha _ _ _]. apply Ha. Qed.

Lemma extends_first c c' r : extends c c' → first_answer (answers c) r → first_answer (answers c') r.
Proof.
  intros [[rs ->] _ _ _ _] (l1 & l2 & -> & Hl). exists l1, (l2 ++ rs). by rewrite <- (assoc_L (++)).
Qed.

Lemma of_answer_mono c c' r p : extends c c' → of_answer (infos (dns c)) r p → of_answer (infos (dns c')) r p.
Proof. intros Hx [i [Hr Hp]]. exists i. split; [|done]. by apply (xt_rings _ _ Hx). Qed.
Hint Resolve extends_answer extends_accepted extends_first of_answer_mono : kept.

Lemma good_answer_mono c c' cb r : extends c c' → good_answer c cb r → good_answer c' cb r.
Proof. intros Hx (Hr & t & Ht & Hf). split; [|exists t; split; [|destruct Hf; [by left|right]]]; eauto with kept. Qed.
Hint Resolve good_answer_mono : kept.

Lemma node_base_mono c c' it key d : extends c c' → node_base c it key d → node_base c' it key d.
Proof.
  intros Hx (Hu & Hcb & Ha). split; [done|]. split.
  - intros cb [t Ht]%Hcb. eauto with kept.
  - destruct Ha as [?|(r & Hr & ? & ? & ? & Ho)]; [by left|right]. exists r. split_and!; eauto with kept.
Qed.

Lemma act_ok_mono c c' a : extends c c' → act_ok c a → act_ok c' a.
Proof.
  intros Hx. destruct a; cbn; [eauto with kept|..]; try done;
    (intros [?|(r & H1 & H2)]; [by left|right; exists r; eauto with kept]).
Qed.

Lemma call_ok_mono c c' x : extends c c' → call_ok c x → call_ok c' x.
Proof. intros Hx Hc a Ha. destruct (Hc a Ha) as (r & Hg & ?). eauto with kept. Qed.
Hint Resolve node_base_mono act_ok_mono call_ok_mono : kept.

Lemma of_answer_next m r p k : of_answer m r p → of_answer m r (Nat.iter k (next_of m) p).
Proof.
  intros [i Hi]. exists (k + i). induction k as [|k IH]; [done|]. rewrite Nat.iter_succ. cbn [Nat.add]. by apply on_ring_next.
Qed.

Lemma of_answer_some m r p : of_answer m r p → p ≠ None.
Proof. by intros [i [_ ->]]. Qed.

Lemma next_None m k : Nat.iter k (next_of m) None = None.
Proof. induction k as [|k IH]; [done|]. by rewrite Nat.iter_succ, IH. Qed.

Lemma of_answer_read m r p x : of_answer m r p → (l ← p; info_data <$> m !! l) = Some x → x ∈ a_addrs r.
Proof.
  intros [i Hr]. destruct (on_ring_lookup _ _ _ _ _ Hr) as (y & Hy & Hm). destruct Hr as [_ ->].
  cbn. rewrite Hm. intros [= <-]. by eapply list_elem_of_lookup_2.
Qed.

Lemma node_base_in_ring c it key d : node_base c it key d → in_ring (infos (dns c)) (addr d).
Proof.
  intros (_ & _ & [->|(r & _ & _ & _ & _ & i & Hr)]); [by left|]. right. by exists (a_head r), (a_addrs r), i.
Qed.

(** The end of [ProcessCacheEntry]: no callback is left, the address is of the
    same answer. *)
Lemma tail_node_ok c it key t d f d' :
  node_base c it key d → tail_outcome opt_ t it (infos (dns c)) d f d' →
  node_ok c it key d' ∧ (addr d' = None → addr d = None).
Proof.
  intros Hb [Hnil|Hne]; [by split; [split|]|].
  destruct (iter_used (infos (dns c)) t (length (callbacks d)) (set_callbacks [] d)) as (H1 & _ & H3 & H4 & H5).
  destruct Hb as (Hu & Hcb & Ha). unfold node_ok, node_base. rewrite H1, H3, H4, H5. cbn. split_and_all.
  - lia.
  - by intros cb ?%elem_of_nil.
  - destruct Ha as [->|(r & Hr & ? & ? & ? & Ho)]; [left; apply next_None|right]. exists r.
    split_and_all; try done. by apply of_answer_next.
  - done.
  - destruct Ha as [->|(r & _ & _ & _ & _ & Ho)]; [done|]. intros Hn.
    by apply (of_answer_next _ _ _ (length (callbacks d))), of_answer_some in Ho.
Qed.

Lemma ring_old (s s' : Dns) l xs :
  infos_ok s → (∀ k, k < next_info s → infos s' !! k = infos s !! k) → ring (infos s) l xs → ring (infos s') l xs.
Proof.
  intros Hok Hold [Hne Hr]. split; [done|]. intros i x Hi. pose proof (Hr i x Hi) as Hm.
  rewrite Hold; [done|]. by eapply Hok.
Qed.

Lemma stepped_extends c a rest gai now f s' :
  infos_ok (dns c) → performed opt_ gai now (dns c) a f s' → extends c (stepped c rest f s').
Proof.
  intros Hok Hp. assert (∃ rs, answers (stepped c rest f s') = answers c ++ rs) by (by eexists).
  split; [done|done|..].
  - intros l xs. destruct Hp as [| | | | | | | |it key d s' _ (_ & _ & _ & Hi & _)|
      it key d host port xs' s' _ _ _ _ _ _ _ _ _ Hold| | |]; cbn; [done..| | |done|done|done].
    + by rewrite Hi.
    + by apply ring_old.
  - cbn. destruct Hp as [| | | | | | | |it key d s' _ (_ & _ & -> & _)|it key d host port xs' s' _ _ _ ->| | |]; cbn; lia.
  - cbn. destruct Hp as [| | | | | | | |it key d s' _ (_ & _ & _ & _ & ->)|it key d host port xs' s' _ _ _ _ _ _ _ ->| | |]; cbn; lia.
Qed.

(** The data after a resolution; the address is of its answer. *)
Lemma updated_base c it key d t p d1 :
  node_ok c it key d → act_ok c (AUpdate t it p) → (∀ r, r ∈ answers c → a_it r = it → a_key r = key) →
  (∀ r, r ∈ answers c → ring (infos (dns c)) (a_head r) (a_addrs r)) →
  updated t (infos (dns c)) d p d1 →
  node_base c it key d1 ∧ (addr d1 = None → addr d = None ∧ p = None) ∧
  (p ≠ None → ∃ r, r ∈ answers c ∧ a_it r = it ∧ p = Some (a_head r) ∧ of_answer (infos (dns c)) r (addr d1)).
Proof.
  intros [(Hu & Hcb & Ha) _] Hact Hkey Hring Hup. destruct Hup as [|l xs Hl]; [by split_and_all|].
  destruct Hact as [?|(r & Hr & Hit & Ht & [= ->])]; [done|].
  assert (of_answer (infos (dns c)) r (Some (a_head r + Z.to_nat (use_count d) mod length xs))) as Ho.
  { exists (Z.to_nat (use_count d)). split; [by apply Hring|].
    by rewrite (ring_inj _ _ _ _ Hl (Hring r Hr)). }
  split_and_all; [|done|].
  - unfold node_base. split_and_all; [done|done|]. right. exists r. split_and_all; try done. by apply Hkey.
  - intros _. by exists r.
Qed.

Lemma answers_key c it key d r :
  Fresh c → nodes (dns c) !! it = Some (key, d) → r ∈ answers c → a_it r = it → a_key r = key.
Proof. intros HF Hd Hr <-. destruct (fr_answers _ HF r Hr) as (_ & _ & _ & _ & Hk). by destruct (Hk _ _ Hd). Qed.

Lemma answers_ring c r : Fresh c → r ∈ answers c → ring (infos (dns c)) (a_head r) (a_addrs r).
Proof. intros HF Hr. by destruct (fr_answers _ HF r Hr) as (? & _). Qed.

(** The data of an entry at the end of [ProcessCacheEntry], from its beginning
    or after a resolution. *)
Lemma update_step c t it key d p d1 f d' :
  Fresh c → nodes (dns c) !! it = Some (key, d) → act_ok c (AUpdate t it p) →
  updated t (infos (dns c)) d p d1 → tail_outcome opt_ t it (infos (dns c)) d1 f d' →
  node_ok c it key d' ∧ (addr d' = None → addr d = None ∧ p = None).
Proof.
  intros HF Hd Hact Hu Ht.
  destruct (updated_base c it key d t p d1) as (Hb & Hn & _); try done.
  - by eapply fr_nodes.
  - intros r Hr Hit. by eapply answers_key.
  - intros r Hr. by apply answers_ring.
  - destruct (tail_node_ok c it key t d1 f d' Hb Ht) as [Hok Ha]. split; [done|]. intros H1%Ha. by apply Hn.
Qed.

Lemma performed_nodes c a rest gai now f s' it key d :
  Fresh c → act_ok c a → performed opt_ gai now (dns c) a f s' →
  nodes s' !! it = Some (key, d) →
  nodes (dns c) !! it = Some (key, d) ∨ node_ok (stepped c rest f s') it key d.
Proof.
  intros HF Hact Hp. pose proof (stepped_extends c a rest gai now f s' (fr_infos _ HF) Hp) as Hx.
  assert (∀ it key d0 d', (nodes (dns c) !! it = Some (key, d0) → node_ok c it key d') →
    ∀ i k d, nodes (dns c) !! it = Some (key, d0) → <[it := (key, d')]> (nodes (dns c)) !! i = Some (k, d) →
    nodes (dns c) !! i = Some (k, d) ∨ node_ok (stepped c rest f s') i k d) as Hput.
  { intros i0 k0 d0 d' Hok i k d1 Hd0 [[<- [= <- <-]]|[_ ?]]%lookup_insert_Some; [right|by left].
    destruct (Hok Hd0) as [Hb Hw]. split; [|done]. by eapply node_base_mono. }
  destruct Hp as [t hp cb Hmiss|t hp cb i0 d0 Hd Hcb|t hp cb i0 d0 Hd Hcb|cb p|i0|t i0 key0 d0 Hd Hcb|t i0|
    t i0 key0 d0 f d' Hd Ht|i0 key0 s' ? Hd (_ & -> & _)|i0 key0 d0 host port xs s' Hd _ -> _ _ _ _ _ _ _|
    t i0 key0 d0 p d1 f d' Hd Hu Ht|i0 cb cbs p|i0 p d0 key0 Hd]; cbn [nodes put_data]; try by left.
  - intros [[<- [= <- <-]]|[_ ?]]%lookup_insert_Some; [right|by left].
    split; [|done]. unfold node_base. cbn. split_and_all; [done| |by left].
    intros cb' ->%list_elem_of_singleton. by exists t.
  - apply (Hput _ _ d0); [|done]. intros _. pose proof (fr_nodes _ HF _ _ _ Hd) as [(Hu & Hcbs & Ha) Hw].
    unfold node_ok, node_base. cbn. split_and_all; [done| |done|].
    + intros cb' [?| ->%list_elem_of_singleton]%elem_of_app; [by apply Hcbs|by exists t].
    + intros _. by apply Hw.
  - apply (Hput _ _ d0); [|done]. intros _. pose proof (fr_nodes _ HF _ _ _ Hd) as [(Hu & Hcbs & Ha) Hw].
    unfold node_ok, node_base. cbn. rewrite Hcb in *. split_and_all; [lia|done| |done].
    destruct Ha as [->|(r & Hr & ? & ? & ? & Ho)]; [by left|right]. exists r. split_and_all; try done.
    by apply (of_answer_next _ _ _ 1).
  - intros [_ ?]%lookup_delete_Some. by left.
  - apply (Hput _ _ d0); [|done]. intros _. pose proof (fr_nodes _ HF _ _ _ Hd) as [Hb _].
    by eapply tail_node_ok.
  - apply (Hput _ _ d0); [|done]. intros _. by eapply update_step.
Qed.

(** Only one thing is to be done for an entry. *)
Lemma one_owner c a rest b it :
  Owned c → acts c ≡ₚ a :: rest → act_it a = Some it → b ∈ acts c → act_it b = Some it → b = a.
Proof.
  intros HO Ha Hit Hb Hitb. rewrite Ha in Hb. apply elem_of_cons in Hb as [?|Hb]; [done|exfalso].
  pose proof (ow_nodup _ HO) as Hnd. rewrite (owners_before _ _ _ Ha) in Hnd. cbn in Hnd. rewrite Hit in Hnd.
  apply NoDup_cons in Hnd as [Hnot _]. apply Hnot. unfold others. rewrite !elem_of_app. right; right.
  apply list_elem_of_omap. by exists b.
Qed.

(** The answer that callbacks wait for is the first for their entry. *)
Lemma awaited_first c a rest it key d t r :
  Owned c → Fresh c → acts c ≡ₚ a :: rest → a = AUpdate t it (Some (a_head r)) → r ∈ answers c → a_it r = it →
  nodes (dns c) !! it = Some (key, d) → addr d = None → first_answer (answers c) r.
Proof.
  intros HO HF Ha Heq Hr Hit Hd Hnone. destruct (list_elem_of_split _ _ Hr) as (l1 & l2 & Hl).
  exists l1, l2. split; [done|]. intros r' Hr' Hit'.
  assert (r' ∈ answers c) as Hin by (rewrite Hl; apply elem_of_app; by left).
  destruct (fr_answers _ HF r' Hin) as (_ & _ & _ & _ & Hk). rewrite Hit', Hit in Hk.
  destruct (Hk _ _ Hd) as [_ Hk']. destruct (Hk' Hnone) as [t' Ht'].
  assert (AUpdate t' it (Some (a_head r')) = a) as Hsame by (by eapply one_owner; [done|done|subst a; done|..]).
  subst a. injection Hsame as _ Hhead.
  pose proof (fr_heads _ HF) as Hnd. rewrite Hl, fmap_app, fmap_cons in Hnd.
  apply NoDup_middle in Hnd as [Hnot _]. apply Hnot. rewrite <- Hhead. by apply list_elem_of_fmap_2.
Qed.

Lemma tail_acts c t it d f d' b :
  tail_outcome opt_ t it (infos (dns c)) d f d' → b ∈ e_acts f →
  callbacks d ≠ [] ∧ b = ACallbacks it (callbacks d) (addr d).
Proof. by intros [|?] Hb; [apply elem_of_nil in Hb|apply list_elem_of_singleton in Hb]. Qed.

Lemma performed_acts c a rest gai now f s' b :
  Owned c → Fresh c → acts c ≡ₚ a :: rest → performed opt_ gai now (dns c) a f s' →
  b ∈ e_acts f → act_ok (stepped c rest f s') b.
Proof.
  intros HO HF Ha Hp. pose proof (stepped_extends c a rest gai now f s' (fr_infos _ HF) Hp) as Hx.
  assert (act_ok c a) as Hact by (apply (fr_acts _ HF); rewrite Ha; by left).
  destruct Hp as [t hp cb Hmiss|t hp cb i0 d0 Hd Hcb|t hp cb i0 d0 Hd Hcb|cb p|i0|t i0 key0 d0 Hd Hcb|t i0|
    t i0 key0 d0 f d' Hd Ht|i0 key0 d0 s' Hd Hs|i0 key0 d0 host port xs s' Hd _ _ _ _ _ _ _ _ _|
    t i0 key0 d0 p d1 f d' Hd Hu Ht|i0 cb cbs p|i0 p d0 key0 Hd]; cbn [e_acts no_effects then_ then_schedule];
    try (by intros ?%elem_of_nil); try (by intros ->%list_elem_of_singleton).
  - intros ->%list_elem_of_singleton. apply (act_ok_mono c); [done|]. cbn.
    destruct (Z.ltb_spec t (successfully_resolved_at d0 + dns_cache_ttl opt_)) as [Hlt|]; [|by left].
    destruct (fr_nodes _ HF _ _ _ Hd) as [(_ & _ & [?|(r & Hr & Hit & Hkey & Htime & Ho)]) _]; [by left|right].
    exists r. split; [|done]. split; [done|]. exists t. rewrite Hkey. split; [done|]. left. lia.
  - intros Hb. destruct (tail_acts _ _ _ _ _ _ _ Ht Hb) as [Hne ->]. left.
    by apply (fr_nodes _ HF _ _ _ Hd).
  - intros ->%list_elem_of_singleton. by left.
  - intros ->%list_elem_of_singleton. right. eexists. split; [apply elem_of_app; right; by left|]. done.
  - intros Hb. destruct (tail_acts _ _ _ _ _ _ _ Ht Hb) as [Hne ->]. pose proof (updated_cbs _ _ _ _ _ Hu) as Hcbs.
    destruct (fr_nodes _ HF _ _ _ Hd) as [Hbase Hnone]. rewrite Hcbs in *. specialize (Hnone Hne).
    destruct (updated_base c i0 key0 d0 t p d1) as (_ & _ & Hsome); try done.
    { intros r Hr Hit. by eapply answers_key. }
    { intros r Hr. by apply answers_ring. }
    apply (act_ok_mono c); [done|]. cbn. destruct p as [l|]; [right|left].
    + destruct Hsome as (r & Hr & Hit & [= ->] & Ho); [done|]. exists r. split; [done|].
      intros cb Hcb. split; [done|]. destruct Hbase as (_ & Hacc & _). destruct (Hacc cb Hcb) as [t' Ht'].
      exists t'. split; [by rewrite (answers_key c i0 key0 d0 r)|]. right. by eapply awaited_first.
    + inversion Hu. subst. done.
  - intros ->%list_elem_of_singleton. apply (act_ok_mono c); [done|]. cbn.
    destruct Hact as [->|(r & Ho & Hg)]; [by left|right]. exists r. split; [by apply (of_answer_next _ _ _ 1)|].
    intros cb' Hcb. apply Hg. by right.
Qed.

Lemma performed_called c a rest gai now f s' x :
  Fresh c → act_ok c a → performed opt_ gai now (dns c) a f s' → x ∈ e_called f → call_ok (stepped c rest f s') x.
Proof.
  intros HF Hact Hp. pose proof (stepped_extends c a rest gai now f s' (fr_infos _ HF) Hp) as Hx.
  destruct Hp as [| | |cb p| | | |t i0 key0 d0 f d' Hd Ht| | |t i0 key0 d0 p d1 f d' Hd Hu Ht|i0 cb cbs p|];
    try (by intros ?%elem_of_nil); try (by destruct Ht; intros ?%elem_of_nil);
    intros ->%list_elem_of_singleton y Hy; cbn [fst snd] in *.
  - destruct Hact as [->|(r & Hg & Ho)]; [done|]. exists r. split; [by eapply good_answer_mono|by eapply of_answer_read].
  - destruct Hact as [->|(r & Ho & Hg)]; [done|]. exists r. split; [|by eapply of_answer_read].
    eapply good_answer_mono, Hg; [done|]. by left.
Qed.

(** An entry without an address for which there is an answer: the answer is
    about to be stored. *)
Lemma still_known c a rest f r key d :
  Fresh c → acts c ≡ₚ a :: rest → r ∈ answers c → nodes (dns c) !! a_it r = Some (key, d) → addr d = None →
  (∀ t, a ≠ AUpdate t (a_it r) (Some (a_head r))) →
  ∃ t, AUpdate t (a_it r) (Some (a_head r)) ∈ e_acts f ++ rest.
Proof.
  intros HF Ha Hr Hd Hnone Hne. destruct (fr_answers _ HF r Hr) as (_ & _ & _ & _ & Hk).
  destruct (Hk _ _ Hd) as [_ Hk']. destruct (Hk' Hnone) as [t Ht]. exists t. apply elem_of_app. right.
  rewrite Ha in Ht. apply elem_of_cons in Ht as [<-|?]; [by destruct (Hne t)|done].
Qed.

Lemma performed_known c a rest gai now f s' r key d :
  Fresh c → Owned c → acts c ≡ₚ a :: rest → performed opt_ gai now (dns c) a f s' → r ∈ answers c →
  nodes s' !! a_it r = Some (key, d) →
  key = a_key r ∧ (addr d = None → ∃ t, AUpdate t (a_it r) (Some (a_head r)) ∈ e_acts f ++ rest).
Proof.
  intros HF HO Ha Hp Hr.
  assert (act_ok c a) as Hact by (apply (fr_acts _ HF); rewrite Ha; by left).
  assert ((∀ t, a ≠ AUpdate t (a_it r) (Some (a_head r))) → nodes (dns c) !! a_it r = Some (key, d) →
    key = a_key r ∧ (addr d = None → ∃ t, AUpdate t (a_it r) (Some (a_head r)) ∈ e_acts f ++ rest)) as Hold.
  { intros Hne Hd. split; [by erewrite (answers_key c)|]. intros Hnone. by eapply still_known. }
  assert (∀ it key0 d0 d', nodes (dns c) !! it = Some (key0, d0) →
    (addr d' = None → addr d0 = None ∧ ∀ t, a ≠ AUpdate t it (Some (a_head r))) →
    (∀ t i p, a = AUpdate t i p → i = it) →
    <[it := (key0, d')]> (nodes (dns c)) !! a_it r = Some (key, d) →
    key = a_key r ∧ (addr d = None → ∃ t, AUpdate t (a_it r) (Some (a_head r)) ∈ e_acts f ++ rest)) as Hput.
  { intros it key0 d0 d' Hd0 Hnone Hup [[Hit [= <- <-]]|[Hne Hd]]%lookup_insert_Some.
    - subst it. split; [by erewrite (answers_key c)|]. intros [Hn Hna]%Hnone. by eapply still_known.
    - apply Hold; [|done]. intros t Heq. apply Hne. symmetry. by eapply Hup. }
  assert (∀ it key0 d0 k, nodes (dns c) !! it = Some (key0, d0) → Nat.iter k (next_of (infos (dns c))) (addr d0) = None →
    addr d0 = None) as Hiter.
  { intros it key0 d0 k Hd0 Hk. destruct (fr_nodes _ HF _ _ _ Hd0) as [(_ & _ & [?|(r' & _ & _ & _ & _ & Ho)]) _]; [done|].
    by apply (of_answer_next _ _ _ k), of_answer_some in Ho. }
  destruct Hp as [t hp cb Hmiss|t hp cb i0 d0 Hd Hcb|t hp cb i0 d0 Hd Hcb|cb p|i0|t i0 key0 d0 Hd Hcb|t i0|
    t i0 key0 d0 f d' Hd Ht|i0 key0 d0 s' Hd (_ & -> & _)|i0 key0 d0 host port xs s' Hd _ -> _ _ _ _ _ _ _|
    t i0 key0 d0 p d1 f d' Hd Hu Ht|i0 cb cbs p|i0 p d0 key0 Hd]; cbn [nodes put_data];
    try (apply Hold; by intros ? [=]).
  - intros [[Hit _]|[_ Hd]]%lookup_insert_Some; [|apply Hold; [by intros ? [=]|done]].
    destruct (fr_answers _ HF r Hr) as (_ & Hlt & _). lia.
  - apply (Hput _ _ _ _ Hd); [|by intros ??? [=]]. intros Hn. split; [done|by intros ? [=]].
  - apply (Hput _ _ _ _ Hd); [|by intros ??? [=]]. intros Hn. split; [|by intros ? [=]]. by apply (Hiter _ _ _ 1 Hd).
  - intros [_ Hd']%lookup_delete_Some. apply Hold; [by intros ? [=]|done].
  - apply (Hput _ _ _ _ Hd); [|by intros ??? [=]]. intros Hn. split; [|by intros ? [=]].
    destruct (fr_nodes _ HF _ _ _ Hd) as [Hb _]. by eapply tail_node_ok.
  - apply (Hput _ _ _ _ Hd); [|by intros ??? [= ? <- ?]].
    intros Hn. destruct (update_step c t i0 key0 d0 p d1 f d') as [_ Hnone]; try done.
    destruct (Hnone Hn) as [? ->]. split; [done|by intros ? [=]].
Qed.

Lemma performed_Fresh c a rest gai `{!AddrInfoLaws gai} now f s' :
  Owned c → Fresh c → acts c ≡ₚ a :: rest → performed opt_ gai now (dns c) a f s' → Fresh (stepped c rest f s').
Proof.
  intros HO HF Ha Hp. pose proof (stepped_extends c a rest gai now f s' (fr_infos _ HF) Hp) as Hx.
  assert (act_ok c a) as Hact by (apply (fr_acts _ HF); rewrite Ha; by left).
  split.
  - pose proof (fr_infos _ HF). destruct Hp as [| | | | | | | |it key d s' _ (_ & _ & _ & Hi & Hn)| | | |]; try done.
    cbn. unfold infos_ok. by rewrite Hi, Hn.
  - cbn. rewrite fmap_app. pose proof (fr_heads _ HF) as Hnd.
    assert (∀ h, h ∈ a_head <$> answers c → h < next_info (dns c)) as Hlt.
    { intros h (r & -> & Hr)%list_elem_of_fmap. by destruct (fr_answers _ HF r Hr) as (_ & _ & ? & _). }
    assert (e_answers f = [] ∨ a_head <$> e_answers f = [next_info (dns c)]) as [->|Hnew].
    { destruct Hp as [| | | | | | |??????? Ht| | |?????????? Ht| |]; auto; by destruct Ht; left. }
    + by rewrite app_nil_r.
    + rewrite Hnew. apply NoDup_app. split; [done|]. split; [|apply NoDup_singleton].
      intros h Hh ->%list_elem_of_singleton. apply Hlt in Hh. lia.
  - intros it key d Hd. destruct (performed_nodes c a rest gai now f s' it key d HF Hact Hp Hd) as [Hold|?]; [|done].
    destruct (fr_nodes _ HF _ _ _ Hold) as [Hb Hw]. split; [by eapply node_base_mono|done].
  - intros b [Hb|Hb]%elem_of_app; [by eapply performed_acts|]. eapply act_ok_mono; [done|].
    apply (fr_acts _ HF). rewrite Ha. by right.
  - intros x [Hc|Hc]%elem_of_app; [|by eapply performed_called]. eapply call_ok_mono; [done|]. by apply (fr_called _ HF).
  - intros r [Hr|Hr]%elem_of_app.
    + destruct (fr_answers _ HF r Hr) as (Hring & Hit & Hhd & [Hq Hv] & _). unfold answer_ok. split_and_all.
      * by apply (xt_rings _ _ Hx).
      * pose proof (xt_nodes _ _ Hx). lia.
      * pose proof (xt_infos _ _ Hx). lia.
      * done.
      * done.
      * intros key d Hd. by eapply performed_known.
    + destruct Hp as [| | | | | | |t i0 key0 d0 f d' Hd Ht| |i0 key0 d0 host port xs s' Hd Hc Hn Hnn Hok Hq Hg Hni Hring Hold|
        t i0 key0 d0 p d1 f d' Hd Hu Ht| |]; try (by apply elem_of_nil in Hr); try (by destruct Ht; apply elem_of_nil in Hr).
      apply list_elem_of_singleton in Hr as ->. unfold answer_ok. split_and_all; cbn.
      * done.
      * rewrite Hnn. by eapply (ow_next _ HO).
      * rewrite Hni. destruct Hring as [Hne _]. destruct xs; cbn; [done|lia].
      * by exists (host, port).
      * by eapply addrs_ipv4.
      * intros key d. rewrite Hn. intros Hd'. simplify_eq. split; [done|]. intros _. exists now. by left.
Qed.

(** ** Runs *)
Definition DInv (c : conf) : Prop := Owned c ∧ Counted c ∧ Fresh c.

Lemma act_in_ring c a : Fresh c → act_ok c a → in_ring (infos (dns c)) (act_ptr a).
Proof.
  intros HF Hact. assert (∀ r p, of_answer (infos (dns c)) r p → in_ring (infos (dns c)) p) as Hring.
  { intros r p [i Hr]. right. by exists (a_head r), (a_addrs r), i. }
  destruct a; cbn in Hact |- *; try (by left); destruct Hact as [->|(r & Hr)]; try (by left).
  - eapply Hring, Hr.
  - destruct Hr as (Hr & _ & _ & ->). apply (Hring r). exists 0. apply on_ring_head. by apply answers_ring.
  - eapply Hring, Hr.
Qed.

Lemma DInv_perform c a rest gai now :
  DInv c → acts c ≡ₚ a :: rest → AddrInfoLaws gai →
  wp (perform opt_ min_lvl gai now a) (λ f s', performed opt_ gai now (dns c) a f s') (dns c).
Proof.
  intros (HO & _ & HF) Ha Hg.
  assert (a ∈ acts c) as Hin by (rewrite Ha; by left).
  pose proof (fr_acts _ HF a Hin) as Hact.
  apply perform_wp; [done|apply HF|..].
  - intros hp it Hhp. by apply (ow_cache _ HO).
  - intros it key d Hd. destruct (fr_nodes _ HF _ _ _ Hd) as [Hb _]. split; [by eapply node_base_in_ring|by destruct Hb].
  - intros it Hit. apply (ow_nodes _ HO). rewrite (owners_before _ _ _ Ha). cbn. rewrite Hit. by left.
  - by apply act_in_ring.
  - intros t it l ->. destruct Hact as [?|(r & Hr & _ & _ & [= ->])]; [done|]. exists (a_addrs r). by apply answers_ring.
Qed.

(** A step of the executor. *)
Lemma Owned_frame c c' :
  Owned c → dns c' = dns c → ex_ok (ex c') → owners c' ≡ₚ owners c → Owned c'.
Proof. intros HO Hd Hok Hp. apply (Owned_same c); [done..|]. rewrite Hd. by apply same_keys_refl. Qed.

Lemma Fresh_frame c c' :
  Fresh c → dns c' = dns c → answers c' = answers c → called c' = called c → (∀ x, x ∈ accepted c → x ∈ accepted c') →
  (∀ a, a ∈ acts c → a ∈ acts c') → (∀ a, a ∈ acts c' → a ∈ acts c ∨ act_ok c' a) → Fresh c'.
Proof.
  intros [H1 H2 H3 H4 H5 H6] Hd Ha Hc Hacc Hin Hacts.
  assert (extends c c') as Hx.
  { split; rewrite ?Hd, ?Ha; try done. exists []. by rewrite app_nil_r. }
  split; rewrite ?Hd, ?Ha, ?Hc; try done.
  - intros it key d Hn. destruct (H3 _ _ _ Hn) as [Hb Hw]. split; [by eapply node_base_mono|done].
  - intros a [Hold|?]%Hacts; [|done]. eapply act_ok_mono; [done|]. by apply H4.
  - intros x Hcx. eapply call_ok_mono; [done|]. by apply H5.
  - intros r Hr. destruct (H6 r Hr) as (Hring & Hit & Hh & [Hq Hv] & Hk). unfold answer_ok. rewrite Hd.
    split_and_all; try done. intros key d Hn. destruct (Hk _ _ Hn) as [-> Hk']. split; [done|].
    intros Hnone. destruct (Hk' Hnone) as [t Ht]. exists t. by apply Hin.
Qed.

Lemma dns_step_DInv c c' : dns_step c c' → DInv c → DInv c'.
Proof.
  destruct 1 as [c hp cb|c a rest gai f s' Ha Hg Hp|c t it rest e' Hs He|c it e' He|c e' He]; intros HI.
  - destruct HI as (HO & HC & HF). unfold DInv; split_and_all.
    + by apply (Owned_frame c); [..|apply HO|].
    + unfold Counted in *. cbn. rewrite HC. solve_Permutation.
    + apply (Fresh_frame c); try done; cbn.
      * intros x Hx. by right.
      * intros a Ha. by right.
      * intros a [->|Ha]%elem_of_cons; [right; by left|by left].
  - pose proof (DInv_perform c a rest gai (ex_now (ex c)) HI Ha Hg) as Hout. unfold wp in Hout. rewrite Hp in Hout.
    destruct HI as (HO & HC & HF).
    split; [by eapply (performed_Owned c)|]. split; [by eapply (performed_Counted c)|by eapply (performed_Fresh c)].
  - destruct HI as (HO & HC & HF). destruct (ex_schedule_ok _ _ _ _ (ow_ok _ HO) He) as (Hok & _ & Hp). unfold DInv; split_and_all.
    + apply (Owned_frame c); [done..|]. unfold owners. cbn. rewrite Hp, Hs. cbn. solve_Permutation.
    + done.
    + by apply (Fresh_frame c); try done; auto.
  - destruct HI as (HO & HC & HF). destruct (ex_start_ok _ _ _ (ow_ok _ HO) He) as (Hok & _ & t & _ & Hp). unfold DInv; split_and_all.
    + apply (Owned_frame c); [done..|]. unfold owners. cbn. rewrite Hp. cbn. solve_Permutation.
    + done.
    + apply (Fresh_frame c); try done; cbn; intros a Ha; [by right|].
      apply elem_of_cons in Ha as [->|Ha]; [by right|by left].
  - destruct HI as (HO & HC & HF). destruct (ex_silent_ok _ _ (ow_ok _ HO) He) as (Hok & _ & Hp). unfold DInv; split_and_all.
    + apply (Owned_frame c); [done..|]. unfold owners. cbn. by rewrite Hp.
    + done.
    + by apply (Fresh_frame c); try done; auto.
Qed.

Lemma dns_run_DInv e c : ex_ok e → ex_pending e = [] → rtc dns_step (dns_init e) c → DInv c.
Proof.
  intros Hok Hp Hr. eapply (rtc_invariant _ DInv); [done| |].
  - unfold DInv; split_and_all.
    + assert (owners (dns_init e) = []) as Ho by (unfold owners; cbn; by rewrite Hp).
      split; rewrite ?Ho; cbn; try done.
      * constructor.
      * intros it. rewrite lookup_empty. split; [by intros ?%elem_of_nil|by intros [? ?]].
      * intros hp it. rewrite lookup_empty. split; [done|by intros [? ?]].
    + unfold Counted, node_cbs. cbn [dns dns_init nodes DnsResolver_new]. by rewrite map_to_list_empty.
    + split; cbn; try done; try (by intros ? ?%elem_of_nil). constructor.
  - intros a b Ha Hs. by eapply dns_step_DInv.
Qed.

Lemma DInv_called c cb x :
  DInv c → (cb, Some x) ∈ called c →
  ipv4 x ∧ ∃ r t, r ∈ answers c ∧ (cb, a_key r, t) ∈ accepted c ∧ x ∈ a_addrs r ∧
    (t < a_time r + dns_cache_ttl opt_ ∨ first_answer (answers c) r)%Z.
Proof.
  intros (_ & _ & HF) Hc. destruct (fr_called _ HF _ Hc x eq_refl) as (r & (Hin & t & Ht & Hf) & Hx).
  split; [|by exists r, t]. destruct (fr_answers _ HF r Hin) as (_ & _ & _ & [_ Hv] & _).
  rewrite Forall_forall in Hv. by apply Hv.
Qed.

(** [Resolve] has been called with [cb], and has not returned: it is about to
    lock its mutex, or to call [cb] itself. *)
Definition in_resolve (cb : nat) (c : conf) : Prop :=
  (∃ t hp, AResolve t hp cb ∈ acts c) ∨ ∃ p, ACall cb p ∈ acts c.

Lemma performed_in_resolve gai now s a f s' cb :
  performed opt_ gai now s a f s' →
  ((∃ t hp, AResolve t hp cb ∈ e_acts f) ∨ ∃ p, ACall cb p ∈ e_acts f) → ∃ t hp, a = AResolve t hp cb.
Proof.
  assert (∀ b, (∀ t hp, b ≠ AResolve t hp cb) → (∀ p, b ≠ ACall cb p) →
    ((∃ t hp, AResolve t hp cb ∈ [b]) ∨ ∃ p, ACall cb p ∈ [b]) → ∃ t hp, a = AResolve t hp cb) as Hone.
  { intros b H1 H2 [(t & hp & Hb%list_elem_of_singleton)|(p & Hb%list_elem_of_singleton)]; naive_solver. }
  assert (((∃ t hp, AResolve t hp cb ∈ []) ∨ ∃ p, ACall cb p ∈ []) → ∃ t hp, a = AResolve t hp cb) as Hnil.
  { by intros [(t & hp & ?%elem_of_nil)|(p & ?%elem_of_nil)]. }
  destruct 1 as [t hp cb' Hmiss|t hp cb' it d Hd Hcb|t hp cb' it d Hd Hcb|cb' p|it|t it key d Hd Hcb|t it|
    t it key d f d' Hd Ht|it key d s' Hd Hs|it key d host port xs s' Hd Hc Hn Hnn Hok Hq Hg Hni Hring Hold|
    t it key d p d1 f d' Hd Hu Ht|it cb' cbs p|it p d key Hd]; try destruct Ht; try exact Hnil; try (by apply Hone).
  intros [(u & hp' & Hb%list_elem_of_singleton)|(p & Hb%list_elem_of_singleton)]; [done|].
  injection Hb as -> _. by exists t, hp.
Qed.

Lemma dns_step_in_resolve c c' cb :
  DInv c → dns_step c c' → accepted c' = accepted c → in_resolve cb c' → in_resolve cb c.
Proof.
  intros HI Hs. destruct Hs as [c hp i|c a rest gai f s' Ha Hg Hp|c t it rest e' Hs He|c it e' He|c e' He]; intros Hacc Hin; try done.
  - exfalso. apply (f_equal length) in Hacc. cbn in Hacc. lia.
  - pose proof (DInv_perform c a rest gai (ex_now (ex c)) HI Ha Hg) as Hout. unfold wp in Hout. rewrite Hp in Hout.
    assert (∀ x, x ∈ a :: rest → x ∈ acts c) as Hsub by (intros x; by rewrite Ha).
    assert (((∃ t hp, AResolve t hp cb ∈ e_acts f) ∨ ∃ p, ACall cb p ∈ e_acts f) → in_resolve cb c) as Hnew.
    { intros Hf. destruct (performed_in_resolve _ _ _ _ _ _ _ Hout Hf) as (t & hp & ->).
      left. exists t, hp. apply Hsub. by left. }
    destruct Hin as [(t & hp & [Hi|Hi]%elem_of_app)|(p & [Hi|Hi]%elem_of_app)].
    + apply Hnew. left. by exists t, hp.
    + left. exists t, hp. apply Hsub. by right.
    + apply Hnew. right. by exists p.
    + right. exists p. apply Hsub. by right.
  - destruct Hin as [(t & hp & [[=]|Hi]%elem_of_cons)|(p & [[=]|Hi]%elem_of_cons)]; [left|right]; eauto.
Qed.

(** The callbacks that are still to be called. *)
Definition pending_cbs (c : conf) : list nat := (acts c ≫= act_cbs) ++ node_cbs (nodes (dns c)).

Lemma DInv_pending c : DInv c → (accepted c).*1.*1 ≡ₚ (called c).*1 ++ pending_cbs c.
Proof. by intros (_ & ? & _). Qed.

(** C6: Every call of [Resolve] is answered exactly once. In every state that
    the resolver can reach, its threads, those of the pool and the callers
    taking their steps in any order and [getaddrinfo] answering anything: each
    callback has been called, or is about to be, or waits in an entry of the
    cache, and only one of these, once; each entry has exactly one task of
    [ProcessCacheEntry], scheduled or running, and no task has an entry that
    has been erased; and every step that a thread is about to make returns: no
    iterator or address is dangling, no loop goes on for ever, no [CHECK]
    fails. *)
Theorem resolve_answered_once e c :
  ex_ok e → ex_pending e = [] → rtc dns_step (dns_init e) c →
  (accepted c).*1.*1 ≡ₚ (called c).*1 ++ (acts c ≫= act_cbs) ++ node_cbs (nodes (dns c)) ∧
  NoDup (owners c) ∧ (∀ it, it ∈ owners c ↔ is_Some (nodes (dns c) !! it)) ∧
  ∀ a rest gai now, acts c ≡ₚ a :: rest → AddrInfoLaws gai →
    ∃ f s', perform opt_ min_lvl gai now a (dns c) = Done (f, s').
Proof.
  intros Hok Hp Hr. pose proof (dns_run_DInv e c Hok Hp Hr) as HI. destruct (HI) as (HO & HC & HF).
  split; [done|]. split; [apply HO|]. split; [apply HO|]. intros a rest gai now Ha Hg.
  destruct (wp_Done _ _ _ (DInv_perform c a rest gai now HI Ha Hg)) as (f & s' & ? & _). by exists f, s'.
Qed.

(** C20: An address given to a callback is one that [getaddrinfo] answered for
    the very key that was asked for, less than [dns_cache_ttl] before the call
    of [Resolve] - or after it; or it is of the first answer for its entry. *)
Theorem answers_are_fresh e c cb x :
  ex_ok e → ex_pending e = [] → rtc dns_step (dns_init e) c → (cb, Some x) ∈ called c →
  ipv4 x ∧ ∃ r t, r ∈ answers c ∧ (cb, a_key r, t) ∈ accepted c ∧ x ∈ a_addrs r ∧
    (t < a_time r + dns_cache_ttl opt_ ∨ first_answer (answers c) r)%Z.
Proof. intros Hok Hp Hr. by apply DInv_called, (dns_run_DInv e). Qed.
End resolver.

(** ** An example: the resolver with a pool of one thread, a hundred seconds
    after the clock's beginning *)
Module DnsRunExample.
Local Open Scope Z_scope.

Definition now : Time := seconds 100.
Definition e0 : pconf := pool_init 1 now.
Definition task : Work := mkWork now 1 (Some 0%nat).
Definition e1 : pconf := ([task], [], after (ThreadPool.Schedule now (Some 0%nat)) e0.2).
Definition e2 : pconf := ([task], [(task, now)], after (Next 1 Looking) e1.2).

Abbreviation step := (dns_step dns_defaults INFO).

(** The configuration after a step of an action. *)
Definition act_next {E : Type} `{Executor E} (c : conf) (a : act) (rest : list act) : conf (E := E) :=
  match perform dns_defaults INFO DnsExample.gai (ex_now (ex c)) a (dns c) with
  | Done (f, s') => stepped c rest f s'
  | _ => c
  end.

Lemma act_next_step {E : Type} `{Executor E} (c : conf (E := E)) a rest :
  acts c = a :: rest → (∃ f s', perform dns_defaults INFO DnsExample.gai (ex_now (ex c)) a (dns c) = Done (f, s')) →
  step c (act_next c a rest).
Proof.
  intros Ha (f & s' & Hp). unfold act_next. rewrite Hp. apply (ds_act _ _ c a rest DnsExample.gai f s'); [by rewrite Ha|apply DnsExample.gai_laws|done].
Qed.

Definition c1 : conf := mkConf DnsResolver_new e0 [AResolve now DnsExample.key 7] [] [(7%nat, DnsExample.key, now)] [] [].
Definition c2 : conf := act_next c1 (AResolve now DnsExample.key 7) [].
Definition c3 : conf := mkConf (dns c2) e1 (acts c2) [] (accepted c2) (called c2) (answers c2).
Definition c4 : conf := mkConf (dns c3) e2 (AStart 0 :: acts c3) (scheduling c3) (accepted c3) (called c3) (answers c3).
Definition c5 : conf := act_next c4 (AStart 0) [].
Definition c6 : conf := act_next c5 (AProcess now 0) [].
Definition c7 : conf := act_next c6 (AResolveSync 0) [].
Definition c8 : conf := act_next c7 (AUpdate now 0 (Some 0%nat)) [].
Definition c9 : conf := act_next c8 (ACallbacks 0 [7%nat] (Some 0%nat)) [].

(** The callback has had the first of the three addresses. *)
Lemma it_is_answered : called c9 = [(7%nat, Some (DnsExample.address 1))].
Proof. by vm_compute. Qed.

Ltac perform_step := apply act_next_step; [by vm_compute|eexists _, _; by vm_compute].

Lemma run4 : rtc step (dns_init e0) c4.
Proof.
  eapply rtc_l; [apply (ds_resolve _ _ (dns_init e0) DnsExample.key 7)|].
  eapply rtc_l; [apply (act_next_step c1); [done|eexists _, _; by vm_compute]|].
  eapply rtc_l; [apply (ds_schedule _ _ c2 now 0 [] e1); [by vm_compute|by split_and!]|].
  eapply rtc_l; [|apply rtc_refl].
  apply (ds_start _ _ c3 0 e2). split; [|exists task, now; by vm_compute].
  by apply (ps_next [task] [] e1.2 1 Looking e2.2).
Qed.

Lemma run9 : rtc step (dns_init e0) c9.
Proof. etransitivity; [exact run4|]. do 5 (eapply rtc_l; [perform_step|]). apply rtc_refl. Qed.

Lemma e0_ok : ex_ok e0 ∧ ex_pending e0 = [].
Proof. split; [split; [apply QInv_new|apply TInv_new]|done]. Qed.
End DnsRunExample.

Lemma resolve_answered_once_witness :
  (accepted DnsRunExample.c9).*1.*1 ≡ₚ (called DnsRunExample.c9).*1 ++
    (acts DnsRunExample.c9 ≫= act_cbs) ++ node_cbs (nodes (dns DnsRunExample.c9)) ∧
  called DnsRunExample.c9 = [(7, Some (DnsExample.address 1))].
Proof.
  split; [|exact DnsRunExample.it_is_answered].
  apply (resolve_answered_once dns_defaults INFO DnsRunExample.e0 DnsRunExample.c9
    (proj1 DnsRunExample.e0_ok) (proj2 DnsRunExample.e0_ok) DnsRunExample.run9).
Defined.

Lemma answers_are_fresh_witness :
  ∃ r t, r ∈ answers DnsRunExample.c9 ∧ (7, a_key r, t) ∈ accepted DnsRunExample.c9 ∧
    DnsExample.address 1 ∈ a_addrs r.
Proof.
  destruct (answers_are_fresh dns_defaults INFO DnsRunExample.e0 DnsRunExample.c9 7 (DnsExample.address 1)
    (proj1 DnsRunExample.e0_ok) (proj2 DnsRunExample.e0_ok) DnsRunExample.run9) as (_ & r & t & ? & ? & ? & _).
  - rewrite DnsRunExample.it_is_answered. by left.
  - by exists r, t.
Defined.
