(* ===== verification/DnsRings.v ===== *)
(** * The memory of the rings (dns.cc, [ResolveSync])

    DnsRuns.v keeps every list that [getaddrinfo] has allocated. The code frees
    a list when no shared pointer is left that points into its ring: the
    pointers that [Advance] makes share the ownership of the first. Here a ring
    that nothing points into can be released at any time by the deleter. *)

From S2P Require Import Prelude Logging Epoll Addr Executor Dns DnsRuns.

(** freeaddrinfo(3): frees a list that [getaddrinfo] has allocated, to its null
    pointer. *)
Definition without (F : gset nat) (s : Dns) : Dns := with_infos (filter (λ x, x.1 ∉ F) (infos s)) s.
Class FreeAddrInfo := freeaddrinfo : nat → M Dns unit.
Class FreeAddrInfoLaws `{FreeAddrInfo} :=
  freeaddrinfo_frees : ∀ l xs s, xs ≠ [] → linked (infos s) l xs →
    freeaddrinfo l s = Done (tt, without (set_seq l (length xs)) s).

(** dns.cc: the deleter of the pointer that [ResolveSync] returns. *)
Definition delete_ring `{FreeAddrInfo} (tail head : nat) : M Dns unit := set_next tail None ;; freeaddrinfo head.

Lemma without_infos F s l x : infos (without F s) !! l = Some x ↔ infos s !! l = Some x ∧ l ∉ F.
Proof. cbn. by rewrite map_lookup_filter_Some. Qed.

Lemma without_same F m s : (∀ l, l ∉ F → m !! l = infos s !! l) → without F (with_infos m s) = without F s.
Proof.
  intros Hm. unfold without. cbn [infos with_infos]. unfold with_infos. cbn. f_equal.
  apply map_eq. intros l. apply option_eq. intros x. rewrite !map_lookup_filter_Some. cbn.
  split; intros [Hl ?]; (split; [|done]); [by rewrite <- Hm|by rewrite Hm].
Qed.

(** What the deleter gives to [freeaddrinfo] is the list as [getaddrinfo] made
    it, so it frees the ring and nothing else. *)
Lemma delete_ring_frees `{FreeAddrInfoLaws} l xs s :
  ring (infos s) l xs → delete_ring (l + pred (length xs)) l s = Done (tt, without (set_seq l (length xs)) s).
Proof.
  intros [Hne Hr]. assert (0 < length xs) by (destruct xs; cbn; [done|lia]).
  destruct (lookup_lt_is_Some_2 xs (pred (length xs))) as [x Hx]; [lia|].
  unfold delete_ring, set_next, info_at. erewrite bind_Done.
  2: { erewrite bind_Done; [done|]. unfold deref. by rewrite (Hr _ _ Hx). }
  cbn [info_data]. rewrite (freeaddrinfo_frees l xs); [..|done|].
  - f_equal. f_equal. apply (without_same _ (<[l + pred (length xs) := mkInfo x None]> (infos s)) s).
    intros k Hk. rewrite elem_of_set_seq in Hk. by rewrite lookup_insert_ne by lia.
  - intros i y Hi. pose proof (lookup_lt_Some _ _ _ Hi). cbn [infos]. destruct (decide (i = pred (length xs))) as [->|Hne'].
    + rewrite lookup_insert_eq, decide_True by lia. congruence.
    + rewrite lookup_insert_ne, (Hr _ _ Hi), decide_False, Nat.mod_small by lia. done.
Qed.

Create HintDb frames discriminated.

(** ** Code that does not follow pointers into freed memory

    [F] has been freed: nothing that is left points there, and places to come
    are others. *)
Definition alive (F : gset nat) (p : option nat) : Prop := ∀ l, p = Some l → l ∉ F.

Record closed (F : gset nat) (s : Dns) : Prop := {
  cl_nodes : ∀ it key d, nodes s !! it = Some (key, d) → alive F (addr d);
  cl_infos : ∀ l x, infos s !! l = Some x → l ∉ F → alive F (ai_next x);
  cl_below : ∀ l, l ∈ F → l < next_info s
}.

Section frames.
Context (F : gset nat).

(** [m] returns the same, and keeps this, with the freed memory gone. *)
Definition frames {A} (R : A → Prop) (m : M Dns A) : Prop :=
  ∀ s a s', closed F s → m s = Done (a, s') → R a ∧ closed F s' ∧ m (without F s) = Done (a, without F s').

Lemma frames_ret {A} (R : A → Prop) a : R a → frames R (mret a).
Proof. intros Ha s b s' Hs [= <- <-]. done. Qed.

Lemma frames_bind {A B} (R : A → Prop) (Q : B → Prop) m f :
  frames R m → (∀ a, R a → frames Q (f a)) → frames Q (m ≫= f).
Proof.
  intros Hm Hf s b s' Hs. unfold mbind, M_bind. destruct (m s) as [[a s1]| | |] eqn:H1; [|done..]. intros H2.
  destruct (Hm _ _ _ Hs H1) as (Ha & Hs1 & ->). by apply (Hf a Ha).
Qed.

Lemma frames_gets {A} (R : A → Prop) (f : Dns → A) :
  (∀ s, closed F s → R (f s)) → (∀ s, f (without F s) = f s) → frames R (gets f).
Proof. intros HR Hf s a s' Hs [= <- <-]. split; [by apply HR|]. split; [done|]. unfold gets. by rewrite Hf. Qed.

Lemma frames_deref {A} why (R : A → Prop) (f : Dns → option A) :
  (∀ s a, closed F s → f s = Some a → R a ∧ f (without F s) = Some a) → frames R (deref why f).
Proof.
  intros Hf s a s' Hs. unfold deref. destruct (f s) as [b|] eqn:Hb; [|done]. intros [= <- <-].
  destruct (Hf s b Hs Hb) as [HR ->]. done.
Qed.

Lemma frames_modify (f : Dns → Dns) (R : unit → Prop) :
  R tt → (∀ s, closed F s → closed F (f s) ∧ f (without F s) = without F (f s)) → frames R (modify f).
Proof. intros HR Hf s [] s' Hs [= <-]. destruct (Hf s Hs) as [? Heq]. unfold modify. by rewrite Heq. Qed.

Lemma frames_fail {A} (R : A → Prop) m : (∀ s a s', m s ≠ Done (a, s')) → frames R m.
Proof. intros Hm s a s' _ Hd. by destruct (Hm _ _ _ Hd). Qed.

Lemma frames_CHECK why b (R : unit → Prop) : R tt → frames R (CHECK why b).
Proof. intros HR. destruct b; [by apply frames_ret|by apply frames_fail]. Qed.

Lemma frames_when b m : frames (λ _, True) m → frames (λ _, True) (when b m).
Proof. intros Hm. destruct b; [done|by apply frames_ret]. Qed.

Lemma frames_for_each {A} (f : A → M Dns unit) xs :
  (∀ x, frames (λ _, True) (f x)) → frames (λ _, True) (for_each f xs).
Proof. intros Hf. induction xs as [|x xs IH]; cbn; [by apply frames_ret|]. eapply frames_bind; [apply Hf|done]. Qed.

(** *** Entries *)
Lemma frames_node it : frames (λ x, alive F (addr x.2)) (node it).
Proof. apply frames_deref. intros s [key d] Hs Hd. split; [by eapply (cl_nodes _ _ Hs)|done]. Qed.

Lemma frames_data it : frames (λ d, alive F (addr d)) (data it).
Proof. eapply frames_bind; [apply frames_node|]. intros [key d] Hd. by apply frames_ret. Qed.

Lemma frames_upd_data it f : (∀ d, alive F (addr d) → alive F (addr (f d))) → frames (λ _, True) (upd_data it f).
Proof.
  intros Hf. eapply frames_bind; [apply frames_node|]. intros [key d] Hd. apply frames_modify; [done|].
  intros s [Hn Hi Hb]. split; [|done]. split; [|done..]. cbn.
  intros it' key' d' [[_ [= _ <-]]|[_ ?]]%lookup_insert_Some; [by apply Hf|by eapply Hn].
Qed.

Lemma frames_insert_node hp d : alive F (addr d) → frames (λ _, True) (insert_node hp d).
Proof.
  intros Hd. eapply (frames_bind (λ _, True)); [by apply frames_gets|]. intros it _.
  eapply frames_bind; [|intros [] _; by apply frames_ret]. apply (frames_modify _ (λ _, True)); [done|].
  intros s [Hn Hi Hb]. split; [|done]. split; [|done..]. cbn.
  intros it' key' d' [[_ [= _ <-]]|[_ ?]]%lookup_insert_Some; [done|by eapply Hn].
Qed.

Lemma frames_erase_node it : frames (λ _, True) (erase_node it).
Proof.
  eapply frames_bind; [apply frames_node|]. intros [key d] _. apply frames_modify; [done|].
  intros s [Hn Hi Hb]. split; [|done]. split; [|done..]. cbn. intros it' key' d' [_ ?]%lookup_delete_Some. by eapply Hn.
Qed.

(** *** Addresses *)
Lemma frames_info_at l : l ∉ F → frames (λ x, alive F (ai_next x)) (info_at l).
Proof.
  intros Hl. apply frames_deref. intros s x Hs Hx. split; [by eapply (cl_infos _ _ Hs)|]. by apply without_infos.
Qed.

Lemma without_insert l x s : l ∉ F → infos (without F (with_infos (<[l := x]> (infos s)) s)) = <[l := x]> (infos (without F s)).
Proof. intros Hl. cbn. by rewrite map_filter_insert_True. Qed.

Lemma frames_set_next l q : l ∉ F → alive F q → frames (λ _, True) (set_next l q).
Proof.
  intros Hl Hq. eapply frames_bind; [by apply frames_info_at|]. intros x _. apply frames_modify; [done|].
  intros s [Hn Hi Hb]. split.
  - split; [done| |done]. cbn. intros l' x' [[_ <-]|[_ ?]]%lookup_insert_Some; [by intros _|by eapply Hi].
  - pose proof (without_insert l (mkInfo (info_data x) q) s Hl) as Hw. cbn in Hw.
    unfold without, with_infos. cbn. by rewrite Hw.
Qed.

Lemma frames_Advance p : alive F p → frames (λ x, alive F x.1 ∧ alive F x.2) (Advance p).
Proof.
  intros Hp. destruct p as [l|]; [|by apply frames_ret]. cbn. eapply frames_bind; [apply frames_info_at; by apply Hp|].
  intros x Hx. by apply frames_ret.
Qed.

Lemma frames_IpPort x : frames (λ _, True) (IpPort x).
Proof.
  unfold IpPort, non_null. eapply (frames_bind (λ _, True)); [destruct (ai_addr x); [by apply frames_ret|by apply frames_fail]|].
  intros a _. eapply (frames_bind (λ _, True)); [by apply frames_CHECK|]. intros [] _. by apply frames_ret.
Qed.

Lemma frames_next_info : frames (λ _, True) (gets next_info).
Proof. by apply frames_gets. Qed.

Lemma frames_Describe fuel hd p : alive F p → frames (λ _, True) (Describe fuel hd p).
Proof.
  revert p. induction fuel as [|fuel IH]; intros [l|] Hp; cbn; try (by apply frames_ret); [by apply frames_fail|].
  eapply frames_bind; [apply frames_info_at; by apply Hp|]. intros x Hx.
  eapply frames_bind; [apply frames_IpPort|]. intros a _. eapply frames_bind; [by apply IH|]. intros rest _. by apply frames_ret.
Qed.

(** A list is allocated where nothing has been. *)
Lemma chain_next l xs k x q : chain l xs !! k = Some x → ai_next x = Some q → l ≤ q.
Proof.
  revert l. induction xs as [|y xs IH]; intros l Hk Hq; [done|]. cbn in Hk.
  apply lookup_insert_Some in Hk as [[<- <-]|[_ Hk]]; [|specialize (IH _ Hk Hq); lia].
  cbn in Hq. destruct xs; [done|]. injection Hq as <-. lia.
Qed.

Lemma frames_alloc_chain xs : frames (λ l, ∀ k, l ≤ k → k ∉ F) (alloc_chain xs).
Proof.
  intros s l s' Hs [= <- <-]. destruct (Hs) as [Hn Hi Hb].
  assert (∀ k, next_info s ≤ k → k ∉ F) as Hnew by (intros k Hk Hin; apply Hb in Hin; lia).
  split; [done|]. split; [split; cbn|].
  - done.
  - intros k x [Hk|[_ Hk]]%lookup_union_Some_raw HkF; [|by eapply Hi]. intros q Hq. apply Hnew. by eapply chain_next.
  - intros k Hk%Hb. lia.
  - unfold alloc_chain, mbind, M_bind, gets, modify, mret, M_ret, without, with_infos. cbn. do 3 f_equal.
    apply map_eq. intros k. apply option_eq. intros x. rewrite map_lookup_filter_Some, !lookup_union_Some_raw, map_lookup_filter_Some. cbn.
    assert (∀ y, chain (next_info s) xs !! k = Some y → k ∉ F) as Hc.
    { intros y Hy. apply Hnew. destruct (decide (k < next_info s)); [|lia]. by rewrite chain_lookup_None in Hy by lia. }
    naive_solver.
Qed.

Lemma frames_close_ring fuel res tail : res ∉ F → tail ∉ F → frames (λ _, True) (close_ring fuel res tail).
Proof.
  intros Hr. revert tail. induction fuel as [|fuel IH]; intros tail Ht; cbn; [by apply frames_fail|].
  eapply frames_bind; [by apply frames_info_at|]. intros x Hx. destruct (ai_next x) as [q|] eqn:Hq.
  - apply IH. by apply Hx.
  - eapply frames_bind; [apply frames_set_next; [done|]|]; [by intros ? [= <-]|]. intros [] _. by apply frames_ret.
Qed.

Lemma frames_ResolveSync min_lvl gai key : frames (λ p, alive F (fst <$> p)) (ResolveSync min_lvl gai key).
Proof.
  unfold ResolveSync. destruct (query key) as [[host port]|]; [|by apply frames_ret].
  destruct (gai host port) as [xs|]; [|by apply frames_ret].
  eapply frames_bind; [apply frames_alloc_chain|]. intros l Hl. assert (l ∉ F) by by apply Hl.
  eapply frames_bind; [by apply frames_info_at|]. intros x _.
  eapply (frames_bind (λ _, True)); [by apply frames_deref|]. intros a _.
  eapply (frames_bind (λ _, True)); [by apply frames_CHECK|]. intros [] _.
  eapply frames_bind; [apply frames_when|intros [] _].
  { eapply frames_bind; [apply frames_next_info|]. intros fuel _.
    eapply frames_bind; [apply frames_Describe; by intros ? [= <-]|]. intros _ _. by apply frames_ret. }
  eapply frames_bind; [apply frames_next_info|]. intros fuel _.
  eapply frames_bind; [by apply frames_close_ring|]. intros tail _. apply frames_ret. by intros ? [= <-].
Qed.

(** *** [Resolve] and [ProcessCacheEntry] *)
Lemma frames_Use it now : frames (λ _, True) (Use it now).
Proof.
  eapply frames_bind; [by apply frames_upd_data|]. intros [] _. eapply frames_bind; [apply frames_data|]. intros d Hd.
  eapply frames_bind; [by apply frames_Advance|]. intros [p q] [_ Hq].
  eapply frames_bind; [by apply frames_upd_data|]. intros [] _. by apply frames_upd_data.
Qed.

Definition alive_acts (f : effects) : Prop := ∀ a, a ∈ e_acts f → alive F (act_ptr a).

Lemma alive_then a : alive F (act_ptr a) → alive_acts (then_ a).
Proof. by intros Ha b ->%list_elem_of_singleton. Qed.
Lemma alive_schedule t it : alive_acts (then_schedule t it).
Proof. by intros b ?%elem_of_nil. Qed.
Lemma alive_none : alive_acts no_effects.
Proof. by intros b ?%elem_of_nil. Qed.
Hint Resolve frames_ret frames_data frames_upd_data frames_Use alive_then alive_schedule alive_none : frames.

Lemma frames_Resolve opt now hp cb : frames alive_acts (Resolve opt now hp cb).
Proof.
  eapply (frames_bind (λ _, True)); [by apply frames_gets|]. intros [it|] _.
  - eapply frames_bind; [apply frames_data|]. intros d Hd. destruct (negb _).
    + eapply frames_bind; [by apply frames_upd_data|]. auto with frames.
    + eapply frames_bind; [apply frames_Use|]. intros [] _. apply frames_ret, alive_then. cbn. by destruct (_ <? _)%Z.
  - eapply frames_bind; [by apply frames_insert_node|]. auto with frames.
Qed.

Lemma frames_Process_next opt it : frames alive_acts (Process_next opt it).
Proof. eapply frames_bind; [apply frames_data|]. auto with frames. Qed.

Lemma frames_Process_callbacks opt now it : frames alive_acts (Process_callbacks opt now it).
Proof.
  eapply frames_bind; [apply frames_data|]. intros d Hd. destruct (negb _); [|apply frames_Process_next].
  eapply frames_bind; [by apply frames_upd_data|]. intros [] _.
  eapply frames_bind; [apply frames_for_each; intros; apply frames_Use|]. intros [] _. by apply frames_ret, alive_then.
Qed.

Lemma frames_Process_begin opt now it : frames alive_acts (Process_begin opt now it).
Proof.
  eapply frames_bind; [apply frames_data|]. intros d Hd. destruct (_ && _).
  - eapply frames_bind; [apply frames_erase_node|]. auto with frames.
  - destruct (_ <=? _)%Z; [by apply frames_ret, alive_then|apply frames_Process_callbacks].
Qed.

Lemma frames_rotate fuel it i head : frames (λ _, True) (rotate fuel it i head).
Proof.
  revert i. induction fuel as [|fuel IH]; intros i; cbn; [by apply frames_fail|].
  eapply frames_bind; [apply frames_data|]. intros d Hd. destruct (_ =? _)%Z; [by apply frames_ret|].
  eapply frames_bind; [by apply frames_upd_data|]. intros [] _.
  eapply frames_bind; [by apply frames_Advance|]. intros [p q] [_ Hq].
  eapply frames_bind; [by apply frames_upd_data|]. intros [] _.
  eapply frames_bind; [apply frames_when; by apply frames_upd_data|]. intros [] _. apply IH.
Qed.

Lemma frames_Process_update opt now it p : alive F p → frames alive_acts (Process_update opt now it p).
Proof.
  intros Hp. eapply frames_bind; [by apply frames_upd_data|]. intros [] _.
  eapply frames_bind; [apply frames_when|intros [] _; apply frames_Process_callbacks].
  eapply frames_bind; [by apply frames_upd_data|]. intros [] _. eapply frames_bind; [by apply frames_upd_data|]. intros [] _.
  eapply frames_bind; [apply frames_data|]. intros d _. apply frames_rotate.
Qed.

Lemma frames_read_addr p : alive F p → frames (λ _, True) (read_addr p).
Proof.
  intros Hp. destruct p as [l|]; [|by apply frames_ret]. eapply frames_bind; [apply frames_info_at; by apply Hp|].
  intros x _. by apply frames_ret.
Qed.

Lemma frames_perform opt min_lvl gai now a : alive F (act_ptr a) → frames alive_acts (perform opt min_lvl gai now a).
Proof.
  intros Ha. destruct a as [t hp cb|cb p|it|t it|it|t it p|it [|cb cbs] p]; cbn [perform act_ptr] in *.
  - apply frames_Resolve.
  - eapply frames_bind; [by apply frames_read_addr|]. intros x _. apply frames_ret. by intros b ?%elem_of_nil.
  - by apply frames_ret, alive_then.
  - apply frames_Process_begin.
  - eapply frames_bind; [apply frames_node|]. intros [key d] _. eapply frames_bind; [apply frames_ResolveSync|].
    intros p Hp. apply frames_ret. by intros b ->%list_elem_of_singleton.
  - by apply frames_Process_update.
  - apply frames_Process_next.
  - eapply frames_bind; [by apply frames_Advance|]. intros [q r] [Hq Hr]. eapply frames_bind; [by apply frames_read_addr|].
    intros x _. apply frames_ret. by intros b ->%list_elem_of_singleton.
Qed.
End frames.

(** ** Runs in which rings are released *)
Section rings.
Context {E : Type} `{ExecutorLaws E} `{FreeAddrInfoLaws} (opt_ : DnsOptions) (min_lvl : Severity).
Abbreviation Conf := (conf (E := E)).

Definition with_dns (s : Dns) (c : Conf) : Conf :=
  mkConf s (ex c) (acts c) (scheduling c) (accepted c) (called c) (answers c).

(** The places of a ring; the places that a shared pointer of an entry, or of
    what a thread is about to do, points to. *)
Definition places (r : answer) : gset nat := set_seq (a_head r) (length (a_addrs r)).
Definition pointers (c : Conf) : list nat :=
  omap act_ptr (acts c) ++ omap (λ x, addr x.2.2) (map_to_list (nodes (dns c))).
Definition unreferenced (c : Conf) (r : answer) : Prop := Forall (λ l, l ∉ places r) (pointers c).
Definition allocated (c : Conf) (l : nat) : Prop := is_Some (infos (dns c) !! l).

(** A step of the resolver, or the deleter of a ring that has not been freed and
    that no pointer owns. *)
Inductive mem_step : Conf → Conf → Prop :=
  | ms_step c c' : dns_step opt_ min_lvl c c' → mem_step c c'
  | ms_release c r s' :
      r ∈ answers c → allocated c (a_head r) → unreferenced c r →
      delete_ring (a_tail r) (a_head r) (dns c) = Done (tt, s') → mem_step c (with_dns s' c).

Lemma elem_of_pointers c l :
  l ∈ pointers c ↔ (∃ a, a ∈ acts c ∧ act_ptr a = Some l) ∨ ∃ it key d, nodes (dns c) !! it = Some (key, d) ∧ addr d = Some l.
Proof.
  unfold pointers. rewrite elem_of_app, !list_elem_of_omap. f_equiv. split.
  - intros ([it [key d]] & Hin & Hd). apply elem_of_map_to_list in Hin. by exists it, key, d.
  - intros (it & key & d & Hin & Hd). exists (it, (key, d)). by rewrite elem_of_map_to_list.
Qed.

Lemma unreferenced_not c r l : unreferenced c r → l ∈ pointers c → l ∉ places r.
Proof. unfold unreferenced. rewrite Forall_forall. auto. Qed.

(** *** The places are those of the answers, which are apart *)
Record Placed (c : Conf) : Prop := {
  pl_in : ∀ l, allocated c l → ∃ r, r ∈ answers c ∧ l ∈ places r;
  pl_tail : ∀ r, r ∈ answers c → a_tail r = a_head r + pred (length (a_addrs r));
  pl_apart : ∀ r1 r2 l, r1 ∈ answers c → r2 ∈ answers c → l ∈ places r1 → l ∈ places r2 → a_head r1 = a_head r2
}.

Lemma head_in_places m r : ring m (a_head r) (a_addrs r) → a_head r ∈ places r.
Proof. intros [Hne _]. unfold places. rewrite elem_of_set_seq. destruct (a_addrs r); cbn; [done|lia]. Qed.

Lemma ring_places c r l : ring (infos (dns c)) (a_head r) (a_addrs r) → l ∈ places r →
  allocated c l ∧ ∀ x q, infos (dns c) !! l = Some x → ai_next x = Some q → q ∈ places r.
Proof.
  intros [Hne Hr] Hl. unfold places in *. rewrite elem_of_set_seq in Hl.
  destruct (lookup_lt_is_Some_2 (a_addrs r) (l - a_head r)) as [x Hx]; [lia|]. specialize (Hr _ _ Hx).
  replace (a_head r + (l - a_head r)) with l in Hr by lia. split; [by eexists|].
  intros y q Hy Hq. rewrite Hr in Hy. injection Hy as <-. injection Hq as <-. rewrite elem_of_set_seq.
  assert (length (a_addrs r) ≠ 0) by lia. pose proof (Nat.mod_upper_bound (S (l - a_head r)) (length (a_addrs r))). lia.
Qed.

Lemma places_below c r l : DInv opt_ c → r ∈ answers c → l ∈ places r → l < next_info (dns c).
Proof.
  intros (_ & _ & HF) Hr Hl. destruct (ring_places c r l (answers_ring _ _ _ HF Hr) Hl) as [[x Hx] _].
  by eapply (fr_infos _ _ HF).
Qed.

Lemma same_places c r1 r2 l :
  DInv opt_ c → Placed c → r1 ∈ answers c → r2 ∈ answers c → l ∈ places r1 → l ∈ places r2 → places r1 = places r2.
Proof.
  intros (_ & _ & HF) Hpl Hr1 Hr2 Hl1 Hl2. pose proof (pl_apart _ Hpl r1 r2 l Hr1 Hr2 Hl1 Hl2) as Hh.
  assert (a_addrs r1 = a_addrs r2) as Ha.
  { eapply ring_inj; [by apply (answers_ring _ _ _ HF)|]. rewrite Hh. by apply (answers_ring _ _ _ HF). }
  unfold places. by rewrite Hh, Ha.
Qed.

(** What a step does to the lists. *)
Lemma performed_lists gai now (s : Dns) a f s' :
  performed opt_ gai now s a f s' →
  (e_answers f = [] ∧ infos s' = infos s ∧ next_info s' = next_info s) ∨
  ∃ r, e_answers f = [r] ∧ a_head r = next_info s ∧ a_tail r = a_head r + pred (length (a_addrs r)) ∧
    next_info s' = next_info s + length (a_addrs r) ∧ infos_ok s' ∧ ∀ k, k < next_info s → infos s' !! k = infos s !! k.
Proof.
  destruct 1 as [| | | | | | |??????? Ht| it key d s' _ (_ & _ & _ & Hi & Hn)|it key d host port xs s' _ _ _ _ Hok _ _ Hni _ Hold|?????????? Ht| |];
    try destruct Ht; try (by left).
  right. by exists (mkAnswer it key (next_info s) (next_info s + pred (length xs)) xs now).
Qed.

Lemma dns_step_Placed c c' : dns_step opt_ min_lvl c c' → DInv opt_ c → Placed c → Placed c'.
Proof.
  intros Hs HI [Hin Ht Hap]. destruct Hs as [c hp cb|c a rest gai f s' Ha Hg Hp|c t it rest e' Hs He|c it e' He|c e' He]; try by split.
  pose proof (DInv_perform opt_ min_lvl c a rest gai (ex_now (ex c)) HI Ha Hg) as Hout. unfold wp in Hout. rewrite Hp in Hout.
  destruct (performed_lists _ _ _ _ _ _ Hout) as [(He & Hi & _)|(r & He & Hh & Htl & Hni & Hok & Hold)].
  - split; cbn; rewrite He, app_nil_r; try done. unfold allocated. cbn. by rewrite Hi.
  - split; cbn; rewrite He.
    + intros l [x Hx]. destruct (decide (l < next_info (dns c))) as [Hlt|Hge].
      * destruct (Hin l) as (r' & ? & ?); [exists x; by rewrite <- Hold|]. exists r'. rewrite elem_of_app. auto.
      * exists r. split; [apply elem_of_app; right; by left|]. apply Hok in Hx. unfold places. rewrite elem_of_set_seq. lia.
    + by intros r' [?| ->%list_elem_of_singleton]%elem_of_app; [apply Ht|].
    + assert (∀ r' l, r' ∈ answers c → l ∈ places r' → l ∈ places r → False) as Hnew.
      { intros r' l Hr' Hl Hl2. pose proof (places_below c r' l HI Hr' Hl). unfold places in Hl2. rewrite elem_of_set_seq in Hl2. lia. }
      intros r1 r2 l [Hr1| ->%list_elem_of_singleton]%elem_of_app [Hr2| ->%list_elem_of_singleton]%elem_of_app Hl1 Hl2.
      * by apply (Hap r1 r2 l).
      * by destruct (Hnew r1 l Hr1 Hl1 Hl2).
      * by destruct (Hnew r2 l Hr2 Hl2 Hl1).
      * done.
Qed.

(** *** A run with releases follows a run without *)
Record follows (F : gset nat) (c0 c : Conf) : Prop := {
  fo_eq : c = with_dns (without F (dns c0)) c0;
  fo_inv : DInv opt_ c0;
  fo_placed : Placed c0;
  fo_closed : closed F (dns c0);
  fo_acts : ∀ a, a ∈ acts c0 → alive F (act_ptr a);
  fo_whole : ∀ r l l', r ∈ answers c0 → l ∈ places r → l' ∈ places r → l ∈ F → l' ∈ F
}.

Lemma follows_perform F c0 c a rest gai now :
  follows F c0 c → acts c0 ≡ₚ a :: rest → AddrInfoLaws gai →
  ∃ f s', perform opt_ min_lvl gai now a (dns c0) = Done (f, s') ∧
    perform opt_ min_lvl gai now a (dns c) = Done (f, without F s') ∧
    closed F s' ∧ alive_acts F f ∧ performed opt_ gai now (dns c0) a f s'.
Proof.
  intros [-> HI _ Hcl Hal _] Ha Hg.
  destruct (wp_Done _ _ _ (DInv_perform opt_ min_lvl c0 a rest gai now HI Ha Hg)) as (f & s' & Hp & Hd).
  exists f, s'. destruct (frames_perform F opt_ min_lvl gai now a) with (s := dns c0) (a := f) (s' := s') as (? & ? & ?); [|done..|].
  - apply Hal. rewrite Ha. by left.
  - done.
Qed.

(** Steps that leave the resolver's data as it is. *)
Lemma follows_frame F c0 c c0' c' :
  follows F c0 c → dns_step opt_ min_lvl c0 c0' → c' = with_dns (without F (dns c0')) c0' → dns c0' = dns c0 →
  answers c0' = answers c0 → (∀ a, a ∈ acts c0' → a ∈ acts c0 ∨ act_ptr a = None) → follows F c0' c'.
Proof.
  intros [_ HI Hpl Hcl Hal Hw] Hs -> Hd Ha Hacts. split; rewrite ?Hd, ?Ha; try done.
  - by eapply dns_step_DInv.
  - by eapply dns_step_Placed.
  - intros a [Hin|Hn]%Hacts; [by apply Hal|]. by rewrite Hn.
Qed.

Lemma follows_dns_step F c0 c c' :
  follows F c0 c → dns_step opt_ min_lvl c c' → ∃ c0', dns_step opt_ min_lvl c0 c0' ∧ follows F c0' c'.
Proof.
  intros Hf Hs. pose proof (fo_eq _ _ _ Hf) as Heq.
  assert (ex c = ex c0 ∧ acts c = acts c0 ∧ scheduling c = scheduling c0 ∧ accepted c = accepted c0 ∧ called c = called c0 ∧
    answers c = answers c0 ∧ dns c = without F (dns c0)) as (Hex & Hac & Hsc & Hacc & Hca & Han & Hdn) by by rewrite Heq.
  destruct Hs as [c hp cb|c a rest gai f s' Ha Hg Hp|c t it rest e' Hs He|c it e' He|c e' He];
    rewrite ?Hex, ?Hac, ?Hsc, ?Hacc, ?Hca, ?Han in *.
  - eexists. split; [apply (ds_resolve _ _ c0 hp cb)|]. eapply (follows_frame F c0 c); [done|apply ds_resolve|by rewrite Hdn|done..|].
    intros a [->|?]%elem_of_cons; [by right|by left].
  - destruct (follows_perform F c0 c a rest gai (ex_now (ex c0)) Hf Ha Hg) as (f0 & s0 & Hp0 & Hp1 & Hcl & Hal & Hd).
    rewrite Hp in Hp1. injection Hp1 as <- ->. pose proof (ds_act opt_ min_lvl c0 a rest gai f s0 Ha Hg Hp0) as Hstep.
    eexists. split; [exact Hstep|]. pose proof Hf as Hf'. destruct Hf as [_ HI Hpl _ Hal0 Hw]. split; cbn; try done.
    + by eapply dns_step_DInv.
    + by eapply dns_step_Placed.
    + intros b [Hb|Hb]%elem_of_app; [by apply Hal|]. apply Hal0. rewrite Ha. by right.
    + intros r l l' [Hr|Hr]%elem_of_app Hl Hl' HF; [by apply (Hw r l)|].
      destruct (performed_lists _ _ _ _ _ _ Hd) as [(Hnil & _)|(r0 & Hone & Hh & _ & _)]; [rewrite Hnil in Hr; by apply elem_of_nil in Hr|].
      rewrite Hone in Hr. apply list_elem_of_singleton in Hr as ->. unfold places in Hl. rewrite elem_of_set_seq in Hl.
      pose proof (cl_below _ _ (fo_closed _ _ _ Hf') l HF). lia.
  - eexists. split; [by eapply (ds_schedule _ _ c0)|]. eapply (follows_frame F c0 c); [done|by eapply ds_schedule|by rewrite Hdn|done..|]. auto.
  - eexists. split; [by eapply (ds_start _ _ c0)|]. eapply (follows_frame F c0 c); [done|by eapply ds_start|by rewrite Hdn|done..|].
    intros a [->|?]%elem_of_cons; [by right|by left].
  - eexists. split; [by eapply (ds_silent _ _ c0)|]. eapply (follows_frame F c0 c); [done|by eapply ds_silent|by rewrite Hdn|done..|]. auto.
Qed.

(** A ring that is still allocated is whole. *)
Lemma follows_ring F c0 c r :
  follows F c0 c → r ∈ answers c → allocated c (a_head r) →
  ring (infos (dns c)) (a_head r) (a_addrs r) ∧ ∀ l, l ∈ places r → l ∉ F.
Proof.
  intros [-> HI Hpl Hcl Hal Hw] Hr [x Hx]. apply without_infos in Hx as [_ Hh]. cbn in Hr.
  pose proof (answers_ring _ _ _ (proj2 (proj2 HI)) Hr) as Hr0. pose proof (head_in_places _ _ Hr0) as Hhead.
  destruct Hr0 as [Hne Hring].
  assert (∀ l, l ∈ places r → l ∉ F) as Hout by (intros l Hl HF; by apply Hh, (Hw r l)).
  split; [|done]. split; [done|]. intros i y Hy. pose proof (lookup_lt_Some _ _ _ Hy). apply without_infos.
  split; [by apply Hring|]. apply Hout. unfold places. rewrite elem_of_set_seq. lia.
Qed.

(** The deleter can be called, and frees the ring. *)
Lemma follows_delete F c0 c r :
  follows F c0 c → r ∈ answers c → allocated c (a_head r) →
  delete_ring (a_tail r) (a_head r) (dns c) = Done (tt, without (places r) (dns c)).
Proof.
  intros Hf Hr Ha. destruct (follows_ring F c0 c r Hf Hr Ha) as [Hring _]. destruct Hf as [-> _ Hpl _ _ _].
  rewrite (pl_tail _ Hpl r Hr). by apply delete_ring_frees.
Qed.

Lemma without_without F G s : without G (without F s) = without (F ∪ G) s.
Proof.
  unfold without, with_infos. cbn. f_equal. apply map_eq. intros l. apply option_eq. intros x.
  rewrite !map_lookup_filter_Some. cbn. set_solver.
Qed.

Lemma follows_release F c0 c r :
  follows F c0 c → r ∈ answers c → allocated c (a_head r) → unreferenced c r →
  follows (F ∪ places r) c0 (with_dns (without (places r) (dns c)) c).
Proof.
  intros Hf Hr Ha Hu. pose proof (follows_ring F c0 c r Hf Hr Ha) as [Hring Hout].
  destruct Hf as [-> HI Hpl Hcl Hal Hw]. cbn in Hr. destruct (HI) as (_ & _ & HFr). split; try done.
  - cbn. by rewrite without_without.
  - destruct Hcl as [Hn Hi Hb]. split.
    + intros it key d Hd l Hl [HF|Hp]%elem_of_union; [by eapply Hn|]. eapply unreferenced_not; [exact Hu| |done]. apply elem_of_pointers. right. by exists it, key, d.
    + intros l x Hx Hl q Hq [HF|Hp]%elem_of_union; [eapply Hi; set_solver|].
      destruct (pl_in _ Hpl l) as (r' & Hr' & Hl'); [by exists x|].
      destruct (ring_places c0 r' l (answers_ring _ _ _ HFr Hr') Hl') as [_ Hnext]. specialize (Hnext x q Hx Hq).
      rewrite (same_places c0 r' r q) in Hl' by done. set_solver.
    + intros l [HF|Hp]%elem_of_union; [by apply Hb|]. by apply (places_below c0 r).
  - intros a Hin l Hl [HF|Hp]%elem_of_union; [by eapply Hal|]. eapply unreferenced_not; [exact Hu| |done]. apply elem_of_pointers. left. by exists a.
  - intros r' l l' Hr' Hl Hl' [HF|Hp]%elem_of_union; [apply elem_of_union_l; by apply (Hw r' l)|]. apply elem_of_union_r.
    by rewrite (same_places c0 r' r l) in Hl' by done.
Qed.

Lemma follows_step F c0 c c' :
  follows F c0 c → mem_step c c' →
  ∃ F' c0', F ⊆ F' ∧ rtc (dns_step opt_ min_lvl) c0 c0' ∧ follows F' c0' c'.
Proof.
  intros Hf Hm. destruct Hm as [c1 c2 Hs|c1 r s' Hr Ha Hu Hd].
  - destruct (follows_dns_step F c0 c1 c2 Hf Hs) as (c0' & Hs0 & Hf'). exists F, c0'. split_and!; [done|by apply rtc_once|done].
  - rewrite (follows_delete F c0 c1 r Hf Hr Ha) in Hd. injection Hd as <-.
    exists (F ∪ places r), c0. split_and!; [set_solver|done|by apply follows_release].
Qed.

Lemma follows_run F c0 c c' :
  follows F c0 c → rtc mem_step c c' →
  ∃ F' c0', F ⊆ F' ∧ rtc (dns_step opt_ min_lvl) c0 c0' ∧ follows F' c0' c'.
Proof.
  intros Hf Hr. revert F c0 Hf. induction Hr as [c|c d c' Hs Hr IH]; intros F c0 Hf; [by exists F, c0|].
  destruct (follows_step F c0 c d Hf Hs) as (F1 & c1 & HF1 & Hr1 & Hf1).
  destruct (IH F1 c1 Hf1) as (F2 & c2 & HF2 & Hr2 & Hf2). exists F2, c2. split_and!; [set_solver|by etransitivity|done].
Qed.

Lemma follows_init e : ex_ok e → ex_pending e = [] → follows ∅ (dns_init e) (dns_init e).
Proof.
  intros Hok Hp. split; try done.
  - by apply (dns_run_DInv opt_ min_lvl e).
  - split; cbn; [by intros l [? ?]|by intros ? ?%elem_of_nil|by intros ??? ?%elem_of_nil].
Qed.

(** Every pointer is into a ring that is whole, and so is every place. *)
Lemma follows_points F c0 c l :
  follows F c0 c → l ∈ pointers c ∨ allocated c l →
  ∃ r, r ∈ answers c ∧ l ∈ places r ∧ allocated c (a_head r) ∧ ring (infos (dns c)) (a_head r) (a_addrs r).
Proof.
  intros Hf Hl. assert (l ∉ F ∧ allocated c0 l) as [HF Hl0].
  { destruct Hf as [-> HI Hpl [Hn _ _] Hal _]. destruct (HI) as (HO & _ & HFr). destruct Hl as [Hl|[x Hx]].
    - apply elem_of_pointers in Hl as [(a & Ha & Hl)|(it & key & d & Hd & Hl)]; cbn in *.
      + split; [by eapply Hal|]. by apply (in_ring_valid _ _ (act_in_ring _ _ _ HFr (fr_acts _ _ HFr a Ha))).
      + split; [by eapply Hn|]. by apply (in_ring_valid _ _ (node_base_in_ring _ _ _ _ (proj1 (fr_nodes _ _ HFr _ _ _ Hd)))).
    - apply without_infos in Hx as [Hx HF]. split; [done|by eexists]. }
  destruct (pl_in _ (fo_placed _ _ _ Hf) l Hl0) as (r & Hr & Hlr).
  assert (a_head r ∈ places r) as Hhead by (unfold places in *; rewrite elem_of_set_seq in *; lia).
  assert (a_head r ∉ F) as HhF by (intros Hin; apply HF; by apply (fo_whole _ _ _ Hf r (a_head r) l)).
  pose proof (answers_ring _ _ _ (proj2 (proj2 (fo_inv _ _ _ Hf))) Hr) as Hring.
  destruct (ring_places c0 r (a_head r) Hring Hhead) as [[x Hx] _].
  assert (allocated c (a_head r)) as Ha by (rewrite (fo_eq _ _ _ Hf); exists x; by apply without_infos).
  assert (r ∈ answers c) as Hrc by by rewrite (fo_eq _ _ _ Hf).
  exists r. split_and!; [done..|]. by apply (follows_ring F c0).
Qed.

(** What has been freed is not allocated again. *)
Lemma follows_gone F c0 c l : follows F c0 c → l ∈ F → ¬ allocated c l.
Proof. intros Hf HF [x Hx]. rewrite (fo_eq _ _ _ Hf) in Hx. by apply without_infos in Hx as [_ ?]. Qed.

Lemma gone_stays F c0 c c' r :
  follows F c0 c → r ∈ answers c → rtc mem_step c c' → ¬ allocated c (a_head r) → ¬ allocated c' (a_head r).
Proof.
  intros Hf Hr Hrun Hn. destruct (follows_run F c0 c c' Hf Hrun) as (F' & c0' & HF & _ & Hf').
  apply (follows_gone F' c0' c'); [done|]. apply HF. destruct (decide (a_head r ∈ F)) as [|HnF]; [done|destruct Hn].
  assert (r ∈ answers c0) as Hr0 by (rewrite (fo_eq _ _ _ Hf) in Hr; done).
  pose proof (answers_ring _ _ _ (proj2 (proj2 (fo_inv _ _ _ Hf))) Hr0) as Hring.
  destruct (ring_places c0 r (a_head r) Hring) as [[x Hx] _]; [by eapply head_in_places|].
  rewrite (fo_eq _ _ _ Hf). exists x. by apply without_infos.
Qed.

Lemma unreferenced_same s c r : nodes s = nodes (dns c) → unreferenced (with_dns s c) r ↔ unreferenced c r.
Proof. intros Hn. unfold unreferenced, pointers. cbn. by rewrite Hn. Qed.

(** All rings that nothing points into can be released. *)
Lemma releases F c0 c rs :
  follows F c0 c → rs ⊆ answers c →
  ∃ s', rtc mem_step c (with_dns s' c) ∧ nodes s' = nodes (dns c) ∧
    ∀ r, r ∈ rs → unreferenced c r → ¬ allocated (with_dns s' c) (a_head r).
Proof.
  revert F c. induction rs as [|r rs IH]; intros F c Hf Hrs.
  { exists (dns c). split; [by destruct c|]. split; [done|]. by intros ? ?%elem_of_nil. }
  assert (r ∈ answers c) as Hr by (apply Hrs; by left). assert (rs ⊆ answers c) as Hrs' by set_solver.
  destruct (decide (allocated c (a_head r) ∧ unreferenced c r)) as [[Ha Hu]|Hno].
  - set (s1 := without (places r) (dns c)). pose proof (follows_release F c0 c r Hf Hr Ha Hu) as Hf1.
    assert (mem_step c (with_dns s1 c)) as Hs by (by apply (ms_release c r s1), (follows_delete F c0)).
    destruct (IH _ _ Hf1 Hrs') as (s' & Hrun & Hn & Hgone). exists s'. split_and!; [by eapply rtc_l|done|].
    intros r' [->|Hr']%elem_of_cons Hu'; [|apply Hgone; [done|by apply unreferenced_same]].
    apply (gone_stays _ _ _ _ r Hf1 Hr Hrun). apply (follows_gone _ _ _ _ Hf1), elem_of_union_r.
    eapply head_in_places. by apply (follows_ring F c0 c).
  - destruct (IH _ _ Hf Hrs') as (s' & Hrun & Hn & Hgone). exists s'. split_and!; [done..|].
    intros r' [->|Hr']%elem_of_cons Hu'; [|by apply Hgone]. apply (gone_stays _ _ _ _ r Hf Hr Hrun).
    intros Ha. by apply Hno.
Qed.

(** C19: The resolver's lists are freed when nothing points to them any more, and
    not before. In every run in which the deleters of rings that no shared
    pointer points into may run at any time: callbacks, answers and entries are
    those of a run in which nothing is freed; every step that a thread is about
    to make returns, so no freed address is read; every pointer, and every
    place that is allocated, is in a ring that is whole; the deleter of a ring
    that has not been freed gives [freeaddrinfo] the list that [getaddrinfo]
    returned, and frees it and nothing else; it runs once; and all the rings
    that nothing points into can be freed. *)
Theorem rings_released e c :
  ex_ok e → ex_pending e = [] → rtc mem_step (dns_init e) c →
  (∃ c0, rtc (dns_step opt_ min_lvl) (dns_init e) c0 ∧ c = with_dns (with_infos (infos (dns c)) (dns c0)) c0 ∧
    infos (dns c) ⊆ infos (dns c0)) ∧
  (∀ a rest gai now, acts c ≡ₚ a :: rest → AddrInfoLaws gai →
    ∃ f s', perform opt_ min_lvl gai now a (dns c) = Done (f, s')) ∧
  (∀ l, l ∈ pointers c ∨ allocated c l → ∃ r, r ∈ answers c ∧ l ∈ places r ∧ ring (infos (dns c)) (a_head r) (a_addrs r)) ∧
  (∀ r, r ∈ answers c → allocated c (a_head r) →
    delete_ring (a_tail r) (a_head r) (dns c) = Done (tt, without (places r) (dns c))) ∧
  (∀ r c', r ∈ answers c → ¬ allocated c (a_head r) → rtc mem_step c c' → ¬ allocated c' (a_head r)) ∧
  ∃ c', rtc mem_step c c' ∧ ∀ r, r ∈ answers c' → unreferenced c' r → ¬ allocated c' (a_head r).
Proof.
  intros Hok Hp Hrun. destruct (follows_run _ _ _ _ (follows_init e Hok Hp) Hrun) as (F & c0 & _ & Hr0 & Hf). split_and!.
  - exists c0. split; [done|]. rewrite (fo_eq _ _ _ Hf). split; [done|]. cbn. apply map_filter_subseteq.
  - intros a rest gai now Ha Hg. rewrite (fo_eq _ _ _ Hf) in Ha.
    destruct (follows_perform F c0 c a rest gai now Hf Ha Hg) as (f & s' & _ & Hd & _). by eexists _, _.
  - intros l Hl. destruct (follows_points F c0 c l Hf Hl) as (r & ? & ? & _ & ?). by exists r.
  - intros r. by apply (follows_delete F c0).
  - intros r c' Hr Hn Hr'. by apply (gone_stays F c0 c c' r).
  - destruct (releases F c0 c (answers c) Hf) as (s' & Hr' & Hn & Hgone); [done|].
    exists (with_dns s' c). split; [done|]. intros r Hr Hu. apply Hgone; [done|]. by apply (unreferenced_same s' c).
Qed.
End rings.

(** ** An example: an entry that is resolved again *)
Module RingExample.
Import DnsRunExample.
Local Open Scope nat_scope.

(** A library that frees a list node by node. *)
Fixpoint free_list (fuel : nat) (p : option nat) : M Dns unit :=
  match p with
  | None => mret tt
  | Some l =>
      match fuel with
      | 0 => no_fuel
      | S fuel =>
          x ← info_at l;
          modify (λ s, with_infos (delete l (infos s)) s) ;;
          free_list fuel (ai_next x)
      end
  end.
#[export] Instance free : FreeAddrInfo := λ l, fuel ← gets (λ s, size (infos s)); free_list (S fuel) (Some l).

Definition first (l : nat) (xs : list addrinfo) : option nat := match xs with [] => None | _ => Some l end.

Lemma free_list_frees fuel l xs s :
  linked (infos s) l xs → size (infos s) ≤ fuel →
  free_list fuel (first l xs) s = Done (tt, without (set_seq l (length xs)) s).
Proof.
  revert fuel l s. induction xs as [|x xs IH]; intros fuel l s Hl Hf.
  - destruct fuel; cbn; unfold mret, M_ret, without; (do 2 f_equal; destruct s as [c n nn m ni]; unfold with_infos; cbn; f_equal;
      apply map_eq; intros k; apply option_eq; intros y; rewrite map_lookup_filter_Some; set_solver).
  - pose proof (Hl 0 x eq_refl) as Hx. rewrite Nat.add_0_r in Hx.
    pose proof (map_size_delete_Some l (infos s) ltac:(by eexists)) as Hsize.
    assert (size (infos s) ≠ 0) as Hne by (rewrite map_size_non_empty_iff; intros Hz; by rewrite Hz in Hx).
    destruct fuel as [|fuel]; [lia|]. cbn [first free_list]. unfold info_at. erewrite bind_Done by (unfold deref; by rewrite Hx).
    erewrite bind_Done by done. set (s1 := with_infos _ s). cbn [ai_next].
    replace (if decide _ then None else Some (l + 1)) with (first (S l) xs)
      by (destruct xs; cbn; [done|by rewrite Nat.add_1_r]).
    rewrite (IH fuel (S l) s1).
    + do 2 f_equal. unfold without, with_infos. cbn. f_equal. apply map_eq. intros k. apply option_eq. intros y.
      rewrite !map_lookup_filter_Some, lookup_delete_Some, !elem_of_union, elem_of_singleton. naive_solver.
    + intros i y Hi. pose proof (Hl (S i) y Hi) as Hy. cbn [infos s1 with_infos]. rewrite lookup_delete_ne by lia.
      replace (S l + i) with (l + S i) by lia. rewrite Hy. cbn [length]. do 2 f_equal. destruct (decide (S i = length xs)); repeat case_decide; first [done|lia|f_equal; lia].
    + cbn [infos s1 with_infos]. lia.
Qed.

#[export] Instance free_laws : FreeAddrInfoLaws.
Proof.
  intros l xs s Hne Hl. unfold freeaddrinfo, free. erewrite bind_Done by done.
  destruct xs as [|x xs]; [done|]. apply (free_list_frees (S (size (infos s))) l (x :: xs) s Hl). lia.
Qed.

(** Without the first statement of the deleter the list would be freed twice. *)
Example ring_is_cut : freeaddrinfo 0 DnsExample.s2 = UB "*p".
Proof. by vm_compute. Qed.

(** A pool that is a queue. *)
Definition Queue : Type := Time * list (Time * nat).
#[export] Instance queue_executor : Executor Queue := {|
  ex_now := fst;
  ex_pending := snd;
  ex_ok _ := True;
  ex_schedule t f q q' := q' = (q.1, (t, f) :: q.2);
  ex_start f q q' := ∃ t, (t ≤ q.1)%Z ∧ q.2 ≡ₚ (t, f) :: q'.2 ∧ q'.1 = q.1;
  ex_silent q q' := (q.1 ≤ q'.1)%Z ∧ q'.2 = q.2
|}.
#[export] Instance queue_laws : ExecutorLaws Queue.
Proof.
  split.
  - by intros t f q _ _ ->.
  - intros f q q' _ (t & Ht & Hp & Hnow). split_and!; [done..|]. by exists t.
  - intros q q' _ [Ht Hp]. cbn. by rewrite Hp.
Qed.

Definition q0 : Queue := (now, []).
Definition next : Time := (now + seconds 75)%Z.
Definition with_ex (q : Queue) (acts : list act) (c : conf (E := Queue)) : conf (E := Queue) :=
  mkConf (dns c) q acts [] (accepted c) (called c) (answers c).

(** A callback is answered from the ring at 0, [next] the entry gets the ring
    at 3. *)
Definition d1 : conf (E := Queue) :=
  mkConf DnsResolver_new q0 [AResolve now DnsExample.key 7] [] [(7, DnsExample.key, now)] [] [].
Definition d2 := act_next d1 (AResolve now DnsExample.key 7) [].
Definition d3 := with_ex (now, [(now, 0)]) [] d2.
Definition d4 := with_ex (now, []) [AStart 0] d3.
Definition d5 := act_next d4 (AStart 0) [].
Definition d6 := act_next d5 (AProcess now 0) [].
Definition d7 := act_next d6 (AResolveSync 0) [].
Definition d8 := act_next d7 (AUpdate now 0 (Some 0)) [].
Definition d9 := act_next d8 (ACallbacks 0 [7] (Some 0)) [].
Definition d10 := act_next d9 (ACallbacks 0 [] (Some 1)) [].
Definition d11 := with_ex (now, [(next, 0)]) [] d10.
Definition d12 := with_ex (next, [(next, 0)]) [] d11.
Definition d13 := with_ex (next, []) [AStart 0] d12.
Definition d14 := act_next d13 (AStart 0) [].
Definition d15 := act_next d14 (AProcess next 0) [].
Definition d16 := act_next d15 (AResolveSync 0) [].
Definition d17 := act_next d16 (AUpdate next 0 (Some 3)) [].
Definition old : answer := mkAnswer 0 DnsExample.key 0 2 [DnsExample.address 1; DnsExample.address 2; DnsExample.address 3] now.
Definition d18 := with_dns (after (delete_ring 2 0) (dns d17)) d17.

Abbreviation mstep := (mem_step dns_defaults INFO).

Lemma act_mstep c a rest :
  acts c = a :: rest → (∃ f s', perform dns_defaults INFO DnsExample.gai (ex_now (ex c)) a (dns c) = Done (f, s')) →
  mstep c (act_next c a rest).
Proof. intros Ha Hp. by apply ms_step, act_next_step. Qed.

Ltac act_step d a := apply (rtc_l _ d (act_next d a [])); [apply act_mstep; [by vm_compute|eexists _, _; by vm_compute]|].

Lemma run17 : rtc mstep (dns_init q0) d17.
Proof.
  apply (rtc_l _ _ d1); [exact (ms_step dns_defaults INFO _ _ (ds_resolve dns_defaults INFO (dns_init q0) DnsExample.key 7))|].
  act_step d1 (AResolve now DnsExample.key 7).
  apply (rtc_l _ d2 d3); [apply ms_step, (ds_schedule _ _ d2 now 0 [] (now, [(now, 0)])); by vm_compute|].
  apply (rtc_l _ d3 d4); [apply ms_step, (ds_start _ _ d3 0 (now, [])); exists now; by split_and!|].
  act_step d4 (AStart 0). act_step d5 (AProcess now 0). act_step d6 (AResolveSync 0).
  act_step d7 (AUpdate now 0 (Some 0)). act_step d8 (ACallbacks 0 [7] (Some 0)). act_step d9 (ACallbacks 0 [] (Some 1)).
  apply (rtc_l _ d10 d11); [apply ms_step, (ds_schedule _ _ d10 next 0 [] (now, [(next, 0)])); by vm_compute|].
  apply (rtc_l _ d11 d12); [apply ms_step, (ds_silent _ _ d11 (next, [(next, 0)])); by split|].
  apply (rtc_l _ d12 d13); [apply ms_step, (ds_start _ _ d12 0 (next, [])); exists next; by split_and!|].
  act_step d13 (AStart 0). act_step d14 (AProcess next 0). act_step d15 (AResolveSync 0).
  act_step d16 (AUpdate next 0 (Some 3)). apply rtc_refl.
Qed.

Lemma run18 : rtc mstep (dns_init q0) d18.
Proof.
  eapply rtc_r; [exact run17|]. apply (ms_release _ _ d17 old).
  - assert (answers d17 !! 0 = Some old) as Ho by by vm_compute. by eapply list_elem_of_lookup_2.
  - eexists. by vm_compute.
  - unfold unreferenced. assert (pointers d17 = [4]) as -> by by vm_compute. by apply (bool_decide_unpack _); vm_compute.
  - by vm_compute.
Qed.
End RingExample.
Import RingExample.

Lemma rings_released_witness :
  allocated d17 0 ∧ ¬ allocated d18 0 ∧
  ∃ f s', perform dns_defaults INFO DnsExample.gai next (AResolve (ex_now (ex d18)) DnsExample.key 8) (dns d18) = Done (f, s').
Proof.
  split; [by eexists; vm_compute|]. split; [intros [x Hx]; vm_compute in Hx; discriminate|].
  assert (rtc (mem_step dns_defaults INFO) (dns_init q0)
    (mkConf (dns d18) (ex d18) (AResolve (ex_now (ex d18)) DnsExample.key 8 :: acts d18) (scheduling d18)
      ((8, DnsExample.key, ex_now (ex d18)) :: accepted d18) (called d18) (answers d18))) as Hrun.
  { eapply rtc_r; [exact run18|]. apply ms_step, ds_resolve. }
  assert (ex_ok q0 ∧ ex_pending q0 = []) as [Hok Hp] by done.
  destruct (rings_released dns_defaults INFO q0 _ Hok Hp Hrun) as (_ & Hreturn & _).
  exact (Hreturn (AResolve (ex_now (ex d18)) DnsExample.key 8) (acts d18) DnsExample.gai next (reflexivity _) DnsExample.gai_laws).
Defined.
