(* ===== verification/DnsSettles.v ===== *)
(** * The resolver comes to rest

    While the clock stands and nobody calls [Resolve], the threads have a
    bounded number of steps to make, whatever their order and whatever
    [getaddrinfo] answers; and when none is left every callback has been
    called. First over any executor, then with the thread pool. *)

From S2P Require Import Prelude Logging Epoll Addr Executor Dns ThreadPool PoolExecutor DnsRuns.

Lemma sum_list_with_le {A} (f g : A → nat) l :
  (∀ x, x ∈ l → f x ≤ g x) → sum_list_with f l ≤ sum_list_with g l.
Proof.
  induction l as [|x l IH]; [done|]. intros Hle. cbn.
  pose proof (Hle x ltac:(by left)). specialize (IH (λ y Hy, Hle y ltac:(by right))). lia.
Qed.

(** ** What a step does to the entries of others *)

(** [Resolve] uses an entry, or adds a callback to others. *)
Record aside (d d' : CacheData) : Prop := {
  as_callbacks : callbacks d = [] ↔ callbacks d' = [];
  as_used : (used_at d ≤ used_at d')%Z;
  as_resolved : resolved_at d' = resolved_at d
}.

Section resting.
Context (opt_ : DnsOptions) (min_lvl : Severity).

Lemma aside_refl d : aside d d.
Proof. by split. Qed.

Lemma performed_aside gai now s a f s' it key d :
  performed opt_ gai now s a f s' → (∀ i x, nodes s !! i = Some x → i < next_node s) →
  act_it a ≠ Some it → nodes s !! it = Some (key, d) → ∃ d', nodes s' !! it = Some (key, d') ∧ aside d d'.
Proof.
  intros Hp Hfresh Hit Hd. assert (∃ d', nodes s !! it = Some (key, d') ∧ aside d d') as Hsame.
  { exists d. split; [done|apply aside_refl]. }
  assert (∀ i k d0 d1, nodes s !! i = Some (k, d0) → (it = i → aside d0 d1) →
    ∃ d', <[i := (k, d1)]> (nodes s) !! it = Some (key, d') ∧ aside d d') as Hput.
  { intros i k d0 d1 Hi Has. destruct (decide (it = i)) as [->|Hne]; [|by rewrite lookup_insert_ne].
    rewrite Hd in Hi. injection Hi as <- <-. rewrite lookup_insert_eq. exists d1. split; [done|by apply Has]. }
  destruct Hp as [t hp cb Hmiss|t hp cb i d0 Hi Hcb|t hp cb i d0 Hi Hcb|cb p|i|t i k d0 Hi Hcb|t i k d0 Hi Hk|
    t i k d0 f d1 Hi Ht Hk Hr|i k d0 s' Hi (_ & -> & _)|i k d0 host port xs s' Hi _ -> _ _ _ _ _ _ _|
    t i k d0 p d1 f d2 Hi Hu Ht|i cb cbs p|i p d0 k Hi]; cbn [nodes put_data act_it] in *; try exact Hsame.
  - rewrite lookup_insert_ne; [exact Hsame|]. apply Hfresh in Hd. lia.
  - apply (Hput _ _ _ _ Hi). intros _. split; [|done..]. cbn. split; [done|]. by intros [? _]%app_nil.
  - apply (Hput _ _ _ _ Hi). intros _. split; [done|cbn; lia|done].
  - rewrite lookup_delete_ne by congruence. exact Hsame.
  - apply (Hput _ _ _ _ Hi). congruence.
  - apply (Hput _ _ _ _ Hi). congruence.
Qed.

(** ** The phases of a task

    What a task has still to do at the time [T]: its steps in this round, and
    nine or ten more if it will be due again. *)
Definition used_lately (T : Time) (d : CacheData) : bool :=
  negb (bool_decide (callbacks d = [])) || (T <? used_at d + dns_cache_refresh_duration opt_)%Z.
Definition next_after (T : Time) (d : CacheData) : bool :=
  (T <? resolved_at d + dns_cache_refresh_period opt_)%Z && (T <? used_at d + dns_cache_refresh_duration opt_)%Z.
Definition of_node (P : CacheData → bool) (m : gmap nat (bytes * CacheData)) (it : nat) : bool :=
  match m !! it with Some (_, d) => P d | None => true end.
Definition unless (b : bool) (n : nat) : nat := if b then 0 else n.

Definition pending_phase (T : Time) (x : Time * nat) : nat := unless (T <? x.1)%Z 9.
Definition schedule_phase (T : Time) (x : Time * nat) : nat := S (pending_phase T x).
Definition act_phase (T : Time) (m : gmap nat (bytes * CacheData)) (a : act) : nat :=
  match a with
  | AResolve _ _ _ => 11
  | ACall _ _ => 0
  | AStart _ => 8
  | AProcess t _ => 7 + unless (T <=? t)%Z 10
  | AResolveSync it => 6 + unless (of_node (used_lately T) m it) 10
  | AUpdate t it _ => 5 + unless ((T <=? t)%Z && of_node (used_lately T) m it) 10
  | ACallbacks it _ _ => 2 + unless (of_node (next_after T) m it) 10
  end.

(** What a step leaves to be done. *)
Definition effects_phase (T : Time) (m : gmap nat (bytes * CacheData)) (f : effects) : nat :=
  sum_list_with (act_phase T m) (e_acts f) + sum_list_with (schedule_phase T) (e_schedule f).

Lemma unless_mono (b b' : bool) n : (b = true → b' = true) → unless b' n ≤ unless b n.
Proof. intros Hb. destruct b; cbn; [by rewrite Hb|]. destruct b'; cbn; lia. Qed.

Lemma aside_used_lately T d d' : aside d d' → used_lately T d = true → used_lately T d' = true.
Proof.
  intros [Hc Hu _]. unfold used_lately. rewrite !orb_true_iff, !negb_true_iff, !bool_decide_eq_false, !Z.ltb_lt.
  intros [?|?]; [left; by rewrite <- Hc|right; lia].
Qed.

Lemma aside_next_after T d d' : aside d d' → next_after T d = true → next_after T d' = true.
Proof. intros [_ Hu Hr]. unfold next_after. rewrite !andb_true_iff, !Z.ltb_lt, Hr. lia. Qed.

(** The phases of other tasks do not grow. *)
Lemma act_phase_aside T m m' b :
  (∀ it, act_it b = Some it → ∃ key d d', m !! it = Some (key, d) ∧ m' !! it = Some (key, d') ∧ aside d d') →
  act_phase T m' b ≤ act_phase T m b.
Proof.
  intros Hb. destruct b as [t hp cb|cb p|it|t it|it|t it p|it cbs p]; cbn; [lia|lia|lia|lia| | |];
    destruct (Hb it eq_refl) as (key & d & d' & Hd & Hd' & Has); unfold of_node; rewrite Hd, Hd'.
  - do 6 apply le_n_S. apply unless_mono. by apply aside_used_lately.
  - do 5 apply le_n_S. apply unless_mono. rewrite !andb_true_iff. intros [? ?]. split; [done|].
    by eapply aside_used_lately.
  - do 2 apply le_n_S. apply unless_mono. by apply aside_next_after.
Qed.

(** *** The phase of the task that makes the step *)
Context (Hperiod : (0 < dns_cache_refresh_period opt_)%Z) (Hduration : (0 < dns_cache_refresh_duration opt_)%Z).

Lemma iter_used_at m t k d : 0 < k → (t ≤ used_at (Nat.iter k (used m t) d))%Z.
Proof. intros Hk. destruct k as [|k]; [lia|]. rewrite Nat.iter_succ. cbn. lia. Qed.

Lemma unless_and (a b : bool) n : unless a n ≤ unless (a && b) n.
Proof. destruct a, b; cbn; lia. Qed.

(** The round that is ending is the last one until after [T]. *)
Definition last_round (T t : Time) (d : CacheData) : bool :=
  (T <=? t)%Z && used_lately T d && (T <? resolved_at d + dns_cache_refresh_period opt_)%Z.

Lemma tail_phase T t it key m d f d' nm :
  tail_outcome opt_ t it m d f d' →
  effects_phase T (<[it := (key, d')]> nm) f ≤ 2 + unless (last_round T t d) 10.
Proof.
  unfold last_round, used_lately. destruct 1 as [Hc|Hc]; unfold effects_phase; cbn.
  - rewrite (bool_decide_true _ Hc). cbn. unfold schedule_phase, pending_phase. cbn.
    destruct (Z.ltb_spec T (Z.min (resolved_at d + dns_cache_refresh_period opt_)
      (used_at d + dns_cache_refresh_duration opt_))) as [|Hmin]; cbn; [lia|].
    destruct (_ && _) eqn:Hb; cbn; [|lia]. rewrite !andb_true_iff, !Z.ltb_lt in Hb. lia.
  - rewrite (bool_decide_false _ Hc), andb_true_r. unfold of_node. rewrite lookup_insert_eq.
    rewrite !Nat.add_0_r. do 2 apply le_n_S. apply unless_mono. unfold next_after.
    rewrite !andb_true_iff, Z.leb_le, !Z.ltb_lt. intros [Ht Hr].
    destruct (iter_used m t (length (callbacks d)) (set_callbacks [] d)) as (_ & -> & _). split; [done|].
    pose proof (iter_used_at m t (length (callbacks d)) (set_callbacks [] d)).
    destruct (callbacks d); [done|]. cbn [length] in *. lia.
Qed.

Lemma kept_used_lately T t d : kept opt_ t d → (T ≤ t)%Z → used_lately T d = true.
Proof.
  intros Hk Ht. unfold used_lately. rewrite orb_true_iff, negb_true_iff, bool_decide_eq_false, Z.ltb_lt.
  destruct Hk; [by left|right; lia].
Qed.

Lemma updated_data t m d p d1 : updated t m d p d1 →
  callbacks d1 = callbacks d ∧ used_at d1 = used_at d ∧ resolved_at d1 = t.
Proof. by destruct 1. Qed.

Lemma performed_phase gai T s a f s' :
  performed opt_ gai T s a f s' →
  effects_phase T (nodes s') f < act_phase T (nodes s) a + length (e_called f).
Proof.
  destruct 1 as [t hp cb Hmiss|t hp cb i d0 Hi Hcb|t hp cb i d0 Hi Hcb|cb p|i|t i k d0 Hi Hcb|t i k d0 Hi Hk|
    t i k d0 f d1 Hi Ht Hk Hr|i k d0 s' Hi (_ & Hn & _)|i k d0 host port xs s' Hi _ Hn _ _ _ _ _ _ _|
    t i k d0 p d1 f d2 Hi Hu Ht|i cb cbs p|i p d0 k Hi]; cbn -[effects_phase].
  - unfold effects_phase, schedule_phase, pending_phase, unless. cbn. destruct (T <? t)%Z; lia.
  - cbn. lia.
  - cbn. lia.
  - cbn. lia.
  - cbn. rewrite Z.leb_refl. cbn. lia.
  - cbn. lia.
  - cbn. unfold of_node. rewrite Hi. destruct (Z.leb_spec T t) as [Hle|]; cbn; [|destruct (used_lately T d0); cbn; lia].
    rewrite (kept_used_lately _ _ _ Hk Hle). cbn. lia.
  - pose proof (tail_phase T t i k _ _ _ _ (nodes s) Ht) as Hph. revert Hph. unfold last_round.
    destruct (Z.leb_spec T t) as [Hle|]; cbn; [|lia].
    rewrite (kept_used_lately _ _ _ Hk Hle), (proj2 (Z.ltb_lt T _)) by lia. cbn. lia.
  - cbn. rewrite Z.leb_refl, Hn. cbn. lia.
  - cbn. rewrite Z.leb_refl, Hn. cbn. lia.
  - pose proof (tail_phase T t i k _ _ _ _ (nodes s) Ht) as Hph. revert Hph. unfold last_round, of_node. rewrite Hi.
    destruct (updated_data _ _ _ _ _ Hu) as (Hc & Hus & Hre). unfold used_lately. rewrite Hc, Hus, Hre.
    destruct (Z.leb_spec T t) as [Hle|]; [rewrite (proj2 (Z.ltb_lt T (t + _))) by lia; rewrite andb_true_r|]; cbn; lia.
  - cbn. lia.
  - unfold effects_phase, schedule_phase, pending_phase, of_node, next_after. rewrite Hi. cbn.
    destruct (Z.ltb_spec T (Z.min (resolved_at d0 + dns_cache_refresh_period opt_)
      (used_at d0 + dns_cache_refresh_duration opt_))) as [|Hmin]; cbn; [lia|].
    destruct (_ && _) eqn:Hb; cbn; [|lia]. rewrite !andb_true_iff, !Z.ltb_lt in Hb. lia.
Qed.
End resting.

(** ** The resolver over any executor *)
Section resolver.
Context {E : Type} `{ExecutorLaws E} (opt_ : DnsOptions) (min_lvl : Severity).

(** The steps of the resolver's own: not the calls of [Resolve], nor what the
    executor does without beginning a function. *)
Inductive work_step : conf (E := E) → conf → Prop :=
  | wk_act c a rest gai f s' :
      acts c ≡ₚ a :: rest → AddrInfoLaws gai →
      perform opt_ min_lvl gai (ex_now (ex c)) a (dns c) = Done (f, s') → work_step c (stepped c rest f s')
  | wk_schedule c t it rest e' :
      scheduling c ≡ₚ (t, it) :: rest → ex_schedule t it (ex c) e' →
      work_step c (mkConf (dns c) e' (acts c) rest (accepted c) (called c) (answers c))
  | wk_start c it e' :
      ex_start it (ex c) e' →
      work_step c (mkConf (dns c) e' (AStart it :: acts c) (scheduling c) (accepted c) (called c) (answers c)).

Lemma work_step_dns c c' : work_step c c' → dns_step opt_ min_lvl c c' ∧ accepted c' = accepted c.
Proof. destruct 1; (split; [|done]); by econstructor. Qed.

(** What is left to be done at the present time. *)
Definition dns_rank (c : conf (E := E)) : nat :=
  let T := ex_now (ex c) in
  sum_list_with (act_phase opt_ T (nodes (dns c))) (acts c) +
  sum_list_with (schedule_phase T) (scheduling c) + sum_list_with (pending_phase T) (ex_pending (ex c)) +
  length (pending_cbs c).

Lemma pending_called c c' :
  DInv opt_ c → DInv opt_ c' → accepted c' = accepted c →
  length (called c') + length (pending_cbs c') = length (called c) + length (pending_cbs c).
Proof.
  intros Hc%DInv_pending Hc'%DInv_pending Ha. rewrite Ha, Hc in Hc'. apply Permutation_length in Hc'.
  rewrite !length_app, !length_fmap in Hc'. lia.
Qed.

(** The other tasks, when an action is performed. *)
Lemma rest_aside c a rest gai now f s' it :
  Owned c → acts c ≡ₚ a :: rest → performed opt_ gai now (dns c) a f s' → it ∈ others c rest →
  ∃ key d d', nodes (dns c) !! it = Some (key, d) ∧ nodes s' !! it = Some (key, d') ∧ aside d d'.
Proof.
  intros HO Ha Hp Hit. pose proof (owners_before c a rest Ha) as Hb.
  assert (act_it a ≠ Some it) as Hne.
  { intros Hai. pose proof (ow_nodup _ HO) as Hnd. rewrite Hb in Hnd. cbn in Hnd. rewrite Hai in Hnd.
    by apply NoDup_cons in Hnd as [? _]. }
  assert (is_Some (nodes (dns c) !! it)) as [[key d] Hd].
  { apply (ow_nodes _ HO). rewrite Hb. apply elem_of_app. by right. }
  destruct (performed_aside opt_ _ _ _ _ _ _ it key d Hp (ow_next _ HO) Hne Hd) as (d' & Hd' & Has).
  by exists key, d, d'.
Qed.

(** *** Callbacks wait for a task that is due *)
Record Awaited (c : conf (E := E)) : Prop := {
  aw_resolve : ∀ t hp cb, AResolve t hp cb ∈ acts c → (t ≤ ex_now (ex c))%Z;
  aw_callbacks : ∀ it cbs p key d, ACallbacks it cbs p ∈ acts c → nodes (dns c) !! it = Some (key, d) → callbacks d = [];
  aw_due : ∀ t it key d, (t, it) ∈ scheduling c ∨ (t, it) ∈ ex_pending (ex c) →
    nodes (dns c) !! it = Some (key, d) → callbacks d ≠ [] → (t ≤ ex_now (ex c))%Z
}.

(** What a step of its own leaves of a task. *)
Lemma performed_awaited c a rest gai f s' :
  DInv opt_ c → Awaited c → acts c ≡ₚ a :: rest → performed opt_ gai (ex_now (ex c)) (dns c) a f s' →
  (∀ t hp cb, AResolve t hp cb ∉ e_acts f) ∧
  (∀ it cbs p key d, ACallbacks it cbs p ∈ e_acts f → nodes s' !! it = Some (key, d) → callbacks d = []) ∧
  (∀ t it key d, (t, it) ∈ e_schedule f → nodes s' !! it = Some (key, d) → callbacks d ≠ [] → (t ≤ ex_now (ex c))%Z).
Proof.
  intros HI HA Ha Hp. assert (a ∈ acts c) as Hin by (rewrite Ha; by left).
  assert (∀ t it m d f d' k, tail_outcome opt_ t it m d f d' →
    (∀ t hp cb, AResolve t hp cb ∉ e_acts f) ∧
    (∀ it' cbs p key d0, ACallbacks it' cbs p ∈ e_acts f → <[it := (k, d')]> (nodes (dns c)) !! it' = Some (key, d0) → callbacks d0 = []) ∧
    (∀ t it' key d0, (t, it') ∈ e_schedule f → <[it := (k, d')]> (nodes (dns c)) !! it' = Some (key, d0) → callbacks d0 ≠ [] → (t ≤ ex_now (ex c))%Z)) as Htail.
  { intros t it m d f0 d' k [Hc|Hc]; cbn; split_and!; try (by intros * ?%elem_of_nil);
      intros * Hi%list_elem_of_singleton; try done;
      [injection Hi as -> ->; rewrite lookup_insert_eq; by intros [= _ <-]|].
    injection Hi as -> -> ->. rewrite lookup_insert_eq. intros [= _ <-]. by destruct (iter_used m t (length (callbacks d)) (set_callbacks [] d)) as [-> _]. }
  destruct Hp as [t hp cb Hmiss|t hp cb i d0 Hi Hcb|t hp cb i d0 Hi Hcb|cb p|i|t i k d0 Hi Hcb|t i k d0 Hi Hk|
    t i k d0 f d1 Hi Ht Hk Hr|i k d0 s' Hi (_ & -> & _)|i k d0 host port xs s' Hi _ -> _ _ _ _ _ _ _|
    t i k d0 p d1 f d2 Hi Hu Ht|i cb cbs p|i p d0 k Hi]; try (by eapply Htail);
    cbn [then_ then_schedule no_effects e_acts e_schedule]; split_and!; try (by intros * ?%elem_of_nil);
    intros * Hx%list_elem_of_singleton; try done.
  - injection Hx as -> ->. intros _ _. by eapply (aw_resolve _ HA).
  - injection Hx as -> -> ->. by apply (aw_callbacks _ HA i (cb :: cbs) p).
  - injection Hx as -> ->. intros Hd Hne. destruct Hne. by eapply (aw_callbacks _ HA i [] p).
Qed.

Lemma aside_awaited d d' : aside d d' → (callbacks d = [] → callbacks d' = []) ∧ (callbacks d' ≠ [] → callbacks d ≠ []).
Proof. intros [Hc _ _]. by rewrite Hc. Qed.

Lemma dns_step_Awaited c c' : DInv opt_ c → dns_step opt_ min_lvl c c' → Awaited c → Awaited c'.
Proof.
  intros HI Hs HA. pose proof (ow_ok _ (proj1 HI)) as Hok.
  destruct Hs as [c hp cb|c a rest gai f s' Ha Hg Hp|c t it rest e' Hs He|c it e' He|c e' He].
  - split; cbn; try apply HA.
    + intros t hp' cb' [[= -> _ _]|Hin]%elem_of_cons; [done|by eapply (aw_resolve _ HA)].
    + intros it cbs p key d [[=]|Hin]%elem_of_cons. by apply (aw_callbacks _ HA it cbs p).
  - pose proof (DInv_perform _ min_lvl c a rest gai (ex_now (ex c)) HI Ha Hg) as Hout. unfold wp in Hout. rewrite Hp in Hout.
    destruct (performed_awaited c a rest gai f s' HI HA Ha Hout) as (Hr & Hc & Hd).
    assert (∀ b, b ∈ rest → b ∈ acts c) as Hold by (intros b Hb; rewrite Ha; by right).
    pose proof (λ it, rest_aside c a rest gai _ f s' it (proj1 HI) Ha Hout) as Hrest. unfold others in Hrest.
    setoid_rewrite elem_of_app in Hrest. setoid_rewrite elem_of_app in Hrest.
    split; cbn [acts scheduling ex dns].
    + intros t hp cb [Hin|Hin]%elem_of_app; [by destruct (Hr t hp cb)|]. by eapply (aw_resolve _ HA), Hold.
    + intros it cbs p key d [Hin|Hin]%elem_of_app Hn; [by eapply Hc|].
      destruct (Hrest it) as (key0 & d0 & d' & Hd0 & Hd' & Has).
      { right; right. apply list_elem_of_omap. by exists (ACallbacks it cbs p). }
      rewrite Hd' in Hn. injection Hn as <- <-. apply (aside_awaited _ _ Has). by apply (aw_callbacks _ HA it cbs p _ _ (Hold _ Hin) Hd0).
    + intros t it key d Hin Hn Hne. rewrite elem_of_app in Hin. destruct Hin as [[Hin|Hin]|Hin]; [by eapply Hd|..].
      all: assert (it ∈ (ex_pending (ex c)).*2 ∨ it ∈ (scheduling c).*2) as Hown
        by ((by left; apply list_elem_of_fmap; exists (t, it)) || (by right; apply list_elem_of_fmap; exists (t, it))).
      all: destruct (Hrest it) as (key0 & d0 & d' & Hd0 & Hd' & Has); [tauto|].
      all: rewrite Hd' in Hn; injection Hn as <- <-.
      all: apply (aw_due _ HA t it _ _ ltac:(auto) Hd0), (aside_awaited _ _ Has), Hne.
  - destruct (ex_schedule_ok _ _ _ _ Hok He) as (_ & Hnow & Hpe). split; cbn; rewrite ?Hnow; try apply HA.
    intros t' it' key d Hin. apply (aw_due _ HA t' it' key d). rewrite Hpe in Hin. rewrite Hs. set_solver.
  - destruct (ex_start_ok _ _ _ Hok He) as (_ & Hnow & t & Ht & Hpe). split; cbn; rewrite ?Hnow.
    + intros t' hp cb [[=]|Hin]%elem_of_cons. by eapply (aw_resolve _ HA).
    + intros i cbs p key d [[=]|Hin]%elem_of_cons. by apply (aw_callbacks _ HA i cbs p).
    + intros t' it' key d Hin. apply (aw_due _ HA t' it' key d). rewrite Hpe. set_solver.
  - destruct (ex_silent_ok _ _ Hok He) as (_ & Hnow & Hpe). split; cbn; try apply HA.
    + intros t hp cb Hin. pose proof (aw_resolve _ HA t hp cb Hin). lia.
    + intros t it key d Hin Hn Hne. rewrite Hpe in Hin. pose proof (aw_due _ HA t it key d Hin Hn Hne). lia.
Qed.

Lemma dns_run_Awaited e c :
  ex_ok e → ex_pending e = [] → rtc (dns_step opt_ min_lvl) (dns_init e) c → DInv opt_ c ∧ Awaited c.
Proof.
  intros Hok Hp Hr. apply (rtc_invariant _ (λ c, DInv opt_ c ∧ Awaited c) _ _ Hr).
  - split; [by apply (dns_run_DInv opt_ min_lvl e), rtc_refl|]. split; cbn; by intros * ?%elem_of_nil || idtac.
  - intros a b [HI HA] Hs. split; [by eapply dns_step_DInv|by eapply dns_step_Awaited].
Qed.

(** When nothing is left to be done, every callback has been called. *)
Lemma rested_called c :
  DInv opt_ c → Awaited c → acts c = [] → scheduling c = [] → (∀ t it, (t, it) ∈ ex_pending (ex c) → (ex_now (ex c) < t)%Z) →
  (accepted c).*1.*1 ≡ₚ (called c).*1.
Proof.
  intros HI HA Ha Hs Hdue. rewrite (DInv_pending _ _ HI). unfold pending_cbs. rewrite Ha. cbn.
  assert (node_cbs (nodes (dns c)) = []) as ->; [|by rewrite app_nil_r].
  destruct (node_cbs (nodes (dns c))) as [|cb cbs] eqn:Hn; [done|exfalso].
  assert (cb ∈ node_cbs (nodes (dns c))) as Hin by (rewrite Hn; by left).
  unfold node_cbs in Hin. apply list_elem_of_bind in Hin as ([it [key d]] & Hcb & Hd%elem_of_map_to_list). cbn in Hcb.
  assert (callbacks d ≠ []) as Hne by (intros E0; rewrite E0 in Hcb; by apply elem_of_nil in Hcb).
  assert (it ∈ owners c) as Ho by (apply (ow_nodes _ (proj1 HI)); by eexists).
  unfold owners in Ho. rewrite Ha, Hs in Ho. cbn in Ho. rewrite app_nil_r in Ho.
  apply list_elem_of_fmap in Ho as ([t it'] & -> & Hp). cbn in Hd.
  pose proof (aw_due _ HA t it' key d (or_intror Hp) Hd Hne). specialize (Hdue t it' Hp). lia.
Qed.
(** *** The rank decreases *)
Context (Hperiod : (0 < dns_cache_refresh_period opt_)%Z) (Hduration : (0 < dns_cache_refresh_duration opt_)%Z).

Lemma performed_rank c a rest gai f s' :
  DInv opt_ c → DInv opt_ (stepped c rest f s') → acts c ≡ₚ a :: rest →
  performed opt_ gai (ex_now (ex c)) (dns c) a f s' → dns_rank (stepped c rest f s') < dns_rank c.
Proof.
  intros HI HI' Ha Hp. pose proof (pending_called _ _ HI HI' eq_refl) as Hcb.
  pose proof (performed_phase _ Hperiod Hduration _ _ _ _ _ _ Hp) as Hph. unfold effects_phase in Hph.
  assert (sum_list_with (act_phase opt_ (ex_now (ex c)) (nodes s')) rest ≤
          sum_list_with (act_phase opt_ (ex_now (ex c)) (nodes (dns c))) rest) as Hrest.
  { apply sum_list_with_le. intros b Hb. apply act_phase_aside. intros it Hit.
    eapply rest_aside; [apply HI|exact Ha|exact Hp|]. unfold others. rewrite !elem_of_app. right; right.
    apply list_elem_of_omap. by exists b. }
  unfold dns_rank. cbn [stepped ex dns acts scheduling called] in *. rewrite Ha, !sum_list_with_app.
  rewrite length_app in Hcb. cbn [sum_list_with]. lia.
Qed.

Lemma work_step_rank c c' : DInv opt_ c → work_step c c' → dns_rank c' < dns_rank c ∧ ex_now (ex c') = ex_now (ex c).
Proof.
  intros HI Hs. destruct (work_step_dns _ _ Hs) as [Hd _]. pose proof (dns_step_DInv _ _ _ _ Hd HI) as HI'. clear Hd.
  destruct Hs as [c a rest gai f s' Ha Hg Hp|c t it rest e' Hs He|c it e' He].
  - pose proof (DInv_perform _ min_lvl c a rest gai (ex_now (ex c)) HI Ha Hg) as Hout. unfold wp in Hout. rewrite Hp in Hout.
    split; [by eapply performed_rank|done].
  - destruct (ex_schedule_ok _ _ _ _ (ow_ok _ (proj1 HI)) He) as (_ & Hnow & Hpe). split; [|exact Hnow].
    unfold dns_rank. cbn [ex dns acts scheduling]. rewrite Hnow, Hpe, Hs. cbn [sum_list_with].
    unfold schedule_phase at 2. unfold pending_cbs. cbn. lia.
  - destruct (ex_start_ok _ _ _ (ow_ok _ (proj1 HI)) He) as (_ & Hnow & t & Ht & Hpe). split; [|exact Hnow].
    unfold dns_rank. cbn [ex dns acts scheduling]. rewrite Hnow, Hpe. cbn [sum_list_with].
    unfold pending_phase at 2, pending_cbs. cbn [fst acts bind_cons act_phase]. rewrite (proj2 (Z.ltb_ge _ _) Ht). cbn. lia.
Qed.
End resolver.

(** ** The resolver with its pool of threads *)
Lemma Schedule_rank t f s s' :
  Schedule t f s = Done (tt, s') → pool_rank s' ≤ pool_rank s + 7.
Proof.
  unfold Schedule. intros Hs. revert s' Hs.
  enough (last_idx_ s = INT64_MAX ∨ wp (Schedule t f) (λ _ s', pool_rank s' ≤ pool_rank s + 7) s) as [Hmax|Hw].
  - intros s' Hs. unfold mbind, M_bind in Hs. cbn in Hs. rewrite (proj2 (Z.eqb_eq _ _) Hmax) in Hs. done.
  - intros s' Hs. unfold wp in Hw. unfold Schedule in Hw. by rewrite Hs in Hw.
  - destruct (decide (last_idx_ s = INT64_MAX)) as [|Hne]; [by left|right].
    unfold Schedule. apply wp_bind, wp_gets. rewrite (proj2 (Z.eqb_neq _ _) Hne).
    apply wp_bind, wp_modify, wp_bind, wp_gets. cbn [work_ set_work set_last_idx].
    set (w := mkWork t (last_idx_ s + 1) f). pose proof (Permutation_length (pq_push_perm w (work_ s))) as Hlen.
    destruct (pq_push_top w (work_ s)) as (top & rest & Hq & _). rewrite Hq in *.
    apply wp_when; [intros _; apply wp_modify|intros _]; unfold pool_rank;
      cbn [work_ threads_ pool_now notifications notify set_notifications set_work set_last_idx]; rewrite Hlen; cbn [length].
    + destruct (have_sleeper_ _); cbn; lia.
    + lia.
Qed.

Section pool.
Context (opt_ : DnsOptions) (min_lvl : Severity).
Context (Hperiod : (0 < dns_cache_refresh_period opt_)%Z) (Hduration : (0 < dns_cache_refresh_duration opt_)%Z).

Abbreviation Conf := (conf (E := pconf)).

(** The steps that come about by themselves: those of the resolver, and those
    of the pool's threads that take no function. *)
Inductive settling : Conf → Conf → Prop :=
  | se_work c c' : work_step opt_ min_lvl c c' → settling c c'
  | se_thread c e' :
      thread_step (ex c) e' → funs e'.1.2.*1 = funs (ex c).1.2.*1 →
      settling c (mkConf (dns c) e' (acts c) (scheduling c) (accepted c) (called c) (answers c)).

(** A bound on the number of these steps. *)
Definition settling_rank (c : Conf) : nat := 8 * dns_rank opt_ c + pool_rank (ex c).2.

Lemma settling_dns c c' : DInv opt_ c → settling c c' → dns_step opt_ min_lvl c c'.
Proof.
  intros HI Hs. pose proof (ow_ok _ (proj1 HI)) as Hok. destruct Hs as [c c' Hs|c e' Ht Hf]; [by apply work_step_dns|].
  apply ds_silent. destruct (thread_step_keeps _ _ Ht Hok) as (Hsch & _). split; [by apply ps_thread|]. by rewrite Hsch.
Qed.

Lemma settling_rank_step c c' : DInv opt_ c → settling c c' → settling_rank c' < settling_rank c.
Proof.
  intros HI Hs. pose proof (ow_ok _ (proj1 HI)) as Hok. unfold settling_rank. destruct Hs as [c c' Hs|c e' Ht Hf].
  - destruct (work_step_rank opt_ min_lvl Hperiod Hduration _ _ HI Hs) as [Hr _].
    destruct Hs as [c a rest gai f s' Ha Hg Hp|c t it rest e' Hs (_ & He & _)|c it e' [Ht _]]; cbn [stepped ex] in *.
    + lia.
    + apply Schedule_rank in He. lia.
    + pose proof (thread_step_rank _ _ Hok Ht). lia.
  - pose proof (thread_step_rank _ _ Hok Ht) as Hr. cbn [ex].
    destruct (thread_step_keeps _ _ Ht Hok) as (Hsch & Hnow & _).
    destruct (ex_silent_ok (ex c) e' Hok) as (_ & _ & Hp).
    { split; [by apply ps_thread|]. by rewrite Hsch. }
    unfold dns_rank. cbn [dns ex acts scheduling]. change (ex_now e') with (pool_now e'.2). rewrite Hp, Hnow.
    unfold pending_cbs. cbn. lia.
Qed.

(** Each step of a thread is one of these. *)
Lemma thread_step_settling c e' : DInv opt_ c → thread_step (ex c) e' → ∃ c', settling c c'.
Proof.
  intros HI Ht. destruct (thread_step_keeps _ _ Ht (ow_ok _ (proj1 HI))) as (_ & _ & [Htk|(w & t & Htk)]).
  - eexists. apply se_thread; [done|by rewrite Htk].
  - destruct (w_f w) as [f|] eqn:Hf.
    + eexists. apply se_work, (wk_start _ _ c f e'). split; [done|]. by exists w, t.
    + eexists. apply se_thread; [done|]. rewrite Htk, fmap_app, funs_app. cbn. by rewrite Hf, app_nil_r.
Qed.

#[local] Instance no_answers_laws : AddrInfoLaws (λ _ _, None).
Proof. by split. Qed.

Lemma rested c :
  DInv opt_ c → (∀ c', ¬ settling c c') → last_idx_ (ex c).2 ≠ INT64_MAX →
  acts c = [] ∧ scheduling c = [] ∧ ∀ e', ¬ thread_step (ex c) e'.
Proof.
  intros HI Hno Hmax. split_and!.
  - destruct (acts c) as [|a rest] eqn:Ha; [done|exfalso].
    assert (acts c ≡ₚ a :: rest) as Hp by by rewrite Ha.
    destruct (wp_Done _ _ _ (DInv_perform opt_ min_lvl c a rest (λ _ _, None) (ex_now (ex c)) HI Hp _)) as (f & s' & Hd & _).
    eapply Hno, se_work, (wk_act _ _ c a rest (λ _ _, None) f s'); [exact Hp|apply _|exact Hd].
  - destruct (scheduling c) as [|[t it] rest] eqn:Hs; [done|exfalso].
    pose proof (ow_ok _ (proj1 HI)) as [_ HT].
    destruct (wp_Done _ _ _ (TInv_Schedule t (Some it) _ HT Hmax)) as ([] & s' & Hd & _).
    eapply Hno, se_work, (wk_schedule _ _ c t it rest (_, _, s')); [by rewrite Hs|].
    split; [exact Hmax|]. split; [exact Hd|]. by split.
  - intros e' Ht. by destruct (thread_step_settling c e' HI Ht) as [c' ?%Hno].
Qed.

Lemma settling_run k c c' :
  nsteps settling k c c' → DInv opt_ c → Awaited c →
  k + settling_rank c' ≤ settling_rank c ∧ DInv opt_ c' ∧ Awaited c'.
Proof.
  induction 1 as [c|k c d e Hs Hn IH]; intros HI HA; [done|].
  pose proof (settling_rank_step _ _ HI Hs). pose proof (settling_dns _ _ HI Hs) as Hd.
  destruct IH as (? & ? & ?); [by eapply dns_step_DInv|by eapply dns_step_Awaited|]. split_and!; [lia|done..].
Qed.

(** C12: Every call of [Resolve] is answered. From every state that the
    resolver and its pool can reach, when the clock stands and no more calls
    come, they make at most [settling_rank] steps by themselves, in whatever
    order and whatever [getaddrinfo] answers - each wait, wake-up, lookup, call
    of a callback is one - and when they can make no more, every callback that
    was given to [Resolve] has been called: none waits in the cache, at a task
    that is not due or for a wake-up that is lost. (The periods of the cache are
    positive; the pool has not been told to exit, and has a thread; it can
    still count what is scheduled.) *)
Theorem resolver_settles n now c k c' :
  rtc (dns_step opt_ min_lvl) (dns_init (pool_init n now)) c → nsteps settling k c c' →
  k + settling_rank c' ≤ settling_rank c ∧
  ((∀ x, ¬ settling c' x) → exit_ (ex c').2 = false → last_idx_ (ex c').2 ≠ INT64_MAX →
   (∃ tid st, threads_ (ex c').2 !! tid = Some st ∧ st ≠ Exited) →
   acts c' = [] ∧ scheduling c' = [] ∧ (accepted c').*1.*1 ≡ₚ (called c').*1).
Proof.
  intros Hr Hn. destruct (dns_run_Awaited opt_ min_lvl (pool_init n now) c) as [HI HA]; [|done|done|].
  { split; [apply QInv_new|apply TInv_new]. }
  destruct (settling_run _ _ _ Hn HI HA) as (Hk & HI' & HA'). split; [done|].
  intros Hno He Hmax Hsome. destruct (rested c' HI' Hno Hmax) as (Ha & Hs & Ht). split_and!; [done..|].
  apply (rested_called opt_ c' HI' HA' Ha Hs). intros t it (w & Hw & Hf)%list_elem_of_omap.
  destruct (ex c') as [[sch tk] s] eqn:Hex. pose proof (ow_ok _ (proj1 HI')) as Hok. rewrite Hex in Hok.
  destruct (w_f w) as [f|]; [|done]. injection Hf as <- <-. cbn in *.
  by apply (proj2 (stuck_done _ _ _ Hok Ht) He Hsome).
Qed.
End pool.

(** ** An example: the run of DnsRuns.v, from where the task has begun *)
Module SettleExample.
Import DnsRunExample.
Local Open Scope Z_scope.

Definition next : Time := now + seconds 75.
Definition task' : Work := mkWork next 2 (Some 0%nat).
Definition c10 : conf := act_next c9 (ACallbacks 0 [] (Some 1%nat)) [].
Definition with_pool (p : pconf) (c : conf (E := pconf)) : conf (E := pconf) :=
  mkConf (dns c) p (acts c) (scheduling c) (accepted c) (called c) (answers c).
Definition e11 : pconf := ([task; task'], [(task, now)], after (Schedule next (Some 0%nat)) e2.2).
Definition c11 : conf := mkConf (dns c10) e11 (acts c10) [] (accepted c10) (called c10) (answers c10).
Definition pool_next (f : Pool → Pool) (c : conf (E := pconf)) : conf (E := pconf) := with_pool ((ex c).1, f (ex c).2) c.

(** The thread leaves its critical section, its function returns; both
    notifications find nobody; the thread finds nothing that is due. *)
Definition c12 : conf := pool_next (after (leave task false 1)) c11.
Definition c13 : conf := pool_next (set_thread 1 Looking) c12.
Definition c14 : conf := pool_next (set_notifications [CvOne]) c13.
Definition c15 : conf := pool_next (set_notifications []) c14.
Definition c16 : conf := pool_next (after (Next 1 Looking)) c15.

Abbreviation settles := (settling dns_defaults INFO).

Lemma settle_act c a :
  acts c = [a] → (∃ f s', perform dns_defaults INFO DnsExample.gai (ex_now (ex c)) a (dns c) = Done (f, s')) →
  settles c (act_next c a []).
Proof.
  intros Ha (f & s' & Hp). unfold act_next. rewrite Hp. apply se_work, (wk_act _ _ c a [] DnsExample.gai f s');
    [by rewrite Ha|apply DnsExample.gai_laws|done].
Qed.

Lemma settle_thread c f : thread_step (ex c) ((ex c).1, f (ex c).2) → settles c (pool_next f c).
Proof. intros Ht. by apply se_thread. Qed.

Lemma none_waiting (s : Pool) : threads_ s = {[1%nat := Looking]} → ∀ tid, threads_ s !! tid ≠ Some Waiting.
Proof. intros -> tid [_ ?]%lookup_singleton_Some. done. Qed.

Lemma ex_c10 : ex c10 = e2.
Proof. by vm_compute. Qed.

Lemma settles_in : nsteps settles 12 c4 c16.
Proof.
  do 6 (eapply nsteps_l; [apply settle_act; [by vm_compute|eexists _, _; by vm_compute]|]).
  eapply nsteps_l; [apply se_work, (wk_schedule _ _ c10 next 0 [] e11); [by vm_compute|]|].
  { rewrite ex_c10. by split_and!. }
  eapply nsteps_l; [apply (settle_thread c11 (after (leave task false 1))); by apply (ps_leave _ _ _ 1 task false)|].
  eapply nsteps_l; [apply (settle_thread c12 (set_thread 1 Looking)); by apply (ps_return _ _ _ 1 0)|].
  eapply nsteps_l; [apply (settle_thread c13 (set_notifications [CvOne])), (ps_deliver _ _ _ CvOne [] [CvOne]); [by vm_compute|]|].
  { apply dl_none, none_waiting. by vm_compute. }
  eapply nsteps_l; [apply (settle_thread c14 (set_notifications [])), (ps_deliver _ _ _ CvOne [] []); [by vm_compute|]|].
  { apply dl_none, none_waiting. by vm_compute. }
  eapply nsteps_l; [apply (settle_thread c15 (after (Next 1 Looking)))|apply nsteps_O].
  exact (ps_next [task; task'] [(task, now)] (ex c15).2 1 Looking (after (Next 1 Looking) (ex c15).2)
    ltac:(by vm_compute) eq_refl ltac:(by vm_compute)).
Qed.

(** Only a thread that is not due to wake up is left. *)
Lemma settled c : ¬ settles c16 c.
Proof.
  assert (threads_ (ex c16).2 = {[1%nat := Sleeping next]} ∧ notifications (ex c16).2 = [] ∧ pool_now (ex c16).2 = now) as (Ht & Hn & Hnow)
    by by vm_compute.
  assert (∀ e', ¬ thread_step (ex c16) e') as Hno.
  { intros e' Hs. remember (ex c16) as e eqn:He.
    destruct Hs as [sch tk s tid st s' Hst Hl _|sch tk s tid w n s' Hst _|sch tk s tid f Hst|sch tk s n ns1 ns2 s' Hns _|sch tk s tid u Hst Hu];
      cbn in Ht, Hn, Hnow; try (rewrite Ht in Hst; apply lookup_singleton_Some in Hst as [_ Hst]; try done).
    - by subst st.
    - by destruct ns1; rewrite Hn in Hns.
    - injection Hst as <-. rewrite Hnow in Hu. by apply Hu. }
  intros Hs. remember c16 as c0 eqn:Hc. assert (acts c0 = [] ∧ scheduling c0 = []) as [Ha Hsch] by (subst; by vm_compute).
  destruct Hs as [c c' [c1 a rest gai f s' Hp _ _|c1 t it rest e' Hp _|c1 it e' [Hs _]]|c e' Hs _].
  - rewrite Ha in Hp. by apply Permutation_nil_cons in Hp.
  - rewrite Hsch in Hp. by apply Permutation_nil_cons in Hp.
  - by apply (Hno e').
  - by apply (Hno e').
Qed.
End SettleExample.

Lemma resolver_settles_witness :
  12 + settling_rank dns_defaults SettleExample.c16 ≤ settling_rank dns_defaults DnsRunExample.c4 ∧
  [7] ≡ₚ (called SettleExample.c16).*1.
Proof.
  destruct (resolver_settles dns_defaults INFO eq_refl eq_refl 1 DnsRunExample.now DnsRunExample.c4 12 SettleExample.c16
    DnsRunExample.run4 SettleExample.settles_in) as [Hk Hend]. split; [exact Hk|].
  destruct Hend as (_ & _ & Hc); [exact SettleExample.settled|by vm_compute|by vm_compute| |exact Hc].
  exists 1, (Sleeping SettleExample.next). split; [by vm_compute|done].
Defined.
