(* ===== verification/Acceptor.v ===== *)
(** * Accepting clients (acceptor.h, acceptor.cc)

    The constructor and [Accept], with the [errno] that [Accept] tests after it
    has written a line of the log. *)

From stdpp Require Import pretty.
From S2P Require Import Prelude Logging Epoll Sock Addr.

(** socket(2), setsockopt(2), bind(2), listen(2) and accept4(2): of a client
    the descriptor, the length of its address and the address, or an error. *)
Class AcceptKernel (K : Type) := {
  listen_socket : Z → K → (Z + Z) * K;
  set_reuseaddr : Z → K → bool * K;
  sys_bind : Z → option sockaddr → K → bool * K;
  sys_listen : Z → Z → K → bool * K;
  accept4 : Z → K → (Z * Z * sockaddr + Z) * K;
  set_tcp_nodelay : Z → K → bool * K
}.

(** [sizeof(struct sockaddr)]. *)
Definition SIZEOF_SOCKADDR : Z := 16.

Class AcceptLaws (K : Type) `{AcceptKernel K, FdKernel K} := {
  accept_ok : ∀ fd k conn len addr k', accept4 fd k = (inl (conn, len, addr), k') →
    (0 ≤ conn)%Z ∧ conn ∉ opened k ∧ opened k' = {[conn]} ∪ opened k ∧ len = SIZEOF_SOCKADDR ∧ sa_family addr = AF_INET;
  accept_err : ∀ fd k e k', accept4 fd k = (inr e, k') → opened k' = opened k;
  tcp_nodelay_ok : ∀ fd k, fd ∈ opened k → ∃ k', set_tcp_nodelay fd k = (true, k') ∧ opened k' = opened k
}.

(** acceptor.h: [Acceptor::Options]. *)
Record AcceptorOptions := mkAcceptorOptions { listen_addr : bytes; listen_port : N; accept_queue_size : Z }.
Definition acceptor_defaults : AcceptorOptions := mkAcceptorOptions (B "0.0.0.0") 8889 64.

Section acceptor.
Context {K : Type} `{AcceptLaws K}.
Context (strerror : Z → bytes) (time_str : K → bytes) (clobber : bytes → Z → Z) (min_lvl : Severity).

Abbreviation St := (log_state (W := K)).
Definition on_kernel {A} (m : M K A) : M St A := zoom rest (λ k s, mkLog (errno s) (stderr s) k) m.
Definition log (sev : Severity) (line : Z) (its : list item) : M St unit :=
  LOG strerror time_str clobber min_lvl sev (B "acceptor.cc") line its.
Definition check (line : Z) (cond : bool) (text : bytes) : M St unit :=
  CHECK_LOG strerror time_str clobber min_lvl (B "acceptor.cc") line cond text [StashedErrno].

(** acceptor.cc: [Resolve]; [getaddrinfo] answers with a list or an error. *)
Definition Resolve_listen (getaddrinfo : bytes → bytes → option (list addrinfo)) (host : bytes) (port : N) :
    M St addrinfo :=
  match getaddrinfo (c_str host) (decimal port) with
  | None => abort "(ret = getaddrinfo(host, std::to_string(port).c_str(), &hint, &res)) == 0"
  | Some res =>
      x ← deref "res" (λ _, head res);
      a ← deref "res->ai_addr" (λ _, ai_addr x);
      CHECK "res->ai_addr->sa_family == AF_INET" (sa_family a =? AF_INET)%Z ;;
      mret x
  end.

(** acceptor.cc: [SetSockOpt], of the option that [set] sets. *)
Definition SetSockOpt (set : Z → K → bool * K) (fd : Z) : M St unit :=
  ok ← on_kernel (λ k, Done (set fd k));
  check 49 ok (B "setsockopt(fd, level, optname, &one, sizeof(one)) == 0").

(** acceptor.cc: the constructor; the value of [fd_]. *)
Definition Acceptor_new (getaddrinfo : bytes → bytes → option (list addrinfo)) (opt : AcceptorOptions) : M St Z :=
  addr ← Resolve_listen getaddrinfo (listen_addr opt) (listen_port opt);
  a ← IpPort addr;
  log INFO 56 [Text (B "Listening on "); Text (print_IpPort a)] ;;
  r ← on_kernel (λ k, Done (listen_socket (ai_family addr) k));
  match r with
  | inr _ => abort "(fd_ = socket(addr->ai_family, SOCK_STREAM, 0)) >= 0"
  | inl fd =>
      SetSockOpt set_reuseaddr fd ;;
      ok ← on_kernel (λ k, Done (sys_bind fd (ai_addr addr) k));
      check 59 ok (B "bind(fd_, addr->ai_addr, addr->ai_addrlen) == 0") ;;
      ok ← on_kernel (λ k, Done (sys_listen fd (accept_queue_size opt) k));
      check 60 ok (B "listen(fd_, opt.accept_queue_size) == 0") ;;
      mret fd
  end.

(** acceptor.cc: the destructor. *)
Definition Acceptor_delete (fd_ : Z) : M St unit := on_kernel (close_checked fd_).

Definition sys_accept (fd_ : Z) : M St (Z * Z * sockaddr + Z) := λ s,
  let '(r, k) := accept4 fd_ (rest s) in
  Done (r, mkLog (match r with inr e => e | inl _ => errno s end) (stderr s) k).

(** The errors after which [Accept] tries again. *)
Definition transient (e : Z) : bool := (e =? EMFILE)%Z || (e =? ENFILE)%Z || (e =? ENOBUFS)%Z || (e =? ENOMEM)%Z.

(** acceptor.cc: [Acceptor::Accept]. *)
Fixpoint Accept (fuel : nat) (fd_ : Z) : M St Z :=
  match fuel with
  | 0 => no_fuel
  | S fuel =>
      r ← sys_accept fd_;
      match r with
      | inl (conn, addrlen, addr) =>
          CHECK "addrlen == sizeof(addr)" (addrlen =? SIZEOF_SOCKADDR)%Z ;;
          CHECK "addr.sa_family == AF_INET" (sa_family addr =? AF_INET)%Z ;;
          log INFO 74 [Text (B "["); Text (B (pretty conn)); Text (B "] accepted connection from ");
                       Text (print_IpPort addr)] ;;
          SetSockOpt set_tcp_nodelay conn ;;
          mret conn
      | inr _ =>
          log ERROR 78 [Text (B "accept4() failed: "); StashedErrno] ;;
          e ← gets errno;
          check 79 (transient e) (B "errno == EMFILE || errno == ENFILE || errno == ENOBUFS || errno == ENOMEM") ;;
          Accept fuel fd_
      end
  end.

(** ** Theorems *)

(** The kernel after [n] calls of [accept4]. *)
Definition after_calls (fd_ : Z) (n : nat) (k : K) : K := Nat.iter n (λ k, (accept4 fd_ k).2) k.

Lemma after_calls_S fd_ n k : after_calls fd_ n (accept4 fd_ k).2 = after_calls fd_ (S n) k.
Proof. unfold after_calls. by rewrite Nat.iter_succ_r. Qed.

Lemma log_plain sev line its Q s :
  sev ≠ FATAL → forallb item_plain its = true → (∀ out, Q tt (mkLog (errno s) out (rest s))) → wp (log sev line its) Q s.
Proof. intros Hs Hi HQ. unfold wp, log. by rewrite LOG_plain. Qed.

Lemma check_wp line cond text Q s : cond = true → Q tt s → wp (check line cond text) Q s.
Proof. intros -> HQ. done. Qed.

(** A turn of the loop that fails with an error of those. *)
Lemma Accept_again fuel fd_ s e k :
  accept4 fd_ (rest s) = (inr e, k) → transient e = true →
  ∃ out, Accept (S fuel) fd_ s = Accept fuel fd_ (mkLog e out k).
Proof.
  intros Ha He. cbn [Accept]. unfold sys_accept. erewrite bind_Done by (rewrite Ha; done). cbn [errno stderr].
  unfold log. erewrite bind_Done by (by apply LOG_plain). erewrite bind_Done by done. cbn [errno].
  unfold check. erewrite bind_Done by (rewrite He; done). by eexists.
Qed.

Lemma transient_spec e : transient e = true ↔ e ∈ [EMFILE; ENFILE; ENOBUFS; ENOMEM].
Proof. unfold transient. rewrite !orb_true_iff, !Z.eqb_eq. set_solver. Qed.

(** C30: [Accept] returns the first client that [accept4] gives, however many
    failures for want of resources - [EMFILE], [ENFILE], [ENOBUFS] or [ENOMEM],
    which [errno] still holds after the failure has been logged - come before
    it, with the descriptor open and nothing else opened or closed; and any
    other error aborts. *)
Theorem Accept_correct fd_ n s :
  (∀ i, i < n → ∃ e, (accept4 fd_ (after_calls fd_ i (rest s))).1 = inr e ∧ e ∈ [EMFILE; ENFILE; ENOBUFS; ENOMEM]) →
  match accept4 fd_ (after_calls fd_ n (rest s)) with
  | (inl (conn, _, _), _) =>
      ∃ s', Accept (S n) fd_ s = Done (conn, s') ∧ (0 ≤ conn)%Z ∧ conn ∉ opened (rest s) ∧
        opened (rest s') = {[conn]} ∪ opened (rest s)
  | (inr e, _) => e ∉ [EMFILE; ENFILE; ENOBUFS; ENOMEM] → Accept (S n) fd_ s = Abort "LOG(FATAL)"
  end.
Proof.
  setoid_rewrite <- transient_spec. revert s. induction n as [|n IH]; intros s Herr.
  - change (after_calls fd_ 0 (rest s)) with (rest s). destruct (accept4 fd_ (rest s)) as [[[[conn len] addr]|e] k] eqn:Ha.
    + destruct (accept_ok _ _ _ _ _ _ Ha) as (Hpos & Hnew & Hop & -> & Hfam).
      destruct (tcp_nodelay_ok conn k) as (k' & Hnd & Hop'); [rewrite Hop; set_solver|].
      assert (wp (Accept 1 fd_) (λ c s', c = conn ∧ opened (rest s') = opened k) s) as (c & s' & Hr & -> & Ho)%wp_Done.
      { cbn [Accept]. apply wp_bind. unfold sys_accept, wp at 1. rewrite Ha.
        apply wp_bind, wp_CHECK; [done|]. apply wp_bind, wp_CHECK; [by apply Z.eqb_eq|].
        apply wp_bind, log_plain; [done|done|]. intros out. apply wp_bind. unfold SetSockOpt. apply wp_bind.
        unfold on_kernel. apply wp_zoom. cbn [rest]. unfold wp. rewrite Hnd. cbn. done. }
      exists s'. split; [exact Hr|]. split; [exact Hpos|]. split; [exact Hnew|]. by rewrite Ho.
    + intros Hno. assert (transient e = false) as He by (apply not_true_is_false; by rewrite transient_spec).
      cbn [Accept]. unfold sys_accept. erewrite bind_Done by (rewrite Ha; done). cbn [errno stderr].
      unfold log. erewrite bind_Done by (by apply LOG_plain). erewrite bind_Done by done. cbn [errno].
      unfold check. rewrite He. by rewrite (bind_Abort _ _ "LOG(FATAL)") by (by rewrite CHECK_LOG_plain).
  - destruct (Herr 0 ltac:(lia)) as (e & He & Ht). change (after_calls fd_ 0 (rest s)) with (rest s) in He.
    destruct (accept4 fd_ (rest s)) as [r k] eqn:Ha. cbn in He. subst r.
    destruct (Accept_again (S n) fd_ s e k Ha Ht) as [out Hagain]. rewrite Hagain.
    pose proof (accept_err _ _ _ _ Ha) as Hop.
    assert (∀ i, after_calls fd_ (S i) (rest s) = after_calls fd_ i k) as Hk.
    { intros i. rewrite <- after_calls_S. by rewrite Ha. }
    specialize (IH (mkLog e out k)). cbn [rest] in IH. rewrite Hk. rewrite Hop in IH. apply IH.
    intros i Hi. rewrite <- Hk. apply Herr. lia.
Qed.
End acceptor.

(** ** An example: a system that fails twice for want of descriptors *)
Record sim_accept := mkSimAccept { sim_accepted : gset Z; results : list (sockaddr + Z) }.

#[export] Instance sim_accept_fds : FdKernel sim_accept := {|
  sys_close := λ fd k, if decide (fd ∈ sim_accepted k)
    then (true, mkSimAccept (sim_accepted k ∖ {[fd]}) (results k)) else (false, k);
  opened := sim_accepted
|}.
#[export] Instance sim_accept_fd_laws : FdLaws sim_accept.
Proof.
  split; cbn; intros fd k Hfd.
  - rewrite decide_True by done. by eexists.
  - by rewrite decide_False by done.
Qed.
#[export] Instance sim_accept_kernel : AcceptKernel sim_accept := {|
  listen_socket := λ _ k, let fd := sim_fresh (sim_accepted k) in
    (inl fd, mkSimAccept ({[fd]} ∪ sim_accepted k) (results k));
  set_reuseaddr := λ fd k, (bool_decide (fd ∈ sim_accepted k), k);
  sys_bind := λ fd _ k, (bool_decide (fd ∈ sim_accepted k), k);
  sys_listen := λ fd _ k, (bool_decide (fd ∈ sim_accepted k), k);
  accept4 := λ _ k,
    match results k with
    | inr e :: rs => (inr e, mkSimAccept (sim_accepted k) rs)
    | inl a :: rs => if decide (sa_family a = AF_INET) then
        let fd := sim_fresh (sim_accepted k) in
        (inl (fd, SIZEOF_SOCKADDR, a), mkSimAccept ({[fd]} ∪ sim_accepted k) rs) else (inr 97%Z, k)
    | [] => (inr 9%Z, k)
    end;
  set_tcp_nodelay := λ fd k, (bool_decide (fd ∈ sim_accepted k), k)
|}.
#[export] Instance sim_accept_laws : AcceptLaws sim_accept.
Proof.
  split; cbn.
  - intros fd k conn len addr k'. destruct (results k) as [|[a|e] rs]; try done.
    case_decide; [|done]. intros [= <- <- <- <-]. by destruct (sim_fresh_new (sim_accepted k)).
  - intros fd k e k'. destruct (results k) as [|[a|e'] rs]; [by intros [= _ <-]| |by intros [= _ <-]].
    case_decide; [done|by intros [= _ <-]].
  - intros fd k Hfd. rewrite bool_decide_eq_true_2 by done. by eexists.
Qed.

Module AcceptorExample.
Definition client : sockaddr := mkSockaddr AF_INET (192, 0, 2, 7)%N 1%N.
Definition state (rs : list (sockaddr + Z)) : log_state := mkLog 0 [] (mkSimAccept {[3%Z]} rs).
Abbreviation accept := (Accept (λ _, B "error") (λ _, B "now") (λ _ _, 0%Z) INFO).

(** A client that has gone before it is accepted ends the process: ECONNABORTED. *)
Example it_aborts : accept 10 3 (state [inr 103%Z; inl client]) = Abort "LOG(FATAL)".
Proof. by vm_compute. Qed.

(** The constructor makes a listening socket. *)
Example it_listens : ∃ s', Acceptor_new (λ _, B "error") (λ _, B "now") (λ _ _, 0%Z) INFO
  (λ _ _, Some [mkAddrinfo AF_INET (Some (mkSockaddr AF_INET (0, 0, 0, 0)%N 0xB922%N))]) acceptor_defaults (state []) =
  Done (4%Z, s').
Proof. eexists. by vm_compute. Qed.
End AcceptorExample.

Lemma Accept_correct_witness :
  ∃ s', AcceptorExample.accept 3 3 (AcceptorExample.state [inr EMFILE; inr ENOMEM; inl AcceptorExample.client]) = Done (4%Z, s').
Proof.
  assert (∀ i, i < 2 → ∃ e, (accept4 3 (after_calls 3 i (rest (AcceptorExample.state [inr EMFILE; inr ENOMEM; inl AcceptorExample.client])))).1
    = inr e ∧ e ∈ [EMFILE; ENFILE; ENOBUFS; ENOMEM]) as Herr.
  { intros [|[|i]] Hi; [exists EMFILE|exists ENOMEM|lia]; (split; [by vm_compute|set_solver]). }
  pose proof (Accept_correct (λ _, B "error") (λ _, B "now") (λ _ _, 0%Z) INFO 3 2 _ Herr) as Hr.
  destruct (accept4 3 _) as [r k] eqn:Ha in Hr. vm_compute in Ha. injection Ha as <- <-.
  destruct Hr as (s' & Hr & _). exists s'. exact Hr.
Defined.
