(* ===== verification/Os.v ===== *)
(** * One kernel for all components

    The components are proved against classes of the calls that each of them
    makes. Here is what one kernel that has all the calls promises about those
    of different classes: which of the things that one component observes a
    call of another leaves alone. Descriptors are the names of open files, so a
    call changes what is observed of its own descriptor, or makes a new one. *)

From S2P Require Import Prelude Logging Frame Sock Addr Parser Connector Buffer Forwarder ForwarderLoop Acceptor.

Section one_kernel.
Context {K : Type} `{!FdKernel K, !PipeKernel K, !ReadKernel K}.

(** The observations of the forwarder, and the bytes that read(2) has returned. *)
Definition unread (k k' : K) : Prop := ∀ fd, received k' fd = received k fd.
(** More bytes have been read. *)
Definition grows (k k' : K) : Prop := ∀ fd, received k fd `prefix_of` received k' fd.
Definition still (k k' : K) : Prop := view_of k' = view_of k ∧ unread k k'.

(** Only the descriptors in [S] change; peers may have sent. *)
Definition elsewhere (S : gset Z) (k k' : K) : Prop :=
  ∃ m, agree_off S (with_supply m (view_of k)) (view_of k').

Definition untouched (fd : Z) (k : K) : Prop :=
  bytes_at (v_taken (view_of k)) fd = [] ∧ bytes_at (v_given (view_of k)) fd = [].

(** A new descriptor of a socket. *)
Definition new_socket (fd : Z) (k k' : K) : Prop :=
  agree_off {[fd]} (view_of k) (view_of k') ∧ untouched fd k' ∧ unread k k'.

Class OsLaws `{!AcceptKernel K, !SockOptKernel K, !ConnectKernel K, !ShutdownKernel K} := {
  os_accept : ∀ fd k conn len addr k', accept4 fd k = (inl (conn, len, addr), k') → new_socket conn k k';
  os_accept_err : ∀ fd k e k', accept4 fd k = (inr e, k') → still k k';
  os_accept_nodelay : ∀ fd k, still k (set_tcp_nodelay fd k).2;
  os_socket : ∀ family k fd k', sys_socket family k = (inl fd, k') → new_socket fd k k';
  os_socket_err : ∀ family k e k', sys_socket family k = (inr e, k') → still k k';
  os_nodelay : ∀ fd k, still k (set_nodelay fd k).2;
  os_connect : ∀ fd a k, still k (sys_connect fd a k).2;
  os_read : ∀ fd n k, elsewhere ∅ k (sys_read fd n k).2;
  os_sockopt : ∀ fd k, unread k (getsockopt_error fd k).2;
  os_close : ∀ fd k, unread k (sys_close fd k).2;
  os_pipe : ∀ k, unread k (sys_pipe k).2;
  os_pipe_sz : ∀ fd n k, unread k (set_pipe_sz fd n k).2;
  os_write : ∀ fd d k, unread k (sys_write fd d k).2;
  os_splice : ∀ fin fout n k, unread k (splice fin fout n k).2;
  os_shutdown : ∀ fd how k, unread k (sys_shutdown fd how k).2
}.

#[export] Instance unread_preorder : PreOrder unread.
Proof. split; [done|]. intros k1 k2 k3 H12 H23 fd. by rewrite H23. Qed.
#[export] Instance grows_preorder : PreOrder grows.
Proof. split; [by intros k fd; reflexivity|]. intros k1 k2 k3 H12 H23 fd. etransitivity; [apply H12|apply H23]. Qed.
Lemma unread_grows k k' : unread k k' → grows k k'.
Proof. intros Hun fd. by rewrite Hun. Qed.
Lemma read_grows `{!ReadLaws K} fd n k : grows k (sys_read fd n k).2.
Proof.
  intros fd'. destruct (sys_read fd n k) as [[d|e] k'] eqn:Hr; cbn; [|by rewrite (read_err _ _ _ _ _ Hr)].
  destruct (read_data _ _ _ _ _ Hr) as (_ & Hfd & Ho). destruct (decide (fd' = fd)) as [->|Hne]; [|by rewrite Ho].
  rewrite Hfd. by exists d.
Qed.
#[export] Instance still_preorder : PreOrder still.
Proof. split; [by split|]. intros k1 k2 k3 [? ?] [? ?]. split; [congruence|by etransitivity]. Qed.

Lemma agree_supply S m v v' : agree_off S v v' → agree_off S (with_supply m v) (with_supply m v').
Proof. by intros []. Qed.

Lemma elsewhere_refl S k : elsewhere S k k.
Proof. exists (v_supply (view_of k)). rewrite with_supply_same. apply agree_refl. Qed.

Lemma elsewhere_trans S T k1 k2 k3 : elsewhere S k1 k2 → elsewhere T k2 k3 → elsewhere (S ∪ T) k1 k3.
Proof.
  intros [m1 H12] [m2 H23]. exists m2. eapply agree_trans.
  - eapply agree_mono; [|apply union_subseteq_l]. apply (agree_supply _ m2) in H12. exact H12.
  - eapply agree_mono; [exact H23|apply union_subseteq_r].
Qed.

Lemma elsewhere_mono S T k k' : elsewhere S k k' → S ⊆ T → elsewhere T k k'.
Proof. intros [m Hm] ?. exists m. by eapply agree_mono. Qed.

#[export] Instance elsewhere_preorder S : PreOrder (elsewhere S).
Proof.
  split; [intros k; apply elsewhere_refl|]. intros k1 k2 k3 H12 H23.
  eapply elsewhere_mono; [by eapply elsewhere_trans|set_solver].
Qed.

Lemma agree_elsewhere S k k' : agree_off S (view_of k) (view_of k') → elsewhere S k k'.
Proof. intros Hag. exists (v_supply (view_of k)). by rewrite with_supply_same. Qed.

Lemma still_elsewhere S k k' : still k k' → elsewhere S k k'.
Proof. intros [Hv _]. apply agree_elsewhere. rewrite Hv. apply agree_refl. Qed.

Lemma still_untouched fd k k' : still k k' → untouched fd k → untouched fd k'.
Proof. unfold untouched. by intros [-> _]. Qed.

Lemma elsewhere_untouched S k k' fd : elsewhere S k k' → fd ∉ S → untouched fd k → untouched fd k'.
Proof.
  intros [m Hm] Hfd. unfold untouched, bytes_at. by rewrite (ag_taken _ _ _ Hm), (ag_given _ _ _ Hm).
Qed.
End one_kernel.
Arguments OsLaws K {_ _ _ _ _ _ _}.

Section frames.
Context {K : Type} `{!FdKernel K, !FdLaws K, !PipeKernel K, !PipeKernelLaws K, !SockOptKernel K, !ShutdownKernel K,
  !ForwardLaws K}.

Lemma opened_elsewhere S (k k' : K) fd : elsewhere S k k' → fd ∉ S → fd ∈ opened k' ↔ fd ∈ opened k.
Proof. intros [m Hm] Hfd. rewrite !opened_view. by apply (ag_opened _ _ _ Hm). Qed.

Lemma close_elsewhere fd (k : K) : fd ∈ opened k → elsewhere {[fd]} k (sys_close fd k).2.
Proof.
  rewrite opened_view. intros Hfd. destruct (close_view fd k Hfd) as (k' & -> & Hv). apply agree_elsewhere.
  cbn. rewrite Hv. apply agree_opened. set_solver.
Qed.
End frames.

Section accept.
Context {K : Type} `{!FdKernel K, !FdLaws K, !PipeKernel K, !PipeKernelLaws K, !ReadKernel K, !AcceptKernel K,
  !AcceptLaws K, !SockOptKernel K, !ConnectKernel K, !ShutdownKernel K, !ForwardLaws K, !OsLaws K}.

(** ** The acceptor *)
Context (strerror : Z → bytes) (time_str : K → bytes) (clobber : bytes → Z → Z) (min_lvl : Severity).

(** A client that [Accept] returns has a new descriptor. *)
Lemma Accept_os fuel lfd s fd s' :
  Accept strerror time_str clobber min_lvl fuel lfd s = Done (fd, s') →
  (0 ≤ fd)%Z ∧ fd ∉ opened (rest s) ∧ opened (rest s') = {[fd]} ∪ opened (rest s) ∧
  new_socket fd (rest s) (rest s').
Proof.
  revert s. induction fuel as [|fuel IH]; intros s; [done|].
  destruct (accept4 lfd (rest s)) as [[[[conn len] addr]|e] k] eqn:Ha.
  - destruct (accept_ok _ _ _ _ _ _ Ha) as (Hpos & Hnew & Hop & -> & Hfam).
    destruct (os_accept _ _ _ _ _ _ Ha) as (Hag & Hun & Hrd).
    destruct (tcp_nodelay_ok conn k) as (k' & Hnd & Hop'); [rewrite Hop; set_solver|].
    pose proof (os_accept_nodelay conn k) as Hst. rewrite Hnd in Hst. cbn in Hst.
    assert (wp (Accept strerror time_str clobber min_lvl (S fuel) lfd) (λ c s', c = conn ∧ rest s' = k') s) as Hwp.
    { cbn [Accept]. apply wp_bind. unfold sys_accept, wp at 1. rewrite Ha.
      apply wp_bind, wp_CHECK; [done|]. apply wp_bind, wp_CHECK; [by apply Z.eqb_eq|].
      apply wp_bind, log_plain; [done|done|]. intros out. apply wp_bind. unfold SetSockOpt. apply wp_bind.
      unfold on_kernel. apply wp_zoom. cbn [rest]. unfold wp. rewrite Hnd. cbn. done. }
    unfold wp in Hwp. intros Hs. rewrite Hs in Hwp. destruct Hwp as [-> ->].
    destruct Hst as [Hv Hr]. split_and!; [done|done|congruence|]. split_and!; [by rewrite Hv| |by etransitivity].
    unfold untouched. by rewrite Hv.
  - destruct (transient e) eqn:He.
    + destruct (Accept_again strerror time_str clobber min_lvl fuel lfd s e k Ha He) as [out ->].
      destruct (os_accept_err _ _ _ _ Ha) as [Hv Hr]. pose proof (accept_err _ _ _ _ Ha) as Ho.
      intros (Hpos & Hnew & Hop & Hag & Hun & Hrd)%IH. cbn [rest] in *. rewrite Hv in Hag. rewrite Ho in *.
      split_and!; try done. split_and!; [done|done|by etransitivity].
    + intros Hs. exfalso. cbn [Accept] in Hs. unfold sys_accept in Hs.
      erewrite bind_Done in Hs by (rewrite Ha; done). cbn [errno stderr] in Hs.
      unfold log in Hs. erewrite bind_Done in Hs by (by apply LOG_plain).
      erewrite bind_Done in Hs by done. cbn [errno] in Hs. unfold check in Hs. rewrite He in Hs.
      by rewrite (bind_Abort _ _ "LOG(FATAL)") in Hs by (by rewrite CHECK_LOG_plain).
Qed.
End accept.
