(* ===== verification/SimOs.v ===== *)
(** * A kernel that keeps the laws of all components

    The pipes and sockets of Buffer.v and the reads of Parser.v, in one state
    with accept(2) and connect(2): descriptors come from one table. It shows
    that the laws of Os.v and of the components can hold together, and runs the
    examples of the whole program. *)

From S2P Require Import Prelude Logging Frame Sock Addr Parser Connector Buffer Forwarder ForwarderLoop ForwarderRuns Acceptor Os.

(** [o_clients]: what the next calls of accept(2) return. A connection is in
    progress when connect(2) returns, and has succeeded later. *)
Record sim_os := mkOs { o_pipes : sim_pipes; o_net : sim_net; o_clients : list (sockaddr + Z) }.

Definition set_pipes (p : sim_pipes) (k : sim_os) : sim_os := mkOs p (o_net k) (o_clients k).
Definition on_pipes {A} (f : sim_pipes → A * sim_pipes) (k : sim_os) : A * sim_os :=
  let r := f (o_pipes k) in (r.1, set_pipes r.2 k).

(** A socket gets a descriptor that is free; what was known of the file that had
    the descriptor before is gone. *)
Definition with_socket (fd : Z) (v : view) : view :=
  mkView ({[fd]} ∪ v_opened v) (delete fd (v_reader v)) (delete fd (v_content v)) (delete fd (v_cap v))
    (delete fd (v_taken v)) (delete fd (v_given v)) (v_supply v) (v_failures v).
Definition next_fd (k : sim_os) : Z := sim_fresh (v_opened (sim_view (o_pipes k))).
Definition open_socket (k : sim_os) : sim_os :=
  set_pipes (sim_with (with_socket (next_fd k) (sim_view (o_pipes k))) (o_pipes k)) k.

#[export] Instance sim_os_fds : FdKernel sim_os := {|
  sys_close := λ fd, on_pipes (sys_close fd); opened := λ k, opened (o_pipes k)
|}.
#[export] Instance sim_os_pipes : PipeKernel sim_os := {|
  sys_pipe := on_pipes sys_pipe;
  set_pipe_sz := λ r n, on_pipes (set_pipe_sz r n);
  get_pipe_sz := λ fd k, get_pipe_sz fd (o_pipes k);
  sys_write := λ w d, on_pipes (sys_write w d);
  splice := λ fin fout n, on_pipes (splice fin fout n);
  fionread := λ fd k, fionread fd (o_pipes k);
  view_of := λ k, view_of (o_pipes k)
|}.
#[export] Instance sim_os_shutdown : ShutdownKernel sim_os := {| sys_shutdown := λ fd how, on_pipes (sys_shutdown fd how) |}.
#[export] Instance sim_os_sockopt : SockOptKernel sim_os := {| getsockopt_error := λ fd k, (Some (0%Z, 4%Z), k) |}.
#[export] Instance sim_os_read : ReadKernel sim_os := {|
  sys_read := λ fd n k, let r := sys_read fd n (o_net k) in (r.1, mkOs (o_pipes k) r.2 (o_clients k));
  received := λ k, received (o_net k)
|}.
#[export] Instance sim_os_connect : ConnectKernel sim_os := {|
  sys_socket := λ family k, (inl (next_fd k), open_socket k);
  set_nodelay := λ fd k, (true, k);
  sys_connect := λ fd a k, (Some EINPROGRESS, k)
|}.
#[export] Instance sim_os_accept : AcceptKernel sim_os := {|
  listen_socket := λ _ k, (inl (next_fd k), open_socket k);
  set_reuseaddr := λ fd k, (true, k);
  sys_bind := λ fd _ k, (true, k);
  sys_listen := λ fd _ k, (true, k);
  accept4 := λ _ k,
    match o_clients k with
    | inr e :: rs => (inr e, mkOs (o_pipes k) (o_net k) rs)
    | inl a :: rs => if decide (sa_family a = AF_INET) then
        (inl (next_fd k, SIZEOF_SOCKADDR, a), open_socket (mkOs (o_pipes k) (o_net k) rs)) else (inr 97%Z, k)
    | [] => (inr EAGAIN, k)
    end;
  set_tcp_nodelay := λ fd k, (true, k)
|}.

(** ** The laws *)
Lemma on_pipes_Some {A} (f : sim_pipes → A * sim_pipes) k a p (P : sim_os → Prop) :
  f (o_pipes k) = (a, p) → P (set_pipes p k) → ∃ k', on_pipes f k = (a, k') ∧ P k'.
Proof. intros Hf HP. unfold on_pipes. rewrite Hf. by eexists. Qed.

Lemma next_fd_new k : (0 ≤ next_fd k)%Z ∧ next_fd k ∉ opened k.
Proof. apply sim_fresh_new. Qed.

#[export] Instance sim_os_fd_laws : FdLaws sim_os.
Proof.
  split; cbn; unfold on_pipes; cbn; intros fd k Hfd.
  - rewrite decide_True by done. by eexists.
  - by rewrite decide_False by done.
Qed.

#[export] Instance sim_os_pipe_assumptions : PipeAssumptions sim_os.
Proof.
  split.
  - intros r n k Hr Hn. destruct (size_granted r n (o_pipes k) Hr Hn) as (c & p & Hp & Hc & Hv). exists c.
    eexists. split; [unfold set_pipe_sz, sim_os_pipes, on_pipes; by rewrite Hp|done].
  - intros fd w r n k m k' Hs. unfold splice, sim_os_pipes, on_pipes in Hs.
    destruct (splice fd w n (o_pipes k)) as [x p] eqn:He. injection Hs as -> <-. by apply (finite_supply _ _ _ _ _ _ _ He).
Qed.

#[export] Instance sim_os_pipe_laws : PipeKernelLaws sim_os.
Proof.
  split.
  - apply sim_os_pipe_assumptions.
  - done.
  - intros fd k Hfd. destruct (close_view fd (o_pipes k) Hfd) as (p & Hp & Hv).
    by eapply on_pipes_Some.
  - intros k r w k' Hp. unfold sys_pipe, sim_os_pipes, on_pipes in Hp.
    destruct (sys_pipe (o_pipes k)) as [res p] eqn:He. cbn in Hp. injection Hp as -> <-.
    by apply (pipe_made _ _ _ _ He).
  - intros k e k' Hp. unfold sys_pipe, sim_os_pipes, on_pipes in Hp.
    destruct (sys_pipe (o_pipes k)) as [res p] eqn:He. cbn in Hp. injection Hp as -> <-.
    by apply (pipe_failed _ _ _ He).
  - intros fd r k. apply (get_size fd r (o_pipes k)).
  - intros w r d k Hd Hw Hr Hwr Hc. destruct (write_pipe w r d (o_pipes k) Hd Hw Hr Hwr Hc) as (p & Hp & Hv).
    by eapply on_pipes_Some.
  - intros fd k res k' Hp. unfold sys_write, sim_os_pipes, on_pipes in Hp.
    destruct (sys_write fd [] (o_pipes k)) as [r p] eqn:He. injection Hp as _ <-. by apply (write_nothing _ _ _ _ He).
  - intros fd w r n k res k' Hs. unfold splice, sim_os_pipes, on_pipes in Hs.
    destruct (splice fd w n (o_pipes k)) as [x p] eqn:He. injection Hs as <- <-. by apply (splice_in _ _ r _ _ _ _ He).
  - intros r fd k res k' Hs. unfold splice, sim_os_pipes, on_pipes in Hs.
    destruct (splice r fd _ (o_pipes k)) as [x p] eqn:He. injection Hs as <- <-. by apply (splice_out _ _ _ _ _ He).
  - intros r k. apply (fionread_ok r (o_pipes k)).
Qed.

#[export] Instance sim_os_sockopt_laws : SockOptLaws sim_os.
Proof. split. intros fd k. by eexists _, _. Qed.

#[export] Instance sim_os_forward_laws : ForwardLaws sim_os.
Proof. split; [|done]. intros fd how k _. exists None. eexists. split; [done|]. split; [by left|done]. Qed.

#[export] Instance sim_os_read_laws : ReadLaws sim_os.
Proof.
  split; intros fd n k x k' Hr; unfold sys_read, sim_os_read in Hr; destruct (sys_read fd n (o_net k)) as [r p] eqn:He;
    injection Hr as -> <-; [by apply (read_data _ _ _ _ _ He)|by apply (read_err _ _ _ _ _ He)].
Qed.

#[export] Instance sim_os_connect_laws : ConnectLaws sim_os.
Proof.
  split; cbn; try done.
  - intros family k fd k' [= <- <-]. by destruct (next_fd_new k).
  - intros fd k _. by eexists.
Qed.

#[export] Instance sim_os_accept_laws : AcceptLaws sim_os.
Proof.
  split; cbn.
  - intros fd k conn len addr k'. destruct (o_clients k) as [|[a|e] rs]; try done.
    case_decide; [|done]. intros [= <- <- <- <-]. by destruct (next_fd_new k).
  - intros fd k e k'. destruct (o_clients k) as [|[a|e'] rs]; [by intros [= _ <-]| |by intros [= _ <-]].
    case_decide; [done|by intros [= _ <-]].
  - intros fd k _. by eexists.
Qed.

Lemma open_socket_new k : new_socket (next_fd k) k (open_socket k).
Proof.
  split_and!; [|split; unfold bytes_at; cbn; by rewrite lookup_delete_eq|done].
  split; cbn; try done; intros fd Hfd%not_elem_of_singleton; rewrite ?lookup_delete_ne by done; try done. set_solver.
Qed.

#[export] Instance sim_os_laws : OsLaws sim_os.
Proof.
  split; try done; try (intros; by split).
  - intros fd k conn len addr k'. cbn. destruct (o_clients k) as [|[a|e] rs]; try done.
    case_decide; [|done]. intros [= <- <- <- <-]. by apply (open_socket_new (mkOs (o_pipes k) (o_net k) rs)).
  - intros fd k e k'. cbn. destruct (o_clients k) as [|[a|e'] rs]; [by intros [= _ <-]| |by intros [= _ <-]].
    case_decide; [done|by intros [= _ <-]].
  - intros family k fd k'. cbn. intros [= <- <-]. apply open_socket_new.
  - intros fd n k. apply agree_elsewhere, agree_refl.
Qed.
