(* ===== verification/Footprint.v ===== *)
(** * What a turn of each component changes

    By the method of Frame.v: which calls of callbacks a turn of the parser's,
    the connector's or the forwarder's loop adds, which descriptors it closes,
    and that it leaves what the other components observe of the kernel. And
    what a component relies on: which changes of the kernel, by the others,
    keep its invariant. *)

From S2P Require Import Prelude Logging IntrusiveList Epoll EventLoop LoopTheorems Frame OneShot Sock Addr Parser Connector Buffer Forwarder ForwarderTheorems ForwarderLoop ForwarderNew ForwarderRuns Acceptor Os.

(** The end of a handler of either class. *)
Lemma framed_Finish_with {P W K PQ : Type} `{EpollKernel K} `{Pipe PQ ptr}
    (D : Z → P → Prop) (RW : W → W → Prop) `{!PreOrder RW} sub_delete p (cb : Z → P → M W unit) :
  (∀ x, Stable RW (sub_delete x)) → (∀ fd x, D fd x → Stable RW (cb fd x)) →
  Stable (framed (K := K) (PQ := PQ) D RW) (Finish_with sub_delete p cb).
Proof.
  intros Hdel Hcb. unfold Finish_with. apply stable_bind; [apply _|apply _|]. intros _.
  apply framed_with_handler. intros h Hh. specialize (Hcb _ _ Hh). apply _.
Qed.

Section footprint.
Context {K EK : Type} `{!FdKernel K, !FdLaws K, !PipeKernel K, !PipeKernelLaws K, !ReadKernel K, !ReadLaws K,
  !AcceptKernel K, !SockOptKernel K, !ConnectKernel K, !ConnectLaws K, !ShutdownKernel K, !ForwardLaws K, !OsLaws K}
  `{EpollKernel EK}.

(** ** The parser *)
Section parser.
Context {PQ : Type} `{Pipe PQ ptr} (L : Z → nat → Prop).

Definition parse_who (fd : Z) (x : ParseEventHandler) : Prop := L fd (cb_ x).
Definition parse_effect (w w' : parser_world (K := K)) : Prop :=
  (∃ new, Parser.calls w' = Parser.calls w ++ new) ∧ elsewhere ∅ (sockets w) (sockets w') ∧ grows (sockets w) (sockets w').

#[export] Instance parse_effect_preorder : PreOrder parse_effect.
Proof.
  split.
  - intros w. split; [exists []; by rewrite app_nil_r|split; reflexivity].
  - intros w1 w2 w3 ([n1 H12] & ? & ?) ([n2 H23] & ? & ?). split; [|split; by etransitivity].
    exists (n1 ++ n2). by rewrite H23, H12, (assoc_L (++)).
Qed.

(** The fields of the handler that reads, and the world. *)
Definition read_effect (s s' : ParseEventHandler * parser_world (K := K)) : Prop :=
  cb_ s'.1 = cb_ s.1 ∧ parse_effect s.2 s'.2.

#[export] Instance read_effect_preorder : PreOrder read_effect.
Proof.
  split; [by split|]. intros s1 s2 s3 [? ?] [? ?]. split; [congruence|by etransitivity].
Qed.

Lemma parse_effect_kernel k w : elsewhere ∅ (sockets w) k → grows (sockets w) k → parse_effect w (mkPW k (Parser.calls w)).
Proof. split; [exists []; by rewrite app_nil_r|done]. Qed.

#[export] Instance read_into_stable fd : Stable read_effect (read_into fd).
Proof.
  intros [h w] a s' Hs. unfold read_into in Hs. pose proof (os_read fd (length (content_ h) - size_ h) (sockets w)) as Hk.
  pose proof (read_grows fd (length (content_ h) - size_ h) (sockets w)) as Hg.
  destruct (sys_read _ _ _) as [[d|e] k]; [case_match; [done|]|]; injection Hs as <- <-;
    (split; [done|]; by apply parse_effect_kernel).
Qed.
#[export] Instance put_size_stable n : Stable read_effect (put_size (K := K) n).
Proof. by apply stable_modify. Qed.
#[export] Instance substr_stable (s : bytes) pos n : Stable read_effect (substr s pos n).
Proof. unfold substr. apply _. Qed.
#[export] Instance Read_body_stable fd : Stable read_effect (Read_body fd).
Proof. unfold Read_body. apply _. Qed.
#[export] Instance Read_loop_stable fd fuel : Stable read_effect (Read_loop fd fuel).
Proof. induction fuel; cbn; apply _. Qed.
#[export] Instance Read_stable fd : Stable read_effect (Read fd).
Proof. unfold Read. apply _. Qed.

Definition quiet (k k' : K) : Prop := elsewhere ∅ k k' ∧ grows k k'.
#[export] Instance quiet_preorder : PreOrder quiet.
Proof. split; [split; reflexivity|]. intros k1 k2 k3 [? ?] [? ?]. split; by etransitivity. Qed.
(** Reading the pending error changes nothing that is observed. *)
Definition unmoved (k k' : K) : Prop := elsewhere ∅ k k' ∧ unread k k'.
#[export] Instance unmoved_preorder : PreOrder unmoved.
Proof. split; [split; reflexivity|]. intros k1 k2 k3 [? ?] [? ?]. split; by etransitivity. Qed.
Lemma SockError_unmoved fd : Stable unmoved (SockError (K := K) fd).
Proof.
  unfold SockError. apply stable_bind; [apply _| |apply _]. apply stable_call. intros k. split; [|apply os_sockopt].
  apply agree_elsewhere. rewrite sockopt_view. apply agree_refl.
Qed.
#[export] Instance SockError_quiet fd : Stable quiet (SockError (K := K) fd).
Proof. eapply Stable_mono; [apply SockError_unmoved|]. intros k k' [? ?]. split; [done|by apply unread_grows]. Qed.

Abbreviation parse_framed := (framed (K := EK) (PQ := PQ) parse_who parse_effect).

#[export] Instance parse_delete_stable x : Stable parse_effect (parse_delete (K := K) x).
Proof. unfold parse_delete. apply _. Qed.
#[export] Instance on_sockets_framed {A} (m : M K A) : Stable quiet m → Stable parse_framed (on_sockets m).
Proof.
  intros Hm. apply framed_on_world. eapply (stable_zoom _ quiet); [done|].
  intros w k [? ?]. by apply parse_effect_kernel.
Qed.
#[export] Instance parse_Finish_framed p hp : Stable parse_framed (Parser.Finish p hp).
Proof.
  apply framed_Finish_with; [apply _|apply _|]. intros fd x _. apply stable_modify. intros w.
  split; [by eexists|split; reflexivity].
Qed.
#[export] Instance on_Read_framed p fd : Stable parse_framed (on_sub p (Read fd)).
Proof.
  eapply framed_on_sub; [apply _|]. intros fd' x w x' w' Hx [Hcb He]. cbn in *. unfold parse_who. by rewrite Hcb.
Qed.
#[export] Instance parse_OnEvent_framed min_lvl p e : Stable parse_framed (Parser.OnEvent min_lvl p e).
Proof. unfold Parser.OnEvent, log_warn_operand. apply _. Qed.
#[export] Instance parse_OnTimeout_framed p : Stable parse_framed (Parser.OnTimeout p).
Proof. unfold Parser.OnTimeout. apply _. Qed.
#[export] Instance add_later_framed evs p : Stable parse_framed (add_later evs p).
Proof. unfold add_later. apply _. Qed.

(** A turn of the parser's loop: the handlers at its end are some of those at
    its beginning, with the same descriptors and callbacks; it calls
    callbacks, reads, and leaves every descriptor open. *)
Lemma parser_turn_framed min_lvl vector_capacity fuel :
  Stable parse_framed
    (Loop_turn parse_delete (Parser.OnEvent min_lvl) Parser.OnTimeout (add_later EPOLLIN) vector_capacity fuel).
Proof. apply Loop_turn_stable; apply _. Qed.
End parser.

(** ** The connector *)
(** What [Connect] does to the kernel: the socket that it has made is new. *)
Lemma ConnectAsync_os min_lvl addr k :
  ipv4 addr → ai_family addr = AF_INET →
  wp (ConnectAsync min_lvl addr) (λ fd k', (∃ S, elsewhere S k k' ∧ ∀ x, x ∈ S → x ∉ opened k) ∧
    unread k k' ∧ ((0 ≤ fd)%Z → untouched fd k')) k.
Proof.
  intros Haddr Hfam. unfold ConnectAsync. rewrite Hfam. apply wp_bind. unfold wp at 1.
  destruct (sys_socket AF_INET k) as [[fd|e] k1] eqn:Es.
  2: { pose proof (os_socket_err _ _ _ _ Es) as Hst. destruct (socket_err _ _ _ Es) as [_ He]. wp_steps.
       - rewrite !elem_of_cons in He. destruct He as [->|[->|[->|[->|He]]]]; try done. set_solver.
       - split; [exists ∅; split; [by apply still_elsewhere|set_solver]|]. by split; [apply Hst|lia]. }
  destruct (socket_ok _ _ _ _ Es) as (Hpos & Hnew & Ho), (os_socket _ _ _ _ Es) as (Hag & Hun & Hrd).
  apply wp_bind. apply (wp_mono _ (λ _ k2, k2 = k1)).
  { apply wp_when; [|done]. intros _. apply wp_bind, IpPort_wp; [done|]. by intros. }
  intros [] ? ->. apply wp_bind. unfold wp at 1.
  destruct (nodelay_ok fd k1) as (k2 & Hk2 & Ho2); [set_solver|]. pose proof (os_nodelay fd k1) as H12.
  rewrite Hk2 in *. cbn in H12.
  apply wp_bind, wp_CHECK; [done|]. destruct Haddr as (a & Ha & _). rewrite Ha.
  apply wp_bind. eapply wp_deref; [done|]. apply wp_bind. unfold wp at 1.
  pose proof (connect_opened fd a k2) as Ho3. pose proof (os_connect fd a k2) as H23.
  destruct (sys_connect fd a k2) as [r k3]. cbn in Ho3, H23.
  assert (still k1 k3) as H13 by by etransitivity.
  assert (elsewhere {[fd]} k k3) as Hk3.
  { etransitivity; [by apply agree_elsewhere|by apply still_elsewhere]. }
  assert (unread k k3) as Hr3 by (etransitivity; [exact Hrd|apply H13]).
  assert (wp (mret fd) (λ fd k', (∃ S, elsewhere S k k' ∧ ∀ x, x ∈ S → x ∉ opened k) ∧
    unread k k' ∧ ((0 ≤ fd)%Z → untouched fd k')) k3) as Hret.
  { apply wp_ret. split; [exists {[fd]}; split; [done|set_solver]|]. split; [done|]. intros _. by eapply still_untouched. }
  destruct r as [e|]; [destruct (negb _)|]; [|exact Hret..].
  assert (fd ∈ opened k3) as Hop by (rewrite Ho3, Ho2, Ho; set_solver).
  apply wp_bind, close_checked_wp; [done|].
  intros k4 Hc Ho4. apply wp_ret. split; [exists {[fd]}; split; [|set_solver]|]; [|split; [|lia]].
  - etransitivity; [exact Hk3|]. pose proof (close_elsewhere fd k3 Hop) as Hce. by rewrite Hc in Hce.
  - etransitivity; [exact Hr3|]. pose proof (os_close fd k3) as Hcl. by rewrite Hc in Hcl.
Qed.

Section connector.
Context {PQ : Type} `{Pipe PQ ptr} (L : Z → nat → Prop).

(** The end of an attempt: its callback, its descriptor, whether it succeeded. *)
Record attempt := mkAttempt { at_cb : nat; at_fd : Z; at_ok : bool }.
Definition at_result (e : attempt) : nat * Z := (at_cb e, if at_ok e then at_fd e else (-1)%Z).
Definition failed_fds (ends : list attempt) : gset Z :=
  list_to_set (at_fd <$> filter (λ e, at_ok e = false) ends).

Lemma failed_fds_app l1 l2 : failed_fds (l1 ++ l2) = failed_fds l1 ∪ failed_fds l2.
Proof. unfold failed_fds. by rewrite filter_app, fmap_app, list_to_set_app_L. Qed.

Definition conn_who (fd : Z) (x : ConnectEventHandler) : Prop := L fd (conn_cb x).
Definition conn_ended (ends : list attempt) (w w' : connector_world (K := K)) : Prop :=
  connected w' = connected w ++ (at_result <$> ends) ∧ (∀ e, e ∈ ends → L (at_fd e) (at_cb e)) ∧
  elsewhere (failed_fds ends) (net w) (net w') ∧ unread (net w) (net w').
Definition conn_effect (w w' : connector_world (K := K)) : Prop := ∃ ends, conn_ended ends w w'.

#[export] Instance conn_effect_preorder : PreOrder conn_effect.
Proof.
  split.
  - intros w. exists []. split_and!; [by rewrite app_nil_r|by intros ? ?%elem_of_nil|reflexivity..].
  - intros w1 w2 w3 (e1 & Hc1 & Hl1 & He1 & Hu1) (e2 & Hc2 & Hl2 & He2 & Hu2). exists (e1 ++ e2).
    split_and!; [by rewrite fmap_app, Hc2, Hc1, (assoc_L (++))| | |by etransitivity].
    + intros e [?|?]%elem_of_app; auto.
    + rewrite failed_fds_app. by eapply elsewhere_trans.
Qed.

Lemma conn_effect_kernel k w : elsewhere ∅ (net w) k → unread (net w) k → conn_effect w (mkCW k (connected w)).
Proof. exists []. split_and!; [by rewrite app_nil_r|by intros ? ?%elem_of_nil|done..]. Qed.

Lemma close_checked_stable fd :
  Stable (λ k k' : K, elsewhere {[fd]} k k' ∧ unread k k') (close_checked fd).
Proof.
  intros k [] k' Hs. unfold close_checked, mbind, M_bind in Hs.
  destruct (decide (fd ∈ opened k)) as [Hfd|Hfd].
  - pose proof (close_elsewhere fd k Hfd). pose proof (os_close fd k).
    destruct (sys_close fd k) as [[] k1]; [|done]. by injection Hs as <-.
  - apply close_closed in Hfd. destruct (sys_close fd k) as [b k1]. cbn in Hfd. by subst b.
Qed.

#[export] Instance conn_SockError_stable fd : Stable conn_effect (on_net (SockError fd)).
Proof.
  eapply (stable_zoom _ unmoved); [apply SockError_unmoved|]. intros w k [? ?]. by apply conn_effect_kernel.
Qed.

Lemma conn_finished_stable err fd x : conn_who fd x → Stable conn_effect (conn_finished err fd x).
Proof.
  intros Hx. unfold conn_finished. destruct (err =? 0)%Z.
  - apply stable_modify. intros w. exists [mkAttempt (conn_cb x) fd true].
    split_and!; [done|by intros e ->%list_elem_of_singleton|reflexivity..].
  - intros w [] w' Hs. unfold mbind, M_bind, on_net, zoom in Hs.
    destruct (close_checked fd (net w)) as [[[] k]| | |] eqn:E; try done. injection Hs as <-.
    destruct (close_checked_stable fd _ _ _ E). exists [mkAttempt (conn_cb x) fd false].
    split_and!; [done|by intros e ->%list_elem_of_singleton| |done].
    eapply elsewhere_mono; [done|]. unfold failed_fds. cbn. set_solver.
Qed.

Abbreviation conn_framed := (framed (K := EK) (PQ := PQ) conn_who conn_effect).

#[export] Instance conn_delete_stable x : Stable conn_effect (conn_delete (K := K) x).
Proof. unfold conn_delete. apply _. Qed.
#[export] Instance ConnFinish_framed p err : Stable conn_framed (ConnFinish p err).
Proof. apply framed_Finish_with; [apply _..|]. intros fd x. apply conn_finished_stable. Qed.
#[export] Instance ConnOnEvent_framed p e : Stable conn_framed (ConnOnEvent p e).
Proof. unfold ConnOnEvent. apply _. Qed.
#[export] Instance ConnOnTimeout_framed p : Stable conn_framed (ConnOnTimeout p).
Proof. unfold ConnOnTimeout. apply _. Qed.
#[export] Instance conn_add_later_framed evs p : Stable conn_framed (add_later evs p).
Proof. unfold add_later. apply _. Qed.

(** A turn of the connector's loop: it ends attempts, closes the descriptors of
    those that failed, and leaves everything else. *)
Lemma connector_turn_framed vector_capacity fuel :
  Stable conn_framed (Loop_turn conn_delete ConnOnEvent ConnOnTimeout (add_later EPOLLOUT) vector_capacity fuel).
Proof. apply Loop_turn_stable; apply _. Qed.
End connector.

(** ** The forwarder *)
Section forwarder.
Context {PQ : Type} `{Pipe PQ (Z * Z)}.

Definition buf_effect (s s' : Buffer * K) : Prop := unread s.2 s'.2.
#[export] Instance buf_effect_preorder : PreOrder buf_effect.
Proof. split; [done|]. intros s1 s2 s3. unfold buf_effect. by etransitivity. Qed.

Lemma call_stable {A} (f : K → A * K) : (∀ k, unread k (f k).2) → Stable buf_effect (call f).
Proof.
  intros Hf [b k] a s' Hs. unfold call in Hs. cbn in Hs. specialize (Hf k).
  destruct (f k) as [a' k']. by injection Hs as <- <-.
Qed.

#[export] Instance put_buffer_stable f : Stable buf_effect (put_buffer f).
Proof. by apply stable_modify. Qed.
#[export] Instance look_stable {A} (f : K → A) : Stable buf_effect (look f).
Proof. unfold look. apply _. Qed.
#[export] Instance close_call_stable fd : Stable buf_effect (call (sys_close fd)).
Proof. apply call_stable. intros k. apply os_close. Qed.
#[export] Instance pipe_call_stable : Stable buf_effect (call sys_pipe).
Proof. apply call_stable. intros k. apply os_pipe. Qed.
#[export] Instance pipe_sz_call_stable fd n : Stable buf_effect (call (set_pipe_sz fd n)).
Proof. apply call_stable. intros k. apply os_pipe_sz. Qed.
#[export] Instance write_call_stable fd d : Stable buf_effect (call (sys_write fd d)).
Proof. apply call_stable. intros k. apply os_write. Qed.
#[export] Instance splice_call_stable fin fout n : Stable buf_effect (call (splice fin fout n)).
Proof. apply call_stable. intros k. apply os_splice. Qed.

#[export] Instance close_fd_stable fd : Stable buf_effect (close_fd fd).
Proof. unfold close_fd. apply _. Qed.
#[export] Instance Init_stable n : Stable buf_effect (Init n).
Proof. unfold Init. apply _. Qed.
#[export] Instance buffer_delete_stable : Stable buf_effect (buffer_delete (K := K)).
Proof. unfold buffer_delete. apply _. Qed.
#[export] Instance Write_stable d : Stable buf_effect (Write d).
Proof. unfold Write. apply _. Qed.
#[export] Instance WriteFrom_stable fd : Stable buf_effect (WriteFrom fd).
Proof. unfold WriteFrom. apply _. Qed.
#[export] Instance ReadTo_stable fd : Stable buf_effect (ReadTo fd).
Proof. unfold ReadTo. apply _. Qed.

#[export] Instance link_delete_stable l : Stable (unread (K := K)) (link_delete l).
Proof.
  unfold link_delete. apply stable_bind; [apply _..|]. intros _.
  eapply stable_zoom; [apply buffer_delete_stable|]. by intros k [b k'].
Qed.
#[export] Instance SockError_unread fd : Stable (unread (K := K)) (SockError fd).
Proof. unfold SockError. apply stable_bind; [apply _| |apply _]. apply stable_call. intros k. apply os_sockopt. Qed.
#[export] Instance close_unread fd : Stable (unread (K := K)) (close_checked fd).
Proof. eapply Stable_mono; [apply close_checked_stable|]. by intros k k' [_ ?]. Qed.
#[export] Instance shutdown_stable fd how : Stable (unread (K := K)) (λ k, Done (sys_shutdown fd how k)).
Proof. apply stable_call. intros k. apply os_shutdown. Qed.

(** What the methods of a link keep: they do not change a link's name or peer. *)
Section links.
Context (R : EventLoop.St LinkEventHandler K EK PQ → EventLoop.St LinkEventHandler K EK PQ → Prop) `{!LoopFrame R}.
Context `{Hout : !∀ A p (m : M (Buffer * K) A), Stable buf_effect m → Stable R (on_out p m)}
  `{Hworld : !∀ A (m : M K A), Stable unread m → Stable R (on_world m)}
  `{Hread : !∀ p b, Stable R (upd_link p (set_readable b))} `{Hwrite : !∀ p b, Stable R (upd_link p (set_writable b))}.

#[export] Instance link_stable p : Stable R (link p).
Proof. unfold link. apply _. Qed.
#[export] Instance other_stable p : Stable R (other p).
Proof. unfold other. apply _. Qed.
#[export] Instance Close_stable p : Stable R (Close p).
Proof. unfold Close. apply _. Qed.
#[export] Instance Terminate_stable p : Stable R (Terminate p).
Proof. unfold Terminate. apply _. Qed.
#[export] Instance CloseForReading_stable p : Stable R (CloseForReading p).
Proof. unfold CloseForReading, shutdown_checked. apply _. Qed.
#[export] Instance CloseForWriting_stable p : Stable R (CloseForWriting p).
Proof. unfold CloseForWriting, shutdown_checked. apply _. Qed.
#[export] Instance half_in_stable p : Stable R (half_in p).
Proof. unfold half_in. apply _. Qed.
#[export] Instance half_out_stable p : Stable R (half_out p).
Proof. unfold half_out. apply _. Qed.
#[export] Instance forward_loop_stable p res fuel : Stable R (forward_loop p res fuel).
Proof. revert res. induction fuel; intros res; cbn; apply _. Qed.
#[export] Instance ForwardFromOther_stable p : Stable R (ForwardFromOther p).
Proof. unfold ForwardFromOther, forward_fuel. apply _. Qed.
#[export] Instance Process_stable min_lvl left_first p e : Stable R (Process min_lvl left_first p e).
Proof. unfold Process, log_info. apply _. Qed.
#[export] Instance link_OnEvent_stable min_lvl left_first p e : Stable R (Forwarder.OnEvent min_lvl left_first p e).
Proof. unfold Forwarder.OnEvent, RefreshLink. apply _. Qed.
#[export] Instance link_OnTimeout_stable p : Stable R (Forwarder.OnTimeout p).
Proof. unfold Forwarder.OnTimeout. apply _. Qed.
End links.

Abbreviation fwd_framed := (framed (K := EK) (PQ := PQ) (λ (_ : Z) (_ : LinkEventHandler), True) (unread (K := K))).

#[export] Instance on_out_framed {A} p (m : M (Buffer * K) A) : Stable buf_effect m → Stable fwd_framed (on_out p m).
Proof.
  intros Hm. eapply (framed_on_sub _ _ _ _ (λ s s', unread s.2 s'.2)); [|done].
  eapply stable_zoom; [exact Hm|]. intros [x w] [b k] Hk. exact Hk.
Qed.
#[export] Instance upd_link_framed p f : Stable fwd_framed (upd_link p f).
Proof.
  intros s [] s' Hs. unfold upd_link, upd_handler, mbind, M_bind, handler, deref, modify in Hs.
  destruct (handlers s !! p) as [h|]; [|done]. by injection Hs as <-.
Qed.
#[export] Instance new_link_framed fd n : Stable fwd_framed (new_link fd n).
Proof. unfold new_link. apply stable_bind; [apply _|apply _|]. intros p. apply stable_bind; [apply _|apply (framed_new_handler _ _); exact I|apply _]. Qed.
#[export] Instance New_framed opt fds : Stable fwd_framed (New opt fds).
Proof. unfold New. apply _. Qed.

(** A turn of the forwarder's loop reads nothing with read(2). *)
Lemma forwarder_turn_framed opt min_lvl left_first vector_capacity fuel :
  Stable fwd_framed
    (Loop_turn link_delete (Forwarder.OnEvent min_lvl left_first) Forwarder.OnTimeout (New opt) vector_capacity fuel).
Proof. apply Loop_turn_stable; apply _. Qed.
End forwarder.

(** ** What the components rely on *)
Section rely.
Context {PQ PF : Type} `{!ReadLaws K, !SockOptLaws K, !EpollLaws EK} `{PipeLaws PQ ptr} `{PipeLaws PF (Z * Z)}.

(** The parser: nobody else reads. *)
Lemma parser_rely ks news (s : EventLoop.St ParseEventHandler (parser_world (K := K)) EK PQ) k :
  parser_ok (ks, news, s) → unread (sockets (world s)) k →
  parser_ok (ks, news, set_world (mkPW k (Parser.calls (world s))) s).
Proof.
  intros (xs & HI & HC) Hk. exists xs. cbn in *. split; [by apply Inv_world|].
  eapply OneShot_frame; cbn; try done; [|by intros q h' ?; exists h'|congruence].
  intros p h _ (base & acc & Hr & Hb). exists base, acc. cbn. by rewrite Hk.
Qed.

(** The connector: its sockets stay open. *)
Lemma connector_rely ks news (s : EventLoop.St ConnectEventHandler (connector_world (K := K)) EK PQ) k :
  connector_ok (ks, news, s) → (∀ p h, handlers s !! p = Some h → fd_ h ∈ opened k) →
  connector_ok (ks, news, set_world (mkCW k (connected (world s))) s).
Proof.
  intros (xs & HI & HC) Hk. exists xs. cbn in *. split; [by apply Inv_world|].
  eapply OneShot_frame; cbn; try done; [|by intros q h' ?; exists h'|congruence].
  intros p h [Hp _] _. by eapply Hk.
Qed.

(** The forwarder: its own descriptors stay as they are, and those of the others
    are open and new to it. *)
Abbreviation FSt := (EventLoop.St LinkEventHandler K EK PF).

(** The forwarder's invariant, next to the descriptors [R] of the others. *)
Definition fwd_beside (R : list Z) (s : FSt) : Prop := let r : Reserved := R in fwd_ok s.
Definition apart_from (R : list Z) (s : FSt) : list Z := let r : Reserved := R in apart_fds s.

Definition fwd_owns (s : FSt) (fd : Z) : Prop :=
  fd ∈ pipe_fd s :: waiting_fds s ∨ ∃ p h r, handlers s !! p = Some h ∧ uses h r fd.

Lemma apart_from_split R s : apart_from R s ≡ₚ R ++ pipe_fd s :: waiting_fds s.
Proof. unfold apart_from, apart_fds, reserved. solve_Permutation. Qed.

Lemma fwd_owns_opened R s fd : fwd_beside R s → fwd_owns s fd → fd ∈ opened (world s) ∧ fd ∉ R.
Proof.
  intros (own & xs & HI & HF) Hfd. rewrite opened_view.
  pose proof (fw_waiting _ _ _ _ _ (fo_fwd _ _ _ HF)) as [Hnd Hw].
  change (apart_fds s) with (apart_from R s) in *. setoid_rewrite (apart_from_split R s) in Hw.
  rewrite apart_from_split in Hnd. destruct Hfd as [Hfd|(p & h & r & Hp & Hu)].
  - split; [apply Hw; set_solver|]. apply NoDup_app in Hnd as (_ & Hd & _). intros HR. by apply (Hd fd).
  - split; [by eapply (fw_uses _ _ _ _ _ (fo_fwd _ _ _ HF))|].
    intros HR. eapply (proj2 (proj2 (Hw fd ltac:(set_solver)))); done.
Qed.

Lemma fwd_beside_waits R s fd : fwd_beside R s → fd ∈ R → waiting_ok s fd.
Proof.
  intros (own & xs & HI & HF) Hfd. apply (waits _ _ _ HF). change (fd ∈ apart_from R s).
  rewrite apart_from_split. set_solver.
Qed.

Lemma fwd_beside_nodup R s : fwd_beside R s → NoDup R.
Proof.
  intros (own & xs & HI & HF). pose proof (fw_waiting _ _ _ _ _ (fo_fwd _ _ _ HF)) as [Hnd _].
  change (apart_fds s) with (apart_from R s) in *. rewrite apart_from_split in Hnd. by apply NoDup_app in Hnd as [? _].
Qed.

(** The same forwarder, next to others. *)
Lemma fwd_beside_others R R' s :
  fwd_beside R s → NoDup (apart_from R' s) → (∀ fd, fd ∈ R' → waiting_ok s fd) → fwd_beside R' s.
Proof.
  intros (own & xs & HI & HF) Hnd Hw. exists own, xs. split; [done|].
  pose proof (fw_waiting _ _ _ _ _ (fo_fwd _ _ _ HF)) as [_ Hw0].
  assert (∀ fd, fd ∈ apart_from R' s → waiting_ok s fd) as Hap.
  { intros fd. rewrite apart_from_split. intros [?|Hfd]%elem_of_app; [by apply Hw|].
    apply (waits _ _ _ HF). change (fd ∈ apart_from R s). rewrite apart_from_split. set_solver. }
  destruct HF as [[Fn Fp Fo Fw Fb Fi Fu Fs Fq Fwt] Hrel Hunt]. split; [split; try done|done|].
  - split; [done|]. intros fd [(?&?) Hno _]%Hap. by split_and!.
  - intros fd Hfd%Hap. apply Hfd.
Qed.

Lemma forwarder_rely R R' S (s : FSt) k :
  fwd_beside R s → elsewhere S (world s) k → (∀ fd, fd ∈ S → ¬ fwd_owns s fd) → NoDup R' →
  (∀ fd, fd ∈ R' → (fd ∈ R ∧ fd ∉ S) ∨ (0 ≤ fd)%Z ∧ fd ∈ opened k ∧ untouched fd k ∧ ¬ fwd_owns s fd) →
  fwd_beside R' (set_world k s).
Proof.
  intros Hok [m Hag] HS Hnd Hin. pose proof (λ fd, fwd_owns_opened R s fd Hok) as Hown.
  assert (∀ fd, fd ∈ R' → ¬ fwd_owns s fd) as HR'.
  { intros fd [[HR _]|(_ & _ & _ & ?)]%Hin; [|done]. intros Ho. by apply (Hown fd Ho). }
  assert (NoDup (pipe_fd s :: waiting_fds s)) as Hnd0.
  { destruct Hok as (own & xs & HI & HF). pose proof (fw_waiting _ _ _ _ _ (fo_fwd _ _ _ HF)) as [Hnd0 _].
    change (apart_fds s) with (apart_from R s) in Hnd0. rewrite apart_from_split in Hnd0. by apply NoDup_app in Hnd0 as (_ & _ & ?). }
  assert (∀ fd, waiting_ok s fd → fd ∉ S → waiting_ok (set_world k s) fd) as Hkeep.
  { intros fd [(? & ?) Hno [Htk Hgv]] HfS. split; [|done|]; cbn.
    - split; [done|]. by apply (ag_opened _ _ _ Hag).
    - unfold bytes_at. by rewrite (ag_taken _ _ _ Hag), (ag_given _ _ _ Hag). }
  assert (∀ fd, fd ∈ R' → waiting_ok (set_world k s) fd) as Hw.
  { intros fd Hfd. destruct (Hin fd Hfd) as [[HR HfS]|(Hpos & Hop & Hun & Hno)].
    { apply Hkeep; [|done]. by eapply fwd_beside_waits. }
    split; [split; [done|]| |done]; cbn; [by rewrite <- opened_view|].
    intros p h r Hp Hu. apply Hno. right. by exists p, h, r. }
  assert (fwd_beside [] (set_world k s)) as Hnone.
  { apply (fwd_beside_others _ []) in Hok as (own & xs & HI & HF); [|by rewrite apart_from_split|by intros ? ?%elem_of_nil].
    exists own, xs. split; [by apply Inv_world|]. eapply (Fwd_env_supply m own s _ S); [exact HF|done|exact Hag| | |].
    - intros fd Hfd p h r Hp Hu. apply (HS fd Hfd). right. by exists p, h, r.
    - by apply HF.
    - intros fd Hfd. apply Hkeep; [by eapply waits|]. intros HfS. apply (HS fd HfS). left. exact Hfd. }
  apply (fwd_beside_others []); [done| |done]. rewrite apart_from_split. apply NoDup_app. split_and!; [done| |done].
  intros fd HR ?. apply (HR' fd HR). by left.
Qed.

(** ** What the components guarantee *)
Context (vector_capacity : nat → nat → nat) (min_lvl : Severity).

(** A new request of the parser's. *)
Lemma ParseRequest_wp opt ks news (s : EventLoop.St ParseEventHandler (parser_world (K := K)) EK PQ) t p fd cb :
  0 < max_request_size_bytes opt → parser_ok (ks, news, s) → t ≠ loop_ s → handlers s !! p = None →
  (0 ≤ fd)%Z → fd ≠ pipe_fd s → cb ∉ ks → (∀ q h, handlers s !! q = Some h → fd_ h ≠ fd) →
  wp (ParseRequest opt p fd cb) (λ _ s', let s'' := as_thread (loop_ s) s' in
    parser_ok (cb :: ks, {[p]} ∪ news, s'') ∧ handlers s'' = <[p := mkEH fd 0 false 0 (parse_new opt cb)]> (handlers s) ∧
    pipe_fd s'' = pipe_fd s ∧ loop_ s'' = loop_ s ∧ world s'' = world s) (as_thread t s).
Proof.
  intros Hmax (xs & HI & HC) Ht Hp Hpos Hpf Hcb Hfd. cbn in HI, HC. unfold ParseRequest.
  pose proof (os_accounted _ _ _ _ _ _ _ HC) as Hacc.
  apply wp_bind, wp_CHECK; [by apply Z.leb_le|]. eapply (create_wp cb_); [exact HI|exact HC| |done|].
  - split; [done|split_and!; [done|done|]| |].
    + intros q h [Hq _]. by eapply Hfd.
    + split; [intros Hin; apply Hcb, Hacc; by left|]. intros q h Hl Heq. apply Hcb, Hacc. right. by exists q, h.
    + by apply parse_new_ok.
  - intros q' Hq' s2 HI2 HC2. cbv zeta. change (loop_ s) with (loop_ s2) at 1 2 3 4 5.
    rewrite as_thread_back by apply HI2. split; [by exists xs|]. by split_and!.
Qed.

Lemma parser_turn_ok (L : Z → nat → Prop) ks news (s s' : EventLoop.St ParseEventHandler (parser_world (K := K)) EK PQ) :
  parser_ok (ks, news, s) → turn_env vector_capacity s →
  (∃ n, ∀ fuel, n < fuel → Loop_turn parse_delete (Parser.OnEvent min_lvl) Parser.OnTimeout (add_later EPOLLIN)
    vector_capacity fuel s = Done (tt, s')) →
  (∀ p h, handlers s !! p = Some h → L (fd_ h) (cb_ (sub_ h))) →
  parser_ok (ks, list_to_set (pending (pipe_ s')), s') ∧
  (∀ p h, handlers s' !! p = Some h → L (fd_ h) (cb_ (sub_ h))) ∧ same_place s s' ∧ parse_effect (world s) (world s').
Proof.
  intros Hok He Hs' HL. split.
  - eapply (os_step_ok cb_ (λ w, (Parser.calls w).*1) parse_PI); [|exact Hok|].
    + intros ks'. apply parse_client. intros fd k. apply os_sockopt.
    + eapply os_turn; [exact He|exact Hs'|]. intros q. by rewrite elem_of_list_to_set.
  - destruct Hs' as [n Hn]. eapply (parser_turn_framed L); [by apply (Hn (S n)), Nat.lt_succ_diag_r|exact HL].
Qed.

(** A request of the connector's. *)
Definition connect_post ks cb (s s' : EventLoop.St ConnectEventHandler (connector_world (K := K)) EK PQ) (p : ptr) : Prop :=
  connector_ok (cb :: ks, list_to_set (pending (pipe_ s')), s') ∧ pipe_fd s' = pipe_fd s ∧ loop_ s' = loop_ s ∧
  (∃ S, elsewhere S (net (world s)) (net (world s')) ∧ ∀ x, x ∈ S → x ∉ opened (net (world s))) ∧
  unread (net (world s)) (net (world s')) ∧
  ((connected (world s') = connected (world s) ++ [(cb, (-1)%Z)] ∧ handlers s' = handlers s ∧
    opened (net (world s')) = opened (net (world s))) ∨
   (connected (world s') = connected (world s) ∧ ∃ fd,
    handlers s' = <[p := mkEH fd 0 false 0 (mkConnect cb)]> (handlers s) ∧ (0 ≤ fd)%Z ∧
    fd ∉ opened (net (world s)) ∧ opened (net (world s')) = {[fd]} ∪ opened (net (world s)) ∧
    untouched fd (net (world s')))).

Lemma Connect_ok ks news (s : EventLoop.St ConnectEventHandler (connector_world (K := K)) EK PQ) t p addr cb :
  connector_ok (ks, news, s) → t ≠ loop_ s → handlers s !! p = None → pipe_fd s ∈ opened (net (world s)) →
  cb ∉ ks → ipv4 addr → ai_family addr = AF_INET →
  wp (Connect min_lvl p addr cb) (λ _ c, connect_post ks cb s (as_thread (loop_ s) c) p) (as_thread t s).
Proof.
  intros Hok Ht Hp Hpf Hcb Haddr Hfam. pose proof Hok as (xs & HI & HC). cbn in HI, HC.
  pose proof (os_accounted _ _ _ _ _ _ _ HC) as Hacc.
  assert (new_attempt p cb news s) as Hnew.
  { split_and!; [done|done|intros Hin; apply Hcb, Hacc; by left|].
    intros q h Hl Heq. apply Hcb, Hacc. right. by exists q, h. }
  pose proof (Connect_wp min_lvl _ _ _ _ _ t p addr cb _ HI HC Hnew Ht Haddr Hfam
    (ConnectAsync_os min_lvl addr (net (world s)) Haddr Hfam)) as ([] & c & Hc & Hpost)%wp_Done.
  unfold wp. rewrite Hc. destruct Hpost as (Hpi & Hlo & Hpost).
  assert (connector_ok (cb :: ks, list_to_set (pending (pipe_ c)), as_thread (loop_ s) c)) as Hok'.
  { eapply (request_ok vector_capacity min_lvl); try done. intros q. by rewrite elem_of_list_to_set. }
  unfold connect_post. change (pipe_fd (as_thread ?t ?s)) with (pipe_fd s).
  change (world (as_thread ?t ?s)) with (world s). change (pipe_ (as_thread ?t ?s)) with (pipe_ s).
  change (handlers (as_thread ?t ?s)) with (handlers s). change (loop_ (as_thread ?t ?s)) with (loop_ s).
  do 3 (split; [done|]).
  destruct Hpost as [(? & ? & ? & Hel & Hun & _)|(? & fd & ? & Hpos & ? & ? & (Hel & Hun & Hunt) & _)];
    (split; [exact Hel|]); (split; [exact Hun|]); [by left|right].
  split; [done|]. exists fd. split_and!; auto.
Qed.

Lemma connector_turn_ok (L : Z → nat → Prop) ks news (s s' : EventLoop.St ConnectEventHandler (connector_world (K := K)) EK PQ) :
  connector_ok (ks, news, s) → turn_env vector_capacity s →
  (∃ n, ∀ fuel, n < fuel → Loop_turn conn_delete ConnOnEvent ConnOnTimeout (add_later EPOLLOUT)
    vector_capacity fuel s = Done (tt, s')) →
  (∀ p h, handlers s !! p = Some h → L (fd_ h) (conn_cb (sub_ h))) →
  connector_ok (ks, list_to_set (pending (pipe_ s')), s') ∧
  (∀ p h, handlers s' !! p = Some h → L (fd_ h) (conn_cb (sub_ h))) ∧ same_place s s' ∧
  ∃ ends, conn_ended L ends (world s) (world s').
Proof.
  intros Hok He Hs' HL. split.
  - eapply (connector_os vector_capacity); [exact Hok|].
    eapply os_turn; [exact He|exact Hs'|]. intros q. by rewrite elem_of_list_to_set.
  - destruct Hs' as [n Hn]. eapply (connector_turn_framed L); [by apply (Hn (S n)), Nat.lt_succ_diag_r|exact HL].
Qed.

Lemma forwarder_turn_ok opt left_first R (s s' : FSt) :
  opt_ok opt → fwd_beside R s → turn_env vector_capacity s →
  (∃ n, ∀ fuel, n < fuel → Loop_turn link_delete (Forwarder.OnEvent min_lvl left_first) Forwarder.OnTimeout (New opt)
    vector_capacity fuel s = Done (tt, s')) →
  fwd_beside R s' ∧ same_place s s' ∧ unread (world s) (world s').
Proof.
  intros Hopt Hok He Hs'. split.
  - eapply (fwd_step_ok opt min_lvl left_first vector_capacity s); [exact Hopt|exact Hok|by apply fs_turn].
  - destruct Hs' as [n Hn]. eapply (forwarder_turn_framed opt min_lvl left_first vector_capacity); [by apply (Hn (S n)), Nat.lt_succ_diag_r|done].
Qed.
End rely.
End footprint.
