(* ===== verification/Requests.v ===== *)
(** * What the parser answers

    Each answer of the parser that is not empty is the host and port of a text
    that the client's socket has sent and that matches the documented regular
    expression, through whole turns of the parser's loop: what Parser.v shows
    of one event, for all the handlers of a loop and all its callbacks. *)

From S2P Require Import Prelude Logging IntrusiveList Epoll EventLoop LoopTheorems Frame OneShot Sock Addr Parser Connector Buffer Forwarder ForwarderTheorems ForwarderLoop ForwarderNew ForwarderRuns Acceptor Os Footprint.

Section requests.
Context {K EK PQ : Type} `{!FdKernel K, !FdLaws K, !PipeKernel K, !PipeKernelLaws K, !ReadKernel K, !ReadLaws K,
  !AcceptKernel K, !SockOptKernel K, !SockOptLaws K, !ConnectKernel K, !ConnectLaws K, !ShutdownKernel K, !ForwardLaws K,
  !OsLaws K} `{EpollLaws EK} `{PipeLaws PQ ptr}.
Abbreviation St := (EventLoop.St ParseEventHandler (parser_world (K := K)) EK PQ).

(** A request for [hp] has been read from [fd]. *)
Definition heard (k : K) (fd : Z) (hp : bytes) : Prop :=
  ∃ base req, base ++ req `prefix_of` received k fd ∧ matches req hp.

Lemma heard_grows k k' fd hp : grows k k' → heard k fd hp → heard k' fd hp.
Proof. intros Hg (base & req & Hp & Hm). exists base, req. split; [|done]. etransitivity; [done|apply Hg]. Qed.

(** [L]: which descriptor a callback is for. *)
Context (L : Z → nat → Prop).
Definition answers_heard (w : parser_world (K := K)) : Prop :=
  ∀ cb hp, (cb, hp) ∈ Parser.calls w → hp ≠ [] → ∃ fd, L fd cb ∧ heard (sockets w) fd hp.
Definition all_heard (s : St) : Prop := all_handlers (parse_who L) s ∧ answers_heard (world s).

(** One more answer. *)
Lemma answer_heard p h hp (s s' : St) :
  handlers s !! p = Some h → L (fd_ h) (cb_ (sub_ h)) → answered p hp s s' → grows (sockets (world s)) (sockets (world s')) →
  (hp ≠ [] → heard (sockets (world s')) (fd_ h) hp) → answers_heard (world s) → answers_heard (world s').
Proof.
  intros Hp HL (h0 & Hp0 & Hca & _) Hg Hh Hs cb hp'. rewrite Hca.
  intros [Hin|[= -> ->]%list_elem_of_singleton]%elem_of_app Hne; simplify_eq.
  - destruct (Hs _ _ Hin Hne) as (fd & ? & ?). exists fd. split; [done|]. by eapply heard_grows.
  - exists (fd_ h). split; [done|]. by apply Hh.
Qed.

Context (min_lvl : Severity) (vector_capacity : nat → nat → nat).
Abbreviation Waiting := (OneShot_inv cb_ (λ w, (Parser.calls w).*1) parse_PI).
Abbreviation reads := (λ fd k, os_sockopt (K := K) fd k).

Lemma event_heard ks tmp own news xs (s s' : St) p h evs :
  Inv (ext_plus tmp own) news xs s → Waiting ks own news s → (0 < tmp p)%Z → handlers s !! p = Some h →
  event_loop_ h = true → Parser.OnEvent min_lvl p evs s = Done (tt, s') → all_heard s → all_heard s'.
Proof.
  intros HI HC Htmp Hp He Hs [HL Ha].
  destruct (parse_OnEvent_framed L min_lvl p evs _ _ _ Hs HL) as (HL' & _ & _ & _ & Hg). split; [done|].
  destruct (os_live _ _ _ _ _ _ _ HC p h) as (_ & base & acc & Hrec & Hin); [by split; [|left]|].
  pose proof (OnEvent_wp reads min_lvl ks tmp own news xs s p h evs base acc HI HC Htmp Hp He Hrec Hin) as Hwp.
  unfold wp in Hwp. rewrite Hs in Hwp. destruct Hwp as [_ Hpost]. unfold event_post in Hpost.
  pose proof (HL p h Hp) as HLp.
  destruct (HasBits evs EPOLLERR); [by eapply answer_heard|]. destruct (HasBits evs EPOLLIN); [|by subst s'].
  destruct Hpost as (ds & Hrec' & Hfj & Hpost). destruct (feed _ acc ds) as [| |hp] eqn:Hf.
  all: try (by eapply answer_heard).
  - destruct Hpost as [[(Hca & _) _]|[Hans _]]; [|by eapply answer_heard].
    intros cb hp. rewrite Hca. intros Hcb Hne. destruct (Ha _ _ Hcb Hne) as (fd & ? & ?). exists fd. split; [done|]. by eapply heard_grows.
  - eapply (answer_heard p h hp); [done..| |done]. intros _. exists base, (acc ++ concat ds). rewrite Hrec'. split; [done|].
    by eapply judge_matches.
Qed.

Lemma timeout_heard ks tmp own news xs (s s' : St) p h :
  Inv (ext_plus tmp own) news xs s → Waiting ks own news s → (0 < tmp p)%Z → handlers s !! p = Some h →
  event_loop_ h = true → Parser.OnTimeout p s = Done (tt, s') → all_heard s → all_heard s'.
Proof.
  intros HI HC Htmp Hp He Hs [HL Ha].
  destruct (parse_OnTimeout_framed L p _ _ _ Hs HL) as (HL' & _ & _ & _ & Hg). split; [done|].
  assert (wp (Parser.OnTimeout p) (λ _ s', answered p [] s s') s) as Hwp.
  { eapply wp_mono; [apply (Finish_wp ks tmp own news xs s p h [] HI); try done; eapply OneShot_weaken; [done|]; by right|].
    by intros [] s1 (_ & ? & _). }
  unfold wp in Hwp. rewrite Hs in Hwp. pose proof (HL p h Hp). by eapply (answer_heard p h []).
Qed.

Lemma heard_client ks :
  LoopClient parse_delete (Parser.OnEvent min_lvl) Parser.OnTimeout (add_later EPOLLIN) (λ own news s, Waiting ks own news s ∧ all_heard s).
Proof.
  pose proof (parse_client reads min_lvl ks) as Hclient. apply (LoopClient_also _ _ _ _ (Waiting ks) all_heard).
  - intros s s' _ Hw Hh [HL Ha]. split; [|by rewrite Hw]. intros q h' (h & Hq & -> & _ & ->)%Hh. by eapply HL.
  - intros s q h w Hq Hd [HL Ha]. injection Hd as <-. split; [|done]. intros r h' Hr. cbn in Hr. apply lookup_delete_Some in Hr as [_ Hr]. by eapply HL.
  - intros. by eapply event_heard.
  - intros. by eapply timeout_heard.
  - intros s f fs q' s' _ _ Hr _ [HL Ha].
    destruct (Add_stable (framed (parse_who L) eq) (Some f) EPOLLIN (set_pipe q' s) tt s' Hr HL) as (HL' & _ & Hw).
    split; [done|]. by rewrite <- Hw.
Qed.

(** A turn of the parser's loop. *)
Lemma parser_turn_heard ks news (s s' : St) :
  parser_ok (ks, news, s) → turn_env vector_capacity s → all_heard s →
  turns (Loop_turn parse_delete (Parser.OnEvent min_lvl) Parser.OnTimeout (add_later EPOLLIN) vector_capacity) s s' →
  all_heard s'.
Proof.
  intros (xs & HI & HC) He Hh [m Hm]. cbn in HI, HC. pose proof (heard_client ks) as Hclient.
  destruct (Loop_turn_wp parse_delete (Parser.OnEvent min_lvl) Parser.OnTimeout (add_later EPOLLIN) vector_capacity _
    _ news xs s HI (conj HC Hh) He) as [n Hn].
  specialize (Hn (S (n `max` m)) ltac:(lia)). unfold wp in Hn. rewrite Hm in Hn by lia.
  by destruct Hn as (xs' & (own' & news' & _ & [_ ?] & _) & _).
Qed.
End requests.
