(* ===== verification/Pairs.v ===== *)
(** * Which sockets the forwarder connects

    A link keeps its name, its descriptor and its peer for its whole life, and
    [New] makes the two links of each pair that it is given: the links of a
    connection have the sockets of one call of [Forward]. *)

From S2P Require Import Prelude Logging IntrusiveList Epoll EventLoop LoopTheorems Frame OneShot Sock Addr Parser Connector Buffer Forwarder ForwarderTheorems ForwarderLoop ForwarderNew ForwarderRuns Acceptor Os Footprint.

Section pairs.
Context {K EK PQ : Type} `{!FdKernel K, !FdLaws K, !PipeKernel K, !PipeKernelLaws K, !ReadKernel K, !AcceptKernel K,
  !SockOptKernel K, !SockOptLaws K, !ConnectKernel K, !ShutdownKernel K, !ForwardLaws K, !OsLaws K} `{EpollLaws EK}
  `{PipeLaws PQ (Z * Z)}.
Abbreviation St := (EventLoop.St LinkEventHandler K EK PQ).
Abbreviation Handler := (EventHandler LinkEventHandler).

(** Links keep their name, descriptor and peer. *)
Definition same_shape (h h' : Handler) : Prop :=
  fd_ h' = fd_ h ∧ name_ (sub_ h') = name_ (sub_ h) ∧ other_ (sub_ h') = other_ (sub_ h).
Definition shapes (s s' : St) : Prop :=
  pipe_ s' = pipe_ s ∧ ∀ p h', handlers s' !! p = Some h' → ∃ h, handlers s !! p = Some h ∧ same_shape h h'.

#[export] Instance shapes_frame : LoopFrame shapes.
Proof.
  split; [split|].
  - intros s. split; [done|]. intros p h Hp. by exists h.
  - intros s1 s2 s3 [Hp12 H12] [Hp23 H23]. split; [congruence|]. intros p h3 (h2 & (h1 & Hh1 & (?&?&?))%H12 & (?&?&?))%H23.
    exists h1. split; [done|]. split_and!; congruence.
  - intros s s' _ _ Hpi Hh. split; [done|]. intros p h' (h & Hp & Hf & Hs)%Hh. exists h. split; [done|].
    unfold same_shape. by rewrite Hs.
Qed.

Lemma put_shapes p h h' w s : handlers s !! p = Some h → same_shape h h' → shapes s (set_world w (put_handler p h' s)).
Proof.
  intros Hp Hs. split; [done|]. cbn. intros q hq [[<- <-]|[_ Hq]]%lookup_insert_Some; [by exists h|by exists hq].
Qed.

#[export] Instance on_out_shapes {A} p (m : M (Buffer * K) A) : Stable shapes (on_out p m).
Proof.
  intros s a s' Hs. unfold on_out, on_sub in Hs. destruct (handlers s !! p) as [h|] eqn:Hp; [|done].
  unfold zoom in Hs. destruct (m _) as [[b [x k]]| | |]; try done. injection Hs as <- <-. by eapply put_shapes.
Qed.
#[export] Instance on_world_shapes {A} (m : M K A) : Stable shapes (on_world (K := EK) (PQ := PQ) m).
Proof.
  eapply (stable_zoom _ (λ _ _, True)); [done|]. intros s w _. split; [done|]. intros p h Hp. by exists h.
Qed.
Lemma upd_link_shapes p f : (∀ l, name_ (f l) = name_ l ∧ other_ (f l) = other_ l) → Stable shapes (upd_link p f).
Proof.
  intros Hf s [] s' Hs. unfold upd_link, upd_handler, mbind, M_bind, handler, deref, modify in Hs.
  destruct (handlers s !! p) as [h|] eqn:Hp; [|done]. injection Hs as <-.
  destruct (Hf (sub_ h)). apply (put_shapes p h (set_sub (f (sub_ h)) h) (world s) s); [done|by split_and!].
Qed.
#[export] Instance read_shapes p b : Stable shapes (upd_link p (set_readable b)).
Proof. by apply upd_link_shapes. Qed.
#[export] Instance write_shapes p b : Stable shapes (upd_link p (set_writable b)).
Proof. by apply upd_link_shapes. Qed.

(** The sockets of the two links of a connection: the client's and the server's
    of one pair in [L]. *)
Definition linked (L : list (Z * Z)) (hp hq : Handler) : Prop :=
  match name_ (sub_ hp), name_ (sub_ hq) with
  | Client, Server => (fd_ hp, fd_ hq) ∈ L
  | Server, Client => (fd_ hq, fd_ hp) ∈ L
  | _, _ => False
  end.
Definition pairs_in (L : list (Z * Z)) (s : St) : Prop := ∀ p q hp hq, pair s p q hp hq → linked L hp hq.
Definition paired (L : list (Z * Z)) (s : St) : Prop := pairs_in L s ∧ ∀ cf, cf ∈ pending (pipe_ s) → cf ∈ L.

Lemma shapes_pairs L s s' : shapes s s' → pairs_in L s → pairs_in L s'.
Proof.
  intros [_ Hh] Hs p q hp' hq' (Hp & Hq & Hop & Hoq & Hne).
  destruct (Hh _ _ Hp) as (hp & Hp0 & Hf & Hn & Ho), (Hh _ _ Hq) as (hq & Hq0 & Hf' & Hn' & Ho').
  assert (linked L hp hq) as Hl by (apply (Hs p q); split_and!; congruence).
  unfold linked in *. by rewrite Hf, Hf', Hn, Hn'.
Qed.

Lemma shapes_paired L s s' : shapes s s' → paired L s → paired L s'.
Proof. intros Hs [Hp Hq]. split; [by eapply shapes_pairs|]. by rewrite (proj1 Hs). Qed.

Lemma linked_mono L L' hp hq : (∀ cf, cf ∈ L → cf ∈ L') → linked L hp hq → linked L' hp hq.
Proof. unfold linked. destruct (name_ _), (name_ _); auto. Qed.

Lemma paired_mono L L' s : (∀ cf, cf ∈ L → cf ∈ L') → paired L s → paired L' s.
Proof. intros HL [Hp Hq]. split; [|auto]. intros p q hp hq Hpq. eapply linked_mono; [done|]. by apply Hp in Hpq. Qed.

(** ** [New] *)

(** A link that has no peer yet. *)
Definition young (p : ptr) (fd : Z) (n : link_name) (s : St) : Prop :=
  ∀ h, handlers s !! p = Some h → fd_ h = fd ∧ name_ (sub_ h) = n ∧ other_ (sub_ h) = None.

Lemma shapes_young p fd n s s' : shapes s s' → young p fd n s → young p fd n s'.
Proof. intros [_ Hh] Hy h' (h & Hp & -> & -> & ->)%Hh. by apply Hy. Qed.

Lemma bind_inv {S A B} (m : M S A) (f : A → M S B) s b s' :
  (m ≫= f) s = Done (b, s') → ∃ a s1, m s = Done (a, s1) ∧ f a s1 = Done (b, s').
Proof. unfold mbind, M_bind. destruct (m s) as [[a s1]| | |]; [|done..]. intros Hf. by exists a, s1. Qed.

Lemma new_link_pairs L fd n s p s' :
  pairs_in L s → new_link fd n s = Done (p, s') →
  pairs_in L s' ∧ handlers s !! p = None ∧ young p fd n s' ∧ is_Some (handlers s' !! p) ∧ pipe_ s' = pipe_ s ∧
  ∀ q fd' n', young q fd' n' s → q ≠ p → young q fd' n' s'.
Proof.
  intros Hs Hn. unfold new_link in Hn. erewrite bind_Done in Hn by done.
  unfold new_handler in Hn. set (q := fresh _) in *. pose proof (is_fresh (dom (handlers s))) as Hq%not_elem_of_dom.
  change (fresh _) with q in Hq. unfold mbind, M_bind, CHECK in Hn. destruct (0 <=? fd)%Z; [|done]. injection Hn as <- <-. cbn.
  split_and!; [|done| |by rewrite lookup_insert_eq|done|].
  - intros x y hx hy (Hx & Hy & Hox & Hoy & Hne). cbn in Hx, Hy.
    apply lookup_insert_Some in Hx as [[<- <-]|[? Hx]]; [done|].
    apply lookup_insert_Some in Hy as [[<- <-]|[? Hy]]; [done|]. apply (Hs x y). by split_and!.
  - intros h Hh. cbn in Hh. rewrite lookup_insert_eq in Hh. by injection Hh as <-.
  - intros x fd' n' Hy Hne h Hh. cbn in Hh. rewrite lookup_insert_ne in Hh by congruence. by apply Hy.
Qed.

Lemma set_other_pairs L c f p q s s' :
  p ≠ q → (c, f) ∈ L → pairs_in L s → young p c Client s → young q f Server s →
  (upd_link p (set_other (Some q)) ;; upd_link q (set_other (Some p))) s = Done (tt, s') → pairs_in L s' ∧ pipe_ s' = pipe_ s.
Proof.
  intros Hne HL Hs Hyp Hyq Hr. apply bind_inv in Hr as ([] & s1 & Hm1 & Hm2).
  unfold upd_link, upd_handler, mbind, M_bind, handler, deref, modify in Hm1, Hm2.
  destruct (handlers s !! p) as [hp|] eqn:Hp; [|done]. injection Hm1 as <-.
  cbn in Hm2. rewrite lookup_insert_ne in Hm2 by done. destruct (handlers s !! q) as [hq|] eqn:Hq; [|done].
  injection Hm2 as <-. split; [|done]. destruct (Hyp _ Hp) as (Hfp & Hnp & Hop), (Hyq _ Hq) as (Hfq & Hnq & Hoq).
  intros x y hx hy (Hx & Hy & Hox & Hoy & Hxy). cbn in Hx, Hy. unfold linked.
  apply lookup_insert_Some in Hx as [[<- <-]|[Hxq Hx]]; [|apply lookup_insert_Some in Hx as [[<- <-]|[Hxp Hx]]].
  - cbn in Hox |- *. injection Hox as <-. rewrite lookup_insert_ne, lookup_insert_eq in Hy by congruence. injection Hy as <-. cbn.
    by rewrite Hnp, Hnq, Hfp, Hfq.
  - cbn in Hox |- *. injection Hox as <-. rewrite lookup_insert_eq in Hy. injection Hy as <-. cbn. by rewrite Hnp, Hnq, Hfp, Hfq.
  - apply lookup_insert_Some in Hy as [[<- <-]|[Hyq' Hy]]; [cbn in Hoy; by injection Hoy as <-|].
    apply lookup_insert_Some in Hy as [[<- <-]|[Hyp' Hy]]; [cbn in Hoy; by injection Hoy as <-|].
    apply (Hs x y). by split_and!.
Qed.

Lemma New_pairs opt L c f s s' :
  (c, f) ∈ L → pairs_in L s → New opt (c, f) s = Done (tt, s') → pairs_in L s' ∧ pipe_ s' = pipe_ s.
Proof.
  intros HL Hs Hr. unfold New in Hr.
  apply bind_inv in Hr as (p & s1 & Hm1 & Hr). destruct (new_link_pairs _ _ _ _ _ _ Hs Hm1) as (Hs1 & _ & Hyp1 & Hp1 & Hpi1 & _).
  apply bind_inv in Hr as (q & s2 & Hm2 & Hr). destruct (new_link_pairs _ _ _ _ _ _ Hs1 Hm2) as (Hs2 & Hq2 & Hyq2 & _ & Hpi2 & Hk).
  assert (p ≠ q) as Hne by (intros ->; rewrite Hq2 in Hp1; by destruct Hp1).
  pose proof (Hk _ _ _ Hyp1 Hne) as Hyp2. clear Hk.
  apply bind_inv in Hr as (ok1 & s3 & Hm3 & Hr). assert (shapes s2 s3) as H23 by by eapply on_out_shapes.
  apply bind_inv in Hr as (ok & s4 & Hm4 & Hr).
  assert (shapes s2 s4) as H24.
  { etransitivity; [exact H23|]. destruct ok1; [by eapply on_out_shapes|]. injection Hm4 as <- <-. reflexivity. }
  assert (pipe_ s4 = pipe_ s) as Hpi4 by (destruct H24; congruence).
  pose proof (shapes_pairs _ _ _ H24 Hs2) as Hs4.
  assert (∀ s5, pairs_in L s5 → pipe_ s5 = pipe_ s → shapes s5 s' → pairs_in L s' ∧ pipe_ s' = pipe_ s) as Hend.
  { intros s5 Hs5 Hpi5 Hst. split; [by eapply shapes_pairs|]. destruct Hst; congruence. }
  destruct ok; [|apply (Hend s4); [done..|]].
  2: { match type of Hr with ?m _ = _ => assert (Stable shapes m) as Hst by apply _ end. by eapply Hst. }
  apply bind_inv in Hr as ([] & s5 & Hm5 & Hr). apply bind_inv in Hr as ([] & s6 & Hm6 & Hr).
  destruct (set_other_pairs L c f p q s4 s6) as [Hs6 Hpi6]; [done..|by eapply shapes_young|by eapply shapes_young|by rewrite (bind_Done _ _ _ _ _ Hm5)|].
  apply (Hend s6); [done|congruence|].
  match type of Hr with ?m _ = _ => assert (Stable shapes m) as Hst by apply _ end. by eapply Hst.
Qed.

(** [Forward] from another thread queues the pair. *)
Lemma Forward_Done opt c f t (s d : St) :
  t ≠ loop_ s → Forward opt c f (as_thread t s) = Done (tt, d) →
  handlers d = handlers s ∧ pending (pipe_ d) = pending (pipe_ s) ++ [(c, f)].
Proof.
  intros Ht Hd. unfold Forward, ScheduleOrRun, Schedule in Hd.
  apply bind_inv in Hd as ([] & s1 & Hm1 & Hd). unfold CHECK in Hm1. case_match; [|done]. injection Hm1 as <-.
  apply bind_inv in Hd as ([] & s1 & Hm1 & Hd). unfold CHECK in Hm1. case_match; [|done]. injection Hm1 as <-.
  assert (∀ Q, Q false (as_thread t s) → wp on_loop_thread Q (as_thread t s)) as Hth.
  { intros Q HQ. apply wp_on_loop_thread. cbn [this_thread loop_ as_thread]. by rewrite (proj2 (Z.eqb_neq _ _)). }
  apply bind_inv in Hd as (b & s1 & Hm1 & Hd). specialize (Hth (λ b s1, b = false ∧ s1 = as_thread t s) ltac:(done)).
  unfold wp in Hth. rewrite Hm1 in Hth. destruct Hth as [-> ->]. cbn [negb] in Hd.
  rewrite (bind_Done _ _ _ _ _ Hm1) in Hd. erewrite bind_Done in Hd by done.
  destruct (pipe_write_ok (c, f) (pipe_ s)) as (q' & Hw & Hq').
  erewrite bind_Done in Hd by (cbn; rewrite Hw; done). injection Hd as <-. by split.
Qed.

(** ** Turns *)
Lemma paired_client (R : Reserved) opt min_lvl left_first L :
  opt_ok opt →
  LoopClient link_delete (OnEvent min_lvl left_first) OnTimeout (New opt) (λ own news s, Fwd_ok own news s ∧ paired L s).
Proof.
  intros Hopt. pose proof (Fwd_client opt min_lvl left_first Hopt). apply (LoopClient_and _ _ _ _ Fwd_ok (paired L) shapes).
  - intros s s' Hpi Hh. split; [done|]. intros q h' (h & Hq & Hf & _ & Hs)%Hh. exists h. split; [done|].
    unfold same_shape. by rewrite Hf, Hs.
  - apply shapes_paired.
  - intros p e. apply _.
  - intros p. apply _.
  - intros s [c f] fs q' s' Hpi Hpi' Hr Hpi2 [Hs Hq]. rewrite Hpi in Hq.
    destruct (New_pairs opt L c f _ _ (Hq _ ltac:(by left)) (Hs : pairs_in L (set_pipe q' s)) Hr) as [Hs' _]. split; [done|].
    rewrite Hpi2, Hpi'. intros cf Hcf. apply Hq. by right.
Qed.

Lemma forwarder_turn_paired opt min_lvl left_first vector_capacity R L s s' :
  opt_ok opt → fwd_beside R s → paired L s → turn_env vector_capacity s →
  turns (Loop_turn link_delete (OnEvent min_lvl left_first) OnTimeout (New opt) vector_capacity) s s' → paired L s'.
Proof.
  intros Hopt (own & xs & HI & HF) HL He [m Hm].
  pose proof (paired_client R opt min_lvl left_first L Hopt) as Hclient.
  destruct (Loop_turn_wp link_delete (OnEvent min_lvl left_first) OnTimeout (New opt) vector_capacity _
    own ∅ xs s HI (conj HF HL) He) as [n Hn].
  specialize (Hn (S (n `max` m)) ltac:(lia)). unfold wp in Hn. rewrite Hm in Hn by lia.
  by destruct Hn as (xs' & (own' & news' & _ & [_ ?] & _) & _).
Qed.
End pairs.
