(* ===== verification/Hcproxy.v ===== *)
(** * The proxy (hcproxy.cc)

    [RunProxy]: which ports are allowed, and the callbacks that hand a client
    from the acceptor to the parser, the resolver, the connector and the
    forwarder. The resolver is that of DnsRuns.v, and calls the callbacks it
    has been given; of the parser and the connector the proxy needs that they
    call each of theirs once, which is proved in Parser.v and Connector.v. *)

From S2P Require Import Prelude Logging Epoll Sock Addr Executor Dns ThreadPool PoolExecutor DnsRuns Acceptor.

(** What the callbacks have captured. The resolver's has [client_fd] and, by
    reference, the [host_port] of the call of the parser's callback that made
    it: the frame of that call, which has the name of the parser's callback. *)
Inductive closure :=
  | OnParsed (client_fd : Z)
  | OnResolved (client_fd : Z) (host_port : nat)
  | OnConnected (client_fd : Z).

(** What [RunProxy] has called: the components, with the names of the
    callbacks it gave them, and [close] of a client. *)
Inductive call :=
  | ParseRequest (client_fd : Z) (cb : nat)
  | ResolveCall (host_port : bytes) (cb : nat)
  | ConnectCall (addr : addrinfo) (cb : nat)
  | ForwardCall (client_fd server_fd : Z)
  | CloseCall (client_fd : Z).

(** The argument that a callback is called with. *)
Inductive value :=
  | Parsed (host_port : bytes)
  | Resolved (addr : option addrinfo)
  | Connected (server_fd : Z).

(** hcproxy.cc: [IsAllowedPort]. *)
Definition IsAllowedPort (allowed_ports : list bytes) (host_port : bytes) : bool :=
  match find_first (λ c, bool_decide (c = COLON)) host_port with
  | None => false
  | Some sep => bool_decide (allowed_ports = []) || bool_decide (drop (S sep) host_port ∈ allowed_ports)
  end.

Lemma drop_after (l r : bytes) c : drop (S (length l)) (l ++ c :: r) = r.
Proof. induction l as [|d l IH]; [done|]. cbn in *. exact IH. Qed.

(** What an allowed port is to [getaddrinfo]: the port that [ResolveSync] asks
    for is the one that [IsAllowedPort] has seen. *)
Lemma allowed_port_query allowed hp host port :
  IsAllowedPort allowed hp = true → allowed ≠ [] → (∀ p, p ∈ allowed → NUL ∉ p) →
  query hp = Some (host, port) → port ∈ allowed.
Proof.
  unfold IsAllowedPort, query. intros Hal Hne Hnul Hq.
  destruct (find_first _ hp) as [sep|] eqn:Hsep; [|done].
  rewrite bool_decide_eq_false_2 in Hal by done. apply bool_decide_eq_true in Hal.
  apply find_first_Some in Hsep as (l & c & r & -> & <- & Hc%bool_decide_eq_true & Hl). subst c.
  rewrite drop_after in Hal.
  destruct (c_str_split l) as [[Hn Hcl]|(l1 & l2 & -> & Hn & Hcl)].
  - rewrite c_str_app in Hq by done. change (c_str (COLON :: r)) with (COLON :: c_str r) in Hq.
    assert (c_str r = r) as Hr by (apply c_str_id; by apply Hnul). rewrite Hr in Hq.
    assert (find_first (λ c, bool_decide (c = COLON)) (l ++ COLON :: r) = Some (length l)) as Hf.
    { apply find_first_Some. by exists l, COLON, r. }
    rewrite Hf in Hq. cbn [mbind option_bind] in Hq. injection Hq as _ <-.
    by rewrite drop_after.
  - exfalso. rewrite <- (assoc_L (++)), c_str_app in Hq by done.
    change (c_str ((NUL :: l2) ++ COLON :: r)) with (@nil ascii) in Hq. rewrite app_nil_r in Hq.
    rewrite (proj2 (find_first_None _ l1)) in Hq; [done|]. by apply Forall_app in Hl as [? _].
Qed.

(** ** The beginning of [RunProxy] *)

(** signal(2), getrlimit(2) and setrlimit(2) of [RLIMIT_NOFILE]: the soft and
    the hard limit. *)
Class LimitKernel (K : Type) := {
  ignore_sigpipe : K → K;
  getrlimit : K → option (Z * Z) * K;
  setrlimit : Z * Z → K → bool * K
}.

(** hcproxy.cc: [RunProxy], before the components are made. *)
Definition RunProxy_limits {K} `{LimitKernel K} (max_num_open_files : Z) : M K unit :=
  modify ignore_sigpipe ;;
  when (0 <? max_num_open_files)%Z (
    lim ← (λ k, Done (getrlimit k));
    match lim with
    | None => abort "getrlimit(RLIMIT_NOFILE, &lim) == 0"
    | Some (_, rlim_max) =>
        ok ← (λ k, Done (setrlimit (max_num_open_files, rlim_max) k));
        CHECK "setrlimit(RLIMIT_NOFILE, &lim) == 0" ok
    end).

(** The soft limit becomes what is asked for, and the hard limit stays; or the
    process aborts. *)
Lemma RunProxy_limits_cases {K} `{LimitKernel K} n (k : K) :
  (0 < n)%Z →
  match getrlimit (ignore_sigpipe k) with
  | (None, _) => RunProxy_limits n k = Abort "getrlimit(RLIMIT_NOFILE, &lim) == 0"
  | (Some (_, hard), k1) =>
      RunProxy_limits n k = match setrlimit (n, hard) k1 with
        | (true, k2) => Done (tt, k2)
        | (false, _) => Abort "setrlimit(RLIMIT_NOFILE, &lim) == 0"
        end
  end.
Proof.
  intros Hn. unfold RunProxy_limits. erewrite bind_Done by done. unfold when. rewrite (proj2 (Z.ltb_lt _ _) Hn).
  unfold mbind, M_bind. destruct (getrlimit _) as [[[soft hard]|] k1]; [|done]. by destruct (setrlimit _ k1) as [[] k2].
Qed.

Section proxy.
Context {K : Type} `{FdLaws K} (min_lvl : Severity) (allowed_ports : list bytes).

(** [frames]: the calls of the parser's callback that have not returned, with
    their [host_port]. *)
Record Proxy := mkProxy {
  kernel : K; closures : gmap nat closure; next_cb : nat; calls : list call; frames : gmap nat bytes
}.

Definition ask (c : call) : M Proxy unit :=
  modify (λ s, mkProxy (kernel s) (closures s) (next_cb s) (calls s ++ [c]) (frames s)).

(** A new callback, for a call of a component. *)
Definition capture (c : closure) : M Proxy nat :=
  cb ← gets next_cb;
  modify (λ s, mkProxy (kernel s) (<[cb := c]> (closures s)) (S cb) (calls s) (frames s)) ;;
  mret cb.

(** [CHECK(close(client_fd) == 0)]. *)
Definition close_client (client_fd : Z) : M Proxy unit :=
  zoom kernel (λ k s, mkProxy k (closures s) (next_cb s) (calls s) (frames s)) (close_checked client_fd) ;;
  ask (CloseCall client_fd).

(** hcproxy.cc: the body of the loop, once [Accept] has returned. *)
Definition on_accept (client_fd : Z) : M Proxy unit :=
  cb ← capture (OnParsed client_fd);
  ask (ParseRequest client_fd cb).

(** hcproxy.cc: the parser's callback, in the frame [frame], up to its return. *)
Definition on_parsed (frame : nat) (client_fd : Z) (host_port : bytes) : M Proxy unit :=
  modify (λ s, mkProxy (kernel s) (closures s) (next_cb s) (calls s) (<[frame := host_port]> (frames s))) ;;
  if bool_decide (host_port = []) || negb (IsAllowedPort allowed_ports host_port) then close_client client_fd
  else
    cb ← capture (OnResolved client_fd frame);
    ask (ResolveCall host_port cb).

(** hcproxy.cc: the resolver's callback. [LOG(WARN)] reads [host_port]. *)
Definition on_resolved (client_fd : Z) (host_port : nat) (addr : option addrinfo) : M Proxy unit :=
  match addr with
  | None =>
      when (severity_value min_lvl <=? severity_value WARN)%Z
        (deref "host_port" (λ s, frames s !! host_port) ;; mret tt) ;;
      close_client client_fd
  | Some addr =>
      when (severity_value min_lvl <=? severity_value INFO)%Z (IpPort addr ;; mret tt) ;;
      cb ← capture (OnConnected client_fd);
      ask (ConnectCall addr cb)
  end.

(** hcproxy.cc: the connector's callback. *)
Definition on_connected (client_fd server_fd : Z) : M Proxy unit :=
  if (server_fd <? 0)%Z then close_client client_fd else ask (ForwardCall client_fd server_fd).

(** The call of a callback, which is done with after it. *)
Definition run_callback (cb : nat) (v : value) : M Proxy unit :=
  c ← deref "callback" (λ s, closures s !! cb);
  modify (λ s, mkProxy (kernel s) (delete cb (closures s)) (next_cb s) (calls s) (frames s)) ;;
  match c, v with
  | OnParsed fd, Parsed hp => on_parsed cb fd hp
  | OnResolved fd fr, Resolved a => on_resolved fd fr a
  | OnConnected fd, Connected sfd => on_connected fd sfd
  | _, _ => undefined "callback"
  end.

(** ** What a callback does *)
Definition closure_fd (c : closure) : Z :=
  match c with OnParsed fd | OnResolved fd _ | OnConnected fd => fd end.

(** The arguments that a callback is called with: the resolver's addresses are
    IPv4 addresses. *)
Definition fits (c : closure) (v : value) : Prop :=
  match c, v with
  | OnParsed _, Parsed _ | OnConnected _, Connected _ | OnResolved _ _, Resolved None => True
  | OnResolved _ _, Resolved (Some a) => ipv4 a
  | _, _ => False
  end.

(** What [LOG(WARN)] reads is there, or is not read. *)
Definition can_log (s : Proxy) (c : closure) (v : value) : Prop :=
  match c, v with
  | OnResolved _ fr, Resolved None => (severity_value WARN < severity_value min_lvl)%Z ∨ is_Some (frames s !! fr)
  | _, _ => True
  end.

Definition frames_after (cb : nat) (v : value) (s : Proxy) : gmap nat bytes :=
  match v with Parsed hp => <[cb := hp]> (frames s) | _ => frames s end.

(** The client is closed, or kept with the next callback, or handed over. *)
Inductive outcome_of (cb : nat) (fd : Z) (v : value) (s s' : Proxy) : Prop :=
  | oc_closed :
      opened (kernel s') = opened (kernel s) ∖ {[fd]} → closures s' = delete cb (closures s) →
      next_cb s' = next_cb s → calls s' = calls s ++ [CloseCall fd] → frames s' = frames_after cb v s → outcome_of cb fd v s s'
  | oc_resolve hp :
      v = Parsed hp → hp ≠ [] → IsAllowedPort allowed_ports hp = true →
      s' = mkProxy (kernel s) (<[next_cb s := OnResolved fd cb]> (delete cb (closures s))) (S (next_cb s))
        (calls s ++ [ResolveCall hp (next_cb s)]) (<[cb := hp]> (frames s)) → outcome_of cb fd v s s'
  | oc_connect a :
      v = Resolved (Some a) →
      s' = mkProxy (kernel s) (<[next_cb s := OnConnected fd]> (delete cb (closures s))) (S (next_cb s))
        (calls s ++ [ConnectCall a (next_cb s)]) (frames s) → outcome_of cb fd v s s'
  | oc_forward sfd :
      v = Connected sfd → (0 ≤ sfd)%Z →
      s' = mkProxy (kernel s) (delete cb (closures s)) (next_cb s) (calls s ++ [ForwardCall fd sfd]) (frames s) →
      outcome_of cb fd v s s'.

Lemma close_client_wp fd Q s :
  fd ∈ opened (kernel s) →
  (∀ k, opened k = opened (kernel s) ∖ {[fd]} → Q tt (mkProxy k (closures s) (next_cb s) (calls s ++ [CloseCall fd]) (frames s))) →
  wp (close_client fd) Q s.
Proof.
  intros Hfd HQ. unfold close_client. apply wp_bind, wp_zoom, close_checked_wp; [done|].
  intros k _ Hk. unfold ask. apply wp_modify. by apply HQ.
Qed.

Lemma run_callback_wp cb c v s :
  closures s !! cb = Some c → closure_fd c ∈ opened (kernel s) → fits c v → can_log s c v →
  wp (run_callback cb v) (λ _ s', outcome_of cb (closure_fd c) v s s') s.
Proof.
  intros Hc Hfd Hv Hlog. unfold run_callback. apply wp_bind. eapply wp_deref; [done|]. apply wp_bind, wp_modify.
  assert (∀ fs R, (∀ k, opened k = opened (kernel s) ∖ {[closure_fd c]} →
      R tt (mkProxy k (delete cb (closures s)) (next_cb s) (calls s ++ [CloseCall (closure_fd c)]) fs)) →
    wp (close_client (closure_fd c)) R (mkProxy (kernel s) (delete cb (closures s)) (next_cb s) (calls s) fs)) as Hclose
    by (intros fs R HR; by apply close_client_wp).
  destruct c as [fd|fd fr|fd], v as [hp'|[a|]|sfd]; try done.
  - unfold on_parsed. apply wp_bind, wp_modify. destruct (bool_decide (hp' = []) || _) eqn:Hbad.
    + apply Hclose. intros k Hk. by apply oc_closed.
    + apply orb_false_iff in Hbad as [Hne%bool_decide_eq_false Hal%negb_false_iff].
      unfold capture, ask. wp_steps. by eapply oc_resolve.
  - unfold on_resolved. apply wp_bind, (wp_mono _ (λ _ s', s' = mkProxy (kernel s) (delete cb (closures s)) (next_cb s) (calls s) (frames s))).
    { apply wp_when; [|done]. intros _. apply wp_bind, IpPort_wp; [done|]. by intros. }
    intros [] ? ->. unfold capture, ask. wp_steps. by eapply oc_connect.
  - unfold on_resolved. apply wp_bind, (wp_mono _ (λ _ s', s' = mkProxy (kernel s) (delete cb (closures s)) (next_cb s) (calls s) (frames s))).
    { apply wp_when; [|done]. intros Hle%Z.leb_le. destruct Hlog as [?|[hp Hhp]]; [lia|].
      apply wp_bind. by eapply wp_deref. }
    intros [] ? ->. apply Hclose. intros k Hk. by apply oc_closed.
  - unfold on_connected. destruct (Z.ltb_spec sfd 0).
    + apply Hclose. intros k Hk. by apply oc_closed.
    + unfold ask. apply wp_modify. by eapply oc_forward.
Qed.

(** A reference to a call that has returned. *)
Lemma run_callback_dangling cb c v s :
  closures s !! cb = Some c → can_log s c v ∨ run_callback cb v s = UB "host_port".
Proof.
  intros Hc. destruct c as [fd|fd fr|fd], v as [hp'|[a|]|sfd]; try (by left). cbn.
  destruct (frames s !! fr) as [hp|] eqn:Hfr; [left; right; by eexists|].
  destruct (Z.lt_ge_cases (severity_value WARN) (severity_value min_lvl)) as [Hlt|Hle]; [by left; left|right].
  unfold run_callback. erewrite bind_Done by (unfold deref; by rewrite Hc). erewrite bind_Done by done.
  unfold on_resolved, when. rewrite (proj2 (Z.leb_le _ _) Hle).
  unfold mbind, M_bind, deref. cbn [frames]. by rewrite Hfr.
Qed.

(** ** The proxy and its resolver *)
Context {E : Type} `{ExecutorLaws E} (opt_ : DnsOptions).

(** [accepted_fds]: the clients that [Accept] has returned. *)
Record system := mkSystem { px : Proxy; resolver : conf (E := E); accepted_fds : list Z }.

Definition sys_init (k : K) (e : E) : system := mkSystem (mkProxy k ∅ 0 [] ∅) (dns_init e) [].

Definition set_kernel (k : K) (s : Proxy) : Proxy := mkProxy k (closures s) (next_cb s) (calls s) (frames s).
Definition set_frames (fs : gmap nat bytes) (s : Proxy) : Proxy := mkProxy (kernel s) (closures s) (next_cb s) (calls s) fs.

(** The resolver after the calls that a callback has made: [Resolve] is called
    by the parser's callback. *)
Definition after_calls_of (cs : list call) (c : conf (E := E)) : conf (E := E) :=
  match last cs with
  | Some (ResolveCall hp cb) =>
      mkConf (dns c) (ex c) (AResolve (ex_now (ex c)) hp cb :: acts c) (scheduling c)
        ((cb, hp, ex_now (ex c)) :: accepted c) (called c) (answers c)
  | _ => c
  end.

(** The clients that a callback is kept for. *)
Definition fds_of (m : gmap nat closure) : list Z := (λ x, closure_fd x.2) <$> map_to_list m.
Definition client_fds (s : Proxy) : list Z := fds_of (closures s).

Inductive sys_step : system → system → Prop :=
  | st_accept s fd k p' :
      (0 ≤ fd)%Z → fd ∉ opened (kernel (px s)) → opened k = {[fd]} ∪ opened (kernel (px s)) →
      on_accept fd (set_kernel k (px s)) = Done (tt, p') →
      sys_step s (mkSystem p' (resolver s) (accepted_fds s ++ [fd]))
  | st_parsed s cb fd hp p' :
      closures (px s) !! cb = Some (OnParsed fd) → run_callback cb (Parsed hp) (px s) = Done (tt, p') →
      sys_step s (mkSystem p' (after_calls_of (calls p') (resolver s)) (accepted_fds s))
  | st_connected s cb fd sfd p' :
      closures (px s) !! cb = Some (OnConnected fd) → run_callback cb (Connected sfd) (px s) = Done (tt, p') →
      sys_step s (mkSystem p' (resolver s) (accepted_fds s))
  | st_resolver s c' :
      dns_step opt_ min_lvl (resolver s) c' → accepted c' = accepted (resolver s) → called c' = called (resolver s) →
      sys_step s (mkSystem (px s) c' (accepted_fds s))
  | st_resolved s c' cb x p' :
      dns_step opt_ min_lvl (resolver s) c' → accepted c' = accepted (resolver s) →
      called c' = called (resolver s) ++ [(cb, x)] → run_callback cb (Resolved x) (px s) = Done (tt, p') →
      sys_step s (mkSystem p' c' (accepted_fds s))
  | st_return s fr :
      (* the parser's callback returns once [Resolve] has *)
      (∀ cb fd, closures (px s) !! cb = Some (OnResolved fd fr) → ¬ in_resolve cb (resolver s)) →
      sys_step s (mkSystem (set_frames (delete fr (frames (px s))) (px s)) (resolver s) (accepted_fds s))
  | st_kernel s k :
      (∀ fd, fd ∈ client_fds (px s) → fd ∈ opened k) →
      sys_step s (mkSystem (set_kernel k (px s)) (resolver s) (accepted_fds s)).

(** *** Callbacks that are kept *)
Definition resolving_cb (x : nat * closure) : option nat := match x.2 with OnResolved _ _ => Some x.1 | _ => None end.
Definition resolving (m : gmap nat closure) : list nat := omap resolving_cb (map_to_list m).

Lemma fds_of_insert m cb c : m !! cb = None → fds_of (<[cb := c]> m) ≡ₚ closure_fd c :: fds_of m.
Proof. intros Hm. unfold fds_of. by rewrite map_to_list_insert. Qed.
Lemma fds_of_delete m cb c : m !! cb = Some c → fds_of m ≡ₚ closure_fd c :: fds_of (delete cb m).
Proof.
  intros Hm. rewrite <- (insert_delete_id m cb c) at 1 by done. apply fds_of_insert, lookup_delete_eq.
Qed.
Lemma resolving_insert m cb c :
  m !! cb = None → resolving (<[cb := c]> m) ≡ₚ omap resolving_cb [(cb, c)] ++ resolving m.
Proof.
  intros Hm. unfold resolving. rewrite (omap_Permutation _ _ _ (map_to_list_insert m cb c Hm)).
  change ((cb, c) :: map_to_list m) with ([(cb, c)] ++ map_to_list m). by rewrite omap_app.
Qed.
Lemma resolving_delete m cb c :
  m !! cb = Some c → resolving m ≡ₚ omap resolving_cb [(cb, c)] ++ resolving (delete cb m).
Proof.
  intros Hm. rewrite <- (insert_delete_id m cb c) at 1 by done. apply resolving_insert, lookup_delete_eq.
Qed.

(** A callback of the resolver's is there while its name is pending. *)
Lemma elem_of_resolving m cb : cb ∈ resolving m → ∃ fd hp, m !! cb = Some (OnResolved fd hp).
Proof.
  intros ([i c] & Hin%elem_of_map_to_list & Hc)%list_elem_of_omap. unfold resolving_cb in Hc. cbn in Hc.
  destruct c; simplify_eq. eauto.
Qed.

(** The clients that the proxy is done with. *)
Definition done_fd (c : call) : option Z := match c with ForwardCall fd _ | CloseCall fd => Some fd | _ => None end.
Definition done_fds (cs : list call) : list Z := omap done_fd cs.

(** The proxy: its callbacks have names of their own, each has a client of its
    own that is open. *)
Record PxInv (s : Proxy) : Prop := {
  pv_names : ∀ cb c, closures s !! cb = Some c → cb < next_cb s;
  pv_nodup : NoDup (fds_of (closures s));
  pv_open : ∀ fd, fd ∈ fds_of (closures s) → fd ∈ opened (kernel s);
  pv_allowed : ∀ hp cb, ResolveCall hp cb ∈ calls s → hp ≠ [] ∧ IsAllowedPort allowed_ports hp = true
}.

Lemma PxInv_fresh s : PxInv s → closures s !! next_cb s = None.
Proof. intros HI. destruct (closures s !! _) eqn:Hc; [|done]. apply (pv_names _ HI) in Hc. lia. Qed.

Lemma PxInv_fresh_delete s cb : PxInv s → delete cb (closures s) !! next_cb s = None.
Proof. intros HI. rewrite lookup_delete_None. right. by apply PxInv_fresh. Qed.

(** A callback that is called keeps its client, with a new callback, or is done
    with it. *)
Lemma outcome_fds s s' cb c v :
  PxInv s → closures s !! cb = Some c → outcome_of cb (closure_fd c) v s s' →
  fds_of (closures s') ++ done_fds (calls s') ≡ₚ fds_of (closures s) ++ done_fds (calls s).
Proof.
  intros HI Hc Hout. pose proof (fds_of_delete _ _ _ Hc) as Hd. pose proof (PxInv_fresh_delete s cb HI) as Hf.
  unfold done_fds. destruct Hout as [Ho Hcl Hn Hca _|hp -> Hne Hal ->|a -> ->|sfd -> Hs ->];
    cbn [closures calls]; rewrite ?Hcl, ?Hca, omap_app, Hd, ?(fds_of_insert _ _ _ Hf); cbn; solve_Permutation.
Qed.

Lemma outcome_PxInv s s' cb c v :
  PxInv s → closures s !! cb = Some c → outcome_of cb (closure_fd c) v s s' → PxInv s'.
Proof.
  intros HI Hc Hout. pose proof (fds_of_delete _ _ _ Hc) as Hd. pose proof (PxInv_fresh_delete s cb HI) as Hf.
  pose proof HI as [Hn Hnd Hop Hal]. rewrite Hd in Hnd. pose proof Hnd as [Hnot Hnd']%NoDup_cons.
  assert (∀ fd, fd ∈ closure_fd c :: fds_of (delete cb (closures s)) → fd ∈ opened (kernel s)) as Hop1.
  { intros fd Hfd. apply Hop. by rewrite Hd. }
  assert (∀ i x, delete cb (closures s) !! i = Some x → i < next_cb s) as Hn1.
  { intros i x [_ Hi]%lookup_delete_Some. by apply Hn in Hi. }
  assert (∀ i x y, <[next_cb s := y]> (delete cb (closures s)) !! i = Some x → i < S (next_cb s)) as Hn2.
  { intros i x y [[<- _]|[_ Hi%Hn1]]%lookup_insert_Some; lia. }
  assert (∀ k hp i, (∀ h j, k ≠ ResolveCall h j) → ResolveCall hp i ∈ calls s ++ [k] →
    hp ≠ [] ∧ IsAllowedPort allowed_ports hp = true) as Hal1.
  { intros k hp i Hk [Hi|Hi%list_elem_of_singleton]%elem_of_app; [by eapply Hal|]. by destruct (Hk hp i). }
  destruct Hout as [Ho Hcl Hnx Hca _|hp -> Hne Hhp ->|a -> ->|sfd -> Hs ->]; split; cbn [closures next_cb kernel calls];
    rewrite ?Hcl, ?Hnx, ?Hca, ?Ho, ?(fds_of_insert _ _ _ Hf); eauto; try done.
  - intros fd Hfd. apply elem_of_difference. split; [by apply Hop1; right|].
    by intros ->%elem_of_singleton.
  - intros h i. by apply Hal1.
  - intros fd. rewrite (fds_of_insert _ _ _ Hf). apply Hop1.
  - intros hp' i [Hi|[= -> ->]%list_elem_of_singleton]%elem_of_app; [by eapply Hal|done].
  - intros fd. rewrite (fds_of_insert _ _ _ Hf). apply Hop1.
  - intros h i. by apply Hal1.
  - intros fd Hfd. apply Hop1. by right.
  - intros h i. by apply Hal1.
Qed.

(** *** The system *)
Record SInv (s : system) : Prop := {
  sv_px : PxInv (px s);
  sv_dns : DInv opt_ (resolver s);
  sv_pending : pending_cbs (resolver s) ≡ₚ resolving (closures (px s));
  sv_taken : fds_of (closures (px s)) ++ done_fds (calls (px s)) ≡ₚ accepted_fds s;
  sv_accepted : ∀ cb hp t, (cb, hp, t) ∈ accepted (resolver s) → ResolveCall hp cb ∈ calls (px s);
  sv_frames : ∀ cb fd fr, closures (px s) !! cb = Some (OnResolved fd fr) → in_resolve cb (resolver s) →
    is_Some (frames (px s) !! fr);
  sv_connect : ∀ a cb, ConnectCall a cb ∈ calls (px s) → ∃ cb', (cb', Some a) ∈ called (resolver s)
}.

(** Where a new [Connect] comes from. *)
Lemma outcome_connect s s' cb fd v a i :
  outcome_of cb fd v s s' → ConnectCall a i ∈ calls s' → ConnectCall a i ∈ calls s ∨ v = Resolved (Some a).
Proof.
  intros [Ho Hcl Hn -> _|hp -> Hne Hal ->|b -> ->|sfd -> Hs ->] [Hi|Hi%list_elem_of_singleton]%elem_of_app;
    first [by left|right; congruence|done].
Qed.

Lemma outcome_calls s s' cb fd v x : outcome_of cb fd v s s' → x ∈ calls s → x ∈ calls s'.
Proof.
  intros [Ho Hcl Hn -> _|hp -> Hne Hal ->|b -> ->|sfd -> Hs ->] Hx; apply elem_of_app; by left.
Qed.

(** The resolver is asked for what the parser's callback asks for. *)
Lemma parsed_resolver s s' cb fd hp :
  SInv s → closures (px s) !! cb = Some (OnParsed fd) → outcome_of cb fd (Parsed hp) (px s) s' →
  let c' := after_calls_of (calls s') (resolver s) in
  DInv opt_ c' ∧ pending_cbs c' ≡ₚ resolving (closures s') ∧ called c' = called (resolver s) ∧
  (∀ i h t, (i, h, t) ∈ accepted c' → ResolveCall h i ∈ calls s') ∧
  (∀ i fd fr, closures s' !! i = Some (OnResolved fd fr) → in_resolve i c' → is_Some (frames s' !! fr)).
Proof.
  intros HI Hcb Hout. pose proof (sv_px _ HI) as HP. pose proof (PxInv_fresh_delete _ cb HP) as Hf.
  pose proof (resolving_delete _ _ _ Hcb) as Hr. cbn in Hr. pose proof (sv_pending _ HI) as Hp. rewrite Hr in Hp.
  pose proof (sv_accepted _ HI) as Hacc. unfold after_calls_of.
  assert (∀ i fd fr, delete cb (closures (px s)) !! i = Some (OnResolved fd fr) → in_resolve i (resolver s) →
    is_Some (<[cb := hp]> (frames (px s)) !! fr)) as Hfr.
  { intros i fd' fr [_ Hi]%lookup_delete_Some Hin. apply lookup_insert_is_Some'. right. by eapply (sv_frames _ HI). }
  destruct Hout as [Ho Hcl Hn Hca Hfs|hp' [= ->] Hne Hal ->|a [=] ->|sfd [=] Hs ->].
  - rewrite Hca, last_snoc, Hcl, Hfs. split_and_all; [apply HI|done|done| |done].
    intros i h t Hi%Hacc. apply elem_of_app. by left.
  - cbn [calls closures]. rewrite last_snoc. split_and_all.
    + eapply (dns_step_DInv opt_ min_lvl); [apply ds_resolve|apply HI].
    + rewrite (resolving_insert _ _ _ Hf). unfold pending_cbs in Hp |- *. cbn. by rewrite Hp.
    + done.
    + intros i h t [[= -> -> ->]|Hi%Hacc]%elem_of_cons; apply elem_of_app; [by right; left|by left].
    + intros i f fr [[<- [= <- <-]]|[Hne' Hi]]%lookup_insert_Some Hin; [cbn; rewrite lookup_insert_eq; by eexists|].
      eapply Hfr; [done|]. destruct Hin as [(t & h & [[= -> -> ->]|Hin]%elem_of_cons)|(q & [[=]|Hin]%elem_of_cons)].
      * done.
      * left. by exists t, h.
      * right. by exists q.
Qed.

(** The name of a callback of the resolver's is that of one the proxy keeps. *)
Lemma called_pending s c' cb x :
  SInv s → dns_step opt_ min_lvl (resolver s) c' → accepted c' = accepted (resolver s) →
  called c' = called (resolver s) ++ [(cb, x)] →
  DInv opt_ c' ∧ pending_cbs (resolver s) ≡ₚ cb :: pending_cbs c' ∧
  ∃ fd hp, closures (px s) !! cb = Some (OnResolved fd hp) ∧ fits (OnResolved fd hp) (Resolved x).
Proof.
  intros HI Hs Ha Hc. pose proof (sv_dns _ HI) as HD. pose proof (dns_step_DInv _ _ _ _ Hs HD) as HD'.
  pose proof (DInv_pending _ _ HD) as H1'. pose proof (DInv_pending _ _ HD') as H2'.
  rewrite Ha, H1', Hc, fmap_app, <- (assoc_L (++)) in H2'. apply Permutation_app_inv_l in H2'. cbn in H2'.
  split; [done|]. split; [done|].
  destruct (elem_of_resolving (closures (px s)) cb) as (fd & hp & Hcb).
  { rewrite <- (sv_pending _ HI), H2'. by left. }
  exists fd, hp. split; [done|]. destruct x as [a|]; [|done]. cbn.
  eapply DInv_called; [done|]. rewrite Hc. apply elem_of_app. right. by left.
Qed.

Lemma run_callback_outcome s cb c v p' :
  PxInv s → closures s !! cb = Some c → fits c v → run_callback cb v s = Done (tt, p') →
  outcome_of cb (closure_fd c) v s p'.
Proof.
  intros HP Hc Hv Hr. destruct (run_callback_dangling cb c v s Hc) as [Hlog|Hub]; [|by rewrite Hub in Hr].
  assert (closure_fd c ∈ opened (kernel s)) as Hop.
  { apply (pv_open _ HP). rewrite (fds_of_delete _ _ _ Hc). by left. }
  pose proof (run_callback_wp cb c v s Hc Hop Hv Hlog) as Hout. unfold wp in Hout. by rewrite Hr in Hout.
Qed.

(** A client that has been accepted. *)
Lemma accept_SInv s fd k p' :
  SInv s → (0 ≤ fd)%Z → fd ∉ opened (kernel (px s)) → opened k = {[fd]} ∪ opened (kernel (px s)) →
  on_accept fd (set_kernel k (px s)) = Done (tt, p') → SInv (mkSystem p' (resolver s) (accepted_fds s ++ [fd])).
Proof.
  intros HI Hpos Hnew Hop Hr. unfold on_accept, capture, ask in Hr. injection Hr as <-.
  pose proof (PxInv_fresh _ (sv_px _ HI)) as Hf. destruct HI as [[Hn Hnd Ho Hal] HD Hp Ht Hacc Hfr Hco].
  split; cbn [px resolver closures calls accepted_fds kernel next_cb frames set_kernel] in *; try done.
  - split; cbn [closures next_cb kernel calls]; rewrite ?(fds_of_insert _ _ _ Hf), ?Hop.
    + intros i c [[<- _]|[_ Hi%Hn]]%lookup_insert_Some; lia.
    + constructor; [|done]. by intros Hi%Ho.
    + intros f. rewrite (fds_of_insert _ _ _ Hf). intros [->|Hi%Ho]%elem_of_cons; set_solver.
    + intros h i [Hi|Hi%list_elem_of_singleton]%elem_of_app; [by eapply Hal|done].
  - by rewrite (resolving_insert _ _ _ Hf).
  - rewrite (fds_of_insert _ _ _ Hf), <- Ht. unfold done_fds. rewrite omap_app. cbn. solve_Permutation.
  - intros i h t Hi%Hacc. apply elem_of_app. by left.
  - intros i f fr [[_ [=]]|[_ Hi]]%lookup_insert_Some. by eapply Hfr.
  - intros a i [Hi|Hi%list_elem_of_singleton]%elem_of_app; [by eapply Hco|done].
Qed.

(** Callbacks other than the parser's make no new reference. *)
Lemma outcome_frames s s' cb c v i fd fr :
  outcome_of cb (closure_fd c) v s s' → (∀ hp, v ≠ Parsed hp) → closures s' !! i = Some (OnResolved fd fr) →
  closures s !! i = Some (OnResolved fd fr) ∧ frames s' = frames s.
Proof.
  intros [Ho -> Hn Hca ->|hp -> Hne Hal ->|a -> ->|sfd -> Hs ->] Hv; cbn.
  - intros [_ ?]%lookup_delete_Some. split; [done|]. destruct v; [by destruct (Hv host_port)|done..].
  - by destruct (Hv hp).
  - intros [[_ [=]]|[_ [_ ?]%lookup_delete_Some]]%lookup_insert_Some. done.
  - intros [_ ?]%lookup_delete_Some. done.
Qed.

Lemma sys_step_SInv s s' : sys_step s s' → SInv s → SInv s'.
Proof.
  destruct 1 as [s fd k p' Hpos Hnew Hop Hr|s cb fd hp p' Hcb Hr|s cb fd sfd p' Hcb Hr|s c' Hs Ha Hc|
    s c' cb x p' Hs Ha Hc Hr|s fr Hret|s k Hk]; intros HI; pose proof (sv_px _ HI) as HP.
  - by eapply accept_SInv.
  - pose proof (run_callback_outcome _ _ _ (Parsed hp) _ HP Hcb I Hr) as Hout.
    destruct (parsed_resolver s p' cb fd hp HI Hcb Hout) as (HD & Hp & Hca & Hacc & Hfr).
    split; cbn [px resolver accepted_fds]; try done.
    + by eapply outcome_PxInv.
    + rewrite <- (sv_taken _ HI). by eapply outcome_fds.
    + intros a i Hi. rewrite Hca. destruct (outcome_connect _ _ _ _ _ _ _ Hout Hi) as [Hi'|?]; [|done].
      by eapply (sv_connect _ HI).
  - pose proof (run_callback_outcome _ _ _ (Connected sfd) _ HP Hcb I Hr) as Hout.
    split; cbn [px resolver accepted_fds].
    + by eapply outcome_PxInv.
    + apply HI.
    + rewrite (sv_pending _ HI), (resolving_delete _ _ _ Hcb).
      destruct Hout as [Ho -> Hn Hca _|? [=]|? [=]|? _ _ ->]; done.
    + rewrite <- (sv_taken _ HI). by eapply outcome_fds.
    + intros i h t Hi%(sv_accepted _ HI). by eapply outcome_calls.
    + intros i f fr Hi Hin. destruct (outcome_frames _ _ _ _ _ _ _ _ Hout ltac:(done) Hi) as [Hi' ->].
      by eapply (sv_frames _ HI).
    + intros a i Hi. destruct (outcome_connect _ _ _ _ _ _ _ Hout Hi) as [Hi'|?]; [|done].
      by eapply (sv_connect _ HI).
  - pose proof (sv_dns _ HI) as HD. pose proof (dns_step_DInv _ _ _ _ Hs HD) as HD'.
    destruct HI as [_ _ Hp Ht Hacc Hfr Hco]. split; cbn [px resolver accepted_fds]; rewrite ?Ha, ?Hc; try done.
    + rewrite <- Hp. pose proof (DInv_pending _ _ HD) as H1'. pose proof (DInv_pending _ _ HD') as H2'.
      rewrite Ha, Hc, H1' in H2'. by apply Permutation_app_inv_l in H2'.
    + intros i f fr Hi Hin. eapply Hfr; [done|]. by eapply dns_step_in_resolve.
  - destruct (called_pending s c' cb x HI Hs Ha Hc) as (HD' & Hp & fd & fr & Hcb & Hv).
    pose proof (run_callback_outcome _ _ _ _ _ HP Hcb Hv Hr) as Hout.
    split; cbn [px resolver accepted_fds]; rewrite ?Ha.
    + by eapply outcome_PxInv.
    + done.
    + rewrite (sv_pending _ HI), (resolving_delete _ _ _ Hcb) in Hp. cbn in Hp.
      apply Permutation_cons_inv in Hp. rewrite <- Hp.
      pose proof (PxInv_fresh_delete _ cb HP) as Hf.
      destruct Hout as [Ho -> Hn Hca _|? [=]|a _ ->|? [=]]; [done|]. cbn [closures]. by rewrite (resolving_insert _ _ _ Hf).
    + rewrite <- (sv_taken _ HI). by eapply outcome_fds.
    + intros i h t Hi%(sv_accepted _ HI). by eapply outcome_calls.
    + intros i f fr' Hi Hin. destruct (outcome_frames _ _ _ _ _ _ _ _ Hout ltac:(done) Hi) as [Hi' ->].
      eapply (sv_frames _ HI); [done|]. eapply dns_step_in_resolve; [by apply HI|done..].
    + intros a i Hi. rewrite Hc. destruct (outcome_connect _ _ _ _ _ _ _ Hout Hi) as [Hi'|[= ->]].
      * destruct (sv_connect _ HI a i Hi') as [j Hj]. exists j. apply elem_of_app. by left.
      * exists cb. apply elem_of_app. right. by left.
  - destruct HI as [[Hn Hnd Ho Hal] HD Hp Ht Hacc Hfr Hco]. split; try done.
    intros i f fr' Hi Hin. cbn. rewrite lookup_delete_ne; [by eapply Hfr|].
    intros ->. by apply (Hret i f).
  - destruct HI as [[Hn Hnd Ho Hal] HD Hp Ht Hacc Hfr Hco]. by split.
Qed.

Lemma sys_run_SInv k e s : ex_ok e → ex_pending e = [] → rtc sys_step (sys_init k e) s → SInv s.
Proof.
  intros Hok Hp Hr. eapply (rtc_invariant _ SInv); [done| |].
  - assert (fds_of ∅ = []) as Hfds by (unfold fds_of; by rewrite map_to_list_empty).
    split; cbn [px resolver sys_init closures calls accepted_fds next_cb kernel].
    + split; cbn [closures next_cb kernel calls]; rewrite ?Hfds.
      * intros cb c. by rewrite lookup_empty.
      * constructor.
      * by intros fd ?%elem_of_nil.
      * by intros hp cb ?%elem_of_nil.
    + apply (dns_run_DInv opt_ min_lvl e); [done|done|apply rtc_refl].
    + unfold pending_cbs, node_cbs, resolving. cbn [acts dns dns_init nodes DnsResolver_new]. by rewrite !map_to_list_empty.
    + by rewrite Hfds.
    + by intros ??? ?%elem_of_nil.
    + intros cb fd fr. by rewrite lookup_empty.
    + by intros ?? ?%elem_of_nil.
  - intros a b Ha Hs. by eapply sys_step_SInv.
Qed.

(** ** Theorems *)

(** C1: Every client is served once. In every state that the proxy and its
    resolver can reach, each client that [Accept] has returned is in exactly
    one place: a callback that some component still has to call, or it has been
    handed to the forwarder with a server, or closed - once; the clients kept
    are distinct and open. Each callback, called with any argument, runs to
    its end - its client is not closed twice - and hands its client on, if what
    its [LOG(WARN)] reads is there. When the resolver calls a callback, it is
    one that the proxy keeps; and if [Resolve] itself calls it, what the
    callback reads is there. *)
Theorem proxy_serves_once k e s :
  ex_ok e → ex_pending e = [] → rtc sys_step (sys_init k e) s →
  client_fds (px s) ++ done_fds (calls (px s)) ≡ₚ accepted_fds s ∧
  NoDup (client_fds (px s)) ∧ (∀ fd, fd ∈ client_fds (px s) → fd ∈ opened (kernel (px s))) ∧
  (∀ cb c v, closures (px s) !! cb = Some c → fits c v → can_log (px s) c v →
    ∃ p', run_callback cb v (px s) = Done (tt, p') ∧ outcome_of cb (closure_fd c) v (px s) p') ∧
  ∀ c' cb x, dns_step opt_ min_lvl (resolver s) c' → accepted c' = accepted (resolver s) →
    called c' = called (resolver s) ++ [(cb, x)] →
    ∃ fd fr, closures (px s) !! cb = Some (OnResolved fd fr) ∧ fits (OnResolved fd fr) (Resolved x) ∧
      (in_resolve cb (resolver s) → can_log (px s) (OnResolved fd fr) (Resolved x)).
Proof.
  intros Hok Hp Hr. pose proof (sys_run_SInv k e s Hok Hp Hr) as HI. pose proof (sv_px _ HI) as HP.
  split; [apply HI|]. split; [apply HP|]. split; [apply HP|]. split.
  - intros cb c v Hc Hv Hlog. assert (closure_fd c ∈ opened (kernel (px s))) as Hop.
    { apply (pv_open _ HP). rewrite (fds_of_delete _ _ _ Hc). by left. }
    destruct (wp_Done _ _ _ (run_callback_wp cb c v (px s) Hc Hop Hv Hlog)) as ([] & p' & ? & ?). by exists p'.
  - intros c' cb x Hs Ha Hc. destruct (called_pending s c' cb x HI Hs Ha Hc) as (_ & _ & fd & fr & Hcb & Hv).
    exists fd, fr. split_and_all; [done|done|]. intros Hin. destruct x; [done|]. right. by eapply (sv_frames _ HI).
Qed.

(** C9: The proxy connects only where it is allowed to: each address that it
    asks the connector for is one that [getaddrinfo] answered to a question for
    an allowed port - the port as [getaddrinfo] read it, after [ResolveSync]
    has taken the text apart as C strings. *)
Theorem proxy_allowed_ports k e s a cb :
  ex_ok e → ex_pending e = [] → rtc sys_step (sys_init k e) s →
  allowed_ports ≠ [] → (∀ p, p ∈ allowed_ports → NUL ∉ p) → ConnectCall a cb ∈ calls (px s) →
  ipv4 a ∧ ∃ r host port, r ∈ answers (resolver s) ∧ a ∈ a_addrs r ∧ query (a_key r) = Some (host, port) ∧
    port ∈ allowed_ports.
Proof.
  intros Hok Hp Hr Hne Hnul Hc. pose proof (sys_run_SInv k e s Hok Hp Hr) as HI.
  destruct (sv_connect _ HI _ _ Hc) as [cb' Hcb'].
  destruct (DInv_called _ _ _ _ (sv_dns _ HI) Hcb') as (Hv & r & t & Hin & Hacc & Ha & _). split; [done|].
  destruct (pv_allowed _ (sv_px _ HI) _ _ (sv_accepted _ HI _ _ _ Hacc)) as [_ Hal].
  destruct (sv_dns _ HI) as (_ & _ & HF). destruct (fr_answers _ _ HF r Hin) as (_ & _ & _ & [[[host port] Hq] _] & _).
  exists r, host, port. split_and_all; try done. by eapply allowed_port_query.
Qed.
End proxy.

(** ** An example: a client goes through to the connector *)
Module ProxyExample.
Local Open Scope Z_scope.
Import DnsRunExample.

Definition allowed : list bytes := [B "443"].
Abbreviation step := (sys_step (K := sim_accept) (E := pconf) INFO allowed dns_defaults).
Abbreviation run := (run_callback (K := sim_accept) INFO allowed).

Definition k0 : sim_accept := mkSimAccept {[3]} [].
Definition k1 : sim_accept := mkSimAccept {[3; 4]} [].
Definition p0 : Proxy (K := sim_accept) := mkProxy k0 ∅ 0 [] ∅.
Definition p1 : Proxy := after (on_accept 4) (set_kernel k1 p0).
Definition p2 : Proxy := after (run 0%nat (Parsed DnsExample.key)) p1.

(** The resolver, asked by the callback of the parser. *)
Definition r1 : conf := after_calls_of (calls p2) (dns_init e0).
Definition r2 : conf := act_next r1 (AResolve now DnsExample.key 1) [].
Definition r3 : conf := mkConf (dns r2) e1 (acts r2) [] (accepted r2) (called r2) (answers r2).
Definition r4 : conf := mkConf (dns r3) e2 (AStart 0 :: acts r3) (scheduling r3) (accepted r3) (called r3) (answers r3).
Definition r5 : conf := act_next r4 (AStart 0) [].
Definition r6 : conf := act_next r5 (AProcess now 0) [].
Definition r7 : conf := act_next r6 (AResolveSync 0) [].
Definition r8 : conf := act_next r7 (AUpdate now 0 (Some 0%nat)) [].
Definition r9 : conf := act_next r8 (ACallbacks 0 [1%nat] (Some 0%nat)) [].
Definition p3 : Proxy := after (run 1%nat (Resolved (Some (DnsExample.address 1)))) p2.
Definition p4 : Proxy := after (run 2%nat (Connected 9)) p3.

Lemma proxy_connects : calls p3 = [ParseRequest 4 0; ResolveCall DnsExample.key 1; ConnectCall (DnsExample.address 1) 2].
Proof. by vm_compute. Qed.
Lemma proxy_forwards : done_fds (calls p4) = [4] ∧ client_fds p4 = [].
Proof. by vm_compute. Qed.

(** A step of an action of the resolver. *)
Ltac performs := apply act_next_step; [by vm_compute|eexists _, _; by vm_compute].

Lemma run_connect : rtc step (sys_init k0 e0) (mkSystem p3 r9 [4]).
Proof.
  eapply rtc_l; [apply (st_accept _ _ _ (sys_init k0 e0) 4 k1 p1); [done|by vm_compute|by vm_compute|done]|].
  eapply rtc_l; [apply (st_parsed _ _ _ (mkSystem p1 (dns_init e0) [4]) 0 4 DnsExample.key p2); by vm_compute|].
  change (after_calls_of _ _) with r1. cbn [accepted_fds].
  eapply rtc_l; [apply (st_resolver _ _ _ (mkSystem p2 r1 [4]) r2); [performs|by vm_compute|by vm_compute]|].
  eapply rtc_l; [apply (st_resolver _ _ _ (mkSystem p2 r2 [4]) r3); [|done|done]|].
  { apply (ds_schedule _ _ r2 now 0 [] e1); [by vm_compute|by split_and!]. }
  eapply rtc_l; [apply (st_resolver _ _ _ (mkSystem p2 r3 [4]) r4); [|done|done]|].
  { apply (ds_start _ _ r3 0 e2). split; [|exists task, now; by vm_compute].
    by apply (ps_next [task] [] e1.2 1 Looking e2.2). }
  eapply rtc_l; [apply (st_resolver _ _ _ (mkSystem p2 r4 [4]) r5); [performs|by vm_compute|by vm_compute]|].
  eapply rtc_l; [apply (st_resolver _ _ _ (mkSystem p2 r5 [4]) r6); [performs|by vm_compute|by vm_compute]|].
  eapply rtc_l; [apply (st_resolver _ _ _ (mkSystem p2 r6 [4]) r7); [performs|by vm_compute|by vm_compute]|].
  eapply rtc_l; [apply (st_resolver _ _ _ (mkSystem p2 r7 [4]) r8); [performs|by vm_compute|by vm_compute]|].
  eapply rtc_l; [|apply rtc_refl].
  apply (st_resolved _ _ _ (mkSystem p2 r8 [4]) r9 1 (Some (DnsExample.address 1)) p3); [|by vm_compute..].
  apply act_next_step; [by vm_compute|eexists _, _; by vm_compute].
Qed.

(** A client that asks for a host that does not exist. The parser's callback
    has returned when the resolver calls back. *)
Definition nowhere : bytes := B "nowhere:443".
Definition q2 : Proxy := after (run 0%nat (Parsed nowhere)) p1.
Definition n1 : conf := after_calls_of (calls q2) (dns_init e0).
Definition n2 : conf := act_next n1 (AResolve now nowhere 1) [].
Definition q3 : Proxy := set_frames ∅ q2.
Definition n3 : conf := mkConf (dns n2) e1 (acts n2) [] (accepted n2) (called n2) (answers n2).
Definition n4 : conf := mkConf (dns n3) e2 (AStart 0 :: acts n3) (scheduling n3) (accepted n3) (called n3) (answers n3).
Definition n5 : conf := act_next n4 (AStart 0) [].
Definition n6 : conf := act_next n5 (AProcess now 0) [].
Definition n7 : conf := act_next n6 (AResolveSync 0) [].
Definition n8 : conf := act_next n7 (AUpdate now 0 None) [].
Definition n9 : conf := act_next n8 (ACallbacks 0 [1%nat] None) [].

Lemma run_nowhere : rtc step (sys_init k0 e0) (mkSystem q3 n8 [4]).
Proof.
  eapply rtc_l; [apply (st_accept _ _ _ (sys_init k0 e0) 4 k1 p1); [done|by vm_compute|by vm_compute|done]|].
  eapply rtc_l; [apply (st_parsed _ _ _ (mkSystem p1 (dns_init e0) [4]) 0 4 nowhere q2); by vm_compute|].
  change (after_calls_of _ _) with n1. cbn [accepted_fds].
  eapply rtc_l; [apply (st_resolver _ _ _ (mkSystem q2 n1 [4]) n2); [performs|by vm_compute|by vm_compute]|].
  eapply rtc_l; [apply (st_return _ _ _ (mkSystem q2 n2 [4]) 0)|].
  { intros cb fd _ [(t & hp & Hin)|(p & Hin)]; vm_compute in Hin; by apply elem_of_nil in Hin. }
  replace (set_frames _ _) with q3 by (by vm_compute). cbn [resolver accepted_fds].
  eapply rtc_l; [apply (st_resolver _ _ _ (mkSystem q3 n2 [4]) n3); [|done|done]|].
  { apply (ds_schedule _ _ n2 now 0 [] e1); [by vm_compute|by split_and!]. }
  eapply rtc_l; [apply (st_resolver _ _ _ (mkSystem q3 n3 [4]) n4); [|done|done]|].
  { apply (ds_start _ _ n3 0 e2). split; [|exists task, now; by vm_compute].
    by apply (ps_next [task] [] e1.2 1 Looking e2.2). }
  eapply rtc_l; [apply (st_resolver _ _ _ (mkSystem q3 n4 [4]) n5); [performs|by vm_compute|by vm_compute]|].
  eapply rtc_l; [apply (st_resolver _ _ _ (mkSystem q3 n5 [4]) n6); [performs|by vm_compute|by vm_compute]|].
  eapply rtc_l; [apply (st_resolver _ _ _ (mkSystem q3 n6 [4]) n7); [performs|by vm_compute|by vm_compute]|].
  eapply rtc_l; [apply (st_resolver _ _ _ (mkSystem q3 n7 [4]) n8); [performs|by vm_compute|by vm_compute]|].
  apply rtc_refl.
Qed.
End ProxyExample.

(** C28: The log of a DNS error reads memory that is gone. The callback that
    [RunProxy] gives to the resolver has captured [host_port], a parameter of
    the parser's callback, by reference; there is a run of the proxy in which a
    host does not exist, the parser's callback has returned, and the resolver
    then calls back with null: the behaviour is undefined. *)
Theorem dns_error_reads_dangling :
  ∃ s c', rtc (sys_step (K := sim_accept) (E := pconf) INFO [B "443"] dns_defaults)
      (sys_init ProxyExample.k0 DnsRunExample.e0) s ∧
    dns_step dns_defaults INFO (resolver s) c' ∧ accepted c' = accepted (resolver s) ∧
    called c' = called (resolver s) ++ [(1, None)] ∧
    run_callback INFO [B "443"] 1 (Resolved None) (px s) = UB "host_port".
Proof.
  exists (mkSystem ProxyExample.q3 ProxyExample.n8 [4%Z]), ProxyExample.n9.
  split; [exact ProxyExample.run_nowhere|]. split; [|by vm_compute].
  apply DnsRunExample.act_next_step; [by vm_compute|eexists _, _; by vm_compute].
Qed.

Lemma proxy_serves_once_witness :
  client_fds ProxyExample.p3 = [4%Z] ∧ client_fds ProxyExample.p3 ++ done_fds (calls ProxyExample.p3) ≡ₚ [4%Z].
Proof.
  split; [by vm_compute|].
  destruct (proxy_serves_once INFO ProxyExample.allowed dns_defaults ProxyExample.k0 DnsRunExample.e0
    (mkSystem ProxyExample.p3 ProxyExample.r9 [4%Z])
    (proj1 DnsRunExample.e0_ok) (proj2 DnsRunExample.e0_ok) ProxyExample.run_connect) as [Hp _]. exact Hp.
Defined.

Lemma proxy_allowed_ports_witness :
  ∃ r host port, r ∈ answers ProxyExample.r9 ∧ query (a_key r) = Some (host, port) ∧ port = B "443".
Proof.
  destruct (proxy_allowed_ports INFO ProxyExample.allowed dns_defaults ProxyExample.k0 DnsRunExample.e0
    (mkSystem ProxyExample.p3 ProxyExample.r9 [4%Z]) (DnsExample.address 1) 2
    (proj1 DnsRunExample.e0_ok) (proj2 DnsRunExample.e0_ok) ProxyExample.run_connect)
    as (_ & r & host & port & Hr & _ & Hq & Hp).
  - done.
  - intros p ->%list_elem_of_singleton. apply (bool_decide_unpack _). by vm_compute.
  - cbn [px]. rewrite ProxyExample.proxy_connects. right; right; left.
  - exists r, host, port. split; [exact Hr|]. split; [exact Hq|]. by apply list_elem_of_singleton in Hp.
Defined.
