(* ===== verification/Whole.v ===== *)
(** * The whole program (hcproxy.cc)

    The event loops of the parser, the connector and the forwarder, the
    resolver with its thread pool, the acceptor's loop and the callbacks of
    [RunProxy], over one kernel: what one of them opens, closes, reads or
    writes, the others see. The threads take their steps in any order. Here
    are the state, the steps and what holds in every state; what follows for
    the program is in WholeRuns.v. *)

From S2P Require Import Prelude Logging IntrusiveList Epoll EventLoop LoopTheorems Frame OneShot Sock Addr Parser Connector Buffer Forwarder ForwarderTheorems ForwarderLoop ForwarderNew ForwarderRuns Executor Dns DnsRuns Acceptor Os Footprint Hcproxy.

(** hcproxy.cc: [Options]; the timeouts of the connector and the forwarder are
    their defaults. *)
Record Options := mkOptions {
  acceptor_opt : AcceptorOptions;
  parser_opt : ParserOptions;
  dns_opt : DnsOptions;
  forwarder_opt : ForwarderOptions;
  allowed_ports : list bytes;
  max_num_open_files : Z
}.
Definition options_default : Options :=
  mkOptions acceptor_defaults parser_defaults dns_defaults forwarder_defaults [] 0.

(** The callbacks that the parser and the connector have been given. *)
Definition parse_asked (cs : list call) : list nat := omap (λ c, match c with ParseRequest _ cb => Some cb | _ => None end) cs.
Definition conn_asked (cs : list call) : list nat := omap (λ c, match c with ConnectCall _ cb => Some cb | _ => None end) cs.

Section whole.
Context {K EK PQ PF E : Type} `{!FdKernel K, !FdLaws K, !PipeKernel K, !PipeKernelLaws K, !ReadKernel K, !ReadLaws K,
  !AcceptKernel K, !AcceptLaws K, !SockOptKernel K, !SockOptLaws K, !ConnectKernel K, !ConnectLaws K,
  !ShutdownKernel K, !ForwardLaws K, !OsLaws K} `{EpollLaws EK} `{PipeLaws PQ ptr} `{PipeLaws PF (Z * Z)} `{ExecutorLaws E}.

Context (strerror : Z → bytes) (time_str : K → bytes) (clobber : bytes → Z → Z).
Context (min_lvl : Severity) (left_first : bool) (vector_capacity : nat → nat → nat) (opt : Options) (listen_fd : Z).

Abbreviation PSt := (EventLoop.St ParseEventHandler (parser_world (K := K)) EK PQ).
Abbreviation CSt := (EventLoop.St ConnectEventHandler (connector_world (K := K)) EK PQ).
Abbreviation FSt := (EventLoop.St LinkEventHandler K EK PF).

(** The parser, the connector and the forwarder have the kernel of [RunProxy]'s
    callbacks, [kern], loaded when they take a step: the one that they have
    been left with is not looked at. *)
Record whole := mkWhole { sys : system (K := K) (E := E); par : PSt; con : CSt; fwd : FSt }.

Definition kern (w : whole) : K := Hcproxy.kernel (px (sys w)).
Definition load_par (k : K) (s : PSt) : PSt := set_world (mkPW k (Parser.calls (world s))) s.
Definition load_con (k : K) (s : CSt) : CSt := set_world (mkCW k (connected (world s))) s.
Definition load_fwd (k : K) (s : FSt) : FSt := set_world k s.

Definition set_kern (k : K) (s : system (K := K) (E := E)) : system (K := K) (E := E) :=
  mkSystem (set_kernel k (px s)) (resolver s) (accepted_fds s).

Abbreviation ParserTurn :=
  (Loop_turn parse_delete (Parser.OnEvent min_lvl) Parser.OnTimeout (add_later EPOLLIN) vector_capacity).
Abbreviation ConnTurn :=
  (Loop_turn conn_delete ConnOnEvent ConnOnTimeout (add_later EPOLLOUT) vector_capacity).
Abbreviation FwdTurn :=
  (Loop_turn link_delete (Forwarder.OnEvent min_lvl left_first) Forwarder.OnTimeout (New (forwarder_opt opt)) vector_capacity).

(** ** Who has which descriptor *)

(** The servers' sockets that the connector has, or has handed to a callback
    that has not run. *)
Definition result_fd (cls : gmap nat closure) (x : nat * Z) : option Z :=
  match cls !! x.1 with Some (OnConnected _) => if (0 <=? x.2)%Z then Some x.2 else None | _ => None end.
Definition servers (cls : gmap nat closure) (s : CSt) : gset Z :=
  list_to_set ((λ x, fd_ x.2) <$> map_to_list (handlers s)) ∪ list_to_set (omap (result_fd cls) (connected (world s))).

(** The descriptors that the forwarder does not have: the loops' pipes, the
    listening socket, the clients on their way, and the servers' sockets. *)
Definition others (p : Proxy (K := K)) (sp : PSt) (sc : CSt) : list Z :=
  pipe_fd sp :: pipe_fd sc :: listen_fd :: client_fds p ++ elements (servers (closures p) sc).

Definition owned_fd (w : whole) (fd : Z) : Prop := fd ∈ others (px (sys w)) (par w) (con w) ∨ fwd_owns (fwd w) fd.

(** ** Steps *)

(** What the connector does for a callback that has asked it to connect, and the
    forwarder for one that has asked it to forward: the call runs on the
    thread [t] of the callback. *)
Definition connects (cs : list call) (s s' : CSt) : Prop :=
  match last cs with
  | Some (ConnectCall addr cb) => ∃ t p c, t ≠ loop_ s ∧ handlers s !! p = None ∧
      Connect min_lvl p addr cb (as_thread t s) = Done (tt, c) ∧ s' = as_thread (loop_ s) c
  | _ => s' = s
  end.
Definition forwards (cs : list call) (s s' : FSt) : Prop :=
  match last cs with
  | Some (ForwardCall c f) => ∃ t d, t ≠ loop_ s ∧
      Forward (forwarder_opt opt) c f (as_thread t s) = Done (tt, d) ∧ s' = as_thread (loop_ s) d
  | _ => s' = s
  end.

(** - [wh_accept]: [RunProxy]'s thread accepts a client and gives it to the
      parser;
    - [wh_parser], [wh_connector], [wh_forwarder]: a turn of a loop;
    - [wh_parsed], [wh_resolved], [wh_connected]: a callback that a component
      has called runs, on the thread of the component, with the call of the
      next component that it makes; a callback that a turn has called runs
      between two turns, and the callbacks of a turn in any order;
    - [wh_resolver]: the resolver and its pool, when they call nothing;
    - [wh_return]: the parser's callback returns;
    - [wh_env]: time, peers, other programs. *)
Inductive whole_step : whole → whole → Prop :=
  | wh_accept w fuel e out fd lg p' t q s' :
      Accept strerror time_str clobber min_lvl fuel listen_fd (mkLog e out (kern w)) = Done (fd, lg) →
      on_accept fd (set_kernel (rest lg) (px (sys w))) = Done (tt, p') →
      t ≠ loop_ (par w) → handlers (par w) !! q = None →
      Parser.ParseRequest (parser_opt opt) q fd (next_cb (px (sys w))) (as_thread t (load_par (rest lg) (par w))) = Done (tt, s') →
      whole_step w (mkWhole (mkSystem p' (resolver (sys w)) (accepted_fds (sys w) ++ [fd]))
        (as_thread (loop_ (par w)) s') (con w) (fwd w))
  | wh_parser w s' :
      turn_env vector_capacity (load_par (kern w) (par w)) → turns ParserTurn (load_par (kern w) (par w)) s' →
      whole_step w (mkWhole (set_kern (sockets (world s')) (sys w)) s' (con w) (fwd w))
  | wh_parsed w cb fd hp p' :
      (cb, hp) ∈ Parser.calls (world (par w)) → closures (px (sys w)) !! cb = Some (OnParsed fd) →
      run_callback min_lvl (allowed_ports opt) cb (Parsed hp) (px (sys w)) = Done (tt, p') →
      whole_step w (mkWhole (mkSystem p' (after_calls_of (calls p') (resolver (sys w))) (accepted_fds (sys w)))
        (par w) (con w) (fwd w))
  | wh_resolver w c' :
      dns_step (dns_opt opt) min_lvl (resolver (sys w)) c' →
      accepted c' = accepted (resolver (sys w)) → called c' = called (resolver (sys w)) →
      whole_step w (mkWhole (mkSystem (px (sys w)) c' (accepted_fds (sys w))) (par w) (con w) (fwd w))
  | wh_resolved w c' cb x p' s' :
      dns_step (dns_opt opt) min_lvl (resolver (sys w)) c' →
      accepted c' = accepted (resolver (sys w)) → called c' = called (resolver (sys w)) ++ [(cb, x)] →
      run_callback min_lvl (allowed_ports opt) cb (Resolved x) (px (sys w)) = Done (tt, p') →
      connects (calls p') (load_con (Hcproxy.kernel p') (con w)) s' →
      whole_step w (mkWhole (set_kern (net (world s')) (mkSystem p' c' (accepted_fds (sys w)))) (par w) s' (fwd w))
  | wh_connector w s' :
      turn_env vector_capacity (load_con (kern w) (con w)) → turns ConnTurn (load_con (kern w) (con w)) s' →
      whole_step w (mkWhole (set_kern (net (world s')) (sys w)) (par w) s' (fwd w))
  | wh_connected w cb fd sfd p' s' :
      (cb, sfd) ∈ connected (world (con w)) → closures (px (sys w)) !! cb = Some (OnConnected fd) →
      run_callback min_lvl (allowed_ports opt) cb (Connected sfd) (px (sys w)) = Done (tt, p') →
      forwards (calls p') (load_fwd (Hcproxy.kernel p') (fwd w)) s' →
      whole_step w (mkWhole (mkSystem p' (resolver (sys w)) (accepted_fds (sys w))) (par w) (con w) s')
  | wh_forwarder w s' :
      turn_env vector_capacity (load_fwd (kern w) (fwd w)) → turns FwdTurn (load_fwd (kern w) (fwd w)) s' →
      whole_step w (mkWhole (set_kern (world s') (sys w)) (par w) (con w) s')
  | wh_return w fr :
      (∀ cb fd, closures (px (sys w)) !! cb = Some (OnResolved fd fr) → ¬ in_resolve cb (resolver (sys w))) →
      whole_step w (mkWhole (mkSystem (set_frames (delete fr (frames (px (sys w)))) (px (sys w)))
        (resolver (sys w)) (accepted_fds (sys w))) (par w) (con w) (fwd w))
  | wh_env w k S cp cc cf :
      elsewhere S (kern w) k → unread (kern w) k → (∀ fd, fd ∈ S → ¬ owned_fd w fd) →
      (time (clk (par w)) ≤ time cp)%Z → (time (clk (con w)) ≤ time cc)%Z → (time (clk (fwd w)) ≤ time cf)%Z →
      whole_step w (mkWhole (set_kern k (sys w)) (set_clk cp (par w)) (set_clk cc (con w)) (set_clk cf (fwd w))).
End whole.
