(* ===== verification/WholeExample.v ===== *)
(** * An example: a client goes through the whole program

    On the kernel of SimOs.v: a client connects, sends its request, its host is
    looked up, the server is connected, and bytes go both ways. It shows that
    the hypotheses of the theorems on the whole program can hold. *)

From S2P Require Import Prelude Logging IntrusiveList Epoll EventLoop LoopTheorems Frame OneShot Sock Addr Parser Connector Buffer Forwarder ForwarderTheorems ForwarderLoop ForwarderNew ForwarderRuns Executor Dns ThreadPool PoolExecutor DnsRuns Acceptor Os SimOs Footprint Hcproxy Whole.

Module WholeExample.
Local Open Scope Z_scope.
Import DnsRunExample.

Abbreviation PSt := (EventLoop.St ParseEventHandler (parser_world (K := sim_os)) sim_epoll (list ptr)).
Abbreviation CSt := (EventLoop.St ConnectEventHandler (connector_world (K := sim_os)) sim_epoll (list ptr)).
Abbreviation FSt := (EventLoop.St LinkEventHandler sim_os sim_epoll (list (Z * Z))).
Abbreviation state := (whole (K := sim_os) (EK := sim_epoll) (PQ := list ptr) (PF := list (Z * Z)) (E := pconf)).

Definition opt : Options := mkOptions acceptor_defaults parser_defaults dns_defaults forwarder_defaults [B "443"] 0.

(** The client (7) sends its request, then "abc"; the server (8) sends "xy". The
    loops' pipes are 3, 4 and 5, the listening socket is 6. *)
Definition os : sim_os := mkOs
  (mkSimPipes (mkView {[3; 4; 5; 6]} ∅ ∅ ∅ ∅ ∅ {[7 := 4%nat; 8 := 2%nat]} 0)
    (λ fd, if decide (fd = 7) then B "abc" else if decide (fd = 8) then B "xy" else []) (λ _, 16%nat))
  (mkSimNet (λ fd, if decide (fd = 7) then [ReadData (B "CONNECT example.org:443 HTTP/1.1" ++ CRLFCRLF)] else []) (λ _, []))
  [inl AcceptorExample.client].

Definition ticks : clock := mkClock 0 [3%N; 4%N; 1%N; 1%N].
Definition par0 : PSt := after (EventLoop_new (accept_timeout parser_defaults) 11)
  (mkSt ∅ (mkL ∅ list_new) (EPoll_new (mkSimEpoll ∅ [[3]; [7]])) ticks [] 3 11 11 0 (mkPW os [])).
Definition con0 : CSt := after (EventLoop_new connect_timeout 12)
  (mkSt ∅ (mkL ∅ list_new) (EPoll_new (mkSimEpoll ∅ [[4]; [8]])) ticks [] 4 12 12 0 (mkCW os [])).
Definition fwd0 : FSt := after (EventLoop_new read_write_timeout 13)
  (mkSt ∅ (mkL ∅ list_new) (EPoll_new (mkSimEpoll ∅ [[5]; [7; 8]])) ticks [] 5 13 13 0 os).
Definition w0 : state := mkWhole (sys_init os e0) par0 con0 fwd0.

Abbreviation step := (whole_step (K := sim_os) (EK := sim_epoll) (PQ := list ptr) (PF := list (Z * Z)) (E := pconf)
  (λ _, B "error") (λ _, B "now") (λ _ _, 0) INFO true (λ _ n, n) opt 6).
Abbreviation accept := (Accept (K := sim_os) (λ _, B "error") (λ _, B "now") (λ _ _, 0) INFO 10 6).
Abbreviation run := (run_callback (K := sim_os) INFO (allowed_ports opt)).
Definition par_turn : nat → M PSt unit :=
  Loop_turn parse_delete (Parser.OnEvent INFO) Parser.OnTimeout (add_later EPOLLIN) (λ _ n, n).
Definition con_turn : nat → M CSt unit :=
  Loop_turn conn_delete ConnOnEvent ConnOnTimeout (add_later EPOLLOUT) (λ _ n, n).
Definition fwd_turn : nat → M FSt unit :=
  Loop_turn link_delete (Forwarder.OnEvent INFO true) Forwarder.OnTimeout (New forwarder_defaults) (λ _ n, n).

(** The client is accepted, and given to the parser. *)
Definition accepted1 : log_state (W := sim_os) := after accept (mkLog 0 [] os).
Definition px1 : Proxy := after (on_accept 7) (set_kernel (rest accepted1) (px (sys w0))).
Definition par1 : PSt := as_thread 11 (after (Parser.ParseRequest parser_defaults 1 7 0) (as_thread 99 (load_par (rest accepted1) par0))).
Definition w1 : state := mkWhole (mkSystem px1 (dns_init e0) [7]) par1 con0 fwd0.

(** The parser's loop adds the handler, and reads the request. *)
Definition par2 : PSt := after (par_turn 10) par1.
Definition w2 : state := mkWhole (set_kern (sockets (world par2)) (sys w1)) par2 con0 fwd0.
Definition par3 : PSt := after (par_turn 10) par2.
Definition w3 : state := mkWhole (set_kern (sockets (world par3)) (sys w2)) par3 con0 fwd0.
Example it_parses : Parser.calls (world par3) = [(0%nat, DnsExample.key)].
Proof. by vm_compute. Qed.

(** The parser's callback asks the resolver. *)
Definition px4 : Proxy := after (run 0%nat (Parsed DnsExample.key)) (px (sys w3)).
Definition at_dns (c : conf (E := pconf)) : state := mkWhole (mkSystem px4 c (accepted_fds (sys w3))) (par w3) (con w3) (fwd w3).

(** The resolver's callback asks the connector. *)
Definition px5 : Proxy := after (run 1%nat (Resolved (Some (DnsExample.address 1)))) px4.
Definition con1 : CSt := as_thread 12 (after (Connect INFO 1 (DnsExample.address 1) 2) (as_thread 98 (load_con (Hcproxy.kernel px5) con0))).
Definition w5 : state := mkWhole (set_kern (net (world con1)) (mkSystem px5 ProxyExample.r9 (accepted_fds (sys w3)))) (par w3) con1 (fwd w3).
Definition con2 : CSt := after (con_turn 10) con1.
Definition w6 : state := mkWhole (set_kern (net (world con2)) (sys w5)) (par w5) con2 (fwd w5).
Definition con3 : CSt := after (con_turn 10) con2.
Definition w7 : state := mkWhole (set_kern (net (world con3)) (sys w6)) (par w6) con3 (fwd w6).
Example whole_connected : connected (world con3) = [(2%nat, 8)].
Proof. by vm_compute. Qed.

(** The connector's callback hands both sockets to the forwarder. *)
Definition px8 : Proxy := after (run 2%nat (Connected 8)) (px (sys w7)).
Definition fwd1 : FSt := as_thread 13 (after (Forward forwarder_defaults 7 8) (as_thread 97 (load_fwd (Hcproxy.kernel px8) fwd0))).
Definition w8 : state := mkWhole (mkSystem px8 (resolver (sys w7)) (accepted_fds (sys w7))) (par w7) (con w7) fwd1.
Definition fwd2 : FSt := after (fwd_turn 10) (load_fwd (kern w8) fwd1).
Definition w9 : state := mkWhole (set_kern (world fwd2) (sys w8)) (par w8) (con w8) fwd2.
Definition fwd3 : FSt := after (fwd_turn 10) fwd2.
Definition w10 : state := mkWhole (set_kern (world fwd3) (sys w9)) (par w9) (con w9) fwd3.
Example whole_relayed :
  bytes_at (v_given (view_of (kern w10))) 7 = kResponse ++ B "xy" ∧ bytes_at (v_given (view_of (kern w10))) 8 = B "abc".
Proof. by vm_compute. Qed.

(** *** The steps *)
Ltac turn_runs := exists 2%nat; intros [|[|[|fuel]]] Hf; [lia..|]; vm_compute; reflexivity.
Ltac turn_allowed :=
  split; [vm_compute; lia|reflexivity| |reflexivity];
  let s' := fresh in let Hs' := fresh in
  intros s' Hs'; vm_compute in Hs'; injection Hs' as <-; vm_compute; lia.

Lemma s1 : step w0 w1.
Proof.
  apply (wh_accept _ _ _ _ _ _ _ _ w0 10 0 [] 7 accepted1 px1 99 1 (after (Parser.ParseRequest parser_defaults 1 7 0) (as_thread 99 (load_par (rest accepted1) par0))));
    [by vm_compute..|done|by vm_compute|by vm_compute].
Qed.

Lemma s2 : step w1 w2.
Proof. apply (wh_parser _ _ _ _ _ _ _ _ w1 par2); [turn_allowed|turn_runs]. Qed.
Lemma s3 : step w2 w3.
Proof. apply (wh_parser _ _ _ _ _ _ _ _ w2 par3); [turn_allowed|turn_runs]. Qed.
Lemma asked : after_calls_of (calls px4) (resolver (sys w3)) = ProxyExample.r1.
Proof. by vm_compute. Qed.
Lemma s4 : step w3 (at_dns ProxyExample.r1).
Proof.
  rewrite <- asked. unfold at_dns.
  apply (wh_parsed _ _ _ _ _ _ _ _ w3 0%nat 7 DnsExample.key px4); [|by vm_compute..].
  change (world (par w3)) with (world par3). rewrite it_parses. by left.
Qed.

Lemma resolver_step p c c' fds sp sc sf :
  dns_step dns_defaults INFO c c' → accepted c' = accepted c → called c' = called c →
  step (mkWhole (mkSystem p c fds) sp sc sf) (mkWhole (mkSystem p c' fds) sp sc sf).
Proof. intros Hs Ha Hc. exact (wh_resolver (λ _, B "error") (λ _, B "now") (λ _ _, 0) INFO true (λ _ n, n) opt 6 (mkWhole (mkSystem p c fds) sp sc sf) c' Hs Ha Hc). Qed.

(** The resolver's own steps, as in Hcproxy.v. *)
Lemma dns_runs : rtc step (at_dns ProxyExample.r1) (at_dns ProxyExample.r8).
Proof.
  assert (∀ c c', dns_step dns_defaults INFO c c' → accepted c' = accepted c → called c' = called c →
    step (at_dns c) (at_dns c')) as Hs.
  { intros c c' ???. by apply resolver_step. }
  eapply rtc_l; [apply (Hs ProxyExample.r1 ProxyExample.r2); [ProxyExample.performs|by vm_compute|by vm_compute]|].
  eapply rtc_l; [apply (Hs ProxyExample.r2 ProxyExample.r3); [|done|done]|].
  { apply (ds_schedule _ _ ProxyExample.r2 now 0 [] e1); [by vm_compute|by split_and!]. }
  eapply rtc_l; [apply (Hs ProxyExample.r3 ProxyExample.r4); [|done|done]|].
  { apply (ds_start _ _ ProxyExample.r3 0 e2). split; [|exists task, now; by vm_compute].
    by apply (ps_next [task] [] e1.2 1 Looking e2.2). }
  eapply rtc_l; [apply (Hs ProxyExample.r4 ProxyExample.r5); [ProxyExample.performs|by vm_compute|by vm_compute]|].
  eapply rtc_l; [apply (Hs ProxyExample.r5 ProxyExample.r6); [ProxyExample.performs|by vm_compute|by vm_compute]|].
  eapply rtc_l; [apply (Hs ProxyExample.r6 ProxyExample.r7); [ProxyExample.performs|by vm_compute|by vm_compute]|].
  eapply rtc_l; [apply (Hs ProxyExample.r7 ProxyExample.r8); [ProxyExample.performs|by vm_compute|by vm_compute]|].
  apply rtc_refl.
Qed.

Lemma resolver_answers p c c' fds sp sc sf cb x p' s' :
  dns_step dns_defaults INFO c c' → accepted c' = accepted c → called c' = called c ++ [(cb, x)] →
  run cb (Resolved x) p = Done (tt, p') → connects INFO (calls p') (load_con (Hcproxy.kernel p') sc) s' →
  step (mkWhole (mkSystem p c fds) sp sc sf) (mkWhole (set_kern (net (world s')) (mkSystem p' c' fds)) sp s' sf).
Proof.
  intros Hs Ha Hc Hr Hcon. exact (wh_resolved (λ _, B "error") (λ _, B "now") (λ _ _, 0) INFO true (λ _ n, n) opt 6
    (mkWhole (mkSystem p c fds) sp sc sf) c' cb x p' s' Hs Ha Hc Hr Hcon).
Qed.

Lemma s5 : step (at_dns ProxyExample.r8) w5.
Proof.
  unfold at_dns, w5. apply (resolver_answers _ _ _ _ _ _ _ 1%nat (Some (DnsExample.address 1))); [ProxyExample.performs|by vm_compute..|].
  exists 98, 1%positive, (after (Connect INFO 1 (DnsExample.address 1) 2) (as_thread 98 (load_con (Hcproxy.kernel px5) con0))).
  split; [done|]. split; [by vm_compute|]. by split; vm_compute.
Qed.
Lemma s6 : step w5 w6.
Proof. apply (wh_connector _ _ _ _ _ _ _ _ w5 con2); [turn_allowed|turn_runs]. Qed.
Lemma s7 : step w6 w7.
Proof. apply (wh_connector _ _ _ _ _ _ _ _ w6 con3); [turn_allowed|turn_runs]. Qed.
Lemma s8 : step w7 w8.
Proof.
  apply (wh_connected _ _ _ _ _ _ _ _ w7 2%nat 7 8 px8 fwd1); [|by vm_compute..|].
  - change (world (con w7)) with (world con3). rewrite whole_connected. by left.
  - exists 97, (after (Forward forwarder_defaults 7 8) (as_thread 97 (load_fwd (Hcproxy.kernel px8) fwd0))).
    split; [done|]. by split; vm_compute.
Qed.
Lemma s9 : step w8 w9.
Proof. apply (wh_forwarder _ _ _ _ _ _ _ _ w8 fwd2); [turn_allowed|turn_runs]. Qed.
Lemma s10 : step w9 w10.
Proof. apply (wh_forwarder _ _ _ _ _ _ _ _ w9 fwd3); [turn_allowed|turn_runs]. Qed.

Lemma run_connected : rtc step w0 w7.
Proof.
  eapply rtc_l; [apply s1|]. eapply rtc_l; [apply s2|]. eapply rtc_l; [apply s3|]. eapply rtc_l; [apply s4|].
  etransitivity; [apply dns_runs|]. eapply rtc_l; [apply s5|]. eapply rtc_l; [apply s6|].
  eapply rtc_l; [apply s7|]. apply rtc_refl.
Qed.
Lemma run_relayed : rtc step w0 w10.
Proof.
  etransitivity; [apply run_connected|]. eapply rtc_l; [apply s8|]. eapply rtc_l; [apply s9|].
  eapply rtc_l; [apply s10|]. apply rtc_refl.
Qed.

(** The loops have been constructed. *)
Lemma par0_ok : Inv (λ _, 0) ∅ [] par0.
Proof. pattern par0; apply wp_after. eapply EventLoop_new_wp; [by repeat split|done..]. Qed.
Lemma con0_ok : Inv (λ _, 0) ∅ [] con0.
Proof. pattern con0; apply wp_after. eapply EventLoop_new_wp; [by repeat split|done..]. Qed.
Lemma fwd0_ok : Inv (λ _, 0) ∅ [] fwd0.
Proof. pattern fwd0; apply wp_after. eapply EventLoop_new_wp; [by repeat split|done..]. Qed.

(** The links of the connection. *)
Lemma link_pair : ∃ hp hq, pair (fwd w10) 1 2 hp hq ∧ name_ (sub_ hp) = Client ∧ fd_ hp = 7 ∧ fd_ hq = 8 ∧
  open (sub_ hp) = true ∧ open (sub_ hq) = true.
Proof. do 2 eexists. split; [split; [vm_compute; reflexivity|split; [vm_compute; reflexivity|done]]|]. by vm_compute. Qed.
End WholeExample.
