(* ===== verification/WholeInv.v ===== *)
(** * What holds in every state of the whole program

    Each component's invariant, over the one kernel; each callback that a
    component still has to call is the one that [RunProxy] keeps for the
    client whose descriptor the component has; and every descriptor has one
    owner. Each step of Whole.v keeps it. *)

From S2P Require Import Prelude Logging IntrusiveList Epoll EventLoop LoopTheorems Frame OneShot Sock Addr Parser Connector Buffer Forwarder ForwarderTheorems ForwarderLoop ForwarderNew ForwarderRuns Executor Dns DnsRuns Acceptor Os Footprint Hcproxy Whole.

Lemma NoDup_fst_unique {A B} (l : list (A * B)) a b b' : NoDup l.*1 → (a, b) ∈ l → (a, b') ∈ l → b = b'.
Proof.
  induction l as [|[x y] l IH]; cbn; [by intros _ ?%elem_of_nil|]. intros [Hx Hnd]%NoDup_cons Hb Hb'.
  assert (∀ c, (a, c) ∈ l → a ∈ l.*1) as Hin by (intros c Hc; apply list_elem_of_fmap; by exists (a, c)).
  apply elem_of_cons in Hb as [Hb|Hb], Hb' as [Hb'|Hb']; simplify_eq; naive_solver.
Qed.

(** Callbacks of one kind stay, but for those in [called]. *)
Definition same_closures (C : Z → closure) (called : list nat) (m m' : gmap nat closure) : Prop :=
  (∀ i fd, m' !! i = Some (C fd) → m !! i = Some (C fd)) ∧
  ∀ i fd, m !! i = Some (C fd) → i ∈ called ∨ m' !! i = Some (C fd).

Lemma same_closures_refl C called m : same_closures C called m m.
Proof. split; [done|]. by right. Qed.

Lemma same_closures_trans C called m1 m2 m3 :
  same_closures C called m1 m2 → same_closures C called m2 m3 → same_closures C called m1 m3.
Proof. intros [A1 A2] [B1 B2]. split; [auto|]. intros i fd [?|?%B2]%A2; auto. Qed.

Lemma same_closures_delete C called m cb c :
  m !! cb = Some c → (∀ fd, c ≠ C fd) ∨ cb ∈ called → same_closures C called m (delete cb m).
Proof.
  intros Hcb Hc. split; [by intros i fd [_ ?]%lookup_delete_Some|].
  intros i fd Hi. destruct (decide (i = cb)) as [->|Hne]; [|right; by rewrite lookup_delete_ne].
  left. destruct Hc as [Hc|?]; [|done]. rewrite Hcb in Hi. injection Hi as ->. by destruct (Hc fd).
Qed.

Lemma same_closures_insert C called m n c :
  m !! n = None → (∀ fd, c ≠ C fd) → same_closures C called m (<[n := c]> m).
Proof.
  intros Hn Hc. split.
  - intros i fd [[<- Heq]|[_ ?]]%lookup_insert_Some; [by destruct (Hc fd)|done].
  - intros i fd Hi. right. rewrite lookup_insert_ne; [done|congruence].
Qed.

Section whole.
Context {K EK PQ PF E : Type} `{!FdKernel K, !FdLaws K, !PipeKernel K, !PipeKernelLaws K, !ReadKernel K, !ReadLaws K,
  !AcceptKernel K, !AcceptLaws K, !SockOptKernel K, !SockOptLaws K, !ConnectKernel K, !ConnectLaws K,
  !ShutdownKernel K, !ForwardLaws K, !OsLaws K} `{EpollLaws EK} `{PipeLaws PQ ptr} `{PipeLaws PF (Z * Z)} `{ExecutorLaws E}.

Context (min_lvl : Severity) (left_first : bool) (vector_capacity : nat → nat → nat) (opt : Options) (listen_fd : Z).

Abbreviation PSt := (EventLoop.St ParseEventHandler (parser_world (K := K)) EK PQ).
Abbreviation CSt := (EventLoop.St ConnectEventHandler (connector_world (K := K)) EK PQ).
Abbreviation FSt := (EventLoop.St LinkEventHandler K EK PF).
Abbreviation Proxy := (Hcproxy.Proxy (K := K)).
Abbreviation kernel := Hcproxy.kernel.

(** ** The callbacks and the kernel *)
Definition proxy_effect (fd : Z) (p p' : Proxy) : Prop := elsewhere {[fd]} (kernel p) (kernel p') ∧ unread (kernel p) (kernel p').

#[export] Instance proxy_effect_preorder fd : PreOrder (proxy_effect fd).
Proof. split; [by split|]. intros p1 p2 p3 [? ?] [? ?]. split; by etransitivity. Qed.

#[export] Instance close_client_stable fd : Stable (proxy_effect fd) (close_client fd).
Proof.
  unfold close_client. apply stable_bind; [apply _| |intros _; by apply stable_modify].
  eapply stable_zoom; [apply close_checked_stable|]. done.
Qed.
#[export] Instance ask_stable fd c : Stable (proxy_effect fd) (ask c).
Proof. by apply stable_modify. Qed.
#[export] Instance capture_stable fd c : Stable (proxy_effect fd) (capture c).
Proof. unfold capture. repeat (apply stable_bind; [apply _| |intros]); try apply _. by apply stable_modify. Qed.

Lemma run_callback_kernel cb c v p p' :
  closures p !! cb = Some c → run_callback min_lvl (allowed_ports opt) cb v p = Done (tt, p') →
  proxy_effect (closure_fd c) p p'.
Proof.
  intros Hc Hr. unfold run_callback in Hr. erewrite bind_Done in Hr by (unfold deref; by rewrite Hc).
  erewrite bind_Done in Hr by done.
  assert (Stable (proxy_effect (closure_fd c)) (match c, v with
    | OnParsed fd, Parsed hp => on_parsed (allowed_ports opt) cb fd hp
    | OnResolved fd fr, Resolved a => on_resolved min_lvl fd fr a
    | OnConnected fd, Connected sfd => on_connected fd sfd
    | _, _ => undefined "callback" end)) as Hst.
  { destruct c, v; try apply _; cbn [closure_fd].
    - unfold on_parsed. apply stable_bind; [apply _|by apply stable_modify|apply _].
    - unfold on_resolved, IpPort, non_null. apply _.
    - unfold on_connected. apply _. }
  exact (Hst _ _ _ Hr).
Qed.

(** ** The parser's part *)
Record ParserPart (p : Proxy) (s : PSt) : Prop := {
  pp_ok : parser_ok (parse_asked (calls p), list_to_set (pending (pipe_ s)), load_par (kernel p) s);
  pp_names : ∀ cb, cb ∈ parse_asked (calls p) → cb < next_cb p;
  pp_asked : ∀ cb fd, closures p !! cb = Some (OnParsed fd) → cb ∈ parse_asked (calls p);
  pp_handlers : ∀ q h, handlers s !! q = Some h → closures p !! cb_ (sub_ h) = Some (OnParsed (fd_ h))
}.

(** A callback that a handler has is not one that has been called. *)
Lemma pp_waiting p s q h : ParserPart p s → handlers s !! q = Some h → cb_ (sub_ h) ∉ (Parser.calls (world s)).*1.
Proof.
  intros HP Hq. pose proof (os_ok_live _ _ _ _ _ _ q h (pp_ok _ _ HP) Hq) as Hl.
  destruct (pp_ok _ _ HP) as (xs & HI & HC). by destruct (os_live _ _ _ _ _ _ _ HC q h Hl).
Qed.

Lemma ParserPart_keep p p' s :
  ParserPart p s → unread (kernel p) (kernel p') → parse_asked (calls p') = parse_asked (calls p) →
  next_cb p ≤ next_cb p' → same_closures OnParsed (Parser.calls (world s)).*1 (closures p) (closures p') → ParserPart p' s.
Proof.
  intros HP Hun Hca Hnx [Hback Hkeep]. split; rewrite ?Hca.
  - pose proof (parser_rely _ _ _ (kernel p') (pp_ok _ _ HP) Hun) as Hok. exact Hok.
  - intros cb Hcb%(pp_names _ _ HP). lia.
  - intros cb fd Hcb%Hback. by eapply (pp_asked _ _ HP).
  - intros q h Hq. destruct (Hkeep _ _ (pp_handlers _ _ HP q h Hq)) as [Hin|?]; [|done].
    by destruct (pp_waiting p s q h HP Hq).
Qed.

(** ** The connector's part *)

(** The callback [cb] is the connector's, and this is its server's socket. *)
Definition serves (cls : gmap nat closure) (s : CSt) (cb : nat) (fd : Z) : Prop :=
  (∃ q h, handlers s !! q = Some h ∧ conn_cb (sub_ h) = cb ∧ fd_ h = fd) ∨
  ((cb, fd) ∈ connected (world s) ∧ (0 ≤ fd)%Z ∧ ∃ c, cls !! cb = Some (OnConnected c)).

Lemma elem_of_servers cls s fd : fd ∈ servers cls s ↔ ∃ cb, serves cls s cb fd.
Proof.
  unfold servers, serves. rewrite elem_of_union, !elem_of_list_to_set. split.
  - intros [([q h] & -> & Hq%elem_of_map_to_list)%list_elem_of_fmap|([cb fd'] & Hin & Hr)%list_elem_of_omap].
    + exists (conn_cb (sub_ h)). left. by exists q, h.
    + unfold result_fd in Hr. cbn in Hr. destruct (cls !! cb) as [[]|] eqn:Hcb; try done.
      destruct (Z.leb_spec 0 fd'); [|done]. injection Hr as <-. exists cb. right. split_and!; [done..|by eexists].
  - intros [cb [(q & h & Hq & _ & <-)|(Hin & Hpos & c & Hc)]].
    + left. apply list_elem_of_fmap. exists (q, h). split; [done|]. by apply elem_of_map_to_list.
    + right. apply list_elem_of_omap. exists (cb, fd). split; [done|]. unfold result_fd. cbn.
      by rewrite Hc, (proj2 (Z.leb_le _ _)).
Qed.

Record ConnectorPart (p : Proxy) (s : CSt) : Prop := {
  cp_ok : connector_ok (conn_asked (calls p), list_to_set (pending (pipe_ s)), load_con (kernel p) s);
  cp_names : ∀ cb, cb ∈ conn_asked (calls p) → cb < next_cb p;
  cp_asked : ∀ cb fd, closures p !! cb = Some (OnConnected fd) → cb ∈ conn_asked (calls p);
  cp_handlers : ∀ q h, handlers s !! q = Some h → ∃ fd, closures p !! conn_cb (sub_ h) = Some (OnConnected fd);
  cp_serves : ∀ cb cb' fd, serves (closures p) s cb fd → serves (closures p) s cb' fd → cb = cb'
}.

Lemma cp_waiting p s q h : ConnectorPart p s → handlers s !! q = Some h → conn_cb (sub_ h) ∉ (connected (world s)).*1.
Proof.
  intros HP Hq. pose proof (os_ok_live _ _ _ _ _ _ q h (cp_ok _ _ HP) Hq) as Hl.
  destruct (cp_ok _ _ HP) as (xs & HI & HC). by destruct (os_live _ _ _ _ _ _ _ HC q h Hl).
Qed.

Lemma cp_results p s cb fd : ConnectorPart p s → (cb, fd) ∈ connected (world s) → cb ∈ conn_asked (calls p).
Proof.
  intros HP Hin. destruct (cp_ok _ _ HP) as (xs & HI & HC). apply (os_accounted _ _ _ _ _ _ _ HC). left.
  apply list_elem_of_fmap. by exists (cb, fd).
Qed.

Lemma serves_keep called cls cls' s cb fd :
  same_closures OnConnected called cls cls' → serves cls' s cb fd → serves cls s cb fd.
Proof. intros [Hback _] [?|(? & ? & c & ?%Hback)]; [by left|right]. split_and!; [done..|by eexists]. Qed.

Lemma ConnectorPart_keep p p' s :
  ConnectorPart p s → (∀ q h, handlers s !! q = Some h → fd_ h ∈ opened (kernel p')) →
  conn_asked (calls p') = conn_asked (calls p) →
  next_cb p ≤ next_cb p' → same_closures OnConnected (connected (world s)).*1 (closures p) (closures p') →
  ConnectorPart p' s.
Proof.
  intros HP Hop Hca Hnx Hcl. pose proof Hcl as [Hback Hkeep]. split; rewrite ?Hca.
  - pose proof (connector_rely _ _ _ (kernel p') (cp_ok _ _ HP) Hop) as Hok. exact Hok.
  - intros cb Hcb%(cp_names _ _ HP). lia.
  - intros cb fd Hcb%Hback. by eapply (cp_asked _ _ HP).
  - intros q h Hq. destruct (cp_handlers _ _ HP q h Hq) as [fd Hfd].
    destruct (Hkeep _ _ Hfd) as [Hin|?]; [|by exists fd]. by destruct (cp_waiting p s q h HP Hq).
  - intros cb cb' fd Hs Hs'. eapply (cp_serves _ _ HP); by eapply serves_keep.
Qed.

(** A turn of the parser's loop. *)
Lemma parser_turn_part p s s' :
  ParserPart p s → turn_env vector_capacity (load_par (kernel p) s) →
  turns (Loop_turn parse_delete (Parser.OnEvent min_lvl) Parser.OnTimeout (add_later EPOLLIN) vector_capacity)
    (load_par (kernel p) s) s' →
  ParserPart (set_kernel (sockets (world s')) p) s' ∧ elsewhere ∅ (kernel p) (sockets (world s')) ∧
  pipe_fd s' = pipe_fd s ∧ loop_ s' = loop_ s ∧ (∃ new, Parser.calls (world s') = Parser.calls (world s) ++ new) ∧
  grows (kernel p) (sockets (world s')).
Proof.
  intros HP He Hs'. destruct (parser_turn_ok vector_capacity min_lvl (λ fd cb, closures p !! cb = Some (OnParsed fd))
    _ _ _ _ (pp_ok _ _ HP) He Hs' (pp_handlers _ _ HP)) as (Hok & Hh & (Hpf & Hlo & _) & Hca & Hel & Hg).
  split; [|done]. split; try apply HP; [|exact Hh]. eassert (load_par _ s' = s') as ->; [|exact Hok].
  by destruct s' as [????????? []].
Qed.

(** A turn of the connector's loop: it closes the sockets of attempts that have
    failed. *)
Lemma connector_turn_part p s s' :
  ConnectorPart p s → turn_env vector_capacity (load_con (kernel p) s) →
  turns (Loop_turn conn_delete ConnOnEvent ConnOnTimeout (add_later EPOLLOUT) vector_capacity) (load_con (kernel p) s) s' →
  ConnectorPart (set_kernel (net (world s')) p) s' ∧ pipe_fd s' = pipe_fd s ∧ loop_ s' = loop_ s ∧
  unread (kernel p) (net (world s')) ∧ (∃ new, connected (world s') = connected (world s) ++ new) ∧ ∃ S, elsewhere S (kernel p) (net (world s')) ∧
    (∀ fd, fd ∈ S → fd ∈ servers (closures p) s) ∧
    ∀ fd, fd ∈ servers (closures p) s' → fd ∈ servers (closures p) s ∧ fd ∉ S.
Proof.
  intros HP He Hs'. set (L := λ fd cb, ∃ q h, handlers s !! q = Some h ∧ conn_cb (sub_ h) = cb ∧ fd_ h = fd).
  destruct (connector_turn_ok vector_capacity L _ _ _ _ (cp_ok _ _ HP) He Hs') as
    (Hok & Hh & (Hpf & Hlo & _) & ends & Hca & HL & Hel & Hun); [by intros q h Hq; exists q, h|].
  cbn [load_con set_world world net connected] in *.
  assert (load_con (net (world s')) s' = s') as Hload by (by destruct s' as [????????? []]).
  assert (∀ cb fd, serves (closures p) s' cb fd → serves (closures p) s cb fd) as Hserves.
  { intros cb fd [(q & h & Hq & <- & <-)|(Hin & Hpos & Hc)]; [left; by apply (Hh q h)|].
    rewrite Hca in Hin. apply elem_of_app in Hin as [Hin|([cb' fd' []] & [= -> ->] & Hin%HL)%list_elem_of_fmap].
    - right. by split_and!.
    - by left.
    - by cbn in Hpos. }
  assert (∀ e, e ∈ ends → (at_result e) ∈ connected (world s')) as Hends.
  { intros e He'. rewrite Hca. apply elem_of_app. right. apply list_elem_of_fmap. by exists e. }
  assert (ConnectorPart (set_kernel (net (world s')) p) s') as HP'.
  { destruct HP as [_ Hn Ha Hhs Hsv]. split; try done.
    - cbn [set_kernel Hcproxy.kernel]. by rewrite Hload.
    - intros q h (q0 & h0 & Hq0 & Heq & _)%Hh. setoid_rewrite <- Heq. by eapply Hhs.
    - intros cb cb' fd Hs%Hserves Hs2%Hserves. by eapply Hsv. }
  assert (NoDup (connected (world s')).*1) as Honce by by apply (os_ok_once _ _ _ _ _ _ Hok).
  split_and!; [done..|by eexists|]. exists (failed_fds ends).
  assert (∀ fd, fd ∈ failed_fds ends → ∃ cb, L fd cb ∧ (cb, (-1)%Z) ∈ connected (world s')) as Hfailed.
  { intros fd (e & -> & [Hok' He']%list_elem_of_filter)%elem_of_list_to_set%list_elem_of_fmap. exists (at_cb e).
    split; [by apply HL|]. apply Hends in He'. unfold at_result in He'. by rewrite Hok' in He'. }
  split; [exact Hel|]. split.
  - intros fd (cb & HLcb & _)%Hfailed. apply elem_of_servers. exists cb. by left.
  - intros fd [cb Hs]%elem_of_servers. split; [apply elem_of_servers; exists cb; by apply Hserves|].
    intros (cb' & HLcb & Hres)%Hfailed. assert (cb = cb') as ->.
    { eapply (cp_serves _ _ HP); [by apply Hserves|by left]. }
    destruct Hs as [(q & h & Hq & Hcb & _)|(Hin & Hpos & _)].
    + apply (cp_waiting _ _ q h HP' Hq). rewrite Hcb. apply list_elem_of_fmap. by exists (cb', (-1)%Z).
    + pose proof (NoDup_fst_unique _ _ _ _ Honce Hin Hres) as ->. lia.
Qed.

(** ** The whole *)
Abbreviation whole := (Whole.whole (K := K) (EK := EK) (PQ := PQ) (PF := PF) (E := E)).
Abbreviation others := (Whole.others listen_fd).

Record WInv (w : whole) : Prop := {
  wi_sys : SInv (allowed_ports opt) (dns_opt opt) (sys w);
  wi_par : ParserPart (px (sys w)) (par w);
  wi_con : ConnectorPart (px (sys w)) (con w);
  wi_fwd : fwd_beside (others (px (sys w)) (par w) (con w)) (load_fwd (kern w) (fwd w))
}.

(** A descriptor that has just been made. *)
Definition new_fd (k k' : K) (fd : Z) : Prop := (0 ≤ fd)%Z ∧ fd ∉ opened k ∧ fd ∈ opened k' ∧ untouched fd k'.

Lemma elem_of_others (p : Proxy) (sp : PSt) (sc : CSt) fd :
  fd ∈ others p sp sc ↔ fd ∈ [pipe_fd sp; pipe_fd sc; listen_fd] ∨ fd ∈ client_fds p ∨ fd ∈ servers (closures p) sc.
Proof. unfold Whole.others. rewrite !elem_of_cons, elem_of_app, elem_of_elements, elem_of_nil. naive_solver. Qed.

Lemma others_split (p : Proxy) (sp : PSt) (sc : CSt) :
  NoDup (others p sp sc) ↔ NoDup [pipe_fd sp; pipe_fd sc; listen_fd] ∧ NoDup (client_fds p) ∧
    (∀ fd, fd ∈ [pipe_fd sp; pipe_fd sc; listen_fd] → fd ∉ client_fds p ∧ fd ∉ servers (closures p) sc) ∧
    ∀ fd, fd ∈ client_fds p → fd ∉ servers (closures p) sc.
Proof.
  change (others p sp sc) with ([pipe_fd sp; pipe_fd sc; listen_fd] ++ client_fds p ++ elements (servers (closures p) sc)).
  rewrite !NoDup_app. setoid_rewrite elem_of_app. setoid_rewrite elem_of_elements.
  pose proof (NoDup_elements (servers (closures p) sc)). naive_solver.
Qed.

(** The descriptors of the others are open. *)
Lemma others_opened (w : whole) fd : WInv w → fd ∈ others (px (sys w)) (par w) (con w) → (0 ≤ fd)%Z ∧ fd ∈ opened (kern w).
Proof.
  intros HW Hfd. destruct (fwd_beside_waits _ _ _ (wi_fwd _ HW) Hfd) as [[? Ho] _ _]. by rewrite opened_view.
Qed.

(** The forwarder, when the others change the kernel and what they have. *)
Lemma others_change (w : whole) (p' : Proxy) (sp' : PSt) (sc' : CSt) S :
  WInv w → elsewhere S (kern w) (Hcproxy.kernel p') →
  pipe_fd sp' = pipe_fd (par w) → pipe_fd sc' = pipe_fd (con w) →
  (∀ fd, fd ∈ S → fd ∉ [pipe_fd (par w); pipe_fd (con w); listen_fd] ∧ ¬ fwd_owns (fwd w) fd) →
  NoDup (client_fds p') →
  (∀ fd, fd ∈ client_fds p' → fd ∈ client_fds (px (sys w)) ∧ fd ∉ S ∨ new_fd (kern w) (Hcproxy.kernel p') fd) →
  (∀ fd, fd ∈ servers (closures p') sc' → fd ∈ servers (closures (px (sys w))) (con w) ∧ fd ∉ S ∨
     new_fd (kern w) (Hcproxy.kernel p') fd ∧ fd ∉ client_fds p') →
  fwd_beside (others p' sp' sc') (load_fwd (Hcproxy.kernel p') (fwd w)).
Proof.
  intros HW Hel Hpp Hpc HS Hnd Hcl Hsv. pose proof (wi_fwd _ HW) as Hok.
  pose proof (λ fd, others_opened w fd HW) as Hop.
  pose proof (fwd_beside_nodup _ _ Hok) as Hnd0. apply others_split in Hnd0 as (Hf & _ & Hf1 & Hf2).
  assert (∀ fd, new_fd (kern w) (Hcproxy.kernel p') fd → fd ∉ others (px (sys w)) (par w) (con w)) as Hnew.
  { intros fd (_ & Hn & _) ?%Hop. naive_solver. }
  apply (forwarder_rely _ _ S _ _ Hok); [exact Hel| | |].
  - intros fd Hfd. by apply HS.
  - apply others_split. rewrite Hpp, Hpc. setoid_rewrite elem_of_others in Hnew. split_and!; [done|done| |].
    + intros fd Hfd. split; [intros [[? _]|Hn]%Hcl|intros [[? _]|[Hn _]]%Hsv].
      1,3: by destruct (Hf1 fd Hfd). all: apply (Hnew fd Hn); by left.
    + intros fd Hfd Hfs. destruct (Hcl fd Hfd) as [[? _]|Hn], (Hsv fd Hfs) as [[? _]|[Hn' ?]]; [by destruct (Hf2 fd)| |..|done].
      * apply (Hnew fd Hn'). right. by left.
      * apply (Hnew fd Hn). right. by right.
  - assert (∀ fd, new_fd (kern w) (Hcproxy.kernel p') fd → (0 ≤ fd)%Z ∧ fd ∈ opened (Hcproxy.kernel p') ∧
      untouched fd (Hcproxy.kernel p') ∧ ¬ fwd_owns (fwd w) fd) as Hnew'.
    { intros fd (? & Hn & ? & ?). split_and!; [done..|]. intros [Ho _]%(fwd_owns_opened _ _ _ Hok). done. }
    intros fd [Hfd|[Hfd|Hfd]]%elem_of_others.
    + left. rewrite Hpp, Hpc in Hfd. split; [apply elem_of_others; by left|]. intros HfS. by destruct (HS fd HfS).
    + destruct (Hcl fd Hfd) as [[? ?]|?]; [left|right; by apply Hnew']. split; [apply elem_of_others; by right; left|done].
    + destruct (Hsv fd Hfd) as [[? ?]|[? _]]; [left|right; by apply Hnew']. split; [apply elem_of_others; by right; right|done].
Qed.

(** *** Callbacks *)
Abbreviation outcome := (outcome_of (K := K) (allowed_ports opt)).

Definition not_asked (cs : list call) : Prop := ∀ a cb, last cs ≠ Some (ConnectCall a cb).

Lemma asked_snoc cs c :
  parse_asked (cs ++ [c]) = parse_asked cs ++ match c with ParseRequest _ cb => [cb] | _ => [] end ∧
  conn_asked (cs ++ [c]) = conn_asked cs ++ match c with ConnectCall _ cb => [cb] | _ => [] end.
Proof. unfold parse_asked, conn_asked. rewrite !omap_app. by destruct c. Qed.

(** What a callback changes but for the kernel. *)
Lemma outcome_asked cb c v (p p' : Proxy) :
  PxInv (allowed_ports opt) p → closures p !! cb = Some c → outcome cb (closure_fd c) v p p' →
  parse_asked (calls p') = parse_asked (calls p) ∧ next_cb p ≤ next_cb p' ∧
  (∀ called, (∀ fd, c ≠ OnParsed fd) ∨ cb ∈ called → same_closures OnParsed called (closures p) (closures p')) ∧
  (not_asked (calls p') → conn_asked (calls p') = conn_asked (calls p) ∧
   ∀ called, (∀ fd, c ≠ OnConnected fd) ∨ cb ∈ called → same_closures OnConnected called (closures p) (closures p')).
Proof.
  intros HP Hc Hout. pose proof (PxInv_fresh_delete _ _ cb HP) as Hf. unfold not_asked.
  destruct Hout as [Ho Hcl Hn Hca _|hp -> _ _ ->|a -> ->|sfd -> _ ->]; cbn [calls closures next_cb];
    rewrite ?Hcl, ?Hca, ?Hn, ?last_snoc, ?(proj1 (asked_snoc _ _)), ?(proj2 (asked_snoc _ _)), ?app_nil_r.
  4: { split_and!; [done|done|by intros; eapply same_closures_delete|]. split; [done|].
       intros; by eapply same_closures_delete. }
  3: { split_and!; [done|lia| |by intros Ha; destruct (Ha a (next_cb p))]. intros called Hcb.
       eapply same_closures_trans; [by eapply same_closures_delete|by apply same_closures_insert]. }
  - split_and!; [done|done|by intros; eapply same_closures_delete|]. split; [done|].
    intros; by eapply same_closures_delete.
  - split_and!; [done|lia| |].
    + intros called Hcb. eapply same_closures_trans; [by eapply same_closures_delete|by apply same_closures_insert].
    + split; [done|]. intros called Hcb.
      eapply same_closures_trans; [by eapply same_closures_delete|by apply same_closures_insert].
Qed.

(** The clients that are kept, and what happens to the kernel. *)
Lemma outcome_clients cb c v (p p' : Proxy) :
  PxInv (allowed_ports opt) p → closures p !! cb = Some c → outcome cb (closure_fd c) v p p' →
  proxy_effect (closure_fd c) p p' →
  ∃ S, elsewhere S (kernel p) (kernel p') ∧ unread (kernel p) (kernel p') ∧ S ⊆ {[closure_fd c]} ∧
    ∀ fd, fd ∈ client_fds p' → fd ∈ client_fds p ∧ fd ∉ S.
Proof.
  intros HP Hc Hout [Hel Hun]. pose proof (PxInv_fresh_delete _ _ cb HP) as Hf. pose proof (fds_of_delete _ _ _ Hc) as Hd.
  unfold client_fds. setoid_rewrite Hd.
  destruct Hout as [Ho Hcl Hn Hca _|hp -> _ _ ->|a -> ->|sfd -> _ ->]; cbn [closures].
  - exists {[closure_fd c]}. split_and!; [done|done|done|]. rewrite Hcl. intros fd Hfd. split; [by right|].
    intros ->%elem_of_singleton. pose proof (pv_nodup _ _ HP) as Hnd. rewrite Hd in Hnd. by apply NoDup_cons in Hnd as [? _].
  - exists ∅. split_and!; [apply elsewhere_refl|done|set_solver|]. intros fd. rewrite (fds_of_insert _ _ _ Hf). cbn. set_solver.
  - exists ∅. split_and!; [apply elsewhere_refl|done|set_solver|]. intros fd. rewrite (fds_of_insert _ _ _ Hf). cbn. set_solver.
  - exists ∅. split_and!; [apply elsewhere_refl|done|set_solver|]. set_solver.
Qed.

(** A callback that has run, but for the [Connect] that it may have called. *)
Lemma callback_parts (w : whole) cb c v p' :
  WInv w → closures (px (sys w)) !! cb = Some c → outcome cb (closure_fd c) v (px (sys w)) p' →
  proxy_effect (closure_fd c) (px (sys w)) p' → PxInv (allowed_ports opt) p' →
  (∀ fd, c ≠ OnParsed fd) ∨ cb ∈ (Parser.calls (world (par w))).*1 →
  (∀ fd, c ≠ OnConnected fd) ∨ cb ∈ (connected (world (con w))).*1 → not_asked (calls p') →
  ParserPart p' (par w) ∧ ConnectorPart p' (con w) ∧
  fwd_beside (others p' (par w) (con w)) (load_fwd (Hcproxy.kernel p') (fwd w)).
Proof.
  intros HW Hc Hout Heff HP' Hpar Hcon Hno. pose proof (sv_px _ _ _ (wi_sys _ HW)) as HP.
  destruct (outcome_asked _ _ _ _ _ HP Hc Hout) as (Hpa & Hnx & Hsp & (Hca & Hsc)%(λ f, f Hno)).
  destruct (outcome_clients _ _ _ _ _ HP Hc Hout Heff) as (S & Hel & Hun & HS & Hcl).
  assert (∀ fd, fd ∈ S → fd ∈ client_fds (px (sys w))) as HSc.
  { intros fd ->%HS%elem_of_singleton. unfold client_fds. rewrite (fds_of_delete _ _ _ Hc). by left. }
  pose proof (fwd_beside_nodup _ _ (wi_fwd _ HW)) as (_ & _ & Hd1 & Hd2)%others_split.
  split_and!.
  - by eapply ParserPart_keep; [apply HW|..]; auto.
  - eapply ConnectorPart_keep; [apply HW| |done..|by apply Hsc]. intros q h Hq.
    assert (fd_ h ∈ servers (closures (px (sys w))) (con w)) as Hs.
    { apply elem_of_servers. exists (conn_cb (sub_ h)). left. by exists q, h. }
    apply (opened_elsewhere S (kern w)); [exact Hel|intros HfS%HSc; by destruct (Hd2 (fd_ h) HfS)|].
    apply (others_opened w); [done|]. apply elem_of_others. by right; right.
  - eapply others_change; [done|exact Hel|done|done| |apply HP'| |].
    + intros fd HfS%HSc. split; [intros Hfd; by destruct (Hd1 fd Hfd)|].
      intros [_ Hn]%(fwd_owns_opened _ _ _ (wi_fwd _ HW)). apply Hn, elem_of_others. by right; left.
    + intros fd Hfd%Hcl. by left.
    + intros fd [i Hi]%elem_of_servers. left. apply (serves_keep (connected (world (con w))).*1 (closures (px (sys w)))) in Hi; [|by apply Hsc].
      assert (fd ∈ servers (closures (px (sys w))) (con w)) as Hs by (apply elem_of_servers; by exists i).
      split; [done|]. intros HfS%HSc. by destruct (Hd2 fd HfS).
Qed.

(** *** Steps *)
Abbreviation sys_step := (Hcproxy.sys_step (K := K) (E := E) min_lvl (allowed_ports opt) (dns_opt opt)).

(** The invariant, and that the step is one of Hcproxy.v's, where the parser and
    the connector call their callbacks when and as they like. *)
Definition refines (w w' : whole) : Prop := WInv w' ∧ rtc sys_step (sys w) (sys w').

Lemma WInv_client (w : whole) fd : WInv w → fd ∈ client_fds (px (sys w)) → fd ∈ opened (kern w).
Proof. intros HW Hfd. apply (others_opened w); [done|]. apply elem_of_others. by right; left. Qed.

Lemma WInv_server (w : whole) q h : WInv w → handlers (con w) !! q = Some h →
  fd_ h ∈ servers (closures (px (sys w))) (con w).
Proof. intros HW Hq. apply elem_of_servers. exists (conn_cb (sub_ h)). left. by exists q, h. Qed.

(** What the kernel has done to the clients is a step of Hcproxy.v's. *)
Lemma kernel_SInv (w : whole) k :
  WInv w → (∀ fd, fd ∈ client_fds (px (sys w)) → fd ∈ opened k) →
  sys_step (sys w) (set_kern k (sys w)) ∧ SInv (allowed_ports opt) (dns_opt opt) (set_kern k (sys w)).
Proof.
  intros HW Hk. assert (sys_step (sys w) (set_kern k (sys w))) as Hs by by apply st_kernel.
  split; [done|]. apply (sys_step_SInv min_lvl _ _ _ _ Hs). apply HW.
Qed.

Lemma parser_refines (w : whole) s' :
  WInv w → turn_env vector_capacity (load_par (kern w) (par w)) →
  turns (Loop_turn parse_delete (Parser.OnEvent min_lvl) Parser.OnTimeout (add_later EPOLLIN) vector_capacity)
    (load_par (kern w) (par w)) s' →
  refines w (mkWhole (set_kern (sockets (world s')) (sys w)) s' (con w) (fwd w)).
Proof.
  intros HW He Hs'. destruct (parser_turn_part _ _ _ (wi_par _ HW) He Hs') as (HP & Hel & Hpf & Hlo & _ & _).
  assert (∀ fd, fd ∈ opened (kern w) → fd ∈ opened (sockets (world s'))) as Hop.
  { intros fd Hfd. by apply (opened_elsewhere _ _ _ _ Hel). }
  destruct (kernel_SInv w (sockets (world s'))) as [Hst HS]; [done|intros fd Hfd; by apply Hop, WInv_client|].
  split; [|by apply rtc_once]. split; [done|exact HP| |].
  - eapply ConnectorPart_keep; [apply HW| |done..|apply same_closures_refl]. intros q h Hq. apply Hop.
    apply (others_opened w); [done|]. apply elem_of_others. right; right. by eapply WInv_server.
  - eapply (others_change w (set_kernel (sockets (world s')) (px (sys w))) _ _ ∅); [done|exact Hel|done|done|done| |..].
    + apply (sv_px _ _ _ HS).
    + intros fd Hfd. left. split; [exact Hfd|by apply not_elem_of_empty].
    + intros fd Hfd. left. split; [exact Hfd|by apply not_elem_of_empty].
Qed.

Lemma connector_refines (w : whole) s' :
  WInv w → turn_env vector_capacity (load_con (kern w) (con w)) →
  turns (Loop_turn conn_delete ConnOnEvent ConnOnTimeout (add_later EPOLLOUT) vector_capacity) (load_con (kern w) (con w)) s' →
  refines w (mkWhole (set_kern (net (world s')) (sys w)) (par w) s' (fwd w)).
Proof.
  intros HW He Hs'. destruct (connector_turn_part _ _ _ (wi_con _ HW) He Hs') as (HP & Hpf & Hlo & Hun & _ & S & Hel & HS & Hsv).
  pose proof (fwd_beside_nodup _ _ (wi_fwd _ HW)) as (_ & _ & Hd1 & Hd2)%others_split.
  destruct (kernel_SInv w (net (world s'))) as [Hst HI]; [done|..].
  { intros fd Hfd. apply (opened_elsewhere _ _ _ _ Hel); [intros HfS%HS; by destruct (Hd2 fd Hfd)|by apply WInv_client]. }
  split; [|by apply rtc_once]. split; [done| |exact HP|].
  - eapply ParserPart_keep; [apply HW|exact Hun|done..|apply same_closures_refl].
  - eapply (others_change w (set_kernel (net (world s')) (px (sys w))) _ _ S); [done|exact Hel|done|done| | |..].
    + intros fd HfS%HS. split; [intros Hfd; by destruct (Hd1 fd Hfd)|].
      intros [_ Hn]%(fwd_owns_opened _ _ _ (wi_fwd _ HW)). apply Hn, elem_of_others. by right; right.
    + apply (sv_px _ _ _ HI).
    + intros fd Hfd. left. split; [exact Hfd|]. intros HfS%HS. by destruct (Hd2 fd Hfd).
    + intros fd Hfd%Hsv. by left.
Qed.

Lemma forwarder_refines (w : whole) s' :
  opt_ok (forwarder_opt opt) → WInv w → turn_env vector_capacity (load_fwd (kern w) (fwd w)) →
  turns (Loop_turn link_delete (Forwarder.OnEvent min_lvl left_first) Forwarder.OnTimeout (New (forwarder_opt opt)) vector_capacity)
    (load_fwd (kern w) (fwd w)) s' →
  refines w (mkWhole (set_kern (world s') (sys w)) (par w) (con w) s').
Proof.
  intros Hopt HW He Hs'. destruct (forwarder_turn_ok _ _ _ _ _ _ _ Hopt (wi_fwd _ HW) He Hs') as (HF & (Hpf & Hlo & _) & Hun).
  assert (∀ fd, fd ∈ others (px (sys w)) (par w) (con w) → fd ∈ opened (world s')) as Hop.
  { intros fd Hfd. destruct (fwd_beside_waits _ _ _ HF Hfd) as [[? Ho] _ _]. by rewrite opened_view. }
  destruct (kernel_SInv w (world s')) as [Hst HS]; [done|intros fd Hfd; apply Hop, elem_of_others; by right; left|].
  split; [|by apply rtc_once]. split; [done| | |].
  - eapply ParserPart_keep; [apply HW|exact Hun|done..|apply same_closures_refl].
  - eapply ConnectorPart_keep; [apply HW| |done..|apply same_closures_refl]. intros q h Hq. apply Hop, elem_of_others.
    right; right. by eapply WInv_server.
  - eassert (load_fwd _ s' = s') as ->; [by destruct s'|]. exact HF.
Qed.

(** A callback of the parser's runs. *)
Lemma parsed_refines (w : whole) cb fd hp p' :
  WInv w → (cb, hp) ∈ Parser.calls (world (par w)) → closures (px (sys w)) !! cb = Some (OnParsed fd) →
  run_callback min_lvl (allowed_ports opt) cb (Parsed hp) (px (sys w)) = Done (tt, p') →
  refines w (mkWhole (mkSystem p' (after_calls_of (calls p') (resolver (sys w))) (accepted_fds (sys w))) (par w) (con w) (fwd w)).
Proof.
  intros HW Hin Hcb Hr. pose proof (sv_px _ _ _ (wi_sys _ HW)) as HP.
  pose proof (run_callback_outcome _ _ _ _ _ (Parsed hp) _ HP Hcb I Hr) as Hout.
  pose proof (st_parsed min_lvl (allowed_ports opt) (dns_opt opt) _ _ _ _ _ Hcb Hr) as Hst.
  pose proof (sys_step_SInv _ _ _ _ _ Hst (wi_sys _ HW)) as HS. split; [|by apply rtc_once].
  destruct (callback_parts w cb (OnParsed fd) _ p' HW Hcb Hout) as (? & ? & ?); [..|by split].
  - by apply (run_callback_kernel _ _ (Parsed hp) _ _ Hcb).
  - apply HS.
  - right. apply list_elem_of_fmap. by exists (cb, hp).
  - by left.
  - intros a i. destruct Hout as [? ? ? -> ?|? ? ? ? ->|? [=] _|? [=] _ _]; cbn; by rewrite last_snoc.
Qed.

(** The system, as the proxy and the resolver leave it. *)
Lemma set_kern_same (p : Proxy) c a : set_kern (Hcproxy.kernel p) (mkSystem p c a) = mkSystem (E := E) p c a.
Proof. by destruct p. Qed.

(** A callback of the resolver's closes its client. *)
Lemma resolved_refines (w : whole) c' cb x p' :
  WInv w → dns_step (dns_opt opt) min_lvl (resolver (sys w)) c' → accepted c' = accepted (resolver (sys w)) →
  called c' = called (resolver (sys w)) ++ [(cb, x)] →
  run_callback min_lvl (allowed_ports opt) cb (Resolved x) (px (sys w)) = Done (tt, p') → not_asked (calls p') →
  refines w (mkWhole (mkSystem p' c' (accepted_fds (sys w))) (par w) (load_con (Hcproxy.kernel p') (con w)) (fwd w)).
Proof.
  intros HW Hs Ha Hc Hr Hno. pose proof (sv_px _ _ _ (wi_sys _ HW)) as HP.
  destruct (called_pending min_lvl _ _ _ _ _ _ (wi_sys _ HW) Hs Ha Hc) as (_ & _ & fd & fr & Hcb & Hv).
  pose proof (run_callback_outcome _ _ _ _ _ _ _ HP Hcb Hv Hr) as Hout.
  pose proof (st_resolved min_lvl (allowed_ports opt) (dns_opt opt) _ _ _ _ _ Hs Ha Hc Hr) as Hst.
  pose proof (sys_step_SInv _ _ _ _ _ Hst (wi_sys _ HW)) as HS. split; [|by apply rtc_once].
  destruct (callback_parts w cb (OnResolved fd fr) _ p' HW Hcb Hout) as (HP1 & [Hok Hn Hak Hh Hsv] & HF); [..|by split].
  - by apply (run_callback_kernel _ _ (Resolved x) _ _ Hcb).
  - apply HS.
  - by left.
  - by left.
  - done.
Qed.

(** A callback of the resolver's asks the connector. *)
Lemma resolved_connects (w : whole) c' cb x p' addr i :
  WInv w → dns_step (dns_opt opt) min_lvl (resolver (sys w)) c' → accepted c' = accepted (resolver (sys w)) →
  called c' = called (resolver (sys w)) ++ [(cb, x)] →
  run_callback min_lvl (allowed_ports opt) cb (Resolved x) (px (sys w)) = Done (tt, p') →
  last (calls p') = Some (ConnectCall addr i) →
  ∃ fd, p' = mkProxy (kern w) (<[i := OnConnected fd]> (delete cb (closures (px (sys w))))) (S i)
      (calls (px (sys w)) ++ [ConnectCall addr i]) (frames (px (sys w))) ∧
    i = next_cb (px (sys w)) ∧ fd ∈ client_fds (px (sys w)) ∧ ipv4 addr ∧ ai_family addr = AF_INET ∧
    (∃ fr, closures (px (sys w)) !! cb = Some (OnResolved fd fr)) ∧
    SInv (allowed_ports opt) (dns_opt opt) (mkSystem p' c' (accepted_fds (sys w))).
Proof.
  intros HW Hs Ha Hc Hr Hl. pose proof (sv_px _ _ _ (wi_sys _ HW)) as HP.
  destruct (called_pending min_lvl _ _ _ _ _ _ (wi_sys _ HW) Hs Ha Hc) as (HD & _ & fd & fr & Hcb & Hv).
  pose proof (run_callback_outcome _ _ _ _ _ _ _ HP Hcb Hv Hr) as Hout.
  pose proof (st_resolved min_lvl (allowed_ports opt) (dns_opt opt) _ _ _ _ _ Hs Ha Hc Hr) as Hst.
  pose proof (sys_step_SInv _ _ _ _ _ Hst (wi_sys _ HW)) as HS. exists fd.
  destruct Hout as [? ? ? Hca ?|? [=] _ _|a [= ->] ->|? [=] _ _]; [by rewrite Hca, last_snoc in Hl|].
  cbn in Hl. rewrite last_snoc in Hl. injection Hl as <- <-. split_and!; try done.
  - unfold client_fds. rewrite (fds_of_delete _ _ _ Hcb). by left.
  - destruct (DInv_called _ _ cb a HD) as (_ & r & t & Hin & _ & Hx & _); [rewrite Hc; apply elem_of_app; right; by left|].
    destruct HD as (_ & _ & HF). destruct (fr_answers _ _ HF r Hin) as (_ & _ & _ & [_ Hall] & _).
    rewrite Forall_forall in Hall. by apply Hall.
  - by exists fr.
Qed.

(** The connector, with a new request: a server's socket that it has made is
    new. *)
Lemma connect_part (w : whole) cb fd i s' q :
  WInv w → i = next_cb (px (sys w)) → (∃ f fr, closures (px (sys w)) !! cb = Some (OnResolved f fr)) →
  connect_post (conn_asked (calls (px (sys w)))) i (load_con (kern w) (con w)) s' q →
  let cls' := <[i := OnConnected fd]> (delete cb (closures (px (sys w)))) in
  (∀ j x, serves cls' s' j x → serves (closures (px (sys w))) (con w) j x ∨ j = i ∧ new_fd (kern w) (net (world s')) x) ∧
  ∀ addr fs, ConnectorPart (mkProxy (net (world s')) cls' (S i) (calls (px (sys w)) ++ [ConnectCall addr i]) fs) s'.
Proof.
  intros HW Hi (f & fr & Hcb) (Hok & Hpf & Hlo & _ & _ & Hout) cls'. destruct (wi_con _ HW) as [Hok0 Hn Ha Hh Hsv].
  pose proof (PxInv_fresh _ _ (sv_px _ _ _ (wi_sys _ HW))) as Hf. rewrite <- Hi in Hf.
  assert (∀ j x, cls' !! j = Some (OnConnected x) → j = i ∨ closures (px (sys w)) !! j = Some (OnConnected x)) as Hback.
  { intros j x [[<- _]|[_ [_ ?]%lookup_delete_Some]]%lookup_insert_Some; [by left|by right]. }
  assert (∀ j x, serves cls' s' j x → serves (closures (px (sys w))) (con w) j x ∨ j = i ∧ new_fd (kern w) (net (world s')) x) as Hserves.
  { intros j x [(r & h & Hr & <- & <-)|(Hin & Hpos & c & Hc)].
    - destruct Hout as [(_ & Hhs & _)|(_ & y & Hhs & ? & ? & Hop & ?)]; rewrite Hhs in Hr; [left; left; by exists r, h|].
      apply lookup_insert_Some in Hr as [[<- <-]|[_ Hr]]; [right|left; left; by exists r, h]. split; [done|].
      split_and!; [done|done|rewrite Hop; set_solver|done].
    - left. right. assert ((j, x) ∈ connected (world (con w))) as Hin'.
      { destruct Hout as [(Hca & _)|(Hca & _)]; rewrite Hca in Hin; [|done].
        apply elem_of_app in Hin as [?|[= -> ->]%list_elem_of_singleton]; [done|lia]. }
      split_and!; [done|done|]. apply Hback in Hc as [->|?]; [|by exists c].
      pose proof (Hn _ (cp_results _ _ _ _ (wi_con _ HW) Hin')). lia. }
  split; [done|]. intros addr fs. split; cbn [calls next_cb closures Hcproxy.kernel]; rewrite ?(proj2 (asked_snoc _ _)).
  - eassert (load_con _ s' = s') as ->; [by destruct s' as [????????? []]|].
    eapply (os_ok_same conn_cb); [exact Hok| |by intros x; rewrite elem_of_list_to_set].
    intros x. rewrite elem_of_cons, elem_of_app, list_elem_of_singleton. naive_solver.
  - intros j [Hj%Hn| ->%list_elem_of_singleton]%elem_of_app; lia.
  - intros j x [->|Hj%Ha]%Hback; apply elem_of_app; [right; by left|by left].
  - intros r h Hr. assert (conn_cb (sub_ h) = i ∨ ∃ x, closures (px (sys w)) !! conn_cb (sub_ h) = Some (OnConnected x)) as [->|[x Hx]].
    { destruct Hout as [(_ & Hhs & _)|(_ & y & Hhs & _)]; rewrite Hhs in Hr; [right; by eapply Hh|].
      apply lookup_insert_Some in Hr as [[<- <-]|[_ Hr]]; [by left|right; by eapply Hh]. }
    + exists fd. apply lookup_insert_eq.
    + exists x. unfold cls'. rewrite !lookup_insert_ne, lookup_delete_ne; [done|congruence..].
  - assert (∀ j x, serves (closures (px (sys w))) (con w) j x → x ∈ opened (kern w)) as Hopen.
    { intros j x Hs. apply (others_opened w); [done|]. apply elem_of_others. right; right. apply elem_of_servers. by exists j. }
    intros j j' x [Hs|[-> Hx]]%Hserves [Hs'|[-> Hx']]%Hserves; [by eapply Hsv| | |done].
    + apply Hopen in Hs. by destruct Hx' as (_ & ? & _).
    + apply Hopen in Hs'. by destruct Hx as (_ & ? & _).
Qed.

Lemma connect_refines (w : whole) c' cb x p' addr i t q :
  WInv w → dns_step (dns_opt opt) min_lvl (resolver (sys w)) c' → accepted c' = accepted (resolver (sys w)) →
  called c' = called (resolver (sys w)) ++ [(cb, x)] →
  run_callback min_lvl (allowed_ports opt) cb (Resolved x) (px (sys w)) = Done (tt, p') →
  last (calls p') = Some (ConnectCall addr i) → t ≠ loop_ (con w) → handlers (con w) !! q = None →
  wp (Connect min_lvl q addr i) (λ _ c, let s' := as_thread (loop_ (con w)) c in
    refines w (mkWhole (set_kern (net (world s')) (mkSystem p' c' (accepted_fds (sys w)))) (par w) s' (fwd w)))
    (as_thread t (load_con (Hcproxy.kernel p') (con w))).
Proof.
  intros HW Hs Ha Hc Hr Hl Ht Hq.
  destruct (resolved_connects w c' cb x p' addr i HW Hs Ha Hc Hr Hl) as (fd & -> & Hi & Hfd & Hip & Hfam & [fr Hcb] & HS).
  pose proof (st_resolved min_lvl (allowed_ports opt) (dns_opt opt) _ _ _ _ _ Hs Ha Hc Hr) as Hst.
  pose proof (PxInv_fresh _ _ (sv_px _ _ _ (wi_sys _ HW))) as Hf. rewrite <- Hi in Hf.
  eapply wp_mono; [apply (Connect_ok vector_capacity min_lvl _ _ _ t q addr i (cp_ok _ _ (wi_con _ HW))); try done|].
  - apply (others_opened w); [done|]. apply elem_of_others. left. right. by left.
  - intros Hin%(cp_names _ _ (wi_con _ HW)). lia.
  - intros [] c Hpost. cbn [load_con set_world loop_] in Hpost. set (s' := as_thread (loop_ (con w)) c) in *.
    destruct (connect_part w cb fd i s' q HW Hi ltac:(by exists fd, fr) Hpost) as [Hserves HCP].
    destruct Hpost as (_ & Hpf & Hlo & (S & Hel & HSn) & Hun & _). cbn [load_con set_world world net pipe_fd] in *.
    assert (∀ y, y ∈ opened (kern w) → y ∈ opened (net (world s')) ∧ y ∉ S) as Hop.
    { intros y Hy. assert (y ∉ S) by (intros ?%HSn; done). split; [|done]. by apply (opened_elsewhere _ _ _ _ Hel). }
    pose proof (λ y, pv_open _ _ (sv_px _ _ _ HS) y) as Hcl. cbn in Hcl.
    match goal with |- refines _ (mkWhole (set_kern _ ?s) _ _ _) =>
      assert (sys_step s (set_kern (net (world s')) s)) as Hst2 by (apply st_kernel; intros y Hy; by apply Hop, Hcl) end.
    pose proof (sys_step_SInv _ _ _ _ _ Hst2 HS) as HS'.
    split; [split; [exact HS'| |apply HCP|]|by eapply rtc_l; [exact Hst|apply rtc_once]].
    + eapply ParserPart_keep; [apply HW|exact Hun| |cbn; lia|]; cbn.
      * by rewrite (proj1 (asked_snoc _ _)), app_nil_r.
      * eapply same_closures_trans; [eapply same_closures_delete; [exact Hcb|by left]|].
        apply same_closures_insert; [by rewrite lookup_delete_None; right|done].
    + eapply (others_change w (set_kernel (net (world s')) _) _ s' S); [done|exact Hel|done|done| | | |].
      * intros y Hy%HSn. split; [|by intros [? _]%(fwd_owns_opened _ _ _ (wi_fwd _ HW))].
        intros Hin. apply Hy, (others_opened w); [done|]. apply elem_of_others. by left.
      * apply (sv_px _ _ _ HS').
      * intros y Hy. left. unfold client_fds in Hy. cbn in Hy. assert (y ∈ client_fds (px (sys w))) as Hy'.
        { unfold client_fds. rewrite (fds_of_delete _ _ _ Hcb). rewrite fds_of_insert in Hy by (rewrite lookup_delete_None; by right).
          exact Hy. }
        split; [done|]. by apply Hop, WInv_client.
      * intros y [j [Hj|[-> Hnew]]%Hserves]%elem_of_servers; [left|right].
        -- assert (y ∈ servers (closures (px (sys w))) (con w)) as Hy by (apply elem_of_servers; by exists j).
           split; [done|]. apply Hop, (others_opened w); [done|]. apply elem_of_others. by right; right.
        -- split; [done|]. destruct Hnew as (_ & Hno & _). intros Hy. by apply Hno, Hcl.
Qed.

(** A callback of the connector's runs: what holds before [Forward], if it has
    called it. *)
Lemma connected_parts (w : whole) cb fd sfd p' :
  WInv w → (cb, sfd) ∈ connected (world (con w)) → closures (px (sys w)) !! cb = Some (OnConnected fd) →
  run_callback min_lvl (allowed_ports opt) cb (Connected sfd) (px (sys w)) = Done (tt, p') →
  outcome cb fd (Connected sfd) (px (sys w)) p' ∧
  refines w (mkWhole (mkSystem p' (resolver (sys w)) (accepted_fds (sys w))) (par w) (con w) (load_fwd (Hcproxy.kernel p') (fwd w))).
Proof.
  intros HW Hin Hcb Hr. pose proof (sv_px _ _ _ (wi_sys _ HW)) as HP.
  pose proof (run_callback_outcome _ _ _ _ _ (Connected sfd) _ HP Hcb I Hr) as Hout. split; [exact Hout|].
  pose proof (st_connected min_lvl (allowed_ports opt) (dns_opt opt) _ _ _ _ _ Hcb Hr) as Hst.
  pose proof (sys_step_SInv _ _ _ _ _ Hst (wi_sys _ HW)) as HS. split; [|by apply rtc_once].
  destruct (callback_parts w cb (OnConnected fd) _ p' HW Hcb Hout) as (? & ? & ?); [..|by split].
  - by apply (run_callback_kernel _ _ (Connected sfd) _ _ Hcb).
  - apply HS.
  - by left.
  - right. apply list_elem_of_fmap. by exists (cb, sfd).
  - intros a i. destruct Hout as [? ? ? -> ?|? [=] _ _|? [=] _|? _ _ ->]; cbn; by rewrite last_snoc.
Qed.

(** The two sockets that are handed to the forwarder. *)
Lemma forward_handed (w : whole) cb fd sfd p' :
  WInv w → (cb, sfd) ∈ connected (world (con w)) → closures (px (sys w)) !! cb = Some (OnConnected fd) → (0 ≤ sfd)%Z →
  p' = mkProxy (kern w) (delete cb (closures (px (sys w)))) (next_cb (px (sys w))) (calls (px (sys w)) ++ [ForwardCall fd sfd])
    (frames (px (sys w))) →
  fd ≠ sfd ∧ ∀ x, x = fd ∨ x = sfd → waiting_ok (load_fwd (kern w) (fwd w)) x ∧
    x ∉ apart_from (others p' (par w) (con w)) (load_fwd (kern w) (fwd w)).
Proof.
  intros HW Hin Hcb Hpos ->. pose proof (wi_fwd _ HW) as Hok.
  pose proof (fwd_beside_nodup _ _ Hok) as (_ & Hndc & Hd1 & Hd2)%others_split.
  assert (fd ∈ client_fds (px (sys w))) as Hfd by (unfold client_fds; rewrite (fds_of_delete _ _ _ Hcb); by left).
  assert (serves (closures (px (sys w))) (con w) cb sfd) as Hsv by (right; split_and!; [done..|by exists fd]).
  assert (sfd ∈ servers (closures (px (sys w))) (con w)) as Hsfd by (apply elem_of_servers; by exists cb).
  assert (same_closures OnConnected (connected (world (con w))).*1 (closures (px (sys w))) (delete cb (closures (px (sys w))))) as Hsc.
  { eapply same_closures_delete; [exact Hcb|]. right. apply list_elem_of_fmap. by exists (cb, sfd). }
  split; [intros ->; by apply (Hd2 sfd)|]. intros x Hx.
  assert (x ∈ others (px (sys w)) (par w) (con w)) as Hxo.
  { apply elem_of_others. right. destruct Hx as [-> | ->]; [by left|by right]. }
  split; [by eapply fwd_beside_waits|]. rewrite apart_from_split, elem_of_app. intros [Hx'|Hx'].
  2: { destruct (fwd_owns_opened _ _ x Hok) as [_ Hn]; [by left|done]. }
  apply elem_of_others in Hx' as [Hx'|[Hx'|Hx']].
  - destruct (Hd1 x Hx'). by destruct Hx as [-> | ->].
  - unfold client_fds in Hx', Hndc. cbn in Hx'. rewrite (fds_of_delete _ _ _ Hcb) in Hndc. cbn in Hndc.
    apply NoDup_cons in Hndc as [Hn _]. destruct Hx as [-> | ->]; [done|]. apply (Hd2 sfd); [|done].
    unfold client_fds. rewrite (fds_of_delete _ _ _ Hcb). by right.
  - apply elem_of_servers in Hx' as [j Hj]. pose proof (serves_keep _ _ _ _ _ _ Hsc Hj) as Hj0.
    destruct Hx as [-> | ->]; [apply (Hd2 fd); [done|]; apply elem_of_servers; by exists j|].
    assert (j = cb) as -> by by eapply (cp_serves _ _ (wi_con _ HW)).
    destruct Hj as [(q & h & Hq & Hc & _)|(_ & _ & c & Hc)]; [|cbn in Hc; by rewrite lookup_delete_eq in Hc].
    apply (cp_waiting _ _ q h (wi_con _ HW) Hq). rewrite Hc. apply list_elem_of_fmap. by exists (cb, sfd).
Qed.

Lemma forward_refines (w : whole) cb fd sfd p' c f t :
  WInv w → (cb, sfd) ∈ connected (world (con w)) → closures (px (sys w)) !! cb = Some (OnConnected fd) →
  run_callback min_lvl (allowed_ports opt) cb (Connected sfd) (px (sys w)) = Done (tt, p') →
  last (calls p') = Some (ForwardCall c f) → t ≠ loop_ (fwd w) →
  wp (Forward (forwarder_opt opt) c f) (λ _ d,
    refines w (mkWhole (mkSystem p' (resolver (sys w)) (accepted_fds (sys w))) (par w) (con w) (as_thread (loop_ (fwd w)) d)))
    (as_thread t (load_fwd (Hcproxy.kernel p') (fwd w))).
Proof.
  intros HW Hin Hcb Hr Hl Ht. destruct (connected_parts w cb fd sfd p' HW Hin Hcb Hr) as [Hout [[HS HP HC HF] Hst]].
  destruct Hout as [? ? ? Hca ?|? [=] _ _|? [=] _|y [= <-] Hpos Hp']; [by rewrite Hca, last_snoc in Hl|].
  destruct (forward_handed w cb fd sfd p' HW Hin Hcb Hpos Hp') as [Hne Hh].
  assert (c = fd ∧ f = sfd ∧ Hcproxy.kernel p' = kern w) as (-> & -> & Hk).
  { rewrite Hp' in Hl. cbn in Hl. rewrite last_snoc in Hl. rewrite Hp'. by injection Hl as <- <-. }
  assert (fwd_beside (others p' (par w) (con w)) (load_fwd (kern w) (fwd w))) as HF' by (rewrite <- Hk; exact HF).
  rewrite Hk. set (r := others p' (par w) (con w) : Reserved).
  eapply wp_mono; [apply (Forward_wp (H9 := r) (forwarder_opt opt) (load_fwd (kern w) (fwd w)) t fd sfd)|].
  - exact HF'.
  - exact Ht.
  - apply Hh. by left.
  - apply Hh. by right.
  - exact Hne.
  - intros [] d (Hd & _ & Hwd & _). split; [|exact Hst]. split; [exact HS|exact HP|exact HC|].
    change (fwd_beside (others p' (par w) (con w)) (load_fwd (Hcproxy.kernel p') (as_thread (loop_ (fwd w)) d))).
    assert (load_fwd (Hcproxy.kernel p') (as_thread (loop_ (fwd w)) d) = as_thread (loop_ (fwd w)) d) as ->; [|exact Hd].
    rewrite Hk. change (kern w) with (world (load_fwd (kern w) (fwd w))). rewrite <- Hwd. by destruct d.
Qed.

(** Time passes in the loops. *)
Lemma parser_clk p s c : (time (clk s) ≤ time c)%Z → ParserPart p s → ParserPart p (set_clk c s).
Proof.
  intros Hc [(xs & HI & HC) Hn Ha Hh]. split; try done. exists xs. cbn in *. split.
  - change (load_par (Hcproxy.kernel p) (set_clk c s)) with (set_clk c (load_par (Hcproxy.kernel p) s)). by apply Inv_clk.
  - eapply OneShot_frame; [exact HC|done..| |]; cbn; [intros q h Hq; by exists h|congruence].
Qed.
Lemma connector_clk p s c : (time (clk s) ≤ time c)%Z → ConnectorPart p s → ConnectorPart p (set_clk c s).
Proof.
  intros Hc [(xs & HI & HC) Hn Ha Hh Hsv]. split; try done. exists xs. cbn in *. split.
  - change (load_con (Hcproxy.kernel p) (set_clk c s)) with (set_clk c (load_con (Hcproxy.kernel p) s)). by apply Inv_clk.
  - eapply OneShot_frame; [exact HC|done..| |]; cbn; [intros q h Hq; by exists h|congruence].
Qed.
Lemma forwarder_clk R (s : FSt) c : (time (clk s) ≤ time c)%Z → fwd_beside R s → fwd_beside R (set_clk c s).
Proof.
  intros Hc (own & xs & HI & HF). exists own, xs. split; [by apply Inv_clk|].
  destruct HF as [HF Hrel Hunt]. split; [|done|done]. by eapply Fwd_frame.
Qed.

Lemma env_refines (w : whole) k S cp cc cf :
  WInv w → elsewhere S (kern w) k → unread (kern w) k → (∀ fd, fd ∈ S → ¬ owned_fd listen_fd w fd) →
  (time (clk (par w)) ≤ time cp)%Z → (time (clk (con w)) ≤ time cc)%Z → (time (clk (fwd w)) ≤ time cf)%Z →
  refines w (mkWhole (set_kern k (sys w)) (set_clk cp (par w)) (set_clk cc (con w)) (set_clk cf (fwd w))).
Proof.
  intros HW Hel Hun HS Hcp Hcc Hcf.
  assert (∀ fd, fd ∈ others (px (sys w)) (par w) (con w) → fd ∈ opened k ∧ fd ∉ S) as Hop.
  { intros fd Hfd. assert (fd ∉ S) as Hn by (intros HfS; apply (HS fd HfS); by left). split; [|done].
    apply (opened_elsewhere _ _ _ _ Hel Hn). by apply (others_opened w). }
  destruct (kernel_SInv w k HW) as [Hst HI].
  { intros fd Hfd. apply Hop, elem_of_others. by right; left. }
  split; [|by apply rtc_once]. split; [done| | |].
  - apply parser_clk; [done|]. eapply ParserPart_keep; [apply HW|exact Hun|done..|apply same_closures_refl].
  - apply connector_clk; [done|]. eapply ConnectorPart_keep; [apply HW| |done..|apply same_closures_refl].
    intros q h Hq. apply Hop, elem_of_others. right; right. by eapply WInv_server.
  - change (fwd_beside (others (set_kernel k (px (sys w))) (set_clk cp (par w)) (set_clk cc (con w)))
      (set_clk cf (load_fwd k (fwd w)))). apply forwarder_clk; [done|].
    eapply (others_change w (set_kernel k (px (sys w))) _ _ S); [done|exact Hel|done|done| |apply (sv_px _ _ _ HI)|..].
    + intros fd HfS. split; [|intros Ho; apply (HS fd HfS); by right].
      intros Hfd. apply (HS fd HfS). left. apply elem_of_others. by left.
    + intros fd Hfd. left. split; [exact Hfd|]. apply Hop, elem_of_others. by right; left.
    + intros fd Hfd. left. split; [exact Hfd|]. apply Hop, elem_of_others. by right; right.
Qed.

(** *** With the acceptor *)
Context (strerror : Z → bytes) (time_str : K → bytes) (clobber : bytes → Z → Z).

(** The proxy after it has given a new client to the parser. *)
Definition with_client (p : Proxy) (k : K) (fd : Z) : Proxy :=
  mkProxy k (<[next_cb p := OnParsed fd]> (closures p)) (S (next_cb p)) (calls p ++ [ParseRequest fd (next_cb p)]) (frames p).

Section accepting.
Context (w : whole) (k : K) (fd : Z).
Hypothesis HW : WInv w.
Hypothesis Hpos : (0 ≤ fd)%Z.
Hypothesis Hnew : fd ∉ opened (kern w).
Hypothesis Hop : opened k = {[fd]} ∪ opened (kern w).
Hypothesis Hsock : new_socket fd (kern w) k.

Lemma not_new x : x ∈ others (px (sys w)) (par w) (con w) → x ≠ fd.
Proof. intros Hx ->. by destruct (others_opened w fd HW Hx). Qed.

Lemma no_closure : closures (px (sys w)) !! next_cb (px (sys w)) = None.
Proof. apply (PxInv_fresh _ _ (sv_px _ _ _ (wi_sys _ HW))). Qed.

Lemma elem_of_with_client x : x ∈ client_fds (with_client (px (sys w)) k fd) ↔ x = fd ∨ x ∈ client_fds (px (sys w)).
Proof. unfold client_fds. cbn. by rewrite (fds_of_insert _ _ _ no_closure), elem_of_cons. Qed.

Lemma with_client_serves : same_closures OnConnected [] (closures (px (sys w))) (closures (with_client (px (sys w)) k fd)).
Proof. apply same_closures_insert; [apply no_closure|done]. Qed.

Lemma accepted_parser s' q news :
  let cb := next_cb (px (sys w)) in
  parser_ok (cb :: parse_asked (calls (px (sys w))), news, s') →
  handlers s' = <[q := mkEH fd 0 false 0 (parse_new (parser_opt opt) cb)]> (handlers (par w)) →
  load_par k s' = s' → ParserPart (with_client (px (sys w)) k fd) s'.
Proof.
  intros cb Hok Hh Hload. destruct (wi_par _ HW) as [_ Hnames Hasked Hhs].
  split; cbn [with_client calls next_cb closures Hcproxy.kernel]; rewrite ?(proj1 (asked_snoc _ _)).
  - rewrite Hload. eapply (os_ok_same cb_); [exact Hok| |intros x; by rewrite elem_of_list_to_set].
    intros x. rewrite elem_of_cons, elem_of_app, list_elem_of_singleton. naive_solver.
  - intros x [Hx%Hnames| ->%list_elem_of_singleton]%elem_of_app; lia.
  - intros x f [[<- _]|[_ Hx%Hasked]]%lookup_insert_Some; apply elem_of_app; [right; by left|by left].
  - intros r h Hr. rewrite Hh in Hr. apply lookup_insert_Some in Hr as [[<- <-]|[_ Hr%Hhs]]; [apply lookup_insert_eq|].
    rewrite lookup_insert_ne; [done|]. intros Heq. pose proof no_closure. congruence.
Qed.

Lemma accepted_connector : ConnectorPart (with_client (px (sys w)) k fd) (con w).
Proof.
  eapply ConnectorPart_keep; [apply HW| | |cbn; lia|].
  - intros r h Hr. cbn. rewrite Hop. apply elem_of_union. right. apply (others_opened w); [done|].
    apply elem_of_others. right; right. by eapply WInv_server.
  - cbn. by rewrite (proj2 (asked_snoc _ _)), app_nil_r.
  - destruct with_client_serves as [? Hk]. split; [done|]. intros i f [Hi|?]%Hk; [by apply elem_of_nil in Hi|by right].
Qed.

Lemma accepted_forwarder s' :
  pipe_fd s' = pipe_fd (par w) → NoDup (client_fds (with_client (px (sys w)) k fd)) →
  fwd_beside (others (with_client (px (sys w)) k fd) s' (con w)) (load_fwd k (fwd w)).
Proof.
  intros Hpf Hnd. destruct Hsock as (Hag & Hunt & _).
  apply (others_change w (with_client (px (sys w)) k fd) s' (con w) {[fd]}); [done|by apply agree_elsewhere|done|done| |done|..].
  - intros x ->%elem_of_singleton. split.
    + intros Hx. apply (not_new fd); [|done]. apply elem_of_others. by left.
    + by intros [? _]%(fwd_owns_opened _ _ _ (wi_fwd _ HW)).
  - intros x [->|Hx]%elem_of_with_client.
    + right. split_and!; [done|done| |done]. cbn. rewrite Hop. set_solver.
    + left. split; [done|]. apply not_elem_of_singleton, not_new, elem_of_others. by right; left.
  - intros x [i Hi]%elem_of_servers. apply (serves_keep _ _ _ _ _ _ with_client_serves) in Hi.
    assert (x ∈ servers (closures (px (sys w))) (con w)) by (apply elem_of_servers; by exists i).
    left. split; [done|]. apply not_elem_of_singleton, not_new, elem_of_others. by right; right.
Qed.
End accepting.

(** A client is accepted, and given to the parser. *)
Lemma whole_accept_wp (w : whole) fuel e out fd lg t q :
  0 < max_request_size_bytes (parser_opt opt) → WInv w →
  Accept strerror time_str clobber min_lvl fuel listen_fd (mkLog e out (kern w)) = Done (fd, lg) →
  t ≠ loop_ (par w) → handlers (par w) !! q = None →
  ∃ p', on_accept fd (set_kernel (rest lg) (px (sys w))) = Done (tt, p') ∧
  wp (Parser.ParseRequest (parser_opt opt) q fd (next_cb (px (sys w)))) (λ _ s',
    refines w (mkWhole (mkSystem p' (resolver (sys w)) (accepted_fds (sys w) ++ [fd])) (as_thread (loop_ (par w)) s') (con w) (fwd w)) ∧
    Parser.calls (world s') = Parser.calls (world (par w))) (as_thread t (load_par (rest lg) (par w))).
Proof.
  intros Hmax HW Ha Ht Hq. destruct (Accept_os _ _ _ _ _ _ _ _ _ Ha) as (Hpos & Hnew & Hop & Hsock).
  cbn [rest] in *. set (k := rest lg) in *. set (p' := with_client (px (sys w)) k fd).
  exists p'. split; [done|].
  assert (sys_step (sys w) (mkSystem p' (resolver (sys w)) (accepted_fds (sys w) ++ [fd]))) as Hst by by eapply st_accept.
  pose proof (sys_step_SInv min_lvl _ _ _ _ Hst (wi_sys _ HW)) as HS.
  destruct (wi_par _ HW) as [Hok Hnames _ Hhs].
  pose proof (parser_rely _ _ _ k Hok (proj2 (proj2 Hsock))) as Hok1.
  eapply wp_mono; [apply (ParseRequest_wp _ _ _ _ t q fd (next_cb (px (sys w))) Hmax Hok1); [done|done|done|..]|].
  - intros Heq. apply (not_new w fd HW Hnew (pipe_fd (par w))); [|done]. apply elem_of_others. left. by left.
  - intros Hin%Hnames. lia.
  - intros r h Hr. apply (not_new w fd HW Hnew), elem_of_others. right; left. unfold client_fds.
    rewrite (fds_of_delete _ _ _ (Hhs r h Hr)). by left.
  - intros [] s' (Hok' & Hh & Hpf & Hlo & Hw). cbn [load_par set_world loop_ handlers pipe_fd world] in *.
    set (s2 := as_thread (loop_ (par w)) s') in *. split; [|change (world s') with (world s2); by rewrite Hw]. split; [|by apply rtc_once].
    split; [exact HS| |by apply (accepted_connector w)|apply (accepted_forwarder w); try done; apply (sv_px _ _ _ HS)].
    eapply (accepted_parser w); [exact HW|exact Hok'|exact Hh|].
    cbn [par Parser.calls] in *. unfold load_par. rewrite Hw. cbn [Parser.calls]. rewrite <- Hw. by destruct s2.
Qed.

(** Every step keeps the invariant and is one of Hcproxy.v's. *)
Lemma whole_step_refines (w w' : whole) :
  opt_ok (forwarder_opt opt) → 0 < max_request_size_bytes (parser_opt opt) → WInv w →
  whole_step strerror time_str clobber min_lvl left_first vector_capacity opt listen_fd w w' → refines w w'.
Proof.
  intros Hopt Hmax HW Hstep. destruct Hstep as [w fuel e out fd lg p' t q s' Ha Hr Ht Hq Hs'|w s' He Hs'
    |w cb fd hp p' Hin Hcb Hr|w c' Hs Ha Hc|w c' cb x p' s' Hs Ha Hc Hr Hcon|w s' He Hs'
    |w cb fd sfd p' s' Hin Hcb Hr Hf|w s' He Hs'|w fr Hret|w k S cp cc cf Hel Hun HS Hcp Hcc Hcf].
  - destruct (whole_accept_wp w fuel e out fd lg t q Hmax HW Ha Ht Hq) as (p2 & Hr2 & Hwp).
    rewrite Hr in Hr2. injection Hr2 as <-. unfold wp in Hwp. rewrite Hs' in Hwp. by destruct Hwp.
  - by apply parser_refines.
  - by eapply parsed_refines.
  - pose proof (st_resolver min_lvl (allowed_ports opt) (dns_opt opt) _ _ Hs Ha Hc) as Hst.
    split; [|by apply rtc_once]. split; [|apply HW..]. apply (sys_step_SInv _ _ _ _ _ Hst (wi_sys _ HW)).
  - unfold connects in Hcon. destruct (last (calls p')) as [[]|] eqn:Hl.
    1,2,4,5,6: subst s'; cbn [load_con set_world world net]; rewrite set_kern_same; eapply resolved_refines; try done;
      intros a i Hl'; congruence.
    destruct Hcon as (t & q & c & Ht & Hq & Hs' & ->).
    pose proof (connect_refines w c' cb x p' addr cb0 t q HW Hs Ha Hc Hr Hl Ht Hq) as Hwp. unfold wp in Hwp. by rewrite Hs' in Hwp.
  - by apply connector_refines.
  - unfold forwards in Hf. destruct (last (calls p')) as [[]|] eqn:Hl.
    1,2,3,5,6: subst s'; by apply (connected_parts w cb fd sfd).
    destruct Hf as (t & d & Ht & Hs' & ->).
    pose proof (forward_refines w cb fd sfd p' client_fd server_fd t HW Hin Hcb Hr Hl Ht) as Hwp. unfold wp in Hwp. by rewrite Hs' in Hwp.
  - by apply forwarder_refines.
  - pose proof (st_return min_lvl (allowed_ports opt) (dns_opt opt) _ _ Hret) as Hst.
    split; [|by apply rtc_once]. destruct HW as [HI [] [] HF]. split; [apply (sys_step_SInv _ _ _ _ _ Hst HI)|by split..|exact HF].
  - by eapply env_refines.
Qed.
End whole.
