(* ===== verification/WholeStory.v ===== *)
(** * Which server a client gets

    What the program has done for each client, followed from the call of
    [ParseRequest] through the parser's answer, the question to the resolver,
    the resolver's answer, the call of [Connect] and its result to the call of
    [Forward] and the two links of the forwarder. *)

From S2P Require Import Prelude Logging IntrusiveList Epoll EventLoop LoopTheorems Frame OneShot Sock Addr Parser Connector Buffer Forwarder ForwarderTheorems ForwarderLoop ForwarderNew ForwarderRuns Executor Dns ThreadPool PoolExecutor DnsRuns Acceptor Os Footprint Requests Pairs Hcproxy Whole WholeInv.

Section whole.
Context {K EK PQ PF E : Type} `{!FdKernel K, !FdLaws K, !PipeKernel K, !PipeKernelLaws K, !ReadKernel K, !ReadLaws K,
  !AcceptKernel K, !AcceptLaws K, !SockOptKernel K, !SockOptLaws K, !ConnectKernel K, !ConnectLaws K,
  !ShutdownKernel K, !ForwardLaws K, !OsLaws K} `{EpollLaws EK} `{PipeLaws PQ ptr} `{PipeLaws PF (Z * Z)} `{ExecutorLaws E}.

Context (strerror : Z → bytes) (time_str : K → bytes) (clobber : bytes → Z → Z).
Context (min_lvl : Severity) (left_first : bool) (vector_capacity : nat → nat → nat) (opt : Options) (listen_fd : Z).

Abbreviation whole := (Whole.whole (K := K) (EK := EK) (PQ := PQ) (PF := PF) (E := E)).
Abbreviation kernel := Hcproxy.kernel.
Abbreviation WInv := (WholeInv.WInv opt listen_fd).
Abbreviation whole_step := (Whole.whole_step strerror time_str clobber min_lvl left_first vector_capacity opt listen_fd).
Abbreviation sys_step := (Hcproxy.sys_step (K := K) (E := E) min_lvl (allowed_ports opt) (dns_opt opt)).
Abbreviation ParserTurn :=
  (Loop_turn parse_delete (Parser.OnEvent min_lvl) Parser.OnTimeout (add_later EPOLLIN) vector_capacity).
Abbreviation ConnTurn :=
  (Loop_turn conn_delete ConnOnEvent ConnOnTimeout (add_later EPOLLOUT) vector_capacity).
Abbreviation FwdTurn :=
  (Loop_turn link_delete (Forwarder.OnEvent min_lvl left_first) Forwarder.OnTimeout (New (forwarder_opt opt)) vector_capacity).

(** ** The story of a client *)

(** The calls of [Forward]. *)
Definition forwarded (cs : list call) : list (Z * Z) :=
  omap (λ c, match c with ForwardCall c f => Some (c, f) | _ => None end) cs.

Lemma elem_of_forwarded cs c f : (c, f) ∈ forwarded cs ↔ ForwardCall c f ∈ cs.
Proof.
  unfold forwarded. rewrite list_elem_of_omap. split.
  - by intros ([] & Hin & [= <- <-]).
  - intros Hin. by exists (ForwardCall c f).
Qed.

(** The client [c] has been given to the parser, the parser has answered [hp],
    and the resolver has been asked for it with the callback [cb]. *)
Definition requested (w : whole) (c : Z) (hp : bytes) (cb : nat) : Prop :=
  ∃ cb1, ParseRequest c cb1 ∈ calls (px (sys w)) ∧ (cb1, hp) ∈ Parser.calls (world (par w)) ∧
    ResolveCall hp cb ∈ calls (px (sys w)).

(** The resolver has answered that question with [a], and the connector has been
    asked for [a] with the callback [cb]. *)
Definition directed (w : whole) (c : Z) (hp : bytes) (a : addrinfo) (cb : nat) : Prop :=
  ∃ cb2, requested w c hp cb2 ∧ (cb2, Some a) ∈ called (resolver (sys w)) ∧ ConnectCall a cb ∈ calls (px (sys w)).

(** What has been done for the client of a callback when the callback is kept. *)
Definition story (w : whole) (cb : nat) (c : closure) : Prop :=
  match c with
  | OnParsed fd => ParseRequest fd cb ∈ calls (px (sys w))
  | OnResolved fd _ => ∃ hp, requested w fd hp cb
  | OnConnected fd => ∃ hp a, directed w fd hp a cb
  end.

(** A server's socket is the connector's result for the client's address. *)
Definition served (w : whole) (c f : Z) : Prop :=
  ∃ hp a cb, directed w c hp a cb ∧ (cb, f) ∈ connected (world (con w)).

(** What the parser has answered for a client is what the client has asked for. *)
Definition clients_heard (w : whole) : Prop :=
  answers_heard (λ fd cb, ParseRequest fd cb ∈ calls (px (sys w))) (world (load_par (kern w) (par w))).

(** The callback that a call of a component has. *)
Definition cb_of_call (c : call) : option nat :=
  match c with ParseRequest _ cb | ResolveCall _ cb | ConnectCall _ cb => Some cb | _ => None end.

Record Linked (w : whole) : Prop := {
  ln_paired : paired (forwarded (calls (px (sys w)))) (fwd w);
  ln_story : ∀ cb c, closures (px (sys w)) !! cb = Some c → story w cb c;
  ln_served : ∀ c f, ForwardCall c f ∈ calls (px (sys w)) → served w c f;
  ln_heard : clients_heard w;
  ln_names : ∀ x cb, x ∈ calls (px (sys w)) → cb_of_call x = Some cb → cb < next_cb (px (sys w));
  ln_once : ∀ x y cb, x ∈ calls (px (sys w)) → y ∈ calls (px (sys w)) → cb_of_call x = Some cb → cb_of_call y = Some cb → x = y
}.

(** What has been done stays done. *)
Record later (w w' : whole) : Prop := {
  lt_calls : ∀ x, x ∈ calls (px (sys w)) → x ∈ calls (px (sys w'));
  lt_parsed : ∀ x, x ∈ Parser.calls (world (par w)) → x ∈ Parser.calls (world (par w'));
  lt_called : ∀ x, x ∈ called (resolver (sys w)) → x ∈ called (resolver (sys w'));
  lt_connected : ∀ x, x ∈ connected (world (con w)) → x ∈ connected (world (con w'));
  lt_read : grows (kern w) (kern w')
}.

Lemma requested_later w w' c hp cb : later w w' → requested w c hp cb → requested w' c hp cb.
Proof. intros [Hc Hp _ _ _] (cb1 & ? & ? & ?). exists cb1. auto. Qed.
Lemma directed_later w w' c hp a cb : later w w' → directed w c hp a cb → directed w' c hp a cb.
Proof.
  intros Hl (cb2 & ? & ? & ?). exists cb2. destruct Hl as [? ? ? ? ?]. split; [|auto]. by eapply requested_later.
Qed.
Lemma story_later w w' cb c : later w w' → story w cb c → story w' cb c.
Proof.
  intros Hl. destruct c as [fd|fd fr|fd]; cbn.
  - apply Hl.
  - intros (hp & ?). exists hp. by eapply requested_later.
  - intros (hp & a & ?). exists hp, a. by eapply directed_later.
Qed.
Lemma served_later w w' c f : later w w' → served w c f → served w' c f.
Proof. intros Hl (hp & a & cb & ? & ?). exists hp, a, cb. split; [by eapply directed_later|by apply (lt_connected _ _ Hl)]. Qed.

Lemma heard_later w w' :
  later w w' → Parser.calls (world (par w')) = Parser.calls (world (par w)) → clients_heard w → clients_heard w'.
Proof.
  intros Hl Hp Hh cb hp. cbn. rewrite Hp. intros Hin Hne. destruct (Hh cb hp Hin Hne) as (fd & Hr & Hd). exists fd.
  split; [by apply (lt_calls _ _ Hl)|]. eapply heard_grows; [apply (lt_read _ _ Hl)|exact Hd].
Qed.

(** A step that calls nothing. *)
Lemma Linked_quiet (w w' : whole) :
  Linked w → later w w' → closures (px (sys w')) = closures (px (sys w)) → calls (px (sys w')) = calls (px (sys w)) →
  next_cb (px (sys w')) = next_cb (px (sys w)) → clients_heard w' → paired (forwarded (calls (px (sys w)))) (fwd w') →
  Linked w'.
Proof.
  intros [Hp Hs Hf Hh Hn Ho] Hl Hcl Hca Hnx Hh' Hp'. split; rewrite ?Hca, ?Hnx; try done.
  - intros cb c. rewrite Hcl. intros Hc%Hs. by eapply story_later.
  - intros c f Hc%Hf. by eapply served_later.
Qed.

(** A step that makes the call [x], and keeps a callback for its client. *)
Lemma Linked_call (w w' : whole) x :
  Linked w → later w w' → calls (px (sys w')) = calls (px (sys w)) ++ [x] →
  Parser.calls (world (par w')) = Parser.calls (world (par w)) →
  (∀ cb c, closures (px (sys w')) !! cb = Some c → closures (px (sys w)) !! cb = Some c ∨ story w' cb c) →
  (∀ c f, x = ForwardCall c f → served w' c f) →
  next_cb (px (sys w)) ≤ next_cb (px (sys w')) →
  (∀ cb, cb_of_call x = Some cb → cb = next_cb (px (sys w)) ∧ cb < next_cb (px (sys w'))) →
  paired (forwarded (calls (px (sys w')))) (fwd w') → Linked w'.
Proof.
  intros [Hp Hs Hf Hh Hn Ho] Hl Hca Hpc Hcl Hx Hle Hr Hp'. split; [done|..]; rewrite ?Hca.
  - intros cb c [Hc%Hs|?]%Hcl; [by eapply story_later|done].
  - intros c f [Hc%Hf|<-%list_elem_of_singleton]%elem_of_app; [by eapply served_later|by apply Hx].
  - by eapply heard_later.
  - intros y cb [Hc| ->%list_elem_of_singleton]%elem_of_app Hy; [specialize (Hn _ _ Hc Hy); lia|by apply Hr].
  - intros y z cb [Hc|Hc%list_elem_of_singleton]%elem_of_app [Hc'|Hc'%list_elem_of_singleton]%elem_of_app Hy Hz.
    + by eapply Ho.
    + subst z. apply Hr in Hz as [-> _]. specialize (Hn _ _ Hc Hy). lia.
    + subst y. apply Hr in Hy as [-> _]. specialize (Hn _ _ Hc' Hz). lia.
    + congruence.
Qed.

(** A callback that runs, to leave [p'], and what the component does that it calls. *)
Lemma outcome_Linked (w w' : whole) cb c v p' :
  Linked w → later w w' → Parser.calls (world (par w')) = Parser.calls (world (par w)) →
  closures (px (sys w)) !! cb = Some c → fits c v →
  outcome_of (allowed_ports opt) cb (closure_fd c) v (px (sys w)) p' →
  closures (px (sys w')) = closures p' → calls (px (sys w')) = calls p' → next_cb (px (sys w')) = next_cb p' →
  (∀ hp, v = Parsed hp → (cb, hp) ∈ Parser.calls (world (par w'))) →
  (∀ a, v = Resolved (Some a) → (cb, Some a) ∈ called (resolver (sys w'))) →
  (∀ f, v = Connected f → (cb, f) ∈ connected (world (con w'))) →
  paired (forwarded (calls (px (sys w')))) (fwd w') → Linked w'.
Proof.
  intros HL Hl Hpc Hc Hv Hout Hcl' Hca' Hnx' Hpa Hre Hco Hp'. pose proof (story_later _ _ _ _ Hl (ln_story _ HL _ _ Hc)) as Hst.
  assert (∀ x, calls p' = calls (px (sys w)) ++ [x] → x ∈ calls (px (sys w'))) as Hin.
  { intros x Hx. rewrite Hca', Hx. apply elem_of_app. right. by left. }
  destruct Hout as [_ Hcl Hn Hca _|hp -> Hne Hal Hs|a -> Hs|f -> Hpos Hs]; [|rewrite Hs in *..]; cbn in Hcl', Hca', Hnx', Hin.
  - eapply (Linked_call w w'); [done|done|by rewrite Hca', Hca|done| |done|lia|done|done].
    intros i d. rewrite Hcl', Hcl. intros [_ ?]%lookup_delete_Some. by left.
  - destruct c as [fd| |]; try done. eapply (Linked_call w w'); [done|done|done|done| |done|lia| |done].
    + intros i d. rewrite Hcl'. intros [[<- <-]|[_ [_ ?]%lookup_delete_Some]]%lookup_insert_Some; [right|by left].
      exists hp, cb. split; [done|]. split; [by apply Hpa|by apply Hin].
    + intros i [= <-]. lia.
  - destruct c as [|fd fr|]; try done. destruct Hst as [hp Hst].
    eapply (Linked_call w w'); [done|done|done|done| |done|lia| |done]; [|intros i [= <-]; lia].
    intros i d. rewrite Hcl'. intros [[<- <-]|[_ [_ ?]%lookup_delete_Some]]%lookup_insert_Some; [right|by left].
    exists hp, a, cb. split; [done|]. split; [by apply Hre|by apply Hin].
  - destruct c as [| |fd]; try done. destruct Hst as (hp & a & Hst).
    eapply (Linked_call w w'); [done|done|done|done| | |lia|done|done].
    + intros i d. rewrite Hcl'. intros [_ ?]%lookup_delete_Some. by left.
    + intros x y [= <- <-]. exists hp, a, cb. split; [done|by apply Hco].
Qed.

(** ** Steps *)
(** What a callback calls. *)
Lemma outcome_called cb fd v (p p' : Proxy (K := K)) :
  outcome_of (allowed_ports opt) cb fd v p p' → ∃ c, calls p' = calls p ++ [c].
Proof. by intros [_ _ _ -> _|hp -> _ _ ->|a -> ->|sfd -> _ ->]; eexists. Qed.

(** The results of the connector stay, whatever it is asked, and it reads nothing. *)
Lemma connects_post (w : whole) c' cb x p' s' :
  WInv w → dns_step (dns_opt opt) min_lvl (resolver (sys w)) c' → accepted c' = accepted (resolver (sys w)) →
  called c' = called (resolver (sys w)) ++ [(cb, x)] →
  run_callback min_lvl (allowed_ports opt) cb (Resolved x) (px (sys w)) = Done (tt, p') →
  connects min_lvl (calls p') (load_con (kernel p') (con w)) s' →
  (∀ r, r ∈ connected (world (con w)) → r ∈ connected (world s')) ∧ unread (kernel p') (net (world s')).
Proof.
  intros HW Hs Ha Hc Hr Hcon. unfold connects in Hcon. destruct (last (calls p')) as [[]|] eqn:Hl; try (by subst s').
  destruct Hcon as (t & q & c & Ht & Hq & Hs' & ->).
  destruct (resolved_connects min_lvl opt listen_fd w c' cb x p' addr cb0 HW Hs Ha Hc Hr Hl) as (fd & -> & Hi & _ & Hip & Hfam & _ & _).
  assert (wp (Connect min_lvl q addr cb0) (λ _ c, connect_post (conn_asked (calls (px (sys w)))) cb0 (load_con (kern w) (con w))
    (as_thread (loop_ (con w)) c) q) (as_thread t (load_con (kern w) (con w)))) as Hwp.
  { eapply (Connect_ok vector_capacity min_lvl _ _ (load_con (kern w) (con w)) t); [exact (cp_ok _ (con w) (wi_con _ _ _ HW))|done|done| | |done|done].
    - apply (others_opened opt listen_fd w); [done|]. apply elem_of_others. left. right. by left.
    - intros Hn%(cp_names _ _ (wi_con _ _ _ HW)). lia. }
  cbn [Hcproxy.kernel] in Hs'. unfold wp in Hwp. rewrite Hs' in Hwp.
  destruct Hwp as (_ & _ & _ & _ & Hun & Hcn). split; [|exact Hun].
  intros r Hin. destruct Hcn as [[Hcn _]|[Hcn _]]; cbn in Hcn |- *; rewrite Hcn; [apply elem_of_app; by left|done].
Qed.

Lemma forwards_paired L (s s' : EventLoop.St LinkEventHandler K EK PF) cs :
  paired L s → forwards opt cs s s' → (∀ c f, last cs = Some (ForwardCall c f) → (c, f) ∈ L) → paired L s'.
Proof.
  intros HL Hf Hin. unfold forwards in Hf. destruct (last cs) as [[]|]; try by subst s'.
  destruct Hf as (t & d & Ht & Hd & ->). destruct HL as [Hp Hq]. specialize (Hin _ _ eq_refl).
  destruct (Forward_Done _ _ _ _ _ _ Ht Hd) as [Hh Hpe].
  split; [|cbn; rewrite Hpe; intros cf [?| ->%list_elem_of_singleton]%elem_of_app; auto].
  intros x y hx hy (Hx & Hy & Hr). cbn in Hx, Hy. rewrite Hh in Hx, Hy. by apply (Hp x y).
Qed.

(** A turn of the parser's loop. *)
Lemma parser_turn_Linked (w : whole) s' :
  WInv w → Linked w → turn_env vector_capacity (load_par (kern w) (par w)) → turns ParserTurn (load_par (kern w) (par w)) s' →
  Linked (mkWhole (set_kern (sockets (world s')) (sys w)) s' (con w) (fwd w)).
Proof.
  intros HW HL He Hs'. destruct (parser_turn_part min_lvl vector_capacity _ _ _ (wi_par _ _ _ HW) He Hs') as (_ & _ & _ & _ & [new Hnew] & Hg).
  assert (all_heard (λ fd cb, ParseRequest fd cb ∈ calls (px (sys w))) s') as [_ Hh].
  { eapply (parser_turn_heard _ min_lvl vector_capacity); [exact (pp_ok _ _ (wi_par _ _ _ HW))|done| |done].
    split; [|exact (ln_heard _ HL)]. intros q h Hq. exact (ln_story _ HL _ _ (pp_handlers _ _ (wi_par _ _ _ HW) q h Hq)). }
  eapply (Linked_quiet w); try done; [|by apply HL]. split; try done. intros y ?. change (y ∈ Parser.calls (world s')).
  rewrite Hnew. apply elem_of_app. by left.
Qed.

Lemma step_Linked (w w' : whole) :
  opt_ok (forwarder_opt opt) → 0 < max_request_size_bytes (parser_opt opt) → WInv w → whole_step w w' → Linked w → Linked w'.
Proof.
  intros Hopt Hmax HW Hstep HL. pose proof (ln_paired _ HL) as Hpd. pose proof (sv_px _ _ _ (wi_sys _ _ _ HW)) as HP.
  assert (∀ cs x, cs = calls (px (sys w)) ++ [x] → paired (forwarded cs) (fwd w)) as Hpx.
  { intros cs x ->. eapply paired_mono; [|exact Hpd]. intros [a f]. rewrite !elem_of_forwarded, elem_of_app. by left. }
  destruct Hstep as [w fuel e out fd lg p' t q s' Ha Hr Ht Hq Hs'|w s' He Hs'
    |w cb fd hp p' Hin Hcb Hr|w c' Hs Ha Hc|w c' cb x p' s' Hs Ha Hc Hr Hcon|w s' He Hs'
    |w cb fd sfd p' s' Hin Hcb Hr Hf|w s' He Hs'|w fr Hret|w k S cp cc cf Hel Hun HS Hcp Hcc Hcf].
  - destruct (whole_accept_wp min_lvl vector_capacity _ _ _ _ _ w fuel e out fd lg t q Hmax HW Ha Ht Hq) as (p2 & Hr2 & Hwp).
    rewrite Hr in Hr2. injection Hr2 as <-. unfold wp in Hwp. rewrite Hs' in Hwp. destruct Hwp as [_ Hpc]. injection Hr as <-.
    destruct (Accept_os _ _ _ _ _ _ _ _ _ Ha) as (_ & _ & _ & _ & _ & Hun).
    eapply (Linked_call w); [done| |done|exact Hpc| |done|cbn; lia|intros i [= <-]; cbn; lia|by eapply Hpx].
    + split; try done; [|by cbn; rewrite Hpc|by apply unread_grows]. intros y ?. apply elem_of_app. by left.
    + intros i d. cbn. intros [[<- <-]|[_ ?]]%lookup_insert_Some; [right|by left]. apply elem_of_app. right. by left.
  - by apply parser_turn_Linked.
  - pose proof (run_callback_outcome _ _ _ _ _ (Parsed hp) _ HP Hcb I Hr) as Hout.
    destruct (outcome_called _ _ _ _ _ Hout) as [x Hca].
    eapply (outcome_Linked w _ _ _ (Parsed hp) p'); [done| |done|done|exact I|exact Hout|done|done|done|by intros ? [= <-]|done|done|by eapply Hpx].
    destruct (run_callback_kernel min_lvl opt _ _ _ _ _ Hcb Hr) as [_ Hun].
    split; try done; [by intros y; eapply outcome_calls| |by apply unread_grows].
    intros y. cbn. unfold after_calls_of. by destruct (last _) as [[]|].
  - eapply (Linked_quiet w); try done; [|by apply HL]. split; try done. intros y. cbn. by rewrite Hc.
  - destruct (called_pending min_lvl _ _ _ _ _ _ (wi_sys _ _ _ HW) Hs Ha Hc) as (_ & _ & fd & fr & Hcb & Hv).
    pose proof (run_callback_outcome _ _ _ _ _ _ _ HP Hcb Hv Hr) as Hout. destruct (outcome_called _ _ _ _ _ Hout) as [y Hca].
    eapply (outcome_Linked w _ _ _ _ p'); [done| |done|done|exact Hv|exact Hout|done|done|done|done| |done|].
    + split; try done.
      * intros z ?. change (z ∈ calls p'). by eapply outcome_calls.
      * intros z ?. cbn. rewrite Hc. apply elem_of_app. by left.
      * by eapply connects_post.
      * etransitivity; [apply unread_grows, (run_callback_kernel min_lvl opt _ _ _ _ _ Hcb Hr)|].
        by eapply unread_grows, connects_post.
    + intros a [= ->]. cbn. rewrite Hc. apply elem_of_app. right. by left.
    + by eapply Hpx.
  - destruct (connector_turn_part vector_capacity _ _ _ (wi_con _ _ _ HW) He Hs') as (_ & _ & _ & Hun & [new Hnew] & _).
    assert (later w (mkWhole (set_kern (net (world s')) (sys w)) (par w) s' (fwd w))) as Hl.
    { split; try done; [|by apply unread_grows]. intros y ?. change (y ∈ connected (world s')).
    rewrite Hnew. apply elem_of_app. by left. }
    eapply (Linked_quiet w); try done. apply (heard_later w); [done|done|by apply HL].
  - pose proof (run_callback_outcome _ _ _ _ _ (Connected sfd) _ HP Hcb I Hr) as Hout.
    destruct (outcome_called _ _ _ _ _ Hout) as [x Hca].
    eapply (outcome_Linked w _ _ _ (Connected sfd) p'); [done| |done|done|exact I|exact Hout|done|done|done|done|done|by intros ? [= <-]|].
    + split; try done; [by intros y; eapply outcome_calls|].
      apply unread_grows, (run_callback_kernel min_lvl opt _ _ _ _ _ Hcb Hr).
    + apply (forwards_paired _ (load_fwd (kernel p') (fwd w)) _ (calls p')); [exact (Hpx _ _ Hca)|exact Hf|]. intros a f Hl. apply elem_of_forwarded. by apply last_Some_elem_of.
  - destruct (forwarder_turn_ok vector_capacity min_lvl _ _ _ _ _ Hopt (wi_fwd _ _ _ HW) He Hs') as (_ & _ & Hun).
    assert (later w (mkWhole (set_kern (world s') (sys w)) (par w) (con w) s')) as Hl by (split; try done; by apply unread_grows).
    eapply (Linked_quiet w); try done; [apply (heard_later w); [done|done|by apply HL]|].
    eapply (forwarder_turn_paired (forwarder_opt opt) min_lvl left_first vector_capacity); [done|apply (wi_fwd _ _ _ HW)|exact Hpd|done|done].
  - eapply (Linked_quiet w); try done; by apply HL.
  - assert (later w (mkWhole (set_kern k (sys w)) (set_clk cp (par w)) (set_clk cc (con w)) (set_clk cf (fwd w)))) as Hl
      by (split; try done; by apply unread_grows).
    eapply (Linked_quiet w); try done. apply (heard_later w); [done|done|by apply HL].
Qed.
End whole.
