(* ===== verification/WholeRuns.v ===== *)
(** * The runs of the whole program

    From the loops as they are constructed, in every order of the steps of
    Whole.v: the whole implements the abstract proxy of Hcproxy.v, where the
    components call back when and as they like; nobody is forgotten; every
    descriptor has one owner, and the bytes are relayed; everything that is to
    be done can be done. *)

From S2P Require Import Prelude Logging IntrusiveList Epoll EventLoop LoopTheorems Frame OneShot Sock Addr Parser Connector Buffer Forwarder ForwarderTheorems ForwarderLoop ForwarderNew ForwarderRuns Executor Dns ThreadPool PoolExecutor DnsRuns Acceptor Os SimOs Footprint Requests Pairs Hcproxy Whole WholeExample WholeInv WholeStory.

Section whole.
Context {K EK PQ PF E : Type} `{!FdKernel K, !FdLaws K, !PipeKernel K, !PipeKernelLaws K, !ReadKernel K, !ReadLaws K,
  !AcceptKernel K, !AcceptLaws K, !SockOptKernel K, !SockOptLaws K, !ConnectKernel K, !ConnectLaws K,
  !ShutdownKernel K, !ForwardLaws K, !OsLaws K} `{EpollLaws EK} `{PipeLaws PQ ptr} `{PipeLaws PF (Z * Z)} `{ExecutorLaws E}.

Context (strerror : Z → bytes) (time_str : K → bytes) (clobber : bytes → Z → Z).
Context (min_lvl : Severity) (left_first : bool) (vector_capacity : nat → nat → nat) (opt : Options) (listen_fd : Z).

Abbreviation whole := (Whole.whole (K := K) (EK := EK) (PQ := PQ) (PF := PF) (E := E)).
Abbreviation kernel := Hcproxy.kernel.
Abbreviation WInv := (WholeInv.WInv opt listen_fd).
Abbreviation whole_step := (Whole.whole_step strerror time_str clobber min_lvl left_first vector_capacity opt listen_fd).
Abbreviation sys_step := (Hcproxy.sys_step (K := K) (E := E) min_lvl (allowed_ports opt) (dns_opt opt)).
Abbreviation ParserTurn :=
  (Loop_turn parse_delete (Parser.OnEvent min_lvl) Parser.OnTimeout (add_later EPOLLIN) vector_capacity).
Abbreviation ConnTurn :=
  (Loop_turn conn_delete ConnOnEvent ConnOnTimeout (add_later EPOLLOUT) vector_capacity).
Abbreviation FwdTurn :=
  (Loop_turn link_delete (Forwarder.OnEvent min_lvl left_first) Forwarder.OnTimeout (New (forwarder_opt opt)) vector_capacity).

(** The options that the program is run with. *)
Definition options_ok : Prop := opt_ok (forwarder_opt opt) ∧ 0 < max_request_size_bytes (parser_opt opt).

(** A loop that has been constructed and has nothing to do. *)
Definition constructed {P W Q F : Type} `{Pipe Q F} (s : EventLoop.St P W EK Q) : Prop :=
  Inv (λ _, 0%Z) ∅ [] s ∧ handlers s = ∅ ∧ pending (pipe_ s) = [].

(** The program when [RunProxy] begins to accept: the three loops, the resolver
    and the listening socket have been constructed. *)
Record whole_start (w : whole) : Prop := {
  ws_sys : ∃ k e, sys w = sys_init k e ∧ ex_ok e ∧ ex_pending e = [];
  ws_par : constructed (par w) ∧ Parser.calls (world (par w)) = [];
  ws_con : constructed (con w) ∧ connected (world (con w)) = [];
  ws_fwd : constructed (fwd w);
  ws_nodup : NoDup [pipe_fd (par w); pipe_fd (con w); pipe_fd (fwd w); listen_fd];
  ws_open : ∀ fd, fd ∈ [pipe_fd (par w); pipe_fd (con w); pipe_fd (fwd w); listen_fd] →
    (0 ≤ fd)%Z ∧ fd ∈ opened (kern w) ∧ untouched fd (kern w)
}.

Lemma start_WInv w : whole_start w → WInv w.
Proof.
  intros [(k & e & Hsys & He & Hp) [(HIp & Hhp & Hpp) Hcp] [(HIc & Hhc & Hpc) Hcc] (HIf & Hhf & Hpf) Hnd Hop].
  destruct w as [s sp sc sf]. cbn in *. subst s. unfold kern in Hop. cbn in *.
  assert (client_fds (mkProxy k ∅ 0 [] ∅) = []) as Hcl by (unfold client_fds, fds_of; cbn; by rewrite map_to_list_empty).
  assert (servers ∅ sc = ∅) as Hsv by (unfold servers; by rewrite Hhc, Hcc, map_to_list_empty).
  split; cbn [sys par con fwd px sys_init].
  - apply (sys_run_SInv min_lvl (allowed_ports opt) (dns_opt opt) k e); [done..|apply rtc_refl].
  - split; cbn [calls closures next_cb Hcproxy.kernel].
    + rewrite Hpp. apply os_init; [by apply Inv_world|done|done|cbn; by rewrite Hcp].
    + by intros cb ?%elem_of_nil.
    + intros cb fd. by rewrite lookup_empty.
    + intros q h. by rewrite Hhp, lookup_empty.
  - split; cbn [calls closures next_cb Hcproxy.kernel].
    + rewrite Hpc. apply os_init; [by apply Inv_world|done|done|cbn; by rewrite Hcc].
    + by intros cb ?%elem_of_nil.
    + intros cb fd. by rewrite lookup_empty.
    + intros q h. by rewrite Hhc, lookup_empty.
    + intros cb cb' fd [(q & h & Hq & _)|(Hin & _)]; [by rewrite Hhc, lookup_empty in Hq|].
      rewrite Hcc in Hin. by apply elem_of_nil in Hin.
  - unfold kern. cbn [sys px sys_init Hcproxy.kernel].
    assert (others listen_fd (mkProxy k ∅ 0 [] ∅) sp sc = [pipe_fd sp; pipe_fd sc; listen_fd]) as ->.
    { unfold others. rewrite Hcl. cbn [closures]. by rewrite Hsv, elements_empty. }
    set (r := [pipe_fd sp; pipe_fd sc; listen_fd] : Reserved).
    assert (apart_fds (load_fwd k sf) = [pipe_fd sf; pipe_fd sp; pipe_fd sc; listen_fd]) as Hap.
    { unfold apart_fds, waiting_fds. cbn. by rewrite Hpf. }
    apply (fwd_ok_start (H9 := r)). split.
    + exists []. by apply Inv_world.
    + done.
    + rewrite Hap. assert ([pipe_fd sf; pipe_fd sp; pipe_fd sc; listen_fd] ≡ₚ [pipe_fd sp; pipe_fd sc; pipe_fd sf; listen_fd])
        as -> by solve_Permutation. done.
    + rewrite Hap. intros fd Hfd. destruct (Hop fd) as (Hpos & Ho & Hu); [set_solver|].
      split; [split; [done|by rewrite <- opened_view]| |exact Hu]. intros p h x. cbn. by rewrite Hhf, lookup_empty.
Qed.

Lemma whole_runs w0 w : options_ok → whole_start w0 → rtc whole_step w0 w → WInv w ∧ rtc sys_step (sys w0) (sys w).
Proof.
  intros [Hopt Hmax] Hs Hrun. apply start_WInv in Hs. induction Hrun as [w|w1 w2 w3 Hstep _ IH]; [by split; [|apply rtc_refl]|].
  destruct (whole_step_refines _ _ _ _ _ _ _ _ _ _ Hopt Hmax Hs Hstep) as [HW Hst].
  destruct (IH HW) as [HW3 Hst3]. split; [done|]. by etransitivity.
Qed.

Lemma whole_linked w0 w : options_ok → whole_start w0 → rtc whole_step w0 w → Linked w.
Proof.
  intros [Hopt Hmax] Hs Hrun. pose proof (start_WInv _ Hs) as HW.
  assert (Linked w0) as HL.
  { destruct Hs as [(k & e & Hsys & _) [_ Hpar] _ (_ & Hh & Hp) _ _]. split; [split|..]; unfold clients_heard; rewrite ?Hsys; cbn.
    - intros p q hp hq (Hq & _). by rewrite Hh, lookup_empty in Hq.
    - intros cf. rewrite Hp. by intros ?%elem_of_nil.
    - intros cb c. by rewrite lookup_empty.
    - by intros c f ?%elem_of_nil.
    - intros cb hp. cbn. rewrite Hpar. by intros ?%elem_of_nil.
    - by intros x cb ?%elem_of_nil.
    - by intros x y cb ?%elem_of_nil. }
  clear Hs. induction Hrun as [w|w1 w2 w3 Hstep _ IH]; [done|]. apply IH.
  - by destruct (whole_step_refines _ _ _ _ _ _ _ _ _ _ Hopt Hmax HW Hstep).
  - by eapply step_Linked.
Qed.

(** C14: Every step of the program, of whichever thread, keeps it well-formed: from
    any state in which the proxy and its resolver have their invariants, the
    handlers of the parser's and the connector's loops and the links of the
    forwarder have theirs over the one kernel, each handler's callback is one
    that the proxy keeps, and the descriptors that are not the forwarder's are
    open and distinct, to another one. *)
Theorem whole_step_well_formed w w' : options_ok → WInv w → whole_step w w' → WInv w'.
Proof. intros [Hopt Hmax] HW Hs. by destruct (whole_step_refines _ _ _ _ _ _ _ _ _ _ Hopt Hmax HW Hs). Qed.

(** C8: The whole program implements the proxy. In every run of the event loops,
    the resolver, the acceptor's loop and the callbacks over one kernel, the
    callbacks of [RunProxy] and the resolver take steps of Hcproxy.v, where the
    parser and the connector call their callbacks when and as they like: a
    callback is called once, with its client open, whatever the components do
    to the descriptors. What [proxy_serves_once] and [proxy_allowed_ports] say of the proxy holds
    of the program. *)
Theorem whole_refines_proxy w0 w :
  options_ok → whole_start w0 → rtc whole_step w0 w → rtc sys_step (sys w0) (sys w).
Proof. intros Ho Hs Hr. by apply (whole_runs w0 w). Qed.

(** C5: No client is forgotten, and none is served twice. In every reachable state
    each callback that [RunProxy] keeps for a client is one that a component
    still has to call, or has called and that is about to run: the parser has
    a handler with the client's descriptor and this callback, or its answer
    (and not both); the resolver has it pending; the connector has a handler
    with an open socket, or its result (and not both). Conversely the
    callback of every handler is kept, for the handler's client. *)
Theorem whole_clients_kept w0 w :
  options_ok → whole_start w0 → rtc whole_step w0 w →
  let kept := closures (px (sys w)) in
  (∀ cb fd, kept !! cb = Some (OnParsed fd) →
    (∃ hp, (cb, hp) ∈ Parser.calls (world (par w)) ∧ ∀ q h, handlers (par w) !! q = Some h → cb_ (sub_ h) ≠ cb) ∨
    ∃ q h, handlers (par w) !! q = Some h ∧ cb_ (sub_ h) = cb ∧ fd_ h = fd ∧ cb ∉ (Parser.calls (world (par w))).*1) ∧
  (∀ cb fd fr, kept !! cb = Some (OnResolved fd fr) → cb ∈ pending_cbs (resolver (sys w))) ∧
  (∀ cb fd, kept !! cb = Some (OnConnected fd) →
    (∃ sfd, (cb, sfd) ∈ connected (world (con w)) ∧ ∀ q h, handlers (con w) !! q = Some h → conn_cb (sub_ h) ≠ cb) ∨
    ∃ q h, handlers (con w) !! q = Some h ∧ conn_cb (sub_ h) = cb ∧ fd_ h ∈ opened (kern w) ∧
      cb ∉ (connected (world (con w))).*1) ∧
  (∀ q h, handlers (par w) !! q = Some h → kept !! cb_ (sub_ h) = Some (OnParsed (fd_ h))) ∧
  ∀ q h, handlers (con w) !! q = Some h → ∃ fd, kept !! conn_cb (sub_ h) = Some (OnConnected fd).
Proof.
  intros Ho Hs Hr. destruct (whole_runs w0 w Ho Hs Hr) as [HW _]. pose proof HW as [HI HP HC HF]. split_and!.
  - intros cb fd Hcb. destruct (pp_ok _ _ HP) as (xs & Hxs & HO). cbn in HO.
    destruct (proj1 (os_accounted _ _ _ _ _ _ _ HO cb) (pp_asked _ _ HP _ _ Hcb)) as [Hin|(q & h & [Hq _] & Hk)]; [left|right].
    + pose proof Hin as ([cb' hp] & -> & Hin')%list_elem_of_fmap. exists hp. split; [done|].
      intros q h Hq Heq. apply (pp_waiting _ _ q h HP Hq). by rewrite Heq.
    + exists q, h. split; [done|]. split; [done|]. rewrite <- Hk. split; [|by eapply pp_waiting].
      pose proof (pp_handlers _ _ HP q h Hq) as Hh. rewrite Hk, Hcb in Hh. by injection Hh.
  - intros cb fd fr Hcb. rewrite (sv_pending _ _ _ HI), (resolving_delete _ _ _ Hcb). by left.
  - intros cb fd Hcb. destruct (cp_ok _ _ HC) as (xs & Hxs & HO). cbn in HO.
    destruct (proj1 (os_accounted _ _ _ _ _ _ _ HO cb) (cp_asked _ _ HC _ _ Hcb)) as [Hin|(q & h & Hl & Hk)]; [left|right].
    + pose proof Hin as ([cb' sfd] & -> & Hin')%list_elem_of_fmap. exists sfd. split; [done|].
      intros q h Hq Heq. apply (cp_waiting _ _ q h HC Hq). by rewrite Heq.
    + pose proof Hl as [Hq _]. exists q, h. split; [done|]. split; [done|]. rewrite <- Hk. split; [|by eapply cp_waiting].
      by destruct (os_live _ _ _ _ _ _ _ HO q h Hl) as [_ ?].
  - apply HP.
  - apply HC.
Qed.

(** C7: One owner for each descriptor, and the bytes arrive. In every reachable
    state the descriptors of the loops' pipes, the listening socket, the
    clients on their way and the connector's sockets are open, no two the
    same; none of them is used by a link of the forwarder or waits in its
    queue; no two links share one; and between two links that are open, what
    each side has been given, followed by what is in its buffer, is the 200
    response (to the client) and the bytes taken from the other side, in
    order - although the parser, the connector and the callbacks open, close
    and read other descriptors of the same kernel all the time. *)
Theorem whole_relays w0 w :
  options_ok → whole_start w0 → rtc whole_step w0 w →
  let os := others listen_fd (px (sys w)) (par w) (con w) in
  NoDup (os ++ pipe_fd (fwd w) :: waiting_fds (fwd w)) ∧
  (∀ fd, fd ∈ os → (0 ≤ fd)%Z ∧ fd ∈ opened (kern w) ∧ ¬ fwd_owns (fwd w) fd) ∧
  (∀ p q hp hq r r' fd, handlers (fwd w) !! p = Some hp → handlers (fwd w) !! q = Some hq →
     uses hp r fd → uses hq r' fd → fd ∈ opened (kern w) ∧ p = q ∧ r = r') ∧
  ∀ p q hp hq, pair (fwd w) p q hp hq → open (sub_ hp) = true → open (sub_ hq) = true →
    let v := view_of (kern w) in
    bytes_at (v_given v) (fd_ hp) ++ buffered (out_ (sub_ hp)) v =
    greeting (name_ (sub_ hp)) ++ bytes_at (v_taken v) (fd_ hq).
Proof.
  intros Ho Hs Hr os. destruct (whole_runs w0 w Ho Hs Hr) as [HW _]. pose proof (wi_fwd _ _ _ HW) as HF.
  pose proof (λ fd, fwd_owns_opened _ _ fd HF) as Hown. destruct HF as (own & xs & HI & HF).
  pose proof (fw_waiting _ _ _ _ _ (fo_fwd _ _ _ HF)) as [Hnd _]. split_and!.
  - change (apart_fds (load_fwd (kern w) (fwd w))) with (apart_from os (load_fwd (kern w) (fwd w))) in Hnd.
    by rewrite apart_from_split in Hnd.
  - intros fd Hfd. destruct (others_opened _ _ w fd HW Hfd). split_and!; [done..|]. by intros [_ ?]%Hown.
  - intros p q hp hq r r' fd Hp Hq' Hu Hu'. rewrite opened_view. split.
    + by eapply (fw_uses _ _ _ _ _ (fo_fwd _ _ _ HF)).
    + by eapply (fw_unique _ _ _ _ _ (fo_fwd _ _ _ HF)).
  - apply (fo_relayed _ _ _ HF).
Qed.

(** C2: Each client gets the server that it has asked for. In every reachable
    state the two links of a connection have the sockets of one call of
    [Forward], a client's and a server's; the client had been given to the
    parser, which answered [host_port] for it, and what has been read from the
    client's socket has a part that matches the documented regular expression
    with this capture; the resolver was asked for [host_port], and answered with
    an address that [getaddrinfo] gave for that host and that port, which is an
    allowed one; the connector was asked for this address, and the server's
    socket is its result. *)
Theorem whole_connects w0 w :
  options_ok → whole_start w0 → rtc whole_step w0 w →
  ∀ p q hp hq, pair (fwd w) p q hp hq → name_ (sub_ hp) = Client →
  name_ (sub_ hq) = Server ∧ let asked := calls (px (sys w)) in
  ForwardCall (fd_ hp) (fd_ hq) ∈ asked ∧
  ∃ host_port a r host port cb1 cb2 cb3,
    ParseRequest (fd_ hp) cb1 ∈ asked ∧ (cb1, host_port) ∈ Parser.calls (world (par w)) ∧
    (∃ base req, base ++ req `prefix_of` received (kern w) (fd_ hp) ∧ matches req host_port) ∧
    ResolveCall host_port cb2 ∈ asked ∧ (cb2, Some a) ∈ called (resolver (sys w)) ∧
    ConnectCall a cb3 ∈ asked ∧ (cb3, fd_ hq) ∈ connected (world (con w)) ∧
    r ∈ answers (resolver (sys w)) ∧ a ∈ a_addrs r ∧ a_key r = host_port ∧ query host_port = Some (host, port) ∧
    (allowed_ports opt ≠ [] → (∀ p, p ∈ allowed_ports opt → NUL ∉ p) → port ∈ allowed_ports opt).
Proof.
  intros Ho Hs Hr p q hp hq Hpair Hc. destruct (whole_runs w0 w Ho Hs Hr) as [HW _].
  pose proof (wi_sys _ _ _ HW) as HI. pose proof (whole_linked w0 w Ho Hs Hr) as HL.
  pose proof (proj1 (ln_paired _ HL) p q hp hq Hpair) as Hl. unfold linked in Hl. rewrite Hc in Hl.
  destruct (name_ (sub_ hq)); [done|]. apply elem_of_forwarded in Hl. split; [done|]. split; [done|].
  destruct (ln_served _ HL _ _ Hl) as (host_port & a & cb3 & (cb2 & (cb1 & Hp & Ha & Hq) & Hca & Hco) & Hcd).
  destruct (DInv_called _ _ _ _ (sv_dns _ _ _ HI) Hca) as (_ & r & t & Hin & Hacc & Hadr & _).
  apply (sv_accepted _ _ _ HI) in Hacc. pose proof (ln_once _ HL _ _ _ Hacc Hq eq_refl eq_refl) as [= Hkey].
  destruct (sv_dns _ _ _ HI) as (_ & _ & HF). destruct (fr_answers _ _ HF r Hin) as (_ & _ & _ & [[[host port] Hqu] _] & _).
  rewrite Hkey in Hqu. destruct (pv_allowed _ _ (sv_px _ _ _ HI) _ _ Hq) as [Hne Hal].
  destruct (ln_heard _ HL _ _ Ha Hne) as (fd & Hfd & Hheard). pose proof (ln_once _ HL _ _ _ Hfd Hp eq_refl eq_refl) as [= ->].
  exists host_port, a, r, host, port, cb1, cb2, cb3. split_and!; try done. intros. by eapply allowed_port_query.
Qed.

(** *** What is to be done can be done *)

(** A callback runs to its end, and is done with. *)
Lemma callback_runs (w : whole) cb c v :
  WInv w → closures (px (sys w)) !! cb = Some c → fits c v → can_log min_lvl (px (sys w)) c v →
  ∃ p', run_callback min_lvl (allowed_ports opt) cb v (px (sys w)) = Done (tt, p') ∧ closures p' !! cb = None.
Proof.
  intros HW Hc Hv Hlog. pose proof (sv_px _ _ _ (wi_sys _ _ _ HW)) as HP.
  assert (closure_fd c ∈ opened (kernel (px (sys w)))) as Hop.
  { apply (pv_open _ _ HP). rewrite (fds_of_delete _ _ _ Hc). by left. }
  destruct (wp_Done _ _ _ (run_callback_wp min_lvl (allowed_ports opt) cb c v _ Hc Hop Hv Hlog)) as ([] & p' & Hr & Hout).
  exists p'. split; [done|]. pose proof (pv_names _ _ HP _ _ Hc) as Hlt.
  destruct Hout as [_ -> _ _ _|? _ _ _ ->|? _ ->|? _ _ ->]; cbn [closures]; rewrite ?lookup_insert_ne by lia; apply lookup_delete_eq.
Qed.

(** There is an address for a new handler, and another thread. *)
Lemma fresh_handler {P W Q} (s : EventLoop.St P W EK Q) : ∃ t q, t ≠ loop_ s ∧ handlers s !! q = None.
Proof.
  exists (loop_ s + 1)%Z, (fresh (dom (handlers s))). split; [lia|]. apply not_elem_of_dom, is_fresh.
Qed.

Lemma accept_step (w : whole) fuel e out fd lg :
  options_ok → WInv w → Accept strerror time_str clobber min_lvl fuel listen_fd (mkLog e out (kern w)) = Done (fd, lg) →
  ∃ w', whole_step w w' ∧ accepted_fds (sys w') = accepted_fds (sys w) ++ [fd].
Proof.
  intros [Hopt Hmax] HW Ha. destruct (fresh_handler (par w)) as (t & q & Ht & Hq).
  destruct (whole_accept_wp min_lvl vector_capacity _ _ _ _ _ w fuel e out fd lg t q Hmax HW Ha Ht Hq) as (p' & Hp' & ([] & s' & Hs' & _)%wp_Done).
  eexists. split; [by eapply wh_accept|done].
Qed.

Lemma parsed_step (w : whole) cb fd hp :
  WInv w → (cb, hp) ∈ Parser.calls (world (par w)) → closures (px (sys w)) !! cb = Some (OnParsed fd) →
  ∃ w', whole_step w w' ∧ closures (px (sys w')) !! cb = None.
Proof.
  intros HW Hin Hcb. destruct (callback_runs w cb _ (Parsed hp) HW Hcb I I) as (p' & Hr & Hn).
  eexists. split; [by eapply wh_parsed|done].
Qed.

Lemma resolved_step (w : whole) c' cb x :
  WInv w → dns_step (dns_opt opt) min_lvl (resolver (sys w)) c' → accepted c' = accepted (resolver (sys w)) →
  called c' = called (resolver (sys w)) ++ [(cb, x)] →
  (∀ fd fr, closures (px (sys w)) !! cb = Some (OnResolved fd fr) → can_log min_lvl (px (sys w)) (OnResolved fd fr) (Resolved x)) →
  ∃ w', whole_step w w' ∧ resolver (sys w') = c' ∧ closures (px (sys w')) !! cb = None.
Proof.
  intros HW Hs Ha Hc Hlog. destruct (called_pending min_lvl _ _ _ _ _ _ (wi_sys _ _ _ HW) Hs Ha Hc) as (_ & _ & fd & fr & Hcb & Hv).
  destruct (callback_runs w cb _ (Resolved x) HW Hcb Hv (Hlog fd fr Hcb)) as (p' & Hr & Hn).
  assert (∃ s', connects min_lvl (calls p') (load_con (kernel p') (con w)) s') as [s' Hs'].
  { unfold connects. destruct (last (calls p')) as [[]|] eqn:Hl; try by eexists.
    destruct (fresh_handler (con w)) as (t & q & Ht & Hq).
    destruct (wp_Done _ _ _ (connect_refines min_lvl vector_capacity _ _ w c' cb x p' addr cb0 t q HW Hs Ha Hc Hr Hl Ht Hq)) as ([] & d & Hd & _).
    eexists. by exists t, q, d. }
  eexists. split; [by eapply wh_resolved|done].
Qed.

Lemma connected_step (w : whole) cb fd sfd :
  WInv w → (cb, sfd) ∈ connected (world (con w)) → closures (px (sys w)) !! cb = Some (OnConnected fd) →
  ∃ w', whole_step w w' ∧ closures (px (sys w')) !! cb = None.
Proof.
  intros HW Hin Hcb. destruct (callback_runs w cb _ (Connected sfd) HW Hcb I I) as (p' & Hr & Hn).
  assert (∃ s', forwards opt (calls p') (load_fwd (kernel p') (fwd w)) s') as [s' Hs'].
  { unfold forwards. destruct (last (calls p')) as [[]|] eqn:Hl; try by eexists.
    destruct (wp_Done _ _ _ (forward_refines min_lvl vector_capacity _ _ w cb fd sfd p' client_fd server_fd (loop_ (fwd w) + 1)%Z HW Hin Hcb Hr Hl ltac:(lia)))
      as ([] & d & Hd & _).
    eexists. exists (loop_ (fwd w) + 1)%Z, d. split; [cbn; lia|done]. }
  eexists. split; [by eapply wh_connected|done].
Qed.

Lemma turns_return (w : whole) :
  options_ok → WInv w →
  (turn_env vector_capacity (load_par (kern w) (par w)) →
     ∃ s', turns ParserTurn (load_par (kern w) (par w)) s' ∧ none_expired s') ∧
  (turn_env vector_capacity (load_con (kern w) (con w)) →
     ∃ s', turns ConnTurn (load_con (kern w) (con w)) s' ∧ none_expired s') ∧
  (turn_env vector_capacity (load_fwd (kern w) (fwd w)) →
     ∃ s', turns FwdTurn (load_fwd (kern w) (fwd w)) s' ∧ none_expired s').
Proof.
  intros [Hopt _] HW. split_and!; intros He; apply Loop_turns.
  - destruct (os_turn_ok cb_ (λ w, (Parser.calls w).*1) parse_PI _ _ _ vector_capacity EPOLLIN
      (λ ks, parse_client (λ fd k, os_sockopt fd k) min_lvl ks) _ _ _ (pp_ok _ _ (wi_par _ _ _ HW)) He) as [n Hn].
    exists n. intros fuel Hf. destruct (Hn fuel Hf) as (s' & _ & ? & _ & ?). by exists s'.
  - destruct (os_turn_ok conn_cb (λ w, (connected w).*1) conn_PI _ _ _ vector_capacity EPOLLOUT connect_client
      _ _ _ (cp_ok _ _ (wi_con _ _ _ HW)) He) as [n Hn].
    exists n. intros fuel Hf. destruct (Hn fuel Hf) as (s' & _ & ? & _ & ?). by exists s'.
  - destruct (fwd_turn_ok _ min_lvl left_first vector_capacity _ Hopt (wi_fwd _ _ _ HW) He) as [n Hn].
    exists n. intros fuel Hf. destruct (Hn fuel Hf) as (s' & ? & _ & ?). by exists s'.
Qed.

(** C13: The program goes on. In every reachable state a turn of each of the three
    loops returns - no [CHECK] fails in any component, no freed handler is
    touched - and leaves no handler whose deadline has passed; a client that
    [Accept] returns is taken by the parser; and each callback that the
    parser, the resolver or the connector has called runs to its end, with
    the call of [Resolve], [Connect] or [Forward] that it makes, after which
    it is done with. The only exception is the resolver's callback without
    an address, when what its [LOG(WARN)] reads is gone. *)
Theorem whole_goes_on w0 w :
  options_ok → whole_start w0 → rtc whole_step w0 w →
  let kept w := closures (px (sys w)) in
  ((turn_env vector_capacity (load_par (kern w) (par w)) →
      ∃ s', turns ParserTurn (load_par (kern w) (par w)) s' ∧ none_expired s') ∧
   (turn_env vector_capacity (load_con (kern w) (con w)) →
      ∃ s', turns ConnTurn (load_con (kern w) (con w)) s' ∧ none_expired s') ∧
   (turn_env vector_capacity (load_fwd (kern w) (fwd w)) →
      ∃ s', turns FwdTurn (load_fwd (kern w) (fwd w)) s' ∧ none_expired s')) ∧
  (∀ fuel e out fd lg, Accept strerror time_str clobber min_lvl fuel listen_fd (mkLog e out (kern w)) = Done (fd, lg) →
    ∃ w', whole_step w w' ∧ accepted_fds (sys w') = accepted_fds (sys w) ++ [fd]) ∧
  (∀ cb fd hp, (cb, hp) ∈ Parser.calls (world (par w)) → kept w !! cb = Some (OnParsed fd) →
    ∃ w', whole_step w w' ∧ kept w' !! cb = None) ∧
  (∀ c' cb x, dns_step (dns_opt opt) min_lvl (resolver (sys w)) c' → accepted c' = accepted (resolver (sys w)) →
    called c' = called (resolver (sys w)) ++ [(cb, x)] →
    (∀ fd fr, kept w !! cb = Some (OnResolved fd fr) → can_log min_lvl (px (sys w)) (OnResolved fd fr) (Resolved x)) →
    ∃ w', whole_step w w' ∧ resolver (sys w') = c' ∧ kept w' !! cb = None) ∧
  ∀ cb fd sfd, (cb, sfd) ∈ connected (world (con w)) → kept w !! cb = Some (OnConnected fd) →
    ∃ w', whole_step w w' ∧ kept w' !! cb = None.
Proof.
  intros Ho Hs Hr kept. destruct (whole_runs w0 w Ho Hs Hr) as [HW _]. split; [by apply turns_return|]. split_and!.
  - intros. by eapply accept_step.
  - intros. by eapply parsed_step.
  - intros. by eapply resolved_step.
  - intros. by eapply connected_step.
Qed.
End whole.

(** ** The example *)
Lemma example_options : options_ok WholeExample.opt.
Proof. split; [split; split; reflexivity|]. cbn. lia. Qed.

Lemma example_start : whole_start 6 WholeExample.w0.
Proof.
  split.
  - exists WholeExample.os, DnsRunExample.e0. split; [done|apply DnsRunExample.e0_ok].
  - split; [|done]. split; [apply WholeExample.par0_ok|by vm_compute].
  - split; [|done]. split; [apply WholeExample.con0_ok|by vm_compute].
  - split; [apply WholeExample.fwd0_ok|by vm_compute].
  - apply (bool_decide_unpack _). by vm_compute.
  - intros fd Hfd. change (fd ∈ [3%Z; 4%Z; 5%Z; 6%Z]) in Hfd. apply list_elem_of_In in Hfd as [<-|[<-|[<-|[<-|[]]]]];
      (split; [done|]; split; [apply (bool_decide_unpack _); by vm_compute|by vm_compute]).
Qed.

Lemma whole_step_well_formed_witness : WInv WholeExample.opt 6 WholeExample.w1.
Proof.
  apply (whole_step_well_formed (λ _, B "error") (λ _, B "now") (λ _ _, 0%Z) INFO true (λ _ n, n) WholeExample.opt 6 WholeExample.w0).
  - exact example_options.
  - exact (start_WInv (λ _, B "error") (λ _, B "now") (λ _ _, 0%Z) INFO WholeExample.opt 6 _ example_start).
  - exact WholeExample.s1.
Defined.

Lemma whole_refines_proxy_witness :
  rtc (sys_step INFO [B "443"] dns_defaults) (sys WholeExample.w0) (sys WholeExample.w10).
Proof.
  exact (whole_refines_proxy (λ _, B "error") (λ _, B "now") (λ _ _, 0%Z) INFO true (λ _ n, n) WholeExample.opt 6
    _ _ example_options example_start WholeExample.run_relayed).
Defined.

Lemma whole_clients_kept_witness :
  closures (px (sys WholeExample.w7)) !! 2 = Some (OnConnected 7) ∧ (2, 8%Z) ∈ connected (world (con WholeExample.w7)) ∧
  ∀ q h, handlers (con WholeExample.w7) !! q = Some h → conn_cb (sub_ h) ≠ 2.
Proof.
  pose proof (whole_clients_kept (λ _, B "error") (λ _, B "now") (λ _ _, 0%Z) INFO true (λ _ n, n) WholeExample.opt 6
    _ _ example_options example_start WholeExample.run_connected) as (_ & _ & Hc & _).
  assert (closures (px (sys WholeExample.w7)) !! 2 = Some (OnConnected 7)) as Hcb by (by vm_compute).
  split; [exact Hcb|]. destruct (Hc 2 7%Z Hcb) as [(sfd & Hin & Hno)|(q & h & _ & _ & _ & Hno)].
  - split; [|exact Hno]. change (con WholeExample.w7) with WholeExample.con3. rewrite WholeExample.whole_connected. left.
  - destruct Hno. change (con WholeExample.w7) with WholeExample.con3. rewrite WholeExample.whole_connected. left.
Defined.

Lemma whole_relays_witness :
  NoDup [3%Z; 4%Z; 6%Z; 5%Z] ∧
  let v := view_of (kern WholeExample.w10) in
  ∃ hp hq, pair (fwd WholeExample.w10) 1 2 hp hq ∧
    bytes_at (v_given v) (fd_ hp) ++ buffered (out_ (sub_ hp)) v = greeting (name_ (sub_ hp)) ++ bytes_at (v_taken v) (fd_ hq).
Proof.
  destruct (whole_relays (λ _, B "error") (λ _, B "now") (λ _ _, 0%Z) INFO true (λ _ n, n) WholeExample.opt 6
    _ _ example_options example_start WholeExample.run_relayed) as (Hnd & _ & _ & Hr).
  split; [exact Hnd|]. destruct WholeExample.link_pair as (hp & hq & Hp & _ & _ & _ & Ho & Ho').
  exists hp, hq. split; [exact Hp|]. exact (Hr _ _ _ _ Hp Ho Ho').
Defined.

Lemma whole_connects_witness :
  ForwardCall 7 8 ∈ calls (px (sys WholeExample.w10)).
Proof.
  destruct WholeExample.link_pair as (hp & hq & Hp & Hc & Hf & Hf' & _).
  destruct (whole_connects (λ _, B "error") (λ _, B "now") (λ _ _, 0%Z) INFO true (λ _ n, n) WholeExample.opt 6
    _ _ example_options example_start WholeExample.run_relayed _ _ _ _ Hp Hc) as (_ & Hfc & _).
  rewrite Hf, Hf' in Hfc. exact Hfc.
Defined.

Lemma whole_goes_on_witness :
  (∃ w', whole_step (λ _, B "error") (λ _, B "now") (λ _ _, 0%Z) INFO true (λ _ n, n) WholeExample.opt 6 WholeExample.w7 w' ∧
    closures (px (sys w')) !! 2 = None).
Proof.
  destruct (whole_goes_on (λ _, B "error") (λ _, B "now") (λ _ _, 0%Z) INFO true (λ _ n, n) WholeExample.opt 6
    _ _ example_options example_start WholeExample.run_connected) as (_ & _ & _ & _ & Hc).
  apply (Hc 2 7%Z 8%Z).
  - change (con WholeExample.w7) with WholeExample.con3. rewrite WholeExample.whole_connected. left.
  - vm_compute. reflexivity.
Defined.
