(* ===== verification/Main.v ===== *)
(** * main, and the program's start (hcproxy.cc, event_loop.cc, epoll.cc)

    [main] and [RunProxy]: the limits, the acceptor's constructor and the event
    loops with their pipes, up to the state in which the runs of WholeRuns.v
    begin; and the loop that accepts clients, which does not end. *)

From S2P Require Import Prelude Logging IntrusiveList Epoll EventLoop LoopTheorems Frame OneShot Sock Addr Parser Connector Buffer Forwarder ForwarderTheorems ForwarderLoop ForwarderNew ForwarderRuns Executor Dns ThreadPool PoolExecutor DnsRuns Acceptor Os SimOs Footprint Hcproxy Whole WholeExample WholeInv WholeRuns.

(** pipe2(2) with [O_DIRECT], fcntl(2) with [F_GETFL] and [F_SETFL],
    epoll_create1(2). *)
Class StartKernel (K : Type) := {
  pipe2_direct : K → (Z * Z + Z) * K;
  fcntl_getfl : Z → K → Z * K;
  fcntl_setfl : Z → Z → K → bool * K;
  epoll_create1 : K → (Z + Z) * K
}.
Definition O_DIRECT : Z := 0x4000.

(** A new descriptor, and what was there before as it was. *)
Definition new_fd {K} `{!FdKernel K, !PipeKernel K, !ReadKernel K} (fd : Z) (k k' : K) : Prop :=
  (0 ≤ fd)%Z ∧ fd ∉ opened k ∧ opened k' = {[fd]} ∪ opened k ∧ new_socket fd k k'.

Class StartLaws (K : Type) `{!FdKernel K, !PipeKernel K, !ReadKernel K, !AcceptKernel K, !LimitKernel K, !StartKernel K} := {
  sl_sigpipe : ∀ k : K, still k (ignore_sigpipe k);
  sl_getrlimit : ∀ k : K, still k (getrlimit k).2;
  sl_setrlimit : ∀ lim (k : K), still k (setrlimit lim k).2;
  sl_listen_socket : ∀ family (k : K) fd k', listen_socket family k = (inl fd, k') → new_fd fd k k';
  sl_reuseaddr : ∀ fd (k : K), still k (set_reuseaddr fd k).2;
  sl_bind : ∀ fd a (k : K), still k (sys_bind fd a k).2;
  sl_listen : ∀ fd n (k : K), still k (sys_listen fd n k).2;
  sl_pipe2 : ∀ (k : K) r w k', pipe2_direct k = (inl (r, w), k') →
    (0 ≤ r)%Z ∧ (0 ≤ w)%Z ∧ r ≠ w ∧ r ∉ v_opened (view_of k) ∧ w ∉ v_opened (view_of k) ∧ view_of k' = with_pipe r w (view_of k);
  sl_pipe2_err : ∀ (k : K) e k', pipe2_direct k = (inr e, k') → still k k';
  sl_getfl : ∀ fd (k : K), still k (fcntl_getfl fd k).2;
  sl_setfl : ∀ fd fl (k : K), still k (fcntl_setfl fd fl k).2;
  sl_epoll : ∀ (k : K) fd k', epoll_create1 k = (inl fd, k') → new_fd fd k k'
}.

Section start.
Context {K EK PQ PF E : Type} `{!FdKernel K, !FdLaws K, !PipeKernel K, !PipeKernelLaws K, !ReadKernel K, !ReadLaws K,
  !AcceptKernel K, !AcceptLaws K, !SockOptKernel K, !SockOptLaws K, !ConnectKernel K, !ConnectLaws K,
  !ShutdownKernel K, !ForwardLaws K, !OsLaws K, !LimitKernel K, !StartKernel K, !StartLaws K}
  `{EpollLaws EK} `{PipeLaws PQ ptr} `{PipeLaws PF (Z * Z)} `{ExecutorLaws E}.
Context (strerror : Z → bytes) (time_str : K → bytes) (clobber : bytes → Z → Z) (min_lvl : Severity) (opt : Options).
Context (gai : bytes → bytes → option (list addrinfo)) `{!AddrInfoLaws gai}.

Abbreviation whole := (Whole.whole (K := K) (EK := EK) (PQ := PQ) (PF := PF) (E := E)).
Abbreviation kernel := Hcproxy.kernel.
Abbreviation St := (log_state (W := K)).

(** ** The constructors *)

(** event_loop.cc: [AddFlags]; a failure of [F_GETFL] is not looked at. *)
Definition AddFlags (fd flags : Z) : M K unit :=
  fl ← (λ k, Done (fcntl_getfl fd k));
  ok ← (λ k, Done (fcntl_setfl fd (Z.lor flags fl) k));
  CHECK "fcntl(fd, F_SETFL, flags) == 0" ok.

(** event_loop.cc: the pipe of [EventLoop::EventLoop]. *)
Definition loop_pipe : M K (Z * Z) :=
  r ← (λ k, Done (pipe2_direct k));
  match r with
  | inl fds => mret fds
  | inr _ =>
      r ← (λ k, Done (sys_pipe k));
      match r with
      | inr _ => abort "pipe(pipe_) == 0"
      | inl (r, w) => AddFlags r O_DIRECT ;; AddFlags w O_DIRECT ;; mret (r, w)
      end
  end.

(** A constructor works on its new object. *)
Definition construct {S T} (m : M T unit) (t : T) : M S T := λ s,
  match m t with Done (_, t') => Done (t', s) | Abort why => Abort why | UB why => UB why | NoFuel => NoFuel end.

(** event_loop.cc: [EventLoop::EventLoop], with the constructor of [epoll_]
    (epoll.cc) before it; [tid] is the loop's thread. *)
Definition new_loop {P W Q F} `{Pipe Q F} (timeout : Duration) (tid : Z) (w : W) (ek : EK) (q : Q) (c : clock) :
    M St (EventLoop.St P W EK Q) :=
  r ← on_kernel (λ k, Done (epoll_create1 k));
  match r with
  | inr _ => abort "(epoll_ = epoll_create1(0)) >= 0"
  | inl _ =>
      CHECK "timeout_ > Duration::zero()" (0 <? timeout)%Z ;;
      fds ← on_kernel loop_pipe;
      construct (EventLoop_new timeout tid) (mkSt ∅ (mkL ∅ list_new) (EPoll_new ek) c q fds.1 tid tid 0 w)
  end.

(** The threads of the three loops, their epoll instances and pipes as the
    system makes them, the clock, and the threads of the resolver. *)
Context (tid : nat → Z) (ek : EK) (pq : PQ) (pf : PF) (c : clock) (e : E).

(** hcproxy.cc: [RunProxy] up to its loop: the listening socket, and the program. *)
Definition RunProxy_start : M St (Z * whole) :=
  on_kernel (RunProxy_limits (max_num_open_files opt)) ;;
  lfd ← Acceptor_new strerror time_str clobber min_lvl gai (acceptor_opt opt);
  k ← gets rest;
  p ← new_loop (accept_timeout (parser_opt opt)) (tid 0) (mkPW k []) ek pq c;
  k ← gets rest;
  n ← new_loop connect_timeout (tid 1) (mkCW k []) ek pq c;
  k ← gets rest;
  f ← new_loop read_write_timeout (tid 2) k ek pf c;
  k ← gets rest;
  mret (lfd, mkWhole (sys_init k e) p n f).
(** hcproxy.cc: the loop of [RunProxy]; before each turn the other threads have
    changed what they share with this one, as [others] says. The body is what
    [wh_accept] does. *)
Fixpoint RunProxy_loop (others : nat → Proxy (K := K) → Proxy (K := K)) (fuel : nat) (lfd : Z) : M (log_state (W := Proxy (K := K))) unit :=
  match fuel with
  | 0 => no_fuel
  | S fuel =>
      modify (λ s, mkLog (errno s) (stderr s) (others fuel (rest s))) ;;
      client_fd ← zoom (λ s, mkLog (errno s) (stderr s) (kernel (rest s)))
                       (λ l s, mkLog (errno l) (stderr l) (set_kernel (rest l) (rest s)))
                       (Accept strerror time_str clobber min_lvl fuel lfd);
      zoom rest (λ p s, mkLog (errno s) (stderr s) p) (on_accept client_fd) ;;
      RunProxy_loop others fuel lfd
  end.

(** A program of the thread of [RunProxy], from the proxy's state [p] on. *)
Definition from_proxy (m : M (log_state (W := Proxy (K := K))) unit) (p : Proxy (K := K)) : M St unit := λ s,
  match m (mkLog (errno s) (stderr s) p) with
  | Done (_, s') => Done (tt, mkLog (errno s') (stderr s') (kernel (rest s')))
  | Abort why => Abort why | UB why => UB why | NoFuel => NoFuel
  end.

Definition RunProxy (others : nat → Proxy (K := K) → Proxy (K := K)) (fuel : nat) : M St unit :=
  w ← RunProxy_start;
  from_proxy (RunProxy_loop others fuel w.1) (px (sys w.2)).

(** hcproxy.cc: [main]; the status that it returns. *)
Definition usage (argv0 file : bytes) : bytes :=
  B "Usage: " ++ argv0 ++ [LF; LF] ++ B "To customize, modify `opt` in `main()` (defined in " ++ file ++ B ")" ++
  B " and recompile." ++ [LF].

Definition main (file : bytes) (others : nat → Proxy (K := K) → Proxy (K := K)) (fuel : nat) (argv : list bytes) : M St Z :=
  if negb (length argv =? 1) then
    argv0 ← deref "argv[0]" (λ _, argv !! 0);
    modify (λ s, mkLog (errno s) (stderr s ++ usage (c_str argv0) file) (rest s)) ;;
    mret 1%Z
  else
    RunProxy others fuel ;;
    LOG strerror time_str clobber min_lvl FATAL file 114 [Text (B "RunProxy is not supposed to return")] ;;
    mret 1%Z.

(** ** The start *)

(** No descriptor has been read or written; these are open. *)
Definition clean (k : K) : Prop := ∀ fd, untouched fd k.
Definition ready (l : list Z) (k : K) : Prop := clean k ∧ NoDup l ∧ ∀ fd, fd ∈ l → (0 ≤ fd)%Z ∧ fd ∈ opened k.

Lemma still_opened k k' : still k k' → opened k' = opened k.
Proof. intros [Hv _]. by rewrite !opened_view, Hv. Qed.
Lemma ready_still l k k' : still k k' → ready l k → ready l k'.
Proof.
  intros Hst (Hc & Hn & Ho). split; [intros fd; by eapply still_untouched|]. split; [done|]. by rewrite (still_opened _ _ Hst).
Qed.
Lemma ready_new l k fd k' : new_fd fd k k' → ready l k → ready (l ++ [fd]) k'.
Proof.
  intros (Hpos & Hnew & Hop & Hag & Hun & _) (Hc & Hn & Ho). split_and!.
  - intros x. destruct (decide (x = fd)) as [->|Hne]; [done|]. apply (elsewhere_untouched {[fd]} k); [by apply agree_elsewhere|set_solver|apply Hc].
  - apply NoDup_app. split; [done|]. split; [|by apply NoDup_singleton]. intros x Hx ->%list_elem_of_singleton. by destruct (Ho fd Hx).
  - intros x [Hx| ->%list_elem_of_singleton]%elem_of_app; rewrite Hop; [destruct (Ho x Hx)|]; set_solver.
Qed.
Lemma ready_pipe l k k' r w :
  (0 ≤ r)%Z → r ∉ v_opened (view_of k) → view_of k' = with_pipe r w (view_of k) → ready l k → ready (l ++ [r]) k'.
Proof.
  intros Hpos Hnew Hv (Hc & Hn & Ho). setoid_rewrite opened_view in Ho. unfold ready. setoid_rewrite opened_view. split_and!.
  - intros x. destruct (Hc x). unfold untouched. by rewrite Hv.
  - apply NoDup_app. split; [done|]. split; [|by apply NoDup_singleton]. intros x Hx ->%list_elem_of_singleton. by destruct (Ho r Hx).
  - intros x [Hx| ->%list_elem_of_singleton]%elem_of_app; rewrite Hv; [destruct (Ho x Hx)|]; set_solver.
Qed.
Lemma ready_drop l k x : ready (l ++ [x]) k → ready l k.
Proof. intros (Hc & [? _]%NoDup_app & Ho). split_and!; [done..|]. intros fd Hfd. apply Ho, elem_of_app. by left. Qed.

(** A call that leaves the kernel as it was. *)
Lemma safe_still {A} (f : K → A * K) l (Q : A → K → Prop) k :
  still k (f k).2 → ready l k → (∀ a k', ready l k' → Q a k') → safe (λ k, Done (f k)) Q k.
Proof. intros Hst Hl HQ. unfold safe. destruct (f k) as [a k']. by eapply HQ, ready_still. Qed.

Lemma safe_on_kernel {A} (m : M K A) Q (s : St) :
  safe m (λ a k, Q a (mkLog (errno s) (stderr s) k)) (rest s) → safe (on_kernel m) Q s.
Proof. unfold safe, on_kernel, zoom. by destruct (m (rest s)) as [[a k]| | |]. Qed.

Lemma RunProxy_limits_safe n l Q k : ready l k → (∀ k', ready l k' → Q tt k') → safe (RunProxy_limits n) Q k.
Proof.
  intros Hl HQ. unfold RunProxy_limits. apply safe_bind, safe_modify.
  assert (ready l (ignore_sigpipe k)) as Hl1 by (eapply ready_still; [apply sl_sigpipe|done]).
  apply safe_when; intros _; [|by apply HQ]. apply safe_bind. eapply safe_still; [apply sl_getrlimit|exact Hl1|].
  intros [[soft hard]|] k1 Hk1; [|done]. apply safe_bind. eapply safe_still; [apply sl_setrlimit|exact Hk1|].
  intros ok k2 Hk2. apply safe_CHECK. intros _. by apply HQ.
Qed.

Lemma check_safe line cond text Q (s : St) :
  (cond = true → Q tt s) → safe (check strerror time_str clobber min_lvl line cond text) Q s.
Proof. intros HQ. unfold safe, check. rewrite CHECK_LOG_plain by done. destruct cond; [by apply HQ|done]. Qed.

(** A step of the acceptor's constructor. *)
Lemma sock_safe {A} (f : K → A * K) (cond : A → bool) line text l Q (s : St) :
  still (rest s) (f (rest s)).2 → ready l (rest s) → (∀ s', ready l (rest s') → Q tt s') →
  safe (ok ← on_kernel (λ k, Done (f k)); check strerror time_str clobber min_lvl line (cond ok) text) Q s.
Proof.
  intros Hst Hl HQ. apply safe_bind, safe_on_kernel. eapply safe_still; [exact Hst|exact Hl|]. intros a k' Hk'.
  apply check_safe. intros _. by apply HQ.
Qed.

Lemma Acceptor_new_safe l Q (s : St) :
  ready l (rest s) → (∀ fd s', ready (l ++ [fd]) (rest s') → Q fd s') →
  safe (Acceptor_new strerror time_str clobber min_lvl gai (acceptor_opt opt)) Q s.
Proof.
  intros Hl HQ. unfold Acceptor_new, Resolve_listen. apply safe_bind. destruct (gai _ _) as [xs|] eqn:Hg; [|done].
  pose proof (addrs_some _ _ _ Hg) as Hne. pose proof (addrs_ipv4 _ _ _ Hg) as Hall.
  destruct xs as [|x xs]; [done|]. apply Forall_cons in Hall as [[Hip Hfam] _]. pose proof Hip as (a & Ha & Hfa).
  apply safe_bind, safe_wp. eapply wp_deref; [done|]. apply safe_bind, safe_wp. eapply wp_deref; [done|].
  apply safe_bind, safe_CHECK. intros _. apply safe_ret.
  apply safe_bind, safe_wp, IpPort_wp; [done|]. intros a' _. apply safe_bind, safe_wp, log_plain; [done..|]. intros out.
  apply safe_bind, safe_on_kernel. unfold safe at 1. cbn [rest errno stderr].
  destruct (listen_socket (ai_family x) (rest s)) as [[fd|err] k] eqn:Hs; [|done].
  pose proof (ready_new _ _ _ _ (sl_listen_socket _ _ _ _ Hs) Hl) as Hk.
  apply safe_bind. unfold SetSockOpt. eapply (sock_safe (set_reuseaddr fd) id); [apply sl_reuseaddr|exact Hk|]. intros s1 H1'.
  apply safe_bind, safe_on_kernel. eapply safe_still; [apply sl_bind|exact H1'|]. intros ok2 k2 H2'. apply safe_bind, check_safe. intros _.
  apply safe_bind, safe_on_kernel. eapply safe_still; [apply sl_listen|exact H2'|]. intros ok3 k3 H3'. apply safe_bind, check_safe. intros _.
  by apply HQ.
Qed.

Lemma AddFlags_safe fd fl l Q k : ready l k → (∀ k', ready l k' → Q tt k') → safe (AddFlags fd fl) Q k.
Proof.
  intros Hl HQ. unfold AddFlags. apply safe_bind. eapply safe_still; [apply sl_getfl|exact Hl|]. intros fl' k1 Hk1.
  apply safe_bind. eapply safe_still; [apply sl_setfl|exact Hk1|]. intros ok k2 Hk2. apply safe_CHECK. intros _. by apply HQ.
Qed.

Lemma loop_pipe_safe l Q k : ready l k → (∀ fds k', ready (l ++ [fds.1]) k' → Q fds k') → safe loop_pipe Q k.
Proof.
  intros Hl HQ. unfold loop_pipe. apply safe_bind. unfold safe at 1.
  destruct (pipe2_direct k) as [[[r w]|err] k1] eqn:Hp.
  { destruct (sl_pipe2 _ _ _ _ Hp) as (Hr & _ & _ & Hnew & _ & Hv). apply safe_ret, HQ. by eapply ready_pipe. }
  pose proof (ready_still _ _ _ (sl_pipe2_err _ _ _ Hp) Hl) as Hk1. apply safe_bind. unfold safe at 1.
  destruct (sys_pipe k1) as [[[r w]|err'] k2] eqn:Hp2; [|done].
  destruct (pipe_made _ _ _ _ Hp2) as (Hr & _ & _ & Hnew & _ & Hv).
  pose proof (ready_pipe _ _ _ _ _ Hr Hnew Hv Hk1) as Hk2.
  apply safe_bind. eapply AddFlags_safe; [exact Hk2|]. intros k3 Hk3. apply safe_bind. eapply AddFlags_safe; [exact Hk3|].
  intros k4 Hk4. by apply safe_ret, HQ.
Qed.

#[local] Instance pipe_fd_preorder {P W Q} : PreOrder (λ s s' : EventLoop.St P W EK Q, pipe_fd s' = pipe_fd s).
Proof. split; [done|]. intros s1 s2 s3 ? ?. congruence. Qed.
Lemma EventLoop_new_pipe {P W Q F} `{Pipe Q F} timeout t :
  Stable (λ s s' : EventLoop.St P W EK Q, pipe_fd s' = pipe_fd s) (EventLoop_new timeout t).
Proof.
  unfold EventLoop_new. apply stable_bind; [apply _|apply _|]. intros _. apply stable_bind; [apply _|apply _|]. intros fd.
  apply stable_bind; [apply _| |intros _; by apply stable_modify]. unfold on_epoll. eapply (stable_zoom _ (λ _ _, True)); by intros.
Qed.

(** A loop is constructed, with a descriptor of its own. *)
Lemma new_loop_safe {P W PQ' F : Type} `{Pipe PQ' F} timeout t (w : W) (q : PQ') l Q (s : St) :
  interest ek = ∅ → pending q = [] → ready l (rest s) →
  (∀ (st : EventLoop.St P W EK PQ') s', constructed st → world st = w → ready (l ++ [pipe_fd st]) (rest s') → Q st s') →
  safe (new_loop timeout t w ek q c) Q s.
Proof.
  intros Hek Hq Hl HQ. unfold new_loop. apply safe_bind, safe_on_kernel. unfold safe at 1.
  destruct (epoll_create1 (rest s)) as [[efd|err] k] eqn:He; [|done].
  pose proof (ready_drop _ _ _ (ready_new _ _ _ _ (sl_epoll _ _ _ He) Hl)) as Hk.
  apply safe_bind, safe_CHECK. intros Ht%Z.ltb_lt. apply safe_bind, safe_on_kernel. eapply loop_pipe_safe; [exact Hk|].
  intros fds k' Hk'. set (st := mkSt ∅ (mkL ∅ list_new) (EPoll_new ek) c q fds.1 t t 0 w).
  assert (wp (EventLoop_new timeout t) (λ _ s', constructed s' ∧ world s' = w) st) as Hwp.
  { eapply EventLoop_new_wp; [|done|done|].
    - split; [done|]. split; [done|]. split; [|done]. unfold EPoll_ok. cbn. by rewrite Hek.
    - intros s' HI _ Hh Hp Hw _. split; [|done]. split; [done|]. split; [done|]. by rewrite Hp. }
  unfold safe, construct. unfold wp in Hwp. destruct (EventLoop_new timeout t st) as [[[] st']| | |] eqn:Hst; [|done..].
  destruct Hwp. apply HQ; [done..|]. apply EventLoop_new_pipe in Hst. by rewrite Hst.
Qed.

(** ** Theorems *)

(** C23: The program starts as it should. From a process that has read and written
    nothing, with new epoll instances and empty pipes, [RunProxy] either aborts
    in a [CHECK] - it does nothing undefined - or comes to its loop in a state
    in which every theorem of WholeRuns.v on the runs of the program begins:
    the loops are constructed and have nothing to do, the proxy keeps no
    callback, and the listening socket and the loops' pipes are open, no two
    the same, and unused. *)
Theorem RunProxy_starts (s : St) :
  clean (rest s) → interest ek = ∅ → pending pq = [] → pending pf = [] → ex_ok e → ex_pending e = [] →
  match RunProxy_start s with
  | Done ((lfd, w), s') => whole_start lfd w ∧ kern w = rest s'
  | Abort _ => True
  | UB _ | NoFuel => False
  end.
Proof.
  intros Hc Hek Hpq Hpf He Hep.
  assert (safe RunProxy_start (λ r s', whole_start r.1 r.2 ∧ kern r.2 = rest s') s) as Hs.
  2: { unfold safe in Hs. destruct (RunProxy_start s) as [[[lfd w] s']| | |]; exact Hs. }
  assert (ready [] (rest s)) as Hl by (split; [done|]; split; [constructor|by intros ? ?%elem_of_nil]).
  unfold RunProxy_start. apply safe_bind, safe_on_kernel. eapply RunProxy_limits_safe; [exact Hl|]. intros k0 Hk0.
  apply safe_bind. eapply Acceptor_new_safe; [exact Hk0|]. intros lfd s1 H1'.
  apply safe_bind, safe_gets, safe_bind. eapply new_loop_safe; [done|done|exact H1'|]. intros sp s2 Hsp Hwp H2'.
  apply safe_bind, safe_gets, safe_bind. eapply new_loop_safe; [done|done|exact H2'|]. intros sc s3 Hsc Hwc H3'.
  apply safe_bind, safe_gets, safe_bind. eapply new_loop_safe; [done|done|exact H3'|]. intros sf s4 Hsf _ (Hcl & Hnd & Hop).
  apply safe_bind, safe_gets, safe_ret. split; [|done]. cbn [fst snd app] in *.
  assert ([pipe_fd sp; pipe_fd sc; pipe_fd sf; lfd] ≡ₚ [lfd; pipe_fd sp; pipe_fd sc; pipe_fd sf]) as Hperm by solve_Permutation.
  split; cbn [sys par con fwd].
  - by exists (rest s4), e.
  - split; [done|]. by rewrite Hwp.
  - split; [done|]. by rewrite Hwc.
  - done.
  - by rewrite Hperm.
  - intros fd Hfd. rewrite Hperm in Hfd. destruct (Hop fd Hfd). split; [done|]. split; [done|]. apply Hcl.
Qed.

Lemma RunProxy_loop_forever others fuel lfd s x : RunProxy_loop others fuel lfd s ≠ Done x.
Proof.
  revert s. induction fuel as [|fuel IH]; intros s; [done|]. cbn [RunProxy_loop]. unfold mbind, M_bind, modify, zoom.
  destruct (Accept _ _ _ _ _ _ _) as [[fd lg]| | |]; [|done..]. destruct (on_accept _ _) as [[[] p]| | |]; [|done..]. apply IH.
Qed.

Lemma RunProxy_forever others fuel s x : RunProxy others fuel s ≠ Done x.
Proof.
  unfold RunProxy, mbind, M_bind, from_proxy. destruct (RunProxy_start s) as [[w s1]| | |]; [|done..].
  pose proof (RunProxy_loop_forever others fuel w.1 (mkLog (errno s1) (stderr s1) (px (sys w.2)))) as Hno.
  destruct (RunProxy_loop _ _ _ _) as [[u s2]| | |]; [by destruct (Hno (u, s2))|done..].
Qed.

(** With an argument [main] prints how it is used and returns 1, and opens
    nothing; without one it never returns, as long as the loop of [RunProxy]
    does not ([LOG(FATAL)] after it is not reached); and without even a name,
    [argv[0]] is a null pointer that it prints. *)
Lemma main_returns file others fuel argv (s : St) :
  match argv with
  | [] => main file others fuel argv s = UB "argv[0]"
  | [_] => ∀ status s', main file others fuel argv s ≠ Done (status, s')
  | argv0 :: _ :: _ => main file others fuel argv s = Done (1%Z, mkLog (errno s) (stderr s ++ usage (c_str argv0) file) (rest s))
  end.
Proof.
  destruct argv as [|argv0 [|arg argv]]; [done| |done]. intros status s'. unfold main. cbn [length Nat.eqb negb].
  unfold mbind at 1, M_bind at 1. pose proof (RunProxy_forever others fuel s) as Hno.
  destruct (RunProxy others fuel s) as [[[] s1]| | |]; [by destruct (Hno (tt, s1))|done..].
Qed.
End start.

(** ** The example's kernel can start *)
#[export] Instance sim_os_limits : LimitKernel sim_os := {|
  ignore_sigpipe := id; getrlimit := λ k, (Some (1024%Z, 4096%Z), k); setrlimit := λ lim k, (bool_decide (lim.1 <= lim.2)%Z, k)
|}.
#[export] Instance sim_os_start : StartKernel sim_os := {|
  pipe2_direct := sys_pipe; fcntl_getfl := λ fd k, (0%Z, k); fcntl_setfl := λ fd fl k, (true, k);
  epoll_create1 := λ k, (inl (next_fd k), open_socket k)
|}.
Lemma sim_os_new k : new_fd (next_fd k) k (open_socket k).
Proof. destruct (next_fd_new k). split; [done|]. split; [done|]. split; [done|]. apply open_socket_new. Qed.
#[export] Instance sim_os_start_laws : StartLaws sim_os.
Proof.
  split; try (intros; by split).
  - intros family k fd k'. cbn. intros [= <- <-]. apply sim_os_new.
  - intros k r w k' Hp. by apply pipe_made in Hp.
  - intros k fd k'. cbn. intros [= <- <-]. apply sim_os_new.
Qed.

Module MainExample.
Local Open Scope Z_scope.
Definition any : addrinfo := mkAddrinfo AF_INET (Some (mkSockaddr AF_INET (0, 0, 0, 0)%N 0xB922%N)).
Definition gai (host port : bytes) : option (list addrinfo) := Some [any].
#[global] Instance gai_laws : AddrInfoLaws gai.
Proof.
  split; intros host port xs [= <-]; [done|]. apply Forall_singleton. split; [by eexists|done].
Qed.

(** Standard input and output are open, and nothing has been read or written. *)
Definition os : sim_os := mkOs (mkSimPipes (mkView {[0; 1; 2]} ∅ ∅ ∅ ∅ ∅ ∅ 0) (λ _, []) (λ _, 0%nat)) (mkSimNet (λ _, []) (λ _, [])) [].
Lemma os_clean : clean os.
Proof. intros fd. by split. Qed.

Definition start : M (log_state (W := sim_os)) (Z * WholeExample.state) :=
  RunProxy_start (λ _, B "error") (λ _, B "now") (λ _ _, 0) INFO WholeExample.opt gai (λ i, 11 + Z.of_nat i)
    (mkSimEpoll ∅ []) [] [] WholeExample.ticks DnsRunExample.e0.

(** The program comes to its loop, with the listening socket 3. *)
Example it_starts : (λ r, r.1.1) <$> match start (mkLog 0 [] os) with Done r => Some r | _ => None end = Some 3.
Proof. by vm_compute. Qed.
End MainExample.

Lemma RunProxy_starts_witness :
  ∃ lfd w s', MainExample.start (mkLog 0 [] MainExample.os) = Done ((lfd, w), s') ∧ whole_start lfd w ∧ kern w = rest s'.
Proof.
  assert (match MainExample.start (mkLog 0 [] MainExample.os) with Done _ => True | _ => False end) as Hd by (vm_compute; exact I).
  pose proof (RunProxy_starts (λ _, B "error") (λ _, B "now") (λ _ _, 0%Z) INFO WholeExample.opt MainExample.gai
    (λ i, (11 + Z.of_nat i)%Z) (mkSimEpoll ∅ []) ([] : list ptr) ([] : list (Z * Z)) WholeExample.ticks DnsRunExample.e0
    (mkLog 0 [] MainExample.os) MainExample.os_clean eq_refl eq_refl eq_refl (proj1 DnsRunExample.e0_ok) (proj2 DnsRunExample.e0_ok)) as Hs.
  fold MainExample.start in Hs.
  destruct (MainExample.start (mkLog 0 [] MainExample.os)) as [[[lfd w] s']|why|why|]; [|destruct Hd..].
  exists lfd, w, s'. split; [reflexivity|exact Hs].
Defined.
